(* ===== verification/_CoqProject ===== *)
-Q . S2P
Prelude.v
Net.v
Event.v
Store.v
Query.v
Config.v
Pipeline.v
Retention.v
Opc.v
AuditMap.v
Ignore.v
Endpoints.v
Admission.v
Task.v
Steps.v
Sessions.v
Relay.v
Login.v
Target.v
Transport.v
Connection.v
Lifetime.v
Browser.v
Users.v
WebAuth.v
LoginLimits.v
WebSession.v
WebUsers.v
Export.v
Lines.v
Discovery.v
Serving.v
ConfigFile.v
Targets.v
WebTargets.v
WebSettings.v
WebEdits.v
Pki.v
WebCerts.v
WebBrowser.v
WebTrail.v
Mcp.v
Within.v
Router.v
Access.v
Main.v
Integrity.v
