(* ===== verification/Prelude.v ===== *)
(** * A verification library for the OPC UA audit gateway

    The gateway stands between OPC UA clients and the servers (PLCs) they
    control. It ends the client's secure channel, opens one of its own to the
    server, forwards what passes, and writes what changes something, who did it
    and how it ended to an audit trail that shows when it was tampered with. A
    web UI and an endpoint for AI assistants configure it and read the trail.

    ** The parts, and where they are modelled

    The audit trail. [Event] is the data of an entry ([audit/event.rs]);
    [Store] the tables, the hash chain, appending, pruning and verifying
    ([audit/store.rs]), [Query] the reads of the same file; [Pipeline] the
    queue and the writer thread between those who record and the store
    ([audit/mod.rs]), which reaches the store through the interface
    [AuditSink], and [Retention] the task that removes old records (same file).
    [Export] ships the trail elsewhere ([export/mod.rs]) and [Lines] renders
    records for QuestDB and as CSV ([export/questdb.rs], [web/mod.rs]).

    The relay. [Opc] is what the relay's code looks at of OPC UA messages;
    [Transport] the handshake, frames and chunks towards a client
    ([relay/transport.rs]); [Connection] one client connection, its secure
    channel, its upstream channel and the turns of its loop
    ([relay/connection.rs], [relay/upstream.rs]), [Lifetime] its life with the
    requests in progress, from [run] to [finish_audited]; [Login] creating and
    activating sessions and [Relay] forwarding (both [relay/connection.rs]);
    [AuditMap] which audit events a request and its answer are ([relay/audit_map.rs]); [Ignore] writes that are
    summarised ([relay/ignore.rs]); [Endpoints] what is offered to clients
    ([relay/endpoints.rs]); [Admission] and [Sessions] what the connections of
    a target share ([relay/mod.rs]); [Target] all their tasks together, and
    [Serving] the loop that accepts them ([serve]).

    Configuration. [Config] is the configuration and its validation
    ([config.rs]), [ConfigFile] the file it is kept in, [Targets] the running
    targets and changes to them (both [targets.rs]), [Discovery] their status
    ([discovery.rs]), [Pki] certificates and trust ([pki.rs], [fsutil.rs]).

    The web UI. [Users] is the users' database ([users.rs]); [WebAuth] logins,
    cookies and their limits ([web/auth.rs]), with [LoginLimits] and
    [WebSession] about them over time; the handlers are in [WebUsers],
    [WebTargets], [WebCerts] ([web/mod.rs]), [WebSettings]
    ([web/settings.rs]); [WebEdits] is about all changes to the configuration.
    [Browser] has the choice of an endpoint and the table of the UI's own
    sessions with servers, [WebBrowser] the handlers that open, use and end
    them ([web/browser.rs]); [WebTrail] reading the trail, acknowledging alarms,
    the status and the headers of every answer ([web/mod.rs]). [Mcp] is the
    endpoint for assistants ([web/mcp.rs]); its tools call the handlers.
    [Router] has the routes to all of them, the checks a request passes and what
    a handler gets of it ([web/mod.rs]); [Access] is about who may do what.

    The program. [Main] starts and stops all of these in order, checks the trail
    on the command line and has the commands for users ([main.rs]). [Integrity]
    puts everything that runs together, step by step.

    Shared. [Prelude] has results, list and text lemmas and automation, [Net]
    addresses and paths, [Task] and [Steps] the programs below.

    ** How code becomes definitions

    A function without effects is a function, with the source's name. A Rust
    [Result] is [result], [Option] is [option]; integers are [Z] with the wrap,
    saturation or clamp of their width written out where they meet it.

    Code that holds a lock from its first to its last access is a function on
    the state behind the lock. Async code is a program of [Task]: a tree of
    effects (clock, random bytes, an audit record, a critical section, a call
    upstream) whose answers come from outside, so other requests may change the
    shared state between any two effects; [runs p ls r] says that [p] did [ls]
    and is now [r]. A handler of the web UI is a program over the state it
    needs ([WebAuth.Gw], [WebTargets.Site], [WebCerts.App]); [zoom] runs a
    program for a part on the whole. [Steps.keeps] is about programs cut off
    anywhere, as by a crash; [Within.stays] is a relation all steps of a program
    keep to, which is what the parts promise each other.

    What the code calls but does not contain is a class: [Opc] and [Stack] and
    [Channels] (the OPC UA stack), [Crypto], [X509Lib] (certificates),
    [StoreEnv] (SHA-256, serde and time formats of the trail), [UserEnv]
    (Argon2), [Serde] (JSON of the assistants' endpoint), [Routing] and [Extract]
    (axum's matching of paths, and what it reads of a request). Where a theorem
    relies on their behaviour it names a class of laws ([StoreEnvOk],
    [StackOk], [X509Laws], [AuditJson]); each has an instance that is
    computed with in the file's examples and witnesses. Statements and writes
    that may fail, file operations and the network answer through arguments.

    ** What the theorems show

    The trail: a trail made by the store verifies, any other trail with the
    same end is the same trail, retention removes only expired records and
    leaves a record of it, and comes to an end with nothing left to remove; what
    a caller was told is stored is stored, and every event is stored, reported
    as lost or still on its way.
    Every exported record arrives once it can, in order, with gaps reported.

    The relay: in fail-closed mode a change reaches the server only after its
    record is stored; each answered write is recorded exactly once with its
    outcome; a record names the user whose session the request used; a channel
    is issued only to a trusted certificate, a session only activated with
    proof of it and on a channel at least as secure; what a client sends is
    bounded before anything is trusted. A change is seen through when its client
    is gone; every connection has a place among those the target allows, and who
    is turned away is counted until that is on record.

    Configuration: [validate] is a conjunction of conditions; edits of targets
    refine changes of an abstract configuration; what is written to the file is read back; the record of a target's
    status tells the status; an interrupted change of the certificate recovers.

    The web UI: a cookie is worth what its user may do now; guesses are bounded;
    changes of users, configuration and certificates are
    recorded or did not happen, with the exceptions the theorems state; stored
    secrets follow the server they were given for; an assistant does no more
    than its token allows, after its call was recorded without secrets. Over all
    routes: whatever the request, the configuration, the certificates and the
    users change only for an admin whose own pages sent it, for the user's own
    row, or by a token's call; and who is answered has the role of the manual.
    The whole gateway stays well formed under every interleaving.

    The browser's sessions: each one opened is closed on record, dropped where
    the connection is found ended, or still in the table, one per user and
    target. The program: no target runs before the start is on record, and the
    check on the command line vouches for every record that was exported or
    noted.

    Where the code does something its text does not say, the theorem states
    what it does and an [Example] runs it; these are listed as findings.

    ** Bounds

    Recursion that is not structural has fuel: [Config.drop_all] one step per
    summarise group ([drop_all_spec]), [Lines.csv_pages] one per page up to the
    source's limit of 100 000 records ([csv_complete]); the digits of
    [Net.read_digits] are the source's own bound. Programs end because they are
    trees; a loop of the source that may run on is a step of a relation
    ([Target], [Lifetime], [Serving], [WebSession], [Targets], [Export]); that a
    connection can always come to its end is [Lifetime.connection_ends]. Times are nanoseconds, or
    microseconds where the code stores them so.

    ** Not modelled

    Of [main.rs] the parsing of the command line, [init] and [discover]'s
    printing, [service.rs] (Windows service), [export/tls.rs] and the TLS
    configuration in [web/tls.rs] (options of the TLS library), the embedded
    files of the UI, log output, file permissions. The event loop of an upstream
    channel and its closing are calls of the OPC UA stack; bytes are moved to and
    from sockets by it and the runtime. SQLite's files, OPC UA encoding and
    cryptography, HTTP, the bodies of answers and JSON are their libraries'.
    Tests and examples are not modelled. *)

From Stdlib Require Import ZArith Lia.
From Stdlib Require Export Ascii String.
From stdpp Require Export base option list gmap strings pretty numbers fin_maps sorting.

#[global] Arguments String.append : simpl nomatch.

(** ** Fallible computations

    [anyhow::Result] and the service results of the relay are values of
    [result]: the error is data, and a function that fails says what its state
    is afterwards by returning it next to the result. *)
Inductive result (E A : Type) : Type :=
| Ok (a : A)
| Err (e : E).
Arguments Ok {E A} a.
Arguments Err {E A} e.

#[export] Instance result_ret E : MRet (result E) := fun A a => Ok a.
#[export] Instance result_bind E : MBind (result E) := fun A B f r =>
  match r with Ok a => f a | Err e => Err e end.
#[export] Instance result_fmap E : FMap (result E) := fun A B f r =>
  match r with Ok a => Ok (f a) | Err e => Err e end.

Declare Scope gateway_scope.
Delimit Scope gateway_scope with gw.
Open Scope gateway_scope.

(** An early return with an error: [if c { bail!(e) }; k]. *)
Notation "'bail_if' c 'with' e ; k" := (if c then Err e else k)
  (at level 100, c at next level, e at next level, k at level 200, right associativity,
   format "'bail_if'  c  'with'  e ; '//' k") : gateway_scope.

Definition is_ok {E A} (r : result E A) : bool :=
  match r with Ok _ => true | Err _ => false end.

Definition result_ok {E A} (r : result E A) : option A :=
  match r with Ok a => Some a | Err _ => None end.

Definition is_Ok {E A} (r : result E A) : bool :=
  match r with Ok _ => true | Err _ => false end.

Definition of_option {E A} (e : E) (o : option A) : result E A :=
  match o with Some a => Ok a | None => Err e end.

(** [Iterator::collect::<Result<Vec<_>, _>>]: the first error ends it. *)
Fixpoint collect {E A} (l : list (result E A)) : result E (list A) :=
  match l with
  | [] => Ok []
  | r :: l => a ← r; rest ← collect l; Ok (a :: rest)
  end.

Lemma result_bind_Ok {E A B} (m : result E A) (f : A → result E B) b :
  (x ← m; f x) = Ok b ↔ ∃ a, m = Ok a ∧ f a = Ok b.
Proof. destruct m as [a|e]; simpl; split; [eauto|by intros (?&[= <-]&?)|done|by intros (?&?&?)]. Qed.

Lemma of_option_Ok {E A} (e : E) (o : option A) a : of_option e o = Ok a ↔ o = Some a.
Proof. destruct o; simpl; split; congruence. Qed.

Lemma bail_Ok {E A} (c : bool) (e : E) (k : result E A) a :
  (bail_if c with e; k) = Ok a ↔ c = false ∧ k = Ok a.
Proof. destruct c; split; [done|by intros []|done|by intros []]. Qed.

Lemma collect_Ok {E A} (l : list (result E A)) xs : collect l = Ok xs ↔ l = Ok <$> xs.
Proof.
  revert xs. induction l as [|r l IH]; intros xs; simpl.
  - destruct xs; split; done || by intros [= ].
  - rewrite result_bind_Ok. setoid_rewrite result_bind_Ok. setoid_rewrite IH.
    destruct xs as [|x xs]; split.
    + by intros (? & _ & ? & _ & ?).
    + done.
    + intros (a & -> & ys & -> & [= <- <-]). done.
    + intros [= -> ->]. eauto.
Qed.

(** Elements inserted one by one into a set, each of them new. *)
Definition all_new {A} (seen l : list A) : Prop := NoDup l ∧ ∀ x, x ∈ l → x ∉ seen.

Lemma all_new_nil {A} (seen : list A) : all_new seen [].
Proof. split; [constructor|]. intros x Hx. by apply not_elem_of_nil in Hx. Qed.

Lemma all_new_cons {A} (seen : list A) x l :
  all_new seen (x :: l) ↔ x ∉ seen ∧ all_new (x :: seen) l.
Proof.
  unfold all_new. rewrite NoDup_cons. setoid_rewrite elem_of_cons. split.
  - intros ((Hx & Hn) & Hs). split; [apply Hs; by left|]. split; [done|].
    intros y Hy [->|Hi]; [done|]. by apply (Hs y); [right|].
  - intros (Hx & Hn & Hs). split; [split; [|done]|].
    + intros Hin. apply (Hs x Hin). by left.
    + intros y [->|Hy]; [done|]. intros Hi. apply (Hs y Hy). by right.
Qed.

Lemma all_new_start {A} (l : list A) : all_new [] l ↔ NoDup l.
Proof. unfold all_new. split; [by intros []|]. intros; split; [done|]. intros ??. apply not_elem_of_nil. Qed.

(** ** Sorted lists *)
Lemma elem_of_take_l {A} n (l : list A) x : x ∈ take n l → x ∈ l.
Proof. intros Hx. rewrite <- (take_drop n l). set_solver. Qed.

Lemma elem_of_drop_l {A} n (l : list A) x : x ∈ drop n l → x ∈ l.
Proof. intros Hx. rewrite <- (take_drop n l). set_solver. Qed.

Section Sorted.
Context {A : Type} (R : A → A → Prop).

Lemma StronglySorted_take_drop l n x y :
  StronglySorted R l → x ∈ take n l → y ∈ drop n l → R x y.
Proof.
  intros Hs. revert n. induction Hs as [|a l Hs IH Ha]; intros [|n]; simpl; rewrite ?elem_of_nil; try done.
  rewrite elem_of_cons. intros [->|Hx] Hy; [|by eapply IH].
  rewrite Forall_forall in Ha. apply Ha. by eapply elem_of_drop_l.
Qed.

Lemma StronglySorted_filter f l : StronglySorted R l → StronglySorted R (List.filter f l).
Proof.
  induction 1 as [|a l Hs IH Ha]; simpl; [constructor|].
  destruct (f a); [|done]. constructor; [done|].
  apply Forall_forall. intros x [Hx _]%list_elem_of_In%filter_In.
  rewrite Forall_forall in Ha. by apply Ha, list_elem_of_In.
Qed.

Lemma StronglySorted_snoc l a :
  StronglySorted R l → Forall (fun x => R x a) l → StronglySorted R (l ++ [a]).
Proof.
  induction 1 as [|b l Hs IH Hb]; intros Ha; [by repeat constructor|].
  inversion_clear Ha. simpl. constructor; [auto|].
  apply Forall_app. split; [done|]. by constructor.
Qed.

Lemma StronglySorted_take n l : StronglySorted R l → StronglySorted R (take n l).
Proof.
  intros Hs. revert n. induction Hs as [|a l Hs IH Ha]; intros [|n]; simpl; try constructor; auto.
  by apply Forall_take.
Qed.

(** A page ends at its last element: what comes behind it is the rest. *)
Lemma sorted_next_page `{!Irreflexive R, !Transitive R} (f : A → bool) l n r :
  StronglySorted R l → last (take n l) = Some r →
  (∀ x, x ∈ l → f x = true ↔ R r x) → List.filter f l = drop n l.
Proof.
  intros Hs Hr Hf. apply last_Some in Hr as [pre Hpre].
  rewrite <- (take_drop n l) at 1. rewrite List.filter_app.
  assert (Hin : ∀ x, x ∈ take n l → x ∈ l) by eauto using elem_of_take_l.
  assert (Hin' : ∀ x, x ∈ drop n l → x ∈ l) by eauto using elem_of_drop_l.
  assert (H1 : List.filter f (take n l) = []).
  { assert (Hr : ∀ x, x ∈ take n l → ¬ R r x).
    { rewrite Hpre. intros x [Hx| ->%list_elem_of_singleton]%elem_of_app; [|apply irreflexivity; apply _].
      intros Hrx. apply (irreflexivity R r). trans x; [done|].
      apply (StronglySorted_take n) in Hs. rewrite Hpre in Hs.
      eapply (StronglySorted_take_drop _ (length pre) x r Hs).
      - by rewrite take_app_length.
      - rewrite drop_app_length. set_solver. }
    clear Hpre. induction (take n l) as [|x t IH]; simpl; [done|].
    destruct (f x) eqn:Hx.
    - exfalso. apply (Hr x); [set_solver|]. apply Hf; [|done]. set_solver.
    - apply IH; set_solver. }
  rewrite H1. simpl.
  assert (Hr : ∀ x, x ∈ drop n l → R r x).
  { intros x Hx. eapply StronglySorted_take_drop; [done| |done]. rewrite Hpre. set_solver. }
  induction (drop n l) as [|x t IH]; simpl; [done|].
  rewrite (proj2 (Hf x (Hin' x ltac:(set_solver)))) by (apply Hr; set_solver).
  rewrite IH; [done|set_solver..].
Qed.
End Sorted.

(** ** Machine integers *)
Open Scope Z_scope.
#[global] Coercion Z.of_nat : nat >-> Z.

Definition i64_min : Z := - 2 ^ 63.
Definition i64_max : Z := 2 ^ 63 - 1.
Definition u64_max : Z := 2 ^ 64 - 1.
Definition u32_max : Z := 2 ^ 32 - 1.

(** Wrap-around of [i64], [u32] and [u64] arithmetic in a release build. *)
Definition i64_wrap (z : Z) : Z := (z + 2 ^ 63) mod 2 ^ 64 - 2 ^ 63.
Definition u32_wrap (z : Z) : Z := z mod 2 ^ 32.
Definition u64_wrap (z : Z) : Z := z mod 2 ^ 64.

Lemma i64_wrap_small z : i64_min ≤ z ≤ i64_max → i64_wrap z = z.
Proof. unfold i64_wrap, i64_min, i64_max. intros ?. rewrite Z.mod_small; lia. Qed.

Lemma u64_wrap_small z : 0 ≤ z ≤ u64_max → u64_wrap z = z.
Proof. unfold u64_wrap, u64_max. intros ?. apply Z.mod_small. lia. Qed.

Lemma u32_wrap_small z : 0 ≤ z ≤ u32_max → u32_wrap z = z.
Proof. unfold u32_wrap, u32_max. intros ?. apply Z.mod_small. lia. Qed.

(** [Ord::clamp]. *)
Definition clamp (z lo hi : Z) : Z := if z <? lo then lo else if hi <? z then hi else z.

Lemma clamp_bounds z lo hi : lo ≤ hi → lo ≤ clamp z lo hi ≤ hi.
Proof. unfold clamp. intros. destruct (Z.ltb_spec z lo), (Z.ltb_spec hi z); lia. Qed.

Lemma clamp_id z lo hi : lo ≤ z ≤ hi → clamp z lo hi = z.
Proof. unfold clamp. intros. destruct (Z.ltb_spec z lo), (Z.ltb_spec hi z); lia. Qed.

(** ** Text

    A Rust [str] is its UTF-8 bytes: a [string]. Its chars are the groups that
    begin at a byte which is not a continuation byte (10xxxxxx). *)
Definition is_char_start (a : ascii) : bool :=
  let n := N_of_ascii a in negb ((128 <=? n)%N && (n <? 192)%N).

(** [s.chars().count()] *)
Fixpoint chars_count (s : string) : nat :=
  match s with
  | EmptyString => 0
  | String a s => (if is_char_start a then 1 else 0) + chars_count s
  end%nat.

(** [s.char_indices().nth(n)], the byte offset only. *)
Fixpoint nth_char_offset (n : nat) (s : string) : option nat :=
  match s with
  | EmptyString => None
  | String a s =>
      if is_char_start a then
        match n with O => Some O | S n => S <$> nth_char_offset n s end
      else S <$> nth_char_offset n s
  end.

(** The chars of a string, each as the bytes that encode it. *)
Fixpoint chars (s : string) : list string :=
  match s with
  | EmptyString => []
  | String a s =>
      match chars s with
      | (String b _ as c) :: cs =>
          if is_char_start b then String a EmptyString :: c :: cs
          else String a c :: cs
      | cs => String a EmptyString :: cs
      end
  end.

Definition concat_all (l : list string) : string := foldr String.append EmptyString l.

(** [slice.join(sep)] *)
Fixpoint join (sep : string) (l : list string) : string :=
  match l with
  | [] => EmptyString
  | [s] => s
  | s :: l => s +:+ sep +:+ join sep l
  end.

Definition lf : string := String "010"%char EmptyString.

Fixpoint has_byte (a : ascii) (s : string) : bool :=
  match s with
  | EmptyString => false
  | String b s => Ascii.eqb a b || has_byte a s
  end.

(** [s.contains(pat)] *)
Fixpoint contains (pat s : string) : bool :=
  String.prefix pat s ||
  match s with EmptyString => false | String _ s => contains pat s end.

(** [s.split(c)] for an ASCII char [c]: always at least one piece. *)
Fixpoint split (c : ascii) (s : string) : list string :=
  match s with
  | EmptyString => [EmptyString]
  | String a s =>
      if Ascii.eqb a c then EmptyString :: split c s
      else match split c s with
           | p :: ps => String a p :: ps
           | [] => [String a EmptyString]
           end
  end.

(** [s.split_once(c)] and [s.rsplit_once(c)] *)
Fixpoint split_once (c : ascii) (s : string) : option (string * string) :=
  match s with
  | EmptyString => None
  | String a s =>
      if Ascii.eqb a c then Some (EmptyString, s)
      else '(x, y) ← split_once c s; Some (String a x, y)
  end.

Fixpoint rsplit_once (c : ascii) (s : string) : option (string * string) :=
  match s with
  | EmptyString => None
  | String a s =>
      match rsplit_once c s with
      | Some (x, y) => Some (String a x, y)
      | None => if Ascii.eqb a c then Some (EmptyString, s) else None
      end
  end.

(** [s.strip_prefix(p)] *)
Fixpoint strip_prefix (p s : string) : option string :=
  match p, s with
  | EmptyString, _ => Some s
  | String a p, String b s => if Ascii.eqb a b then strip_prefix p s else None
  | _, EmptyString => None
  end.

Definition starts_with (p s : string) : bool := bool_decide (is_Some (strip_prefix p s)).

Fixpoint string_all (f : ascii → bool) (s : string) : bool :=
  match s with EmptyString => true | String a s => f a && string_all f s end.

Fixpoint string_map (f : ascii → ascii) (s : string) : string :=
  match s with EmptyString => EmptyString | String a s => String (f a) (string_map f s) end.

(** ASCII classes, as in [char::is_ascii_alphanumeric] and friends. *)
Definition byte_in (lo hi : N) (a : ascii) : bool :=
  let n := N_of_ascii a in (lo <=? n)%N && (n <=? hi)%N.
Definition is_ascii_digit : ascii → bool := byte_in 48 57.
Definition is_ascii_upper : ascii → bool := byte_in 65 90.
Definition is_ascii_lower : ascii → bool := byte_in 97 122.
Definition is_ascii_alphanumeric (a : ascii) : bool :=
  is_ascii_digit a || is_ascii_upper a || is_ascii_lower a.

Definition ascii_lower (a : ascii) : ascii :=
  if is_ascii_upper a then ascii_of_N (N_of_ascii a + 32) else a.
Definition to_ascii_lowercase : string → string := string_map ascii_lower.
Definition eq_ignore_ascii_case (a b : string) : bool :=
  String.eqb (to_ascii_lowercase a) (to_ascii_lowercase b).

Definition str_of_bytes (l : list N) : string :=
  foldr (fun n s => String (ascii_of_N n) s) EmptyString l.

(** Unicode [White_Space], the chars [str::trim] removes, as UTF-8. *)
Definition white_space : list string :=
  str_of_bytes <$>
  [[9];[10];[11];[12];[13];[32];[194;133];[194;160];[225;154;128];
   [226;128;128];[226;128;129];[226;128;130];[226;128;131];[226;128;132];
   [226;128;133];[226;128;134];[226;128;135];[226;128;136];[226;128;137];
   [226;128;138];[226;128;168];[226;128;169];[226;128;175];[226;129;159];
   [227;128;128]]%N.

Definition is_white_space (c : string) : bool := bool_decide (c ∈ white_space).

(** [char::is_control]: general category Cc. *)
Definition is_control (c : string) : bool :=
  match c with
  | String a EmptyString => (N_of_ascii a <? 32)%N || (N_of_ascii a =? 127)%N
  | String a (String b EmptyString) =>
      (N_of_ascii a =? 194)%N && byte_in 128 159 b
  | _ => false
  end.

Fixpoint drop_while {A} (f : A → bool) (l : list A) : list A :=
  match l with [] => [] | a :: l' => if f a then drop_while f l' else l end.

(** [str::trim] *)
Definition trim (s : string) : string :=
  concat_all (reverse (drop_while is_white_space
    (reverse (drop_while is_white_space (chars s))))).

(** [trim_start_matches(c)] and [trim_end_matches(c)] for an ASCII char. *)
Fixpoint trim_start_matches (c : ascii) (s : string) : string :=
  match s with
  | String a s' => if Ascii.eqb a c then trim_start_matches c s' else s
  | EmptyString => EmptyString
  end.

Fixpoint trim_end_matches (c : ascii) (s : string) : string :=
  match s with
  | EmptyString => EmptyString
  | String a s =>
      match trim_end_matches c s with
      | EmptyString => if Ascii.eqb a c then EmptyString else String a EmptyString
      | s' => String a s'
      end
  end.

(** ** Shared lemmas on text *)
Create HintDb gateway.
Create Rewrite HintDb gateway_text.

Lemma string_app_nil_r (s : string) : s +:+ EmptyString = s.
Proof. induction s; simpl; congruence. Qed.

Lemma string_app_assoc' (a b c : string) : a +:+ (b +:+ c) = (a +:+ b) +:+ c.
Proof. induction a; simpl; congruence. Qed.

Lemma chars_count_app a b : chars_count (a +:+ b) = (chars_count a + chars_count b)%nat.
Proof. induction a; simpl; [done|]. rewrite IHa. lia. Qed.

Lemma has_byte_app c a b : has_byte c (a +:+ b) = has_byte c a || has_byte c b.
Proof. induction a; simpl; [done|]. rewrite IHa. by rewrite orb_assoc. Qed.

#[export] Hint Rewrite chars_count_app has_byte_app string_app_nil_r : gateway_text.

Lemma nth_char_offset_None n s :
  nth_char_offset n s = None ↔ (chars_count s ≤ n)%nat.
Proof.
  revert n. induction s as [|a s IH]; intros n; simpl; [split; [lia|done]|].
  destruct (is_char_start a), n; simpl; rewrite ?fmap_None, ?IH; lia || (split; done || lia).
Qed.

(** The bytes before the [n]-th char hold exactly [n] chars. *)
Lemma nth_char_offset_Some n s k :
  nth_char_offset n s = Some k →
  chars_count (substring 0 k s) = n ∧ String.prefix (substring 0 k s) s = true.
Proof.
  revert n k. induction s as [|a s IH]; intros n k; simpl; [done|].
  destruct (is_char_start a) eqn:Ha; [destruct n|];
    rewrite ?fmap_Some; try (intros [= <-]; simpl; split; [done|by destruct s]).
  all: intros (j & Hj & ->); apply IH in Hj as [Hc Hp]; simpl; rewrite Ha, ?Hc, ?Hp;
    split; [done|by destruct (ascii_dec a a)].
Qed.

(** Splitting at the first separator undoes joining with it. *)
Lemma split_once_app c a b :
  has_byte c a = false → split_once c (a +:+ String c b) = Some (a, b).
Proof.
  induction a as [|x a IH]; simpl.
  - intros _. by rewrite Ascii.eqb_refl.
  - intros [H1 H2]%orb_false_elim. rewrite Ascii.eqb_sym, H1. by rewrite IH.
Qed.

Lemma split_once_Some c s a b :
  split_once c s = Some (a, b) → s = a +:+ String c b ∧ has_byte c a = false.
Proof.
  revert a b. induction s as [|x s IH]; intros a b; simpl; [done|].
  destruct (Ascii.eqb_spec x c) as [->|Hne].
  - intros [= <- <-]. done.
  - destruct (split_once c s) as [[y z]|] eqn:E; simpl; [|done].
    intros [= <- <-]. destruct (IH _ _ eq_refl) as [-> H]. split; [done|].
    simpl. rewrite H, orb_false_r. apply Ascii.eqb_neq. congruence.
Qed.

(** Two texts joined with a separator neither first part contains. *)
Lemma app_sep_inj c a a' b b' :
  has_byte c a = false → has_byte c a' = false →
  a +:+ String c b = a' +:+ String c b' → a = a' ∧ b = b'.
Proof.
  intros H H' E. apply (f_equal (split_once c)) in E.
  rewrite !split_once_app in E by done. by simplify_eq.
Qed.

Lemma length_app_string (a b : string) : String.length (a +:+ b) = (String.length a + String.length b)%nat.
Proof. induction a as [|c a IH]; simpl; [done|]. by rewrite IH. Qed.

Lemma append_same_tail a b s : a +:+ s = b +:+ s → a = b.
Proof.
  revert b. induction a as [|c a IH]; intros [|d b]; simpl; [done|..].
  - intros He. apply (f_equal String.length) in He. simpl in He. rewrite length_app_string in He. lia.
  - intros He. apply (f_equal String.length) in He. simpl in He. rewrite length_app_string in He. lia.
  - intros [= -> He]. by rewrite (IH _ He).
Qed.

(** ** Decimal numerals *)
Lemma pretty_N_go_digits x s :
  string_all is_ascii_digit s = true → string_all is_ascii_digit (pretty_N_go x s) = true.
Proof.
  revert s. induction (N.lt_wf_0 x) as [x _ IH]; intros s Hs.
  destruct (decide (0 < x)%N) as [Hx|Hx].
  - rewrite pretty_N_go_step by done. apply IH.
    + apply N.div_lt; lia.
    + simpl. rewrite Hs, andb_true_r.
      pose proof (N.mod_lt x 10 ltac:(lia)) as Hm. revert Hm.
      generalize (x `mod` 10)%N. intros m Hm.
      destruct m as [|p]; [done|].
      do 4 (destruct p as [p|p|]; try done); lia.
  - assert (x = 0%N) as -> by lia. by rewrite pretty_N_go_0.
Qed.

Lemma pretty_N_digits (n : N) : string_all is_ascii_digit (pretty n) = true.
Proof.
  unfold pretty, pretty_N. case_decide; [done|]. by apply pretty_N_go_digits.
Qed.

Lemma string_all_no_byte f c s :
  f c = false → string_all f s = true → has_byte c s = false.
Proof.
  intros Hc. induction s as [|a s IH]; simpl; [done|].
  intros [Ha Hs]%andb_prop. rewrite (IH Hs), orb_false_r.
  apply Ascii.eqb_neq. intros ->. congruence.
Qed.

Lemma pretty_Z_no_lf (z : Z) : has_byte "010"%char (pretty z) = false.
Proof.
  unfold pretty, pretty_Z. destruct z as [|p|p]; simpl; try done.
  all: apply (string_all_no_byte is_ascii_digit); [done|apply pretty_N_digits].
Qed.
#[export] Hint Resolve pretty_Z_no_lf : gateway.

(** ** Chars and trimming *)
Lemma concat_all_chars s : concat_all (chars s) = s.
Proof.
  induction s as [|a s IH]; [done|]. simpl. destruct (chars s) as [|[|b c] cs]; simpl in *.
  - by rewrite <- IH.
  - by rewrite <- IH.
  - destruct (is_char_start b); simpl; by rewrite <- IH.
Qed.

Lemma concat_all_app a b : concat_all (a ++ b) = concat_all a +:+ concat_all b.
Proof. induction a as [|x a IH]; simpl; [done|]. by rewrite IH, string_app_assoc'. Qed.

Lemma drop_while_id {A} (f : A → bool) l : Forall (fun x => f x = false) l → drop_while f l = l.
Proof. destruct 1 as [|x l Hx]; simpl; [done|by rewrite Hx]. Qed.

(** Text without white space is its own [trim]. *)
Lemma trim_id s : Forall (fun c => is_white_space c = false) (chars s) → trim s = s.
Proof.
  intros Hs. unfold trim. rewrite (drop_while_id _ (chars s)) by done.
  rewrite drop_while_id, reverse_involutive by by apply Forall_reverse.
  apply concat_all_chars.
Qed.

(** The chars of ASCII text are its bytes. *)
Lemma chars_ascii f s :
  (∀ a, f a = true → is_char_start a = true) → string_all f s = true →
  Forall (fun c => ∃ a, c = String a EmptyString ∧ f a = true) (chars s).
Proof.
  intros Hf. induction s as [|a s IH]; simpl; [constructor|].
  intros [Ha Hs]%andb_prop. specialize (IH Hs).
  destruct (chars s) as [|[|b c] cs]; simpl; [by repeat constructor; eauto| |].
  - inversion_clear IH as [|? ? (? & ? & _)]. done.
  - inversion IH as [|? ? (b' & Hb & Hfb)]; simplify_eq. rewrite Hf by done.
    constructor; eauto.
Qed.

Lemma digit_not_white a : is_ascii_digit a = true → is_white_space (String a EmptyString) = false.
Proof. destruct a as [[] [] [] [] [] [] [] []]; vm_compute; done. Qed.

Lemma digit_char_start a : is_ascii_digit a = true → is_char_start a = true.
Proof. destruct a as [[] [] [] [] [] [] [] []]; vm_compute; done. Qed.

Lemma trim_digits s : string_all is_ascii_digit s = true → trim s = s.
Proof.
  intros Hs. apply trim_id. eapply Forall_impl; [by apply (chars_ascii is_ascii_digit), Hs; apply digit_char_start|].
  simpl. intros c (a & -> & Ha). by apply digit_not_white.
Qed.

(** ** Lists as the code sorts and thins them *)

(** [Vec::dedup] *)
Fixpoint dedup {A} `{EqDecision A} (l : list A) : list A :=
  match l with
  | x :: ((y :: _) as rest) => if bool_decide (x = y) then dedup rest else x :: dedup rest
  | _ => l
  end.

Lemma elem_of_dedup {A} `{EqDecision A} (x : A) l : x ∈ dedup l ↔ x ∈ l.
Proof.
  induction l as [|a l IH]; [done|]. destruct l as [|b l]; [done|].
  cbn [dedup]. case_bool_decide as Hab; [subst|].
  - rewrite IH. set_solver.
  - rewrite !elem_of_cons, IH. set_solver.
Qed.

(** [slice::sort_by_key] for a comparison of keys: stable. *)
Fixpoint insert_sorted {A} (le : A → A → bool) (x : A) (l : list A) : list A :=
  match l with
  | [] => [x]
  | y :: l' => if le x y then x :: l else y :: insert_sorted le x l'
  end.
Definition sort_stable {A} (le : A → A → bool) (l : list A) : list A :=
  foldr (insert_sorted le) [] l.

Lemma insert_sorted_perm {A} le (x : A) l : insert_sorted le x l ≡ₚ x :: l.
Proof.
  induction l as [|y l IH]; simpl; [done|]. destruct (le x y); [done|].
  rewrite IH. by rewrite Permutation_swap.
Qed.
Lemma sort_stable_perm {A} le (l : list A) : sort_stable le l ≡ₚ l.
Proof. induction l as [|x l IH]; simpl; [done|]. by rewrite insert_sorted_perm, IH. Qed.

(** The first of a sorted list is a least element. *)
Lemma sort_stable_head {A} (le : A → A → bool) (l : list A) x rest :
  (∀ a b, le a b = true ∨ le b a = true) → (∀ a b c, le a b = true → le b c = true → le a c = true) →
  sort_stable le l = x :: rest → ∀ y, y ∈ l → le x y = true.
Proof.
  intros Htot Htr. revert x rest. induction l as [|a l IH]; intros x rest; [done|].
  change (sort_stable le (a :: l)) with (insert_sorted le a (sort_stable le l)).
  destruct (sort_stable le l) as [|b s] eqn:Hs; simpl.
  - intros [= <- <-] y Hy. assert (l = []) as ->.
    { apply Permutation_nil. rewrite <- Hs. apply sort_stable_perm. }
    apply list_elem_of_singleton in Hy as ->. by destruct (Htot a a).
  - destruct (le a b) eqn:Hab; intros [= <- <-] y [->|Hy]%elem_of_cons.
    + by destruct (Htot a a).
    + apply (Htr a b); [done|]. by eapply IH.
    + destruct (Htot a b) as [?|?]; congruence.
    + by eapply IH.
Qed.

Lemma bool_filter_sublist {A} (f : A → bool) l : List.filter f l `sublist_of` l.
Proof. induction l as [|a l IH]; simpl; [done|]. destruct (f a); by constructor. Qed.

Lemma bool_filter_all {A} (f : A → bool) l : (length l <= length (List.filter f l))%nat → List.filter f l = l.
Proof.
  induction l as [|a l IH]; simpl; [done|]. destruct (f a); simpl; intros Hl; [rewrite IH by lia; done|].
  pose proof (sublist_length _ _ (bool_filter_sublist f l)). lia.
Qed.

(** ** Splitting and joining *)
Lemma split_no_sep c s : has_byte c s = false → split c s = [s].
Proof.
  induction s as [|a s IH]; [done|]. simpl. intros [Ha Hs]%orb_false_iff.
  rewrite Ascii.eqb_sym in Ha. by rewrite Ha, IH.
Qed.

Lemma split_cons c a rest : has_byte c a = false → split c (a +:+ String c rest) = a :: split c rest.
Proof.
  induction a as [|x a IH]; simpl; [by rewrite Ascii.eqb_refl|].
  intros [Ha Hs]%orb_false_iff. rewrite Ascii.eqb_sym in Ha. by rewrite Ha, IH.
Qed.

Lemma split_join c l :
  l ≠ [] → Forall (fun s => has_byte c s = false) l → split c (join (String c EmptyString) l) = l.
Proof.
  intros Hne. induction 1 as [|a l Ha Hl IH]; [done|]. destruct l as [|b l]; [by apply split_no_sep|].
  change (join (String c EmptyString) (a :: b :: l)) with
    (a +:+ String c (join (String c EmptyString) (b :: l))).
  rewrite split_cons by done. by rewrite IH.
Qed.

Lemma join_split c s : join (String c EmptyString) (split c s) = s.
Proof.
  induction s as [|a s IH]; [done|]. cbn [split]. destruct (Ascii.eqb_spec a c) as [->|Hac].
  - destruct (split c s) as [|x l] eqn:Hs; [by destruct s as [|b s]; simpl in Hs; repeat case_match|].
    change (String c (join (String c EmptyString) (x :: l)) = String c s). by rewrite IH.
  - destruct (split c s) as [|x l]; [by simpl in IH; subst|]. destruct l; simpl in *; by rewrite <- IH.
Qed.
Lemma split_not_nil c s : split c s ≠ [].
Proof. destruct s; simpl; repeat case_match; done. Qed.
Lemma split_app c a b : split c (a +:+ String c b) = split c a ++ split c b.
Proof.
  induction a as [|x a IH]; cbn [String.append split]; [by rewrite Ascii.eqb_refl|].
  destruct (Ascii.eqb x c); [by rewrite IH|]. rewrite IH. pose proof (split_not_nil c a) as Hn.
  destruct (split c a); [done|]. done.
Qed.
Lemma split_pieces b c s x : has_byte b s = false → x ∈ split c s → has_byte b x = false.
Proof.
  revert x. induction s as [|a s IH]; intros x; simpl; [intros _ Hx; by apply list_elem_of_singleton in Hx as ->|].
  intros [Ha Hs]%orb_false_iff. destruct (Ascii.eqb a c).
  - intros [->|Hx]%elem_of_cons; [done|by apply IH].
  - pose proof (IH) as IH'. destruct (split c s) as [|y l].
    + intros Hx. apply list_elem_of_singleton in Hx as ->. simpl. by rewrite Ha.
    + intros [->|Hx]%elem_of_cons; [simpl; rewrite Ha; apply IH; [done|by left]|apply IH; [done|by right]].
Qed.
Lemma join_app c l k : l ≠ [] → k ≠ [] →
  join (String c EmptyString) (l ++ k) = join (String c EmptyString) l +:+ String c (join (String c EmptyString) k).
Proof.
  intros Hl Hk. induction l as [|a l IH]; [done|]. destruct l as [|b l]; simpl.
  - by destruct k.
  - simpl in IH. rewrite IH by done. by rewrite <- !string_app_assoc'.
Qed.
Lemma strip_prefix_app a b : strip_prefix a (a +:+ b) = Some b.
Proof. induction a as [|x a IH]; [done|]. cbn [String.append strip_prefix]. by rewrite Ascii.eqb_refl. Qed.
Lemma strip_prefix_eq p s r : strip_prefix p s = Some r → s = p +:+ r.
Proof.
  revert s. induction p as [|a p IH]; intros s; simpl; [by intros [= ->]|].
  destruct s as [|b s]; [done|]. destruct (Ascii.eqb_spec a b) as [->|]; [|done]. intros Hs. by rewrite (IH s).
Qed.

Lemma elem_of_filter_bool {A} (f : A → bool) x l : x ∈ List.filter f l ↔ x ∈ l ∧ f x = true.
Proof. by rewrite list_elem_of_In, filter_In, <- list_elem_of_In. Qed.

(** ** Tactics *)

(** Closes a decidable closed goal by evaluation. *)
Ltac decide_by_compute := apply (bool_decide_eq_true_1 _); vm_compute; reflexivity.

(** Destructs the existentials, conjunctions and pairs of the context. *)
Ltac deex :=
  repeat match goal with
         | H : ∃ x, _ |- _ => let y := fresh x in destruct H as [y H]
         | H : _ ∧ _ |- _ => destruct H
         end.
