(* ===== verification/Net.v ===== *)
(** What the gateway uses of [std::net] and [std::path], and of the OPC UA
    stack's node ids: data types other components share. *)

From S2P Require Import Prelude.

(** ** Addresses

    An IPv4 address is its 32 bits, an IPv6 address its 128 bits. *)
Inductive IpAddr : Type :=
| V4 (bits : Z)
| V6 (bits : Z).

#[export] Instance IpAddr_eq_dec : EqDecision IpAddr.
Proof. solve_decision. Defined.

#[export] Instance IpAddr_countable : Countable IpAddr.
Proof.
  refine (inj_countable' (fun a => match a with V4 b => inl b | V6 b => inr b end)
                         (fun s => match s with inl b => V4 b | inr b => V6 b end) _).
  by intros [].
Defined.

Record SocketAddr : Type := mkSocketAddr { ip : IpAddr; port : Z }.

#[export] Instance SocketAddr_eq_dec : EqDecision SocketAddr.
Proof. solve_decision. Defined.

(** [Ipv4Addr::is_loopback] is 127.0.0.0/8, [Ipv6Addr::is_loopback] is ::1. *)
Definition is_loopback (a : IpAddr) : bool :=
  match a with
  | V4 b => Z.shiftr b 24 =? 127
  | V6 b => b =? 1
  end.

Definition is_unspecified (a : IpAddr) : bool :=
  match a with V4 b | V6 b => b =? 0 end.

(** [IpAddr::to_canonical]: an IPv4-mapped IPv6 address (::ffff:a.b.c.d) is
    the IPv4 address, any other address is itself. *)
Definition to_canonical (a : IpAddr) : IpAddr :=
  match a with
  | V6 b => if Z.shiftr b 32 =? 65535 then V4 (Z.land b (2 ^ 32 - 1)) else a
  | V4 _ => a
  end.

Lemma to_canonical_idemp a : to_canonical (to_canonical a) = to_canonical a.
Proof.
  destruct a as [b|b]; [reflexivity|]. unfold to_canonical.
  destruct (Z.shiftr b 32 =? 65535) eqn:E; [reflexivity|by rewrite E].
Qed.

(** *** Their text: [FromStr] and [Display]

    A parser takes what it understands from the front of the text and leaves
    the rest. *)
Definition Parser (A : Type) : Type := string → option (A * string).

Definition read_char (c : ascii) : Parser unit := fun s =>
  match s with
  | String a s => if Ascii.eqb a c then Some ((), s) else None
  | EmptyString => None
  end.

(** [char::to_digit(radix)] *)
Definition digit_value (radix : Z) (a : ascii) : option Z :=
  let n := Z.of_N (N_of_ascii a) in
  let d := if is_ascii_digit a then n - 48
           else if is_ascii_lower a then n - 87
           else if is_ascii_upper a then n - 55 else 36 in
  if d <? radix then Some d else None.

(** [read_number]: at most [fuel] digits more and at most [max]; [count]
    digits were read already. *)
Fixpoint read_digits (radix max : Z) (fuel count : nat) (n : Z) (s : string)
    : option (Z * nat * string) :=
  match s with
  | String a s' =>
      match digit_value radix a, fuel with
      | Some d, O => None
      | Some d, S fuel =>
          let n := n * radix + d in
          if max <? n then None else read_digits radix max fuel (S count) n s'
      | None, _ => Some (n, count, s)
      end
  | EmptyString => Some (n, count, s)
  end.

Definition read_number (radix max : Z) (digits : nat) (zero_prefix : bool) : Parser Z := fun s =>
  '(n, count, rest) ← read_digits radix max digits 0 0 s;
  let leading_zero := match s with String "0" _ => true | _ => false end in
  if (count =? 0)%nat || negb zero_prefix && leading_zero && (1 <? count)%nat then None
  else Some (n, rest).

(** [read_separator]: the separator before all but the first. *)
Definition read_separator {A} (sep : ascii) (index : nat) (p : Parser A) : Parser A := fun s =>
  match index with
  | O => p s
  | S _ => '(_, s) ← read_char sep s; p s
  end.

Definition read_ipv4 : Parser Z := fun s =>
  let byte i := read_separator "." i (read_number 10 255 3 false) in
  '(a, s) ← byte 0%nat s; '(b, s) ← byte 1%nat s; '(c, s) ← byte 2%nat s; '(d, s) ← byte 3%nat s;
  Some (((a * 256 + b) * 256 + c) * 256 + d, s).

(** [read_groups]: [left] groups at most, the next one has index [i]. The
    groups, whether they end in an IPv4 address, and the rest. *)
Fixpoint read_groups (left i : nat) (s : string) : list Z * bool * string :=
  match left with
  | O => ([], false, s)
  | S left' =>
      match (match left' with O => None | S _ => read_separator ":" i read_ipv4 s end) with
      | Some (v4, s) => ([Z.shiftr v4 16; Z.land v4 65535], true, s)
      | None =>
          match read_separator ":" i (read_number 16 65535 4 true) s with
          | Some (g, s) =>
              let r := read_groups left' (S i) s in (g :: r.1.1, r.1.2, r.2)
          | None => ([], false, s)
          end
      end
  end.

Definition of_groups (l : list Z) : Z := foldl (fun n g => n * 65536 + g) 0 l.

Definition read_ipv6 : Parser Z := fun s =>
  let '(head, head_v4, s) := read_groups 8 0 s in
  if (length head =? 8)%nat then Some (of_groups head, s)
  else if head_v4 then None
  else
    '(_, s) ← read_char ":" s; '(_, s) ← read_char ":" s;
    let '(tail, _, s) := read_groups (8 - (length head + 1)) 0 s in
    Some (of_groups (head ++ replicate (8 - length head - length tail) 0 ++ tail), s).

(** [s.parse::<IpAddr>()]: the whole text. *)
Definition ip_parse (s : string) : option IpAddr :=
  '(a, rest) ← match read_ipv4 s with
               | Some (b, rest) => Some (V4 b, rest)
               | None => '(b, rest) ← read_ipv6 s; Some (V6 b, rest)
               end;
  match rest with EmptyString => Some a | _ => None end.

Definition v4_text (b : Z) : string :=
  join "." ((fun k => pretty (Z.land (Z.shiftr b k) 255)) <$> [24; 16; 8; 0]).

(** [{:x}] of a [u16] *)
Definition hex_digit (d : Z) : ascii := ascii_of_N (Z.to_N (if d <? 10 then 48 + d else 87 + d)).
Definition u16_hex (g : Z) : string :=
  let digits := (fun k => Z.land (Z.shiftr g k) 15) <$> [12; 8; 4] in
  foldr (fun d s => String (hex_digit d) s) EmptyString
    (drop_while (fun d => d =? 0) digits ++ [Z.land g 15]).

Definition v6_groups (b : Z) : list Z :=
  (fun k => Z.land (Z.shiftr b k) 65535) <$> [112; 96; 80; 64; 48; 32; 16; 0].

(** The first of the longest runs of zero groups: where it starts, its length. *)
Fixpoint zero_runs (i : nat) (start len best_start best_len : nat) (l : list Z) : nat * nat :=
  match l with
  | [] => (best_start, best_len)
  | g :: l =>
      if g =? 0 then
        let start := if (len =? 0)%nat then i else start in
        let len := S len in
        if (best_len <? len)%nat then zero_runs (S i) start len start len l
        else zero_runs (S i) start len best_start best_len l
      else zero_runs (S i) 0 0 best_start best_len l
  end.

Definition v6_text (b : Z) : string :=
  if Z.shiftr b 32 =? 65535 then "::ffff:" +:+ v4_text (Z.land b (2 ^ 32 - 1))
  else
    let groups := v6_groups b in
    let (start, len) := zero_runs 0 0 0 0 0 groups in
    let hex l := join ":" (u16_hex <$> l) in
    if (1 <? len)%nat then hex (take start groups) +:+ "::" +:+ hex (drop (start + len) groups)
    else hex groups.

(** [IpAddr::to_string] *)
Definition ip_to_string (a : IpAddr) : string :=
  match a with V4 b => v4_text b | V6 b => v6_text b end.

Example ip_texts :
  ip_parse "192.168.0.1" = Some (V4 3232235521) ∧ ip_to_string (V4 3232235521) = "192.168.0.1" ∧
  ip_parse "::1" = Some (V6 1) ∧ ip_to_string (V6 1) = "::1" ∧
  ip_to_string (V6 0) = "::" ∧ ip_parse "010.0.0.1" = None ∧ ip_parse "1.2.3" = None ∧
  ip_parse "2001:db8::1:0:0:5" = Some (V6 (of_groups [8193; 3512; 0; 0; 1; 0; 0; 5])) ∧
  ip_to_string (V6 (of_groups [8193; 3512; 0; 0; 1; 0; 0; 5])) = "2001:db8::1:0:0:5" ∧
  ip_parse "::ffff:10.0.0.1" = Some (V6 (65535 * 2 ^ 32 + 10 * 2 ^ 24 + 1)) ∧
  ip_to_string (V6 (65535 * 2 ^ 32 + 10 * 2 ^ 24 + 1)) = "::ffff:10.0.0.1" ∧
  ip_parse "1:2:3:4:5:6:7::" = Some (V6 (of_groups [1; 2; 3; 4; 5; 6; 7; 0])) ∧
  ip_parse "1:2:3:4:5:6:7:8:9" = None ∧ ip_parse "fe80::1%1" = None.
Proof. vm_compute. by split_and!. Qed.

(** ** Paths (Unix) *)
Definition is_relative (p : string) : bool := negb (String.prefix "/" p).

(** [base.join(p)] *)
Definition path_join (base p : string) : string :=
  if String.prefix "/" p then p
  else match base with
       | EmptyString => p
       | _ => if bool_decide (trim_end_matches "/" base = base) then base +:+ "/" +:+ p
              else base +:+ p
       end.

(** ** Node ids

    [opcua::types::NodeId] with its [FromStr] and [Display]. *)
Class NodeIds : Type := {
  NodeId : Type;
  NodeId_eq_dec :: EqDecision NodeId;
  NodeId_countable :: Countable NodeId;
  node_from_str : string → option NodeId;
  node_to_str : NodeId → string;
}.

(** [crate::config::parse_node] *)
Definition parse_node `{NodeIds} (node_id : string) : option NodeId :=
  node_from_str (trim node_id).

(** Node ids that are their own non-empty text, to run the model with. *)
Module ToyNodes.
#[export] Instance text_nodes : NodeIds := {
  NodeId := string;
  node_from_str s := match s with EmptyString => None | _ => Some s end;
  node_to_str s := s;
}.
End ToyNodes.
