(* ===== verification/Event.v ===== *)
(** The audit event model ([src/src/audit/event.rs]): entries, events, their
    indexed kind and node, the severities that need attention, and [clip],
    which bounds the text clients choose. *)

From S2P Require Import Prelude.

(** ** JSON values

    [serde_json::Value], the fields of an object in the order the source
    writes them (serde_json prints them sorted). A finite
    [f64] is its IEEE 754 bit pattern. *)
#[warnings="-register-all"]
Inductive json : Type :=
| JNull
| JBool (b : bool)
| JInt (z : Z)
| JFloat (bits : Z)
| JStr (s : string)
| JArr (l : list json)
| JObj (fields : list (string * json)).

(** [value.get(key)] and [value.as_str()] *)
Definition json_get (key : string) (v : json) : option json :=
  match v with
  | JObj fields =>
      snd <$> List.find (fun kv => String.eqb kv.1 key) fields
  | _ => None
  end.

Definition json_as_str (v : json) : option string :=
  match v with JStr s => Some s | _ => None end.

(** ** Bounded text *)

(** The bytes of the text a clipped value ends with. *)
Definition clip_suffix (text : string) : string :=
  "… (" +:+ pretty (chars_count text) +:+ " characters)".

(** Shortens text a client chose before it goes into the audit trail. *)
Definition clip (text : string) (max_chars : nat) : string :=
  match nth_char_offset max_chars text with
  | None => text
  | Some cut => substring 0 cut text +:+ clip_suffix text
  end.

Definition MAX_NAME : nat := 256.
Definition MAX_TEXT : nat := 1024.

(** ** Who did it *)
Inductive UserIdentity : Type :=
| Anonymous
| UserName (name : string)
| Certificate (subject thumbprint : string)
| IssuedToken.

(** Short form used for the indexed [user] column. *)
Definition label (u : UserIdentity) : string :=
  match u with
  | Anonymous => "anonymous"
  | UserName name => name
  | Certificate subject _ => subject
  | IssuedToken => "issued-token"
  end.

Record ClientContext : Type := mkClientContext {
  remote_addr : string;
  application_uri : option string;
  application_name : option string;
  certificate_thumbprint : option string;
  user : option UserIdentity;
  session_id : option string;
}.

Definition default_client : ClientContext :=
  mkClientContext EmptyString None None None None None.

(** A value as it appears in the trail: data type name and JSON rendering. *)
Record AuditValue : Type := mkAuditValue {
  data_type : string;
  value : json;
}.

Inductive Severity : Type := Warning | Error.

#[export] Instance Severity_eq_dec : EqDecision Severity.
Proof. solve_decision. Defined.

Definition Severity_ALL : list Severity := [Warning; Error].

(** The event kinds of a severity. *)
Definition kinds (s : Severity) : list string :=
  match s with
  | Error =>
      ["events_lost"; "trail_truncated"; "export_gap"; "upstream_unavailable";
       "target_not_trusted"; "target_refused_gateway"; "upstream_endpoints_changed"]
  | Warning =>
      ["certificate_rejected"; "authentication_failed"; "ui_login_failed";
       "api_token_rejected"; "connections_refused"; "clock_jumped"]
  end.

(** ** Events

    The constructors of [AuditEvent], their fields in the order of the source.
    Counts and [u32] handles are [Z]; times are nanoseconds since the epoch. *)
Inductive AuditEvent : Type :=
(* gateway lifecycle *)
| GatewayStarted (version : string)
| GatewayStopped
| ConfigChanged (by_ summary : string)
| UiLogin (user : string)
| UiLoginFailed (user : string)
| ApiTokenRejected (token : string)
| McpQuery (by_ token tool arguments : string)
| Discovery (by_ endpoint_url : string)
| RetentionPruned (deleted last_seq : Z) (last_hash : string)
| EventsLost (count : Z)
| TrailTruncated (expected_seq found_seq : Z)
| ExportGap (destination : string) (after_seq next_seq : Z) (reason : string)
| ClockJumped (seconds : Z)
(* upstream server *)
| UpstreamAvailable (endpoint_url : string) (endpoints : Z)
| UpstreamUnavailable (endpoint_url reason : string)
| TargetNotTrusted (endpoint_url : string)
| TargetRefusedGateway (endpoint_url detail : string)
| TargetTrustRestored (endpoint_url policy : string)
| UpstreamEndpointsChanged (endpoint_url : string) (before after : list string)
(* client connections and sessions *)
| ClientConnected
| ConnectionsRefused (remote_addr : string) (count : Z) (reason : string)
| ClientDisconnected (reason : string)
| SecureChannelOpened (security_policy security_mode : string)
| SessionCreated (session_name : string)
| SessionActivated
| SessionClosed
| AuthenticationFailed (status : string)
| CertificateRejected (subject thumbprint reason : string)
(* changes to the server *)
| ChangeIntent (request_handle : Z) (service : string) (node_ids : list string)
    (details : list json)
| Write (request_handle : Z) (node_id : string) (display_name : option string)
    (attribute : string) (index_range : option string) (old_value : option AuditValue)
    (new_value : AuditValue) (written_status source_timestamp server_timestamp : option string)
    (status : string)
| Call (request_handle : Z) (object_id method_id : string) (display_name : option string)
    (input_arguments : list AuditValue) (status : string)
| HistoryUpdate (request_handle : Z) (node_id details status : string)
| NodeManagement (request_handle : Z) (service node_id status : string)
| SubscriptionsTransferred (request_handle : Z) (subscription_ids : list Z) (status : string)
| AlarmsAcknowledged (by_ : string) (severity : Severity) (up_to_seq count : Z)
| IgnoredWrites (node_id : string) (display_name : option string) (count failed : Z)
    (first last : Z) (last_value : AuditValue) (last_status : string) (clients : list string).

(** Stable name of the event type, stored in the indexed [kind] column. *)
Definition kind (e : AuditEvent) : string :=
  match e with
  | GatewayStarted _ => "gateway_started"
  | GatewayStopped => "gateway_stopped"
  | ConfigChanged _ _ => "config_changed"
  | UiLogin _ => "ui_login"
  | McpQuery _ _ _ _ => "mcp_query"
  | UiLoginFailed _ => "ui_login_failed"
  | Discovery _ _ => "discovery"
  | RetentionPruned _ _ _ => "retention_pruned"
  | EventsLost _ => "events_lost"
  | TrailTruncated _ _ => "trail_truncated"
  | ClockJumped _ => "clock_jumped"
  | ExportGap _ _ _ _ => "export_gap"
  | UpstreamAvailable _ _ => "upstream_available"
  | UpstreamUnavailable _ _ => "upstream_unavailable"
  | TargetNotTrusted _ => "target_not_trusted"
  | TargetRefusedGateway _ _ => "target_refused_gateway"
  | TargetTrustRestored _ _ => "target_trust_restored"
  | ApiTokenRejected _ => "api_token_rejected"
  | UpstreamEndpointsChanged _ _ _ => "upstream_endpoints_changed"
  | ClientConnected => "client_connected"
  | ConnectionsRefused _ _ _ => "connections_refused"
  | ClientDisconnected _ => "client_disconnected"
  | SecureChannelOpened _ _ => "secure_channel_opened"
  | SessionCreated _ => "session_created"
  | SessionActivated => "session_activated"
  | SessionClosed => "session_closed"
  | AuthenticationFailed _ => "authentication_failed"
  | CertificateRejected _ _ _ => "certificate_rejected"
  | ChangeIntent _ _ _ _ => "change_intent"
  | Write _ _ _ _ _ _ _ _ _ _ _ => "write"
  | Call _ _ _ _ _ _ => "call"
  | HistoryUpdate _ _ _ _ => "history_update"
  | NodeManagement _ _ _ _ => "node_management"
  | SubscriptionsTransferred _ _ _ => "subscriptions_transferred"
  | IgnoredWrites _ _ _ _ _ _ _ _ _ => "ignored_writes"
  | AlarmsAcknowledged _ _ _ _ => "alarms_acknowledged"
  end.

(** The node an event is about; stored in the indexed [node_id] column. *)
Definition event_node_id (e : AuditEvent) : option string :=
  match e with
  | Write _ node_id _ _ _ _ _ _ _ _ _
  | IgnoredWrites node_id _ _ _ _ _ _ _ _
  | HistoryUpdate _ node_id _ _
  | NodeManagement _ _ node_id _ => Some node_id
  | Call _ _ method_id _ _ _ => Some method_id
  | _ => None
  end.

Record AuditEntry : Type := mkAuditEntry {
  ts : Z;
  target : option string;
  client : option ClientContext;
  event : AuditEvent;
}.

(** [AuditEntry::new] at the time [now], and its two builders. *)
Definition new_entry (now : Z) (e : AuditEvent) : AuditEntry := mkAuditEntry now None None e.
Definition with_target (t : string) (e : AuditEntry) : AuditEntry :=
  mkAuditEntry (ts e) (Some t) (client e) (event e).
Definition with_client (c : ClientContext) (e : AuditEntry) : AuditEntry :=
  mkAuditEntry (ts e) (target e) (Some c) (event e).

(** One event of every constructor, for properties about all kinds. *)
Definition sample_events : list AuditEvent :=
  let v := mkAuditValue EmptyString JNull in
  let s := EmptyString in
  [GatewayStarted s; GatewayStopped; ConfigChanged s s; UiLogin s; UiLoginFailed s;
   ApiTokenRejected s; McpQuery s s s s; Discovery s s; RetentionPruned 0 0 s; EventsLost 0;
   TrailTruncated 0 0; ExportGap s 0 0 s; ClockJumped 0; UpstreamAvailable s 0;
   UpstreamUnavailable s s; TargetNotTrusted s; TargetRefusedGateway s s;
   TargetTrustRestored s s; UpstreamEndpointsChanged s [] []; ClientConnected;
   ConnectionsRefused s 0 s; ClientDisconnected s; SecureChannelOpened s s; SessionCreated s;
   SessionActivated; SessionClosed; AuthenticationFailed s; CertificateRejected s s s;
   ChangeIntent 0 s [] []; Write 0 s None s None None v None None None s;
   Call 0 s s None [] s; HistoryUpdate 0 s s s; NodeManagement 0 s s s;
   SubscriptionsTransferred 0 [] s; AlarmsAcknowledged s Warning 0 0;
   IgnoredWrites s None 0 0 0 0 v s []].

(** ** Properties *)

(** Text within the limit is kept as it is. *)
Lemma clip_short text n : (chars_count text ≤ n)%nat → clip text n = text.
Proof.
  intros H. unfold clip. by rewrite (proj2 (nth_char_offset_None n text) H).
Qed.

Lemma clip_long text n :
  (n < chars_count text)%nat →
  ∃ p, clip text n = p +:+ clip_suffix text ∧
       chars_count p = n ∧ String.prefix p text = true.
Proof.
  intros H. unfold clip. destruct (nth_char_offset n text) as [k|] eqn:E.
  - exists (substring 0 k text). split; [done|]. by apply nth_char_offset_Some.
  - apply nth_char_offset_None in E. lia.
Qed.

(** Text within the limit is kept unchanged; longer text becomes
    exactly its first [n] chars (cut between two chars, never inside one)
    followed by a note with the full length, so a record grows with the limit
    and not with what the client sent. *)
Theorem clip_spec text n :
  (clip text n = text ∧ (chars_count text ≤ n)%nat) ∨
  (∃ p, clip text n = p +:+ clip_suffix text ∧ chars_count p = n ∧
        String.prefix p text = true ∧ (n < chars_count text)%nat ∧
        chars_count (clip text n) = (n + chars_count (clip_suffix text))%nat).
Proof.
  destruct (decide (chars_count text ≤ n)%nat) as [H|H].
  - left. split; [by apply clip_short|done].
  - right. destruct (clip_long text n ltac:(lia)) as (p & E & Hp & Hpre).
    exists p. rewrite E. autorewrite with gateway_text. repeat split; (done || lia).
Qed.

(** The kinds of the samples are the kinds of all events. *)
Lemma kind_sampled e : kind e ∈ (kind <$> sample_events).
Proof. destruct e; vm_compute; set_solver. Qed.

(** The severity lists name real event kinds, no kind twice, and no
    kind is both an error and a warning; distinct constructors have distinct
    kinds, so the indexed column identifies the event type. *)
Theorem severity_kinds_sound :
  NoDup (kind <$> sample_events) ∧
  NoDup (kinds Error ++ kinds Warning) ∧
  (∀ s k, k ∈ kinds s → ∃ e, kind e = k) ∧
  (∀ e, kind e ∈ (kind <$> sample_events)).
Proof.
  split_and!.
  - decide_by_compute.
  - decide_by_compute.
  - intros s k Hk.
    assert (k ∈ (kind <$> sample_events)) as Hin.
    { destruct s; simpl in Hk; repeat (apply elem_of_cons in Hk as [->|Hk]);
        solve [decide_by_compute | inversion Hk]. }
    apply list_elem_of_fmap in Hin as (e & -> & _). by exists e.
  - apply kind_sampled.
Qed.
