(* ===== verification/Store.v ===== *)
(** The tamper-evident audit store ([src/src/audit/store.rs]).

    The SQLite tables are the rows of [audit] in the order of their primary
    key and the one row of [chain_head]; every SQL statement of the source is
    its reading over those rows. A write statement may fail: [io k] says
    whether the [k]-th statement of an operation succeeds. SHA-256, serde_json
    and chrono's formatting are the fields of [StoreEnv]. *)

From S2P Require Import Prelude Event.

(** ** What the store calls *)
Class StoreEnv : Type := {
  (** [hex::encode(Sha256::digest(bytes))] *)
  sha256_hex : string → string;
  (** [serde_json::to_string] and [serde_json::from_str::<AuditEntry>] *)
  to_json : AuditEntry → option string;
  of_json : string → option AuditEntry;
  (** [DateTime::to_rfc3339_opts(SecondsFormat::Micros, true)] *)
  rfc3339_micros : Z → string;
}.

(** Text in the indexed columns of a record. *)
Record Columns : Type := mkColumns {
  c_ts : string;
  c_target : option string;
  c_kind : string;
  c_remote_addr : option string;
  c_application_uri : option string;
  c_user : option string;
  c_node_id : option string;
}.
#[export] Instance Columns_eq_dec : EqDecision Columns.
Proof. solve_decision. Defined.

(** A row of the table [audit]. *)
Record Row : Type := mkRow {
  r_seq : Z;
  r_columns : Columns;
  r_body : string;
  r_prev_hash : string;
  r_hash : string;
}.
#[export] Instance Row_eq_dec : EqDecision Row.
Proof. solve_decision. Defined.

Record Db : Type := mkDb {
  audit : list Row;
  chain_head : option (Z * string);
}.
Definition empty_db : Db := mkDb [] None.

Definition GENESIS_HASH : string :=
  "0000000000000000000000000000000000000000000000000000000000000000".

Definition MAX_PRUNE : Z := 20000.

(** The single writer of the audit database. *)
Record AuditStore : Type := mkAuditStore {
  conn : Db;
  last_seq : Z;
  last_hash : string;
}.

(** Which statements of an operation succeed. *)
Abbreviation io_oracle := (nat → bool).

(** SQL [MIN]: [NULL] over no rows. *)
Definition sql_min (l : list Z) : option Z :=
  foldr (fun z m => Some (match m with None => z | Some y => Z.min z y end)) None l.

(** [INSERT] into a table ordered by its primary key. *)
Fixpoint insert_row (r : Row) (rows : list Row) : result string (list Row) :=
  match rows with
  | [] => Ok [r]
  | r' :: rest =>
      if r_seq r <? r_seq r' then Ok (r :: rows)
      else if r_seq r =? r_seq r' then Err "UNIQUE constraint failed: audit.seq"
      else rest ← insert_row r rest; Ok (r' :: rest)
  end.

(** [SELECT ... ORDER BY seq DESC LIMIT 1] *)
Definition newest (rows : list Row) : option Row := last rows.

Section Store.
Context `{StoreEnv}.

Definition record_hash (prev_hash : string) (seq : Z) (body : string) : string :=
  sha256_hex (prev_hash +:+ lf +:+ pretty seq +:+ lf +:+ body).

(** Fixed-width UTC timestamps. *)
Definition ts_column (t : Z) : string := rfc3339_micros t.

(** The indexed columns of a record; [insert] writes them and
    [verify_chain] checks them with the same function. *)
Definition columns (entry : AuditEntry) : Columns :=
  let cl := client entry in
  mkColumns
    (ts_column (ts entry))
    (target entry)
    (kind (event entry))
    (remote_addr <$> cl)
    (c ← cl; application_uri c)
    (label <$> (c ← cl; user c))
    (event_node_id (event entry)).

(** The loop of [insert]: one [INSERT] per entry. *)
Fixpoint insert_entries (io : io_oracle) (k : nat) (entries : list AuditEntry)
    (rows : list Row) (seq : Z) (hash : string)
    : result string (list Row * list Z * Z * string) :=
  match entries with
  | [] => Ok (rows, [], seq, hash)
  | entry :: entries =>
      let seq := i64_wrap (seq + 1) in
      body ← of_option "serialising the entry" (to_json entry);
      let new_hash := record_hash hash seq body in
      bail_if negb (io k) with "INSERT INTO audit failed";
      rows ← insert_row (mkRow seq (columns entry) body hash new_hash) rows;
      '(rows, seqs, seq', hash') ← insert_entries io (S k) entries rows seq new_hash;
      Ok (rows, seq :: seqs, seq', hash')
  end.

(** Inserts entries after ([seq], [hash]) and moves the chain head along.
    Returns their sequence numbers, the new head and the tables. *)
Definition insert (io : io_oracle) (k : nat) (db : Db) (entries : list AuditEntry)
    (seq : Z) (hash : string) : result string (list Z * Z * string * Db) :=
  '(rows, seqs, seq, hash) ← insert_entries io k entries (audit db) seq hash;
  bail_if negb (io (k + length entries)%nat) with "INSERT INTO chain_head failed";
  Ok (seqs, seq, hash, mkDb rows (Some (seq, hash))).

(** Appends entries in one transaction and returns their sequence numbers.
    A transaction that is not committed is rolled back. *)
Definition append (io : io_oracle) (store : AuditStore) (entries : list AuditEntry)
    : result string (list Z) * AuditStore :=
  if negb (io 0%nat) then (Err "BEGIN failed", store)
  else match insert io 1 (conn store) entries (last_seq store) (last_hash store) with
       | Err e => (Err e, store)
       | Ok (seqs, seq, hash, db) =>
           if io (2 + length entries)%nat then (Ok seqs, mkAuditStore db seq hash)
           else (Err "COMMIT failed", store)
       end.

(** [AuditStore::open] on the tables of the file at time [now]. *)
Definition open (io : io_oracle) (db : Db) (now : Z) : result string AuditStore :=
  let table_head := (fun r => (r_seq r, r_hash r)) <$> newest (audit db) in
  let written := chain_head db in
  let found := match table_head with Some (seq, _) => seq | None => 0 end in
  let '(last_seq, last_hash, truncated) :=
    match table_head, written with
    | th, Some (seq, hash) =>
        if found <? seq then (seq, hash, true)
        else match th with
             | Some (seq, hash) => (seq, hash, false)
             | None => (0, GENESIS_HASH, false)
             end
    | Some (seq, hash), None => (seq, hash, false)
    | None, None => (0, GENESIS_HASH, false)
    end in
  let store := mkAuditStore db last_seq last_hash in
  if truncated then
    match append io store [new_entry now (TrailTruncated last_seq found)] with
    | (Ok _, store) => Ok store
    | (Err e, _) => Err e
    end
  else Ok store.

(** Deletes records older than [cutoff] and, in the same transaction,
    appends a [RetentionPruned] record. Statements 0 to 3 are the queries. *)
Definition prune_before (io : io_oracle) (store : AuditStore) (cutoff now : Z)
    : result string Z * AuditStore :=
  let rows := audit (conn store) in
  if negb (io 0%nat) then (Err "SELECT seq, ts failed", store) else
  match newest rows with
  | None => (Ok 0, store)
  | Some head =>
      let head_seq := r_seq head in
      if String.ltb (ts_column (now + 5 * 60 * 1000000000)) (c_ts (r_columns head))
      then (Ok 0, store)
      else if negb (io 1%nat && io 2%nat) then (Err "SELECT MIN(seq) failed", store)
      else match sql_min (r_seq <$> rows) with
      | None => (Err "invalid column type Null", store)
      | Some first_seq =>
          let first_kept :=
            sql_min (r_seq <$> filter (fun r =>
              String.leb (ts_column cutoff) (c_ts (r_columns r)) = true) rows) in
          let last :=
            Z.min (Z.min (default head_seq first_kept) head_seq - 1)
                  (first_seq + MAX_PRUNE - 1) in
          if last <? first_seq then (Ok 0, store) else
          match List.find (fun r => r_seq r =? last) rows with
          | None => (Err "query returned no rows", store)
          | Some r =>
              if negb (io 3%nat && io 4%nat && io 5%nat) then (Err "DELETE failed", store) else
              let deleted := Z.of_nat (length (filter (fun r => r_seq r ≤ last) rows)) in
              let kept := filter (fun r => ¬ r_seq r ≤ last) rows in
              match insert io 6 (mkDb kept (chain_head (conn store)))
                      [new_entry now (RetentionPruned deleted last (r_hash r))]
                      (last_seq store) (last_hash store) with
              | Err e => (Err e, store)
              | Ok (_, seq, hash, db) =>
                  if io 8%nat then (Ok deleted, mkAuditStore db seq hash)
                  else (Err "COMMIT failed", store)
              end
          end
      end
  end.

(** ** Verification *)
Record VerifyReport : Type := mkVerifyReport {
  records : Z;
  first_seq : option Z;
  report_last_seq : option Z;
  head_hash : string;
  error : option string;
}.

Definition report_ok (r : VerifyReport) : bool := bool_decide (error r = None).

Definition with_error (r : VerifyReport) (e : string) : VerifyReport :=
  mkVerifyReport (records r) (first_seq r) (report_last_seq r) (head_hash r) (Some e).

(** The checks of one record in [verify_chain]; the result is the
    unexplained gap afterwards. *)
Definition check_row (report : VerifyReport) (gap : option (Z * string)) (r : Row)
    : result string (option (Z * string)) :=
  let seq := r_seq r in
  let prefix := "record " +:+ pretty seq +:+ ": " in
  gap ← match report_last_seq report with
        | None =>
            if seq =? 1 then
              if String.eqb (r_prev_hash r) GENESIS_HASH then Ok gap
              else Err (prefix +:+ "first record does not link to the genesis hash")
            else Ok (Some (seq - 1, r_prev_hash r))
        | Some last =>
            if negb (seq =? i64_wrap (last + 1)) then
              Err (prefix +:+ "sequence gap after record " +:+ pretty last)
            else if negb (String.eqb (r_prev_hash r) (head_hash report)) then
              Err (prefix +:+ "does not link to the previous record")
            else Ok gap
        end;
  bail_if negb (String.eqb (record_hash (r_prev_hash r) seq (r_body r)) (r_hash r))
    with prefix +:+ "hash mismatch (record was modified)";
  entry ← of_option (prefix +:+ "unreadable body") (of_json (r_body r));
  bail_if negb (bool_decide (columns entry = r_columns r))
    with prefix +:+ "indexed columns do not match the record body";
  match event entry with
  | RetentionPruned _ last_seq last_hash =>
      if bool_decide (gap = Some (last_seq, last_hash)) then Ok None else Ok gap
  | _ => Ok gap
  end.

Fixpoint verify_loop (report : VerifyReport) (gap : option (Z * string)) (rows : list Row)
    : VerifyReport :=
  match rows with
  | [] =>
      match gap with
      | Some (seq, _) =>
          with_error report ("records up to " +:+ pretty seq +:+
            " are missing and no retention record accounts for them")
      | None => report
      end
  | r :: rows =>
      match check_row report gap r with
      | Err e => with_error report e
      | Ok gap =>
          verify_loop
            (mkVerifyReport (records report + 1)
               (Some (default (r_seq r) (first_seq report)))
               (Some (r_seq r)) (r_hash r) (error report))
            gap rows
      end
  end.

Definition empty_report : VerifyReport := mkVerifyReport 0 None None GENESIS_HASH None.

Definition verify_chain (db : Db) : VerifyReport := verify_loop empty_report None (audit db).

(** A record known from outside the database. *)
Record Anchor : Type := mkAnchor {
  a_seq : Z;
  a_hash : string;
  source : string;
}.

Definition anchor_problem (report : VerifyReport) (db : Db) (a : Anchor) : option string :=
  if (match report_last_seq report with None => true | Some last => last <? a_seq a end) then
    Some ("records up to " +:+ pretty (a_seq a) +:+ " are missing: " +:+ source a +:+
          " had record " +:+ pretty (a_seq a) +:+ " (hash " +:+ a_hash a +:+ ")")
  else if (match first_seq report with None => false | Some first => a_seq a <? first end) then
    None
  else
    let hash := r_hash <$> List.find (fun r => r_seq r =? a_seq a) (audit db) in
    if bool_decide (hash = Some (a_hash a)) then None
    else Some ("record " +:+ pretty (a_seq a) +:+ " differs from " +:+ source a +:+
               " (hash " +:+ a_hash a +:+ ")").

Fixpoint check_anchors (report : VerifyReport) (db : Db) (anchors : list Anchor)
    : VerifyReport :=
  match anchors with
  | [] => report
  | a :: anchors =>
      match anchor_problem report db a with
      | Some problem => with_error report problem
      | None => check_anchors report db anchors
      end
  end.

(** [verify_chain], and checks that every anchor is still in the trail. *)
Definition verify_against (db : Db) (anchors : list Anchor) : VerifyReport :=
  let report := verify_chain db in
  if report_ok report then check_anchors report db anchors else report.
End Store.

(** ** The abstract specification: an intact chain *)
Section Spec.
Context `{StoreEnv}.

(** What a retention record says: deleted, last sequence number, its hash. *)
Definition pruned_info (e : AuditEvent) : option (Z * Z * string) :=
  match e with RetentionPruned d s h => Some (d, s, h) | _ => None end.

Definition row_ok (prev : string) (n : Z) (r : Row) : Prop :=
  r_seq r = n ∧ r_prev_hash r = prev ∧ r_hash r = record_hash prev n (r_body r) ∧
  ∃ e, of_json (r_body r) = Some e ∧ columns e = r_columns r.

(** Consecutive records from number [n] on, each linked to the one before,
    the first to [prev]. *)
Fixpoint linked (prev : string) (n : Z) (rows : list Row) : Prop :=
  match rows with
  | [] => True
  | r :: rows => row_ok prev n r ∧ linked (r_hash r) (n + 1) rows
  end.

Fixpoint tip_hash (prev : string) (rows : list Row) : string :=
  match rows with [] => prev | r :: rows => tip_hash (r_hash r) rows end.

(** The record accounts for the removal of everything up to ([s], [h]). *)
Definition vouches (s : Z) (h : string) (r : Row) : Prop :=
  ∃ e d, of_json (r_body r) = Some e ∧ event e = RetentionPruned d s h.

(** The chain starts at its beginning, or a record accounts for the gap. *)
Definition anchored (prev : string) (n : Z) (rows : list Row) : Prop :=
  (n = 1 ∧ prev = GENESIS_HASH) ∨ (n ≠ 1 ∧ Exists (vouches (n - 1) prev) rows).

Definition intact (rows : list Row) : Prop :=
  rows = [] ∨ ∃ prev n, linked prev n rows ∧ anchored prev n rows.

Definition in_range (rows : list Row) : Prop :=
  Forall (fun r => i64_min ≤ r_seq r < i64_max) rows.
End Spec.

(** What the theorems rely on: a hex digest has no line feed, and parsing the
    JSON of an entry gives back its columns and its retention data. *)
Class StoreEnvOk `{StoreEnv} : Prop := {
  hash_no_lf s : has_byte "010"%char (sha256_hex s) = false;
  serde_columns e b : to_json e = Some b →
    ∃ e', of_json b = Some e' ∧ columns e' = columns e ∧
          pruned_info (event e') = pruned_info (event e);
}.

(** ** Lemmas *)
Section Lemmas.
Context `{StoreEnv}.

Lemma sql_min_None l : sql_min l = None ↔ l = [].
Proof. destruct l; simpl; split; done. Qed.

Lemma sql_min_Some l m : sql_min l = Some m → m ∈ l ∧ ∀ x, x ∈ l → m ≤ x.
Proof.
  revert m. induction l as [|a l IH]; simpl; [done|]. intros m [= <-].
  destruct (sql_min l) as [y|] eqn:E.
  - destruct (IH _ eq_refl) as [Hy Hle]. split.
    + destruct (Z.min_spec a y) as [[_ ->]|[_ ->]]; [left|by right].
    + intros x [->|Hx]%elem_of_cons; [lia|]. specialize (Hle _ Hx). lia.
  - apply sql_min_None in E as ->. split; [left|].
    intros x [->|Hx]%elem_of_cons; [lia|inversion Hx].
Qed.

Lemma linked_app prev n a b :
  linked prev n (a ++ b) ↔
  linked prev n a ∧ linked (tip_hash prev a) (n + length a) b.
Proof.
  revert prev n. induction a as [|r a IH]; intros prev n; simpl.
  - by rewrite Z.add_0_r, (left_id True and).
  - rewrite IH. replace (n + 1 + length a) with (n + S (length a)) by lia. tauto.
Qed.

Lemma linked_seqs prev n rows : linked prev n rows → r_seq <$> rows = seqZ n (length rows).
Proof.
  revert prev n. induction rows as [|r rows IH]; intros prev n; [done|].
  intros [[<- _] Hl]. rewrite fmap_cons, (IH _ _ Hl); cbn [length].
  rewrite (seqZ_cons (r_seq r)) by lia. by rewrite Nat2Z.inj_succ, Z.add_1_r, Z.pred_succ.
Qed.

Lemma linked_seq_elem prev n rows r :
  linked prev n rows → r ∈ rows → n ≤ r_seq r < n + length rows.
Proof.
  intros Hl Hr. apply (list_elem_of_fmap_2 r_seq) in Hr.
  rewrite (linked_seqs _ _ _ Hl), elem_of_seqZ in Hr. lia.
Qed.

Lemma tip_hash_app prev a b : tip_hash prev (a ++ b) = tip_hash (tip_hash prev a) b.
Proof. revert prev. induction a; simpl; auto. Qed.

Lemma newest_linked prev n rows r :
  linked prev n rows → newest rows = Some r →
  r_seq r = n + length rows - 1 ∧ r_hash r = tip_hash prev rows ∧ r ∈ rows.
Proof.
  unfold newest. intros Hl Hr. apply last_Some in Hr as [pre ->].
  apply linked_app in Hl as [_ [[Hs _] _]]. rewrite length_app, tip_hash_app; simpl.
  split_and!; [lia|done|set_solver].
Qed.

Lemma insert_row_end r rows :
  Forall (fun r' => r_seq r' < r_seq r) rows → insert_row r rows = Ok (rows ++ [r]).
Proof.
  induction 1 as [|r' rows Hlt _ IH]; simpl; [done|].
  destruct (Z.ltb_spec (r_seq r) (r_seq r')); [lia|].
  destruct (Z.eqb_spec (r_seq r) (r_seq r')); [lia|]. by rewrite IH.
Qed.

Lemma Forall_linked_lt prev n rows s :
  linked prev n rows → n + length rows ≤ s → Forall (fun r => r_seq r < s) rows.
Proof.
  intros Hl Hs. apply Forall_forall. intros r Hr.
  pose proof (linked_seq_elem _ _ _ _ Hl Hr). lia.
Qed.

(** Deleting up to a record of the chain is dropping a prefix. *)
Lemma linked_filter prev n rows last :
  linked prev n rows →
  filter (fun r => ¬ r_seq r ≤ last) rows = drop (Z.to_nat (last - n + 1)) rows ∧
  filter (fun r => r_seq r ≤ last) rows = take (Z.to_nat (last - n + 1)) rows.
Proof.
  revert prev n. induction rows as [|r rows IH]; intros prev n; simpl;
    [by rewrite drop_nil, take_nil|].
  intros [[Hs _] Hl]. destruct (IH _ _ Hl) as [H1 H2].
  destruct (decide (n ≤ last)) as [Hle|Hle].
  - replace (Z.to_nat (last - n + 1)) with (S (Z.to_nat (last - (n + 1) + 1))) by lia.
    rewrite (filter_cons_False (fun r => ¬ _)), (filter_cons_True (fun r => _ ≤ _)) by lia.
    simpl. by rewrite H1, H2.
  - replace (Z.to_nat (last - n + 1)) with O by lia.
    replace (Z.to_nat (last - (n + 1) + 1)) with O in H1, H2 by lia.
    rewrite (filter_cons_True (fun r => ¬ _)), (filter_cons_False (fun r => _ ≤ _)) by lia.
    by rewrite H1, H2.
Qed.

Lemma linked_find prev n rows s :
  linked prev n rows → n ≤ s < n + length rows →
  ∃ a r b, rows = a ++ r :: b ∧ r_seq r = s ∧ length a = Z.to_nat (s - n) ∧
           List.find (fun r => r_seq r =? s) rows = Some r.
Proof.
  revert prev n. induction rows as [|r rows IH]; intros prev n; simpl; [lia|].
  intros [[Hs _] Hl] Hin. destruct (Z.eqb_spec (r_seq r) s) as [He|He].
  - exists [], r, rows. simpl. split_and!; [done|done|lia|done].
  - destruct (IH _ _ Hl ltac:(lia)) as (a & r' & b & -> & Hr' & Ha & Hf).
    exists (r :: a), r', b. simpl. split_and!; [done|done|lia|done].
Qed.
End Lemmas.

(** ** [verify_chain] decides the specification *)
Section Verify.
Context `{StoreEnv}.

Lemma pruned_info_Some e d s h :
  pruned_info e = Some (d, s, h) ↔ e = RetentionPruned d s h.
Proof. split; [|by intros ->]. destruct e; simpl; congruence. Qed.

(** The unexplained gap after a record that passed the checks. *)
Definition close_gap (gap : option (Z * string)) (r : Row) : option (Z * string) :=
  match of_json (r_body r) ≫= (fun e => pruned_info (event e)) with
  | Some (_, s, h) => if bool_decide (gap = Some (s, h)) then None else gap
  | None => gap
  end.

Definition gap_closed (gap : option (Z * string)) (rows : list Row) : Prop :=
  match gap with None => True | Some (s, h) => Exists (vouches s h) rows end.

Lemma vouches_alt s h r :
  vouches s h r ↔
  ∃ d, of_json (r_body r) ≫= (fun e => pruned_info (event e)) = Some (d, s, h).
Proof.
  unfold vouches. split.
  - intros (e & d & He & Hev). exists d. rewrite He. simpl. by rewrite Hev.
  - intros (d & (e & He & Hp)%bind_Some). exists e, d. split; [done|].
    by apply pruned_info_Some.
Qed.

Lemma gap_closed_cons gap r rows :
  gap_closed gap (r :: rows) ↔ gap_closed (close_gap gap r) rows.
Proof.
  unfold gap_closed, close_gap. destruct gap as [[s h]|].
  - rewrite Exists_cons, vouches_alt.
    destruct (of_json _ ≫= _) as [[[d s'] h']|].
    + case_bool_decide as Hd; simplify_eq; [split; eauto|].
      split; [|by right]. intros [[? ?]|?]; [congruence|done].
    + split; [|by right]. intros [[? ?]|?]; [congruence|done].
  - by destruct (of_json _ ≫= _) as [[[? ?] ?]|].
Qed.

(** The checks of a record against its predecessor. *)
Definition link_ok (report : VerifyReport) (r : Row) : Prop :=
  match report_last_seq report with
  | None => r_seq r = 1 → r_prev_hash r = GENESIS_HASH
  | Some last => r_seq r = i64_wrap (last + 1) ∧ r_prev_hash r = head_hash report
  end.

Definition start_gap (report : VerifyReport) (gap : option (Z * string)) (r : Row)
    : option (Z * string) :=
  match report_last_seq report with
  | None => if r_seq r =? 1 then gap else Some (r_seq r - 1, r_prev_hash r)
  | Some _ => gap
  end.

Lemma link_step_Ok report gap r g prefix :
  (match report_last_seq report with
   | None =>
       if r_seq r =? 1 then
         if String.eqb (r_prev_hash r) GENESIS_HASH then Ok gap
         else Err (prefix +:+ "first record does not link to the genesis hash")
       else Ok (Some (r_seq r - 1, r_prev_hash r))
   | Some last =>
       if negb (r_seq r =? i64_wrap (last + 1)) then
         Err (prefix +:+ "sequence gap after record " +:+ pretty last)
       else if negb (String.eqb (r_prev_hash r) (head_hash report)) then
         Err (prefix +:+ "does not link to the previous record")
       else Ok gap
   end : result string (option (Z * string))) = Ok g ↔
  link_ok report r ∧ g = start_gap report gap r.
Proof.
  unfold link_ok, start_gap. destruct (report_last_seq report) as [last|].
  - destruct (Z.eqb_spec (r_seq r) (i64_wrap (last + 1))); simpl; [|split; [done|tauto]].
    destruct (String.eqb_spec (r_prev_hash r) (head_hash report)); simpl;
      [split; [by intros [= <-]|by intros [_ ->]]|split; [done|tauto]].
  - destruct (Z.eqb_spec (r_seq r) 1); simpl; [|split; [by intros [= <-]|by intros [_ ->]]].
    destruct (String.eqb_spec (r_prev_hash r) GENESIS_HASH); simpl;
      [split; [by intros [= <-]|by intros [_ ->]]|split; [done|tauto]].
Qed.

Lemma check_row_spec report gap r gap' :
  check_row report gap r = Ok gap' ↔
  link_ok report r ∧ row_ok (r_prev_hash r) (r_seq r) r ∧
  gap' = close_gap (start_gap report gap r) r.
Proof.
  unfold check_row, row_ok, close_gap. cbv zeta. rewrite result_bind_Ok.
  setoid_rewrite link_step_Ok. setoid_rewrite bail_Ok. setoid_rewrite result_bind_Ok.
  setoid_rewrite of_option_Ok. setoid_rewrite bail_Ok.
  setoid_rewrite negb_false_iff. setoid_rewrite bool_decide_eq_true. setoid_rewrite String.eqb_eq.
  split.
  - intros (g & [Hl ->] & Hh & e & He & Hc & Hg). split_and!; eauto.
    rewrite He. cbn [mbind option_bind]. destruct (event e); simpl in *; try congruence.
    case_bool_decide; congruence.
  - intros (Hl & (_ & _ & Hh & e & He & Hc) & ->).
    eexists; split; [done|]. split; [done|]. exists e. split_and!; [done..|].
    rewrite He. cbn [mbind option_bind]. destruct (event e); simpl; try done.
    by case_bool_decide.
Qed.

Lemma row_ok_self prev n r :
  row_ok prev n r ↔ r_seq r = n ∧ r_prev_hash r = prev ∧ row_ok (r_prev_hash r) (r_seq r) r.
Proof. unfold row_ok. split; [intros (<-&<-&?)|intros (<-&<-&?)]; tauto. Qed.

(** What the report says after [rows] were accepted behind [report]. *)
Definition extended (report : VerifyReport) (rows : list Row) : VerifyReport :=
  foldl (fun rep r =>
    mkVerifyReport (records rep + 1) (Some (default (r_seq r) (first_seq rep)))
      (Some (r_seq r)) (r_hash r) (error rep)) report rows.

Lemma extended_error report rows : error (extended report rows) = error report.
Proof. revert report. induction rows as [|r rows IH]; intros rep; [done|]. by apply (IH (mkVerifyReport _ _ _ _ _)). Qed.

Lemma extended_spec report rows s h :
  report_last_seq report = Some s → head_hash report = h → linked h (s + 1) rows →
  records (extended report rows) = records report + length rows ∧
  report_last_seq (extended report rows) = Some (s + length rows) ∧
  head_hash (extended report rows) = tip_hash h rows ∧
  (∀ f, first_seq report = Some f → first_seq (extended report rows) = Some f).
Proof.
  revert report s h. induction rows as [|r rows IH]; intros report s h Hs Hh; simpl.
  - intros _. rewrite Z.add_0_r. split_and!; [lia|rewrite Hs; f_equal; lia|done|done].
  - intros [[Hr _] Hl].
    edestruct (IH (mkVerifyReport (records report + 1)
      (Some (default (r_seq r) (first_seq report))) (Some (r_seq r)) (r_hash r) (error report)))
      as (H1 & H2 & H3 & H4); [done|done|by rewrite Hr|].
    simpl in *. unfold extended in *. rewrite H1, H2, H3. split_and!; [lia|f_equal; lia|done|].
    intros f Hf. apply H4. by rewrite Hf.
Qed.

(** The report of [verify_chain] over an intact table. *)
Lemma extended_empty prev n rows :
  linked prev n rows → rows ≠ [] →
  records (extended empty_report rows) = length rows ∧
  first_seq (extended empty_report rows) = Some n ∧
  report_last_seq (extended empty_report rows) = Some (n + length rows - 1) ∧
  head_hash (extended empty_report rows) = tip_hash prev rows.
Proof.
  destruct rows as [|r rows]; [done|]. intros [(Hr & _) Hl] _.
  change (extended empty_report (r :: rows)) with (extended
    (mkVerifyReport (0 + 1) (Some (r_seq r)) (Some (r_seq r)) (r_hash r) None) rows).
  edestruct (extended_spec (mkVerifyReport (0 + 1) (Some (r_seq r)) (Some (r_seq r)) (r_hash r) None)
    rows n (r_hash r)) as (-> & -> & -> & Hf); [simpl; congruence|done|done|].
  rewrite (Hf (r_seq r) eq_refl). simpl. split_and!; [lia|congruence|f_equal; lia|done].
Qed.

Lemma verify_loop_ok report gap rows s :
  error report = None → report_last_seq report = Some s →
  i64_min ≤ s < i64_max → in_range rows →
  (report_ok (verify_loop report gap rows) = true ↔
   linked (head_hash report) (s + 1) rows ∧ gap_closed gap rows) ∧
  (report_ok (verify_loop report gap rows) = true →
   verify_loop report gap rows = extended report rows).
Proof.
  unfold report_ok. revert report gap s.
  induction rows as [|r rows IH]; intros report gap s He Hs Hb Hr; simpl.
  { rewrite bool_decide_eq_true. destruct gap as [[? ?]|]; simpl.
    - split; [split; [done|]|done]. intros [_ Hx%Exists_nil]. done.
    - by rewrite He. }
  apply Forall_cons in Hr as [Hr0 Hr].
  assert (Hw : i64_wrap (s + 1) = s + 1) by (apply i64_wrap_small; unfold i64_min, i64_max in *; lia).
  destruct (check_row report gap r) as [gap'|e] eqn:Hc.
  - apply check_row_spec in Hc as (Hl & Hok & ->).
    unfold link_ok in Hl. unfold start_gap. rewrite Hs in *. rewrite Hw in Hl. destruct Hl as [Hl1 Hl2].
    edestruct (IH (mkVerifyReport (records report + 1)
      (Some (default (r_seq r) (first_seq report))) (Some (r_seq r)) (r_hash r) (error report))
      (close_gap gap r) (r_seq r)) as [IH1 IH2]; [done|done|done|done|].
    simpl in IH1. split; [|exact IH2]. rewrite IH1, gap_closed_cons, (row_ok_self (head_hash report)).
    rewrite Hl1. rewrite Hl1 in Hok. tauto.
  - split; [|done]. rewrite bool_decide_eq_true. simpl. split; [done|].
    intros [[Hok Hl] Hg]. exfalso. apply row_ok_self in Hok as (H1 & H2 & Hok).
    enough (check_row report gap r = Ok (close_gap (start_gap report gap r) r)) by congruence.
    apply check_row_spec. split_and!; [|done|done]. unfold link_ok. by rewrite Hs, Hw.
Qed.

Lemma verify_chain_cons r rows c :
  verify_chain (mkDb (r :: rows) c) =
  match check_row empty_report None r with
  | Err e => with_error empty_report e
  | Ok gap => verify_loop (mkVerifyReport 1 (Some (r_seq r)) (Some (r_seq r)) (r_hash r) None) gap rows
  end.
Proof. reflexivity. Qed.

Lemma gap_closed_start r rows :
  (if r_seq r =? 1 then r_prev_hash r = GENESIS_HASH else True) →
  gap_closed (start_gap empty_report None r) (r :: rows) ↔
  anchored (r_prev_hash r) (r_seq r) (r :: rows).
Proof.
  unfold start_gap, anchored, gap_closed. simpl.
  destruct (Z.eqb_spec (r_seq r) 1) as [->|Hne]; intros Hg; [|tauto].
  split; [by left|done].
Qed.

Lemma verify_chain_spec db :
  in_range (audit db) →
  (report_ok (verify_chain db) = true ↔ intact (audit db)) ∧
  (report_ok (verify_chain db) = true → verify_chain db = extended empty_report (audit db)).
Proof.
  destruct db as [[|r rows] c]; intros Hr.
  { split; [|done]. split; [by left|done]. }
  rewrite verify_chain_cons. apply Forall_cons in Hr as [Hr0 Hr]. unfold audit in *.
  destruct (check_row empty_report None r) as [gap|e] eqn:Hc.
  - apply check_row_spec in Hc as (Hl & Hok & ->).
    edestruct (verify_loop_ok (mkVerifyReport 1 (Some (r_seq r)) (Some (r_seq r)) (r_hash r) None)
      (close_gap (start_gap empty_report None r) r) rows (r_seq r)) as [H1 H2]; [done..|].
    split; [|exact H2]. rewrite H1, <- gap_closed_cons. simpl. unfold link_ok in Hl; simpl in Hl.
    rewrite gap_closed_start by (by destruct (Z.eqb_spec (r_seq r) 1); auto).
    unfold intact. split.
    + intros [Hli Ha]. right. exists (r_prev_hash r), (r_seq r). by split.
    + intros [?|(prev & n & [Hok' Hli] & Ha)]; [done|].
      apply row_ok_self in Hok' as (<- & <- & _). done.
  - split; [|done]. split; [done|]. intros [?|(prev & n & [Hok Hli] & Ha)]; [done|]. exfalso.
    apply row_ok_self in Hok as (<- & <- & Hok).
    enough (check_row empty_report None r = Ok (close_gap (start_gap empty_report None r) r))
      by congruence.
    apply check_row_spec. split_and!; [|done|done]. unfold link_ok; simpl.
    intros H1. destruct Ha as [[_ ?]|[? _]]; [done|lia].
Qed.
End Verify.

(** ** The operations keep the chain intact *)
Section Operations.
Context `{StoreEnvOk}.

(** What a row stores of the entry it was made from. *)
Definition stores (e : AuditEntry) (r : Row) : Prop :=
  r_columns r = columns e ∧ to_json e = Some (r_body r).

Lemma stores_pruned e d s h r :
  stores e r → event e = RetentionPruned d s h → vouches s h r.
Proof.
  intros [_ Hj] He. destruct (serde_columns _ _ Hj) as (e' & Ho & _ & Hp).
  rewrite He in Hp. exists e', d. split; [done|]. by apply pruned_info_Some.
Qed.

Lemma stores_not_pruned e s h r :
  stores e r → pruned_info (event e) = None → ¬ vouches s h r.
Proof.
  intros [_ Hj] He (e' & d & Ho & Hev).
  destruct (serde_columns _ _ Hj) as (e'' & Ho' & _ & Hp). simplify_eq.
  rewrite Hev, He in Hp. done.
Qed.

Lemma insert_entries_spec io k entries rows seq hash rows' seqs seq' hash' :
  Forall (fun r => r_seq r ≤ seq) rows →
  i64_min ≤ seq → seq + length entries ≤ i64_max →
  insert_entries io k entries rows seq hash = Ok (rows', seqs, seq', hash') →
  ∃ new, rows' = rows ++ new ∧ linked hash (seq + 1) new ∧
    seqs = seqZ (seq + 1) (length entries) ∧ seq' = seq + length entries ∧
    hash' = tip_hash hash new ∧ Forall2 stores entries new.
Proof.
  revert k rows seq hash rows' seqs seq' hash'.
  induction entries as [|e entries IH]; intros k rows seq hash rows' seqs seq' hash' Hr Hl Hh.
  { simpl. intros [= <- <- <- <-]. exists []. rewrite app_nil_r, Z.add_0_r. by split_and!. }
  cbn [insert_entries length] in *. rewrite Nat2Z.inj_succ in *.
  rewrite i64_wrap_small by (unfold i64_min, i64_max in *; lia).
  rewrite result_bind_Ok. setoid_rewrite of_option_Ok. intros (body & Hb & Hi).
  apply bail_Ok in Hi as [_ Hi]. set (r := mkRow _ _ _ _ _) in Hi.
  rewrite insert_row_end in Hi by (eapply Forall_impl; [exact Hr|simpl; lia]).
  cbn [mbind result_bind] in Hi.
  apply result_bind_Ok in Hi as ([[[rows1 seqs1] seq1] hash1] & Hi & [= <- <- <- <-]).
  apply IH in Hi as (new & -> & Hlk & -> & -> & -> & Hst); [|..|lia|lia].
  2:{ apply Forall_app; split; [eapply Forall_impl; [exact Hr|simpl; lia]|].
      apply Forall_singleton. simpl. lia. }
  exists (r :: new). rewrite <- app_assoc. rewrite (seqZ_cons (seq + 1)) by lia.
  destruct (serde_columns _ _ Hb) as (e' & Ho & Hc & _).
  split_and!; [done| |f_equal; f_equal; lia|lia|done|by constructor].
  split; [|exact Hlk]. unfold row_ok. simpl. split_and!; [done..|]. eauto.
Qed.

(** Failed statements apart, inserting succeeds when serde does. *)
Lemma insert_entries_total io k entries rows seq hash :
  Forall (fun r => r_seq r ≤ seq) rows →
  i64_min ≤ seq → seq + length entries ≤ i64_max →
  (∀ i, io i = true) → Forall (fun e => is_Some (to_json e)) entries →
  is_ok (insert_entries io k entries rows seq hash) = true.
Proof.
  intros Hr Hl Hh Hio Hj. revert k rows seq hash Hr Hl Hh.
  induction Hj as [|e entries [body Hb] _ IH]; intros k rows seq hash Hr Hl Hh; [done|].
  cbn [insert_entries length] in *. rewrite Nat2Z.inj_succ in *.
  rewrite i64_wrap_small by (unfold i64_min, i64_max in *; lia).
  rewrite Hb, Hio. cbn [of_option mbind result_bind negb].
  rewrite insert_row_end by (eapply Forall_impl; [exact Hr|simpl; lia]).
  cbn [mbind result_bind]. set (r := mkRow _ _ _ _ _).
  specialize (IH (S k) (rows ++ [r]) (seq + 1) (record_hash hash (seq + 1) body)).
  destruct (insert_entries io _ entries _ _ _) as [[[[? ?] ?] ?]|]; [done|].
  apply IH; [|lia|lia]. apply Forall_app; split; [eapply Forall_impl; [exact Hr|simpl; lia]|].
  apply Forall_singleton. simpl. lia.
Qed.

(** The invariant of the single writer. *)
Definition good (s : AuditStore) : Prop :=
  ∃ prev n,
    linked prev n (audit (conn s)) ∧ anchored prev n (audit (conn s)) ∧
    1 ≤ n ∧ last_seq s = n + length (audit (conn s)) - 1 ∧ last_seq s < i64_max ∧
    last_hash s = tip_hash prev (audit (conn s)) ∧
    match chain_head (conn s) with
    | Some h => h = (last_seq s, last_hash s)
    | None => audit (conn s) = []
    end.

Definition new_store : AuditStore := mkAuditStore empty_db 0 GENESIS_HASH.

Lemma good_new : good new_store.
Proof.
  exists GENESIS_HASH, 1. simpl. split_and!; try done. by left.
Qed.

Lemma anchored_app prev n rows new :
  anchored prev n rows → anchored prev n (rows ++ new).
Proof.
  intros [?|[? ?]]; [by left|right]. rewrite Exists_app. auto.
Qed.

Lemma good_seqs_le s : good s → Forall (fun r => r_seq r ≤ last_seq s) (audit (conn s)).
Proof.
  intros (prev & n & Hl & _ & _ & -> & _). apply Forall_forall. intros r Hr.
  pose proof (linked_seq_elem _ _ _ _ Hl Hr). lia.
Qed.

Lemma good_nonneg s : good s → 0 ≤ last_seq s.
Proof. intros (prev & n & _ & _ & ? & -> & _). lia. Qed.

(** Appending to a chain, after possibly dropping a vouched-for prefix. *)
Lemma append_spec io s entries seqs s' :
  good s → last_seq s + length entries < i64_max →
  append io s entries = (Ok seqs, s') →
  ∃ new, conn s' = mkDb (audit (conn s) ++ new) (Some (last_seq s', last_hash s')) ∧
    linked (last_hash s) (last_seq s + 1) new ∧
    seqs = seqZ (last_seq s + 1) (length entries) ∧
    last_seq s' = last_seq s + length entries ∧
    last_hash s' = tip_hash (last_hash s) new ∧ Forall2 stores entries new.
Proof.
  intros Hg Hb. unfold append. destruct (io 0%nat); simpl; [|done]. unfold insert.
  destruct (insert_entries _ _ _ _ _ _) as [[[[rows' seqs'] seq'] hash']|] eqn:Hi; simpl; [|done].
  destruct (io (S (length entries))); simpl; [|done]. destruct (io _); [|done].
  intros [= <- <-]. pose proof (good_nonneg _ Hg).
  apply insert_entries_spec in Hi as (new & -> & ? & -> & -> & -> & ?);
    [|by apply good_seqs_le|unfold i64_min; lia|lia].
  by exists new.
Qed.

Lemma append_err io s entries e s' : append io s entries = (Err e, s') → s' = s.
Proof.
  unfold append. destruct (io 0%nat); simpl; [|congruence].
  destruct (insert _ _ _ _ _ _) as [[[[? ?] ?] ?]|]; [|congruence].
  destruct (io _); congruence.
Qed.

Lemma append_good io s entries :
  good s → last_seq s + length entries < i64_max → good (append io s entries).2.
Proof.
  intros Hg Hb. destruct (append io s entries) as [[seqs|e] s'] eqn:Ha; simpl.
  2:{ by apply append_err in Ha as ->. }
  destruct (append_spec _ _ _ _ _ Hg Hb Ha) as (new & Hc & Hl & _ & Hs & Hh & Hst).
  destruct Hg as (prev & n & Hl0 & Ha0 & Hn & Hs0 & Hb0 & Hh0 & _).
  exists prev, n. rewrite Hc; simpl. rewrite length_app, tip_hash_app, <- Hh0.
  apply Forall2_length in Hst. split_and!; auto using anchored_app; try lia.
  apply linked_app. split; [done|]. rewrite <- Hh0. by replace (n + _) with (last_seq s + 1) by lia.
Qed.

Lemma insert_one io k db e seq hash seqs seq' hash' db' :
  Forall (fun r => r_seq r ≤ seq) (audit db) → i64_min ≤ seq < i64_max →
  insert io k db [e] seq hash = Ok (seqs, seq', hash', db') →
  ∃ r, audit db' = audit db ++ [r] ∧ row_ok hash (seq + 1) r ∧ stores e r ∧
    seq' = seq + 1 ∧ hash' = r_hash r ∧ chain_head db' = Some (seq', hash').
Proof.
  intros Hr Hb. unfold insert.
  destruct (insert_entries _ _ _ _ _ _) as [[[[rows1 seqs1] seq1] hash1]|] eqn:Hi; simpl; [|done].
  destruct (io _); simpl; [|done]. intros [= <- <- <- <-].
  apply insert_entries_spec in Hi as (new & -> & Hl & _ & -> & -> & Hst); [|done|lia|simpl; lia].
  apply Forall2_cons_inv_l in Hst as (r & [|] & Hst & Hnil & ->);
    [|by apply Forall2_length in Hnil].
  destruct Hl as [Hok _]. exists r. by split_and!.
Qed.

(** What a pruning run that reports [d] deleted records did. *)
Definition pruned (s : AuditStore) (cutoff d : Z) (s' : AuditStore) : Prop :=
  ∃ pre post r,
    audit (conn s) = pre ++ post ∧ d = length pre ∧ 0 < d ≤ MAX_PRUNE ∧ post ≠ [] ∧
    Forall (fun r => String.leb (ts_column cutoff) (c_ts (r_columns r)) = false) pre ∧
    audit (conn s') = post ++ [r] ∧
    (∃ prev n, linked prev n (audit (conn s)) ∧
       row_ok (last_hash s) (last_seq s + 1) r ∧
       vouches (n + d - 1) (tip_hash prev pre) r) ∧
    last_seq s' = last_seq s + 1 ∧ last_hash s' = r_hash r ∧
    chain_head (conn s') = Some (last_seq s', last_hash s').

Lemma prune_last s prev n head :
  linked prev n (audit (conn s)) → newest (audit (conn s)) = Some head →
  sql_min (r_seq <$> audit (conn s)) = Some n.
Proof.
  intros Hl Hh. destruct (sql_min _) as [m|] eqn:Hm.
  - apply sql_min_Some in Hm as [Hin Hmin]. rewrite (linked_seqs _ _ _ Hl) in Hin, Hmin.
    apply elem_of_seqZ in Hin. pose proof (Hmin n) as Hn. rewrite elem_of_seqZ in Hn.
    f_equal. lia.
  - apply sql_min_None in Hm. by destruct (audit (conn s)).
Qed.

Lemma prune_cases io s cutoff now out s' :
  good s → last_seq s + 1 < i64_max → prune_before io s cutoff now = (out, s') →
  match out with
  | Err _ => s' = s
  | Ok d => d = 0 ∧ s' = s ∨ pruned s cutoff d s'
  end.
Proof.
  intros (prev & n & Hl & Ha & Hn & Hs & Hb & Hh & Hc) Hb1. unfold prune_before.
  destruct (io 0%nat); simpl; [|by intros [= <- <-]].
  destruct (newest _) as [head|] eqn:Hnew; [|intros [= <- <-]; by left].
  destruct (String.ltb _ _); [intros [= <- <-]; by left|].
  destruct (io 1%nat && io 2%nat); simpl; [|by intros [= <- <-]].
  rewrite (prune_last _ _ _ _ Hl Hnew).
  destruct (newest_linked _ _ _ _ Hl Hnew) as (Hhs & _ & _).
  set (fk := sql_min (r_seq <$> filter _ _)). set (l := Z.min _ _).
  destruct (Z.ltb_spec l n) as [?|Hln]; [intros [= <- <-]; by left|].
  edestruct (linked_find _ _ _ l Hl) as (a & r & b & Hrows & Hrs & Hla & Hfind); [lia|].
  rewrite Hfind. destruct (_ && _); simpl; [|by intros [= <- <-]].
  destruct (linked_filter _ _ _ l Hl) as [-> ->].
  assert (Hk : Z.to_nat (l - n + 1) = length (a ++ [r])) by (rewrite length_app; simpl; lia).
  assert (Hrows' : audit (conn s) = (a ++ [r]) ++ b) by by rewrite <- app_assoc.
  rewrite Hk, Hrows', take_app_length, drop_app_length.
  destruct (insert _ _ _ _ _ _) as [[[[seqs seq'] hash'] db']|] eqn:Hi; [|by intros [= <- <-]].
  destruct (io 8%nat); [|by intros [= <- <-]]. intros [= <- <-]. right.
  pose proof Hl as Hl'. rewrite Hrows' in Hl'. apply linked_app in Hl' as [Hl1 Hl2].
  apply insert_one in Hi as (new & Hdb & Hok & Hst & -> & -> & Hch); simpl in *.
  3:{ unfold i64_min. lia. }
  2:{ eapply Forall_impl; [eapply (Forall_linked_lt _ _ _ (last_seq s + 1) Hl2)|simpl; lia].
      rewrite Hs, Hrows', (length_app (a ++ [r])). lia. }
  exists (a ++ [r]), b, new.
  assert (Hd : 0 < length (a ++ [r])) by (rewrite length_app; simpl; lia).
  split_and!; simpl; try done.
  - rewrite <- Hk. unfold l, MAX_PRUNE in *. lia.
  - intros ->. rewrite Hrows', app_nil_r in Hhs. unfold l in Hk. lia.
  - apply Forall_forall. intros x Hx. destruct (String.leb _ _) eqn:Hle; [|done]. exfalso.
    assert (Hxs : r_seq x ≤ l) by (pose proof (linked_seq_elem _ _ _ _ Hl1 Hx); lia).
    destruct fk as [m|] eqn:Hfk; unfold fk in Hfk.
    + apply sql_min_Some in Hfk as [_ Hmin]. specialize (Hmin (r_seq x)).
      enough (m ≤ r_seq x) by (unfold l in *; simpl in *; lia). apply Hmin.
      apply list_elem_of_fmap_2, list_elem_of_filter. split; [done|].
      rewrite Hrows'. apply elem_of_app. by left.
    + apply sql_min_None, fmap_nil_inv in Hfk.
      enough (x ∈ @nil Row) by (by eapply not_elem_of_nil). rewrite <- Hfk.
      apply list_elem_of_filter. split; [done|]. rewrite Hrows'. apply elem_of_app. by left.
  - exists prev, n. split_and!; [done|done|].
    replace (n + length (a ++ [r]) - 1) with l by lia.
    rewrite tip_hash_app. simpl. by eapply stores_pruned.
Qed.

Lemma pruned_good s cutoff d s' :
  good s → last_seq s + 1 < i64_max → pruned s cutoff d s' → good s'.
Proof.
  intros (prev & n & Hl & Ha & Hn & Hs & Hb & Hh & Hc) Hb1
    (pre & post & r & Hrows & -> & Hd & Hpost & _ & Hdb & Hv & Hs' & Hh' & Hch).
  destruct Hv as (prev' & n' & Hl' & Hok & Hv).
  assert (prev' = prev ∧ n' = n) as [-> ->].
  { destruct (audit (conn s)) as [|x rows]; [by destruct pre|].
    destruct Hl as [(<- & <- & _) _], Hl' as [(<- & <- & _) _]. done. }
  rewrite Hrows in Hl. apply linked_app in Hl as [Hl1 Hl2].
  rewrite Hrows, length_app in Hs. rewrite Hrows, tip_hash_app in Hh.
  exists (tip_hash prev pre), (n + length pre). rewrite Hdb, Hch, length_app, tip_hash_app.
  split_and!; simpl; try lia; try done.
  - apply linked_app. split; [done|]. rewrite <- Hh.
    replace (n + length pre + length post) with (last_seq s + 1) by lia. by split.
  - right. split; [lia|]. apply Exists_app. right. by left.
Qed.

(** Opening the file of a store that was closed gives the store back. *)
Lemma open_good io s now : good s → open io (conn s) now = Ok s.
Proof.
  intros (prev & n & Hl & Ha & Hn & Hs & Hb & Hh & Hc). unfold open.
  destruct (newest (audit (conn s))) as [r|] eqn:Hnew; simpl.
  - destruct (newest_linked _ _ _ _ Hl Hnew) as (Hrs & Hrh & _).
    assert (Hsr : last_seq s = r_seq r) by lia. rewrite <- Hh in Hrh.
    destruct (chain_head (conn s)) as [h|].
    + rewrite Hc. destruct (Z.ltb_spec (r_seq r) (last_seq s)); [lia|].
      destruct s; simpl in *; congruence.
    + by rewrite Hc in Hnew.
  - apply last_None in Hnew. rewrite Hnew in *; simpl in *.
    assert (last_seq s = 0 ∧ last_hash s = GENESIS_HASH) as [Hs0 Hh0].
    { destruct Ha as [[-> ->]|[_ ?%Exists_nil]]; [split; [lia|done]|done]. }
    destruct (chain_head (conn s)) as [h|].
    + rewrite Hc. destruct (Z.ltb_spec 0 (last_seq s)); [lia|]. destruct s; simpl in *; congruence.
    + destruct s; simpl in *; congruence.
Qed.

(** ** The life of a store *)

(** Any statement may fail at any time; sequence numbers stay below [i64]. *)
Inductive store_step (s : AuditStore) : AuditStore → Prop :=
| step_append io entries :
    last_seq s + length entries < i64_max →
    store_step s (append io s entries).2
| step_prune io cutoff now :
    last_seq s + 1 < i64_max →
    store_step s (prune_before io s cutoff now).2
| step_reopen io now s' :
    open io (conn s) now = Ok s' → store_step s s'.

Definition reachable : AuditStore → Prop := rtc store_step new_store.

Lemma step_good s s' : good s → store_step s s' → good s'.
Proof.
  intros Hg [io entries Hb|io cutoff now Hb|io now s'' Ho].
  - by apply append_good.
  - destruct (prune_before io s cutoff now) as [out s1] eqn:Hp.
    apply prune_cases in Hp; [|done|done]. simpl.
    destruct out; [|by subst]. destruct Hp as [[_ ->]|Hp]; [done|by eapply pruned_good].
  - rewrite open_good in Ho by done. by simplify_eq.
Qed.

Lemma reachable_good s : reachable s → good s.
Proof.
  unfold reachable. generalize new_store, good_new. intros s0 Hg Hr.
  revert Hg. induction Hr; eauto using step_good.
Qed.

Lemma good_in_range s : good s → in_range (audit (conn s)).
Proof.
  intros (prev & n & Hl & _ & Hn & Hs & Hb & _). apply Forall_forall. intros r Hr.
  pose proof (linked_seq_elem _ _ _ _ Hl Hr). unfold i64_min. lia.
Qed.
#[local] Hint Resolve reachable_good good_in_range : gateway.

(** Claim C3. Whatever was appended, pruned and reopened, and whichever SQL
    statements failed meanwhile, the trail passes verification, and the
    report names the head the writer holds. *)
Theorem reachable_verifies s :
  reachable s →
  report_ok (verify_chain (conn s)) = true ∧
  records (verify_chain (conn s)) = length (audit (conn s)) ∧
  head_hash (verify_chain (conn s)) = last_hash s ∧
  report_last_seq (verify_chain (conn s)) =
    (if decide (audit (conn s) = []) then None else Some (last_seq s)).
Proof.
  intros Hg%reachable_good. destruct (verify_chain_spec (conn s)) as [H1 H2]; [auto with gateway|].
  assert (Hok : report_ok (verify_chain (conn s)) = true).
  { apply H1. destruct Hg as (prev & n & ? & ? & _). right. eauto. }
  split; [done|]. rewrite H2 by done. clear H1 H2.
  destruct Hg as (prev & n & Hl & Ha & Hn & Hs & Hb & Hh & _).
  case_decide as Hnil.
  - rewrite Hnil in *. simpl.
    destruct Ha as [[-> ->]|[_ ?%Exists_nil]]; [by rewrite Hh|done].
  - destruct (extended_empty _ _ _ Hl Hnil) as (-> & _ & -> & ->).
    split_and!; [done|done|f_equal; lia].
Qed.

(** Appending is atomic: it fails and leaves tables and
    head as they were, or every entry is one new row behind the old ones, in
    order, with consecutive sequence numbers, which are the ones returned, and
    the chain head is committed with them. *)
Theorem append_atomic s io entries :
  reachable s → last_seq s + length entries < i64_max →
  match append io s entries with
  | (Err _, s') => s' = s
  | (Ok seqs, s') =>
      ∃ new, audit (conn s') = audit (conn s) ++ new ∧ Forall2 stores entries new ∧
        (r_seq <$> new) = seqs ∧ seqs = seqZ (last_seq s + 1) (length entries) ∧
        chain_head (conn s') = Some (last_seq s', last_hash s') ∧
        last_seq s' = last_seq s + length entries
  end.
Proof.
  intros Hg%reachable_good Hb. destruct (append io s entries) as [[seqs|e] s'] eqn:Ha.
  - destruct (append_spec _ _ _ _ _ Hg Hb Ha) as (new & -> & Hl & -> & Hs & _ & Hst).
    exists new. simpl. rewrite (linked_seqs _ _ _ Hl), <- (Forall2_length _ _ _ Hst).
    by split_and!.
  - by apply append_err in Ha.
Qed.

(** When no statement fails and the entries can be
    serialised, they are stored: the call does not fail for any other reason. *)
Theorem append_succeeds s entries :
  reachable s → last_seq s + length entries < i64_max →
  Forall (fun e => is_Some (to_json e)) entries →
  (append (fun _ => true) s entries).1 = Ok (seqZ (last_seq s + 1) (length entries)).
Proof.
  intros Hg%reachable_good Hb Hj. pose proof (good_nonneg _ Hg).
  assert (Hok : is_ok (append (fun _ => true) s entries).1 = true).
  { unfold append, insert; simpl.
    pose proof (insert_entries_total (fun _ => true) 1 entries (audit (conn s)) (last_seq s)
      (last_hash s)) as Ht.
    destruct (insert_entries _ _ _ _ _ _) as [[[[? ?] ?] ?]|]; [done|].
    apply Ht; [by apply good_seqs_le|unfold i64_min; lia|lia|done|done]. }
  destruct (append _ s entries) as [[seqs|e] s'] eqn:Ha; [|done].
  by destruct (append_spec _ _ _ _ _ Hg Hb Ha) as (new & _ & _ & -> & _).
Qed.

(** Claim C16. Retention deletes a prefix of the trail and
    nothing else: at most [MAX_PRUNE] records at a time, all older than the
    cutoff, never the newest; in the same transaction it appends a record
    with the last deleted sequence number and hash. A run that fails, or
    deletes nothing, changes nothing. *)
Theorem prune_only_expired s io cutoff now :
  reachable s → last_seq s + 1 < i64_max →
  match prune_before io s cutoff now with
  | (Err _, s') => s' = s
  | (Ok d, s') =>
      d = 0 ∧ s' = s ∨
      ∃ pre post r, audit (conn s) = pre ++ post ∧ audit (conn s') = post ++ [r] ∧
        d = length pre ∧ 0 < d ≤ MAX_PRUNE ∧ post ≠ [] ∧
        Forall (fun r => String.leb (ts_column cutoff) (c_ts (r_columns r)) = false) pre ∧
        ∃ last, newest pre = Some last ∧ vouches (r_seq last) (r_hash last) r
  end.
Proof.
  intros Hg%reachable_good Hb. destruct (prune_before io s cutoff now) as [out s'] eqn:Hp.
  apply prune_cases in Hp; [|done|done]. destruct out as [d|e]; [|done].
  destruct Hp as [Hp|(pre & post & r & Hrows & Hd & Hd' & Hpost & Hold & Hdb & Hv & _)];
    [by left|right].
  destruct Hv as (prev & n & Hl & _ & Hv). exists pre, post, r. split_and!; try (done || lia).
  rewrite Hrows in Hl. apply linked_app in Hl as [Hl _].
  destruct (newest pre) as [last|] eqn:Hn; [|apply last_None in Hn as ->; simpl in *; lia].
  exists last. split; [done|].
  destruct (newest_linked _ _ _ _ Hl Hn) as (-> & -> & _). by rewrite Hd in Hv.
Qed.

(** Records cut off the end of the file while it
    was closed are noticed when it is opened: the store continues behind the
    lost record, its next row says so, and the trail no longer verifies. *)
Theorem truncation_detected s io now kept lost s' :
  reachable s → last_seq s + 1 < i64_max →
  audit (conn s) = kept ++ lost → lost ≠ [] →
  open io (mkDb kept (chain_head (conn s))) now = Ok s' →
  (∃ r, audit (conn s') = kept ++ [r] ∧
     r_seq r = last_seq s + 1 ∧ r_prev_hash r = last_hash s ∧
     stores (new_entry now (TrailTruncated (last_seq s)
       (match newest kept with Some k => r_seq k | None => 0 end))) r) ∧
  report_ok (verify_chain (conn s')) = false.
Proof.
  intros Hg%reachable_good Hb Hrows Hlost. pose proof (good_nonneg _ Hg) as Hnn.
  destruct Hg as (prev & n & Hl & Ha & Hn & Hs & Hb' & Hh & Hc).
  rewrite Hrows in Hl, Hs. pose proof Hl as Hl'. apply linked_app in Hl' as [Hl1 Hl2].
  rewrite length_app in Hs.
  assert (0 < length lost) by (destruct lost; simpl; [done|lia]).
  destruct (chain_head (conn s)) as [h|]; [subst h|by rewrite Hc in Hrows; destruct kept, lost].
  unfold open. simpl. set (found := match newest kept with Some k => r_seq k | None => 0 end).
  assert (Hf : found < last_seq s).
  { unfold found. destruct (newest kept) as [k|] eqn:Hk; [|lia].
    destruct (newest_linked _ _ _ _ Hl1 Hk) as (-> & _). lia. }
  replace (match (fun r => (r_seq r, r_hash r)) <$> newest kept with
           | Some (seq, _) => seq | None => 0 end) with found
    by (unfold found; by destruct (newest kept)).
  destruct (Z.ltb_spec found (last_seq s)) as [_|]; [|lia].
  replace (match (fun r => (r_seq r, r_hash r)) <$> newest kept with
           | Some (_, _) | _ => (last_seq s, last_hash s, true) end) with (last_seq s, last_hash s, true)
    by (by destruct (newest kept) as [[]|]).
  unfold append. destruct (io 0%nat); simpl; [|done].
  destruct (insert _ _ _ _ _ _) as [[[[seqs seq'] hash'] db']|] eqn:Hi; [|done].
  destruct (io _); [|done]. intros [= <-]. simpl.
  apply insert_one in Hi as (r & Hdb & Hok & Hst & -> & -> & _); simpl in *.
  3:{ unfold i64_min. lia. }
  2:{ eapply Forall_impl; [eapply (Forall_linked_lt _ _ _ (last_seq s + 1) Hl1); lia|simpl; lia]. }
  split. { exists r. destruct Hok as (? & ? & _). by split_and!. }
  assert (Hni : ¬ intact (audit db')).
  { rewrite Hdb. intros [?|(p & m & Hlk & Han)]; [by destruct kept|].
    destruct Hok as (Hrs & _). destruct kept as [|x kept]; simpl in *.
    - destruct Hlk as [(Hm & _) _]. destruct Han as [[? _]|[_ Hv]]; [lia|].
      apply Exists_cons in Hv as [Hv|Hv%Exists_nil]; [|done]. by eapply stores_not_pruned.
    - destruct Hl1 as [(Hx & _) _], Hlk as [(Hx' & _) Hlk]. apply linked_app in Hlk as [_ [(Hr' & _) _]].
      lia. }
  destruct (verify_chain_spec db') as [Hv _].
  { rewrite Hdb. apply Forall_app. split.
    - apply Forall_forall. intros x Hx. pose proof (linked_seq_elem _ _ _ _ Hl1 Hx).
      unfold i64_min. lia.
    - apply Forall_singleton. destruct Hok as (-> & _). unfold i64_min. lia. }
  destruct (report_ok (verify_chain db')); [|done]. by destruct (Hni (proj1 Hv eq_refl)).
Qed.
End Operations.

(** ** Evidence of tampering *)
Section Tamper.
Context `{StoreEnvOk}.

(** The text whose SHA-256 a record carries. *)
Definition hashed_text (r : Row) : string :=
  r_prev_hash r +:+ lf +:+ pretty (r_seq r) +:+ lf +:+ r_body r.

(** A collision of SHA-256 between the tables at hand: two of their records
    were hashed from different texts and carry the same hash. *)
Definition collision (a b : list Row) : Prop :=
  ∃ r r', r ∈ a ∧ r' ∈ b ∧ hashed_text r ≠ hashed_text r' ∧
    sha256_hex (hashed_text r) = sha256_hex (hashed_text r').

(** The hash the first record links to is on one line, as every hash is. *)
Definition plain_start (rows : list Row) : Prop :=
  match rows with [] => True | r :: _ => has_byte "010"%char (r_prev_hash r) = false end.

Lemma hashed_text_inj r r' :
  has_byte "010"%char (r_prev_hash r) = false → has_byte "010"%char (r_prev_hash r') = false →
  hashed_text r = hashed_text r' →
  r_prev_hash r = r_prev_hash r' ∧ r_seq r = r_seq r' ∧ r_body r = r_body r'.
Proof.
  unfold hashed_text, lf. intros Hp Hp' E.
  apply app_sep_inj in E as [Ep E]; [|done..].
  apply app_sep_inj in E as [Es Eb]; [|apply pretty_Z_no_lf..].
  split_and!; [done|by apply (inj pretty)|done].
Qed.

Lemma row_ok_same_hash p n r p' n' r' a b :
  row_ok p n r → row_ok p' n' r' → r ∈ a → r' ∈ b →
  has_byte "010"%char p = false → has_byte "010"%char p' = false →
  r_hash r = r_hash r' → collision a b ∨ r = r'.
Proof.
  intros (Hs & Hp & Hh & e & He & Hc) (Hs' & Hp' & Hh' & e' & He' & Hc') Ha Hb Hl Hl' Heq.
  destruct (decide (hashed_text r = hashed_text r')) as [Hd|Hd].
  - right. apply hashed_text_inj in Hd as (Hd1 & Hd2 & Hd3); [|by subst..].
    rewrite Hd3 in He. simplify_eq.
    destruct r, r'. simpl in *. by subst.
  - left. exists r, r'. subst. unfold record_hash in *. unfold hashed_text in *.
    split_and!; congruence.
Qed.

Lemma linked_snoc prev n rows r :
  linked prev n (rows ++ [r]) ↔
  linked prev n rows ∧ row_ok (tip_hash prev rows) (n + length rows) r.
Proof. rewrite linked_app. simpl. tauto. Qed.

(** Every hash a record links to is on one line. *)
Lemma tip_hash_no_lf prev n rows r :
  linked prev n (rows ++ [r]) → plain_start (rows ++ [r]) →
  has_byte "010"%char (tip_hash prev rows) = false.
Proof.
  destruct rows as [|x rows _] using rev_ind; simpl.
  - by intros [(_ & -> & _) _].
  - intros Hl _. rewrite <- app_assoc in Hl. apply linked_app in Hl as [_ [(_ & _ & Hx & _) _]].
    rewrite tip_hash_app. simpl. rewrite Hx. apply hash_no_lf.
Qed.

(** The head of a chain commits to everything in it. *)
Lemma linked_tip_suffix a b p n p' n' :
  linked p n a → linked p' n' b → a ≠ [] → b ≠ [] → plain_start a → plain_start b →
  tip_hash p a = tip_hash p' b →
  collision a b ∨ a `suffix_of` b ∨ b `suffix_of` a.
Proof.
  revert b p n p' n'. induction a as [|r a IH] using rev_ind; [done|].
  intros b p n p' n' Ha Hb _ Hbn Hpa Hpb Ht.
  destruct b as [|r' b _] using rev_ind; [done|].
  pose proof (tip_hash_no_lf _ _ _ _ Ha Hpa). pose proof (tip_hash_no_lf _ _ _ _ Hb Hpb).
  apply linked_snoc in Ha as [Ha Hr]. apply linked_snoc in Hb as [Hb Hr'].
  rewrite !tip_hash_app in Ht. simpl in Ht.
  destruct (row_ok_same_hash _ _ _ _ _ _ (a ++ [r]) (b ++ [r']) Hr Hr') as [?|<-];
    [set_solver..|done|done|done|by left|].
  destruct (decide (a = [])) as [->|Han]; [right; left; by exists b|].
  destruct (decide (b = [])) as [->|Hbn']; [right; right; by exists a|].
  destruct (IH b p n p' n') as [Hc|[[k ->]|[k ->]]]; try done.
  - by destruct a.
  - by destruct b.
  - destruct Hr as (_ & <- & _), Hr' as (_ & <- & _). done.
  - left. destruct Hc as (x & y & Hx & Hy & Hc). exists x, y. split_and!; try set_solver; apply Hc.
  - right. left. exists k. by rewrite app_assoc.
  - right. right. exists k. by rewrite app_assoc.
Qed.

Lemma verified_head rows c :
  in_range rows → report_ok (verify_chain (mkDb rows c)) = true →
  ∃ prev n, linked prev n rows ∧ anchored prev n rows ∧
    head_hash (verify_chain (mkDb rows c)) = tip_hash prev rows ∧
    (rows = [] → n = 1 ∧ prev = GENESIS_HASH) ∧
    first_seq (verify_chain (mkDb rows c)) = (if decide (rows = []) then None else Some n) ∧
    report_last_seq (verify_chain (mkDb rows c)) =
      (if decide (rows = []) then None else Some (n + length rows - 1)).
Proof.
  intros Hr Hok. destruct (verify_chain_spec (mkDb rows c) Hr) as [H1 H2].
  rewrite H2 by done. apply H1 in Hok as [Hn|(prev & n & Hl & Ha)]; simpl in *.
  - subst. exists GENESIS_HASH, 1. simpl. split_and!; try done. by left.
  - exists prev, n. case_decide as Hnil.
    + rewrite Hnil in *. simpl. by destruct Ha as [[-> ->]|[_ ?%Exists_nil]];
        [split_and!; try done; left|].
    + destruct (extended_empty _ _ _ Hl Hnil) as (_ & -> & -> & ->). by split_and!.
Qed.

(** Claim C7. Two trails that both verify and end with the same
    head hash hold the same records, as far back as both reach: no record can
    be changed, inserted, removed or reordered without a SHA-256 collision
    among the records themselves. *)
Theorem tamper_evident a b :
  in_range (audit a) → in_range (audit b) →
  report_ok (verify_chain a) = true → report_ok (verify_chain b) = true →
  audit a ≠ [] → audit b ≠ [] → plain_start (audit a) → plain_start (audit b) →
  head_hash (verify_chain a) = head_hash (verify_chain b) →
  collision (audit a) (audit b) ∨
  audit a `suffix_of` audit b ∨ audit b `suffix_of` audit a.
Proof.
  destruct a as [a ca], b as [b cb]. simpl. intros Hra Hrb Ha Hb Hna Hnb Hpa Hpb Hh.
  destruct (verified_head _ _ Hra Ha) as (p & n & Hl & _ & E & _).
  destruct (verified_head _ _ Hrb Hb) as (p' & n' & Hl' & _ & E' & _).
  eapply linked_tip_suffix; eauto. congruence.
Qed.

(** An anchor the trail agrees with: its record is there, or was pruned. *)
Definition anchor_holds (db : Db) (a : Anchor) : Prop :=
  ∃ prev n, linked prev n (audit db) ∧ audit db ≠ [] ∧
    a_seq a ≤ n + length (audit db) - 1 ∧
    (n ≤ a_seq a → ∃ r, r ∈ audit db ∧ r_seq r = a_seq a ∧ r_hash r = a_hash a).

Lemma anchor_problem_spec db a :
  in_range (audit db) → report_ok (verify_chain db) = true →
  anchor_problem (verify_chain db) db a = None ↔ anchor_holds db a.
Proof.
  destruct db as [rows c]. simpl. intros Hr Hok.
  destruct (verified_head _ _ Hr Hok) as (prev & n & Hl & _ & _ & Hnil & Hf & Hs).
  unfold anchor_problem. rewrite Hf, Hs. unfold anchor_holds. simpl.
  destruct (decide (rows = [])) as [->|Hne]; [split; [done|intros (?&?&_&?&_); done]|].
  assert (Huniq : ∀ p m, linked p m rows → m = n).
  { intros p m Hm. destruct rows; [done|]. destruct Hm as [(<- & _) _], Hl as [(<- & _) _]. done. }
  destruct (Z.ltb_spec (n + length rows - 1) (a_seq a)) as [Hlt|Hle].
  { split; [done|]. intros (p & m & Hm & _ & Hb & _). rewrite (Huniq _ _ Hm) in Hb. lia. }
  destruct (Z.ltb_spec (a_seq a) n) as [Hlt|Hge].
  { split; [|done]. intros _. exists prev, n. split_and!; [done|done|done|lia]. }
  edestruct (linked_find _ _ _ (a_seq a) Hl) as (x & r & y & Hrows & Hrs & _ & ->); [lia|].
  assert (Hin : r ∈ rows) by (rewrite Hrows; set_solver).
  simpl. case_bool_decide as Hd; split; try done.
  - intros _. exists prev, n. split_and!; [done|done|done|]. intros _. exists r.
    split_and!; [done|done|congruence].
  - intros (p & m & Hm & _ & _ & Hex). rewrite (Huniq _ _ Hm) in Hex.
    destruct (Hex Hge) as (r' & Hin' & Hs' & Hh'). destruct Hd. f_equal.
    enough (r = r') by by subst.
    assert (HN : NoDup (r_seq <$> rows)) by (rewrite (linked_seqs _ _ _ Hl); apply NoDup_seqZ).
    apply list_elem_of_lookup in Hin as [i Hi]. apply list_elem_of_lookup in Hin' as [j Hj].
    enough (i = j) by congruence.
    eapply (NoDup_lookup _ i j (a_seq a) HN); rewrite list_lookup_fmap, ?Hi, ?Hj; simpl; congruence.
Qed.

(** A trail passes [verify_against] exactly when it
    verifies and agrees with every anchor: the anchored record is there with
    the hash the anchor names, or lies before the first record kept. *)
Theorem anchors_checked db anchors :
  in_range (audit db) →
  report_ok (verify_against db anchors) = true ↔
  report_ok (verify_chain db) = true ∧ Forall (anchor_holds db) anchors.
Proof.
  intros Hr. unfold verify_against.
  destruct (report_ok (verify_chain db)) eqn:Hok; [|rewrite Hok; naive_solver].
  enough (report_ok (check_anchors (verify_chain db) db anchors) = true ↔
          Forall (anchor_holds db) anchors) by tauto.
  induction anchors as [|a anchors IH]; simpl; [rewrite Hok; by split|].
  rewrite Forall_cons, <- anchor_problem_spec by done.
  destruct (anchor_problem _ _ _) as [e|]; [|rewrite IH; naive_solver].
  split; [|by intros [? _]]. done.
Qed.
End Tamper.

(** ** A concrete environment

    Enough of serde and SHA-256 to run the store: entries without a client,
    whose event carries no text other than a hash, rendered as bits; digests
    are the text in hexadecimal. *)
Module Toy.

Fixpoint bits (p : positive) : string :=
  match p with
  | xH => EmptyString
  | xO p => String "0" (bits p)
  | xI p => String "1" (bits p)
  end.

Fixpoint of_bits (s : string) : positive :=
  match s with
  | EmptyString => xH
  | String a s => if Ascii.eqb a "0" then xO (of_bits s) else xI (of_bits s)
  end.

Lemma of_bits_bits p : of_bits (bits p) = p.
Proof. induction p; simpl; congruence. Qed.

Definition nibble (b0 b1 b2 b3 : bool) : ascii := Ascii b0 b1 b2 b3 false false true false.

Fixpoint hex (s : string) : string :=
  match s with
  | EmptyString => EmptyString
  | String (Ascii b0 b1 b2 b3 b4 b5 b6 b7) s =>
      String (nibble b4 b5 b6 b7) (String (nibble b0 b1 b2 b3) (hex s))
  end.

Lemma hex_no_lf s : has_byte "010"%char (hex s) = false.
Proof.
  induction s as [|[b0 b1 b2 b3 b4 b5 b6 b7] s IH]; [done|].
  simpl. rewrite IH. by destruct b0, b1, b2, b3, b4, b5, b6, b7.
Qed.

(** The shapes of event the environment can serialise. *)
Definition shape (e : AuditEvent) : option (Z * Z * Z * string) :=
  match e with
  | SessionClosed => Some (0, 0, 0, EmptyString)
  | RetentionPruned d s h => Some (1, d, s, h)
  | TrailTruncated a b => Some (2, a, b, EmptyString)
  | EventsLost n => Some (3, n, 0, EmptyString)
  | AlarmsAcknowledged u Warning s n => Some (4, s, n, u)
  | AlarmsAcknowledged u Error s n => Some (5, s, n, u)
  | _ => None
  end.

Definition of_shape (x : Z * Z * Z * string) : AuditEvent :=
  match x with
  | (0, _, _, _) => SessionClosed
  | (1, d, s, h) => RetentionPruned d s h
  | (2, a, b, _) => TrailTruncated a b
  | (4, s, n, u) => AlarmsAcknowledged u Warning s n
  | (5, s, n, u) => AlarmsAcknowledged u Error s n
  | (_, n, _, _) => EventsLost n
  end.

Lemma of_shape_shape e x : shape e = Some x → of_shape x = e.
Proof.
  destruct e as [| | | | | | | | | | | | | | | | | | | | | | | | | | | | | | | | | |u sev s n|];
    try done; try (intros Hx; by injection Hx as <-).
  destruct sev; intros Hx; by injection Hx as <-.
Qed.

Definition entry_json (e : AuditEntry) : option string :=
  match client e, shape (event e) with
  | None, Some x => Some (bits (encode (ts e, target e, x)))
  | _, _ => None
  end.

Definition json_entry (s : string) : option AuditEntry :=
  '(t, tg, x) ← decode (of_bits s); Some (mkAuditEntry t tg None (of_shape x)).

#[export] Instance env : StoreEnv := {
  sha256_hex := hex;
  to_json := entry_json;
  of_json := json_entry;
  rfc3339_micros t := pretty t;
}.

Lemma json_roundtrip e b : entry_json e = Some b → json_entry b = Some e.
Proof.
  unfold entry_json, json_entry. destruct e as [t tg [c|] ev]; [done|]. simpl.
  destruct (shape ev) as [x|] eqn:Hx; [|done]. intros [= <-].
  rewrite of_bits_bits, decode_encode. simpl. by rewrite (of_shape_shape _ _ Hx).
Qed.

#[export] Instance env_ok : StoreEnvOk.
Proof.
  split; [exact hex_no_lf|]. intros e b Hb. exists e.
  split_and!; [exact (json_roundtrip e b Hb)|done|done].
Qed.

Definition up : io_oracle := fun _ => true.

Definition closed (t : Z) : AuditEntry := new_entry t SessionClosed.

(** A store with two records at times 10 and 20. *)
Definition store2 : AuditStore := (append up new_store [closed 10; closed 20]).2.

Lemma store2_reachable : reachable store2.
Proof. eapply rtc_once, step_append. vm_compute. reflexivity. Qed.

(** The same store after retention removed the first record. *)
Definition store_pruned : AuditStore := (prune_before up store2 20 30).2.

Lemma store_pruned_reachable : reachable store_pruned.
Proof. eapply rtc_r; [apply store2_reachable|]. apply step_prune. vm_compute. reflexivity. Qed.

End Toy.

Section Witnesses.
Import Toy.

Lemma reachable_verifies_witness :
  length (audit (conn store_pruned)) = 2%nat ∧ first_seq (verify_chain (conn store_pruned)) = Some 2 ∧
  report_ok (verify_chain (conn store_pruned)) = true.
Proof.
  split_and!; [vm_compute; reflexivity..|]. apply (reachable_verifies store_pruned store_pruned_reachable).
Defined.

Lemma append_atomic_witness :
  ∃ new, audit (append up store_pruned [closed 40]).2.(conn) = audit (conn store_pruned) ++ new ∧
    length new = 1%nat.
Proof.
  pose proof (append_atomic store_pruned up [closed 40] store_pruned_reachable) as Ha.
  destruct (append up store_pruned [closed 40]) as [[seqs|e] s'] eqn:E; [|vm_compute in E; discriminate E].
  destruct Ha as (new & Hn & Hst & _); [vm_compute; reflexivity|].
  exists new. split; [done|]. by rewrite <- (Forall2_length _ _ _ Hst).
Defined.

Lemma append_succeeds_witness : (append up store_pruned [closed 40]).1 = Ok [4].
Proof.
  apply (append_succeeds store_pruned [closed 40] store_pruned_reachable); [vm_compute; reflexivity|].
  by repeat constructor.
Defined.

Lemma prune_only_expired_witness :
  (prune_before up store2 20 30).1 = Ok 1 ∧
  ∃ pre post r, audit (conn store2) = pre ++ post ∧ audit (conn store_pruned) = post ++ [r].
Proof.
  pose proof (prune_only_expired store2 up 20 30 store2_reachable) as Hp.
  unfold store_pruned.
  destruct (prune_before up store2 20 30) as [[d|e] s'] eqn:E; [|vm_compute in E; discriminate E].
  assert (d = 1) as -> by (vm_compute in E; by injection E).
  split; [done|]. destruct Hp as [[Hd _]|(pre & post & r & H1 & H2 & _)];
    [vm_compute; reflexivity|discriminate Hd|].
  exists pre, post, r. split; assumption.
Defined.

Lemma truncation_detected_witness :
  ∃ s', open up (mkDb (take 1 (audit (conn store2))) (chain_head (conn store2))) 50 = Ok s' ∧
    report_ok (verify_chain (conn s')) = false.
Proof.
  destruct (open up (mkDb (take 1 (audit (conn store2))) (chain_head (conn store2))) 50) as [s'|e] eqn:E;
    [|vm_compute in E; discriminate E].
  exists s'. split; [done|].
  apply (truncation_detected store2 up 50 (take 1 (audit (conn store2))) (drop 1 (audit (conn store2))) s');
    [apply store2_reachable|vm_compute; reflexivity|by rewrite take_drop|vm_compute; discriminate|exact E].
Defined.

(** The pruned trail and the copy made before it was pruned. *)
Lemma tamper_evident_witness :
  let full := mkDb (take 1 (audit (conn store2)) ++ audit (conn store_pruned)) None in
  length (audit full) = 3%nat ∧ length (audit (conn store_pruned)) = 2%nat ∧
  (collision (audit (conn store_pruned)) (audit full) ∨
   audit (conn store_pruned) `suffix_of` audit full ∨
   audit full `suffix_of` audit (conn store_pruned)).
Proof.
  pose proof (good_in_range _ (reachable_good _ store_pruned_reachable)) as Hp.
  pose proof (good_in_range _ (reachable_good _ store2_reachable)) as H2.
  intros full. split; [vm_compute; reflexivity|]. split; [vm_compute; reflexivity|].
  apply (tamper_evident (conn store_pruned) full).
  - exact Hp.
  - apply Forall_app. split; [by apply Forall_take|exact Hp].
  - vm_compute. reflexivity.
  - vm_compute. reflexivity.
  - vm_compute. discriminate.
  - vm_compute. discriminate.
  - vm_compute. reflexivity.
  - vm_compute. reflexivity.
  - vm_compute. reflexivity.
Defined.

Lemma anchors_checked_witness :
  report_ok (verify_against (conn store2) [mkAnchor 2 (last_hash store2) "questdb"]) = true ∧
  Forall (anchor_holds (conn store2)) [mkAnchor 2 (last_hash store2) "questdb"].
Proof.
  split; [vm_compute; reflexivity|].
  apply (anchors_checked (conn store2)); [|vm_compute; reflexivity].
  apply good_in_range, reachable_good, store2_reachable.
Defined.
End Witnesses.
