(* ===== verification/Query.v ===== *)
(** Reading the trail ([src/src/audit/store.rs]): [query], [query_after],
    [head_seq], [alarms] and [most_written]. SQL conditions are bool functions
    of a row ([NULL] is not true), [ORDER BY seq] is the order of the table. *)

From S2P Require Import Prelude Event Store.

(** Filter for [query]; all fields are combined with AND. *)
Record AuditQuery : Type := mkAuditQuery {
  q_target : option string;
  q_kind : option string;
  q_user : option string;
  q_node_id : option string;
  since : option Z;
  until : option Z;
  before_seq : option Z;
  after_seq : option Z;
  q_kinds : option string;
  limit : option Z;
}.

Definition any_query : AuditQuery :=
  mkAuditQuery None None None None None None None None None None.

Definition with_page (q : AuditQuery) (before : option Z) (n : Z) : AuditQuery :=
  mkAuditQuery (q_target q) (q_kind q) (q_user q) (q_node_id q) (since q) (until q)
    before (after_seq q) (q_kinds q) (Some n).

Record StoredRecord : Type := mkStoredRecord {
  seq : Z;
  hash : string;
  prev_hash : string;
  entry : AuditEntry;
}.

(** ** SQL conditions *)
Definition sql_eq (column : option string) (v : string) : bool :=
  match column with Some c => String.eqb c v | None => false end.

(** [instr(lower(column), lower(v)) > 0]; SQLite's [lower] is ASCII only. *)
Definition sql_instr_lower (column : option string) (v : string) : bool :=
  match column with
  | Some c => contains (to_ascii_lowercase v) (to_ascii_lowercase c)
  | None => false
  end.

Definition coalesce {A} (l : list (option A)) : option A :=
  foldr (fun o rest => match o with Some x => Some x | None => rest end) None l.

(** A condition that is only there when the filter has a value. *)
Definition if_given {A} (v : option A) (f : A → bool) : bool :=
  match v with Some v => f v | None => true end.

(** The comma separated kinds of [AuditQuery::kinds]. *)
Definition kind_list (kinds : string) : list string :=
  filter (fun k => k ≠ EmptyString) (trim <$> split "," kinds).

(** [most_written]'s parameters. *)
Record WrittenFilter : Type := mkWrittenFilter {
  w_target : option string;
  w_client : option string;
}.

Record WrittenNode : Type := mkWrittenNode {
  wn_target : option string;
  wn_node_id : string;
  wn_display_name : option string;
  wn_count : Z;
  wn_last : StoredRecord;
}.

Record AlarmCount : Type := mkAlarmCount {
  severity : Severity;
  acknowledged_up_to : Z;
  unacknowledged : Z;
  alarm_kinds : list string;
}.

Section Query.
Context `{StoreEnv}.
(** SQLite's [json_extract(body, path)]. *)
Variable json_extract : string → string → option string.

Definition stored (r : Row) : result string StoredRecord :=
  entry ← of_option ("audit record " +:+ pretty (r_seq r) +:+ " has an unreadable body")
            (of_json (r_body r));
  Ok (mkStoredRecord (r_seq r) (r_hash r) (r_prev_hash r) entry).

(** The [WHERE] clause [query] builds. *)
Definition matches (q : AuditQuery) (r : Row) : bool :=
  let c := r_columns r in
  if_given (q_target q) (sql_eq (c_target c)) &&
  if_given (q_kind q) (String.eqb (c_kind c)) &&
  if_given (q_user q) (sql_instr_lower
    (coalesce [c_user c; json_extract (r_body r) "$.event.by";
               json_extract (r_body r) "$.event.user"])) &&
  if_given (q_node_id q) (fun v =>
    sql_instr_lower (c_node_id c) v ||
    sql_instr_lower (json_extract (r_body r) "$.event.display_name") v) &&
  if_given (since q) (fun v => String.leb (ts_column v) (c_ts c)) &&
  if_given (until q) (fun v => String.ltb (c_ts c) (ts_column v)) &&
  if_given (before_seq q) (fun v => r_seq r <? v) &&
  if_given (after_seq q) (fun v => v <? r_seq r) &&
  if_given (q_kinds q) (fun kinds =>
    match kind_list kinds with
    | [] => true
    | ks => existsb (String.eqb (c_kind c)) ks
    end).

Definition query_limit (q : AuditQuery) : nat := Z.to_nat (clamp (default 100 (limit q)) 1 1000).

(** Newest records first. *)
Definition query (db : Db) (q : AuditQuery) : result string (list StoredRecord) :=
  collect (stored <$> take (query_limit q) (reverse (List.filter (matches q) (audit db)))).

(** Records after [after_seq], oldest first. *)
Definition query_after (db : Db) (after_seq : Z) (limit : nat)
    : result string (list StoredRecord) :=
  collect (stored <$> take limit (List.filter (fun r => after_seq <? r_seq r) (audit db))).

(** [SELECT COALESCE(MAX(seq), 0)] *)
Definition head_seq (db : Db) : Z :=
  match audit db with
  | [] => 0
  | r :: rows => foldr (fun r m => Z.max (r_seq r) m) (r_seq r) rows
  end.

(** ** Alarms *)

(** [marks.entry(severity).or_insert(up_to_seq)] over the acknowledgements,
    newest first. *)
Definition add_mark (marks : list (Severity * Z)) (body : string) : list (Severity * Z) :=
  match of_json body with
  | Some e =>
      match event e with
      | AlarmsAcknowledged _ sev up_to_seq _ =>
          if existsb (fun m => bool_decide (m.1 = sev)) marks then marks
          else (sev, up_to_seq) :: marks
      | _ => marks
      end
  | None => marks
  end.

Definition alarm_marks (db : Db) : list (Severity * Z) :=
  foldl add_mark []
    (r_body <$> take 100 (reverse (List.filter
      (fun r => String.eqb (c_kind (r_columns r)) "alarms_acknowledged") (audit db)))).

Definition mark_of (marks : list (Severity * Z)) (s : Severity) : Z :=
  default 0 (snd <$> List.find (fun m => bool_decide (m.1 = s)) marks).

Definition alarm_count (db : Db) (marks : list (Severity * Z)) (s : Severity) : AlarmCount :=
  let mark := mark_of marks s in
  mkAlarmCount s mark
    (Z.of_nat (length (List.filter (fun r =>
       (mark <? r_seq r) && existsb (String.eqb (c_kind (r_columns r))) (kinds s)) (audit db))))
    (kinds s).

(** For each severity, how many records came after the last acknowledgement. *)
Definition alarms (db : Db) : list AlarmCount :=
  alarm_count db (alarm_marks db) <$> Severity_ALL.

(** ** The nodes written most *)

(** An address [v] is that of the client at [addr] ("v:port" or "[v]:port"). *)
Definition from_address (addr v : string) : bool :=
  String.eqb addr v || String.prefix (v +:+ ":") addr || String.prefix ("[" +:+ v +:+ "]:") addr.

Definition counts_write (t : Z) (f : WrittenFilter) (r : Row) : bool :=
  let c := r_columns r in
  String.eqb (c_kind c) "write" && String.leb (ts_column t) (c_ts c) &&
  if_given (w_target f) (sql_eq (c_target c)) &&
  if_given (w_client f) (fun v =>
    sql_eq (c_application_uri c) v ||
    match c_remote_addr c with Some a => from_address a v | None => false end).

Definition group_key (r : Row) : option string * option string :=
  (c_target (r_columns r), c_node_id (r_columns r)).

(** [GROUP BY target, node_id]: the keys, each once. *)
Definition group_keys (rows : list Row) : list (option string * option string) :=
  remove_dups (group_key <$> rows).

Definition group (k : option string * option string) (rows : list Row) : list Row :=
  List.filter (fun r => bool_decide (group_key r = k)) rows.

Definition more_first (a b : list Row) : Prop := (length b ≤ length a)%nat.

#[export] Instance more_first_dec : RelDecision more_first.
Proof. intros a b. unfold more_first. apply _. Defined.

(** A group joined with its newest record. *)
Definition written_node (rows : list Row) : option (result string WrittenNode) :=
  r ← newest rows;
  Some (last ← stored r;
        Ok (mkWrittenNode (group_key r).1 (default EmptyString (group_key r).2)
              (match event (entry last) with
               | Write _ _ display_name _ _ _ _ _ _ _ _ => display_name
               | _ => None
               end)
              (Z.of_nat (length rows)) last)).

(** The nodes with the most recorded writes since [t], most first. SQL leaves
    the order among equal counts open; nothing below depends on it. *)
Definition most_written (db : Db) (t : Z) (limit : nat) (f : WrittenFilter)
    : result string (list WrittenNode) :=
  let rows := List.filter (counts_write t f) (audit db) in
  let groups : list (list Row) := (fun k => group k rows) <$> group_keys rows in
  collect (omap written_node (take limit (merge_sort more_first groups))).
End Query.

(** ** Pages of an intact trail *)
Section QueryFacts.
Context `{StoreEnv} (json_extract : string → string → option string).

Definition before (a b : Row) : Prop := r_seq a < r_seq b.
Definition after (a b : Row) : Prop := r_seq b < r_seq a.

#[export] Instance before_strict : StrictOrder before.
Proof. unfold before. split; [intros x; apply Z.lt_irrefl|intros x y z; lia]. Qed.
#[export] Instance after_strict : StrictOrder after.
Proof. unfold after. split; [intros x; apply Z.lt_irrefl|intros x y z; lia]. Qed.

Lemma linked_sorted prev n rows : linked prev n rows → StronglySorted before rows.
Proof.
  revert prev n. induction rows as [|r rows IH]; intros prev n; [constructor|].
  intros [[Hr _] Hl]. constructor; [by eapply IH|].
  apply Forall_forall. intros x Hx. pose proof (linked_seq_elem _ _ _ _ Hl Hx).
  unfold before. lia.
Qed.

Lemma reverse_sorted rows : StronglySorted before rows → StronglySorted after (reverse rows).
Proof.
  induction 1 as [|r rows Hs IH Hr]; [constructor|]. rewrite reverse_cons.
  apply StronglySorted_snoc; [done|]. apply Forall_forall. intros x Hx. rewrite elem_of_reverse in Hx.
  rewrite Forall_forall in Hr. exact (Hr x Hx).
Qed.

Lemma linked_parses prev n rows r : linked prev n rows → r ∈ rows → is_Some (of_json (r_body r)).
Proof.
  revert prev n. induction rows as [|x rows IH]; intros prev n; [by rewrite elem_of_nil|].
  intros [(_ & _ & _ & e & He & _) Hl] [->|Hr]%elem_of_cons; eauto.
Qed.

Lemma stored_total r : is_Some (of_json (r_body r)) → ∃ o, stored r = Ok o.
Proof. intros [e He]. unfold stored. rewrite He. simpl. eauto. Qed.

Lemma stored_seq r o : stored r = Ok o → seq o = r_seq r ∧ hash o = r_hash r.
Proof. unfold stored. destruct (of_json _); simpl; by intros [= <-]. Qed.

Lemma collect_stored_total rows :
  (∀ r, r ∈ rows → is_Some (of_json (r_body r))) →
  ∃ out, collect (stored <$> rows) = Ok out ∧ Forall2 (fun r o => stored r = Ok o) rows out.
Proof.
  induction rows as [|r rows IH]; intros Hr; [by exists []|].
  destruct (stored_total r) as [o Ho]; [apply Hr; set_solver|].
  destruct IH as (out & Hc & Hf); [intros; apply Hr; set_solver|].
  exists (o :: out). rewrite fmap_cons. cbn [collect]. rewrite Ho. cbn [mbind result_bind]. rewrite Hc. split; [done|by constructor].
Qed.

Lemma collect_stored rows out :
  collect (stored <$> rows) = Ok out → Forall2 (fun r o => stored r = Ok o) rows out.
Proof.
  rewrite collect_Ok. revert out.
  induction rows as [|r rows IH]; intros [|o out]; [by constructor|done|done|].
  intros [= Hr Ho]. constructor; [done|]. by apply IH.
Qed.

(** The trail's matching rows, newest first. *)
Definition matching (db : Db) (q : AuditQuery) : list Row :=
  reverse (List.filter (matches json_extract q) (audit db)).

Lemma elem_of_matching db q r :
  r ∈ matching db q ↔ r ∈ audit db ∧ matches json_extract q r = true.
Proof. unfold matching. by rewrite elem_of_reverse, !list_elem_of_In, filter_In. Qed.

Lemma matching_sorted db q prev n :
  linked prev n (audit db) → StronglySorted after (matching db q).
Proof. intros Hl. eapply reverse_sorted, StronglySorted_filter, linked_sorted, Hl. Qed.

Lemma query_limit_bounds q : (1 ≤ query_limit q ≤ 1000)%nat.
Proof. unfold query_limit. pose proof (clamp_bounds (default 100 (limit q)) 1 1000). lia. Qed.

Lemma intact_linked db :
  in_range (audit db) → report_ok (verify_chain db) = true → ∃ prev n, linked prev n (audit db).
Proof.
  intros Hr Hok. apply verify_chain_spec in Hok as [->|(p & n & Hl & _)]; [|eauto|done].
  by exists EmptyString, 0.
Qed.

(** On a trail that verifies a query succeeds. It
    returns at most 1000 records, newest first, all matching; a matching
    record it leaves out is older than every record returned, and then the
    answer is as long as the limit allows. *)
Theorem query_newest_first db q :
  in_range (audit db) → report_ok (verify_chain db) = true →
  ∃ out, query json_extract db q = Ok out ∧
    (length out ≤ query_limit q ≤ 1000)%nat ∧
    StronglySorted (fun a b => seq b < seq a) out ∧
    (∀ o, o ∈ out → ∃ r, r ∈ audit db ∧ matches json_extract q r = true ∧ stored r = Ok o) ∧
    (∀ r, r ∈ audit db → matches json_extract q r = true →
       (∃ o, o ∈ out ∧ stored r = Ok o) ∨
       (length out = query_limit q ∧ ∀ o, o ∈ out → r_seq r < seq o)).
Proof.
  intros Hr Hok. destruct (intact_linked _ Hr Hok) as (prev & n & Hl).
  pose proof (matching_sorted _ q _ _ Hl) as Hs. pose proof (query_limit_bounds q).
  unfold query. fold (matching db q).
  destruct (collect_stored_total (take (query_limit q) (matching db q))) as (out & -> & Hf).
  { intros r [Hin _]%elem_of_take_l%elem_of_matching. by eapply linked_parses. }
  exists out. pose proof (Forall2_length _ _ _ Hf) as Hlen. rewrite length_take in Hlen.
  split_and!; [done|lia|lia| | |].
  - apply (StronglySorted_take _ (query_limit q)) in Hs. clear Hlen.
    induction Hf as [|r o rows out Ho Hf IH]; constructor.
    + inversion_clear Hs. by apply IH.
    + inversion_clear Hs as [|? ? _ Hall]. apply Forall_forall. intros o' Ho'.
      apply list_elem_of_lookup in Ho' as [i Hi].
      destruct (Forall2_lookup_r _ _ _ _ _ Hf Hi) as (r' & Hr' & Hso).
      rewrite Forall_forall in Hall. specialize (Hall r' ltac:(eapply list_elem_of_lookup_2, Hr')).
      apply stored_seq in Ho as [-> _]. apply stored_seq in Hso as [-> _]. exact Hall.
  - intros o Ho. apply list_elem_of_lookup in Ho as [i Hi].
    destruct (Forall2_lookup_r _ _ _ _ _ Hf Hi) as (r & Hri & Hso). exists r.
    apply list_elem_of_lookup_2, elem_of_take_l, elem_of_matching in Hri. tauto.
  - intros r Hin Hm. assert (Hrm : r ∈ matching db q) by by apply elem_of_matching.
    rewrite <- (take_drop (query_limit q) (matching db q)) in Hrm.
    apply elem_of_app in Hrm as [Ht|Hd].
    + left. apply list_elem_of_lookup in Ht as [i Hi].
      destruct (Forall2_lookup_l _ _ _ _ _ Hf Hi) as (o & Ho & Hso).
      exists o. split; [by eapply list_elem_of_lookup_2|done].
    + right. split.
      * apply list_elem_of_split in Hd as (l1 & l2 & Hd).
        apply (f_equal length) in Hd. rewrite length_drop, length_app in Hd.
        simpl in Hd. lia.
      * intros o Ho. apply list_elem_of_lookup in Ho as [i Hi].
        destruct (Forall2_lookup_r _ _ _ _ _ Hf Hi) as (r' & Hri & Hso).
        apply stored_seq in Hso as [-> _].
        eapply (StronglySorted_take_drop after); [done| |done]. by eapply list_elem_of_lookup_2.
Qed.

Lemma List_filter_filter {A} (f g : A → bool) l :
  List.filter f (List.filter g l) = List.filter (fun x => g x && f x) l.
Proof. induction l as [|x l IH]; simpl; [done|]. destruct (g x); simpl; by rewrite IH. Qed.

Lemma List_filter_reverse {A} (f : A → bool) l :
  List.filter f (reverse l) = reverse (List.filter f l).
Proof.
  induction l as [|x l IH]; [done|]. rewrite reverse_cons, List.filter_app, IH. simpl.
  destruct (f x); [by rewrite reverse_cons|by rewrite app_nil_r].
Qed.

Lemma List_filter_ext_in {A} (f g : A → bool) l :
  (∀ x, x ∈ l → f x = g x) → List.filter f l = List.filter g l.
Proof.
  induction l as [|x l IH]; intros Hfg; simpl; [done|].
  rewrite (Hfg x), IH by (intros; try apply Hfg; set_solver). done.
Qed.

Lemma matches_with_page q r s n :
  if_given (before_seq q) (fun b => s <=? b) = true →
  matches json_extract (with_page q (Some s) n) r = matches json_extract q r && (r_seq r <? s).
Proof.
  intros Hb. unfold matches, with_page. simpl.
  destruct (Z.ltb_spec (r_seq r) s) as [Hlt|].
  - replace (if_given (before_seq q) (fun v => r_seq r <? v)) with true.
    + by rewrite !andb_true_r.
    + destruct (before_seq q) as [b|]; simpl in *; [|done].
      apply Z.leb_le in Hb. symmetry. apply Z.ltb_lt. lia.
  - by rewrite !andb_false_r.
Qed.

Lemma collect_stored_last rows out o :
  collect (stored <$> rows) = Ok out → last out = Some o →
  ∃ r, last rows = Some r ∧ stored r = Ok o.
Proof.
  intros Hf%collect_stored Ho. apply last_Some in Ho as [pre ->].
  apply Forall2_app_inv_r in Hf as (l1 & l2 & _ & Hf & ->).
  apply Forall2_cons_inv_r in Hf as (r & l & Hr & Hnil & ->).
  apply Forall2_nil_inv_r in Hnil as ->. exists r. by rewrite last_snoc.
Qed.

Lemma collect_stored_app a b oa ob :
  collect (stored <$> a) = Ok oa → collect (stored <$> b) = Ok ob →
  collect (stored <$> (a ++ b)) = Ok (oa ++ ob).
Proof. rewrite !collect_Ok. intros Ha Hb. by rewrite !fmap_app, Ha, Hb. Qed.

(** What matches before the last record of a page is what the page left out. *)
Lemma matching_next_page db q n m prev k r :
  linked prev k (audit db) → last (take n (matching db q)) = Some r →
  matching db (with_page q (Some (r_seq r)) m) = drop n (matching db q).
Proof.
  intros Hl Hlast. pose proof (matching_sorted _ q _ _ Hl) as Hs.
  rewrite <- (sorted_next_page after (fun x => r_seq x <? r_seq r) (matching db q) _ r Hs Hlast).
  2:{ intros x _. unfold after. rewrite Z.ltb_lt. lia. }
  unfold matching. rewrite List_filter_reverse, List_filter_filter. f_equal.
  apply List_filter_ext_in. intros x _. apply matches_with_page.
  assert (Hrm : r ∈ matching db q).
  { apply last_Some in Hlast as [pre Hpre]. eapply elem_of_take_l. rewrite Hpre. set_solver. }
  apply elem_of_matching in Hrm as [_ Hrm].
  destruct (before_seq q) as [b|] eqn:Hb; simpl; [|done].
  apply Z.leb_le. unfold matches in Hrm. rewrite Hb in Hrm. simpl in Hrm.
  repeat match goal with
         | H : _ && _ = true |- _ => apply andb_prop in H as [? ?]
         end.
  match goal with H : (r_seq r <? b) = true |- _ => apply Z.ltb_lt in H end. lia.
Qed.

(** Paging backwards with [before_seq] neither skips
    nor repeats a record: a page of [n] and the page of [m] before its last
    record are together the page of [n + m]. *)
Theorem query_paging db q n m page1 page2 o :
  in_range (audit db) → report_ok (verify_chain db) = true →
  1 ≤ n → 1 ≤ m → n + m ≤ 1000 →
  query json_extract db (with_page q (before_seq q) n) = Ok page1 → last page1 = Some o →
  query json_extract db (with_page q (Some (seq o)) m) = Ok page2 →
  query json_extract db (with_page q (before_seq q) (n + m)) = Ok (page1 ++ page2).
Proof.
  intros Hr Hok Hn Hm Hnm. destruct (intact_linked _ Hr Hok) as (prev & k & Hl).
  unfold query, query_limit. simpl. rewrite !clamp_id by lia.
  fold (matching db (with_page q (before_seq q) n)) (matching db (with_page q (before_seq q) (n + m)))
    (matching db (with_page q (Some (seq o)) m)).
  change (matching db (with_page q (before_seq q) n)) with (matching db q).
  change (matching db (with_page q (before_seq q) (n + m))) with (matching db q).
  intros H1 Ho H2. destruct (collect_stored_last _ _ _ H1 Ho) as (r & Hlast & [Hseq _]%stored_seq).
  rewrite Hseq, (matching_next_page _ _ _ _ _ _ _ Hl Hlast) in H2.
  rewrite Z2Nat.inj_add, <- take_take_drop by lia. by apply collect_stored_app.
Qed.

End QueryFacts.

Section ExportFacts.
Context `{StoreEnv}.

(** Reading forward in batches from where the last one
    ended sees every record after the start once and in order. *)
Theorem export_paging db a n m batch1 batch2 o :
  in_range (audit db) → report_ok (verify_chain db) = true →
  query_after db a n = Ok batch1 → last batch1 = Some o →
  query_after db (seq o) m = Ok batch2 →
  query_after db a (n + m) = Ok (batch1 ++ batch2).
Proof.
  intros Hr Hok. destruct (intact_linked _ Hr Hok) as (prev & k & Hl). unfold query_after.
  set (rows := List.filter (fun r => a <? r_seq r) (audit db)).
  intros H1 Ho H2.
  destruct (collect_stored_last _ _ _ H1 Ho) as (r & Hlast & [Hseq _]%stored_seq).
  assert (Hs : StronglySorted before rows) by eapply StronglySorted_filter, linked_sorted, Hl.
  rewrite <- take_take_drop. apply collect_stored_app; [done|]. rewrite <- H2. do 3 f_equal.
  rewrite <- (sorted_next_page before (fun x => seq o <? r_seq x) rows n r Hs Hlast).
  2:{ intros x _. unfold before. rewrite Z.ltb_lt. lia. }
  unfold rows. rewrite List_filter_filter. apply List_filter_ext_in. intros x _.
  assert (Hrm : r ∈ rows).
  { apply last_Some in Hlast as [pre Hpre]. eapply elem_of_take_l. rewrite Hpre. set_solver. }
  unfold rows in Hrm. rewrite list_elem_of_In, filter_In, Z.ltb_lt in Hrm.
  destruct (Z.ltb_spec (seq o) (r_seq x)); [|by rewrite andb_false_r].
  destruct (Z.ltb_spec a (r_seq x)); [done|lia].
Qed.
End ExportFacts.

(** ** Alarms and often written nodes *)
Section AlarmFacts.
Context `{StoreEnv}.

(** The mark a record sets for severity [s], if it acknowledges it. *)
Definition ack_of (s : Severity) (body : string) : option Z :=
  match event <$> of_json body with
  | Some (AlarmsAcknowledged _ sev up_to_seq _) =>
      if bool_decide (sev = s) then Some up_to_seq else None
  | _ => None
  end.

Definition has_mark (marks : list (Severity * Z)) (s : Severity) : bool :=
  existsb (fun m => bool_decide (m.1 = s)) marks.

Lemma mark_of_cons sev up marks s :
  mark_of ((sev, up) :: marks) s = if bool_decide (sev = s) then up else mark_of marks s.
Proof. unfold mark_of. simpl. by case_bool_decide. Qed.

Lemma add_mark_spec marks body s :
  (has_mark marks s = true → mark_of (add_mark marks body) s = mark_of marks s ∧
                             has_mark (add_mark marks body) s = true) ∧
  (has_mark marks s = false →
   match ack_of s body with
   | Some up => mark_of (add_mark marks body) s = up ∧ has_mark (add_mark marks body) s = true
   | None => mark_of (add_mark marks body) s = mark_of marks s ∧
             has_mark (add_mark marks body) s = false
   end).
Proof.
  unfold add_mark, ack_of. destruct (of_json body) as [e|]; simpl; [|tauto].
  destruct (event e) as [| | | | | | | | | | | | | | | | | | | | | | | | | | | | | | | | | |u sev up n|];
    try tauto.
  fold (has_mark marks sev). destruct (has_mark marks sev) eqn:Hsev.
  - split; [tauto|]. intros Hs. case_bool_decide; [congruence|tauto].
  - rewrite mark_of_cons. unfold has_mark. simpl. fold (has_mark marks s).
    case_bool_decide as Hd; simpl.
    + subst. rewrite Hsev. split; [done|]. by intros _.
    + destruct (has_mark marks s); split; (intros ?; (done || by split)).
Qed.

Lemma marks_first bodies1 body bodies2 s up :
  Forall (fun b => ack_of s b = None) bodies1 → ack_of s body = Some up →
  mark_of (foldl add_mark [] (bodies1 ++ body :: bodies2)) s = up.
Proof.
  intros H1 Hb.
  assert (Hpre : ∀ m, has_mark m s = false → has_mark (foldl add_mark m bodies1) s = false).
  { induction H1 as [|b bs Hn _ IH]; intros m Hm; simpl; [done|]. apply IH.
    destruct (add_mark_spec m b s) as [_ H2]. specialize (H2 Hm). rewrite Hn in H2. apply H2. }
  assert (Hpost : ∀ bs m, has_mark m s = true → mark_of (foldl add_mark m bs) s = mark_of m s).
  { induction bs as [|b bs IH]; intros m Hm; simpl; [done|].
    destruct (add_mark_spec m b s) as [H2 _]. destruct (H2 Hm) as [E ?]. by rewrite IH, E. }
  rewrite foldl_app. simpl. set (m := foldl add_mark [] bodies1).
  destruct (add_mark_spec m body s) as [_ H2]. rewrite Hb in H2.
  destruct (H2 (Hpre [] eq_refl)) as [E ?]. by rewrite Hpost, E.
Qed.

Definition is_ack (r : Row) : bool := String.eqb (c_kind (r_columns r)) "alarms_acknowledged".

(** The alarms of a severity are counted from its
    last acknowledgement: those at or below the acknowledged record no longer
    count, all later ones do, as long as fewer than 100 acknowledgements of
    any severity followed. *)
Theorem alarms_after_ack db s old ack newer up :
  audit db = old ++ ack :: newer →
  is_ack ack = true → ack_of s (r_body ack) = Some up →
  Forall (fun r => is_ack r = true → ack_of s (r_body r) = None) newer →
  (length (List.filter is_ack newer) < 100)%nat →
  mkAlarmCount s up
    (length (List.filter (fun r =>
       (up <? r_seq r) && existsb (String.eqb (c_kind (r_columns r))) (kinds s)) (audit db)))
    (kinds s) ∈ alarms db.
Proof.
  intros Hdb Hack Hup Hnew Hlen. unfold alarms.
  assert (Hm : mark_of (alarm_marks db) s = up).
  { unfold alarm_marks. fold is_ack. rewrite Hdb, List.filter_app. simpl. rewrite Hack.
    rewrite reverse_app, reverse_cons, <- app_assoc.
    rewrite take_app_ge by (rewrite length_reverse; lia). rewrite length_reverse.
    destruct (100 - _)%nat as [|k] eqn:Hk; [lia|]. simpl. rewrite fmap_app. simpl.
    apply marks_first; [|done]. rewrite Forall_forall. intros b Hb.
    apply list_elem_of_fmap in Hb as (r & -> & Hr). rewrite elem_of_reverse in Hr.
    rewrite list_elem_of_In, filter_In in Hr. destruct Hr as [Hr Hk'].
    rewrite Forall_forall in Hnew. apply Hnew; [by apply list_elem_of_In|done]. }
  apply list_elem_of_fmap. exists s. split; [|destruct s; set_solver].
  unfold alarm_count. by rewrite Hm.
Qed.

(** ** [most_written] *)

Lemma elem_of_group k rows r : r ∈ group k rows ↔ r ∈ rows ∧ group_key r = k.
Proof. unfold group. by rewrite !list_elem_of_In, filter_In, bool_decide_eq_true. Qed.

Lemma elem_of_group_keys k rows : k ∈ group_keys rows ↔ ∃ r, r ∈ rows ∧ group_key r = k.
Proof.
  unfold group_keys. rewrite elem_of_remove_dups, list_elem_of_fmap. naive_solver.
Qed.

(** A row of the answer stands for a group of counted writes. *)
Definition reports (rows : list Row) (g : list Row) (o : WrittenNode) : Prop :=
  ∃ r, newest g = Some r ∧ g = group (group_key r) rows ∧ stored r = Ok (wn_last o) ∧
    wn_target o = (group_key r).1 ∧ wn_node_id o = default EmptyString (group_key r).2 ∧
    wn_count o = length g.

Lemma collect_written rows gs :
  (∀ r, r ∈ rows → is_Some (of_json (r_body r))) →
  (∀ g, g ∈ gs → ∃ r, r ∈ rows ∧ g = group (group_key r) rows) →
  ∃ out, collect (omap written_node gs) = Ok out ∧ Forall2 (reports rows) gs out.
Proof.
  intros Hp. induction gs as [|g gs IH]; intros Hg; [by exists []|].
  destruct IH as (out & Hc & Hf); [intros; apply Hg; set_solver|].
  destruct (Hg g) as (r & Hr & Hgr); [set_solver|].
  assert (Hin : r ∈ g) by (rewrite Hgr; by apply elem_of_group).
  destruct (newest g) as [l|] eqn:Hl;
    [|apply last_None in Hl; rewrite Hl in Hin; by apply not_elem_of_nil in Hin].
  assert (Hlg : l ∈ g) by (apply last_Some in Hl as [pre ->]; set_solver).
  rewrite Hgr in Hlg. apply elem_of_group in Hlg as [Hlr Hkey].
  destruct (stored_total l (Hp _ Hlr)) as [o Ho].
  assert (Hw : ∃ w, written_node g = Some (Ok w) ∧ reports rows g w).
  { unfold written_node. rewrite Hl. cbn [mbind option_bind]. rewrite Ho. cbn [mbind result_bind].
    eexists. split; [done|]. exists l. simpl. rewrite Hkey. by split_and!. }
  destruct Hw as (w & Hw & Hrep). exists (w :: out). split; [|by constructor].
  change (omap written_node (g :: gs)) with
    (match written_node g with Some y => y :: omap written_node gs | None => omap written_node gs end).
  rewrite Hw. cbn [collect]. by rewrite Hc.
Qed.

(** On a trail that verifies, the answer names at
    most [limit] nodes, most written first, each with the exact number of its
    counted writes and its newest one; a node it leaves out was not written
    more often than any node in the answer. *)
Theorem most_written_spec db t limit f :
  in_range (audit db) → report_ok (verify_chain db) = true →
  let rows := List.filter (counts_write t f) (audit db) in
  ∃ gs out, most_written db t limit f = Ok out ∧ Forall2 (reports rows) gs out ∧
    (length out ≤ limit)%nat ∧ StronglySorted (fun a b => wn_count b ≤ wn_count a) out ∧
    (∀ r, r ∈ rows → group (group_key r) rows ∈ gs ∨
       (length out = limit ∧
        ∀ o, o ∈ out → length (group (group_key r) rows) ≤ wn_count o)).
Proof.
  intros Hr Hok rows. destruct (intact_linked _ Hr Hok) as (prev & n & Hl).
  unfold most_written. fold rows.
  set (groups := (fun k => group k rows) <$> group_keys rows).
  set (sorted := merge_sort more_first groups).
  assert (Hperm : sorted ≡ₚ groups) by apply merge_sort_Permutation.
  assert (Hsort : StronglySorted more_first sorted).
  { apply Sorted_StronglySorted; [intros a b c; unfold more_first; lia|].
    apply Sorted_merge_sort. intros a b. unfold more_first. lia. }
  destruct (collect_written rows (take limit sorted)) as (out & Hc & Hf).
  { intros r Hin. unfold rows in Hin. rewrite list_elem_of_In, filter_In, <- list_elem_of_In in Hin.
    eapply linked_parses; [done|apply Hin]. }
  { intros g Hg%elem_of_take_l. rewrite Hperm in Hg.
    apply list_elem_of_fmap in Hg as (k & -> & (r & Hin & <-)%elem_of_group_keys). eauto. }
  exists (take limit sorted), out. split; [done|]. split; [done|].
  pose proof (Forall2_length _ _ _ Hf) as Hlen. rewrite length_take in Hlen.
  assert (Hcount : ∀ o, o ∈ out → ∃ g, g ∈ take limit sorted ∧ wn_count o = length g).
  { intros o [i Hi]%list_elem_of_lookup.
    destruct (Forall2_lookup_r _ _ _ _ _ Hf Hi) as (g & Hgi & r & _ & _ & _ & _ & _ & Hn).
    exists g. split; [by eapply list_elem_of_lookup_2|done]. }
  split_and!; [lia| |].
  - clear Hc Hlen Hcount. apply (StronglySorted_take _ limit) in Hsort.
    induction Hf as [|g o gs out Ho Hf IH]; constructor; inversion_clear Hsort as [|? ? Hs Hall]; [auto|].
    apply Forall_forall. intros o' [i Hi]%list_elem_of_lookup.
    destruct (Forall2_lookup_r _ _ _ _ _ Hf Hi) as (g' & Hg' & Hrep).
    rewrite Forall_forall in Hall. specialize (Hall g' ltac:(eapply list_elem_of_lookup_2, Hg')).
    destruct Ho as (? & _ & _ & _ & _ & _ & ->), Hrep as (? & _ & _ & _ & _ & _ & ->).
    unfold more_first in Hall. lia.
  - intros r Hin. assert (Hg : group (group_key r) rows ∈ sorted).
    { rewrite Hperm. apply list_elem_of_fmap. exists (group_key r). split; [done|].
      apply elem_of_group_keys. eauto. }
    rewrite <- (take_drop limit sorted) in Hg. apply elem_of_app in Hg as [Hg|Hg]; [by left|right].
    split.
    + apply list_elem_of_split in Hg as (l1 & l2 & Hg). apply (f_equal length) in Hg.
      rewrite length_drop, length_app in Hg. simpl in Hg. lia.
    + intros o Ho. destruct (Hcount _ Ho) as (g & Hgt & ->).
      pose proof (StronglySorted_take_drop more_first _ _ _ _ Hsort Hgt Hg) as Hle.
      unfold more_first in Hle. lia.
Qed.
End AlarmFacts.

(** ** Concrete trails *)
Section QueryWitnesses.
Import Toy.

Definition no_json (body path : string) : option string := None.

Lemma store2_intact : in_range (audit (conn store2)) ∧ report_ok (verify_chain (conn store2)) = true.
Proof.
  split; [apply good_in_range, reachable_good, store2_reachable|vm_compute; reflexivity].
Qed.

Lemma query_newest_first_witness :
  ∃ out, query no_json (conn store2) any_query = Ok out ∧ (length out ≤ 100)%nat.
Proof.
  destruct store2_intact as [Hr Hok].
  destruct (query_newest_first no_json (conn store2) any_query Hr Hok) as (out & H & [Hl _] & _).
  exists out. split; [exact H|exact Hl].
Defined.

Lemma query_paging_witness :
  ∃ page1 page2, query no_json (conn store2) (with_page any_query None 2) = Ok (page1 ++ page2) ∧
    length page1 = 1%nat ∧ length page2 = 1%nat.
Proof.
  destruct store2_intact as [Hr Hok].
  destruct (query no_json (conn store2) (with_page any_query None 1)) as [p1|] eqn:E1;
    [|vm_compute in E1; discriminate E1].
  destruct (last p1) as [o|] eqn:Eo;
    [|vm_compute in E1; injection E1 as <-; vm_compute in Eo; discriminate Eo].
  destruct (query no_json (conn store2) (with_page any_query (Some (seq o)) 1)) as [p2|] eqn:E2.
  - exists p1, p2. split.
    + apply (query_paging no_json (conn store2) any_query 1 1 p1 p2 o); assumption || lia.
    + vm_compute in E1. injection E1 as <-. vm_compute in Eo. injection Eo as <-.
      vm_compute in E2. injection E2 as <-. split; reflexivity.
  - vm_compute in E1. injection E1 as <-. vm_compute in Eo. injection Eo as <-.
    vm_compute in E2. discriminate E2.
Defined.

Lemma export_paging_witness :
  ∃ b1 b2, query_after (conn store2) 0 2 = Ok (b1 ++ b2) ∧ length b1 = 1%nat ∧ length b2 = 1%nat.
Proof.
  destruct store2_intact as [Hr Hok].
  destruct (query_after (conn store2) 0 1) as [b1|] eqn:E1; [|vm_compute in E1; discriminate E1].
  destruct (last b1) as [o|] eqn:Eo;
    [|vm_compute in E1; injection E1 as <-; vm_compute in Eo; discriminate Eo].
  destruct (query_after (conn store2) (seq o) 1) as [b2|] eqn:E2.
  - exists b1, b2. split.
    + apply (export_paging (conn store2) 0 1 1 b1 b2 o Hr Hok E1 Eo E2).
    + vm_compute in E1. injection E1 as <-. vm_compute in Eo. injection Eo as <-.
      vm_compute in E2. injection E2 as <-. split; reflexivity.
  - vm_compute in E1. injection E1 as <-. vm_compute in Eo. injection Eo as <-.
    vm_compute in E2. discriminate E2.
Defined.

(** A row that is read without its chain. *)
Definition row_of (n : Z) (e : AuditEntry) : Row :=
  mkRow n (columns e) (default EmptyString (to_json e)) EmptyString EmptyString.

Definition lost_and_acked : Db :=
  mkDb [row_of 1 (new_entry 10 (EventsLost 3));
        row_of 2 (new_entry 20 (AlarmsAcknowledged "ann" Error 1 1));
        row_of 3 (new_entry 30 (EventsLost 4))] None.

Lemma alarms_after_ack_witness : mkAlarmCount Error 1 1 (kinds Error) ∈ alarms lost_and_acked.
Proof.
  apply (alarms_after_ack lost_and_acked Error [row_of 1 (new_entry 10 (EventsLost 3))]
    (row_of 2 (new_entry 20 (AlarmsAcknowledged "ann" Error 1 1)))
    [row_of 3 (new_entry 30 (EventsLost 4))] 1).
  - reflexivity.
  - reflexivity.
  - vm_compute. reflexivity.
  - apply Forall_singleton. intros Hack. vm_compute in Hack. discriminate Hack.
  - vm_compute. lia.
Defined.

Lemma most_written_spec_witness :
  ∃ gs out, most_written (conn store2) 0 5 (mkWrittenFilter None None) = Ok out ∧
    Forall2 (reports (List.filter (counts_write 0 (mkWrittenFilter None None)) (audit (conn store2)))) gs out.
Proof.
  destruct store2_intact as [Hr Hok].
  destruct (most_written_spec (conn store2) 0 5 (mkWrittenFilter None None) Hr Hok)
    as (gs & out & H1 & H2 & _).
  exists gs, out. split; [exact H1|exact H2].
Defined.

(** An error acknowledged before 100 acknowledgements of warnings. *)
Definition many_acks : Db :=
  mkDb (row_of 1 (new_entry 10 (EventsLost 3)) ::
        row_of 2 (new_entry 20 (AlarmsAcknowledged "ann" Error 1 1)) ::
        map (fun i => row_of i (new_entry 30 (AlarmsAcknowledged "ann" Warning i 0)))
          (seqZ 3 100)) None.

(** [alarms] looks at the last 100 acknowledgements of both severities
    together: an acknowledgement followed by 100 of the other severity is
    forgotten, and what it acknowledged counts again. *)
Example alarms_forget_ack :
  ack_of Error (r_body (row_of 2 (new_entry 20 (AlarmsAcknowledged "ann" Error 1 1)))) = Some 1 ∧
  head (List.filter (fun c => bool_decide (severity c = Error)) (alarms many_acks)) =
    Some (mkAlarmCount Error 0 1 (kinds Error)).
Proof. split; vm_compute; reflexivity. Qed.
End QueryWitnesses.
