(* ===== verification/Config.v ===== *)
(** Gateway configuration ([src/src/config.rs]): the data of the config file,
    [validate], the summarise groups of a target, and what loading corrects.

    A refusal is a [ConfigError]: a constructor per message of the source with
    the values the message names. Paths are text; the TOML file is read by
    serde. *)

From S2P Require Import Prelude Net.

(** ** The file *)
Record GatewayConfig : Type := mkGatewayConfig {
  application_name : string;
  cfg_application_uri : option string;
  pki_dir : string;
  data_dir : string;
  certificate_hostnames : list string;
}.

Record WebConfig : Type := mkWebConfig {
  listen : SocketAddr;
  tls : bool;
  tls_certificate : option string;
  tls_private_key : option string;
  allowed_hosts : list string;
  trusted_proxies : list IpAddr;
}.

Inductive FailMode : Type := Open | Closed.
#[export] Instance FailMode_eq_dec : EqDecision FailMode.
Proof. solve_decision. Defined.

Record AuditConfig : Type := mkAuditConfig {
  database : option string;
  cfg_retention_days : Z;
  cfg_fail_mode : FailMode;
  cfg_record_old_value : bool;
  ignored_summary_secs : Z;
}.

Record QuestDbConfig : Type := mkQuestDbConfig {
  url : string;
  ca_file : option string;
  table : string;
  token : option string;
  username : option string;
  password : option string;
  interval_secs : Z;
}.

(** [syslog] is [Some] when the file still has the ignored section. *)
Record ExportConfig : Type := mkExportConfig {
  questdb : option QuestDbConfig;
  syslog : option unit;
}.

Record McpConfig : Type := mkMcpConfig {
  enabled : bool;
  allow : list string;
}.

Inductive MinSecurity : Type := SecNone | Sign | SignAndEncrypt.
#[export] Instance MinSecurity_eq_dec : EqDecision MinSecurity.
Proof. solve_decision. Defined.

Definition MinSecurity_as_str (m : MinSecurity) : string :=
  match m with
  | SecNone => "none"
  | Sign => "sign"
  | SignAndEncrypt => "sign_and_encrypt"
  end.

(** The derived order. *)
Definition MinSecurity_rank (m : MinSecurity) : Z :=
  match m with SecNone => 0 | Sign => 1 | SignAndEncrypt => 2 end.

Record SummariseGroup : Type := mkSummariseGroup {
  sg_name : option string;
  sg_client : option string;
  nodes : list string;
  names : gmap string string;
}.
#[export] Instance SummariseGroup_eq_dec : EqDecision SummariseGroup.
Proof. solve_decision. Defined.

Record IgnoreRule : Type := mkIgnoreRule {
  ir_node_id : string;
  ir_client : option string;
  ir_name : option string;
}.
#[export] Instance IgnoreRule_eq_dec : EqDecision IgnoreRule.
Proof. solve_decision. Defined.

Record TargetConfig : Type := mkTargetConfig {
  t_name : string;
  t_listen : SocketAddr;
  endpoint_url : string;
  discovery_interval_secs : Z;
  min_security : MinSecurity;
  max_connections : Z;
  max_connections_per_address : Z;
  summarise : list SummariseGroup;
  ignore : list IgnoreRule;
}.
#[export] Instance TargetConfig_eq_dec : EqDecision TargetConfig.
Proof. solve_decision. Defined.

Record Config : Type := mkConfig {
  gateway : GatewayConfig;
  web : WebConfig;
  audit : AuditConfig;
  export : ExportConfig;
  mcp : McpConfig;
  targets : list TargetConfig;
  load_fixes : list string;
}.

(** ** Defaults *)
Definition default_questdb_table : string := "opcua_audit".
Definition default_export_interval : Z := 5.
Definition default_max_connections : Z := 50.
Definition default_max_connections_per_address : Z := 10.
Definition default_discovery_interval : Z := 60.

Definition default_gateway : GatewayConfig :=
  mkGatewayConfig "OPC UA Audit Gateway" None "pki" "data" [].
Definition default_web : WebConfig :=
  mkWebConfig (mkSocketAddr (V4 (127 * 2 ^ 24 + 1)) 8080) false None None [] [].
Definition default_audit : AuditConfig := mkAuditConfig None 365 Open true 3600.
Definition default_config : Config :=
  mkConfig default_gateway default_web default_audit (mkExportConfig None None)
    (mkMcpConfig false []) [] [].
Definition default_group (client : option string) : SummariseGroup :=
  mkSummariseGroup None client [] ∅.

Definition MAX_SUMMARISED_NODES : Z := 1000.
Definition MAX_SUMMARISE_GROUPS : Z := 100.
Definition WEB_TLS_ENV : string := "OPCUA_GATEWAY_WEB_TLS".
Definition MCP_SCOPES : list string := ["targets"; "certificates"; "settings"; "alarms"].

(** [GatewayConfig::application_uri]; [hosts] is what the host calls itself. *)
Definition application_uri (hosts : list string) (g : GatewayConfig) : string :=
  match cfg_application_uri g with
  | Some uri => uri
  | None => "urn:" +:+ default "localhost" (head hosts) +:+ ":opcua-audit-gateway"
  end.

(** [SummariseGroup::label] *)
Definition group_label (g : SummariseGroup) : string :=
  let name := match sg_name g with Some n => "'" +:+ n +:+ "'" | None => "an unnamed group" end in
  match sg_client g with
  | Some c => name +:+ " (from " +:+ c +:+ ")"
  | None => name +:+ " (from every client)"
  end.

Definition audit_database (c : Config) : string :=
  match database (audit c) with
  | Some p => p
  | None => path_join (data_dir (gateway c)) "audit.db"
  end.

(** ** Refusals *)
Inductive ConfigError : Type :=
| SummaryIntervalZero
| TlsPairIncomplete
| TlsFilesWithoutTls
| QuestDbScheme
| QuestDbCredentialsInUrl
| QuestDbTokenAndPassword
| QuestDbIntervalZero
| BadTargetName (name : string)
| DuplicateTargetName (name : string)
| SharedListen (name : string) (addr : SocketAddr)
| ListenIsWebUi (name : string) (addr : SocketAddr)
| BadEndpointUrl (name url : string)
| DiscoveryIntervalZero (name : string)
| ConnectionLimitZero (name : string)
| TooManyGroups (name : string)
| TooManyNodes (name : string) (total : Z)
| TwoGroupsAlike (name group : string)
| BadGroupName (name : string)
| BadGroupClient (name : string)
| NotANodeId (name node_id : string)
| NodeTwiceInGroup (name node_id group : string)
| NameOfNoNode (name extra : string)
| NodeInTwoGroups (name node_id group_a group_b : string)
| BadTlsEnv (value : string).

(** Early return with an error when [c] holds. *)
Definition refuse (c : bool) (e : ConfigError) : result ConfigError () :=
  if c then Err e else Ok ().

(** The keys of a [BTreeMap], in order. *)
Definition str_le (a b : string) : Prop := String.leb a b = true.
#[export] Instance str_le_dec : RelDecision str_le.
Proof. intros a b. unfold str_le. apply _. Defined.
Definition sorted_keys {A} (m : gmap string A) : list string :=
  merge_sort str_le (map_to_list m).*1.

Section Config.
Context `{NodeIds}.

(** ** Summarise groups *)

(** Whether two groups apply to the same writes. *)
Definition groups_overlap (a b : SummariseGroup) : bool :=
  bool_decide (sg_client a = None) || bool_decide (sg_client b = None) ||
  bool_decide (sg_client a = sg_client b).

Definition parsed_nodes (g : SummariseGroup) : list NodeId := omap parse_node (nodes g).

Definition in_nodes (l : list NodeId) (n : string) : bool :=
  match parse_node n with Some p => bool_decide (p ∈ l) | None => false end.

(** A node in two groups that apply to the same writes. *)
Fixpoint overlap_with (a : SummariseGroup) (groups : list SummariseGroup)
    : option (string * string * string) :=
  match groups with
  | [] => None
  | b :: groups =>
      if groups_overlap a b then
        match List.find (in_nodes (parsed_nodes a)) (nodes b) with
        | Some n => Some (n, group_label a, group_label b)
        | None => overlap_with a groups
        end
      else overlap_with a groups
  end.

Fixpoint overlaps (groups : list SummariseGroup) : option (string * string * string) :=
  match groups with
  | [] => None
  | a :: groups =>
      match overlap_with a groups with Some x => Some x | None => overlaps groups end
  end.

Definition summarise_overlap (t : TargetConfig) : option (string * string * string) :=
  overlaps (summarise t).

(** The nodes of one group: each parses, none is there twice. *)
Fixpoint check_nodes (name label : string) (seen : list NodeId) (l : list string)
    : result ConfigError () :=
  match l with
  | [] => Ok ()
  | n :: l =>
      node ← of_option (NotANodeId name n) (parse_node n);
      _ ← refuse (bool_decide (node ∈ seen)) (NodeTwiceInGroup name n label);
      check_nodes name label (node :: seen) l
  end.

Definition bad_group_name (g : SummariseGroup) : bool :=
  match sg_name g with
  | Some n => bool_decide (trim n = EmptyString) || (100 <? chars_count n)
  | None => false
  end.

Definition bad_group_client (g : SummariseGroup) : bool :=
  match sg_client g with
  | Some c => bool_decide (trim c = EmptyString) || (256 <? String.length c)
  | None => false
  end.

Definition check_group (name : string) (g : SummariseGroup) : result ConfigError () :=
  _ ← refuse (bad_group_name g) (BadGroupName name);
  _ ← refuse (bad_group_client g) (BadGroupClient name);
  _ ← check_nodes name (group_label g) [] (nodes g);
  match List.find (fun k => bool_decide (k ∉ nodes g)) (sorted_keys (names g)) with
  | Some extra => Err (NameOfNoNode name extra)
  | None => Ok ()
  end.

Fixpoint check_groups (name : string) (seen : list (option string * option string))
    (groups : list SummariseGroup) : result ConfigError () :=
  match groups with
  | [] => Ok ()
  | g :: groups =>
      _ ← refuse (bool_decide ((sg_name g, sg_client g) ∈ seen)) (TwoGroupsAlike name (group_label g));
      _ ← check_group name g;
      check_groups name ((sg_name g, sg_client g) :: seen) groups
  end.

Definition total_nodes (t : TargetConfig) : Z :=
  foldr (fun g n => length (nodes g) + n) 0 (summarise t).

Definition validate_summarise (t : TargetConfig) : result ConfigError () :=
  let name := t_name t in
  _ ← refuse (MAX_SUMMARISE_GROUPS <? length (summarise t)) (TooManyGroups name);
  _ ← refuse (MAX_SUMMARISED_NODES <? total_nodes t) (TooManyNodes name (total_nodes t));
  _ ← check_groups name [] (summarise t);
  match summarise_overlap t with
  | Some (n, a, b) => Err (NodeInTwoGroups name n a b)
  | None => Ok ()
  end.

(** ** [validate] *)
Definition name_char (c : ascii) : bool :=
  is_ascii_alphanumeric c || has_byte c "._-".

Definition bad_target_name (n : string) : bool :=
  bool_decide (n = EmptyString) || (64 <? String.length n) || negb (string_all name_char n).

Fixpoint check_targets (web_listen : SocketAddr) (names : list string)
    (listens : list SocketAddr) (ts : list TargetConfig) : result ConfigError () :=
  match ts with
  | [] => Ok ()
  | t :: ts =>
      _ ← refuse (bad_target_name (t_name t)) (BadTargetName (t_name t));
      _ ← refuse (bool_decide (t_name t ∈ names)) (DuplicateTargetName (t_name t));
      _ ← refuse (bool_decide (t_listen t ∈ listens)) (SharedListen (t_name t) (t_listen t));
      _ ← refuse (bool_decide (t_listen t = web_listen)) (ListenIsWebUi (t_name t) (t_listen t));
      _ ← refuse (negb (starts_with "opc.tcp://" (endpoint_url t)))
            (BadEndpointUrl (t_name t) (endpoint_url t));
      _ ← refuse (discovery_interval_secs t =? 0) (DiscoveryIntervalZero (t_name t));
      _ ← refuse ((max_connections t =? 0) || (max_connections_per_address t =? 0))
            (ConnectionLimitZero (t_name t));
      _ ← validate_summarise t;
      check_targets web_listen (t_name t :: names) (t_listen t :: listens) ts
  end.

(** The part of the URL behind the scheme. *)
Definition questdb_rest (q : QuestDbConfig) : option string :=
  match strip_prefix "http://" (url q) with
  | Some rest => Some rest
  | None => strip_prefix "https://" (url q)
  end.

Definition check_questdb (q : QuestDbConfig) : result ConfigError () :=
  rest ← of_option QuestDbScheme (questdb_rest q);
  _ ← refuse (contains "@" (default EmptyString (head (split "/" rest)))) QuestDbCredentialsInUrl;
  _ ← refuse (bool_decide (is_Some (token q)) &&
              (bool_decide (is_Some (username q)) || bool_decide (is_Some (password q))))
        QuestDbTokenAndPassword;
  refuse (interval_secs q =? 0) QuestDbIntervalZero.

Definition validate (c : Config) : result ConfigError () :=
  _ ← refuse (ignored_summary_secs (audit c) =? 0) SummaryIntervalZero;
  _ ← refuse (negb (Bool.eqb (bool_decide (is_Some (tls_certificate (web c))))
                             (bool_decide (is_Some (tls_private_key (web c)))))) TlsPairIncomplete;
  _ ← refuse (bool_decide (is_Some (tls_certificate (web c))) && negb (tls (web c)))
        TlsFilesWithoutTls;
  _ ← match questdb (export c) with Some q => check_questdb q | None => Ok () end;
  check_targets (listen (web c)) [] [] (targets c).

(** ** What loading corrects *)

(** The nodes of [later] that [earlier] does not have. *)
Definition drop_nodes (earlier later : SummariseGroup) : SummariseGroup :=
  let kept := List.filter (fun n => negb (in_nodes (parsed_nodes earlier) n)) (nodes later) in
  mkSummariseGroup (sg_name later) (sg_client later) kept
    (filter (fun kv => kv.1 ∈ kept) (names later)).

Definition drop_message (target : string) (earlier later : SummariseGroup) (n : string) : string :=
  "target '" +:+ target +:+ "': " +:+ n +:+ " removed from summarise group " +:+
  group_label later +:+ ", group " +:+ group_label earlier +:+ " already has it".

(** The inner loop: one earlier group against all later ones. *)
Fixpoint drop_behind (target : string) (a : SummariseGroup) (groups : list SummariseGroup)
    : list SummariseGroup * list string :=
  match groups with
  | [] => ([], [])
  | b :: groups =>
      let (rest, messages) := drop_behind target a groups in
      if groups_overlap a b then
        let b' := drop_nodes a b in
        (b' :: rest,
         (drop_message target a b <$>
            List.filter (fun n => negb (bool_decide (n ∈ nodes b'))) (nodes b)) ++ messages)
      else (b :: rest, messages)
  end.

Fixpoint drop_all (fuel : nat) (target : string) (groups : list SummariseGroup)
    : list SummariseGroup * list string :=
  match fuel, groups with
  | S fuel, a :: groups =>
      let (behind, m1) := drop_behind target a groups in
      let (rest, m2) := drop_all fuel target behind in
      (a :: rest, m1 ++ m2)
  | _, _ => (groups, [])
  end.

Definition with_summarise (t : TargetConfig) (groups : list SummariseGroup) : TargetConfig :=
  mkTargetConfig (t_name t) (t_listen t) (endpoint_url t) (discovery_interval_secs t)
    (min_security t) (max_connections t) (max_connections_per_address t) groups (ignore t).

Definition drop_summarise_overlaps (t : TargetConfig) : TargetConfig * list string :=
  let (groups, dropped) := drop_all (length (summarise t)) (t_name t) (summarise t) in
  (with_summarise t groups, dropped).

(** One rule goes into the first group of its client, or a new one. *)
Definition add_rule (rule : IgnoreRule) (g : SummariseGroup) : SummariseGroup :=
  let node_id := trim (ir_node_id rule) in
  mkSummariseGroup (sg_name g) (sg_client g)
    (if bool_decide (node_id ∈ nodes g) then nodes g else nodes g ++ [node_id])
    (match ir_name rule with
     | Some n => if bool_decide (trim n = EmptyString) then names g else <[node_id := n]> (names g)
     | None => names g
     end).

Definition rule_client (rule : IgnoreRule) : option string :=
  match ir_client rule with
  | Some c => if bool_decide (trim c = EmptyString) then None else Some (trim c)
  | None => None
  end.

Fixpoint migrate_rule (rule : IgnoreRule) (groups : list SummariseGroup) : list SummariseGroup :=
  match groups with
  | [] => [add_rule rule (default_group (rule_client rule))]
  | g :: groups =>
      if bool_decide (sg_client g = rule_client rule) then add_rule rule g :: groups
      else g :: migrate_rule rule groups
  end.

Definition migrate_ignore (t : TargetConfig) : TargetConfig :=
  mkTargetConfig (t_name t) (t_listen t) (endpoint_url t) (discovery_interval_secs t)
    (min_security t) (max_connections t) (max_connections_per_address t)
    (foldl (fun groups rule => migrate_rule rule groups) (summarise t) (ignore t)) [].

(** Settings the environment overrides. *)
Definition parse_bool (v : string) : option bool :=
  let v := to_ascii_lowercase (trim v) in
  if bool_decide (v ∈ ["1"; "true"; "yes"; "on"]) then Some true
  else if bool_decide (v ∈ ["0"; "false"; "no"; "off"]) then Some false
  else None.

Definition with_tls (w : WebConfig) (b : bool) : WebConfig :=
  mkWebConfig (listen w) b (tls_certificate w) (tls_private_key w) (allowed_hosts w)
    (trusted_proxies w).

Definition apply_env (var : string → option string) (c : Config) : result ConfigError Config :=
  match var WEB_TLS_ENV with
  | Some v =>
      if bool_decide (trim v = EmptyString) then Ok c else
      b ← of_option (BadTlsEnv (to_ascii_lowercase (trim v))) (parse_bool v);
      Ok (mkConfig (gateway c) (with_tls (web c) b) (audit c) (export c) (mcp c) (targets c)
            (load_fixes c))
  | None => Ok c
  end.

Definition resolve (base p : string) : string := if is_relative p then path_join base p else p.

Definition resolve_paths (base : string) (c : Config) : Config :=
  let g := gateway c in
  let w := web c in
  let a := audit c in
  mkConfig
    (mkGatewayConfig (application_name g) (cfg_application_uri g) (resolve base (pki_dir g))
       (resolve base (data_dir g)) (certificate_hostnames g))
    (mkWebConfig (listen w) (tls w) (resolve base <$> tls_certificate w)
       (resolve base <$> tls_private_key w) (allowed_hosts w) (trusted_proxies w))
    (mkAuditConfig (resolve base <$> database a) (cfg_retention_days a) (cfg_fail_mode a)
       (cfg_record_old_value a) (ignored_summary_secs a))
    (mkExportConfig
       ((fun q => mkQuestDbConfig (url q) (resolve base <$> ca_file q) (table q) (token q)
           (username q) (password q) (interval_secs q)) <$> questdb (export c))
       (syslog (export c)))
    (mcp c) (targets c) (load_fixes c).

(** The loop of [load] over the targets. *)
Fixpoint fix_targets (ts : list TargetConfig) : list TargetConfig * list string :=
  match ts with
  | [] => ([], [])
  | t :: ts =>
      let (t', messages) := drop_summarise_overlaps (migrate_ignore t) in
      let (ts', rest) := fix_targets ts in
      (t' :: ts', messages ++ rest)
  end.

(** [Config::load] on the parsed file in the directory [base]. *)
Definition load (base : string) (var : string → option string) (parsed : Config)
    : result ConfigError Config :=
  let c := resolve_paths base parsed in
  let (ts, messages) := fix_targets (targets c) in
  let c := mkConfig (gateway c) (web c) (audit c) (export c) (mcp c) ts (load_fixes c ++ messages) in
  c ← apply_env var c;
  _ ← validate c;
  Ok c.
End Config.

(** ** What a valid configuration is *)
Section Spec.
Context `{NodeIds}.

(** The groups can stand in this order: no node is summarised by both for the
    same writes. *)
Definition compatible (a b : SummariseGroup) : Prop :=
  groups_overlap a b = true → ∀ p, p ∈ parsed_nodes a → p ∉ parsed_nodes b.

Definition group_valid (g : SummariseGroup) : Prop :=
  bad_group_name g = false ∧ bad_group_client g = false ∧
  Forall (fun n => is_Some (parse_node n)) (nodes g) ∧ NoDup (parsed_nodes g) ∧
  (∀ k, k ∈ dom (names g) → k ∈ nodes g).

Definition summarise_valid (t : TargetConfig) : Prop :=
  length (summarise t) ≤ MAX_SUMMARISE_GROUPS ∧ total_nodes t ≤ MAX_SUMMARISED_NODES ∧
  NoDup ((fun g => (sg_name g, sg_client g)) <$> summarise t) ∧
  Forall group_valid (summarise t) ∧ ForallOrdPairs compatible (summarise t).

Definition target_valid (web_listen : SocketAddr) (t : TargetConfig) : Prop :=
  bad_target_name (t_name t) = false ∧ t_listen t ≠ web_listen ∧
  starts_with "opc.tcp://" (endpoint_url t) = true ∧ discovery_interval_secs t ≠ 0 ∧
  max_connections t ≠ 0 ∧ max_connections_per_address t ≠ 0 ∧ summarise_valid t.

Definition questdb_valid (q : QuestDbConfig) : Prop :=
  (∃ rest, questdb_rest q = Some rest ∧ contains "@" (default EmptyString (head (split "/" rest))) = false) ∧
  (token q = None ∨ (username q = None ∧ password q = None)) ∧ interval_secs q ≠ 0.

Definition config_valid (c : Config) : Prop :=
  ignored_summary_secs (audit c) ≠ 0 ∧
  (is_Some (tls_certificate (web c)) ↔ is_Some (tls_private_key (web c))) ∧
  (is_Some (tls_certificate (web c)) → tls (web c) = true) ∧
  (∀ q, questdb (export c) = Some q → questdb_valid q) ∧
  NoDup (t_name <$> targets c) ∧ NoDup (t_listen <$> targets c) ∧
  Forall (target_valid (listen (web c))) (targets c).

Lemma refuse_Ok c e x : refuse c e = Ok x ↔ c = false.
Proof. unfold refuse. destruct c, x; done. Qed.

Lemma then_Ok (m k : result ConfigError ()) x : (_ ← m; k) = Ok x ↔ m = Ok () ∧ k = Ok x.
Proof. rewrite result_bind_Ok. split; [intros ([] & ? & ?); done|intros [? ?]; by exists ()]. Qed.

Lemma omap_cons_eq {A B} (f : A → option B) a l :
  omap f (a :: l) = match f a with Some b => b :: omap f l | None => omap f l end.
Proof. reflexivity. Qed.

Lemma check_nodes_Ok name label seen l x :
  check_nodes name label seen l = Ok x ↔
  Forall (fun n => is_Some (parse_node n)) l ∧ all_new seen (omap parse_node l).
Proof.
  revert seen. induction l as [|n l IH]; intros seen; cbn [check_nodes].
  { destruct x. split; [|done]. intros _. split; [constructor|apply all_new_nil]. }
  rewrite result_bind_Ok, Forall_cons, omap_cons_eq. setoid_rewrite of_option_Ok.
  destruct (parse_node n) as [p|] eqn:Hp.
  - setoid_rewrite then_Ok. setoid_rewrite refuse_Ok. setoid_rewrite bool_decide_eq_false.
    setoid_rewrite IH. rewrite all_new_cons. split.
    + intros (? & [= <-] & Hn & H1 & H2). split_and!; [eauto|done|done|done].
    + intros ((_ & H1) & H2 & H3). exists p. split_and!; done.
  - split; [by intros (? & ? & _)|]. intros (([? ?] & _) & _). done.
Qed.

Lemma elem_of_sorted_keys {A} (m : gmap string A) k : k ∈ sorted_keys m ↔ k ∈ dom m.
Proof.
  unfold sorted_keys. rewrite merge_sort_Permutation, list_elem_of_fmap, elem_of_dom.
  split.
  - intros ([k' x] & -> & Hm%elem_of_map_to_list). simpl. eauto.
  - intros [x Hx]. exists (k, x). split; [done|]. by apply elem_of_map_to_list.
Qed.

Lemma find_None {A} (f : A → bool) l : List.find f l = None ↔ ∀ x, x ∈ l → f x = false.
Proof.
  induction l as [|y l IH]; simpl; [set_solver|].
  destruct (f y) eqn:Hy; [|rewrite IH; set_solver].
  split; [done|]. intros Hx. rewrite Hx in Hy; [done|set_solver].
Qed.

Lemma check_group_Ok name g x : check_group name g = Ok x ↔ group_valid g.
Proof.
  unfold check_group, group_valid. rewrite !then_Ok, !refuse_Ok, check_nodes_Ok.
  assert (Hf : (match List.find (fun k => bool_decide (k ∉ nodes g)) (sorted_keys (names g)) with
                | Some extra => Err (NameOfNoNode name extra) | None => Ok () end) = Ok x ↔
               ∀ k, k ∈ dom (names g) → k ∈ nodes g).
  { destruct x. destruct (List.find _ _) eqn:Hf.
    - split; [done|]. intros Hall. apply find_some in Hf as [Hin Hb].
      rewrite bool_decide_eq_true in Hb. destruct Hb. apply Hall, elem_of_sorted_keys.
      by apply list_elem_of_In.
    - split; [intros _|done]. intros k Hk. rewrite find_None in Hf.
      specialize (Hf k (proj2 (elem_of_sorted_keys _ _) Hk)). rewrite bool_decide_eq_false in Hf.
      by destruct (decide (k ∈ nodes g)). }
  rewrite Hf, all_new_start. unfold parsed_nodes. tauto.
Qed.

Lemma check_groups_Ok name seen gs x :
  check_groups name seen gs = Ok x ↔
  all_new seen ((fun g => (sg_name g, sg_client g)) <$> gs) ∧ Forall group_valid gs.
Proof.
  revert seen. induction gs as [|g gs IH]; intros seen; cbn [check_groups].
  { destruct x. split; [intros _; split; [apply all_new_nil|constructor]|done]. }
  rewrite !then_Ok, refuse_Ok, check_group_Ok, IH, bool_decide_eq_false.
  rewrite fmap_cons, all_new_cons, Forall_cons. tauto.
Qed.

Lemma in_nodes_spec l n : in_nodes l n = true ↔ ∃ p, parse_node n = Some p ∧ p ∈ l.
Proof.
  unfold in_nodes. destruct (parse_node n) as [p|].
  - rewrite bool_decide_eq_true. naive_solver.
  - naive_solver.
Qed.

Lemma elem_of_parsed g p : p ∈ parsed_nodes g ↔ ∃ n, n ∈ nodes g ∧ parse_node n = Some p.
Proof. unfold parsed_nodes. by rewrite list_elem_of_omap. Qed.

Lemma overlap_with_None a gs : overlap_with a gs = None ↔ Forall (compatible a) gs.
Proof.
  induction gs as [|b gs IH]; simpl; [by split|]. rewrite Forall_cons, <- IH. unfold compatible at 1.
  destruct (groups_overlap a b); [|naive_solver].
  destruct (List.find _ _) as [n|] eqn:Hf.
  - split; [done|]. intros [Hc _]. apply find_some in Hf as [Hin Hp].
    apply in_nodes_spec in Hp as (p & Hp & Ha). exfalso. apply (Hc eq_refl p Ha).
    apply elem_of_parsed. exists n. split; [by apply list_elem_of_In|done].
  - rewrite find_None in Hf. split; [|by intros [_ ?]]. intros ->. split; [|done].
    intros _ p Ha (n & Hn & Hp)%elem_of_parsed. specialize (Hf n Hn).
    rewrite (proj2 (in_nodes_spec _ _)) in Hf by eauto. done.
Qed.

Lemma overlaps_None gs : overlaps gs = None ↔ ForallOrdPairs compatible gs.
Proof.
  induction gs as [|a gs IH]; simpl; [split; [constructor|done]|].
  destruct (overlap_with a gs) as [x|] eqn:Ho.
  - split; [done|]. intros Hc. inversion_clear Hc as [|? ? Ha Hr].
    apply overlap_with_None in Ha. congruence.
  - apply overlap_with_None in Ho. rewrite IH. split; [by constructor|by inversion_clear 1].
Qed.

Lemma validate_summarise_Ok t x : validate_summarise t = Ok x ↔ summarise_valid t.
Proof.
  unfold validate_summarise, summarise_valid. rewrite !then_Ok, !refuse_Ok, check_groups_Ok.
  rewrite !Z.ltb_ge, <- overlaps_None, all_new_start. unfold summarise_overlap.
  destruct x, (overlaps (summarise t)) as [[[? ?] ?]|]; intuition congruence.
Qed.

Lemma check_targets_Ok wl names listens ts x :
  check_targets wl names listens ts = Ok x ↔
  all_new names (t_name <$> ts) ∧ all_new listens (t_listen <$> ts) ∧
  Forall (target_valid wl) ts.
Proof.
  revert names listens. induction ts as [|t ts IH]; intros names listens; cbn [check_targets].
  { destruct x. split; [intros _; split_and!; [apply all_new_nil..|constructor]|done]. }
  rewrite !then_Ok, !refuse_Ok, validate_summarise_Ok, IH.
  rewrite !bool_decide_eq_false, !fmap_cons, !all_new_cons, Forall_cons, negb_false_iff,
    orb_false_iff, !Z.eqb_neq.
  unfold target_valid. tauto.
Qed.

Lemma check_questdb_Ok q x : check_questdb q = Ok x ↔ questdb_valid q.
Proof.
  assert (Ht : bool_decide (is_Some (token q)) &&
     (bool_decide (is_Some (username q)) || bool_decide (is_Some (password q))) = false ↔
     (token q = None ∨ (username q = None ∧ password q = None))).
  { rewrite andb_false_iff, orb_false_iff, !bool_decide_eq_false, <- !eq_None_not_Some. tauto. }
  unfold check_questdb, questdb_valid. destruct (questdb_rest q) as [rest|].
  - cbn [of_option mbind result_bind]. rewrite !then_Ok, !refuse_Ok, Z.eqb_neq, Ht.
    split; [intros (? & ? & ?); split_and!; eauto|].
    intros ((? & [= <-] & ?) & ? & ?). by split_and!.
  - split; [done|]. intros ((? & ? & _) & _). done.
Qed.

Lemma validate_Ok c : validate c = Ok () ↔ config_valid c.
Proof.
  unfold validate, config_valid. rewrite !then_Ok, !refuse_Ok, check_targets_Ok, Z.eqb_neq.
  assert (Hq : (match questdb (export c) with Some q => check_questdb q | None => Ok () end) = Ok () ↔
               ∀ q, questdb (export c) = Some q → questdb_valid q).
  { destruct (questdb (export c)) as [q|]; [rewrite check_questdb_Ok; naive_solver|naive_solver]. }
  assert (Ht : negb (Bool.eqb (bool_decide (is_Some (tls_certificate (web c))))
                              (bool_decide (is_Some (tls_private_key (web c))))) = false ↔
               (is_Some (tls_certificate (web c)) ↔ is_Some (tls_private_key (web c)))).
  { rewrite negb_false_iff, eqb_true_iff. do 2 case_bool_decide; naive_solver. }
  assert (Hs : bool_decide (is_Some (tls_certificate (web c))) && negb (tls (web c)) = false ↔
               (is_Some (tls_certificate (web c)) → tls (web c) = true)).
  { rewrite andb_false_iff, bool_decide_eq_false, negb_false_iff.
    destruct (tls (web c)); [naive_solver|]. destruct (decide (is_Some (tls_certificate (web c)))); naive_solver. }
  rewrite Hq, Ht, Hs, !all_new_start. tauto.
Qed.

(** [validate] accepts exactly the configurations
    that meet the rules: names and listen addresses are unique and usable,
    TLS files come as a pair and with TLS on, limits and intervals are not
    zero, credentials are not ambiguous, and no node is summarised by two
    groups for the same writes. *)
Theorem validate_spec c : validate c = Ok () ↔ config_valid c.
Proof. apply validate_Ok. Qed.
End Spec.

(** ** Corrections at load *)
Section Corrections.
Context `{NodeIds}.

(** The same group with fewer nodes. *)
Definition shrunk (g g' : SummariseGroup) : Prop :=
  sg_name g' = sg_name g ∧ sg_client g' = sg_client g ∧ (∀ n, n ∈ nodes g' → n ∈ nodes g).

#[export] Instance shrunk_preorder : PreOrder shrunk.
Proof.
  split; [by intros g; split_and!|].
  intros a b c (H1 & H2 & H3) (H4 & H5 & H6). split_and!; [congruence|congruence|auto].
Qed.

Lemma shrunk_parsed g g' p : shrunk g g' → p ∈ parsed_nodes g' → p ∈ parsed_nodes g.
Proof. intros (_ & _ & Hn). rewrite !elem_of_parsed. intros (n & ? & ?). eauto. Qed.

Lemma shrunk_compatible a b b' : shrunk b b' → compatible a b → compatible a b'.
Proof.
  intros Hs Hc Ho p Ha Hb. destruct Hs as (H1 & H2 & H3).
  assert (groups_overlap a b = true) as Ho' by (by unfold groups_overlap in *; rewrite H2 in Ho).
  apply (Hc Ho' p Ha). by eapply (shrunk_parsed b b').
Qed.

Lemma elem_of_drop_nodes a b n :
  n ∈ nodes (drop_nodes a b) ↔ n ∈ nodes b ∧ in_nodes (parsed_nodes a) n = false.
Proof.
  unfold drop_nodes. simpl. rewrite !list_elem_of_In, filter_In, negb_true_iff. done.
Qed.

Lemma drop_nodes_shrunk a b : shrunk b (drop_nodes a b).
Proof. split_and!; [done|done|]. intros n Hn. by apply elem_of_drop_nodes in Hn as [? _]. Qed.

Lemma drop_nodes_compatible a b : compatible a (drop_nodes a b).
Proof.
  intros _ p Ha (n & [Hn Hi]%elem_of_drop_nodes & Hp)%elem_of_parsed.
  rewrite (proj2 (in_nodes_spec _ _)) in Hi; [done|eauto].
Qed.

Lemma drop_behind_spec target a gs :
  Forall2 shrunk gs (drop_behind target a gs).1 ∧ Forall (compatible a) (drop_behind target a gs).1.
Proof.
  induction gs as [|b gs [IH1 IH2]]; simpl; [by split; constructor|].
  destruct (drop_behind target a gs) as [rest messages]. simpl in *.
  destruct (groups_overlap a b) eqn:Ho; simpl.
  - split; constructor; auto using drop_nodes_shrunk, drop_nodes_compatible.
  - split; constructor; auto; [reflexivity|]. intros Ho'. congruence.
Qed.

Lemma Forall2_shrunk_refl gs : Forall2 shrunk gs gs.
Proof. induction gs; constructor; [reflexivity|done]. Qed.

Lemma Forall2_shrunk_compatible a gs gs' :
  Forall2 shrunk gs gs' → Forall (compatible a) gs → Forall (compatible a) gs'.
Proof.
  induction 1; [constructor|]. rewrite !Forall_cons. intros [? ?].
  split; [by eapply shrunk_compatible|auto].
Qed.

Lemma drop_all_spec fuel target gs :
  (length gs ≤ fuel)%nat →
  Forall2 shrunk gs (drop_all fuel target gs).1 ∧
  ForallOrdPairs compatible (drop_all fuel target gs).1.
Proof.
  revert gs. induction fuel as [|fuel IH]; intros [|a gs] Hf; simpl in *; try lia;
    try (by split; constructor).
  destruct (drop_behind_spec target a gs) as [H1 H2].
  destruct (drop_behind target a gs) as [behind m1]. simpl in *.
  destruct (IH behind) as [H3 H4]; [rewrite <- (Forall2_length _ _ _ H1); lia|].
  destruct (drop_all fuel target behind) as [rest m2]. simpl in *. split.
  - constructor; [reflexivity|]. clear -H1 H3. revert rest H3.
    induction H1 as [|x y l k Hxy H1 IH]; intros rest H3.
    + by apply Forall2_nil_inv_l in H3 as ->.
    + apply Forall2_cons_inv_l in H3 as (z & l' & Hyz & Hl & ->).
      constructor; [by transitivity y|auto].
  - constructor; [by eapply Forall2_shrunk_compatible|done].
Qed.

(** Each removed node is reported once. *)
Lemma drop_behind_count target a gs :
  length (drop_behind target a gs).2 +
    foldr (fun g n => length (nodes g) + n) 0 (drop_behind target a gs).1 =
  foldr (fun g n => length (nodes g) + n) 0 gs.
Proof.
  induction gs as [|b gs IH]; [done|]. cbn [drop_behind].
  destruct (drop_behind target a gs) as [rest messages]. cbn [fst snd] in IH.
  destruct (groups_overlap a b); cbn [fst snd foldr]; [|lia].
  rewrite length_app, length_fmap. set (later := drop_nodes a b).
  assert (Hf : List.filter (fun n => negb (bool_decide (n ∈ nodes later))) (nodes b) =
               List.filter (in_nodes (parsed_nodes a)) (nodes b)).
  { apply List.filter_ext_in. intros n Hn. unfold later.
    destruct (in_nodes (parsed_nodes a) n) eqn:Hi.
    - rewrite negb_true_iff, bool_decide_eq_false, elem_of_drop_nodes. intros [_ ?]. congruence.
    - rewrite negb_false_iff, bool_decide_eq_true, elem_of_drop_nodes.
      split; [by apply list_elem_of_In|done]. }
  rewrite Hf. pose proof (List.filter_length (in_nodes (parsed_nodes a)) (nodes b)) as Hl.
  unfold later, drop_nodes. simpl. lia.
Qed.

Lemma drop_all_count fuel target gs :
  length (drop_all fuel target gs).2 +
    foldr (fun g n => length (nodes g) + n) 0 (drop_all fuel target gs).1 =
  foldr (fun g n => length (nodes g) + n) 0 gs.
Proof.
  revert gs. induction fuel as [|fuel IH]; intros [|a gs]; try done. cbn [drop_all].
  pose proof (drop_behind_count target a gs) as Hb.
  destruct (drop_behind target a gs) as [behind m1]. specialize (IH behind).
  destruct (drop_all fuel target behind) as [rest m2]. cbn [fst snd foldr] in *.
  rewrite length_app. lia.
Qed.

(** Correcting the summarise groups leaves no
    node in two groups for the same writes, keeps every group with its name
    and client, only ever removes nodes (so no further write is summarised),
    and reports each removed node once. *)
Theorem drop_overlaps_spec t :
  let '(t', dropped) := drop_summarise_overlaps t in
  summarise_overlap t' = None ∧ Forall2 shrunk (summarise t) (summarise t') ∧
  total_nodes t = total_nodes t' + length dropped ∧
  t' = with_summarise t (summarise t').
Proof.
  unfold drop_summarise_overlaps.
  destruct (drop_all_spec (length (summarise t)) (t_name t) (summarise t)) as [H1 H2]; [done|].
  pose proof (drop_all_count (length (summarise t)) (t_name t) (summarise t)) as Hc.
  destruct (drop_all _ _ _) as [gs dropped]. cbn [fst snd] in *.
  split_and!; [by apply overlaps_None|done|unfold total_nodes; simpl; lia|done].
Qed.

Lemma fix_targets_compatible ts t :
  t ∈ (fix_targets ts).1 → ForallOrdPairs compatible (summarise t).
Proof.
  induction ts as [|x ts IH]; simpl; [by intros ?%not_elem_of_nil|].
  unfold drop_summarise_overlaps at 1.
  destruct (drop_all_spec (length (summarise (migrate_ignore x))) (t_name (migrate_ignore x))
    (summarise (migrate_ignore x))) as [_ H2]; [done|].
  destruct (drop_all _ _ _) as [gs dropped].
  destruct (fix_targets ts) as [ts' rest]. simpl in *.
  intros [->|Ht]%elem_of_cons; [done|auto].
Qed.

Lemma refuse_err c e e' : refuse c e = Err e' → e' = e.
Proof. unfold refuse. destruct c; congruence. Qed.

Lemma then_err (m k : result ConfigError ()) e :
  (_ ← m; k) = Err e → m = Err e ∨ (m = Ok () ∧ k = Err e).
Proof. destruct m as [[]|]; simpl; auto. Qed.

Definition not_overlap_error (e : ConfigError) : Prop :=
  match e with NodeInTwoGroups _ _ _ _ => False | _ => True end.

Lemma check_nodes_err name label seen l e :
  check_nodes name label seen l = Err e → not_overlap_error e.
Proof.
  revert seen. induction l as [|n l IH]; intros seen; simpl; [done|].
  destruct (parse_node n); simpl; [|by intros [= <-]].
  intros [He|[_ He]]%then_err; [by apply refuse_err in He as ->|by eapply IH].
Qed.

Lemma check_groups_err name seen gs e : check_groups name seen gs = Err e → not_overlap_error e.
Proof.
  revert seen. induction gs as [|g gs IH]; intros seen; cbn [check_groups]; [done|].
  intros [He|[_ [He|[_ He]]%then_err]]%then_err; [by apply refuse_err in He as ->| |by eapply IH].
  unfold check_group in He.
  apply then_err in He as [He|[_ He]]; [by apply refuse_err in He as ->|].
  apply then_err in He as [He|[_ He]]; [by apply refuse_err in He as ->|].
  apply then_err in He as [He|[_ He]]; [by eapply check_nodes_err|].
  destruct (List.find _ _); [by injection He as <-|done].
Qed.

Lemma check_targets_err wl names listens ts e :
  Forall (fun t => summarise_overlap t = None) ts →
  check_targets wl names listens ts = Err e → not_overlap_error e.
Proof.
  intros Hall. revert names listens. induction Hall as [|t ts Ho _ IH]; intros names listens;
    cbn [check_targets]; [done|].
  intros He. do 7 (apply then_err in He as [He|[_ He]]; [by apply refuse_err in He as ->|]).
  apply then_err in He as [He|[_ He]]; [|by eapply IH].
  unfold validate_summarise in He. rewrite Ho in He.
  do 2 (apply then_err in He as [He|[_ He]]; [by apply refuse_err in He as ->|]).
  apply then_err in He as [He|[_ He]]; [by eapply check_groups_err|done].
Qed.

(** A config file with overlapping summarise
    groups, or old [ignore] rules that overlap, still loads: loading never
    fails because a node is in two groups. *)
Theorem load_repairs_overlaps base var parsed e :
  load base var parsed = Err e → not_overlap_error e.
Proof.
  unfold load. pose proof (fix_targets_compatible (targets (resolve_paths base parsed))) as Hc.
  destruct (fix_targets _) as [ts messages]. simpl in Hc. unfold apply_env.
  assert (Hv : ∀ c, targets c = ts → validate c = Err e → not_overlap_error e).
  { intros c <- He. unfold validate in He.
    do 3 (apply then_err in He as [He|[_ He]]; [by apply refuse_err in He as ->|]).
    apply then_err in He as [He|[_ He]].
    - destruct (questdb (export c)) as [q|]; [|done]. unfold check_questdb in He.
      destruct (questdb_rest q); simpl in He; [|by injection He as <-].
      do 2 (apply then_err in He as [He|[_ He]]; [by apply refuse_err in He as ->|]).
      by apply refuse_err in He as ->.
    - eapply check_targets_err; [|done]. apply Forall_forall. intros t Ht.
      by apply overlaps_None, Hc. }
  destruct (var WEB_TLS_ENV) as [v|]; simpl.
  - case_bool_decide; simpl.
    + destruct (validate _) as [[]|] eqn:Hval; simpl; [done|]. intros [= ->]. refine (Hv _ _ Hval); reflexivity.
    + destruct (parse_bool v); simpl; [|by intros [= <-]].
      destruct (validate _) as [[]|] eqn:Hval; simpl; [done|]. intros [= ->]. refine (Hv _ _ Hval); reflexivity.
  - destruct (validate _) as [[]|] eqn:Hval; simpl; [done|]. intros [= ->]. refine (Hv _ _ Hval); reflexivity.
Qed.

(** ** Old [ignore] rules *)

(** Group [g] has the node of the rule for the rule's client. *)
Definition holds_rule (rule : IgnoreRule) (g : SummariseGroup) : Prop :=
  sg_client g = rule_client rule ∧ trim (ir_node_id rule) ∈ nodes g.

Definition grown (g g' : SummariseGroup) : Prop :=
  sg_name g' = sg_name g ∧ sg_client g' = sg_client g ∧ (∀ n, n ∈ nodes g → n ∈ nodes g').

Lemma grown_refl g : grown g g.
Proof. by split_and!. Qed.

Lemma add_rule_grown rule g : grown g (add_rule rule g).
Proof. unfold add_rule, grown. simpl. split_and!; try done. case_bool_decide; set_solver. Qed.

Lemma add_rule_holds rule g : sg_client g = rule_client rule → holds_rule rule (add_rule rule g).
Proof.
  intros Hc. unfold add_rule, holds_rule. simpl. split; [done|].
  case_bool_decide; [done|]. apply elem_of_app. right. by left.
Qed.

Lemma migrate_rule_spec rule gs :
  Exists (holds_rule rule) (migrate_rule rule gs) ∧
  (∀ g, g ∈ gs → ∃ g', g' ∈ migrate_rule rule gs ∧ grown g g').
Proof.
  induction gs as [|g gs [IH1 IH2]]; cbn [migrate_rule].
  { split; [by left; apply add_rule_holds|]. intros g Hg. by apply not_elem_of_nil in Hg. }
  case_bool_decide as Hc.
  - split; [by left; apply add_rule_holds|]. intros g' [->|Hg]%elem_of_cons.
    + exists (add_rule rule g). split; [by left|apply add_rule_grown].
    + exists g'. split; [by right|]. by split_and!.
  - split; [by right|]. intros g' [->|Hg]%elem_of_cons.
    + exists g. split; [by left|]. by split_and!.
    + destruct (IH2 _ Hg) as (g'' & ? & ?). exists g''. split; [by right|done].
Qed.

Lemma holds_grown rule g g' : holds_rule rule g → grown g g' → holds_rule rule g'.
Proof. intros [Hc Hn] (_ & Hc' & Hn'). split; [congruence|auto]. Qed.

(** Moving the old rules into groups loses
    none: every rule's node is in a group for the rule's client, every group
    that was there keeps its client and nodes, and no old rule is left. *)
Theorem migrate_ignore_spec t :
  ignore (migrate_ignore t) = [] ∧
  (∀ rule, rule ∈ ignore t → Exists (holds_rule rule) (summarise (migrate_ignore t))) ∧
  (∀ g, g ∈ summarise t → ∃ g', g' ∈ summarise (migrate_ignore t) ∧ grown g g').
Proof.
  split; [done|]. unfold migrate_ignore. simpl. generalize (summarise t) as gs.
  induction (ignore t) as [|r rules IH]; intros gs; simpl.
  { split; [by intros ? ?%not_elem_of_nil|]. intros g Hg. exists g. split; [done|apply grown_refl]. }
  destruct (migrate_rule_spec r gs) as [H1 H2]. destruct (IH (migrate_rule r gs)) as [H3 H4].
  split.
  - intros rule [->|Hr]%elem_of_cons; [|auto]. apply Exists_exists in H1 as (g & Hg & Hh).
    destruct (H4 g Hg) as (g' & Hg' & Hgr). apply Exists_exists. exists g'.
    split; [done|by eapply holds_grown].
  - intros g Hg. destruct (H2 g Hg) as (g' & Hg' & (A1 & A2 & A3)).
    destruct (H4 g' Hg') as (g'' & Hg'' & (B1 & B2 & B3)). exists g''.
    split; [done|]. split_and!; [congruence|congruence|auto].
Qed.
End Corrections.

Section ConfigWitnesses.
Import ToyNodes.

Definition plc1 : TargetConfig :=
  mkTargetConfig "plc1" (mkSocketAddr (V4 0) 4841) "opc.tcp://192.168.0.10:4840" 60
    SignAndEncrypt 50 10
    [mkSummariseGroup None (Some "10.0.0.5") ["ns=3;i=1"] ∅] [].

Definition one_target : Config :=
  mkConfig default_gateway default_web default_audit (mkExportConfig None None)
    (mkMcpConfig false []) [plc1] [].

Example validate_runs :
  validate one_target = Ok () ∧
  validate (mkConfig default_gateway default_web default_audit (mkExportConfig None None)
    (mkMcpConfig false []) [plc1; plc1] []) = Err (DuplicateTargetName "plc1").
Proof. split; vm_compute; reflexivity. Qed.

Lemma load_repairs_overlaps_witness :
  load "/etc" (fun _ => Some "maybe") one_target = Err (BadTlsEnv "maybe") ∧
  not_overlap_error (BadTlsEnv "maybe").
Proof.
  split; [vm_compute; reflexivity|].
  apply (load_repairs_overlaps "/etc" (fun _ => Some "maybe") one_target).
  vm_compute. reflexivity.
Defined.
End ConfigWitnesses.
