(* ===== verification/Pipeline.v ===== *)
(** The audit pipeline ([src/src/audit/mod.rs]): callers queue events with
    [record] and [record_committed]; the writer thread batches them into the
    store; what cannot be stored is counted and reported ([EventsLost]).

    The store is used through the interface [AuditSink]; [AuditStore]
    implements it. The channel is a queue with the senders that wait for room
    behind it; a sender's reply is an entry of [replies]. *)

From S2P Require Import Prelude Event Store Config.

(** ** The interface of the store *)
Class AuditSink (S : Type) : Type := {
  sink_append : io_oracle → S → list AuditEntry → result string (list Z) * S;
  (** [prune_before] with a cutoff, at a time *)
  sink_prune : io_oracle → S → Z → Z → result string Z * S;
  (** [AuditStore::open] on the same file, at a time *)
  sink_reopen : io_oracle → S → Z → result string S;
}.

(** What the pipeline relies on: appending is all or nothing, and the entries
    get the numbers it returns. *)
Class AuditSinkOk (S : Type) `{AuditSink S} : Type := {
  sink_inv : S → Prop;
  sink_last : S → Z;
  sink_has : S → Z → AuditEntry → Prop;
  sink_append_err io s es e s' : sink_append io s es = (Err e, s') → s' = s;
  sink_append_ok io s es seqs s' :
    sink_inv s → sink_last s + length es < i64_max →
    sink_append io s es = (Ok seqs, s') →
    sink_inv s' ∧ seqs = seqZ (sink_last s + 1) (length es) ∧
    ∀ (i : nat) e, es !! i = Some e → sink_has s' (sink_last s + 1 + i) e;
}.

(** ** Settings *)
Record AuditSettings : Type := mkAuditSettings {
  fail_closed : bool;
  s_record_old_value : bool;
  s_retention_days : Z;
  s_ignored_summary_secs : Z;
}.

Definition apply (config : AuditConfig) (s : AuditSettings) : AuditSettings :=
  mkAuditSettings (bool_decide (cfg_fail_mode config = Closed)) (cfg_record_old_value config)
    (cfg_retention_days config) (Z.max (ignored_summary_secs config) 1).

Definition new_settings (config : AuditConfig) : AuditSettings :=
  apply config (mkAuditSettings false false 0 1).

Definition fail_mode (s : AuditSettings) : FailMode := if fail_closed s then Closed else Open.

(** ** Lost events *)
Record LostEvents : Type := mkLostEvents {
  count : Z;
  in_flight : Z;
  lost_file : option string;
  saved : Z;
}.

Fixpoint digits_value (acc : Z) (s : string) : option Z :=
  match s with
  | EmptyString => Some acc
  | String a s =>
      if is_ascii_digit a then
        let v := acc * 10 + (Z.of_N (N_of_ascii a) - 48) in
        if u64_max <? v then None else digits_value v s
      else None
  end.

(** [str::parse::<u64>] *)
Definition parse_u64 (s : string) : option Z :=
  match s with
  | EmptyString => None
  | String "+" EmptyString => None
  | String "+" s => digits_value 0 s
  | _ => digits_value 0 s
  end.

(** [LostEvents::open] on the contents of the file. *)
Definition lost_open (file : option string) : LostEvents :=
  let n := default 0 (t ← file; parse_u64 (trim t)) in
  mkLostEvents n 0 file n.

Definition lost_add (n : Z) (l : LostEvents) : LostEvents :=
  mkLostEvents (u64_wrap (count l + n)) (in_flight l) (lost_file l) (saved l).

(** [save_locked]; [fs_ok]: the file operation succeeds. *)
Definition save_locked (fs_ok : bool) (l : LostEvents) : LostEvents :=
  if count l =? saved l then l
  else if fs_ok then
    mkLostEvents (count l) (in_flight l)
      (if count l =? 0 then None else Some (pretty (count l))) (count l)
  else l.

(** ** Commands *)
Definition QUEUE_CAPACITY : nat := Z.to_nat 10000.
Definition MAX_BATCH : nat := Z.to_nat 512.

(** An [Ack] is the name of the caller's channel. *)
Inductive Command : Type :=
| Append (e : AuditEntry) (ack : option nat)
| Prune (cutoff : Z) (ack : nat)
| Flush (ack : nat).

(** What arrives on a caller's channel; [Dropped] when the sender is gone. *)
Inductive Reply : Type :=
| Appended (r : result string Z)
| Pruned (r : result string Z)
| Flushed
| Dropped.

Inductive AuditError : Type := WriterStopped | StoreFailed (e : string).

(** How the caller of [record_committed] reads its reply. *)
Definition committed_result (r : Reply) : result AuditError Z :=
  match r with
  | Appended (Ok n) => Ok n
  | Appended (Err e) => Err (StoreFailed e)
  | _ => Err WriterStopped
  end.

(** ** Batching *)

(** The inner loop of [writer_loop]: appends up to [room], ending at the
    first other command. *)
Fixpoint take_batch (room : nat) (q : list Command)
    : list (AuditEntry * option nat) * option Command * list Command :=
  match room, q with
  | S room, Append e ack :: q =>
      let '(batch, other, rest) := take_batch room q in ((e, ack) :: batch, other, rest)
  | S _, other :: q => ([], Some other, q)
  | _, _ => ([], None, q)
  end.

(** The acknowledgements of a stored batch, [acks.into_iter().zip(seqs)]. *)
Fixpoint ok_replies (acks : list (option nat)) (seqs : list Z) : list (nat * Reply) :=
  match acks, seqs with
  | Some a :: acks, n :: seqs => (a, Appended (Ok n)) :: ok_replies acks seqs
  | None :: acks, _ :: seqs => ok_replies acks seqs
  | _, _ => []
  end.

Definition err_replies (acks : list (option nat)) (e : string) : list (nat * Reply) :=
  (fun a => (a, Appended (Err e))) <$> omap id acks.

Definition unacked (acks : list (option nat)) : Z :=
  length (List.filter (fun a => bool_decide (a = None)) acks).

Section Pipeline.
Context {S : Type} `{AuditSink S}.

(** The batch with the report of what was lost before it. *)
Definition with_report (now lost_before : Z) (batch : list AuditEntry) : list AuditEntry :=
  if 0 <? lost_before then batch ++ [new_entry now (EventsLost lost_before)] else batch.

Definition write_batch (io : io_oracle) (fs_ok : bool) (now : Z) (store : S)
    (batch : list AuditEntry) (acks : list (option nat)) (lost : LostEvents)
    : S * LostEvents * list (nat * Reply) :=
  let lost_before := count lost in
  let lost := mkLostEvents 0 (u64_wrap (lost_before + unacked acks)) (lost_file lost) (saved lost) in
  let (r, store) := sink_append io store (with_report now lost_before batch) in
  let lost := mkLostEvents (count lost) 0 (lost_file lost) (saved lost) in
  match r with
  | Ok seqs => (store, save_locked fs_ok lost, ok_replies acks seqs)
  | Err e =>
      (store, save_locked fs_ok (lost_add (u64_wrap (lost_before + unacked acks)) lost),
       err_replies acks e)
  end.

(** ** The running gateway *)
Record Pipeline : Type := mkPipeline {
  settings : AuditSettings;
  queue : list Command;
  (** senders waiting for room; [true]: for QUEUE_WAIT only *)
  waiting : list (Command * bool);
  lost : LostEvents;
  store : S;
  restarts : list Z;
  replies : list (nat * Reply);
  exited : bool;
}.

Definition set_queue (p : Pipeline) q : Pipeline :=
  mkPipeline (settings p) q (waiting p) (lost p) (store p) (restarts p) (replies p) (exited p).
Definition set_waiting (p : Pipeline) w : Pipeline :=
  mkPipeline (settings p) (queue p) w (lost p) (store p) (restarts p) (replies p) (exited p).
Definition set_lost (p : Pipeline) l : Pipeline :=
  mkPipeline (settings p) (queue p) (waiting p) l (store p) (restarts p) (replies p) (exited p).
Definition set_settings (p : Pipeline) s : Pipeline :=
  mkPipeline s (queue p) (waiting p) (lost p) (store p) (restarts p) (replies p) (exited p).

(** [tx.send]: into the queue when there is room, else to the waiting
    senders ([timed]: [send_timeout]). *)
Definition send (p : Pipeline) (c : Command) (timed : bool) : Pipeline :=
  if (length (queue p) <? QUEUE_CAPACITY)%nat then set_queue p (queue p ++ [c])
  else set_waiting p (waiting p ++ [(c, timed)]).

(** [AuditHandle::record_committed] up to waiting for its reply. *)
Definition record_committed (p : Pipeline) (e : AuditEntry) (ack : nat) : Pipeline :=
  send p (Append e (Some ack)) false.

(** [AuditHandle::record]: in fail-open mode nobody waits for a reply. *)
Definition record (p : Pipeline) (e : AuditEntry) (ack : nat) : Pipeline :=
  match fail_mode (settings p) with
  | Open => send p (Append e None) true
  | Closed => record_committed p e ack
  end.

(** A waiting sender whose time is up: its event is counted as lost. *)
Definition abandon (p : Pipeline) (before after : list (Command * bool)) : Pipeline :=
  set_lost (set_waiting p (before ++ after)) (lost_add 1 (lost p)).

(** The caller of [record_committed] gets its reply. *)
Definition receive (p : Pipeline) (r : Reply) : Pipeline :=
  if negb (is_ok (committed_result r)) && bool_decide (fail_mode (settings p) = Open)
  then set_lost p (lost_add 1 (lost p)) else p.

(** One turn of [writer_loop] on a queue that is not empty. *)
Definition writer_turn (io io' : io_oracle) (fs_ok : bool) (now : Z) (p : Pipeline) : Pipeline :=
  let '(batch, other, rest) := take_batch MAX_BATCH (queue p) in
  let '(store1, lost1, replies1) :=
    match batch with
    | [] => (store p, lost p, [])
    | _ => write_batch io fs_ok now (store p) batch.*1 batch.*2 (lost p)
    end in
  let '(store2, replies2) :=
    match other with
    | Some (Prune cutoff ack) =>
        let (r, s) := sink_prune io' store1 cutoff now in (s, [(ack, Pruned r)])
    | Some (Flush ack) => (store1, [(ack, Flushed)])
    | _ => (store1, [])
    end in
  mkPipeline (settings p) rest (waiting p) lost1 store2 (restarts p)
    (replies p ++ replies1 ++ replies2) (exited p).

(** The writer panics while it writes a batch: nothing of it is stored, the
    acknowledgements are dropped, and the store is opened again, at most
    three times a minute. *)
Definition writer_panic (io : io_oracle) (now mono : Z) (p : Pipeline) : Pipeline :=
  let '(batch, other, rest) := take_batch MAX_BATCH (queue p) in
  let acks := batch.*2 in
  let dropped :=
    (fun a => (a, Dropped)) <$>
      (omap id acks ++
       match other with Some (Prune _ a) | Some (Flush a) => [a] | _ => [] end) in
  let lost_before := count (lost p) in
  let flying := u64_wrap (lost_before + unacked acks) in
  let restarts := List.filter (fun t => (mono - t) / 1000000000 <? 60) (restarts p) ++ [mono] in
  let reopened :=
    if (length restarts <=? 3)%nat then sink_reopen io (store p) now
    else Err ("it failed " +:+ pretty (Z.of_nat (length restarts)) +:+ " times in a minute") in
  let lost := mkLostEvents (u64_wrap (0 + flying)) 0 (lost_file (lost p)) (saved (lost p)) in
  match reopened with
  | Ok s =>
      mkPipeline (settings p) rest (waiting p) lost s restarts (replies p ++ dropped) (exited p)
  | Err _ =>
      mkPipeline (settings p) rest (waiting p) lost (store p) restarts (replies p ++ dropped) true
  end.
End Pipeline.
Arguments Pipeline : clear implicits.

(** ** Retention *)
Inductive RetentionAction : Type :=
| Skip
| RecordJump (seconds : Z)
| PruneBefore (cutoff : Z).

Definition NANOS : Z := 1000000000.

(** [chrono::Duration::num_seconds] rounds towards zero. *)
Definition num_seconds (nanos : Z) : Z := Z.quot nanos NANOS.

(** One round of [run_retention]: [last] is the previous round's monotonic
    and wall clock. *)
Definition retention_round (last : option (Z * Z)) (mono wall retention_days : Z)
    : RetentionAction * option (Z * Z) :=
  let jump := match last with
              | Some (m, w) => num_seconds ((wall - w) - (mono - m))
              | None => 0
              end in
  (if 300 <? Z.abs jump then RecordJump jump
   else if retention_days =? 0 then Skip
   else PruneBefore (wall - retention_days * 86400 * NANOS),
   Some (mono, wall)).

(** ** Batches *)
Section Batches.

(** The commands a batch was taken from. *)
Definition appends (batch : list (AuditEntry * option nat)) : list Command :=
  (fun b => Append b.1 b.2) <$> batch.

(** The writer takes commands in the order they were
    queued: its batch, then at most one other command, then the rest of the
    queue are the queue; the batch is never longer than MAX_BATCH, and a
    queue that is not empty always makes progress. *)
Theorem take_batch_fifo q :
  let '(batch, other, rest) := take_batch MAX_BATCH q in
  q = appends batch ++ option_list other ++ rest ∧
  (length batch ≤ MAX_BATCH)%nat ∧
  (∀ c, other = Some c → ∀ e ack, c ≠ Append e ack) ∧
  (q ≠ [] → (length rest < length q)%nat).
Proof.
  assert (H : ∀ room, let '(batch, other, rest) := take_batch room q in
    q = appends batch ++ option_list other ++ rest ∧ (length batch ≤ room)%nat ∧
    (∀ c, other = Some c → ∀ e ack, c ≠ Append e ack) ∧
    (q ≠ [] → room ≠ O → (length rest < length q)%nat)).
  { induction q as [|c q IH]; intros [|room]; simpl; try (split_and!; (done || lia)).
    destruct c as [e ack|cutoff ack|ack].
    - specialize (IH room). destruct (take_batch room q) as [[batch other] rest].
      destruct IH as (Hq & Hl & Ho & Hr). simpl. split_and!; [by rewrite Hq at 1|lia|done|].
      intros _ _. apply (f_equal length) in Hq. rewrite !length_app in Hq. lia.
    - split_and!; [done|simpl; lia|by intros ? [= <-]|simpl; lia].
    - split_and!; [done|simpl; lia|by intros ? [= <-]|simpl; lia]. }
  specialize (H MAX_BATCH). destruct (take_batch MAX_BATCH q) as [[batch other] rest].
  destruct H as (? & ? & ? & Hr). split_and!; [done..|]. intros Hq. apply Hr; [done|].
  unfold MAX_BATCH. lia.
Qed.

Lemma take_batch_order room q :
  let '(batch, other, rest) := take_batch room q in
  q = appends batch ++ option_list other ++ rest ∧
  match other with Some (Append _ _) => False | _ => True end.
Proof.
  revert room. induction q as [|c q IH]; intros [|room]; simpl; try done.
  destruct c as [e ack|cutoff ack|ack]; try done.
  specialize (IH room). destruct (take_batch room q) as [[batch other] rest].
  destruct IH as [-> ?]. done.
Qed.
End Batches.

(** ** What an acknowledgement means *)
Section Acks.
Context {S : Type} `{AuditSinkOk S}.

Lemma ok_replies_sound acks seqs a n :
  (a, Appended (Ok n)) ∈ ok_replies acks seqs →
  ∃ i, acks !! i = Some (Some a) ∧ seqs !! i = Some n.
Proof.
  revert seqs. induction acks as [|[b|] acks IH]; intros [|m seqs]; simpl;
    try (by intros ?%not_elem_of_nil).
  - intros [[= -> ->]|Hin]%elem_of_cons; [by exists O|].
    destruct (IH _ Hin) as (i & ? & ?). by exists (Datatypes.S i).
  - intros Hin. destruct (IH _ Hin) as (i & ? & ?). by exists (Datatypes.S i).
Qed.

Lemma ok_replies_callers acks seqs :
  (length acks ≤ length seqs)%nat → (ok_replies acks seqs).*1 = omap id acks.
Proof.
  revert seqs. induction acks as [|[b|] acks IH]; intros [|m seqs]; simpl; try done; try lia;
    intros Hl; rewrite IH by lia; done.
Qed.

(** Claim C13. A caller told that its event is record
    [n] can rely on it: the batch was committed and record [n] is its event;
    otherwise the store is unchanged. Every caller that waits is answered,
    exactly once and in order. *)
Theorem acknowledged_is_stored io fs_ok now s batch acks l s' l' replies :
  sink_inv s → sink_last s + length batch + 1 < i64_max →
  length acks = length batch →
  write_batch io fs_ok now s batch acks l = (s', l', replies) →
  replies.*1 = omap id acks ∧
  (∀ a r, (a, r) ∈ replies → is_ok (committed_result r) = false → s' = s) ∧
  (∀ a n, (a, Appended (Ok n)) ∈ replies →
     ∃ i e, acks !! i = Some (Some a) ∧ batch !! i = Some e ∧ sink_has s' n e).
Proof.
  intros Hinv Hb Hlen. unfold write_batch, with_report.
  set (full := if 0 <? count l then _ else _).
  assert (Hfull : ∃ x, full = batch ++ x ∧ (length x ≤ 1)%nat).
  { unfold full. destruct (0 <? count l); [eexists; split; [done|simpl; lia]|].
    exists []. rewrite app_nil_r. split; [done|simpl; lia]. }
  destruct Hfull as (x & Hx & Hxl).
  destruct (sink_append io s full) as [[seqs|e] s1] eqn:Ha; intros [= <- <- <-].
  - apply sink_append_ok in Ha as (_ & -> & Hhas); [|done|rewrite Hx, length_app; lia].
    split; [|split].
    + apply ok_replies_callers. rewrite length_seqZ, Hx, length_app. lia.
    + intros a r Hin Hr. exfalso.
      assert (Hall : ∀ (acks0 : list (option nat)) seqs0, (a, r) ∈ ok_replies acks0 seqs0 → ∃ n, r = Appended (Ok n)).
      { induction acks0 as [|[b|] acks0 IH]; intros [|m seqs0]; simpl;
          try (by intros ?%not_elem_of_nil); [|eauto].
        intros [[= -> ->]|?]%elem_of_cons; eauto. }
      apply Hall in Hin as [n ->]. done.
    + intros a n Hin. apply ok_replies_sound in Hin as (i & Hi & Hn).
      assert (Hib : (i < length batch)%nat) by (rewrite <- Hlen; by eapply lookup_lt_Some).
      destruct (lookup_lt_is_Some_2 batch i Hib) as [e He]. exists i, e. split_and!; [done|done|].
      apply lookup_seqZ in Hn as [-> _]. apply Hhas. rewrite Hx. by apply lookup_app_l_Some.
  - apply sink_append_err in Ha as ->. split; [|split].
    + unfold err_replies. rewrite <- list_fmap_compose. apply list_fmap_id.
    + done.
    + intros a n Hin. unfold err_replies in Hin. by apply list_elem_of_fmap in Hin as (? & [=] & _).
Qed.
End Acks.

(** [AuditStore] is such a store. *)
Section StoreSink.
Context `{StoreEnvOk}.

#[export] Instance store_sink : AuditSink AuditStore := {
  sink_append := append;
  sink_prune := prune_before;
  sink_reopen io s now := open io (conn s) now;
}.

(** Record [n] of the trail was made from [e]. *)
Definition trail_has (s : AuditStore) (n : Z) (e : AuditEntry) : Prop :=
  ∃ r, r ∈ Store.audit (conn s) ∧ r_seq r = n ∧ stores e r.

#[export] Program Instance store_sink_ok : AuditSinkOk AuditStore := {
  sink_inv := good;
  sink_last := last_seq;
  sink_has := trail_has;
}.
Next Obligation. intros io s es e s' Ha. exact (append_err _ _ _ _ _ Ha). Qed.
Next Obligation.
  intros io s es seqs s' Hg Hb Ha. pose proof (append_good io s es Hg Hb) as Hg'.
  unfold sink_append, store_sink in Ha. rewrite Ha in Hg'. split; [exact Hg'|].
  destruct (append_spec _ _ _ _ _ Hg Hb Ha) as (new & Hc & Hl & -> & _ & _ & Hst).
  split; [done|]. intros i e He. destruct (Forall2_lookup_l _ _ _ _ _ Hst He) as (r & Hr & Hs).
  exists r. split; [rewrite Hc; simpl; apply elem_of_app; right; by eapply list_elem_of_lookup_2|].
  split; [|done]. apply linked_seqs in Hl. rewrite (Forall2_length _ _ _ Hst) in *.
  assert (Hs' : (r_seq <$> new) !! i = Some (r_seq r)) by by rewrite list_lookup_fmap, Hr.
  rewrite Hl in Hs'. by apply lookup_seqZ in Hs' as [-> _].
Qed.
End StoreSink.

(** ** Every event is stored or counted *)
Section Conservation.
Context {S : Type} `{AuditSinkOk S}.

Definition unacked_commands (q : list Command) : Z :=
  length (List.filter (fun c => match c with Append _ None => true | _ => false end) q).

(** The gateway with three counters of its history: events that nobody waits
    for (and, in fail-open mode, refused ones) so far, those committed to the
    store, and the sum of the losses committed as [EventsLost]. *)
Record Run : Type := mkRun {
  pipe : Pipeline S;
  owed : Z;
  committed : Z;
  reported : Z;
}.

(** Whether the batch of a turn is stored. *)
Definition turn_stores (io : io_oracle) (now : Z) (p : Pipeline S) : bool :=
  let '(batch, _, _) := take_batch MAX_BATCH (queue p) in
  match batch with
  | [] => false
  | _ => is_ok (sink_append io (store p) (with_report now (count (lost p)) batch.*1)).1
  end.

Definition turn_unacked (p : Pipeline S) : Z :=
  let '(batch, _, _) := take_batch MAX_BATCH (queue p) in unacked batch.*2.

Definition counts_refusal (p : Pipeline S) (r : Reply) : Z :=
  if negb (is_ok (committed_result r)) && bool_decide (fail_mode (settings p) = Open) then 1 else 0.

Inductive pstep (r : Run) : Run → Prop :=
| p_settings config :
    pstep r (mkRun (set_settings (pipe r) (apply config (settings (pipe r)))) (owed r) (committed r) (reported r))
| p_record_open e ack :
    fail_mode (settings (pipe r)) = Open → owed r < u64_max →
    pstep r (mkRun (record (pipe r) e ack) (owed r + 1) (committed r) (reported r))
| p_record_closed e ack :
    fail_mode (settings (pipe r)) = Closed →
    pstep r (mkRun (record (pipe r) e ack) (owed r) (committed r) (reported r))
| p_send c :
    (∀ e, c ≠ Append e None) →
    pstep r (mkRun (send (pipe r) c false) (owed r) (committed r) (reported r))
| p_wake c timed w :
    waiting (pipe r) = (c, timed) :: w → (length (queue (pipe r)) < QUEUE_CAPACITY)%nat →
    pstep r (mkRun (set_queue (set_waiting (pipe r) w) (queue (pipe r) ++ [c]))
               (owed r) (committed r) (reported r))
| p_give_up e before after :
    waiting (pipe r) = before ++ (Append e None, true) :: after →
    pstep r (mkRun (abandon (pipe r) before after) (owed r) (committed r) (reported r))
| p_receive reply :
    owed r < u64_max →
    pstep r (mkRun (receive (pipe r) reply) (owed r + counts_refusal (pipe r) reply)
               (committed r) (reported r))
| p_turn io io' fs_ok now :
    exited (pipe r) = false →
    pstep r (mkRun (writer_turn io io' fs_ok now (pipe r)) (owed r)
               (committed r + if turn_stores io now (pipe r) then turn_unacked (pipe r) else 0)
               (reported r + if turn_stores io now (pipe r) then count (lost (pipe r)) else 0))
| p_panic io now mono :
    exited (pipe r) = false →
    pstep r (mkRun (writer_panic io now mono (pipe r)) (owed r) (committed r) (reported r)).

(** A gateway started with the losses its file remembers. *)
Definition started (s : S) (config : AuditConfig) (file : option string) : Run :=
  let l := lost_open file in
  mkRun (mkPipeline (new_settings config) [] [] l s [] [] false) (count l) 0 0.

Definition pending (p : Pipeline S) : Z :=
  unacked_commands (queue p) + unacked_commands (waiting p).*1.

Definition balanced (r : Run) : Prop :=
  0 ≤ count (lost (pipe r)) ∧ 0 ≤ committed r ∧ 0 ≤ reported r ∧ owed r ≤ u64_max ∧
  owed r = pending (pipe r) + committed r + reported r + count (lost (pipe r)).

Lemma unacked_commands_app a b :
  unacked_commands (a ++ b) = unacked_commands a + unacked_commands b.
Proof. unfold unacked_commands. rewrite List.filter_app, length_app. lia. Qed.

Lemma unacked_commands_cons c q :
  unacked_commands (c :: q) = (match c with Append _ None => 1 | _ => 0 end) + unacked_commands q.
Proof. unfold unacked_commands. simpl. destruct c as [e []| |]; simpl; lia. Qed.

Lemma unacked_commands_nil : unacked_commands [] = 0.
Proof. reflexivity. Qed.

Lemma unacked_commands_nonneg q : 0 ≤ unacked_commands q.
Proof. unfold unacked_commands. lia. Qed.

Lemma unacked_appends batch : unacked_commands (appends batch) = unacked batch.*2.
Proof.
  induction batch as [|[e [a|]] batch IH]; [done|..];
    change (appends ((e, ?a) :: batch)) with (Append e a :: appends batch).
  - unfold appends in *. rewrite !fmap_cons, unacked_commands_cons, IH. simpl. unfold unacked. simpl. lia.
  - unfold appends in *. rewrite !fmap_cons, unacked_commands_cons, IH. simpl. unfold unacked. simpl. lia.
Qed.

Lemma unacked_nonneg acks : 0 ≤ unacked acks.
Proof. unfold unacked. lia. Qed.

(** What a batch takes from the queue. *)
Lemma take_batch_pending room q :
  let '(batch, _, rest) := take_batch room q in
  unacked_commands q = unacked batch.*2 + unacked_commands rest.
Proof.
  pose proof (take_batch_order room q) as Ho. destruct (take_batch room q) as [[batch other] rest].
  destruct Ho as [-> Ho]. rewrite !unacked_commands_app, unacked_appends.
  destruct other as [[]|]; unfold option_list, option_rect; [done|..];
    rewrite ?unacked_commands_cons, unacked_commands_nil; lia.
Qed.

Lemma send_pending p c timed :
  pending (send p c timed) = pending p + (match c with Append _ None => 1 | _ => 0 end) ∧
  lost (send p c timed) = lost p.
Proof.
  unfold send, pending. destruct (_ <? _)%nat; simpl; split; try done.
  - rewrite unacked_commands_app, unacked_commands_cons, unacked_commands_nil. lia.
  - rewrite fmap_app, unacked_commands_app. cbn [fmap list_fmap fst].
    rewrite unacked_commands_cons, unacked_commands_nil. lia.
Qed.

Lemma save_locked_count fs_ok l : count (save_locked fs_ok l) = count l.
Proof. unfold save_locked. destruct (_ =? _), fs_ok; done. Qed.

Lemma write_batch_count io fs_ok now s batch acks l s' l' rs :
  0 ≤ count l → 0 ≤ count l + unacked acks ≤ u64_max →
  write_batch io fs_ok now s batch acks l = (s', l', rs) →
  count l' = if is_ok (sink_append io s (with_report now (count l) batch)).1 then 0
             else count l + unacked acks.
Proof.
  intros Hc Hb. unfold write_batch.
  destruct (sink_append io s _) as [[seqs|e] s1]; intros [= <- <- <-];
    rewrite save_locked_count; simpl; [done|].
  by rewrite Z.add_0_l, !u64_wrap_small by (rewrite ?u64_wrap_small; lia).
Qed.

Lemma writer_turn_balanced io io' fs_ok now r :
  balanced r →
  balanced (mkRun (writer_turn io io' fs_ok now (pipe r)) (owed r)
    (committed r + if turn_stores io now (pipe r) then turn_unacked (pipe r) else 0)
    (reported r + if turn_stores io now (pipe r) then count (lost (pipe r)) else 0)).
Proof.
  destruct r as [p o c rep]. unfold balanced, turn_stores, turn_unacked, pending, writer_turn.
  cbn [pipe owed committed reported].
  intros (Hc & Hcom & Hrep & Ho & Heq).
  pose proof (take_batch_pending MAX_BATCH (queue p)) as Hp.
  destruct (take_batch MAX_BATCH (queue p)) as [[batch other] rest].
  pose proof (unacked_nonneg batch.*2) as Hu. pose proof (unacked_commands_nonneg rest).
  pose proof (unacked_commands_nonneg (waiting p).*1).
  assert (Hshape : ∀ l1 s1 rs1 X Y,
    0 ≤ count l1 → 0 ≤ X → 0 ≤ Y → count l1 + X + Y = count (lost p) + unacked batch.*2 →
    let '(store2, replies2) :=
      match other with
      | Some (Prune cutoff ack) => let (r, s) := sink_prune io' s1 cutoff now in (s, [(ack, Pruned r)])
      | Some (Flush ack) => (s1, [(ack, Flushed)])
      | _ => (s1, [])
      end in
    let p' := mkPipeline (settings p) rest (waiting p) l1 store2 (restarts p)
                (replies p ++ rs1 ++ replies2) (exited p) in
    0 ≤ count (lost p') ∧ 0 ≤ c + X ∧ 0 ≤ rep + Y ∧ o ≤ u64_max ∧
    o = unacked_commands (queue p') + unacked_commands (waiting p').*1 + (c + X) + (rep + Y) + count (lost p')).
  { intros l1 s1 rs1 X Y B1 B2 B3 B4.
    destruct other as [[|cutoff ack|ack]|]; try destruct (sink_prune _ _ _ _); simpl; split_and!; lia. }
  destruct batch as [|b batch]; [|set (full := b :: batch) in *].
  - specialize (Hshape (lost p) (store p) [] 0 0). cbn [fmap list_fmap] in *.
    unfold unacked in Hshape at 1. simpl in Hshape.
    destruct other as [[|cutoff ack|ack]|]; try destruct (sink_prune _ _ _ _);
      apply Hshape; unfold unacked in *; simpl in *; lia.
  - pose proof (write_batch_count io fs_ok now (store p) full.*1 full.*2 (lost p)) as Hw.
    destruct (write_batch _ _ _ _ _ _ _) as [[s1 l1] rs1].
    specialize (Hw s1 l1 rs1 Hc ltac:(lia) eq_refl).
    destruct (is_ok _).
    + specialize (Hshape l1 s1 rs1 (unacked full.*2) (count (lost p))).
      destruct other as [[|cutoff ack|ack]|]; try destruct (sink_prune _ _ _ _); apply Hshape; lia.
    + specialize (Hshape l1 s1 rs1 0 0).
      destruct other as [[|cutoff ack|ack]|]; try destruct (sink_prune _ _ _ _); apply Hshape; lia.
Qed.

Lemma writer_panic_balanced io now mono r :
  balanced r →
  balanced (mkRun (writer_panic io now mono (pipe r)) (owed r) (committed r) (reported r)).
Proof.
  destruct r as [p o c rep]. unfold balanced, pending, writer_panic.
  cbn [pipe owed committed reported]. intros (Hc & Hcom & Hrep & Ho & Heq).
  pose proof (take_batch_pending MAX_BATCH (queue p)) as Hp.
  destruct (take_batch MAX_BATCH (queue p)) as [[batch other] rest].
  pose proof (unacked_nonneg batch.*2). pose proof (unacked_commands_nonneg rest).
  pose proof (unacked_commands_nonneg (waiting p).*1).
  rewrite Z.add_0_l, !(u64_wrap_small (count (lost p) + unacked batch.*2)) by lia.
  destruct (if (_ <=? 3)%nat then _ else _); cbn [lost count queue waiting]; split_and!; lia.
Qed.

Lemma lost_add_count n l : 0 ≤ count l + n ≤ u64_max → count (lost_add n l) = count l + n.
Proof. intros Hb. unfold lost_add. simpl. by apply u64_wrap_small. Qed.

Lemma send_balanced r c timed k :
  balanced r → owed r + k ≤ u64_max →
  k = (match c with Append _ None => 1 | _ => 0 end) →
  balanced (mkRun (send (pipe r) c timed) (owed r + k) (committed r) (reported r)).
Proof.
  unfold balanced. simpl. intros (? & ? & ? & ? & ?) Hk ->.
  destruct (send_pending (pipe r) c timed) as [-> ->]. split_and!; lia.
Qed.

Lemma pending_nonneg p : 0 ≤ pending p.
Proof.
  unfold pending. pose proof (unacked_commands_nonneg (queue p)).
  pose proof (unacked_commands_nonneg (waiting p).*1). lia.
Qed.

Lemma step_balanced r r' : balanced r → pstep r r' → balanced r'.
Proof.
  intros Hb Hs. pose proof (pending_nonneg (pipe r)).
  destruct Hs as [config|e ack Hm Ho|e ack Hm|c Hc|c timed w Hw Hl|e before after Hw|reply Ho| |].
  - exact Hb.
  - unfold record. rewrite Hm. apply send_balanced; [done|lia|done].
  - unfold record, record_committed. rewrite Hm. rewrite <- (Z.add_0_r (owed r)).
    apply send_balanced; [done|unfold balanced in Hb; lia|done].
  - rewrite <- (Z.add_0_r (owed r)). apply send_balanced; [done|unfold balanced in Hb; lia|].
    destruct c as [e [a|]| |]; try done. by destruct (Hc e).
  - destruct Hb as (? & ? & ? & ? & Heq). unfold balanced, pending in *. simpl.
    rewrite Hw in Heq. rewrite fmap_cons, unacked_commands_cons in Heq. simpl in Heq.
    rewrite unacked_commands_app, unacked_commands_cons, unacked_commands_nil. split_and!; lia.
  - destruct Hb as (? & ? & ? & ? & Heq). unfold balanced, pending, abandon in *. cbn [pipe lost set_lost set_waiting queue waiting owed committed reported].
    rewrite Hw in *. rewrite !fmap_app, fmap_cons, !unacked_commands_app, unacked_commands_cons in *.
    cbn [fst] in *. pose proof (unacked_commands_nonneg before.*1).
    pose proof (unacked_commands_nonneg after.*1). pose proof (unacked_commands_nonneg (queue (pipe r))).
    rewrite lost_add_count by lia. split_and!; lia.
  - destruct Hb as (? & ? & ? & ? & Heq). unfold balanced, receive, counts_refusal, pending in *.
    pose proof (unacked_commands_nonneg (queue (pipe r))).
    pose proof (unacked_commands_nonneg (waiting (pipe r)).*1).
    destruct (_ && _); cbn [pipe lost set_lost queue waiting owed committed reported];
      rewrite ?lost_add_count by lia; split_and!; lia.
  - by apply writer_turn_balanced.
  - by apply writer_panic_balanced.
Qed.

End Conservation.

(** ** The lost count survives a restart *)
Section LostFile.

Lemma digits_value_go x s :
  Z.of_N x ≤ u64_max → digits_value 0 (pretty_N_go x s) = digits_value (Z.of_N x) s.
Proof.
  revert s. induction (N.lt_wf_0 x) as [x _ IH]; intros s Hx.
  destruct (decide (0 < x)%N) as [Hpos|Hpos].
  - rewrite pretty_N_go_step by done. rewrite IH; [|apply N.div_lt; lia|].
    + assert (Hd : ∃ a, pretty_N_char (x mod 10) = a ∧ is_ascii_digit a = true ∧
                  Z.of_N (N_of_ascii a) - 48 = Z.of_N (x mod 10)).
      { pose proof (N.mod_lt x 10 ltac:(lia)) as Hm. revert Hm. generalize (x mod 10)%N. intros m Hm.
        eexists; split; [done|]. destruct m as [|q]; [done|].
        do 4 (destruct q as [q|q|]; try done); lia. }
      destruct Hd as (a & -> & Hdig & Hval). cbn [digits_value]. rewrite Hdig, Hval.
      replace (Z.of_N (x / 10) * 10 + Z.of_N (x mod 10)) with (Z.of_N x).
      * destruct (Z.ltb_spec u64_max (Z.of_N x)); [lia|done].
      * rewrite (N.div_mod x 10) at 1 by lia. lia.
    + rewrite N2Z.inj_div. pose proof (Z.div_le_upper_bound (Z.of_N x) 10 (Z.of_N x)). lia.
  - assert (x = 0%N) as -> by lia. by rewrite pretty_N_go_0.
Qed.

Lemma parse_u64_digits s :
  s ≠ EmptyString → string_all is_ascii_digit s = true → parse_u64 s = digits_value 0 s.
Proof.
  destruct s as [|a s]; [done|]. simpl. intros _ [Ha _]%andb_prop.
  destruct a as [[] [] [] [] [] [] [] []]; try done; vm_compute in Ha; discriminate.
Qed.

Lemma parse_u64_pretty n : 0 ≤ n ≤ u64_max → parse_u64 (trim (pretty n)) = Some n.
Proof.
  intros Hn. destruct n as [|p|p]; [reflexivity| |lia].
  change (pretty (Z.pos p)) with (pretty (N.pos p)).
  rewrite trim_digits by apply pretty_N_digits.
  rewrite parse_u64_digits; [| |apply pretty_N_digits].
  - unfold pretty, pretty_N. case_decide; [done|].
    rewrite digits_value_go; [reflexivity|simpl; lia].
  - unfold pretty, pretty_N. case_decide; [done|].
    pose proof (digits_value_go (N.pos p) EmptyString ltac:(lia)) as Hd. simpl in Hd.
    intros Heq. rewrite Heq in Hd. simpl in Hd. injection Hd. lia.
Qed.

(** The count is what the file says. *)
Definition file_current (l : LostEvents) : Prop :=
  saved l = default 0 (t ← lost_file l; parse_u64 (trim t)).

(** After the count was saved, a gateway that
    starts from the file continues with the same count: losses not yet
    reported are not forgotten. *)
Theorem lost_count_survives l :
  0 ≤ count l ≤ u64_max → file_current l →
  count (lost_open (lost_file (save_locked true l))) = count l ∧
  file_current (save_locked true l).
Proof.
  intros Hc Hf. unfold save_locked, file_current in *.
  destruct (Z.eqb_spec (count l) (saved l)) as [He|He]; simpl.
  - rewrite <- Hf. by split.
  - destruct (Z.eqb_spec (count l) 0) as [->|Hz]; simpl; [by split|].
    by rewrite parse_u64_pretty.
Qed.
End LostFile.

Section PipelineWitnesses.
Import Toy.

(** Two callers, one of them waiting, and two events lost before. *)
Lemma acknowledged_is_stored_witness :
  let '(s', l', replies) :=
    write_batch up true 50 store2 [closed 30; closed 40] [None; Some 7%nat]
      (lost_open (Some "2")) in
  replies = [(7%nat, Appended (Ok 4))] ∧ trail_has s' 4 (closed 40) ∧ count l' = 0.
Proof.
  destruct (write_batch up true 50 store2 [closed 30; closed 40] [None; Some 7%nat]
      (lost_open (Some "2"))) as [[s' l'] replies] eqn:E.
  assert (Hr : replies = [(7%nat, Appended (Ok 4))] ∧ count l' = 0)
    by (vm_compute in E; injection E as _ <- <-; split; reflexivity).
  destruct Hr as [-> Hl].
  assert (Hinv : sink_inv store2) by exact (reachable_good _ store2_reachable).
  assert (Hroom : sink_last store2 + 2%nat + 1 < i64_max) by (vm_compute; reflexivity).
  destruct (acknowledged_is_stored up true 50 store2 [closed 30; closed 40] [None; Some 7%nat]
    (lost_open (Some "2")) s' l' _ Hinv Hroom eq_refl E) as (_ & _ & H).
  split; [reflexivity|split; [|exact Hl]].
  destruct (H 7%nat 4 ltac:(left)) as (i & e & Ha & He & Hh).
  destruct i as [|[|i]]; [discriminate Ha| |destruct i; discriminate Ha].
  injection He as <-. exact Hh.
Defined.

(** A queue with one event; the store refuses the batch. *)
Definition down : io_oracle := fun _ => false.


Lemma lost_count_survives_witness :
  count (lost_open (lost_file (save_locked true (lost_add 5 (lost_open (Some "12")))))) = 17.
Proof.
  apply (lost_count_survives (lost_add 5 (lost_open (Some "12")))).
  - vm_compute. split; discriminate.
  - vm_compute. reflexivity.
Defined.
End PipelineWitnesses.
