(* ===== verification/Retention.v ===== *)
(** The retention task ([run_retention] in [src/src/audit/mod.rs]): the rounds it
    wakes up for, and the pass that removes expired records in batches, letting
    other records through in between. *)

From S2P Require Import Prelude Net Event Config Pipeline Store.

Section Retention.
Context `{StoreEnv}.

(** ** One pass *)

(** What else happens around one request to the writer: whether the writer has
    stopped, how the statements go, the time at which the writer prunes, and the
    batches it appends before the next request. *)
Record Round : Type := mkRound {
  ro_stopped : bool;
  ro_io : io_oracle;
  ro_now : Z;
  ro_others : list (io_oracle * list AuditEntry);
}.

Definition append_all (batches : list (io_oracle * list AuditEntry)) (s : AuditStore) : AuditStore :=
  foldl (fun s b => (append b.1 s b.2).2) s batches.

Inductive PassEnd : Type :=
| Finished
| Stopped
| Failed (e : string).

(** The inner loop of [run_retention]; [None]: it goes on after these rounds. *)
Fixpoint prune_pass (rounds : list Round) (cutoff : Z) (s : AuditStore) : option PassEnd * AuditStore :=
  match rounds with
  | [] => (None, s)
  | r :: rounds =>
      if ro_stopped r then (Some Stopped, s) else
      match prune_before (ro_io r) s cutoff (ro_now r) with
      | (Ok n, s) =>
          if n =? 0 then (Some Finished, s)
          else if n <? MAX_PRUNE then (Some Finished, s)
          else prune_pass rounds cutoff (append_all (ro_others r) s)
      | (Err e, s) => (Some (Failed e), s)
      end
  end.

(** ** The task *)
Record Tick : Type := mkTick {
  (** what is appended since the last tick *)
  tk_others : list (io_oracle * list AuditEntry);
  tk_mono : Z;
  tk_wall : Z;
  tk_days : Z;
  tk_rounds : list Round;
}.

(** [run_retention]: the jumps of the clock it records, and the trail. *)
Fixpoint run_retention (ticks : list Tick) (last : option (Z * Z)) (s : AuditStore) : list AuditEvent * AuditStore :=
  match ticks with
  | [] => ([], s)
  | t :: ticks =>
      let s := append_all (tk_others t) s in
      let (action, last) := retention_round last (tk_mono t) (tk_wall t) (tk_days t) in
      match action with
      | Skip => run_retention ticks last s
      | RecordJump seconds => let r := run_retention ticks last s in (ClockJumped seconds :: r.1, r.2)
      | PruneBefore cutoff =>
          match prune_pass (tk_rounds t) cutoff s with
          | (Some Stopped, s) | (None, s) => ([], s)
          | (_, s) => run_retention ticks last s
          end
      end
  end.

(** ** What is promised *)
Definition expired (cutoff : Z) (r : Row) : Prop := String.leb (ts_column cutoff) (c_ts (r_columns r)) = false.
#[global] Instance expired_dec cutoff r : Decision (expired cutoff r).
Proof. unfold expired. apply _. Defined.

(** Nothing is left for retention: the oldest record is within the period, or it
    is the newest one there was, which is kept. *)
Definition settled (cutoff : Z) (rows : list Row) : Prop :=
  match rows with
  | [] => True
  | r :: rest => ¬ expired cutoff r ∨ (length rest ≤ 1)%nat
  end.

(** The newest record is more than five minutes ahead of the clock. *)
Definition ahead (now : Z) (rows : list Row) : Prop :=
  ∃ head, newest rows = Some head ∧ String.ltb (ts_column (now + 5 * 60 * 1000000000)) (c_ts (r_columns head)) = true.

(** What is recorded while retention runs is within the period. *)
Definition within (cutoff t : Z) : Prop := String.leb (ts_column cutoff) (ts_column t) = true.
Definition fresh_batches (cutoff : Z) (bs : list (io_oracle * list AuditEntry)) : Prop :=
  Forall (fun b => Forall (fun e => within cutoff (ts e)) b.2) bs.
Definition fresh_round (cutoff : Z) (r : Round) : Prop := within cutoff (ro_now r) ∧ fresh_batches cutoff (ro_others r).

Definition volume (bs : list (io_oracle * list AuditEntry)) : Z := Z.of_nat (sum_list_with (fun b => length b.2) bs).
Fixpoint used (rounds : list Round) : Z :=
  match rounds with [] => 0 | r :: rounds => 1 + volume (ro_others r) + used rounds end.
Fixpoint used_ticks (ticks : list Tick) : Z :=
  match ticks with [] => 0 | t :: ticks => volume (tk_others t) + used (tk_rounds t) + used_ticks ticks end.
End Retention.

Section Facts.
Context `{StoreEnvOk}.

Lemma volume_cons b bs : volume (b :: bs) = length b.2 + volume bs.
Proof. unfold volume. simpl. lia. Qed.
Lemma volume_nonneg bs : 0 ≤ volume bs.
Proof. unfold volume. lia. Qed.
#[local] Arguments volume : simpl never.
Lemma used_nonneg rounds : 0 ≤ used rounds.
Proof. induction rounds as [|r rounds IH]; simpl; [done|]. pose proof (volume_nonneg (ro_others r)). lia. Qed.

Lemma reachable_step s s' : reachable s → store_step s s' → reachable s'.
Proof. apply rtc_r. Qed.

(** What the other writers leave: the trail, and what they appended to it. *)
Definition grown (cutoff : Z) (bs : list (io_oracle * list AuditEntry)) (s s' : AuditStore) : Prop :=
  reachable s' ∧ last_seq s' ≤ last_seq s + volume bs ∧
  ∃ new, audit (conn s') = audit (conn s) ++ new ∧
    (fresh_batches cutoff bs → Forall (fun r => ¬ expired cutoff r) new).

Lemma stored_fresh cutoff e r : stores e r → within cutoff (ts e) → ¬ expired cutoff r.
Proof. intros [Hc _]. unfold within, expired. rewrite Hc. simpl. congruence. Qed.

Lemma append_all_grown cutoff bs s :
  reachable s → last_seq s + volume bs < i64_max → grown cutoff bs s (append_all bs s).
Proof.
  revert s. induction bs as [|[io es] bs IH]; intros s Hr Hb.
  { split; [done|]. split; [unfold volume; simpl; lia|]. exists []. rewrite app_nil_r. by split; [|constructor]. }
  rewrite volume_cons in Hb. pose proof (volume_nonneg bs). cbn [snd] in Hb.
  assert (Hr' : reachable (append io s es).2) by (eapply reachable_step, step_append; [done|simpl; lia]).
  change (append_all ((io, es) :: bs) s) with (append_all bs (append io s es).2). destruct (append io s es) as [[seqs|e] s'] eqn:Ha; cbn [fst snd] in *.
  - pose proof (append_spec io s es seqs s' (reachable_good _ Hr) ltac:(lia) Ha) as (new & Hc & _ & _ & Hs & _ & Hst).
    destruct (IH s') as (Hr2 & Hb2 & new2 & Hn2 & Hf2); [done|lia|]. split; [done|].
    split; [rewrite volume_cons; simpl; lia|]. exists (new ++ new2). rewrite Hn2, Hc. split; [by rewrite app_assoc|].
    intros [He Hf]%Forall_cons. apply Forall_app_2; [|by apply Hf2].
    clear -Hst He. induction Hst; decompose_Forall_hyps; constructor; eauto using stored_fresh.
  - apply append_err in Ha as ->. destruct (IH s) as (Hr2 & Hb2 & new2 & Hn2 & Hf2); [done|lia|]. split; [done|].
    split; [rewrite volume_cons; simpl; lia|]. exists new2. split; [done|]. intros [_ Hf]%Forall_cons. by apply Hf2.
Qed.

(** The record of a pruning has the time of the pruning. *)
Lemma prune_writes io s cutoff now d s' :
  reachable s → last_seq s + 1 < i64_max → prune_before io s cutoff now = (Ok d, s') → d ≠ 0 →
  ∃ r, newest (audit (conn s')) = Some r ∧ c_ts (r_columns r) = ts_column now.
Proof.
  intros Hg%reachable_good Hb Hp Hd. pose proof (good_seqs_le _ Hg) as Hle. pose proof (good_nonneg _ Hg). revert Hp.
  unfold prune_before. destruct (io 0%nat); simpl; [|done].
  destruct (newest _); [|by intros [= <-]]. destruct (String.ltb _ _); [by intros [= <-]|].
  destruct (_ && _); simpl; [|done]. destruct (sql_min _); [|done]. destruct (_ <? _); [by intros [= <-]|].
  destruct (List.find _ _); [|done]. destruct (_ && _); simpl; [|done].
  destruct (insert _ _ _ _ _ _) as [[[[seqs seq'] hash'] db']|] eqn:Hi; [|done]. destruct (io 8%nat); [|done].
  intros [= <- <-]. apply insert_one in Hi as (new & Hdb & _ & [Hc _] & _); [| |unfold i64_min; lia].
  2:{ apply Forall_forall. intros x [_ Hx]%list_elem_of_filter. rewrite Forall_forall in Hle. by apply Hle. }
  exists new. simpl. rewrite Hdb, Hc. split; [apply last_snoc|done].
Qed.

(** The first record pruning keeps, if it may remove as many as it wants. *)
Definition first_kept (cutoff : Z) (rows : list Row) (head : Row) : Z :=
  default (r_seq head) (sql_min (r_seq <$> filter (fun r => ¬ expired cutoff r) rows)) `min` r_seq head.

Lemma filter_leb cutoff (rows : list Row) :
  filter (fun r => String.leb (ts_column cutoff) (c_ts (r_columns r)) = true) rows = filter (fun r => ¬ expired cutoff r) rows.
Proof. apply list_filter_iff. intros r. unfold expired. by rewrite not_false_iff_true. Qed.

(** How many records a pruning removes. *)
Lemma prune_count io s cutoff now d s' prev n :
  linked prev n (audit (conn s)) → prune_before io s cutoff now = (Ok d, s') →
  (ahead now (audit (conn s)) ∧ s' = s) ∨ audit (conn s) = [] ∨
  ∃ head, newest (audit (conn s)) = Some head ∧ d = 0 `max` ((first_kept cutoff (audit (conn s)) head - n) `min` MAX_PRUNE).
Proof.
  intros Hl. unfold prune_before. destruct (io 0%nat); simpl; [|done].
  destruct (newest _) as [head|] eqn:Hnew; [|intros _; right; left; by apply last_None].
  destruct (String.ltb _ _) eqn:Ha; [intros [= _ <-]; left; split; [by exists head|done]|]. destruct (_ && _); simpl; [|done].
  rewrite (prune_last _ _ _ _ Hl Hnew). destruct (newest_linked _ _ _ _ Hl Hnew) as (Hhs & _ & _).
  rewrite filter_leb. fold (first_kept cutoff (audit (conn s)) head). set (l := Z.min _ _).
  intros Hp. do 2 right. exists head. split; [done|]. revert Hp.
  destruct (Z.ltb_spec l n) as [?|Hln]; [intros [= <- _]; unfold l, MAX_PRUNE in *; lia|].
  destruct (List.find _ _); [|done]. destruct (_ && _); simpl; [|done].
  destruct (linked_filter _ _ _ l Hl) as [_ Hf]. rewrite Hf.
  destruct (insert _ _ _ _ _ _) as [[[[seqs seq'] hash'] db']|]; [|done]. destruct (io 8%nat); [|done].
  intros [= <- _]. rewrite length_take. unfold l, first_kept, MAX_PRUNE in *. lia.
Qed.

Lemma first_kept_settled cutoff prev n a b head :
  linked prev n (a ++ b) → newest (a ++ b) = Some head → Forall (expired cutoff) a →
  first_kept cutoff (a ++ b) head ≤ n + length a →
  match b with [] => True | r :: rest => ¬ expired cutoff r ∨ rest = [] end.
Proof.
  intros Hl Hnew Ha Hk. destruct b as [|r rest]; [done|]. destruct (newest_linked _ _ _ _ Hl Hnew) as (Hhs & _ & _).
  rewrite length_app in Hhs. destruct rest as [|r' rest]; [by right|left]. simpl in Hhs.
  unfold first_kept in Hk. destruct (sql_min _) as [m|] eqn:Hm; [|simpl in Hk; lia].
  apply sql_min_Some in Hm as [(y & -> & [Hy Hin]%list_elem_of_filter)%list_elem_of_fmap _]. simpl in Hk.
  apply linked_app in Hl as [_ Hl]. apply elem_of_app in Hin as [Hin|[->|Hin]%elem_of_cons].
  - rewrite Forall_forall in Ha. by destruct (Hy (Ha _ Hin)).
  - done.
  - destruct Hl as [_ Hl]. apply (linked_seq_elem _ _ _ _ Hl) in Hin. lia.
Qed.

(** A pruning that removes fewer records than it may leaves none to remove,
    unless the clock is refused. *)
Lemma prune_short io s cutoff now d s' :
  reachable s → last_seq s + 1 < i64_max → prune_before io s cutoff now = (Ok d, s') → d < MAX_PRUNE →
  ahead now (audit (conn s')) ∨ settled cutoff (audit (conn s')).
Proof.
  intros Hg%reachable_good Hb Hp Hd. pose proof Hg as (prev & n & Hl & _).
  destruct (prune_count _ _ _ _ _ _ _ _ Hl Hp) as [[? ->]|[Hnil|(head & Hnew & Hc)]]; [by left|right|right].
  - apply prune_cases in Hp as [[_ ->]|(pre & post & r & Hrows & -> & Hpos & _)]; [by rewrite Hnil| |done..].
    rewrite Hnil in Hrows. destruct pre; simpl in *; [lia|done].
  - apply prune_cases in Hp as [[-> ->]|(pre & post & r & Hrows & -> & Hpos & Hpost & Hex & -> & _)]; [| |done..].
    + pose proof (first_kept_settled cutoff prev n [] (audit (conn s)) head Hl Hnew (Forall_nil_2 _)
        ltac:(revert Hc; unfold MAX_PRUNE; simpl; lia)) as Hf. unfold settled.
      destruct (audit (conn s)) as [|x rest]; [done|]. destruct Hf as [?| ->]; simpl; auto.
    + rewrite Hrows in Hl, Hnew, Hc. pose proof (first_kept_settled cutoff prev n pre post head Hl Hnew Hex
        ltac:(revert Hd Hc; lia)) as Hf.
      destruct post as [|x rest]; [done|]. simpl. destruct Hf as [?| ->]; [by left|by right].
Qed.

(** ** A pass *)

(** What a pass, or several with others appending, leave of a trail. *)
Definition trimmed (cutoff : Z) (s s' : AuditStore) : Prop :=
  ∃ pre post new, audit (conn s) = pre ++ post ∧ audit (conn s') = post ++ new ∧
    Forall (expired cutoff) pre ∧ Forall (fun r => ¬ expired cutoff r) new.
Definition overdue (cutoff : Z) (s : AuditStore) : Z := length (filter (expired cutoff) (audit (conn s))).

Lemma trimmed_refl cutoff s : trimmed cutoff s s.
Proof. exists [], (audit (conn s)), []. rewrite app_nil_r. by repeat constructor. Qed.
Lemma trimmed_trans cutoff s s1 s2 : trimmed cutoff s s1 → trimmed cutoff s1 s2 → trimmed cutoff s s2.
Proof.
  intros (pre & post & new & Hs & Hs1 & He & Hn) (pre1 & post1 & new1 & Hs1' & Hs2 & He1 & Hn1).
  rewrite Hs1 in Hs1'. apply app_eq_inv in Hs1' as [(k & -> & ->)|(k & -> & ->)].
  - exists (pre ++ pre1), k, (new ++ new1). rewrite Hs, Hs2, !app_assoc. by split_and!; [..|apply Forall_app_2|apply Forall_app_2].
  - apply Forall_app in He1 as [He1 Hk], Hn as [Hnk Hn]. destruct k as [|x k]; [|by decompose_Forall_hyps].
    exists (pre ++ post), [], (post1 ++ new1). rewrite Hs, Hs2, app_nil_r. by split_and!; [..|apply Forall_app_2|apply Forall_app_2].
Qed.

Lemma filter_every (P : Row → Prop) `{!∀ r, Decision (P r)} l : Forall P l → filter P l = l.
Proof. induction 1; [done|]. rewrite filter_cons_True by done. by f_equal. Qed.
Lemma filter_nothing (P : Row → Prop) `{!∀ r, Decision (P r)} l : Forall (fun r => ¬ P r) l → filter P l = [].
Proof. induction 1; [done|]. by rewrite filter_cons_False. Qed.

(** One request. *)
Lemma round_trims io s cutoff now d s' :
  reachable s → last_seq s + 1 < i64_max → within cutoff now → prune_before io s cutoff now = (Ok d, s') →
  trimmed cutoff s s' ∧ overdue cutoff s' + d = overdue cutoff s ∧ d ≤ MAX_PRUNE.
Proof.
  intros Hr Hb Hw Hp. pose proof Hp as Hp'.
  apply prune_cases in Hp' as [[-> ->]|(pre & post & r & Hrows & -> & Hpos & _ & Hex & Hs' & _)]; [| |by apply reachable_good|done].
  { split; [apply trimmed_refl|unfold MAX_PRUNE; lia]. }
  destruct (prune_writes _ _ _ _ _ _ Hr Hb Hp) as (r' & Hr' & Hts); [lia|].
  rewrite Hs' in Hr'. unfold newest in Hr'. rewrite last_snoc in Hr'. injection Hr' as <-.
  assert (Hn : ¬ expired cutoff r) by (unfold within, expired in *; rewrite Hts; congruence).
  split; [exists pre, post, [r]; by repeat constructor|]. unfold overdue. rewrite Hs', Hrows, !filter_app, !length_app.
  rewrite (filter_cons_False _ _ _ Hn). simpl. rewrite (filter_every _ _ Hex). lia.
Qed.
Lemma round_reaches io s cutoff now :
  reachable s → last_seq s + 1 < i64_max →
  reachable (prune_before io s cutoff now).2 ∧ last_seq (prune_before io s cutoff now).2 ≤ last_seq s + 1.
Proof.
  intros Hr Hb. split; [by eapply reachable_step, step_prune|].
  destruct (prune_before io s cutoff now) as [out s'] eqn:Hp. apply prune_cases in Hp; [|by apply reachable_good|done].
  destruct out; [destruct Hp as [[_ ->]|(? & ? & ? & _ & _ & _ & _ & _ & _ & _ & Hl & _)]|subst]; simpl; lia.
Qed.
Lemma others_trim cutoff bs s :
  reachable s → last_seq s + volume bs < i64_max → fresh_batches cutoff bs →
  trimmed cutoff s (append_all bs s) ∧ overdue cutoff (append_all bs s) = overdue cutoff s.
Proof.
  intros Hr Hb Hf. destruct (append_all_grown cutoff bs s Hr Hb) as (_ & _ & new & Hn & Hnew). specialize (Hnew Hf).
  split; [exists [], (audit (conn s)), new; by split_and!; [|..|constructor|]|].
  unfold overdue. rewrite Hn, filter_app, (filter_nothing _ _ Hnew). by rewrite app_nil_r.
Qed.

Lemma pass_trims cutoff rounds s :
  reachable s → last_seq s + used rounds < i64_max → Forall (fresh_round cutoff) rounds →
  let (e, s') := prune_pass rounds cutoff s in
  trimmed cutoff s s' ∧
  (e = None → overdue cutoff s' + MAX_PRUNE * length rounds ≤ overdue cutoff s) ∧
  (e = Some Finished → settled cutoff (audit (conn s')) ∨ ∃ r, r ∈ rounds ∧ ahead (ro_now r) (audit (conn s'))).
Proof.
  revert s. induction rounds as [|r rounds IH]; intros s Hr Hb Hf.
  { split; [apply trimmed_refl|]. split; [simpl; lia|done]. }
  apply Forall_cons in Hf as [[Hw Ho] Hf]. simpl in Hb. pose proof (volume_nonneg (ro_others r)). pose proof (used_nonneg rounds).
  simpl. destruct (ro_stopped r); [split; [apply trimmed_refl|done]|].
  destruct (round_reaches (ro_io r) s cutoff (ro_now r)) as [Hr' Hb']; [done|lia|].
  destruct (prune_before _ _ _ _) as [[d|e] s1] eqn:Hp; simpl in Hr', Hb'.
  2:{ apply prune_cases in Hp as ->; [|by apply reachable_good|lia]. split; [apply trimmed_refl|done]. }
  destruct (round_trims _ _ _ _ _ _ Hr ltac:(lia) Hw Hp) as (Ht & Hover & Hmax).
  assert (Hshort : d < MAX_PRUNE → settled cutoff (audit (conn s1)) ∨ ∃ r', r' ∈ r :: rounds ∧ ahead (ro_now r') (audit (conn s1))).
  { intros Hd. destruct (prune_short _ _ _ _ _ _ Hr ltac:(lia) Hp Hd) as [Ha|]; [|by left]. right. exists r. split; [by left|done]. }
  destruct (Z.eqb_spec d 0) as [Hd0|Hd0].
  { split; [done|]. split; [done|]. intros _. apply Hshort. unfold MAX_PRUNE. lia. }
  destruct (Z.ltb_spec d MAX_PRUNE) as [Hd|Hd]; [by split_and!; auto|].
  destruct (append_all_grown cutoff (ro_others r) s1) as (Hr2 & Hb2 & _); [done|lia|].
  destruct (others_trim cutoff (ro_others r) s1) as [Ht2 Ho2]; [done|lia|done|].
  specialize (IH (append_all (ro_others r) s1) Hr2 ltac:(lia) Hf). destruct (prune_pass _ _ _) as [e s'].
  destruct IH as (Ht3 & Hnone & Hfin). split; [by eapply trimmed_trans, trimmed_trans|]. split.
  - intros He. specialize (Hnone He). revert Hnone Hover Ho2 Hd Hmax. unfold MAX_PRUNE. simpl. lia.
  - intros He. destruct (Hfin He) as [?|(r' & ? & ?)]; [by left|right]. exists r'. split; [by right|done].
Qed.

(** Claim C17. Retention comes to an end while others
    keep recording: each request but the last removes the greatest batch, so as
    many as the expired records need are enough. What it removed is a beginning
    of the trail, all of it expired; and when no request failed, nothing is left
    to remove: the oldest record is within the period, or was the newest of all,
    unless the newest record is ahead of the clock, which stops retention. *)
Theorem retention_pass_completes cutoff rounds s :
  reachable s → last_seq s + used rounds < i64_max → Forall (fresh_round cutoff) rounds →
  overdue cutoff s < MAX_PRUNE * length rounds →
  ∃ e s', prune_pass rounds cutoff s = (Some e, s') ∧ trimmed cutoff s s' ∧
    (e = Finished → settled cutoff (audit (conn s')) ∨ ∃ r, r ∈ rounds ∧ ahead (ro_now r) (audit (conn s'))).
Proof.
  intros Hr Hb Hf Ho. pose proof (pass_trims cutoff rounds s Hr Hb Hf) as Hp.
  destruct (prune_pass rounds cutoff s) as [[e|] s']; destruct Hp as (Ht & Hn & Hfin).
  - exists e, s'. split; [done|]. split; [done|]. intros ->. by apply Hfin.
  - specialize (Hn eq_refl). unfold overdue in *. lia.
Qed.

(** ** The task *)

(** The records of one trail that are not in the other are all of this kind. *)
Definition spares (P : Row → Prop) (s s' : AuditStore) : Prop := ∀ r, r ∈ audit (conn s) → r ∈ audit (conn s') ∨ P r.
Lemma spares_trans (P : Row → Prop) s1 s2 s3 : spares P s1 s2 → spares P s2 s3 → spares P s1 s3.
Proof. intros H1 H2 r Hr. destruct (H1 r Hr); auto. Qed.

Lemma others_spare P bs s : reachable s → last_seq s + volume bs < i64_max →
  reachable (append_all bs s) ∧ last_seq (append_all bs s) ≤ last_seq s + volume bs ∧ spares P s (append_all bs s).
Proof.
  intros Hr Hb. destruct (append_all_grown 0 bs s Hr Hb) as (? & ? & new & Hn & _). split_and!; [done..|].
  intros r Hin. left. rewrite Hn. apply elem_of_app. by left.
Qed.
Lemma pass_spares cutoff rounds s :
  reachable s → last_seq s + used rounds < i64_max →
  reachable (prune_pass rounds cutoff s).2 ∧ last_seq (prune_pass rounds cutoff s).2 ≤ last_seq s + used rounds ∧
  spares (expired cutoff) s (prune_pass rounds cutoff s).2.
Proof.
  revert s. induction rounds as [|r rounds IH]; intros s Hr Hb.
  { simpl. split_and!; [done|lia|by left]. }
  simpl in Hb. pose proof (volume_nonneg (ro_others r)). pose proof (used_nonneg rounds).
  simpl. destruct (ro_stopped r); [split_and!; [done|simpl; lia|by left]|].
  destruct (round_reaches (ro_io r) s cutoff (ro_now r)) as [Hr' Hb']; [done|lia|].
  assert (Hs : spares (expired cutoff) s (prune_before (ro_io r) s cutoff (ro_now r)).2).
  { destruct (prune_before _ _ _ _) as [out s1] eqn:Hp. apply prune_cases in Hp; [|by apply reachable_good|lia].
    destruct out; [|subst; by left]. destruct Hp as [[_ ->]|(pre & post & x & Hrows & _ & _ & _ & Hex & Hs1 & _)]; [by left|].
    intros y. simpl. rewrite Hrows, Hs1, !elem_of_app. rewrite Forall_forall in Hex. intros [?|?]; [right; by apply Hex|left; by left]. }
  destruct (prune_before _ _ _ _) as [[d|e] s1]; simpl in *; [|split_and!; [done|simpl; lia|done]].
  destruct (d =? 0); [split_and!; [done|simpl; lia|done]|]. destruct (d <? MAX_PRUNE); [split_and!; [done|simpl; lia|done]|].
  destruct (others_spare (expired cutoff) (ro_others r) s1) as (Hr2 & Hb2 & Hs2); [done|lia|].
  destruct (IH (append_all (ro_others r) s1)) as (Hr3 & Hb3 & Hs3); [done|lia|].
  split_and!; [done|lia|]. by eapply spares_trans, spares_trans.
Qed.

Definition reading (t : Tick) : Z * Z := (tk_mono t, tk_wall t).
(** The clock since the last tick went as fast as time did, within five minutes. *)
Definition paced (prev : option (Z * Z)) (t : Tick) : Prop :=
  match prev with Some (m, w) => Z.abs (num_seconds ((tk_wall t - w) - (tk_mono t - m))) ≤ 300 | None => True end.
Definition before (prev : option (Z * Z)) (a : list Tick) : option (Z * Z) :=
  match last a with Some t => Some (reading t) | None => prev end.
Definition cutoff_at (t : Tick) : Z := tk_wall t - tk_days t * 86400 * NANOS.
Definition due (ticks : list Tick) (prev : option (Z * Z)) (r : Row) : Prop :=
  ∃ a t b, ticks = a ++ t :: b ∧ tk_days t ≠ 0 ∧ paced (before prev a) t ∧ expired (cutoff_at t) r.

Lemma due_later t ticks prev r : due ticks (Some (reading t)) r → due (t :: ticks) prev r.
Proof.
  intros (a & t' & b & -> & Hd & Hp & He). exists (t :: a), t', b. split_and!; [done|done| |done].
  revert Hp. unfold before. rewrite last_cons. by destruct (last a).
Qed.
Lemma due_now t ticks prev r : tk_days t ≠ 0 → paced prev t → expired (cutoff_at t) r → due (t :: ticks) prev r.
Proof. intros. by exists [], t, ticks. Qed.

Lemma round_paced prev t cutoff prev' :
  retention_round prev (tk_mono t) (tk_wall t) (tk_days t) = (PruneBefore cutoff, prev') →
  cutoff = cutoff_at t ∧ tk_days t ≠ 0 ∧ paced prev t.
Proof.
  unfold retention_round, paced. intros Hr. destruct (Z.ltb_spec 300 (Z.abs match prev with Some (m, w) => num_seconds (tk_wall t - w - (tk_mono t - m)) | None => 0 end)); [done|].
  destruct (Z.eqb_spec (tk_days t) 0); [done|]. injection Hr as <- _. split_and!; [done|done|]. by destruct prev as [[m w]|].
Qed.
Lemma round_reading prev t : (retention_round prev (tk_mono t) (tk_wall t) (tk_days t)).2 = Some (reading t).
Proof. done. Qed.

(** Claim C18. A record that retention removed was
    older than the period at one of its rounds, by the clock of that round, which
    had kept pace with the time that passed since the round before; and keeping
    records without limit at a round removes none. *)
Theorem retention_trusts_the_clock ticks prev s :
  reachable s → last_seq s + used_ticks ticks < i64_max → spares (due ticks prev) s (run_retention ticks prev s).2.
Proof.
  revert prev s. induction ticks as [|t ticks IH]; intros prev s Hr Hb; [by left|].
  simpl in Hb. assert (0 ≤ used_ticks ticks).
  { clear. induction ticks as [|t ticks IH]; simpl; [done|]. pose proof (volume_nonneg (tk_others t)). pose proof (used_nonneg (tk_rounds t)). lia. }
  pose proof (volume_nonneg (tk_others t)). pose proof (used_nonneg (tk_rounds t)).
  destruct (others_spare (due (t :: ticks) prev) (tk_others t) s) as (Hr1 & Hb1 & Hs1); [done|lia|].
  eapply spares_trans; [exact Hs1|]. cbn [run_retention].
  assert (Hlater : ∀ s1, reachable s1 → last_seq s1 + used_ticks ticks < i64_max →
    spares (due (t :: ticks) prev) s1 (run_retention ticks (Some (reading t)) s1).2).
  { intros s1 Hs Hl r Hin. destruct (IH (Some (reading t)) s1 Hs Hl r Hin); auto using due_later. }
  pose proof (round_reading prev t) as Hread. destruct (retention_round _ _ _ _) as [act prev'] eqn:Hround. simpl in Hread. subst prev'.
  destruct act as [|n|cutoff]; [apply Hlater; [done|lia]..|].
  apply round_paced in Hround as (-> & Hd & Hp).
  destruct (pass_spares (cutoff_at t) (tk_rounds t) (append_all (tk_others t) s)) as (Hr2 & Hb2 & Hs2); [done|lia|].
  assert (Hs2' : spares (due (t :: ticks) prev) (append_all (tk_others t) s) (prune_pass (tk_rounds t) (cutoff_at t) (append_all (tk_others t) s)).2).
  { intros r Hin. destruct (Hs2 r Hin); auto using due_now. }
  destruct (prune_pass _ _ _) as [[[| |e]|] s2]; cbn [snd] in *; [|done| |done];
    (eapply spares_trans; [exact Hs2'|]; apply Hlater; [done|lia]).
Qed.
End Facts.

(** ** Running the model *)
Section RetentionWitnesses.
Import Toy.

(** Ten days after the epoch, with a period of one day. *)
Definition today : Z := 900000000000000.
Definition a_day : Z := 86400000000000.
Definition one_round (now : Z) : Round := mkRound false up now [(up, [closed (now + 1)])].
Definition aged : AuditStore := (append up new_store [closed (today - 2 * a_day); closed (today - a_day / 2)]).2.
Lemma aged_reachable : reachable aged.
Proof. eapply rtc_once, step_append. vm_compute. reflexivity. Qed.

Definition times (s : AuditStore) : list string := (fun r => c_ts (r_columns r)) <$> audit (conn s).

Lemma retention_pass_completes_witness :
  times aged = ["727200000000000"; "856800000000000"] ∧
  ∃ e s', prune_pass [one_round today] (today - a_day) aged = (Some e, s') ∧ trimmed (today - a_day) aged s' ∧
    (e = Finished → settled (today - a_day) (audit (conn s')) ∨
       ∃ r, r ∈ [one_round today] ∧ ahead (ro_now r) (audit (conn s'))).
Proof.
  split; [vm_compute; reflexivity|]. apply (retention_pass_completes (today - a_day) [one_round today] aged aged_reachable).
  - vm_compute. reflexivity.
  - repeat constructor.
  - vm_compute. reflexivity.
Defined.

(** An hour later; and the clock set forward by ten days in between. *)
Definition hour : Z := 3600 * NANOS.
Definition tick (wall : Z) (h : Z) : Tick := mkTick [] (h * hour) wall 1 [one_round wall].
Definition kept_times (ticks : list Tick) : list AuditEvent * list string :=
  let r := run_retention ticks None aged in (r.1, times r.2).

Lemma retention_trusts_the_clock_witness :
  kept_times [tick today 1] = ([], ["856800000000000"; "900000000000000"]) ∧
  spares (due [tick today 1] None) aged (run_retention [tick today 1] None aged).2.
Proof.
  split; [vm_compute; reflexivity|].
  apply (retention_trusts_the_clock [tick today 1] None aged aged_reachable). vm_compute. reflexivity.
Defined.

(** The round after a jump is skipped, the one after that trusts the clock: all
    records but the newest are gone an hour later. *)
Definition early : AuditStore := (append up new_store [closed (today - 300 * NANOS); closed (today - 2 * NANOS); closed (today - NANOS)]).2.
Example jump_trusted_next_round :
  let jumped := [mkTick [] 0 today 1 [one_round today]; mkTick [] hour (today + hour + a_day + 600 * NANOS) 1 [];
                 mkTick [] (2 * hour) (today + 2 * hour + a_day + 600 * NANOS) 1 [one_round (today + 2 * hour + a_day + 600 * NANOS)]] in
  (run_retention jumped None early).1 = [ClockJumped 87000] ∧
  times (run_retention jumped None early).2 = ["899999000000000"; "994200000000000"].
Proof. cbv zeta. split; vm_compute; reflexivity. Qed.

(** A clock set forward while the gateway does not run is not noticed. *)
Example jump_before_start_unnoticed :
  let started := [mkTick [] 0 (today + a_day + 600 * NANOS) 1 [one_round (today + a_day + 600 * NANOS)]] in
  (run_retention started None early).1 = [] ∧ length (audit (conn (run_retention started None early).2)) = 2%nat.
Proof. cbv zeta. split; vm_compute; reflexivity. Qed.
End RetentionWitnesses.
