(* ===== verification/Opc.v ===== *)
(** The OPC UA messages the relay handles, as far as its code looks at them.

    The types come from the OPC UA stack: a value the code only prints is its
    text, a part it only passes on is an opaque [Blob]. What the code calls on
    them is the class [Opc]. *)

From Stdlib Require Import SpecFloat.
From S2P Require Import Prelude Event Net.

(** Bytes or structures the relay passes on without looking inside. *)
Definition Blob : Type := string.

(** The status codes the relay names; all others are [Status]. *)
Inductive StatusCode : Type :=
| BadUnexpectedError | BadInternalError | BadTimeout | BadServerNotConnected | BadNotConnected
| BadServerHalted | BadServiceUnsupported | BadNonceInvalid | BadProtocolVersionUnsupported
| BadSecurityChecksFailed | BadSecurityPolicyRejected | BadSecurityModeRejected
| BadSecurityModeInsufficient | BadSecureChannelIdInvalid | BadSecureChannelTokenUnknown
| BadCertificateInvalid | BadCertificateUntrusted | BadCertificateUriInvalid
| BadApplicationSignatureInvalid | BadIdentityTokenInvalid | BadIdentityTokenRejected
| BadSessionIdInvalid | BadCommunicationError | BadTcpMessageTooLarge | BadTcpMessageTypeInvalid
| BadDecodingError | BadRequestTooLarge | BadResponseTooLarge | BadConnectionClosed
| BadSequenceNumberInvalid | BadTcpEndpointUrlInvalid
| Status (code : Z).

#[export] Instance StatusCode_eq_dec : EqDecision StatusCode.
Proof. solve_decision. Defined.

Inductive SecurityMode : Type := ModeInvalid | ModeNone | ModeSign | ModeSignAndEncrypt.
#[export] Instance SecurityMode_eq_dec : EqDecision SecurityMode.
Proof. solve_decision. Defined.

Inductive UserTokenType : Type := TokenAnonymous | TokenUserName | TokenCertificate | TokenIssued.
#[export] Instance UserTokenType_eq_dec : EqDecision UserTokenType.
Proof. solve_decision. Defined.

(** What the relay uses of the stack. *)
Class Opc : Type := {
  opc_nodes :: NodeIds;
  (** [StatusCode::is_good] and [is_bad] of codes without a name here *)
  code_good : Z → bool;
  code_bad : Z → bool;
  code_not_both n : code_good n = true → code_bad n = false;
  status_str : StatusCode → string;
  (** [AttributeId::from_u32] with its [Debug] name, and two of the ids *)
  attribute_debug : Z → option string;
  attr_Value : Z;
  attr_DisplayName : Z;
  (** [SecurityPolicy] *)
  Policy : Type;
  Policy_eq_dec :: EqDecision Policy;
  PolicyNone : Policy;
  PolicyUnknown : Policy;
  policy_supported : Policy → bool;
  policy_of_uri : string → Policy;
  policy_str : Policy → string;
  (** [X509] *)
  Cert : Type;
  cert_of_bytes : Blob → option Cert;
  thumbprint : Cert → string;
  subject_name : Cert → string;
  (** [hex::encode] and [serde_json::Value::to_string] *)
  hex_encode : string → string;
  json_str : json → string;
}.

Section Messages.
Context `{Opc}.

(** The named codes are all errors, as their names say. *)
Definition is_good (s : StatusCode) : bool := match s with Status n => code_good n | _ => false end.
Definition is_bad (s : StatusCode) : bool := match s with Status n => code_bad n | _ => true end.

Lemma good_not_bad s : is_good s = true → is_bad s = false.
Proof. destruct s; simpl; try done. apply code_not_both. Qed.

(** ** Values

    [Variant], with the values the code prints as their text; a [Float] is
    the [f64] it widens to. *)
Inductive Variant : Type :=
| VEmpty
| VBoolean (b : bool)
(** SByte to UInt64, with the name of the type *)
| VInteger (type_name : string) (n : Z)
(** Float and Double: the bits of the [f64], and its text *)
| VFloat (type_name : string) (bits : Z) (text : string)
| VString (s : option string)
(** DateTime, Guid, StatusCode, DiagnosticInfo: printed as they are *)
| VPlain (type_name : string) (text : string)
(** XmlElement, QualifiedName, LocalizedText, NodeId, ExpandedNodeId *)
| VText (type_name : string) (text : string)
| VByteString (b : option string)
| VExtensionObject (e : ExtensionObject)
| VVariant (v : Variant)
| VDataValue (v : option Variant)
| VArray (value_type : string) (dimensions : option (list Z)) (values : list Variant)
(** What the code sees of an extension object: its type id, and a body that
    is null, raw bytes, or a decoded structure with its [Debug] text. *)
with ExtensionObject : Type :=
| EoNull
| EoRaw (type_id : string) (body : option string)
| EoBody (type_id : string) (debug : string).

Record DataValue : Type := mkDataValue {
  dv_value : option Variant;
  dv_status : option StatusCode;
  dv_source_timestamp : option string;
  dv_server_timestamp : option string;
}.

(** ** Requests *)
Record RequestHeader : Type := mkRequestHeader {
  authentication_token : NodeId;
  request_handle : Z;
  timeout_hint : Z;
}.

(** [NumericRange]: [None], or a range with its text. *)
Record WriteValue : Type := mkWriteValue {
  w_node_id : NodeId;
  w_attribute_id : Z;
  w_index_range : option string;
  w_value : DataValue;
}.

Record ReadValueId : Type := mkReadValueId {
  rv_node_id : NodeId;
  rv_attribute_id : Z;
  rv_index_range : option string;
}.

Record CallMethod : Type := mkCallMethod {
  c_object_id : NodeId;
  c_method_id : NodeId;
  c_input_arguments : option (list Variant);
}.

(** A history update: one of the six known details with its node, or the
    type id of another structure. *)
Inductive HistoryDetails : Type :=
| KnownDetails (name : string) (node : NodeId)
| UnknownDetails (type_id : string).

Record ApplicationDescription : Type := mkApplicationDescription {
  ad_application_uri : string;
  ad_product_uri : string;
  ad_application_name : string;
  ad_is_server : bool;
  ad_discovery_urls : option (list string);
}.

Record CreateSessionRequest : Type := mkCreateSessionRequest {
  cs_header : RequestHeader;
  cs_client_description : ApplicationDescription;
  cs_server_uri : string;
  cs_endpoint_url : string;
  cs_session_name : string;
  cs_client_nonce : Blob;
  cs_client_certificate : Blob;
  cs_requested_session_timeout : spec_float;
  cs_max_response_message_size : Z;
}.

Record UserNameToken : Type := mkUserNameToken {
  un_policy_id : string;
  un_user_name : string;
  un_password : Blob;
  un_encryption_algorithm : string;
}.

(** The kinds of user identity token the relay tells apart. *)
Inductive IdentityToken : Type :=
| ItNull
| ItAnonymous (policy_id : string)
| ItUserName (t : UserNameToken)
| ItX509 (certificate_data : Blob)
| ItIssued
| ItOther.

(** A signature: algorithm and bytes, or null. *)
Definition Signature : Type := option Blob.

Record ActivateSessionRequest : Type := mkActivateSessionRequest {
  as_header : RequestHeader;
  as_client_signature : Signature;
  as_locale_ids : list string;
  as_user_identity_token : IdentityToken;
  as_user_token_signature : Signature;
}.

Record OpenSecureChannelRequest : Type := mkOpenSecureChannelRequest {
  os_protocol_version : Z;
  (** Renew, not Issue *)
  os_renew : bool;
  os_security_mode : SecurityMode;
  os_client_nonce : Blob;
  os_requested_lifetime : Z;
}.

Inductive RequestMessage : Type :=
| RqWrite (h : RequestHeader) (nodes_to_write : option (list WriteValue))
| RqCall (h : RequestHeader) (methods_to_call : option (list CallMethod))
| RqHistoryUpdate (h : RequestHeader) (details : option (list HistoryDetails))
(** requested id and parent; source and target: as text *)
| RqAddNodes (h : RequestHeader) (nodes_to_add : option (list (string * string)))
| RqDeleteNodes (h : RequestHeader) (nodes_to_delete : option (list NodeId))
| RqAddReferences (h : RequestHeader) (references_to_add : option (list (string * string)))
| RqDeleteReferences (h : RequestHeader) (references_to_delete : option (list (string * string)))
| RqTransferSubscriptions (h : RequestHeader) (subscription_ids : option (list Z))
| RqRead (h : RequestHeader) (nodes_to_read : option (list ReadValueId))
| RqCreateSession (r : CreateSessionRequest)
| RqActivateSession (r : ActivateSessionRequest)
| RqCloseSession (h : RequestHeader)
| RqOpenSecureChannel (h : RequestHeader) (o : OpenSecureChannelRequest)
| RqCloseSecureChannel (h : RequestHeader)
| RqGetEndpoints (h : RequestHeader) (endpoint_url : string)
| RqFindServers (h : RequestHeader) (endpoint_url : string)
| RqFindServersOnNetwork (h : RequestHeader)
| RqRegisterServer (h : RequestHeader)
| RqRegisterServer2 (h : RequestHeader)
| RqOther (h : RequestHeader) (body : Blob).

Definition request_header (r : RequestMessage) : RequestHeader :=
  match r with
  | RqWrite h _ | RqCall h _ | RqHistoryUpdate h _ | RqAddNodes h _ | RqDeleteNodes h _
  | RqAddReferences h _ | RqDeleteReferences h _ | RqTransferSubscriptions h _ | RqRead h _
  | RqCloseSession h | RqOpenSecureChannel h _ | RqCloseSecureChannel h | RqGetEndpoints h _
  | RqFindServers h _ | RqFindServersOnNetwork h | RqRegisterServer h | RqRegisterServer2 h
  | RqOther h _ => h
  | RqCreateSession r => cs_header r
  | RqActivateSession r => as_header r
  end.

(** ** Endpoints *)
Record UserTokenPolicy : Type := mkUserTokenPolicy {
  policy_id : string;
  token_type : UserTokenType;
  token_security_policy_uri : string;
}.

Record EndpointDescription : Type := mkEndpointDescription {
  ep_url : string;
  ep_server : ApplicationDescription;
  ep_server_certificate : Blob;
  security_mode : SecurityMode;
  security_policy_uri : string;
  user_identity_tokens : option (list UserTokenPolicy);
  transport_profile_uri : string;
  security_level : Z;
}.

Definition ep_policy (e : EndpointDescription) : Policy := policy_of_uri (security_policy_uri e).

(** ** Responses *)
Record CreateSessionResponse : Type := mkCreateSessionResponse {
  cr_service_result : StatusCode;
  cr_session_id : string;
  cr_authentication_token : NodeId;
  (** an [f64], in milliseconds *)
  cr_revised_session_timeout : spec_float;
  cr_server_nonce : Blob;
  cr_server_certificate : Blob;
  cr_server_endpoints : option (list EndpointDescription);
  cr_server_signature : Signature;
  cr_max_request_message_size : Z;
}.

Inductive ResponseMessage : Type :=
| RsWrite (sr : StatusCode) (results : option (list StatusCode))
| RsCall (sr : StatusCode) (results : option (list StatusCode))
| RsHistoryUpdate (sr : StatusCode) (results : option (list StatusCode))
| RsAddNodes (sr : StatusCode) (results : option (list StatusCode))
| RsDeleteNodes (sr : StatusCode) (results : option (list StatusCode))
| RsAddReferences (sr : StatusCode) (results : option (list StatusCode))
| RsDeleteReferences (sr : StatusCode) (results : option (list StatusCode))
| RsTransferSubscriptions (sr : StatusCode) (results : option (list StatusCode))
| RsRead (sr : StatusCode) (results : option (list DataValue))
| RsCreateSession (r : CreateSessionResponse)
| RsActivateSession (sr : StatusCode) (server_nonce : Blob) (results : Blob)
| RsServiceFault (handle : Z) (sr : StatusCode)
| RsOther (sr : StatusCode) (body : Blob)
(** a token (channel, token id, lifetime in ms) and the server's nonce *)
| RsOpenSecureChannel (sr : StatusCode) (token : Z * Z * Z) (server_nonce : Blob)
| RsGetEndpoints (sr : StatusCode) (endpoints : option (list EndpointDescription))
| RsFindServers (sr : StatusCode) (servers : option (list ApplicationDescription)).

Definition service_result (r : ResponseMessage) : StatusCode :=
  match r with
  | RsWrite sr _ | RsCall sr _ | RsHistoryUpdate sr _ | RsAddNodes sr _ | RsDeleteNodes sr _
  | RsAddReferences sr _ | RsDeleteReferences sr _ | RsTransferSubscriptions sr _ | RsRead sr _
  | RsActivateSession sr _ _ | RsServiceFault _ sr | RsOther sr _ | RsOpenSecureChannel sr _ _
  | RsGetEndpoints sr _ | RsFindServers sr _ => sr
  | RsCreateSession r => cr_service_result r
  end.

(** [fault]: the gateway's own error answer. *)
Definition fault (handle : Z) (status : StatusCode) : ResponseMessage := RsServiceFault handle status.
End Messages.

(** A stack with text node ids, to run the model with: codes below 100 are
    good, other codes bad; policies are their names. *)
Module ToyOpc.
Import ToyNodes.
Lemma codes_not_both n : (n <? 100) = true → (100 <=? n) = false.
Proof. intros Hn. apply Z.ltb_lt in Hn. apply Z.leb_gt. lia. Qed.

Definition toy_status_str (s : StatusCode) : string :=
  match s with
  | Status n => if n =? 0 then "Good" else "Status" +:+ pretty n
  | BadInternalError => "BadInternalError"
  | _ => "Bad"
  end.

#[export] Instance opc : Opc := {
  opc_nodes := text_nodes;
  code_good n := n <? 100;
  code_bad n := 100 <=? n;
  code_not_both := codes_not_both;
  status_str := toy_status_str;
  attribute_debug id := if id =? 13 then Some "Value" else None;
  attr_Value := 13;
  attr_DisplayName := 4;
  Policy := string;
  Policy_eq_dec := String.eq_dec;
  PolicyNone := "None";
  PolicyUnknown := "Unknown";
  policy_supported _ := true;
  policy_of_uri s := s;
  policy_str s := s;
  Cert := string;
  cert_of_bytes b := Some b;
  thumbprint c := c;
  subject_name c := c;
  hex_encode s := s;
  json_str j := match j with JStr s => s | _ => EmptyString end;
}.
End ToyOpc.
