(* ===== verification/AuditMap.v ===== *)
(** From change requests to audit events ([src/src/relay/audit_map.rs]):
    [plan] captures a request before it is forwarded, [events] combines the
    plan with the response.

    Rendering a value can panic (see [truncate]); a function that renders one
    returns [None] then. *)

From S2P Require Import Prelude Event Net Opc.

Definition MAX_BYTES : nat := Z.to_nat 4096.
Definition MAX_ELEMENTS : nat := 256.
Definition MAX_VALUE_JSON : Z := 64 * 1024.
Definition MAX_FAILED_ITEMS : nat := 100.
Definition NAME_CACHE_SIZE : Z := 100000.

(** [String::truncate], which panics off a char boundary. *)
Definition truncate (n : nat) (s : string) : option string :=
  match String.get n s with
  | Some a => if is_char_start a then Some (substring 0 n s) else None
  | None => Some s
  end.

(** An [f64] that is neither infinite nor NaN. *)
Definition f64_finite (bits : Z) : bool :=
  negb (Z.land (Z.shiftr bits 52) 2047 =? 2047).

Section AuditMap.
Context `{Opc}.

(** ** Rendering values *)
Definition text (s : string) : json :=
  if MAX_TEXT <? chars_count s then
    JObj [("text", JStr (clip s MAX_TEXT)); ("length", JInt (chars_count s)); ("truncated", JBool true)]
  else JStr s.

Definition float (bits : Z) (txt : string) : json :=
  if f64_finite bits then JFloat bits else JStr txt.

Definition bytes (b : string) : json :=
  if (MAX_BYTES <? String.length b)%nat then
    JObj [("hex", JStr (hex_encode (substring 0 MAX_BYTES b)));
          ("length", JInt (String.length b)); ("truncated", JBool true)]
  else JObj [("hex", JStr (hex_encode b))].

Definition extension_object (e : ExtensionObject) : option json :=
  match e with
  | EoNull => Some JNull
  | EoRaw type_id body =>
      Some (JObj [("encoding_id", JStr type_id);
                  ("body", match body with Some b => bytes b | None => JNull end)])
  | EoBody type_id debug =>
      body ← (if (MAX_BYTES <? String.length debug)%nat
              then (fun t => t +:+ "…") <$> truncate MAX_BYTES debug
              else Some debug);
      Some (JObj [("encoding_id", JStr type_id); ("body", JStr body)])
  end.

Definition array_json (dimensions : option (list Z)) (len : Z) (values : list json) : json :=
  let truncated := Z.of_nat MAX_ELEMENTS <? len in
  match dimensions with
  | Some ((_ :: _ :: _) as dims) =>
      JObj [("dimensions", JArr (JInt <$> dims)); ("values", JArr values);
            ("truncated", JBool truncated)]
  | _ =>
      if truncated then
        JObj [("values", JArr values); ("length", JInt len); ("truncated", JBool true)]
      else JArr values
  end.

Fixpoint json_value (v : Variant) : option json :=
  match v with
  | VEmpty => Some JNull
  | VBoolean b => Some (JBool b)
  | VInteger _ n => Some (JInt n)
  | VFloat _ bits txt => Some (float bits txt)
  | VString None => Some JNull
  | VString (Some s) => Some (text s)
  | VPlain _ txt => Some (JStr txt)
  | VText _ txt => Some (text txt)
  | VByteString None => Some JNull
  | VByteString (Some b) => Some (bytes b)
  | VExtensionObject e => extension_object e
  | VVariant v => json_value v
  | VDataValue None => Some JNull
  | VDataValue (Some v) => json_value v
  | VArray _ dimensions values =>
      rendered ← mapM (M := option) id (take MAX_ELEMENTS (map json_value values));
      Some (array_json dimensions (length values) rendered)
  end.

(** The name of the value's type; [scalar_type_id] is [None] only for an
    array. *)
Definition data_type_of (v : Variant) : string :=
  match v with
  | VEmpty => "Null"
  | VArray value_type _ _ => value_type +:+ "[]"
  | VBoolean _ => "Boolean"
  | VInteger n _ | VFloat n _ _ | VPlain n _ | VText n _ => n
  | VString _ => "String"
  | VByteString _ => "ByteString"
  | VExtensionObject _ => "ExtensionObject"
  | VVariant _ => "Variant"
  | VDataValue _ => "DataValue"
  end.

(** Renders a value for the audit trail. *)
Definition audit_value (v : Variant) : option AuditValue :=
  value ← json_value v;
  let rendered := json_str value in
  Some (mkAuditValue (data_type_of v)
    (if MAX_VALUE_JSON <? String.length rendered then
       JObj [("preview", JStr (clip rendered MAX_TEXT));
             ("length", JInt (String.length rendered)); ("truncated", JBool true)]
     else value)).

(** ** Plans *)
Record WriteItem : Type := mkWriteItem {
  index : nat;
  node : NodeId;
  attribute_id : Z;
  range : option string;
  wi_node_id : string;
  attribute : string;
  index_range : option string;
  new_value : AuditValue;
  written_status : option string;
  source_timestamp : option string;
  server_timestamp : option string;
  old_value : option AuditValue;
  display_name : option string;
}.

Record CallItem : Type := mkCallItem {
  method : NodeId;
  object_id : string;
  method_id : string;
  input_arguments : list AuditValue;
  ci_display_name : option string;
}.

Record HistoryItem : Type := mkHistoryItem { hi_node_id : string; details : string }.

Inductive AuditPlan : Type :=
| PlanWrite (handle : Z) (items : list WriteItem)
| PlanCall (handle : Z) (items : list CallItem)
| PlanHistoryUpdate (handle : Z) (items : list HistoryItem)
| PlanNodeManagement (handle : Z) (service : string) (nodes : list string)
| PlanTransferSubscriptions (handle : Z) (ids : list Z).

(** Whether a request is audited. *)
Definition is_audited (r : RequestMessage) : bool :=
  match r with
  | RqWrite _ _ | RqCall _ _ | RqHistoryUpdate _ _ | RqAddNodes _ _ | RqDeleteNodes _ _
  | RqAddReferences _ _ | RqDeleteReferences _ _ | RqTransferSubscriptions _ _ => true
  | _ => false
  end.

Definition attribute_name (id : Z) : string :=
  match attribute_debug id with Some n => n | None => "Attribute(" +:+ pretty id +:+ ")" end.

Definition history_item (d : HistoryDetails) : HistoryItem :=
  match d with
  | KnownDetails name n => mkHistoryItem (clip (node_to_str n) MAX_TEXT) name
  | UnknownDetails type_id => mkHistoryItem EmptyString ("unknown (" +:+ type_id +:+ ")")
  end.

Definition write_item (index : nat) (w : WriteValue) : option WriteItem :=
  let v := w_value w in
  new_value ← audit_value (default VEmpty (dv_value v));
  Some (mkWriteItem index (w_node_id w) (w_attribute_id w) (w_index_range w)
    (clip (node_to_str (w_node_id w)) MAX_TEXT) (attribute_name (w_attribute_id w))
    (w_index_range w) new_value (status_str <$> dv_status v) (dv_source_timestamp v)
    (dv_server_timestamp v) None None).

Fixpoint write_items (index : nat) (ws : list WriteValue) : option (list WriteItem) :=
  match ws with
  | [] => Some []
  | w :: ws => i ← write_item index w; rest ← write_items (S index) ws; Some (i :: rest)
  end.

Definition call_item (c : CallMethod) : option CallItem :=
  args ← mapM audit_value (default [] (c_input_arguments c));
  Some (mkCallItem (c_method_id c) (clip (node_to_str (c_object_id c)) MAX_TEXT)
    (clip (node_to_str (c_method_id c)) MAX_TEXT) args None).

(** A plan for requests that change the server, [None] for all others. *)
Definition plan (request : RequestMessage) : option (option AuditPlan) :=
  let handle := request_handle (request_header request) in
  match request with
  | RqWrite _ ws => items ← write_items 0 (default [] ws); Some (Some (PlanWrite handle items))
  | RqCall _ cs => items ← mapM call_item (default [] cs); Some (Some (PlanCall handle items))
  | RqHistoryUpdate _ ds =>
      Some (Some (PlanHistoryUpdate handle (history_item <$> default [] ds)))
  | RqAddNodes _ ns =>
      Some (Some (PlanNodeManagement handle "AddNodes"
        ((fun n => clip (n.1 +:+ " (parent " +:+ n.2 +:+ ")") MAX_TEXT) <$> default [] ns)))
  | RqDeleteNodes _ ns =>
      Some (Some (PlanNodeManagement handle "DeleteNodes"
        ((fun n => clip (node_to_str n) MAX_TEXT) <$> default [] ns)))
  | RqAddReferences _ rs =>
      Some (Some (PlanNodeManagement handle "AddReferences"
        ((fun r => clip (r.1 +:+ " -> " +:+ r.2) MAX_TEXT) <$> default [] rs)))
  | RqDeleteReferences _ rs =>
      Some (Some (PlanNodeManagement handle "DeleteReferences"
        ((fun r => clip (r.1 +:+ " -> " +:+ r.2) MAX_TEXT) <$> default [] rs)))
  | RqTransferSubscriptions _ ids =>
      Some (Some (PlanTransferSubscriptions handle (default [] ids)))
  | _ => Some None
  end.

(** ** Outcomes *)

(** The status of item [i]. *)
Definition item_status (results : option (list StatusCode)) (i : nat)
    (service_result : StatusCode) (unknown : option string) : string :=
  match unknown with
  | Some u => u
  | None =>
      if is_bad service_result then status_str service_result
      else status_str (default BadUnexpectedError (r ← results; r !! i))
  end.

(** The display names already known. *)
Definition NameCache : Type := gmap NodeId string.

Definition cache_insert (names : NameCache) (n : NodeId) (name : string) : NameCache :=
  <[n := name]> (if NAME_CACHE_SIZE <=? size names then ∅ else names).

Record IgnoredWrite : Type := mkIgnoredWrite {
  iw_node_id : string;
  iw_display_name : option string;
  iw_value : AuditValue;
  iw_status : string;
}.

Definition write_results (response : ResponseMessage) : option (list StatusCode) :=
  match response with RsWrite _ results => results | _ => None end.

(** [IgnoredItems::outcomes] *)
Definition outcomes (items : list WriteItem) (response : ResponseMessage)
    (unknown : option StatusCode) (names : NameCache) : list IgnoredWrite :=
  let unknown := (fun s => "Uncertain: no response (" +:+ status_str s +:+ ")") <$> unknown in
  (fun w => mkIgnoredWrite (wi_node_id w) (names !! node w) (new_value w)
     (item_status (write_results response) (index w) (service_result response) unknown)) <$> items.

(** [AuditPlan::take_ignored]: what is left, and what was taken. *)
Definition ignores (ignored : NodeId → bool) (w : WriteItem) : bool :=
  (attribute_id w =? attr_Value) && ignored (node w).

Definition take_ignored (ignored : NodeId → bool) (p : AuditPlan)
    : AuditPlan * option (list WriteItem) :=
  match p with
  | PlanWrite h items =>
      let taken := List.filter (ignores ignored) items in
      let kept := List.filter (fun w => negb (ignores ignored w)) items in
      (PlanWrite h kept, match taken with [] => None | _ => Some taken end)
  | _ => (p, None)
  end.

Definition is_empty (p : AuditPlan) : bool :=
  match p with PlanWrite _ [] => true | _ => false end.

(** ** Reads before the change *)
Inductive PreReadKind : Type := OldValue | Name.

Record PreRead : Type := mkPreRead {
  nodes_to_read : list ReadValueId;
  targets : list (nat * PreReadKind);
}.

Definition no_reads : PreRead := mkPreRead [] [].

Definition add_read (pre : PreRead) (r : ReadValueId) (i : nat) (k : PreReadKind) : PreRead :=
  mkPreRead (nodes_to_read pre ++ [r]) (targets pre ++ [(i, k)]).

(** [want_name]: the cached name, or a read of it. *)
Definition want_name (names : NameCache) (pre : PreRead) (i : nat) (n : NodeId)
    (name : option string) : PreRead * option string :=
  match names !! n with
  | Some cached => (pre, Some cached)
  | None => (add_read pre (mkReadValueId n attr_DisplayName None) i Name, name)
  end.

Definition set_display_name (w : WriteItem) (name : option string) : WriteItem :=
  mkWriteItem (index w) (node w) (attribute_id w) (range w) (wi_node_id w) (attribute w)
    (index_range w) (new_value w) (written_status w) (source_timestamp w) (server_timestamp w)
    (old_value w) name.

Definition set_old_value (w : WriteItem) (v : option AuditValue) : WriteItem :=
  mkWriteItem (index w) (node w) (attribute_id w) (range w) (wi_node_id w) (attribute w)
    (index_range w) (new_value w) (written_status w) (source_timestamp w) (server_timestamp w)
    v (display_name w).

Definition set_call_name (c : CallItem) (name : option string) : CallItem :=
  mkCallItem (method c) (object_id c) (method_id c) (input_arguments c) name.

Fixpoint pre_read_writes (old_values : bool) (names : NameCache) (pre : PreRead) (i : nat)
    (items : list WriteItem) : PreRead * list WriteItem :=
  match items with
  | [] => (pre, [])
  | w :: items =>
      let pre := if old_values
                 then add_read pre (mkReadValueId (node w) (attribute_id w) (range w)) i OldValue
                 else pre in
      let (pre, name) := want_name names pre i (node w) (display_name w) in
      let (pre, rest) := pre_read_writes old_values names pre (S i) items in
      (pre, set_display_name w name :: rest)
  end.

Fixpoint pre_read_calls (names : NameCache) (pre : PreRead) (i : nat) (items : list CallItem)
    : PreRead * list CallItem :=
  match items with
  | [] => (pre, [])
  | c :: items =>
      let (pre, name) := want_name names pre i (method c) (ci_display_name c) in
      let (pre, rest) := pre_read_calls names pre (S i) items in
      (pre, set_call_name c name :: rest)
  end.

Definition pre_read (old_values : bool) (names : NameCache) (p : AuditPlan)
    : AuditPlan * option PreRead :=
  let '(p, pre) :=
    match p with
    | PlanWrite h items =>
        let (pre, items) := pre_read_writes old_values names no_reads 0 items in
        (PlanWrite h items, pre)
    | PlanCall h items =>
        let (pre, items) := pre_read_calls names no_reads 0 items in (PlanCall h items, pre)
    | _ => (p, no_reads)
    end in
  (p, match nodes_to_read pre with [] => None | _ => Some pre end).

(** The text of a [LocalizedText] value. *)
Definition localized_text (v : Variant) : option string :=
  match v with
  | VText t txt => if String.eqb t "LocalizedText" then Some txt else None
  | _ => None
  end.

(** One result of the read. [None]: the task panics (an item that is not
    there, or a value that cannot be rendered). *)
Definition apply_result (p : AuditPlan) (names : NameCache) (i : nat) (k : PreReadKind)
    (result : DataValue) : option (AuditPlan * NameCache) :=
  if negb (match dv_status result with None => true | Some s => is_good s end) then Some (p, names)
  else match dv_value result with
  | None => Some (p, names)
  | Some v =>
      match k, p with
      | OldValue, PlanWrite h items =>
          old ← audit_value v;
          w ← items !! i;
          Some (PlanWrite h (<[i := set_old_value w (Some old)]> items), names)
      | OldValue, _ => Some (p, names)
      | Name, _ =>
          match localized_text v with
          | None => Some (p, names)
          | Some txt =>
              let name := clip txt MAX_NAME in
              match p with
              | PlanWrite h items =>
                  w ← items !! i;
                  Some (PlanWrite h (<[i := set_display_name w (Some name)]> items),
                        cache_insert names (node w) name)
              | PlanCall h items =>
                  c ← items !! i;
                  Some (PlanCall h (<[i := set_call_name c (Some name)]> items),
                        cache_insert names (method c) name)
              | _ => Some (p, names)
              end
          end
      end
  end.

Fixpoint apply_results (p : AuditPlan) (names : NameCache) (l : list ((nat * PreReadKind) * DataValue))
    : option (AuditPlan * NameCache) :=
  match l with
  | [] => Some (p, names)
  | ((i, k), r) :: l => '(p, names) ← apply_result p names i k r; apply_results p names l
  end.

Definition apply_pre_read (p : AuditPlan) (pre : PreRead) (results : list DataValue)
    (names : NameCache) : option (AuditPlan * NameCache) :=
  apply_results p names (zip (targets pre) results).

(** ** Events *)
Definition service (p : AuditPlan) : string :=
  match p with
  | PlanWrite _ _ => "Write"
  | PlanCall _ _ => "Call"
  | PlanHistoryUpdate _ _ => "HistoryUpdate"
  | PlanNodeManagement _ s _ => s
  | PlanTransferSubscriptions _ _ => "TransferSubscriptions"
  end.

Definition value_json (v : AuditValue) : json :=
  JObj [("data_type", JStr (data_type v)); ("value", value v)].

(** The record committed before forwarding in fail-closed mode. *)
Definition intent (p : AuditPlan) : AuditEvent :=
  let '(h, node_ids, ds) :=
    match p with
    | PlanWrite h items =>
        (h, wi_node_id <$> items,
         (fun w => JObj [("attribute", JStr (attribute w)); ("new_value", value_json (new_value w))])
           <$> items)
    | PlanCall h items =>
        (h, method_id <$> items,
         (fun c => JObj [("object_id", JStr (object_id c));
                         ("input_arguments", JArr (value_json <$> input_arguments c))]) <$> items)
    | PlanHistoryUpdate h items =>
        (h, hi_node_id <$> items, (fun i => JObj [("details", JStr (details i))]) <$> items)
    | PlanNodeManagement h _ nodes => (h, nodes, [])
    | PlanTransferSubscriptions h ids => (h, (fun id : Z => pretty id) <$> ids, [])
    end in
  ChangeIntent h (service p) node_ids ds.

Definition plan_results (p : AuditPlan) (response : ResponseMessage) : option (list StatusCode) :=
  match p, response with
  | PlanWrite _ _, RsWrite _ r | PlanCall _ _, RsCall _ r
  | PlanHistoryUpdate _ _, RsHistoryUpdate _ r
  | PlanNodeManagement _ _ _, RsAddNodes _ r | PlanNodeManagement _ _ _, RsDeleteNodes _ r
  | PlanNodeManagement _ _ _, RsAddReferences _ r
  | PlanNodeManagement _ _ _, RsDeleteReferences _ r
  | PlanTransferSubscriptions _ _, RsTransferSubscriptions _ r => r
  | _, _ => None
  end.

Definition events_all (p : AuditPlan) (response : ResponseMessage) (sr : StatusCode)
    (unknown : option string) : list AuditEvent :=
  let results := plan_results p response in
  let st i := item_status results i sr unknown in
  match p with
  | PlanWrite h items =>
      (fun w => Write h (wi_node_id w) (display_name w) (attribute w) (index_range w)
         (old_value w) (new_value w) (written_status w) (source_timestamp w)
         (server_timestamp w) (st (index w))) <$> items
  | PlanCall h items =>
      imap (fun i c => Call h (object_id c) (method_id c) (ci_display_name c)
         (input_arguments c) (st i)) items
  | PlanHistoryUpdate h items =>
      imap (fun i x => HistoryUpdate h (hi_node_id x) (details x) (st i)) items
  | PlanNodeManagement h s nodes => imap (fun i n => NodeManagement h s n (st i)) nodes
  | PlanTransferSubscriptions h ids =>
      let status :=
        if bool_decide (is_Some unknown) || is_bad sr then item_status None 0 sr unknown
        else
          let rs := default [] results in
          if forallb is_good rs && negb (bool_decide (rs = [])) then "Good"
          else join ", " (status_str <$> rs) in
      [SubscriptionsTransferred h ids status]
  end.

Definition events_with (p : AuditPlan) (response : ResponseMessage) (unknown : option string)
    : list AuditEvent :=
  let sr := service_result response in
  let events := events_all p response sr unknown in
  if is_bad sr && bool_decide (unknown = None) && (MAX_FAILED_ITEMS <? length events)%nat
  then take MAX_FAILED_ITEMS events else events.

(** Events for the outcome. *)
Definition events (p : AuditPlan) (response : ResponseMessage) : list AuditEvent :=
  events_with p response None.

(** Events for a request that was sent, but whose response never arrived. *)
Definition events_unknown (p : AuditPlan) (response : ResponseMessage) (status : StatusCode)
    : list AuditEvent :=
  events_with p response
    (Some ("Uncertain: no response (" +:+ status_str status +:+ "); the server may have applied it")).
End AuditMap.

(** ** What the plans guarantee *)
Section AuditMapFacts.
Context `{Opc}.

(** A plan that can be made exists exactly for audited requests. *)
Lemma plan_audited r p : plan r = Some p → is_Some p ↔ is_audited r = true.
Proof.
  destruct r; simpl; intros Hp; try (injection Hp as <-; split; [by intros []|done || by eexists]).
  - destruct (write_items _ _); simpl in Hp; [|done]. injection Hp as <-. by split.
  - destruct (mapM _ _); simpl in Hp; [|done]. injection Hp as <-. by split.
Qed.

Lemma write_items_lookup k ws items :
  write_items k ws = Some items →
  length items = length ws ∧
  ∀ i w, ws !! i = Some w → ∃ it, items !! i = Some it ∧ write_item (k + i) w = Some it.
Proof.
  revert k items. induction ws as [|w ws IH]; intros k items; simpl.
  { intros [= <-]. split; [done|]. intros i x. by rewrite lookup_nil. }
  destruct (write_item k w) as [it|] eqn:Hw; simpl; [|done].
  destruct (write_items (S k) ws) as [rest|] eqn:Hr; simpl; [|done]. intros [= <-].
  destruct (IH _ _ Hr) as [Hl Hi]. split; [simpl; by f_equal|].
  intros [|i] x; simpl.
  - intros [= <-]. exists it. by rewrite Nat.add_0_r.
  - intros Hx. destruct (Hi i x Hx) as (y & Hy & Hyw). exists y. split; [done|].
    by replace (k + S i)%nat with (S k + i)%nat by lia.
Qed.

Lemma write_item_fields k w it :
  write_item k w = Some it →
  index it = k ∧ node it = w_node_id w ∧ attribute_id it = w_attribute_id w ∧
  wi_node_id it = clip (node_to_str (w_node_id w)) MAX_TEXT ∧
  Some (new_value it) = audit_value (default VEmpty (dv_value (w_value w))).
Proof. unfold write_item. destruct (audit_value _); simpl; [|done]. by intros [= <-]. Qed.

(** What the trail says about one write: the node, the value, the outcome. *)
Definition Outcome : Type := string * AuditValue * string.

Definition event_outcome (e : AuditEvent) : option Outcome :=
  match e with
  | Write _ n _ _ _ _ v _ _ _ status => Some (n, v, status)
  | _ => None
  end.

Definition ignored_outcome (w : IgnoredWrite) : Outcome := (iw_node_id w, iw_value w, iw_status w).

(** What it should say: the server's own result for that position. *)
Definition true_outcome (response : ResponseMessage) (i : nat) (w : WriteValue) : option Outcome :=
  v ← audit_value (default VEmpty (dv_value (w_value w)));
  Some (clip (node_to_str (w_node_id w)) MAX_TEXT, v,
        item_status (write_results response) i (service_result response) None).

Lemma filter_partition {A} (f : A → bool) l :
  List.filter (fun x => negb (f x)) l ++ List.filter f l ≡ₚ l.
Proof.
  induction l as [|x l IH]; simpl; [done|]. destruct (f x); simpl.
  - rewrite <- Permutation_middle. by constructor.
  - by constructor.
Qed.

Definition item_outcome (response : ResponseMessage) (w : WriteItem) : Outcome :=
  (wi_node_id w, new_value w,
   item_status (write_results response) (index w) (service_result response) None).

Lemma write_items_outcomes response k ws items :
  write_items k ws = Some items →
  Some <$> (item_outcome response <$> items) = imap (fun i w => true_outcome response (k + i) w) ws.
Proof.
  revert k items. induction ws as [|w ws IH]; intros k items; simpl; [by intros [= <-]|].
  destruct (write_item k w) as [it|] eqn:Hw; simpl; [|done].
  destruct (write_items (S k) ws) as [rest|] eqn:Hr; simpl; [|done]. intros [= <-].
  apply write_item_fields in Hw as (Hi & _ & _ & Hn & Hv). rewrite Nat.add_0_r.
  rewrite !fmap_cons. f_equal.
  - unfold true_outcome, item_outcome. rewrite <- Hv. simpl. by rewrite Hi, Hn.
  - rewrite (IH _ _ Hr). apply imap_ext. intros i x _. simpl. by rewrite Nat.add_succ_r.
Qed.


(** The status an outcome event carries. *)
Definition event_status (e : AuditEvent) : option string :=
  match e with
  | Write _ _ _ _ _ _ _ _ _ _ s | Call _ _ _ _ _ s | HistoryUpdate _ _ _ s
  | NodeManagement _ _ _ s | SubscriptionsTransferred _ _ s => Some s
  | _ => None
  end.

Lemma events_all_status p response sr u e :
  (u ≠ None ∨ is_bad sr = true) → e ∈ events_all p response sr u →
  event_status e = Some (default (status_str sr) u).
Proof.
  intros Hb.
  assert (Hst : ∀ results i, item_status results i sr u = default (status_str sr) u).
  { intros results i. unfold item_status. destruct u; [done|]. destruct Hb as [?|Hb]; [done|].
    by rewrite Hb. }
  destruct p; simpl; rewrite ?list_elem_of_fmap, ?elem_of_lookup_imap; intros He.
  - destruct He as (w & -> & _). simpl. by rewrite Hst.
  - destruct He as (i & c & -> & _). simpl. by rewrite Hst.
  - destruct He as (i & c & -> & _). simpl. by rewrite Hst.
  - destruct He as (i & c & -> & _). simpl. by rewrite Hst.
  - apply list_elem_of_singleton in He as ->. simpl. f_equal.
    replace (bool_decide (is_Some u) || is_bad sr) with true; [apply Hst|].
    destruct u; simpl; [done|]. destruct Hb as [?|Hb]; [done|]. by rewrite Hb.
Qed.

(** A request that failed as a whole is
    recorded with the service's own status on every event and with at most
    MAX_FAILED_ITEMS events, the first ones; one whose response never arrived
    is recorded completely, every event marked as uncertain. *)
Theorem failed_request_sampled p response status :
  (is_bad (service_result response) = true →
   events p response = take MAX_FAILED_ITEMS (events_all p response (service_result response) None) ∧
   (length (events p response) ≤ MAX_FAILED_ITEMS)%nat ∧
   ∀ e, e ∈ events p response → event_status e = Some (status_str (service_result response))) ∧
  (length (events_unknown p response status) =
     length (events_all p response (service_result response) None) ∧
   ∀ e, e ∈ events_unknown p response status →
     ∃ s, event_status e = Some ("Uncertain: no response (" +:+ s)).
Proof.
  split.
  - intros Hb.
    assert (Heq : events p response =
      take MAX_FAILED_ITEMS (events_all p response (service_result response) None)).
    { unfold events, events_with. rewrite Hb. simpl.
      destruct (Nat.ltb_spec MAX_FAILED_ITEMS
        (length (events_all p response (service_result response) None))); [done|].
      by rewrite take_ge. }
    split; [done|]. rewrite Heq. split; [rewrite length_take; lia|].
    intros e He. apply elem_of_take_l in He.
    by apply (events_all_status p response _ None e (or_intror Hb)).
  - unfold events_unknown, events_with. rewrite bool_decide_false by done.
    rewrite andb_false_r. simpl. split.
    + destruct p; simpl; by rewrite ?length_fmap, ?length_imap.
    + intros e He. eapply events_all_status in He; [|by left]. simpl in He.
      eexists. rewrite He. done.
Qed.

Lemma imap_no_index {A B} (f : nat → A → B) (g : A → B) l :
  (∀ i x, f i x = g x) → imap f l = g <$> l.
Proof.
  revert f. induction l as [|x l IH]; intros f Hf; [done|].
  rewrite imap_cons, fmap_cons. f_equal; [apply Hf|]. apply IH. intros i y. apply Hf.
Qed.

(** The intent committed before a change
    names, in order, exactly the nodes its outcome records will be about. *)
Theorem intent_announces_outcomes p response sr u h service node_ids ds :
  intent p = ChangeIntent h service node_ids ds →
  match p with
  | PlanTransferSubscriptions _ ids => node_ids = ((fun id : Z => pretty id) <$> ids)
  | _ => event_node_id <$> events_all p response sr u = Some <$> node_ids
  end.
Proof.
  destruct p; simpl; intros [= <- <- <- <-]; try done.
  - rewrite <- !list_fmap_compose. done.
  - rewrite fmap_imap, <- list_fmap_compose. by apply imap_no_index.
  - rewrite fmap_imap, <- list_fmap_compose. by apply imap_no_index.
  - rewrite fmap_imap. by apply imap_no_index.
Qed.

(** ** Reads before the change *)

(** A plan without what the reads add. *)
Definition erase_write (w : WriteItem) : WriteItem := set_old_value (set_display_name w None) None.
Definition erase_call (c : CallItem) : CallItem := set_call_name c None.
Definition erase (p : AuditPlan) : AuditPlan :=
  match p with
  | PlanWrite h items => PlanWrite h (erase_write <$> items)
  | PlanCall h items => PlanCall h (erase_call <$> items)
  | _ => p
  end.

Definition plan_size (p : AuditPlan) : nat :=
  match p with PlanWrite _ items => length items | PlanCall _ items => length items | _ => 0 end.

Definition in_plan (n : nat) (ts : list (nat * PreReadKind)) : Prop := Forall (fun t => t.1 < n)%nat ts.

Lemma want_name_spec names pre i n name pre' name' :
  want_name names pre i n name = (pre', name') → in_plan (S i) (targets pre) → in_plan (S i) (targets pre').
Proof.
  unfold want_name. destruct (names !! n); intros [= <- _]; [done|].
  intros Hp. simpl. apply Forall_app. split; [done|]. by constructor; [simpl; lia|].
Qed.

Lemma in_plan_mono n m ts : (n ≤ m)%nat → in_plan n ts → in_plan m ts.
Proof. intros ? Hp. eapply Forall_impl; [exact Hp|]. simpl. lia. Qed.

Lemma pre_read_writes_spec old names pre i items pre' items' :
  pre_read_writes old names pre i items = (pre', items') →
  in_plan i (targets pre) →
  erase_write <$> items' = erase_write <$> items ∧ in_plan (i + length items) (targets pre').
Proof.
  revert pre i pre' items'. induction items as [|w items IH]; intros pre i pre' items'; simpl.
  { intros [= <- <-] Hp. split; [done|]. by rewrite Nat.add_0_r. }
  set (pre1 := if old then _ else _).
  destruct (want_name names pre1 i (node w) (display_name w)) as [pre2 name] eqn:Hw.
  destruct (pre_read_writes old names pre2 (S i) items) as [pre3 rest] eqn:Hr.
  intros [= <- <-] Hp. assert (Hp1 : in_plan (S i) (targets pre1)).
  { unfold pre1. destruct old; [|eapply in_plan_mono; [|exact Hp]; lia].
    simpl. apply Forall_app. split; [eapply in_plan_mono; [|exact Hp]; lia|].
    by constructor; [simpl; lia|]. }
  destruct (IH _ _ _ _ Hr (want_name_spec _ _ _ _ _ _ _ Hw Hp1)) as [He Ht].
  rewrite !fmap_cons, He. split; [done|]. by rewrite Nat.add_succ_r.
Qed.

Lemma pre_read_calls_spec names pre i items pre' items' :
  pre_read_calls names pre i items = (pre', items') →
  in_plan i (targets pre) →
  erase_call <$> items' = erase_call <$> items ∧ in_plan (i + length items) (targets pre').
Proof.
  revert pre i pre' items'. induction items as [|c items IH]; intros pre i pre' items'; simpl.
  { intros [= <- <-] Hp. split; [done|]. by rewrite Nat.add_0_r. }
  destruct (want_name names pre i (method c) (ci_display_name c)) as [pre2 name] eqn:Hw.
  destruct (pre_read_calls names pre2 (S i) items) as [pre3 rest] eqn:Hr.
  intros [= <- <-] Hp.
  assert (Hp1 : in_plan (S i) (targets pre)) by (eapply in_plan_mono; [|exact Hp]; lia).
  destruct (IH _ _ _ _ Hr (want_name_spec _ _ _ _ _ _ _ Hw Hp1)) as [He Ht].
  rewrite !fmap_cons, He. split; [done|]. by rewrite Nat.add_succ_r.
Qed.

Lemma pre_read_spec old names p p1 o :
  pre_read old names p = (p1, o) →
  erase p1 = erase p ∧ plan_size p1 = plan_size p ∧
  ∀ pre, o = Some pre → in_plan (plan_size p1) (targets pre).
Proof.
  unfold pre_read. destruct p as [h items|h items| | |]; simpl; try (by intros [= <- <-]).
  - destruct (pre_read_writes _ _ _ _ _) as [pre1 items1] eqn:Hr. intros [= <- Hpre].
    destruct (pre_read_writes_spec _ _ _ _ _ _ _ Hr) as [He Ht]; [constructor|].
    assert (Hl : length items1 = length items)
      by (apply (f_equal length) in He; by rewrite !length_fmap in He).
    simpl. rewrite He, Hl. split_and!; [done..|]. intros pre ->.
    assert (pre1 = pre) as -> by (destruct (nodes_to_read pre1); congruence). done.
  - destruct (pre_read_calls _ _ _ _) as [pre1 items1] eqn:Hr. intros [= <- Hpre].
    destruct (pre_read_calls_spec _ _ _ _ _ _ Hr) as [He Ht]; [constructor|].
    assert (Hl : length items1 = length items)
      by (apply (f_equal length) in He; by rewrite !length_fmap in He).
    simpl. rewrite He, Hl. split_and!; [done..|]. intros pre ->.
    assert (pre1 = pre) as -> by (destruct (nodes_to_read pre1); congruence). done.
Qed.

Lemma erase_insert_write (items : list WriteItem) (i : nat) w w' :
  items !! i = Some w → erase_write w' = erase_write w →
  erase_write <$> <[i := w']> items = erase_write <$> items.
Proof.
  intros Hi He. rewrite list_fmap_insert, He. apply list_insert_id. by rewrite list_lookup_fmap, Hi.
Qed.

Lemma erase_insert_call (items : list CallItem) (i : nat) w w' :
  items !! i = Some w → erase_call w' = erase_call w →
  erase_call <$> <[i := w']> items = erase_call <$> items.
Proof.
  intros Hi He. rewrite list_fmap_insert, He. apply list_insert_id. by rewrite list_lookup_fmap, Hi.
Qed.

Lemma apply_result_spec p names i k r :
  (i < plan_size p)%nat →
  match apply_result p names i k r with
  | Some (p', _) => erase p' = erase p ∧ plan_size p' = plan_size p
  | None => ∃ v, dv_value r = Some v ∧ audit_value v = None
  end.
Proof.
  intros Hi. unfold apply_result. destruct (negb _); [done|].
  destruct (dv_value r) as [v|]; [|done].
  destruct k, p as [h items|h items| | |]; simpl in *; try done; try lia.
  - destruct (audit_value v) as [old|] eqn:Hv; simpl; [|eauto].
    destruct (lookup_lt_is_Some_2 items i Hi) as [w Hw]. rewrite Hw. simpl.
    split; [f_equal; by apply (erase_insert_write _ _ w)|apply length_insert].
  - destruct (localized_text v); [|done].
    destruct (lookup_lt_is_Some_2 items i Hi) as [w Hw]. rewrite Hw. simpl.
    split; [f_equal; by apply (erase_insert_write _ _ w)|apply length_insert].
  - destruct (localized_text v); [|done].
    destruct (lookup_lt_is_Some_2 items i Hi) as [w Hw]. rewrite Hw. simpl.
    split; [f_equal; by apply (erase_insert_call _ _ w)|apply length_insert].
Qed.

Lemma zip_fst_incl {A B} (l : list A) (k : list B) : incl (zip l k).*1 l.
Proof.
  revert k. induction l as [|a l IH]; intros [|b k]; simpl; intros x Hx; try (by destruct Hx).
  destruct Hx as [->|Hx]; [by left|right; by apply (IH k)].
Qed.

Lemma zip_snd_in {A B} (l : list A) (k : list B) x : x ∈ (zip l k).*2 → x ∈ k.
Proof.
  revert k. induction l as [|a l IH]; intros [|b k]; simpl; try (by intros Hx; apply not_elem_of_nil in Hx).
  rewrite !elem_of_cons. intros [->|Hx]; [by left|right; auto].
Qed.

Lemma apply_results_spec p names l :
  in_plan (plan_size p) (l.*1) →
  match apply_results p names l with
  | Some (p', _) => erase p' = erase p
  | None => ∃ r v, r ∈ l.*2 ∧ dv_value r = Some v ∧ audit_value v = None
  end.
Proof.
  revert p names. induction l as [|[[i k] r] l IH]; intros p names Ht; [done|]. simpl.
  inversion_clear Ht as [|? ? Hi Hts]. simpl in Hi.
  pose proof (apply_result_spec p names i k r Hi) as Hr.
  destruct (apply_result p names i k r) as [[p2 names2]|]; simpl.
  - destruct Hr as [He Hs]. rewrite <- Hs in Hts. specialize (IH p2 names2 Hts).
    destruct (apply_results p2 names2 _) as [[p3 ?]|]; [congruence|].
    destruct IH as (r' & v & Hin & Hv). exists r', v. split; [by right|done].
  - destruct Hr as (v & Hv & Ha). exists r, v. split; [by left|done].
Qed.

Lemma apply_pre_read_spec p pre results names :
  in_plan (plan_size p) (targets pre) →
  match apply_pre_read p pre results names with
  | Some (p', _) => erase p' = erase p
  | None => ∃ r v, r ∈ results ∧ dv_value r = Some v ∧ audit_value v = None
  end.
Proof.
  intros Ht. unfold apply_pre_read.
  pose proof (apply_results_spec p names (zip (targets pre) results)) as Hs.
  destruct (apply_results _ _ _) as [[p' ?]|].
  - apply Hs. by apply (incl_Forall (zip_fst_incl _ _)).
  - destruct Hs as (r & v & Hin & Hv); [by apply (incl_Forall (zip_fst_incl _ _))|].
    exists r, v. split; [|done]. by apply zip_snd_in in Hin.
Qed.

(** The intent does not say what the reads fill in. *)
Lemma intent_erase p : intent (erase p) = intent p.
Proof.
  destruct p; simpl; try done; unfold intent; by rewrite <- !list_fmap_compose.
Qed.

(** The reads sent along with a change only
    fill in old values and display names: whatever they return, the plan
    records the same nodes, values and positions; every read belongs to an
    item of the plan, so applying the results never goes out of range. *)
Theorem pre_read_only_annotates old names p p1 pre results names1 :
  pre_read old names p = (p1, Some pre) →
  erase p1 = erase p ∧
  match apply_pre_read p1 pre results names1 with
  | Some (p2, _) => erase p2 = erase p
  | None => ∃ r v, r ∈ results ∧ dv_value r = Some v ∧ audit_value v = None
  end.
Proof.
  intros Hp. destruct (pre_read_spec _ _ _ _ _ Hp) as (He & _ & Ht). split; [done|].
  rewrite <- He. by apply apply_pre_read_spec, Ht.
Qed.
End AuditMapFacts.

Section AuditMapWitnesses.
Import ToyNodes ToyOpc.

Definition hdr : RequestHeader := mkRequestHeader "session" 7 0.
Definition write_of (n : string) (v : Z) : WriteValue :=
  mkWriteValue n 13 None (mkDataValue (Some (VInteger "Int32" v)) None None None).


Lemma intent_announces_outcomes_witness :
  event_node_id <$> events_all (PlanNodeManagement 1 "DeleteNodes" ["a"; "b"])
    (RsDeleteNodes (Status 0) None) (Status 0) None = [Some "a"; Some "b"].
Proof.
  apply (intent_announces_outcomes (PlanNodeManagement 1 "DeleteNodes" ["a"; "b"])
    (RsDeleteNodes (Status 0) None) (Status 0) None 1 "DeleteNodes" ["a"; "b"] []).
  reflexivity.
Defined.

Definition call_m : CallItem := mkCallItem "m" "o" "m" [] None.

Lemma pre_read_only_annotates_witness :
  ∃ p1 pre, pre_read true ∅ (PlanCall 1 [call_m]) = (p1, Some pre) ∧ erase p1 = PlanCall 1 [call_m].
Proof.
  eexists _, _. split; [reflexivity|].
  exact (proj1 (pre_read_only_annotates true ∅ (PlanCall 1 [call_m]) _ _ [] ∅ eq_refl)).
Defined.

(** A decoded structure whose [Debug] text has a char of two bytes across
    byte 4096: [String::truncate] panics, and with it the connection's task. *)
Fixpoint repeated (n : nat) (s : string) : string :=
  match n with O => EmptyString | S n => s +:+ repeated n s end.

Example audit_value_can_panic :
  audit_value (VExtensionObject (EoBody "i=887" ("x" +:+ repeated 2100 "é"))) = None ∧
  is_Some (audit_value (VExtensionObject (EoBody "i=887" (repeated 2100 "é")))).
Proof. split; [vm_compute; reflexivity|vm_compute; eexists; reflexivity]. Qed.
End AuditMapWitnesses.
