(* ===== verification/Ignore.v ===== *)
(** Summarised nodes ([src/src/relay/ignore.rs]): which writes are summarised
    ([SummariseList]), and the counts kept until they are recorded
    ([IgnoredWrites]). Maps with ordered keys are finite maps, read in key
    order where the order shows. *)

From S2P Require Import Prelude Net Config Event.

Definition MAX_CLIENTS : nat := 20.
Definition MAX_NODES : Z := 10000.

(** The IP address of [ip:port] or [[v6]:port]. *)
Definition client_ip (remote_addr : string) : string :=
  let host := match rsplit_once ":" remote_addr with Some (h, _) => h | None => remote_addr end in
  trim_end_matches "]" (trim_start_matches "[" host).

(** [10.0.0.5 HMI-3 (operator)]: address, application and user. *)
Definition client_label (c : ClientContext) : string :=
  let l := client_ip (remote_addr c) in
  let app := match application_name c with Some a => Some a | None => application_uri c end in
  let l := match app with Some a => l +:+ " " +:+ a | None => l end in
  let l := match user c with Some u => l +:+ " (" +:+ label u +:+ ")" | None => l end in
  clip l MAX_NAME.

Section Ignore.
Context `{NodeIds}.

(** ** The lookup *)
Record Lookup : Type := mkLookup {
  all : gset NodeId;
  by_client : gmap string (gset NodeId);
}.

Definition empty_lookup : Lookup := mkLookup ∅ ∅.

Definition add_group (l : Lookup) (g : SummariseGroup) : Lookup :=
  let ns := list_to_set (parsed_nodes g) in
  match sg_client g with
  | Some c =>
      mkLookup (all l) (<[trim c := default ∅ (by_client l !! trim c) ∪ ns]> (by_client l))
  | None => mkLookup (all l ∪ ns) (by_client l)
  end.

(** [SummariseList::set] *)
Definition set_groups (groups : list SummariseGroup) : Lookup :=
  let l := foldl add_group empty_lookup groups in
  mkLookup (all l) (filter (fun kv => kv.2 ≠ ∅) (by_client l)).

Definition lookup_is_empty (l : Lookup) : bool :=
  bool_decide (all l = ∅) && bool_decide (by_client l = ∅).

(** Whether a value write to [n] by the client is summarised. *)
Definition matches (l : Lookup) (n : NodeId) (c : ClientContext) : bool :=
  let for_client key := match by_client l !! key with
                        | Some ns => bool_decide (n ∈ ns)
                        | None => false
                        end in
  bool_decide (n ∈ all l) || for_client (client_ip (remote_addr c)) ||
  match application_uri c with Some uri => for_client uri | None => false end.

(** The group applies to the writes of the client. *)
Definition applies_to (g : SummariseGroup) (c : ClientContext) : Prop :=
  match sg_client g with
  | None => True
  | Some k => trim k = client_ip (remote_addr c) ∨ application_uri c = Some (trim k)
  end.

Definition key_nodes (l : Lookup) (k : string) : gset NodeId := default ∅ (by_client l !! k).

Lemma add_group_spec l g :
  (∀ n, n ∈ all (add_group l g) ↔ n ∈ all l ∨ (sg_client g = None ∧ n ∈ parsed_nodes g)) ∧
  (∀ k n, n ∈ key_nodes (add_group l g) k ↔
     n ∈ key_nodes l k ∨ ((∃ c, sg_client g = Some c ∧ trim c = k) ∧ n ∈ parsed_nodes g)).
Proof.
  unfold add_group, key_nodes. destruct (sg_client g) as [c|]; simpl; split.
  - intros n. split; [by left|]. intros [?|[? _]]; done.
  - intros k n. destruct (decide (trim c = k)) as [<-|Hk].
    + rewrite lookup_insert_eq. simpl. rewrite elem_of_union, elem_of_list_to_set. naive_solver.
    + rewrite lookup_insert_ne by done. naive_solver.
  - intros n. rewrite elem_of_union, elem_of_list_to_set. naive_solver.
  - intros k n. split; [by left|]. intros [?|[[? [? _]] _]]; done.
Qed.

Lemma set_groups_spec groups l0 :
  let l := foldl add_group l0 groups in
  (∀ n, n ∈ all l ↔ n ∈ all l0 ∨ ∃ g, g ∈ groups ∧ sg_client g = None ∧ n ∈ parsed_nodes g) ∧
  (∀ k n, n ∈ key_nodes l k ↔ n ∈ key_nodes l0 k ∨
     ∃ g c, g ∈ groups ∧ sg_client g = Some c ∧ trim c = k ∧ n ∈ parsed_nodes g).
Proof.
  revert l0. induction groups as [|g groups IH]; intros l0; simpl.
  { split; intros; split; try (by left).
    - intros [?|(g & Hg & _)]; [done|]. by apply not_elem_of_nil in Hg.
    - intros [?|(g & c & Hg & _)]; [done|]. by apply not_elem_of_nil in Hg. }
  destruct (IH (add_group l0 g)) as [IH1 IH2]. destruct (add_group_spec l0 g) as [A1 A2].
  split.
  - intros n. rewrite IH1, A1. setoid_rewrite elem_of_cons. naive_solver.
  - intros k n. rewrite IH2, A2. setoid_rewrite elem_of_cons. naive_solver.
Qed.

(** A write is summarised exactly when a configured
    group lists its node and applies to the writing client: a group for every
    client, or one for the client's address or application URI. *)
Theorem matches_spec groups n c :
  matches (set_groups groups) n c = true ↔
  ∃ g, g ∈ groups ∧ n ∈ parsed_nodes g ∧ applies_to g c.
Proof.
  destruct (set_groups_spec groups empty_lookup) as [S1 S2]. simpl in S1, S2.
  set (l := foldl add_group empty_lookup groups) in *.
  assert (Hkey : ∀ k, (match by_client (set_groups groups) !! k with
                       | Some ns => bool_decide (n ∈ ns) | None => false end) = true ↔
                      n ∈ key_nodes l k).
  { intros k. unfold set_groups, key_nodes. simpl. fold l. rewrite map_lookup_filter.
    destruct (by_client l !! k) as [ns|]; simpl; [|set_solver].
    case_guard as Hne; simpl; [by rewrite bool_decide_eq_true|].
    split; [done|]. intros Hn. exfalso. clear -Hne Hn. set_solver. }
  unfold matches. rewrite !orb_true_iff, bool_decide_eq_true, Hkey.
  change (all (set_groups groups)) with (all l).
  assert (Huri : (match application_uri c with
     | Some uri => match by_client (set_groups groups) !! uri with
                   | Some ns => bool_decide (n ∈ ns) | None => false end
     | None => false end) = true ↔ ∃ uri, application_uri c = Some uri ∧ n ∈ key_nodes l uri).
  { destruct (application_uri c) as [uri|]; [rewrite Hkey; naive_solver|naive_solver]. }
  rewrite Huri, S1. setoid_rewrite S2. unfold applies_to.
  assert (He1 : n ∉ all empty_lookup) by set_solver.
  assert (He2 : ∀ k, n ∉ key_nodes empty_lookup k)
    by (intros k; unfold key_nodes; simpl; rewrite lookup_empty; set_solver).
  split.
  - intros [[[?|(g & Hg & Hc & Hn)]|[?|(g & k & Hg & Hc & Hk & Hn)]]|(uri & Hu & [?|(g & k & Hg & Hc & Hk & Hn)])];
      try (by exfalso; eauto).
    + exists g. rewrite Hc. by split_and!.
    + exists g. rewrite Hc. split_and!; [done|done|by left].
    + exists g. rewrite Hc, Hk. split_and!; [done|done|by right].
  - intros (g & Hg & Hn & Ha). destruct (sg_client g) as [k|] eqn:Hc.
    + destruct Ha as [Ha|Ha].
      * left. right. right. exists g, k. by split_and!.
      * right. exists (trim k). split; [done|]. right. exists g, k. by split_and!.
    + left. left. right. exists g. by split_and!.
Qed.
End Ignore.

(** ** The counts *)
Record Summary : Type := mkSummary {
  sm_display_name : option string;
  sm_count : Z;
  sm_failed : Z;
  sm_first : Z;
  sm_last : Z;
  sm_last_value : AuditValue;
  sm_last_status : string;
  sm_clients : gset string;
}.

(** One ignored write, at a time. *)
Record OneWrite : Type := mkOneWrite {
  ow_node : string;
  ow_name : option string;
  ow_value : AuditValue;
  ow_status : string;
  ow_client : ClientContext;
  ow_now : Z;
}.

(** [IgnoredWrites]: the pending summaries by node. *)
Abbreviation IgnoredWrites := (gmap string Summary).

Definition failed_one (status : string) : Z := if starts_with "Good" status then 0 else 1.

Definition add_client (clients : gset string) (w : OneWrite) : gset string :=
  if (size clients <? MAX_CLIENTS)%nat then {[client_label (ow_client w)]} ∪ clients else clients.

Definition update (s : Summary) (w : OneWrite) : Summary :=
  mkSummary (match ow_name w with Some n => Some n | None => sm_display_name s end)
    (u64_wrap (sm_count s + 1)) (u64_wrap (sm_failed s + failed_one (ow_status w)))
    (sm_first s) (ow_now w) (ow_value w) (ow_status w) (add_client (sm_clients s) w).

Definition fresh_summary (w : OneWrite) : Summary :=
  mkSummary None 0 0 (ow_now w) (ow_now w) (ow_value w) EmptyString ∅.

(** Counts one ignored write. [false]: too many nodes are pending. *)
Definition add (nodes : IgnoredWrites) (w : OneWrite) : bool * IgnoredWrites :=
  match nodes !! ow_node w with
  | Some s => (true, <[ow_node w := update s w]> nodes)
  | None =>
      if MAX_NODES <=? size nodes then (false, nodes)
      else (true, <[ow_node w := update (fresh_summary w) w]> nodes)
  end.

(** The summaries since the last call, one event per node. *)
Definition take (nodes : IgnoredWrites) : list AuditEvent * IgnoredWrites :=
  (omap (fun n => s ← nodes !! n;
     Some (Event.IgnoredWrites n (sm_display_name s) (sm_count s) (sm_failed s) (sm_first s)
       (sm_last s) (sm_last_value s) (sm_last_status s) (elements (sm_clients s))))
     (sorted_keys nodes), ∅).

(** ** What a summary says *)
Section Counts.

(** Writes added one after the other: the summaries and the accepted writes. *)
Definition add_all (ws : list OneWrite) : IgnoredWrites * list OneWrite :=
  foldl (fun acc w => let (ok, nodes) := add acc.1 w in
                      (nodes, if ok then acc.2 ++ [w] else acc.2)) (∅, []) ws.

Definition writes_to (n : string) (ws : list OneWrite) : list OneWrite :=
  List.filter (fun w => String.eqb (ow_node w) n) ws.

(** The summary of some writes to one node, written down directly. *)
Definition summary_of (ws : list OneWrite) : option Summary :=
  match ws, last ws with
  | first :: _, Some latest =>
      Some (mkSummary (last (omap ow_name ws)) (length ws)
        (length (List.filter (fun w => negb (starts_with "Good" (ow_status w))) ws))
        (ow_now first) (ow_now latest) (ow_value latest) (ow_status latest)
        (foldl add_client ∅ ws))
  | _, _ => None
  end.

Lemma add_all_snoc ws w :
  add_all (ws ++ [w]) =
  let (ok, nodes) := add (add_all ws).1 w in
  (nodes, if ok then (add_all ws).2 ++ [w] else (add_all ws).2).
Proof. unfold add_all. by rewrite foldl_app. Qed.

Lemma writes_to_app n a b : writes_to n (a ++ b) = writes_to n a ++ writes_to n b.
Proof. apply List.filter_app. Qed.

Lemma writes_to_one n w : writes_to n [w] = if String.eqb (ow_node w) n then [w] else [].
Proof. reflexivity. Qed.

Lemma last_omap_snoc {A B} (f : A → option B) l x :
  last (omap f (l ++ [x])) = match f x with Some y => Some y | None => last (omap f l) end.
Proof.
  rewrite omap_app. simpl. destruct (f x); [by rewrite last_snoc|by rewrite app_nil_r].
Qed.

Lemma summary_of_snoc ws w :
  Z.of_nat (length ws) < u64_max →
  summary_of (ws ++ [w]) = Some (update (default (fresh_summary w) (summary_of ws)) w).
Proof.
  intros Hb.
  assert (Hf : Z.of_nat (length (List.filter (fun w => negb (starts_with "Good" (ow_status w))) ws)) ≤
               length ws).
  { apply inj_le. apply List.filter_length_le. }
  destruct ws as [|first ws].
  - unfold summary_of, update, fresh_summary, failed_one. simpl.
    destruct (starts_with "Good" (ow_status w)), (ow_name w); simpl; by rewrite ?u64_wrap_small.
  - destruct (last (first :: ws)) as [latest|] eqn:Hl; [|by apply last_None in Hl].
    unfold summary_of. rewrite Hl. rewrite <- app_comm_cons.
    replace (last (first :: ws ++ [w])) with (Some w) by (by rewrite app_comm_cons, last_snoc).
    rewrite app_comm_cons. unfold update. cbn [default from_option id sm_display_name sm_count sm_failed sm_first sm_clients].
    rewrite last_omap_snoc, length_app, List.filter_app, length_app, foldl_app.
    rewrite !u64_wrap_small by (unfold failed_one; destruct (starts_with "Good" (ow_status w)); lia).
    unfold failed_one. cbn [length List.filter foldl].
    destruct (starts_with "Good" (ow_status w)); cbn [negb length]; do 2 f_equal; lia.
Qed.

(** The summary of a node says what the accepted
    writes to it were: how many, how many failed, when the first and last
    came, the last value and status. A node has a summary only if a write to
    it was accepted, and a write is turned away (to be recorded by itself)
    only when MAX_NODES other nodes are pending. *)
Theorem summaries_exact ws n :
  Z.of_nat (length ws) < u64_max →
  (add_all ws).1 !! n = summary_of (writes_to n (add_all ws).2) ∧
  (∀ w, (add (add_all ws).1 w).1 = false →
     (add_all ws).1 !! ow_node w = None ∧ MAX_NODES ≤ size (add_all ws).1).
Proof.
  intros Hb. split.
  - revert n. induction ws as [|w ws IH] using rev_ind; intros n; [done|].
    rewrite length_app in Hb. simpl in Hb.
    assert (Hlen : (length (add_all ws).2 ≤ length ws)%nat).
    { clear. induction ws as [|w ws IH] using rev_ind; [done|]. rewrite add_all_snoc.
      destruct (add _ _) as [[] nodes]; simpl; rewrite ?length_app; simpl; lia. }
    assert (Hw : ∀ m, Z.of_nat (length (writes_to m (add_all ws).2)) < u64_max).
    { intros m. pose proof (List.filter_length_le (fun w => String.eqb (ow_node w) m) (add_all ws).2).
      unfold writes_to. lia. }
    specialize (IH ltac:(lia)). rewrite add_all_snoc. unfold add.
    assert (Hok : ∀ s, (add_all ws).1 !! ow_node w = s →
      (<[ow_node w := update (default (fresh_summary w) s) w]> (add_all ws).1) !! n =
      summary_of (writes_to n ((add_all ws).2 ++ [w]))).
    { intros s Hs. rewrite writes_to_app, writes_to_one.
      destruct (String.eqb_spec (ow_node w) n) as [<-|Hne].
      - rewrite lookup_insert_eq, summary_of_snoc by done. by rewrite <- IH, Hs.
      - rewrite lookup_insert_ne by done. by rewrite app_nil_r. }
    destruct ((add_all ws).1 !! ow_node w) as [s|] eqn:Hs; simpl.
    + by apply (Hok (Some s)).
    + destruct (MAX_NODES <=? _); simpl; [done|by apply (Hok None)].
  - intros w. unfold add. destruct ((add_all ws).1 !! ow_node w) eqn:Hs; [done|].
    destruct (Z.leb_spec MAX_NODES (size (add_all ws).1)); [done|done].
Qed.
End Counts.

Section IgnoreWitnesses.

Definition life_write (v now : Z) (status : string) : OneWrite :=
  mkOneWrite "ns=3;i=1" None (mkAuditValue "Int64" (JInt v)) status default_client now.

Lemma summaries_exact_witness :
  let nodes := (add_all [life_write 1 10 "Good"; life_write 2 20 "BadUserAccessDenied"]).1 in
  (sm_count <$> nodes !! "ns=3;i=1") = Some 2 ∧ (sm_failed <$> nodes !! "ns=3;i=1") = Some 1.
Proof.
  intros nodes. unfold nodes.
  rewrite (proj1 (summaries_exact [life_write 1 10 "Good"; life_write 2 20 "BadUserAccessDenied"]
    "ns=3;i=1" ltac:(vm_compute; reflexivity))).
  split; vm_compute; reflexivity.
Defined.
End IgnoreWitnesses.
