(* ===== verification/Endpoints.v ===== *)
(** "Follow the target" ([src/src/relay/endpoints.rs]): the endpoints offered
    to clients are derived from the upstream server's. *)

From S2P Require Import Prelude Net Config Event Opc.

Definition PRODUCT_URI : string := "urn:opcua-audit-gateway".

(** The variants' names, as [Debug] prints them. *)
Definition mode_name (m : SecurityMode) : string :=
  match m with
  | ModeInvalid => "Invalid"
  | ModeNone => "None"
  | ModeSign => "Sign"
  | ModeSignAndEncrypt => "SignAndEncrypt"
  end.

Definition token_type_name (t : UserTokenType) : string :=
  match t with
  | TokenAnonymous => "Anonymous"
  | TokenUserName => "UserName"
  | TokenCertificate => "Certificate"
  | TokenIssued => "IssuedToken"
  end.

Section Endpoints.
Context `{Opc}.

(** The gateway's own application identity. *)
Record GatewayIdentity : Type := mkGatewayIdentity {
  certificate : Cert;
  certificate_bytes : Blob;
  private_key : Blob;
  gw_application_uri : string;
  gw_application_name : string;
  server_name : string;
}.

(** User token types the gateway can pass through. *)
Definition is_relayable_token (p : UserTokenPolicy) : bool :=
  match token_type p with TokenAnonymous | TokenUserName => true | _ => false end.

Definition server_description (g : GatewayIdentity) (url : string) : ApplicationDescription :=
  mkApplicationDescription (gw_application_uri g) PRODUCT_URI (server_name g) true (Some [url]).

Definition client_description (g : GatewayIdentity) : ApplicationDescription :=
  mkApplicationDescription (gw_application_uri g) PRODUCT_URI (gw_application_name g) false None.

Definition offered (e : EndpointDescription) : bool :=
  negb (bool_decide (ep_policy e = PolicyUnknown)) && policy_supported (ep_policy e).

Definition gateway_endpoint (g : GatewayIdentity) (url : string) (e : EndpointDescription)
    : EndpointDescription :=
  mkEndpointDescription url (server_description g url) (certificate_bytes g) (security_mode e)
    (security_policy_uri e)
    (Some (List.filter is_relayable_token (default [] (user_identity_tokens e))))
    (transport_profile_uri e) (security_level e).

(** The endpoints offered to clients. *)
Definition gateway_endpoints (upstream : list EndpointDescription) (g : GatewayIdentity)
    (url : string) : list EndpointDescription :=
  gateway_endpoint g url <$> List.filter offered upstream.

(** The security level of an endpoint, comparable with [MinSecurity]. *)
Definition security_of (e : EndpointDescription) : MinSecurity :=
  if bool_decide (ep_policy e = PolicyNone) then SecNone
  else match security_mode e with
       | ModeSignAndEncrypt => SignAndEncrypt
       | ModeSign => Sign
       | _ => SecNone
       end.

Definition secure_enough (min : MinSecurity) (e : EndpointDescription) : bool :=
  MinSecurity_rank min <=? MinSecurity_rank (security_of e).

(** Drops the endpoints below the target's minimum security. *)
Definition at_least (endpoints : list EndpointDescription) (min : MinSecurity)
    : list EndpointDescription :=
  List.filter (secure_enough min) endpoints.

Definition same_security (a b : EndpointDescription) : bool :=
  bool_decide (security_mode a = security_mode b) &&
  String.eqb (security_policy_uri a) (security_policy_uri b).

(** Security settings the server lists that discovery did not return. *)
Definition missing_from_discovery (server discovered : list EndpointDescription)
    (min : MinSecurity) : option string :=
  let missing :=
    List.filter (fun s => negb (existsb (fun d => same_security d s) discovered))
      (List.filter (secure_enough min) server) in
  match missing with
  | [] => None
  | _ => Some (join ", "
      ((fun s => policy_str (ep_policy s) +:+ " " +:+ mode_name (security_mode s)) <$> missing))
  end.

(** A one-line summary of an endpoint's security, to notice changes. *)
Definition summary (e : EndpointDescription) : string :=
  let thumb := match cert_of_bytes (ep_server_certificate e) with
               | Some c => thumbprint c
               | None => "no certificate"
               end in
  let tokens := dedup (merge_sort str_le
    ((fun t => token_type_name (token_type t)) <$> default [] (user_identity_tokens e))) in
  policy_str (ep_policy e) +:+ " " +:+ mode_name (security_mode e) +:+ " [" +:+ thumb +:+ "] " +:+
  join "+" tokens.

(** The upstream endpoint to use for a client channel. *)
Definition matching_upstream (upstream : list EndpointDescription) (p : Policy)
    (m : SecurityMode) : option EndpointDescription :=
  List.find (fun e => bool_decide (security_mode e = m) && bool_decide (ep_policy e = p)) upstream.

Definition token_policy (e : EndpointDescription) (id : string) : option UserTokenPolicy :=
  List.find (fun t => String.eqb (policy_id t) id) (default [] (user_identity_tokens e)).

Definition token_policy_of_type (e : EndpointDescription) (ty : UserTokenType)
    : option UserTokenPolicy :=
  List.find (fun t => bool_decide (token_type t = ty)) (default [] (user_identity_tokens e)).

(** ** Properties *)

Lemma matching_upstream_Some upstream p m e :
  matching_upstream upstream p m = Some e → e ∈ upstream ∧ security_mode e = m ∧ ep_policy e = p.
Proof.
  unfold matching_upstream. intros [Hin Hb]%find_some.
  rewrite andb_true_iff, !bool_decide_eq_true in Hb. by rewrite list_elem_of_In.
Qed.

Lemma find_is_Some {A} (f : A → bool) l x : x ∈ l → f x = true → is_Some (List.find f l).
Proof.
  induction l as [|y l IH]; [by intros ?%not_elem_of_nil|]. simpl.
  intros [->|Hx]%elem_of_cons Hf; [rewrite Hf; eauto|]. destruct (f y); eauto.
Qed.

(** Every endpoint offered to clients stands
    for an upstream endpoint with the same policy and mode, which meets the
    target's minimum security and which a channel with that security will be
    connected to; it carries the gateway's URL and certificate and only user
    tokens the gateway can relay. *)
Theorem offers_follow_target raw min g url e :
  e ∈ gateway_endpoints (at_least raw min) g url →
  (∃ up, up ∈ raw ∧ security_mode up = security_mode e ∧
     security_policy_uri up = security_policy_uri e ∧
     MinSecurity_rank min ≤ MinSecurity_rank (security_of e)) ∧
  (∃ up, matching_upstream (at_least raw min) (ep_policy e) (security_mode e) = Some up ∧
     MinSecurity_rank min ≤ MinSecurity_rank (security_of up)) ∧
  ep_url e = url ∧ ep_server_certificate e = certificate_bytes g ∧
  Forall (fun t => is_relayable_token t = true) (default [] (user_identity_tokens e)).
Proof.
  unfold gateway_endpoints. rewrite list_elem_of_fmap. intros (up & -> & Hup).
  apply list_elem_of_In, filter_In in Hup as [Hup _].
  assert (Hin : up ∈ raw ∧ secure_enough min up = true).
  { apply filter_In in Hup. by rewrite list_elem_of_In. }
  destruct Hin as [Hraw Hsec]. apply Z.leb_le in Hsec. split_and!; try done.
  - exists up. split_and!; done.
  - destruct (find_is_Some (fun e => bool_decide (security_mode e = security_mode up) &&
        bool_decide (ep_policy e = ep_policy up)) (at_least raw min) up) as [u Hu];
      [by apply list_elem_of_In|by rewrite !bool_decide_true|].
    exists u. split; [exact Hu|]. apply matching_upstream_Some in Hu as (Hu & _ & _).
    apply list_elem_of_In, filter_In in Hu as [_ Hu]. by apply Z.leb_le.
  - simpl. apply Forall_forall. intros t Ht. apply list_elem_of_In, filter_In in Ht. apply Ht.
Qed.

(** The comparison with the list the
    server sends over the secured channel is silent exactly when discovery
    returned every security setting of the server that meets the minimum. *)
Theorem stripped_discovery_noticed server discovered min :
  missing_from_discovery server discovered min = None ↔
  ∀ s, s ∈ server → MinSecurity_rank min ≤ MinSecurity_rank (security_of s) →
    ∃ d, d ∈ discovered ∧ security_mode d = security_mode s ∧
      security_policy_uri d = security_policy_uri s.
Proof.
  unfold missing_from_discovery.
  set (missing := List.filter _ (List.filter _ server)).
  assert (Hm : ∀ s, s ∈ missing ↔ s ∈ server ∧ MinSecurity_rank min ≤ MinSecurity_rank (security_of s) ∧
     ¬ ∃ d, d ∈ discovered ∧ security_mode d = security_mode s ∧
        security_policy_uri d = security_policy_uri s).
  { intros s. unfold missing. rewrite list_elem_of_In, filter_In, filter_In, <- list_elem_of_In.
    unfold secure_enough. rewrite Z.leb_le, negb_true_iff, <- not_true_iff_false, existsb_exists.
    assert (Hd : (∃ x, In x discovered ∧ same_security x s = true) ↔
       ∃ d, d ∈ discovered ∧ security_mode d = security_mode s ∧
         security_policy_uri d = security_policy_uri s).
    { unfold same_security. setoid_rewrite andb_true_iff. setoid_rewrite bool_decide_eq_true.
      setoid_rewrite String.eqb_eq. setoid_rewrite <- list_elem_of_In. done. }
    rewrite Hd. tauto. }
  destruct missing as [|m missing].
  - split; [|done]. intros _ s Hs Hmin.
    destruct (existsb (fun d => same_security d s) discovered) eqn:He.
    + apply existsb_exists in He as (d & Hd & Hsame). exists d.
      unfold same_security in Hsame. rewrite andb_true_iff, bool_decide_eq_true, String.eqb_eq in Hsame.
      by rewrite list_elem_of_In.
    + exfalso. apply (not_elem_of_nil s), Hm. split_and!; [done|done|].
      intros (d & Hd & Hm1 & Hm2). apply not_true_iff_false in He. apply He.
      apply existsb_exists. exists d. split; [by apply list_elem_of_In|].
      unfold same_security. by rewrite Hm1, Hm2, bool_decide_true, String.eqb_refl.
  - split; [done|]. intros Hall. exfalso.
    destruct (proj1 (Hm m)) as (Hs & Hmin & Hno); [by left|]. by apply Hno, Hall.
Qed.
End Endpoints.

Section EndpointWitnesses.
Import ToyNodes ToyOpc.

Definition toy_gateway : GatewayIdentity := mkGatewayIdentity "gw" "gw" "key" "urn:gw" "Gateway" "Gateway (plc1)".
Definition plain_server : ApplicationDescription := mkApplicationDescription EmptyString EmptyString EmptyString true None.
Definition signed : EndpointDescription :=
  mkEndpointDescription "opc.tcp://plc" plain_server "cert" ModeSignAndEncrypt "Basic256Sha256"
    (Some [mkUserTokenPolicy "u" TokenUserName EmptyString; mkUserTokenPolicy "x" TokenCertificate EmptyString])
    EmptyString 3.

Lemma offers_follow_target_witness :
  let e := gateway_endpoint toy_gateway "opc.tcp://gw" signed in
  ep_url e = "opc.tcp://gw" ∧ length (default [] (user_identity_tokens e)) = 1%nat ∧
  ∃ up, matching_upstream (at_least [signed] Sign) (ep_policy e) (security_mode e) = Some up.
Proof.
  intros e.
  destruct (offers_follow_target [signed] Sign toy_gateway "opc.tcp://gw" e) as (_ & (up & Hu & _) & He & _).
  - vm_compute. left.
  - split; [exact He|]. split; [vm_compute; reflexivity|]. exists up. exact Hu.
Defined.
End EndpointWitnesses.
