(* ===== verification/Admission.v ===== *)
(** Which new connections a target accepts ([Admission] in
    [src/src/relay/mod.rs]): at most so many at once, in all and per address,
    and a token bucket per address. The tokens are [f64]s: binary64 numbers of
    [SpecFloat]; nothing proved here depends on how they round. *)

From Stdlib Require Import SpecFloat.
From S2P Require Import Prelude Net.

(** ** [f64] *)
Definition f64 : Type := spec_float.
Definition f64_of_Z (z : Z) : f64 := binary_normalize 53 1024 z 0 false.
Definition f64_add : f64 → f64 → f64 := SFadd 53 1024.
Definition f64_sub : f64 → f64 → f64 := SFsub 53 1024.
Definition f64_mul : f64 → f64 → f64 := SFmul 53 1024.
Definition f64_div : f64 → f64 → f64 := SFdiv 53 1024.
(** [f64::min] of numbers *)
Definition f64_min (a b : f64) : f64 := if SFltb b a then b else a.

(** [Duration::as_secs_f64] of nanoseconds *)
Definition as_secs_f64 (nanos : Z) : f64 :=
  f64_add (f64_of_Z (nanos / 1000000000))
          (f64_div (f64_of_Z (nanos mod 1000000000)) (f64_of_Z 1000000000)).

Definition CONNECTION_RATE : f64 := f64_of_Z 5.
Definition BURST : f64 := f64_mul (f64_of_Z 2) CONNECTION_RATE.

Record AddressState : Type := mkAddressState {
  a_active : nat;
  tokens : f64;
  a_last : Z;
  refused : Z;
  reason : string;
}.

Record Admission : Type := mkAdmission {
  max_total : nat;
  max_per_address : nat;
  active : nat;
  addresses : gmap IpAddr AddressState;
}.

Definition new_address (now : Z) : AddressState := mkAddressState 0 BURST now 0 EmptyString.

(** The bucket filled up to now. *)
Definition refill (now : Z) (s : AddressState) : AddressState :=
  mkAddressState (a_active s)
    (f64_min (f64_add (tokens s) (f64_mul (as_secs_f64 (Z.max 0 (now - a_last s))) CONNECTION_RATE)) BURST)
    now (refused s) (reason s).

Definition refusal (a : Admission) (s : AddressState) : option string :=
  if (max_total a <=? active a)%nat then Some "too many connections to this target"
  else if (max_per_address a <=? a_active s)%nat then
    Some "too many connections from this address"
  else if SFltb (tokens s) (f64_of_Z 1) then
    Some "too many new connections per second from this address"
  else None.

Definition admit_connection (a : Admission) (ip : IpAddr) (now : Z) : bool * Admission :=
  let s := refill now (default (new_address now) (addresses a !! ip)) in
  match refusal a s with
  | None =>
      (true, mkAdmission (max_total a) (max_per_address a) (S (active a))
         (<[ip := mkAddressState (S (a_active s)) (f64_sub (tokens s) (f64_of_Z 1)) now
                    (refused s) (reason s)]> (addresses a)))
  | Some why =>
      (false, mkAdmission (max_total a) (max_per_address a) (active a)
         (<[ip := mkAddressState (a_active s) (tokens s) now (u64_wrap (refused s + 1)) why]>
            (addresses a)))
  end.

Definition release (a : Admission) (ip : IpAddr) : Admission :=
  mkAdmission (max_total a) (max_per_address a) (pred (active a))
    (alter (fun s => mkAddressState (pred (a_active s)) (tokens s) (a_last s) (refused s) (reason s))
       ip (addresses a)).

(** Refusals since the last call, per address; forgets idle addresses. *)
Definition take_refused (a : Admission) (now : Z) : list (IpAddr * Z * string) * Admission :=
  (omap (fun '(ip, s) => if 0 <? refused s then Some (ip, refused s, reason s) else None)
     (map_to_list (addresses a)),
   mkAdmission (max_total a) (max_per_address a) (active a)
     (filter (fun kv => (0 < a_active kv.2)%nat ∨ now - a_last kv.2 < 60 * 1000000000)
        ((fun s => mkAddressState (a_active s) (tokens s) (a_last s) 0 (reason s)) <$> addresses a))).

(** ** The limits hold *)

(** The sum of a measure over the addresses. *)
Definition total (f : AddressState → nat) (m : gmap IpAddr AddressState) : nat :=
  map_fold (fun _ s n => (f s + n)%nat) 0%nat m.

Lemma total_insert_new f m ip s :
  m !! ip = None → total f (<[ip := s]> m) = (f s + total f m)%nat.
Proof. intros Hn. unfold total. rewrite map_fold_insert_L; [done|intros; lia|done]. Qed.

Lemma total_delete f m ip s :
  m !! ip = Some s → total f m = (f s + total f (delete ip m))%nat.
Proof.
  intros Hs. rewrite <- (insert_delete_id m ip s Hs) at 1.
  apply total_insert_new, lookup_delete_eq.
Qed.

Lemma total_insert f m ip s :
  (total f (<[ip := s]> m) + from_option f 0 (m !! ip) = f s + total f m)%nat.
Proof.
  destruct (m !! ip) as [s0|] eqn:Hs; simpl.
  - rewrite <- insert_delete_eq, total_insert_new by apply lookup_delete_eq.
    rewrite (total_delete f m ip s0 Hs). lia.
  - rewrite total_insert_new by done. lia.
Qed.

Lemma total_fmap f g m : (∀ s, f (g s) = f s) → total f (g <$> m) = total f m.
Proof.
  intros Hfg. induction m as [|ip s m Hn IH] using map_ind; [by rewrite fmap_empty|].
  rewrite fmap_insert, !total_insert_new; [by rewrite IH, Hfg|done|by rewrite lookup_fmap, Hn].
Qed.

Lemma total_filter f (P : IpAddr * AddressState → Prop) `{∀ x, Decision (P x)} m :
  (∀ ip s, m !! ip = Some s → ¬ P (ip, s) → f s = 0%nat) → total f (filter P m) = total f m.
Proof.
  induction m as [|ip s m Hn IH] using map_ind; intros Hz; [by rewrite map_filter_empty|].
  assert (Hz' : ∀ ip s, m !! ip = Some s → ¬ P (ip, s) → f s = 0%nat).
  { intros ip' s' Hs'. apply Hz. rewrite lookup_insert_ne; [done|]. intros ->. congruence. }
  rewrite map_filter_insert. case_decide as Hp.
  - rewrite !total_insert_new; [by rewrite IH|done|]. apply map_lookup_filter_None. by left.
  - rewrite delete_id by done. rewrite total_insert_new by done.
    rewrite (Hz ip s (lookup_insert_eq _ _ _) Hp). simpl. by apply IH.
Qed.

(** The open connections of each address: what the gateway really serves. *)
Inductive admission_step : Admission * list IpAddr → Admission * list IpAddr → Prop :=
| adm_admit a l ip now a' :
    admit_connection a ip now = (true, a') → admission_step (a, l) (a', ip :: l)
| adm_refuse a l ip now a' :
    admit_connection a ip now = (false, a') → admission_step (a, l) (a', l)
| adm_release a l1 ip l2 :
    admission_step (a, l1 ++ ip :: l2) (release a ip, l1 ++ l2)
| adm_report a l now :
    admission_step (a, l) ((take_refused a now).2, l).

Definition open_from (ip : IpAddr) (l : list IpAddr) : nat :=
  length (List.filter (fun x => bool_decide (x = ip)) l).

Definition admission_ok (a : Admission) (l : list IpAddr) : Prop :=
  active a = length l ∧ (active a ≤ max_total a)%nat ∧
  ∀ ip, from_option a_active 0%nat (addresses a !! ip) = open_from ip l ∧
        (open_from ip l ≤ max_per_address a)%nat.

Definition new_admission (max_total max_per_address : nat) : Admission :=
  mkAdmission max_total max_per_address 0 ∅.

Lemma open_from_cons ip x l :
  open_from ip (x :: l) = ((if bool_decide (x = ip) then 1 else 0) + open_from ip l)%nat.
Proof. unfold open_from. simpl. by case_bool_decide. Qed.

Lemma open_from_same ip l : open_from ip (ip :: l) = S (open_from ip l).
Proof. by rewrite open_from_cons, bool_decide_true. Qed.

Lemma open_from_other ip x l : x ≠ ip → open_from ip (x :: l) = open_from ip l.
Proof. intros ?. by rewrite open_from_cons, bool_decide_false. Qed.

Lemma open_from_app ip l1 l2 : open_from ip (l1 ++ l2) = (open_from ip l1 + open_from ip l2)%nat.
Proof. unfold open_from. by rewrite List.filter_app, length_app. Qed.

Lemma refill_active now s : a_active (refill now s) = a_active s.
Proof. done. Qed.

Lemma admission_step_ok a l a' l' :
  admission_ok a l → admission_step (a, l) (a', l') → admission_ok a' l'.
Proof.
  intros (Ha & Hm & Hip) Hs. inversion Hs as [a0 l0 ip now a1 Hadm|a0 l0 ip now a1 Hadm|a0 l1 ip l2|a0 l0 now];
    simplify_eq; unfold admission_ok.
  - unfold admit_connection in Hadm. set (s := refill now _) in *.
    destruct (refusal a s) eqn:Hr; [done|]. injection Hadm as <-. cbn [active max_total max_per_address addresses].
    assert (Hs0 : a_active s = open_from ip l).
    { unfold s. rewrite refill_active. rewrite <- (proj1 (Hip ip)).
      by destruct (addresses a !! ip). }
    assert (Hs1 : a_active (default (new_address now) (addresses a !! ip)) = open_from ip l)
      by exact Hs0.
    clear Hs. clearbody s. unfold refusal in Hr.
    destruct (Nat.leb_spec (max_total a) (active a)); [done|].
    destruct (Nat.leb_spec (max_per_address a) (a_active s)); [done|].
    split; [simpl; lia|]. split; [lia|]. intros ip'.
    destruct (decide (ip = ip')) as [->|Hne].
    + rewrite lookup_insert_eq, open_from_same. cbn [from_option a_active].
      split; [by rewrite Hs1|lia].
    + rewrite lookup_insert_ne, open_from_other by done. apply Hip.
  - unfold admit_connection in Hadm. set (s := refill now _) in *.
    destruct (refusal a s) eqn:Hr; [|done]. injection Hadm as <-. cbn [active max_total max_per_address addresses].
    split; [done|]. split; [done|]. intros ip'. destruct (decide (ip = ip')) as [->|Hne].
    + rewrite lookup_insert_eq. cbn [from_option a_active].
      split; [|apply Hip]. rewrite <- (proj1 (Hip ip')).
      by destruct (addresses a !! ip').
    + rewrite lookup_insert_ne by done. apply Hip.
  - rewrite length_app in Ha. simpl in Ha. cbn [release active max_total max_per_address addresses].
    split; [rewrite length_app; lia|]. split; [lia|]. intros ip'.
    specialize (Hip ip'). rewrite open_from_app in Hip. rewrite open_from_app.
    destruct (decide (ip = ip')) as [->|Hne].
    + rewrite lookup_alter_eq. rewrite open_from_same in Hip.
      destruct (addresses a !! ip'); cbn [fmap option_fmap option_map from_option a_active] in *; lia.
    + rewrite lookup_alter_ne by done. rewrite open_from_other in Hip by done. exact Hip.
  - cbn [take_refused snd active max_total max_per_address addresses].
    split; [done|]. split; [done|]. intros ip. split; [|apply Hip].
    rewrite <- (proj1 (Hip ip)). rewrite map_lookup_filter, lookup_fmap.
    destruct (addresses a !! ip) as [s|]; [|done]. cbn [fmap option_fmap option_map mbind option_bind].
    case_guard as Hg; [done|]. simpl. simpl in Hg. lia.
Qed.

(** However clients connect and disconnect, the
    open connections never exceed the target's limit or, from one address,
    the limit per address; the counts are exact, so closing connections makes
    room again. *)
Theorem admission_limits mt mp a l :
  rtc admission_step (new_admission mt mp, []) (a, l) →
  active a = length l ∧ (length l ≤ mt)%nat ∧ ∀ ip, (open_from ip l ≤ mp)%nat.
Proof.
  intros Hr.
  enough (admission_ok a l ∧ max_total a = mt ∧ max_per_address a = mp) as ((Ha & Hm & Hip) & <- & <-).
  { split_and!; [done|lia|]. intros ip. apply Hip. }
  assert (H0 : admission_ok (new_admission mt mp) [] ∧
               max_total (new_admission mt mp) = mt ∧ max_per_address (new_admission mt mp) = mp).
  { split; [|done]. split_and!; simpl; [done|lia|]. intros ip. rewrite lookup_empty. split; [done|unfold open_from; simpl; lia]. }
  remember (new_admission mt mp, []) as x eqn:Hx. remember (a, l) as y eqn:Hy.
  revert a l Hy. assert (H0' : admission_ok x.1 x.2 ∧ max_total x.1 = mt ∧ max_per_address x.1 = mp)
    by (by subst). clear H0 Hx. induction Hr as [x|x [a1 l1] z Hxy _ IH]; intros a l ->; [exact H0'|].
  apply IH; [|done]. destruct x as [a0 l0]. simpl in *. destruct H0' as (Hok & H1 & H2).
  split; [by eapply admission_step_ok|].
  inversion Hxy as [? ? ip now ? Hadm|? ? ip now ? Hadm|? ? ip ?|? ? now]; simplify_eq; try done;
    unfold admit_connection in Hadm; destruct (refusal _ _); by simplify_eq.
Qed.

(** Every refused connection is reported: a refusal adds one
    to the refusals kept for its address, the report names every address with
    refusals and their number, and starts over. *)
Theorem refusals_reported a ip now a' now' :
  (∀ s, addresses a !! ip = Some s → 0 ≤ refused s < u64_max) →
  admit_connection a ip now = (false, a') →
  ∃ s why, addresses a' !! ip = Some s ∧ reason s = why ∧
    refused s = 1 + from_option refused 0 (addresses a !! ip) ∧
    (ip, refused s, why) ∈ (take_refused a' now').1 ∧
    (∀ x, x ∈ (take_refused a' now').1 → ∃ s, addresses a' !! x.1.1 = Some s ∧ x.1.2 = refused s) ∧
    (∀ ip' s', addresses (take_refused a' now').2 !! ip' = Some s' → refused s' = 0).
Proof.
  intros Hb. unfold admit_connection. set (s := refill now _).
  assert (Hs : refused s = from_option refused 0 (addresses a !! ip)).
  { unfold s. by destruct (addresses a !! ip). }
  clearbody s. destruct (refusal a s) as [why|]; [|done]. intros [= <-]. cbn [addresses].
  assert (Hw : u64_wrap (refused s + 1) = 1 + from_option refused 0 (addresses a !! ip)).
  { rewrite Hs, u64_wrap_small; [lia|]. destruct (addresses a !! ip) as [s0|]; simpl;
      [specialize (Hb s0 eq_refl); lia|unfold u64_max; lia]. }
  eexists _, why. rewrite lookup_insert_eq. split; [done|]. cbn [reason refused].
  split; [done|]. split; [done|]. split_and!.
  - unfold take_refused. cbn [fst addresses]. rewrite list_elem_of_omap.
    eexists (ip, _). split; [apply elem_of_map_to_list, lookup_insert_eq|]. cbn [refused reason].
    rewrite Hw. destruct (Z.ltb_spec 0 (1 + from_option refused 0 (addresses a !! ip))); [done|].
    destruct (addresses a !! ip) as [s0|]; simpl in *; [specialize (Hb s0 eq_refl)|]; lia.
  - intros x. unfold take_refused. cbn [fst addresses]. rewrite list_elem_of_omap.
    intros ([ip' s'] & Hin%elem_of_map_to_list & Hx).
    destruct (0 <? refused s'); [|done]. injection Hx as <-. simpl. eauto.
  - intros ip' s'. unfold take_refused. cbn [snd addresses].
    rewrite map_lookup_filter_Some, lookup_fmap. intros [Hl _].
    destruct (_ !! ip'); simpl in Hl; [|done]. by injection Hl as <-.
Qed.

Lemma admission_limits_witness :
  ∃ a, rtc admission_step (new_admission 1 1, []) (a, [V4 1]) ∧ active a = 1%nat ∧
    (admit_connection a (V4 2) 5).1 = false.
Proof.
  assert (Hstep : admission_step (new_admission 1 1, []) ((admit_connection (new_admission 1 1) (V4 1) 0).2, [V4 1])).
  { apply (adm_admit _ _ _ 0). vm_compute. reflexivity. }
  pose proof (rtc_once _ _ Hstep) as Hrun. eexists. split; [exact Hrun|].
  split; [exact (proj1 (admission_limits 1 1 _ _ Hrun))|]. vm_compute. reflexivity.
Defined.

Lemma refusals_reported_witness :
  (admit_connection (new_admission 0 1) (V4 1) 0).1 = false ∧
  ∃ s, addresses (admit_connection (new_admission 0 1) (V4 1) 0).2 !! V4 1 = Some s ∧ refused s = 1.
Proof.
  split; [vm_compute; reflexivity|].
  destruct (refusals_reported (new_admission 0 1) (V4 1) 0 (admit_connection (new_admission 0 1) (V4 1) 0).2 5)
    as (s & why & Hs & _ & Hr & _).
  - intros s Hs. vm_compute in Hs. discriminate Hs.
  - vm_compute. reflexivity.
  - exists s. split; [exact Hs|]. rewrite Hr. vm_compute. reflexivity.
Defined.
