(* ===== verification/Task.v ===== *)
(** Request tasks: the [async] code of the relay as programs over effects.

    A program is what a task does next: it reads a clock, draws random bytes,
    hands an entry to the audit pipeline, runs a critical section on what the
    connections of a target share ([S]), or talks to the upstream server. The
    answers come from outside: other tasks may change the shared state between
    any two effects, and the server and the audit store may answer anything.
    A property of a program is a property of all its traces, cut off ones
    included (a dropped task, a crash).

    [always] computes what all traces have to satisfy, one effect at a time:
    an invariant of the history at every point and a condition on the result. *)

From S2P Require Import Prelude Net Event Opc.

Section Task.
Context `{Opc} {S : Type}.

(** What [Upstream::connect] can find. *)
Inductive UpstreamError : Type :=
| Untrusted (subject thumb : string) (status : StatusCode)
| OtherError (status : StatusCode) (text : string).

Inductive prog (A : Type) : Type :=
| Ret (a : A)
| Panic
(** a clock reading, in nanoseconds *)
| Clock (k : Z → prog A)
| Random (k : Blob → prog A)
(** [AuditHandle::record], or [record_committed] *)
| Record_ (committed : bool) (e : AuditEntry) (k : result string Z → prog A)
(** a critical section: the state it found, and what it left *)
| Update (f : S → S) (k : S → prog A)
(** [closed.is_cancelled()] of the upstream connection *)
| IsClosed (k : bool → prog A)
(** a request is put on the upstream channel's queue, with its timeout *)
| Submit (r : RequestMessage) (timeout_ms : Z) (k : prog A)
(** the response to a submitted request, or the channel's error *)
| Await (r : RequestMessage) (k : result StatusCode ResponseMessage → prog A)
(** [validate_or_reject_application_instance_cert] *)
| Validate (c : Cert) (p : Policy) (k : result StatusCode unit → prog A)
(** the secure channel of [Upstream::connect] is opened *)
| Connect (e : EndpointDescription) (k : result (StatusCode * string) unit → prog A)
(** [discovery::discover_raw] *)
| Discover (k : result string (list EndpointDescription) → prog A).

Fixpoint bind {A B} (p : prog A) (f : A → prog B) : prog B :=
  match p with
  | Ret _ a => f a
  | Panic _ => Panic B
  | Clock _ k => Clock B (fun x => bind (k x) f)
  | Random _ k => Random B (fun x => bind (k x) f)
  | Record_ _ c e k => Record_ B c e (fun x => bind (k x) f)
  | Update _ g k => Update B g (fun x => bind (k x) f)
  | IsClosed _ k => IsClosed B (fun x => bind (k x) f)
  | Submit _ r t k => Submit B r t (bind k f)
  | Await _ r k => Await B r (fun x => bind (k x) f)
  | Validate _ c p k => Validate B c p (fun x => bind (k x) f)
  | Connect _ e k => Connect B e (fun x => bind (k x) f)
  | Discover _ k => Discover B (fun x => bind (k x) f)
  end.

#[export] Instance prog_ret : MRet prog := Ret.
#[export] Instance prog_bind : MBind prog := fun A B f p => bind p f.

Definition clock : prog Z := Clock Z mret.
Definition random : prog Blob := Random Blob mret.
Definition record_as (committed : bool) (e : AuditEntry) : prog (result string Z) :=
  Record_ _ committed e mret.
(** A critical section, with its result. *)
Definition atomic {A} (f : S → A * S) : prog A := Update A (fun s => (f s).2) (fun s => Ret A (f s).1).
Definition get : prog S := Update S id mret.
(** A value the task cannot compute without panicking. *)
Definition or_panic {A} (o : option A) : prog A :=
  match o with Some a => mret a | None => Panic A end.

(** ** Traces *)
Inductive label : Type :=
| LClock (now : Z)
| LRandom (b : Blob)
| LRecord (committed : bool) (e : AuditEntry) (answer : result string Z)
| LUpdate (before after : S)
| LIsClosed (b : bool)
| LSubmit (r : RequestMessage) (timeout_ms : Z)
| LAwait (r : RequestMessage) (answer : result StatusCode ResponseMessage)
| LValidate (c : Cert) (p : Policy) (answer : result StatusCode unit)
| LConnect (e : EndpointDescription) (answer : result (StatusCode * string) unit)
| LDiscover (answer : result string (list EndpointDescription)).

(** One effect of a program, with its answer. *)
Inductive does {A} : prog A → label → prog A → Prop :=
| do_clock k z : does (Clock A k) (LClock z) (k z)
| do_random k b : does (Random A k) (LRandom b) (k b)
| do_record c e k a : does (Record_ A c e k) (LRecord c e a) (k a)
| do_update f k s : does (Update A f k) (LUpdate s (f s)) (k s)
| do_is_closed k b : does (IsClosed A k) (LIsClosed b) (k b)
| do_submit r t k : does (Submit A r t k) (LSubmit r t) k
| do_await r k a : does (Await A r k) (LAwait r a) (k a)
| do_validate c p k a : does (Validate A c p k) (LValidate c p a) (k a)
| do_connect e k a : does (Connect A e k) (LConnect e a) (k a)
| do_discover k a : does (Discover A k) (LDiscover a) (k a).

(** The program does the labels, and is then at the second program. *)
Inductive runs {A} : prog A → list label → prog A → Prop :=
| runs_here p : runs p [] p
| runs_step p l p' ls p'' : does p l p' → runs p' ls p'' → runs p (l :: ls) p''.

Lemma runs_app {A} (p p' p'' : prog A) ls ls' :
  runs p ls p' → runs p' ls' p'' → runs p (ls ++ ls') p''.
Proof. induction 1; simpl; eauto using runs. Qed.

(** ** All traces *)
Section Always.
(** [I] holds of the history at every point. *)
Context (I : list label → Prop).

Fixpoint always {A} (p : prog A) (h : list label) (Φ : A → list label → Prop) : Prop :=
  I h ∧
  match p with
  | Ret _ a => Φ a h
  | Panic _ => True
  | Clock _ k => ∀ z, always (k z) (h ++ [LClock z]) Φ
  | Random _ k => ∀ b, always (k b) (h ++ [LRandom b]) Φ
  | Record_ _ c e k => ∀ a, always (k a) (h ++ [LRecord c e a]) Φ
  | Update _ f k => ∀ s, always (k s) (h ++ [LUpdate s (f s)]) Φ
  | IsClosed _ k => ∀ b, always (k b) (h ++ [LIsClosed b]) Φ
  | Submit _ r t k => always k (h ++ [LSubmit r t]) Φ
  | Await _ r k => ∀ a, always (k a) (h ++ [LAwait r a]) Φ
  | Validate _ c p k => ∀ a, always (k a) (h ++ [LValidate c p a]) Φ
  | Connect _ e k => ∀ a, always (k a) (h ++ [LConnect e a]) Φ
  | Discover _ k => ∀ a, always (k a) (h ++ [LDiscover a]) Φ
  end.
End Always.

Lemma always_inv {A} I (p : prog A) h Φ : always I p h Φ → I h.
Proof. destruct p; simpl; by intros [? _]. Qed.

Lemma always_does {A} I (p p' : prog A) l h Φ :
  does p l p' → always I p h Φ → always I p' (h ++ [l]) Φ.
Proof. destruct 1; simpl; intros [_ Ha]; auto. Qed.

Lemma always_runs {A} I (p p' : prog A) ls h Φ :
  runs p ls p' → always I p h Φ → always I p' (h ++ ls) Φ.
Proof.
  intros Hr. revert h. induction Hr as [|p l p' ls p'' Hd Hr IH]; intros h Ha.
  - by rewrite app_nil_r.
  - replace (h ++ l :: ls) with ((h ++ [l]) ++ ls) by (by rewrite <- app_assoc).
    apply IH. by apply (always_does _ p).
Qed.

(** What [always] establishes, for every trace. *)
Lemma always_sound {A} I (p : prog A) Φ ls p' :
  always I p [] Φ → runs p ls p' → I ls ∧ ∀ a, p' = Ret A a → Φ a ls.
Proof.
  intros Ha Hr. pose proof (always_runs _ _ _ _ _ _ Hr Ha) as Hp. simpl in Hp.
  split; [by apply always_inv in Hp|]. intros a ->. simpl in Hp. apply Hp.
Qed.

Lemma always_mono {A} (I : list label → Prop) (p : prog A) h (Φ Ψ : A → list label → Prop) :
  (∀ a h, Φ a h → Ψ a h) → always I p h Φ → always I p h Ψ.
Proof.
  intros HΦ. revert h. induction p; simpl; intros h [? Ha]; split; auto.
Qed.

Lemma always_bind {A B} I (p : prog A) (f : A → prog B) h Φ :
  always I p h (fun a h' => always I (f a) h' Φ) → always I (p ≫= f) h Φ.
Proof.
  unfold mbind, prog_bind. revert h. induction p; simpl; intros h [Hi Ha]; auto.
Qed.

(** A continuation only has to satisfy what the first part leaves. *)
Lemma always_then {A B} I (p : prog A) (f : A → prog B) h Φ Ψ :
  always I p h Φ → (∀ a h', Φ a h' → always I (f a) h' Ψ) → always I (p ≫= f) h Ψ.
Proof. intros Hp Hf. apply always_bind. by apply (always_mono _ _ _ Φ). Qed.

Lemma always_mono_inv {A} (I J : list label → Prop) (p : prog A) h Φ :
  (∀ h, I h → J h) → always I p h Φ → always J p h Φ.
Proof. intros HI. revert h. induction p; simpl; intros h [? Ha]; split; auto. Qed.

(** What a program does on its own, started with an empty history, holds of
    what it adds to any history. *)
Lemma always_shift {A} (I J : list label → Prop) (p : prog A) h0 h Φ :
  always I p h Φ → (∀ ls, I ls → J (h0 ++ ls)) →
  always J p (h0 ++ h) (fun a h' => ∃ ls, h' = h0 ++ ls ∧ I ls ∧ Φ a ls).
Proof.
  intros Ha HJ. revert h Ha.
  induction p; simpl; intros h [? Ha]; (split; [by auto|]); rewrite <- ?app_assoc; eauto;
    intros; rewrite <- ?app_assoc; eauto.
Qed.

(** [p] only does labels in [Q], and [Φ] holds of its result and its labels. *)
Definition spec {A} (Q : label → Prop) (p : prog A) (Φ : A → list label → Prop) : Prop :=
  always (Forall Q) p [] Φ.

Lemma spec_use {A} Q (J : list label → Prop) (p : prog A) h Φ :
  spec Q p Φ → (∀ ls, Forall Q ls → J (h ++ ls)) →
  always J p h (fun a h' => ∃ ls, h' = h ++ ls ∧ Forall Q ls ∧ Φ a ls).
Proof.
  intros Hp HJ. pose proof (always_shift _ J _ h [] Φ Hp HJ) as Hs. by rewrite app_nil_r in Hs.
Qed.

Lemma spec_mono {A} (Q R : label → Prop) (p : prog A) (Φ Ψ : A → list label → Prop) :
  (∀ l, Q l → R l) → (∀ a ls, Φ a ls → Ψ a ls) → spec Q p Φ → spec R p Ψ.
Proof.
  intros HQ HΦ Hp. apply (always_mono _ _ _ Φ); [done|].
  apply (always_mono_inv (Forall Q)); [|done]. intros h Hh. by apply (Forall_impl Q).
Qed.

Lemma spec_ret {A} Q (a : A) (Φ : A → list label → Prop) : Φ a [] → spec Q (mret a) Φ.
Proof. split; [constructor|done]. Qed.

Lemma spec_bind {A B} Q (p : prog A) (f : A → prog B) Φ Ψ :
  spec Q p Φ → (∀ a ls, Φ a ls → Forall Q ls → spec Q (f a) (fun b ls' => Ψ b (ls ++ ls'))) →
  spec Q (p ≫= f) Ψ.
Proof.
  intros Hp Hf. unfold spec. apply always_bind.
  apply (always_mono _ _ _ (fun a ls => Forall Q ls ∧ Φ a ls)).
  - intros a ls [Hq Ha]. specialize (Hf a ls Ha Hq).
    apply (spec_use _ (Forall Q) _ ls) in Hf; [|intros; by apply Forall_app].
    revert Hf. apply always_mono. by intros b ? (ls' & -> & _ & ?).
  - clear Hf. unfold spec in Hp. revert Hp. generalize (@nil label).
    induction p; simpl; intros h [? Ha]; split; auto.
Qed.

Lemma spec_sound {A} Q (p : prog A) Φ ls p' :
  spec Q p Φ → runs p ls p' → Forall Q ls ∧ ∀ a, p' = Ret A a → Φ a ls.
Proof. apply always_sound. Qed.

(** A history whose every label is fit to come after those before it. *)
Definition steps (G : list label → label → Prop) (h : list label) : Prop :=
  ∀ pre l post, h = pre ++ l :: post → G pre l.

Lemma steps_nil G : steps G [].
Proof. intros pre l post E. by destruct pre. Qed.

Lemma steps_snoc G h l : steps G (h ++ [l]) ↔ steps G h ∧ G h l.
Proof.
  split.
  - intros Hs. split.
    + intros pre x post ->. apply (Hs pre x (post ++ [l])). by rewrite <- app_assoc.
    + by apply (Hs h l []).
  - intros [Hs Hl] pre x post E. destruct post as [|y post _] using rev_ind.
    + by apply app_inj_tail in E as [<- <-].
    + rewrite app_comm_cons, app_assoc in E. apply app_inj_tail in E as [-> _]. by eapply Hs.
Qed.

Lemma steps_app_Forall G (Q : label → Prop) h ls :
  steps G h → (∀ pre l, Q l → G pre l) → Forall Q ls → steps G (h ++ ls).
Proof.
  intros Hs Hg Hq. induction ls as [|l ls IH] using rev_ind; [by rewrite app_nil_r|].
  apply Forall_app in Hq as [Hq Hl%Forall_inv].
  rewrite app_assoc. apply steps_snoc. split; [by apply IH|by apply Hg].
Qed.

(** ** Reading a history *)
Definition recorded (h : list label) : list AuditEntry :=
  omap (fun l => match l with LRecord _ e _ => Some e | _ => None end) h.
Definition submitted (h : list label) : list RequestMessage :=
  omap (fun l => match l with LSubmit r _ => Some r | _ => None end) h.
(** The states a task saw or left. *)
Definition seen (h : list label) : list S :=
  omap (fun l => match l with LUpdate s _ => Some s | _ => None end) h.

Lemma recorded_app a b : recorded (a ++ b) = recorded a ++ recorded b.
Proof. apply omap_app. Qed.
Lemma submitted_app a b : submitted (a ++ b) = submitted a ++ submitted b.
Proof. apply omap_app. Qed.
Lemma seen_app a b : seen (a ++ b) = seen a ++ seen b.
Proof. apply omap_app. Qed.
End Task.

#[export] Hint Rewrite @recorded_app @submitted_app @seen_app : task.
#[global] Arguments prog {_} S A.
#[global] Arguments label {_} S.
#[global] Arguments Ret {_ _ _} a.
#[global] Arguments Panic {_ _ _}.
#[global] Arguments Clock {_ _ _} k.
#[global] Arguments Random {_ _ _} k.
#[global] Arguments Record_ {_ _ _} committed e k.
#[global] Arguments Update {_ _ _} f k.
#[global] Arguments IsClosed {_ _ _} k.
#[global] Arguments Submit {_ _ _} r timeout_ms k.
#[global] Arguments Await {_ _ _} r k.
#[global] Arguments Validate {_ _ _} c p k.
#[global] Arguments Connect {_ _ _} e k.
#[global] Arguments Discover {_ _ _} k.

(** Symbolic execution: one effect of a program given by its constructor. *)
Lemma steps_extend `{Opc} {S} (G : list (label S) → label S → Prop) h ls :
  steps G h → (∀ pre l, G (h ++ pre) l) → steps G (h ++ ls).
Proof.
  intros Hs Hg. induction ls as [|l ls IH] using rev_ind; [by rewrite app_nil_r|].
  rewrite app_assoc. apply steps_snoc. split; [done|apply Hg].
Qed.

Ltac run_prog :=
  unfold get, atomic, clock, random, record_as, mbind, mret, prog_bind, prog_ret;
  cbn [bind always app].

(** Steps through a program as long as it only asks for answers. *)
Ltac run_on :=
  repeat match goal with
  | |- Forall _ _ ∧ _ => split; [by repeat constructor|]
  | |- ∀ _ : bool, _ => intros [|]; run_prog
  | |- ∀ _ : result _ _, _ => intros ?; run_prog
  | |- ∀ _ : Z, _ => intros ?; run_prog
  end.

(** ** Running a program *)
Section Exec.
Context `{Opc} {S : Type}.

(** The outside world, answering every effect of a kind the same way. *)
Record World : Type := mkWorld {
  w_clock : Z;
  w_random : Blob;
  w_record : AuditEntry → result string Z;
  w_closed : bool;
  w_answer : RequestMessage → result StatusCode ResponseMessage;
  w_validate : Cert → Policy → result StatusCode unit;
  w_connect : EndpointDescription → result (StatusCode * string) unit;
  w_discover : result string (list EndpointDescription);
}.

(** The labels of a program run by itself, what it returns ([None]: it
    panics), and the shared state at the end. *)
Fixpoint exec {A} (w : World) (p : prog S A) (s : S) : list (label S) * option A * S :=
  let add l r := (l :: r.1.1, r.1.2, r.2) in
  match p with
  | Ret a => ([], Some a, s)
  | Panic => ([], None, s)
  | Clock k => add (LClock (w_clock w)) (exec w (k (w_clock w)) s)
  | Random k => add (LRandom (w_random w)) (exec w (k (w_random w)) s)
  | Record_ c e k => add (LRecord c e (w_record w e)) (exec w (k (w_record w e)) s)
  | Update f k => add (LUpdate s (f s)) (exec w (k s) (f s))
  | IsClosed k => add (LIsClosed (w_closed w)) (exec w (k (w_closed w)) s)
  | Submit r t k => add (LSubmit r t) (exec w k s)
  | Await r k => add (LAwait r (w_answer w r)) (exec w (k (w_answer w r)) s)
  | Validate c p k => add (LValidate c p (w_validate w c p)) (exec w (k (w_validate w c p)) s)
  | Connect e k => add (LConnect e (w_connect w e)) (exec w (k (w_connect w e)) s)
  | Discover k => add (LDiscover (w_discover w)) (exec w (k (w_discover w)) s)
  end.

Lemma exec_runs {A} w (p : prog S A) s :
  runs p (exec w p s).1.1 (match (exec w p s).1.2 with Some a => Ret a | None => Panic end).
Proof.
  revert s. induction p as [a| | | | | | | | | | |]; intros s; simpl; try apply runs_here;
    eapply runs_step; first [constructor|done].
Qed.

(** A prefix of a run is a run. *)
Lemma runs_prefix {A} (p q : prog S A) ls ls' :
  runs p (ls ++ ls') q → ∃ p', runs p ls p' ∧ runs p' ls' q.
Proof.
  revert p. induction ls as [|l ls IH]; intros p Hr; [by exists p; split; [constructor|]|].
  inversion Hr as [|? ? p1 ? ? Hd Hrest]; subst. destruct (IH p1 Hrest) as (p' & H1 & H2).
  exists p'. split; [by eapply runs_step|done].
Qed.

Lemma exec_prefix {A} w (p : prog S A) s ls ls' :
  (exec w p s).1.1 = ls ++ ls' → ∃ p', runs p ls p'.
Proof.
  intros He. pose proof (exec_runs w p s) as Hr. rewrite He in Hr.
  apply runs_prefix in Hr as (p' & Hr & _). by exists p'.
Qed.

Lemma exec_returns {A} w (p : prog S A) s a :
  (exec w p s).1.2 = Some a → runs p (exec w p s).1.1 (Ret a).
Proof. intros He. pose proof (exec_runs w p s) as Hr. by rewrite He in Hr. Qed.
End Exec.

(** ** Complete runs *)
Section Complete.
Context `{Opc} {S : Type}.

Lemma runs_ret {A} (a b : A) (ls : list (label S)) : runs (Ret a) ls (Ret b) → a = b ∧ ls = [].
Proof. inversion 1 as [|p l p' ls' p'' Hd]; simplify_eq; [done|inversion Hd]. Qed.

(** A run of a composed program is a run of the first part and one of the rest. *)
Lemma runs_bind {A B} (p : prog S A) (f : A → prog S B) ls b :
  runs (p ≫= f) ls (Ret b) →
  ∃ ls1 ls2 a, ls = ls1 ++ ls2 ∧ runs p ls1 (Ret a) ∧ runs (f a) ls2 (Ret b).
Proof.
  unfold mbind, prog_bind. revert ls.
  induction p as [a| |k IH|k IH|c e k IH|g k IH|k IH|r t k IH|r k IH|c p k IH|e k IH|k IH]; intros ls; simpl.
  { intros Hr. exists [], ls, a. split_and!; [done|constructor|done]. }
  { inversion 1 as [|q l q' ls' q'' Hd]. inversion Hd. }
  all: inversion 1 as [|q l q' ls' q'' Hd Hr]; simplify_eq; inversion Hd; subst.
  all: match goal with
    | Hr : runs (bind _ _) _ _ |- _ =>
        apply IH in Hr as (ls1 & ls2 & x & -> & H1 & H2);
        eexists (_ :: ls1), ls2, x; split_and!; [reflexivity|eapply runs_step; [constructor|exact H1]|exact H2]
    end.
Qed.

Lemma runs_clock (ls : list (label S)) t : runs clock ls (Ret t) → ls = [LClock t].
Proof.
  inversion 1 as [|q l q' ls' q'' Hd Hr]; simplify_eq. inversion Hd; subst. by apply runs_ret in Hr as [-> ->].
Qed.

Lemma runs_random (ls : list (label S)) b : runs random ls (Ret b) → ls = [LRandom b].
Proof.
  inversion 1 as [|q l q' ls' q'' Hd Hr]; simplify_eq. inversion Hd; subst. by apply runs_ret in Hr as [-> ->].
Qed.

Lemma runs_record c e (ls : list (label S)) a : runs (record_as c e) ls (Ret a) → ls = [LRecord c e a].
Proof.
  inversion 1 as [|q l q' ls' q'' Hd Hr]; simplify_eq. inversion Hd; subst. by apply runs_ret in Hr as [-> ->].
Qed.

Lemma runs_atomic {A} (f : S → A * S) ls a :
  runs (atomic f) ls (Ret a) → ∃ s, ls = [LUpdate s (f s).2] ∧ a = (f s).1.
Proof.
  inversion 1 as [|q l q' ls' q'' Hd Hr]; simplify_eq. inversion Hd; subst.
  apply runs_ret in Hr as [<- ->]. eauto.
Qed.

Lemma runs_get (ls : list (label S)) s : runs get ls (Ret s) → ls = [LUpdate s s].
Proof.
  inversion 1 as [|q l q' ls' q'' Hd Hr]; simplify_eq. inversion Hd; subst.
  by apply runs_ret in Hr as [-> ->].
Qed.

Lemma runs_or_panic {A} (o : option A) (ls : list (label S)) a :
  runs (or_panic o) ls (Ret a) → o = Some a ∧ ls = [].
Proof.
  destruct o as [x|]; simpl.
  - intros [-> ->]%runs_ret. done.
  - inversion 1 as [|q l q' ls' q'' Hd]; simplify_eq. inversion Hd.
Qed.

(** The critical sections of a task that runs while no other one does. *)
Fixpoint chained (s : S) (h : list (label S)) (s' : S) : Prop :=
  match h with
  | [] => s' = s
  | LUpdate b a :: h => b = s ∧ chained a h s'
  | _ :: h => chained s h s'
  end.

Lemma chained_app s h h' s' : chained s (h ++ h') s' ↔ ∃ m, chained s h m ∧ chained m h' s'.
Proof.
  revert s. induction h as [|l h IH]; intros s; simpl.
  - split; [eauto|by intros (m & -> & ?)].
  - destruct l; rewrite ?IH; naive_solver.
Qed.

Definition clocks (h : list (label S)) : list Z :=
  omap (fun l => match l with LClock t => Some t | _ => None end) h.
Lemma clocks_app h h' : clocks (h ++ h') = clocks h ++ clocks h'.
Proof. apply omap_app. Qed.

Lemma exec_chained {A} (w : World) (p : prog S A) s :
  chained s (exec w p s).1.1 (exec w p s).2.
Proof.
  revert s. induction p as [| |k IH|k IH|c e k IH|g k IH|k IH|r t k IH|r k IH|c p k IH|e k IH|k IH];
    intros s; simpl; try done; try apply IH; by split.
Qed.
End Complete.

#[export] Hint Rewrite @clocks_app : task.

(** Decomposes a complete run of a program written with the monad's notation. *)
Ltac run_parts :=
  repeat match goal with
  | H : runs (_ ≫= _) _ (Ret _) |- _ =>
      let l1 := fresh "ls" in let l2 := fresh "ls" in let a := fresh "a" in
      let H1 := fresh "Hr" in let H2 := fresh "Hr" in
      apply runs_bind in H as (l1 & l2 & a & -> & H1 & H2)
  | H : runs (mret _) _ (Ret _) |- _ => apply runs_ret in H as [? ->]; subst
  | H : runs (Ret _) _ (Ret _) |- _ => apply runs_ret in H as [? ->]; subst
  | H : runs clock _ (Ret _) |- _ => apply runs_clock in H as ->
  | H : runs random _ (Ret _) |- _ => apply runs_random in H as ->
  | H : runs (record_as _ _) _ (Ret _) |- _ => apply runs_record in H as ->
  | H : runs get _ (Ret _) |- _ => apply runs_get in H as ->
  | H : runs (atomic _) _ (Ret _) |- _ =>
      let s := fresh "s" in apply runs_atomic in H as (s & -> & ->)
  | H : runs (or_panic _) _ (Ret _) |- _ => apply runs_or_panic in H as [H ->]
  end.
