(* ===== verification/Steps.v ===== *)
(** More on programs ([Task]): what they do when nothing runs at the same
    time, cut off anywhere, and programs written for a part of the state. *)

From S2P Require Import Prelude Net Event Opc Task.

(** ** Cut off anywhere

    [keeps p s Φ]: started in [s] with the state to itself, [p] is in [J] after
    every effect (where a crash leaves the state), and returns with [Φ]. Clock
    readings are in [now_ok], the other answers are arbitrary. *)
Section Keeps.
Context `{Opc} {S : Type} (now_ok : Z → Prop) (J : S → Prop).

Fixpoint keeps {A} (p : prog S A) (s : S) (Φ : A → S → Prop) : Prop :=
  J s ∧
  match p with
  | Ret a => Φ a s
  | Panic => True
  | Clock k => ∀ z, now_ok z → keeps (k z) s Φ
  | Random k => ∀ b, keeps (k b) s Φ
  | Record_ c e k => ∀ a, keeps (k a) s Φ
  | Update f k => keeps (k s) (f s) Φ
  | IsClosed k => ∀ b, keeps (k b) s Φ
  | Submit r t k => keeps k s Φ
  | Await r k => ∀ a, keeps (k a) s Φ
  | Validate c p k => ∀ a, keeps (k a) s Φ
  | Connect e k => ∀ a, keeps (k a) s Φ
  | Discover k => ∀ a, keeps (k a) s Φ
  end.

Lemma keeps_inv {A} (p : prog S A) s Φ : keeps p s Φ → J s.
Proof. destruct p; simpl; by intros [? _]. Qed.

Lemma keeps_runs {A} (p p' : prog S A) ls s s' Φ :
  runs p ls p' → keeps p s Φ → chained s ls s' → Forall now_ok (clocks ls) → keeps p' s' Φ.
Proof.
  intros Hr. revert s. induction Hr as [|p l p' ls p'' Hd Hr IH]; intros s Hk Hc Ht; [by simpl in Hc; subst|].
  destruct Hd; simpl in *; destruct Hk as [_ Hk]; try (by apply (IH s); auto).
  - inversion Ht; subst. apply (IH s); auto.
  - destruct Hc as [-> Hc]. by apply (IH (f s)).
Qed.

(** Every state a crash can leave, and every state it returns in. *)
Lemma keeps_sound {A} (p p' : prog S A) ls s s' Φ :
  keeps p s Φ → runs p ls p' → chained s ls s' → Forall now_ok (clocks ls) →
  J s' ∧ ∀ a, p' = Ret a → Φ a s'.
Proof.
  intros Hk Hr Hc Ht. pose proof (keeps_runs _ _ _ _ _ _ Hr Hk Hc Ht) as Hk'. split; [by eapply keeps_inv|].
  intros a ->. by destruct Hk'.
Qed.

Lemma keeps_mono {A} (p : prog S A) s (Φ Ψ : A → S → Prop) :
  (∀ a s, J s → Φ a s → Ψ a s) → keeps p s Φ → keeps p s Ψ.
Proof. intros HΦ. revert s. induction p; simpl; intros s [? Hk]; split; auto. Qed.

Lemma keeps_ret {A} (a : A) s (Φ : A → S → Prop) : J s → Φ a s → keeps (mret a) s Φ.
Proof. by split. Qed.

Lemma keeps_bind {A B} (p : prog S A) (f : A → prog S B) s Φ :
  keeps p s (fun a s' => keeps (f a) s' Φ) → keeps (p ≫= f) s Φ.
Proof. unfold mbind, prog_bind. revert s. induction p; simpl; intros s [? Hk]; auto. Qed.

Lemma keeps_atomic {A} (f : S → A * S) s (Φ : A → S → Prop) :
  J s → J (f s).2 → Φ (f s).1 (f s).2 → keeps (atomic f) s Φ.
Proof. intros. split; [done|]. by split. Qed.

Lemma keeps_clock s (Φ : Z → S → Prop) : J s → (∀ z, now_ok z → Φ z s) → keeps clock s Φ.
Proof. intros HJ HΦ. split; [done|]. intros z Hz. split; auto. Qed.

Lemma keeps_random s (Φ : Blob → S → Prop) : J s → (∀ b, Φ b s) → keeps random s Φ.
Proof. intros HJ HΦ. split; [done|]. intros b. split; auto. Qed.
End Keeps.

(** ** Programs on a part of the state *)
Section Zoom.
Context `{Opc} {S T : Type} (view : S → T) (put : T → S → S).

Fixpoint zoom {A} (p : prog T A) : prog S A :=
  match p with
  | Ret a => Ret a
  | Panic => Panic
  | Clock k => Clock (fun z => zoom (k z))
  | Random k => Random (fun b => zoom (k b))
  | Record_ c e k => Record_ c e (fun a => zoom (k a))
  | Update f k => Update (fun s => put (f (view s)) s) (fun s => zoom (k (view s)))
  | IsClosed k => IsClosed (fun b => zoom (k b))
  | Submit r t k => Submit r t (zoom k)
  | Await r k => Await r (fun a => zoom (k a))
  | Validate c p k => Validate c p (fun a => zoom (k a))
  | Connect e k => Connect e (fun a => zoom (k a))
  | Discover k => Discover (fun a => zoom (k a))
  end.

(** What a step is for the part. *)
Definition part (l : label S) : label T :=
  match l with
  | LClock z => LClock z
  | LRandom b => LRandom b
  | LRecord c e a => LRecord c e a
  | LUpdate b a => LUpdate (view b) (view a)
  | LIsClosed b => LIsClosed b
  | LSubmit r t => LSubmit r t
  | LAwait r a => LAwait r a
  | LValidate c p a => LValidate c p a
  | LConnect e a => LConnect e a
  | LDiscover a => LDiscover a
  end.

(** A step leaves the rest of the state. *)
Definition framed (l : label S) : Prop := match l with LUpdate b a => a = put (view a) b | _ => True end.

Hypothesis view_put : ∀ t s, view (put t s) = t.

Lemma runs_zoom {A} (p : prog T A) ls (a : A) :
  runs (zoom p) ls (Ret a) → runs p (part <$> ls) (Ret a) ∧ Forall framed ls.
Proof.
  revert ls. induction p as [x| |k IH|k IH|c e k IH|g k IH|k IH|r t k IH|r k IH|c q k IH|e k IH|k IH]; intros ls; simpl.
  { intros [-> ->]%runs_ret. by split; [constructor|]. }
  { inversion 1 as [|? ? ? ? ? Hd]. inversion Hd. }
  all: inversion 1 as [|? ? ? ls' ? Hd Hr]; simplify_eq; inversion Hd; subst.
  all: apply IH in Hr as [Hr Hf]; split; [|by constructor; [simpl; rewrite ?view_put|]].
  all: rewrite fmap_cons; refine (runs_step _ _ _ _ _ _ Hr); cbn [part]; rewrite ?view_put; constructor.
Qed.

Lemma recorded_part ls : recorded (part <$> ls) = recorded ls.
Proof. apply list_omap_ext, Forall2_fmap_l, Forall_Forall2_diag, Forall_forall. by intros []. Qed.
Lemma clocks_part ls : clocks (part <$> ls) = clocks ls.
Proof. apply list_omap_ext, Forall2_fmap_l, Forall_Forall2_diag, Forall_forall. by intros []. Qed.
End Zoom.
#[global] Arguments zoom {_ _ _} view put {_} p.

(** ** The first effects of a program *)
Section RunFor.
Context `{Opc} {S : Type}.

Definition effect {A} (w : World) (p : prog S A) (s : S) : option (label S * prog S A * S) :=
  match p with
  | Ret _ | Panic => None
  | Clock k => Some (LClock (w_clock w), k (w_clock w), s)
  | Random k => Some (LRandom (w_random w), k (w_random w), s)
  | Record_ c e k => Some (LRecord c e (w_record w e), k (w_record w e), s)
  | Update f k => Some (LUpdate s (f s), k s, f s)
  | IsClosed k => Some (LIsClosed (w_closed w), k (w_closed w), s)
  | Submit r t k => Some (LSubmit r t, k, s)
  | Await r k => Some (LAwait r (w_answer w r), k (w_answer w r), s)
  | Validate c q k => Some (LValidate c q (w_validate w c q), k (w_validate w c q), s)
  | Connect e k => Some (LConnect e (w_connect w e), k (w_connect w e), s)
  | Discover k => Some (LDiscover (w_discover w), k (w_discover w), s)
  end.

(** At most [n] effects: the labels, the rest of the program, the state. *)
Fixpoint run_for {A} (n : nat) (w : World) (p : prog S A) (s : S) : list (label S) * prog S A * S :=
  match n with
  | O => ([], p, s)
  | Datatypes.S n =>
      match effect w p s with
      | None => ([], p, s)
      | Some (l, p', s') => let r := run_for n w p' s' in (l :: r.1.1, r.1.2, r.2)
      end
  end.

Lemma effect_does {A} w (p : prog S A) s l p' s' : effect w p s = Some (l, p', s') → does p l p' ∧ ∀ h t, chained s (l :: h) t ↔ chained s' h t.
Proof. destruct p; simpl; intros [= <- <- <-]; (split; [constructor|]); intros h t; simpl; tauto. Qed.

Lemma run_for_runs {A} n w (p : prog S A) s :
  runs p (run_for n w p s).1.1 (run_for n w p s).1.2 ∧ chained s (run_for n w p s).1.1 (run_for n w p s).2.
Proof.
  revert p s. induction n as [|n IH]; intros p s; [by split; [constructor|]|]. cbn [run_for].
  destruct (effect w p s) as [[[l p'] s']|] eqn:Ho; [|by split; [constructor|]]. destruct (IH p' s') as [Hr Hc].
  apply effect_does in Ho as [Hd Hch]. split; [by eapply runs_step|]. cbn [fst snd]. by apply Hch.
Qed.
End RunFor.
