(* ===== verification/Sessions.v ===== *)
(** What the connections of a target share ([RelayTarget] and
    [SessionRegistry] in [src/src/relay/mod.rs]): sessions, connected clients,
    display names, summarised writes, counters and the target's status. Every
    method that takes a lock is a function on the state it finds. *)

From Stdlib Require Import SpecFloat.
From S2P Require Import Prelude Net Config Pipeline Ignore Endpoints AuditMap Event Opc.

(** Request handles of the gateway's own requests start here. *)
Definition GATEWAY_REQUEST_HANDLES : Z := 4026531840.

(** [x.max(0.0) as u64] of an [f64]. *)
Definition f64_as_u64 (x : spec_float) : Z :=
  match x with
  | S754_zero _ | S754_nan | S754_infinity true | S754_finite true _ _ => 0
  | S754_infinity false => u64_max
  | S754_finite false m e => Z.min u64_max (Z.shiftl (Z.pos m) e)
  end.

(** The outcome of the gateway's trust check with a target. *)
Inductive GatewayTrust : Type :=
| TrustUnknown
| Trusted (policy : string)
| Refused (detail : string)
| TargetNotTrustedYet
| NoSecureEndpoint
| TrustFailed (detail : string).

#[export] Instance GatewayTrust_eq_dec : EqDecision GatewayTrust.
Proof. solve_decision. Defined.

Section Sessions.
Context `{Opc}.

Record SessionEntry : Type := mkSessionEntry {
  se_client : ClientContext;
  se_client_certificate : option Cert;
  downstream_nonce : Blob;
  upstream_nonce : Blob;
  (** nanoseconds *)
  se_timeout : Z;
  last_used : Z;
  se_security_policy : Policy;
  se_security_mode : SecurityMode;
  se_connection_id : Z;
}.

Record ClientInfo : Type := mkClientInfo {
  ci_remote_addr : string;
  connected_at : Z;
  ci_security_policy : string;
  ci_security_mode : string;
  ci_application_uri : option string;
  ci_application_name : option string;
  ci_user : option string;
}.

(** ** The session registry *)
Abbreviation Sessions := (gmap NodeId SessionEntry).

Definition touch (now : Z) (s : SessionEntry) : SessionEntry :=
  mkSessionEntry (se_client s) (se_client_certificate s) (downstream_nonce s) (upstream_nonce s)
    (se_timeout s) now (se_security_policy s) (se_security_mode s) (se_connection_id s).

(** Not certainly timed out by the upstream server. *)
Definition live (now : Z) (s : SessionEntry) : Prop := Z.max 0 (now - last_used s) < 2 * se_timeout s.
#[export] Instance live_dec now s : Decision (live now s).
Proof. unfold live. apply _. Defined.

(** [SessionRegistry::insert] *)
Definition session_insert (now : Z) (token : NodeId) (e : SessionEntry) (m : Sessions) : Sessions :=
  <[token := e]> (filter (fun kv => live now kv.2) m).

(** [SessionRegistry::with]: the entry [f] works on, and the new registry. *)
Definition session_with (now : Z) (token : NodeId) (f : SessionEntry → SessionEntry) (m : Sessions)
    : option SessionEntry * Sessions :=
  match m !! token with
  | Some s => (Some (touch now s), <[token := f (touch now s)]> m)
  | None => (None, m)
  end.

Definition owned_by (token : NodeId) (connection : Z) (m : Sessions) : bool :=
  match m !! token with Some s => se_connection_id s =? connection | None => false end.

(** [SessionRegistry::remove_owned] *)
Definition remove_owned (token : NodeId) (connection : Z) (m : Sessions)
    : option SessionEntry * Sessions :=
  match m !! token with
  | Some s => if se_connection_id s =? connection then (Some s, delete token m) else (None, m)
  | None => (None, m)
  end.

(** ** The shared state *)
Record Shared : Type := mkShared {
  sessions : Sessions;
  clients : gmap Z ClientInfo;
  names : NameCache;
  summarise : Lookup;
  ignored : gmap string Summary;
  settings : AuditSettings;
  next_channel : Z;
  next_request : Z;
  (** the target's entry in the statuses: trust, and the endpoints last seen *)
  status : option (GatewayTrust * list EndpointDescription);
}.

Definition set_sessions (m : Sessions) (s : Shared) : Shared :=
  mkShared m (clients s) (names s) (summarise s) (ignored s) (settings s) (next_channel s)
    (next_request s) (status s).
Definition set_clients (m : gmap Z ClientInfo) (s : Shared) : Shared :=
  mkShared (sessions s) m (names s) (summarise s) (ignored s) (settings s) (next_channel s)
    (next_request s) (status s).
Definition set_names (m : NameCache) (s : Shared) : Shared :=
  mkShared (sessions s) (clients s) m (summarise s) (ignored s) (settings s) (next_channel s)
    (next_request s) (status s).
Definition set_ignored (m : gmap string Summary) (s : Shared) : Shared :=
  mkShared (sessions s) (clients s) (names s) (summarise s) m (settings s) (next_channel s)
    (next_request s) (status s).
Definition set_status (t : option (GatewayTrust * list EndpointDescription)) (s : Shared) : Shared :=
  mkShared (sessions s) (clients s) (names s) (summarise s) (ignored s) (settings s)
    (next_channel s) (next_request s) t.

(** [AtomicU32::fetch_add(1)] *)
Definition next_request_handle (s : Shared) : Z * Shared :=
  (next_request s,
   mkShared (sessions s) (clients s) (names s) (summarise s) (ignored s) (settings s)
     (next_channel s) (u32_wrap (next_request s + 1)) (status s)).
Definition next_channel_id (s : Shared) : Z * Shared :=
  (next_channel s,
   mkShared (sessions s) (clients s) (names s) (summarise s) (ignored s) (settings s)
     (u32_wrap (next_channel s + 1)) (next_request s) (status s)).

(** ** Trust in the gateway *)
Definition trust_problem (t : GatewayTrust) : bool :=
  match t with Refused _ | TargetNotTrustedYet => true | _ => false end.

Definition refused_detail (detail : string) : string :=
  detail +:+ "; the target probably does not trust the gateway's certificate yet (trust it on the target, e.g. move it from its rejected to its trusted certificates)".

(** [RelayTarget::set_gateway_trust]: the event to record, and the new state. *)
Definition trust_event (endpoint_url : string) (before result : GatewayTrust) : option AuditEvent :=
  match result with
  | Refused detail =>
      match before with
      | Refused _ => None
      | _ => Some (TargetRefusedGateway endpoint_url (refused_detail detail))
      end
  | TargetNotTrustedYet =>
      if bool_decide (before = TargetNotTrustedYet) then None
      else Some (TargetNotTrusted endpoint_url)
  | Trusted policy =>
      if trust_problem before then Some (TargetTrustRestored endpoint_url policy) else None
  | _ => None
  end.

Definition set_trust (endpoint_url : string) (result : GatewayTrust) (s : Shared)
    : option AuditEvent * Shared :=
  match status s with
  | None => (None, s)
  | Some (before, raw) =>
      if bool_decide (before = result) then (None, s)
      else (trust_event endpoint_url before result, set_status (Some (result, raw)) s)
  end.

(** [take] of [IgnoredWrites], on the shared state. *)
Definition take_summaries (s : Shared) : list AuditEvent * Shared :=
  let (events, rest) := Ignore.take (ignored s) in (events, set_ignored rest s).
End Sessions.

(** ** Properties *)

(** The trust check and the clients' connections share the state: a target
    that refuses the gateway, is unreachable for a moment and then trusts the
    gateway again leaves the refusal as the last word of the trail. *)
Example trust_restored_unrecorded `{Opc} s :
  status s = Some (Refused "BadSecurityChecksFailed", []) →
  let (e1, s1) := set_trust "opc.tcp://plc:4840" (TrustFailed "target not reachable") s in
  let (e2, s2) := set_trust "opc.tcp://plc:4840" (Trusted "Basic256Sha256") s1 in
  e1 = None ∧ e2 = None ∧ status s2 = Some (Trusted "Basic256Sha256", []).
Proof. unfold set_trust. intros ->. by repeat (simpl; try case_bool_decide). Qed.
