(* ===== verification/Relay.v ===== *)
(** The services of a session ([src/src/relay/connection.rs], with
    [Upstream::send] of [src/src/relay/upstream.rs]): creating, activating and
    closing sessions, and forwarding every other request. Each is a program of
    [Task] over the shared state of [Sessions]; what the OPC UA stack's
    cryptography answers is the class [Crypto]. *)

From S2P Require Import Prelude Net Config Pipeline Ignore Endpoints AuditMap Event Opc Task Sessions.

Definition NONCE_LENGTH : nat := 32.
Definition PRE_READ_TIMEOUT_MS : Z := 5000.

(** How long to wait for the upstream response, in milliseconds. *)
Definition upstream_timeout (timeout_hint_ms : Z) : Z :=
  if timeout_hint_ms =? 0 then 600000 else clamp timeout_hint_ms 1000 3600000 + 5000.

(** The stack's cryptography. *)
Class Crypto `{Opc} : Type := {
  (** [verify_signature_data(signature, policy, signer, verifier, nonce).is_ok()] *)
  verify_signature : Signature → Policy → Cert → Cert → Blob → bool;
  (** [create_signature_data(key, policy, certificate, nonce)] *)
  create_signature : Blob → Policy → Blob → Blob → result StatusCode Signature;
  application_uri_valid : Cert → string → bool;
  (** [legacy_decrypt_secret]; [None]: it panics *)
  decrypt_secret : UserNameToken → Blob → Blob → option (result StatusCode Blob);
  (** [legacy_encrypt_secret]: the secret and its algorithm *)
  encrypt_secret : Policy → SecurityMode → UserTokenPolicy → Blob → option Cert → Blob →
                   result StatusCode (Blob * string);
}.

Section Relay.
Context `{Crypto}.
Abbreviation task := (prog Shared).

(** Orders security settings: None < Sign < SignAndEncrypt. *)
Definition security_rank (p : Policy) (m : SecurityMode) : Z :=
  if bool_decide (p = PolicyNone) then 0
  else match m with ModeSign => 1 | ModeSignAndEncrypt => 2 | _ => 0 end.

(** Everything a request task needs, detached from the connection. *)
Record Ctx : Type := mkCtx {
  target_name : string;
  target_url : string;
  min_security : MinSecurity;
  gateway : GatewayIdentity;
  (** the upstream channel: its endpoint and the server's certificate *)
  upstream_endpoint : EndpointDescription;
  upstream_certificate : option Cert;
  connection_id : Z;
  policy : Policy;
  mode : SecurityMode;
  client_certificate : option Cert;
  ctx_client : ClientContext;
  upstream_endpoints : list EndpointDescription;
  hello_url : string;
}.

Definition upstream_policy (c : Ctx) : Policy := ep_policy (upstream_endpoint c).

(** An entry of the target's for a client, as the code builds it. *)
Definition entry_for (target : string) (client : ClientContext) (e : AuditEvent) : task AuditEntry :=
  now ← clock; mret (with_client client (with_target target (new_entry now e))).

Definition audit (c : Ctx) (client : ClientContext) (e : AuditEvent) : task unit :=
  entry ← entry_for (target_name c) client e;
  _ ← record_as false entry;
  mret ().

(** ** Talking to the upstream server *)
Record SendError : Type := mkSendError { send_status : StatusCode; maybe_sent : bool }.

Definition not_connected : SendError := mkSendError BadServerNotConnected false.

(** Only "not connected" proves that the request never left. *)
Definition send_error (s : StatusCode) : SendError :=
  mkSendError s (negb (bool_decide (s = BadNotConnected))).

Definition answer_of (a : result StatusCode ResponseMessage) : result SendError ResponseMessage :=
  match a with Ok r => Ok r | Err s => Err (send_error s) end.

(** [Upstream::send], up to the queue: whether the request is on it. *)
Definition queue (r : RequestMessage) (timeout : Z) : task bool :=
  closed ← IsClosed mret;
  if closed : bool then mret false else Submit r timeout (mret true).

Definition await (r : RequestMessage) (queued : bool) : task (result SendError ResponseMessage) :=
  if queued then a ← Await r mret; mret (answer_of a) else mret (Err not_connected).

Definition send (r : RequestMessage) (timeout : Z) : task (result SendError ResponseMessage) :=
  q ← queue r timeout; await r q.

(** [join!(biased; ...)]: the first is queued first, then both are awaited. *)
Definition send_both (r1 : RequestMessage) (t1 : Z) (r2 : RequestMessage) (t2 : Z)
    : task (result SendError ResponseMessage * result SendError ResponseMessage) :=
  q1 ← queue r1 t1;
  q2 ← queue r2 t2;
  a1 ← await r1 q1;
  a2 ← await r2 q2;
  mret (a1, a2).

(** ** The registry's methods *)
Definition with_session (token : NodeId) (f : SessionEntry → SessionEntry)
    : task (option SessionEntry) :=
  now ← clock;
  atomic (fun s => let (r, m) := session_with now token f (sessions s) in (r, set_sessions m s)).

(** [client_of]: the session's client, read first, if the session belongs to
    the connection when that is asked afterwards. *)
Definition client_of (token : NodeId) (connection : Z) : task (option ClientContext) :=
  found ← with_session token id;
  match found with
  | None => mret None
  | Some e =>
      s ← get;
      mret (if owned_by token connection (sessions s) then Some (se_client e) else None)
  end.

Definition with_address (addr : string) (c : ClientContext) : ClientContext :=
  mkClientContext addr (application_uri c) (application_name c) (certificate_thumbprint c)
    (user c) (session_id c).

Definition with_user (u : UserIdentity) (c : ClientContext) : ClientContext :=
  mkClientContext (remote_addr c) (application_uri c) (application_name c)
    (certificate_thumbprint c) (Some u) (session_id c).

(** ** Forwarding *)

(** The client a forwarded request is attributed to. *)
Definition attributed_client (c : Ctx) (token : NodeId) : task ClientContext :=
  found ← client_of token (connection_id c);
  mret (match found with
        | Some cl => with_address (remote_addr (ctx_client c)) cl
        | None => ctx_client c
        end).

(** The plan without its ignored writes, and these. *)
Definition split_ignored (l : Lookup) (client : ClientContext) (p : option AuditPlan)
    : option AuditPlan * option (list WriteItem) :=
  match p with
  | None => (None, None)
  | Some p =>
      let (rest, taken) := if lookup_is_empty l then (p, None)
                           else take_ignored (fun n => matches l n client) p in
      (if is_empty rest then None else Some rest, taken)
  end.

Definition pre_read_of (old_values : bool) (known : NameCache) (p : option AuditPlan)
    : option AuditPlan * option PreRead :=
  match p with
  | None => (None, None)
  | Some p => let (p, pre) := pre_read old_values known p in (Some p, pre)
  end.

Definition record_outcome (closed : bool) (c : Ctx) (client : ClientContext) (e : AuditEvent)
    : task unit :=
  entry ← entry_for (target_name c) client e;
  _ ← record_as closed entry;
  mret ().

Fixpoint each {A} (f : A → task unit) (l : list A) : task unit :=
  match l with [] => mret () | x :: l => _ ← f x; each f l end.

(** One ignored write: counted, or recorded when too many nodes are pending. *)
Definition count_ignored (c : Ctx) (client : ClientContext) (h : Z) (w : AuditMap.IgnoredWrite) : task unit :=
  now ← clock;
  added ← atomic (fun s =>
    let (ok, m) := Ignore.add (ignored s) (mkOneWrite (iw_node_id w) (iw_display_name w)
                     (iw_value w) (iw_status w) client now) in
    (ok, set_ignored m s));
  if added : bool then mret ()
  else audit c client (Write h (iw_node_id w) (iw_display_name w) "Value" None None (iw_value w)
         None None None (iw_status w)).

(** The change is sent, with the reads of the plan in front of it; what they
    return is filled into the plan. *)
Definition send_change (c : Ctx) (request : RequestMessage) (p : option AuditPlan)
    (pre : option PreRead) : task (option AuditPlan * result SendError ResponseMessage) :=
  let header := request_header request in
  let timeout := upstream_timeout (timeout_hint header) in
  match pre with
  | None => a ← send request timeout; mret (p, a)
  | Some pre =>
      handle ← atomic next_request_handle;
      let read := RqRead (mkRequestHeader (authentication_token header) handle PRE_READ_TIMEOUT_MS)
                    (Some (nodes_to_read pre)) in
      '(r, a) ← send_both read PRE_READ_TIMEOUT_MS request timeout;
      match p, r with
      | Some p, Ok (RsRead _ results) =>
          read ← atomic (fun s =>
            match apply_pre_read p pre (default [] results) (names s) with
            | Some (p, known) => (Some p, set_names known s)
            | None => (None, s)
            end);
          p ← or_panic read;
          mret (Some p, a)
      | _, _ => mret (p, a)
      end
  end.

(** What the outcome of a change is recorded as. *)
Definition outcome_events (p : AuditPlan) (response : ResponseMessage) (unknown : option StatusCode)
    : list AuditEvent :=
  match unknown with
  | Some s => events_unknown p response s
  | None => events p response
  end.

(** The answer for the client, and the status of an unknown outcome. *)
Definition settle (handle : Z) (a : result SendError ResponseMessage)
    : ResponseMessage * option StatusCode :=
  match a with
  | Ok r => (r, None)
  | Err e => (fault handle (send_status e), if maybe_sent e then Some (send_status e) else None)
  end.

Definition record_all (closed : bool) (c : Ctx) (client : ClientContext) (handle : Z)
    (p : option AuditPlan) (ignored : option (list WriteItem)) (response : ResponseMessage)
    (unknown : option StatusCode) : task unit :=
  _ ← match ignored with
      | None => mret ()
      | Some items =>
          s ← get;
          each (count_ignored c client handle) (outcomes items response unknown (names s))
      end;
  match p with
  | None => mret ()
  | Some p => each (record_outcome closed c client) (outcome_events p response unknown)
  end.

(** The summarised nodes, and the names of ignored writes, are read once for
    the request; the code reads them per node under the same lock.

    Forwards a request unchanged and audits it if it changes the server. *)
Definition forward (c : Ctx) (request : RequestMessage) : task ResponseMessage :=
  let handle := request_handle (request_header request) in
  client ← attributed_client c (authentication_token (request_header request));
  whole ← or_panic (plan request);
  s ← get;
  let (p, ignored) := split_ignored (summarise s) client whole in
  s ← get;
  let (p, pre) := pre_read_of (s_record_old_value (settings s)) (names s) p in
  s ← get;
  let closed := bool_decide (fail_mode (settings s) = Closed) in
  committed ← match p with
              | Some p =>
                  if closed then
                    entry ← entry_for (target_name c) client (intent p);
                    record_as true entry
                  else mret (Ok 0)
              | None => mret (Ok 0)
              end;
  match committed with
  | Err _ => mret (fault handle BadInternalError)
  | Ok _ =>
      '(p, a) ← send_change c request p pre;
      let (response, unknown) := settle handle a in
      _ ← record_all closed c client handle p ignored response unknown;
      mret response
  end.

Definition close_session (c : Ctx) (h : RequestHeader) : task ResponseMessage :=
  let token := authentication_token h in
  response ← forward c (RqCloseSession h);
  found ← atomic (fun s => let (r, m) := remove_owned token (connection_id c) (sessions s) in
                           (r, set_sessions m s));
  match found with
  | Some e =>
      _ ← audit c (with_address (remote_addr (ctx_client c)) (se_client e)) SessionClosed;
      mret response
  | None => mret response
  end.
End Relay.

(** ** Properties *)
Section ForwardFacts.
Context `{Crypto}.
Abbreviation lbl := (label Shared).

Definition quiet (l : lbl) : Prop :=
  match l with LClock _ | LUpdate _ _ | LIsClosed _ => True | _ => False end.

(** The client is the connection itself, or the client of a session that
    belongs to the connection. *)
Definition attributed (c : Ctx) (token : NodeId) (cl : ClientContext) (ls : list lbl) : Prop :=
  cl = ctx_client c ∨
  ∃ s s' e, s ∈ seen ls ∧ s' ∈ seen ls ∧ sessions s !! token = Some e ∧
    cl = with_address (remote_addr (ctx_client c)) (se_client e) ∧
    owned_by token (connection_id c) (sessions s') = true.

Lemma attributed_client_spec c token :
  spec quiet (attributed_client c token) (attributed c token).
Proof.
  unfold attributed_client, client_of, with_session, spec. run_prog.
  split; [constructor|]. intros now. split; [by repeat constructor|]. intros s.
  unfold session_with. destruct (sessions s !! token) as [e|] eqn:He; run_prog.
  - split; [by repeat constructor|]. intros s'. split; [by repeat constructor|].
    destruct (owned_by token (connection_id c) (sessions s')) eqn:Ho; [right|by left].
    exists s, s', e. by split_and!; [left|right; left| | |].
  - split; [by repeat constructor|by left].
Qed.

(** ** Sending *)
Definition sending (l : lbl) : Prop :=
  match l with
  | LClock _ | LUpdate _ _ | LIsClosed _ | LSubmit _ _ | LAwait _ _ => True
  | _ => False
  end.

(** What a request came to: never queued, or what the channel answered. *)
Definition came (request : RequestMessage) (a : result SendError ResponseMessage)
    (ls : list lbl) : Prop :=
  (a = Err not_connected ∧ ∀ t, LSubmit request t ∉ ls) ∨
  ∃ r, LAwait request r ∈ ls ∧ a = answer_of r.

Lemma send_spec r t :
  spec sending (send r t) (fun a ls => recorded ls = [] ∧ came r a ls).
Proof.
  unfold send, queue, await, spec. run_prog. split; [constructor|]. intros [|]; run_prog.
  - split; [by repeat constructor|]. split; [done|]. left. split; [done|].
    intros t' Hin. by apply list_elem_of_singleton in Hin.
  - split; [by repeat constructor|]. split; [by repeat constructor|]. intros a.
    split; [by repeat constructor|]. split; [done|]. right. exists a. split; [|done].
    right. right. by left.
Qed.

Lemma send_both_spec r1 t1 r2 t2 :
  r1 ≠ r2 →
  spec sending (send_both r1 t1 r2 t2) (fun a ls => recorded ls = [] ∧ came r2 a.2 ls).
Proof.
  intros Hr. unfold send_both, queue, await, spec. run_prog. run_on.
  all: split; [done|].
  all: first [by left; split; [done|]; intros t'; rewrite !elem_of_cons, elem_of_nil; naive_solver
             |right; eexists; split; [|done]; set_solver].
Qed.

Lemma came_app request a ls0 ls ls1 :
  Forall quiet ls0 → Forall quiet ls1 → came request a ls → came request a (ls0 ++ ls ++ ls1).
Proof.
  intros Hq0 Hq1 [[-> Hn]|(r & Hr & ->)].
  - left. split; [done|]. intros t. rewrite !elem_of_app. rewrite Forall_forall in Hq0, Hq1.
    intros [Hin|[Hin|Hin]]; [by apply Hq0 in Hin|by eapply Hn|by apply Hq1 in Hin].
  - right. exists r. split; [|done]. rewrite !elem_of_app. auto.
Qed.

(** The plan's reads belong to the plan, and the change is not one of them. *)
Definition reads_fit (request : RequestMessage) (p : option AuditPlan) (pre : option PreRead) : Prop :=
  ∀ pr, pre = Some pr → (∀ h ns, request ≠ RqRead h ns) ∧
    ∃ p0, p = Some p0 ∧ in_plan (plan_size p0) (targets pr).

Lemma send_change_spec c request p pre :
  reads_fit request p pre →
  spec sending (send_change c request p pre)
    (fun r ls => recorded ls = [] ∧ came request r.2 ls ∧ erase <$> r.1 = erase <$> p).
Proof.
  intros Hfit. unfold send_change. destruct pre as [pr|].
  2: { eapply spec_bind; [apply send_spec|]. intros a ls [Hr Hc] _. apply spec_ret.
       by rewrite app_nil_r. }
  destruct (Hfit pr eq_refl) as (Hread & p0 & -> & Hin).
  apply (spec_bind _ _ _ (fun _ ls => recorded ls = [] ∧ Forall quiet ls)).
  { unfold spec. run_prog. split; [constructor|]. intros s. by repeat constructor. }
  intros handle ls0 [Hr0 Hq0] _. eapply spec_bind.
  { apply send_both_spec. intros Heq. by eapply Hread. }
  intros [r a] ls1 [Hr1 Hcame] _. cbn [fst snd] in *.
  assert (Hdone : ∀ p1 ls2, recorded ls2 = [] → Forall quiet ls2 → erase p1 = erase p0 →
    recorded (ls0 ++ ls1 ++ ls2) = [] ∧ came request a (ls0 ++ ls1 ++ ls2) ∧
    erase <$> Some p1 = erase <$> Some p0).
  { intros p1 ls2 Hr2 Hq2 He. rewrite !recorded_app, Hr0, Hr1, Hr2. split; [done|].
    split; [by apply came_app|]. simpl. by rewrite He. }
  destruct r as [r|e]; [|by apply spec_ret, (Hdone p0 [])].
  destruct r as [| | | | | | | |sr results| | | | | | |];
    try (by apply spec_ret, (Hdone p0 [])).
  unfold spec. run_prog. split; [constructor|]. intros s.
  pose proof (apply_pre_read_spec p0 pr (default [] results) (names s) Hin) as Ha.
  destruct (apply_pre_read p0 pr (default [] results) (names s)) as [[p1 known]|]; cbn.
  - split; [by repeat constructor|]. by apply (Hdone p1); [|repeat constructor|].
  - split; [by repeat constructor|done].
Qed.

(** ** Recording the outcome *)
Definition recording (l : lbl) : Prop :=
  match l with LClock _ | LUpdate _ _ | LRecord _ _ _ => True | _ => False end.

(** The entries a task records for a client of its target. *)
Definition entries_for (c : Ctx) (cl : ClientContext) (es : list AuditEntry) : Prop :=
  Forall (fun e => Event.client e = Some cl ∧ Event.target e = Some (target_name c)) es.

Lemma each_spec {A} Q (f : A → prog Shared unit) (l : list A) (Φ : A → list lbl → Prop) :
  (∀ x, spec Q (f x) (fun _ ls => Φ x ls)) →
  spec Q (each f l) (fun _ ls => ∃ parts, ls = concat parts ∧ Forall2 Φ l parts).
Proof.
  intros Hf. induction l as [|x l IH]; [apply spec_ret; by exists []|]. simpl.
  eapply spec_bind; [apply Hf|]. intros [] ls Hls _.
  eapply spec_mono; [done| |apply IH]. intros [] ? (parts & -> & Hp).
  exists (ls :: parts). by split; [|constructor].
Qed.

Lemma recorded_concat (parts : list (list lbl)) : recorded (concat parts) = concat (recorded <$> parts).
Proof. induction parts as [|p parts IH]; [done|]. simpl. by rewrite recorded_app, IH. Qed.

Lemma record_outcome_spec closed c cl l :
  spec recording (each (record_outcome closed c cl) l)
    (fun _ ls => event <$> recorded ls = l ∧ entries_for c cl (recorded ls)).
Proof.
  eapply spec_mono; [done| |apply (each_spec _ _ _ (fun ev ls => ∃ e, recorded ls = [e] ∧
    event e = ev ∧ Event.client e = Some cl ∧ Event.target e = Some (target_name c)))].
  - intros [] ls (parts & -> & Hp). rewrite recorded_concat.
    induction Hp as [|ev ls l parts (e & He & Hev & Hcl) Hp [IH1 IH2]]; [by split; constructor|].
    rewrite fmap_cons. cbn [concat]. rewrite He. cbn [app]. rewrite fmap_cons, IH1, Hev.
    split; [done|]. by constructor.
  - intros ev. unfold record_outcome, entry_for, spec. run_prog. run_on.
    eexists. by split_and!.
Qed.

Lemma audit_spec c cl ev :
  spec recording (audit c cl ev)
    (fun _ ls => event <$> recorded ls = [ev] ∧ entries_for c cl (recorded ls)).
Proof.
  unfold audit, entry_for, spec. run_prog. run_on. split; [done|]. by repeat constructor.
Qed.
(** An ignored write was added to its node's summary. *)
Definition counted (cl : ClientContext) (w : AuditMap.IgnoredWrite) (ls : list lbl) : Prop :=
  ∃ before m now, LUpdate before (set_ignored m before) ∈ ls ∧
    Ignore.add (ignored before) (mkOneWrite (iw_node_id w) (iw_display_name w) (iw_value w)
      (iw_status w) cl now) = (true, m).

Definition ignored_event (h : Z) (w : AuditMap.IgnoredWrite) : AuditEvent :=
  Write h (iw_node_id w) (iw_display_name w) "Value" None None (iw_value w) None None None
    (iw_status w).

(** The write was counted, or recorded as an event of its own. *)
Definition ignored_once (h : Z) (cl : ClientContext) (ls : list lbl) (w : AuditMap.IgnoredWrite)
    (es : list AuditEvent) : Prop :=
  (es = [] ∧ counted cl w ls) ∨ es = [ignored_event h w].

Lemma ignored_once_mono h cl ls ls' w es :
  ls ⊆ ls' → ignored_once h cl ls w es → ignored_once h cl ls' w es.
Proof.
  intros Hs [[-> (b & m & now & Hin & Ha)]|?]; [left|by right].
  split; [done|]. exists b, m, now. split; [by apply Hs|done].
Qed.

Lemma count_ignored_spec c cl h w :
  spec recording (count_ignored c cl h w)
    (fun _ ls => ignored_once h cl ls w (event <$> recorded ls) ∧ entries_for c cl (recorded ls)).
Proof.
  unfold count_ignored. unfold spec. run_prog. run_on. intros s.
  destruct (Ignore.add (ignored s) _) as [ok m] eqn:Ha. cbn [fst snd]. destruct ok; run_prog.
  - split; [by repeat constructor|]. split; [|constructor]. left. split; [done|].
    exists s, m, z. split; [|done]. right. by left.
  - unfold audit, entry_for. run_prog. run_on. split; [by right|]. by repeat constructor.
Qed.

(** What the outcome of a request is recorded as: events for the writes that
    could not be summarised, then one event per planned item. *)
Definition outcome_recorded (h : Z) (cl : ClientContext) (p : option AuditPlan)
    (ignored : option (list WriteItem)) (response : ResponseMessage) (unknown : option StatusCode)
    (ls : list lbl) (evs : list AuditEvent) : Prop :=
  ∃ known over,
    evs = concat over ++ from_option (fun p => outcome_events p response unknown) [] p ∧
    Forall2 (ignored_once h cl ls) (outcomes (default [] ignored) response unknown known) over.

Lemma recorded_fmap_concat (parts : list (list lbl)) :
  event <$> recorded (concat parts) = concat ((fun ls => event <$> recorded ls) <$> parts).
Proof.
  induction parts as [|p parts IH]; [done|]. cbn [concat]. rewrite recorded_app, fmap_app, IH. done.
Qed.

Lemma record_all_spec closed c cl h p ignored response unknown :
  spec recording (record_all closed c cl h p ignored response unknown)
    (fun _ ls => outcome_recorded h cl p ignored response unknown ls (event <$> recorded ls) ∧
                 entries_for c cl (recorded ls)).
Proof.
  unfold record_all. apply (spec_bind _ _ _ (fun _ ls => ∃ known over,
    event <$> recorded ls = concat over ∧ entries_for c cl (recorded ls) ∧
    Forall2 (ignored_once h cl ls) (outcomes (default [] ignored) response unknown known) over)).
  - destruct ignored as [items|].
    2: { apply spec_ret. exists ∅, []. by repeat constructor. }
    apply (spec_bind _ _ _ (fun s ls => ls = [LUpdate s s])).
    { unfold spec. run_prog. split; [constructor|]. intros s. by repeat constructor. }
    intros s ls0 -> _. eapply spec_mono; [done| |apply each_spec; intros w; apply count_ignored_spec].
    intros [] ls (parts & -> & Hp). exists (names s), ((fun ls => event <$> recorded ls) <$> parts).
    rewrite recorded_app. split; [simpl; apply recorded_fmap_concat|].
    change (recorded [LUpdate s s]) with (@nil AuditEntry). rewrite app_nil_l. split.
    + rewrite recorded_concat. unfold entries_for. rewrite Forall_concat.
      clear -Hp. induction Hp as [|w part ws parts [_ He] Hp IH]; constructor; done.
    + simpl. rewrite Forall2_fmap_r.
      assert (Hsub : Forall (fun part => part ⊆ LUpdate s s :: concat parts) parts).
      { apply Forall_forall. intros part Hin l Hl. right.
        apply list_elem_of_In, in_concat. exists part. by rewrite <- !list_elem_of_In. }
      revert Hsub. generalize (LUpdate s s :: concat parts). intros ls Hsub.
      induction Hp as [|w part ws parts [Ho He] Hp IH]; inversion_clear Hsub; constructor.
      * by eapply ignored_once_mono.
      * by apply IH.
  - intros [] ls (known & over & Hev & Hcl & Ho) _. destruct p as [p|].
    + eapply spec_mono; [done| |apply record_outcome_spec].
      intros [] ls' [He Hcl']. rewrite recorded_app, fmap_app, Hev, He. split.
      * exists known, over. split; [done|]. eapply Forall2_impl; [done|]. intros w es.
        apply ignored_once_mono. set_solver.
      * by apply Forall_app.
    + apply spec_ret. rewrite app_nil_r, Hev. split; [|done]. exists known, over.
      by rewrite app_nil_r.
Qed.
(** ** What forwarding guarantees *)
Definition intent_committed (c : Ctx) (cl : ClientContext) (p : AuditPlan) (ls : list lbl) : Prop :=
  ∃ e n, LRecord true e (Ok n) ∈ ls ∧ event e = intent p ∧
    Event.client e = Some cl ∧ Event.target e = Some (target_name c).

(** The plan of the request, without the writes that are summarised, for the
    client it is attributed to. *)
Definition planned (c : Ctx) (request : RequestMessage) (cl : ClientContext)
    (rest : option AuditPlan) (ignored : option (list WriteItem)) (ls : list lbl) : Prop :=
  ∃ whole s, plan request = Some whole ∧ s ∈ seen ls ∧
    split_ignored (summarise s) cl whole = (rest, ignored) ∧
    attributed c (authentication_token (request_header request)) cl ls.

(** Sending the change is allowed: everything it changes and that is not
    summarised was announced in a committed record, or the gateway fails open. *)
Definition allowed (c : Ctx) (request : RequestMessage) (ls : list lbl) : Prop :=
  ∃ cl rest ignored, planned c request cl rest ignored ls ∧
    match rest with
    | None => True
    | Some p => intent_committed c cl p ls ∨ ∃ s, s ∈ seen ls ∧ fail_closed (settings s) = false
    end.

Definition change_guard (c : Ctx) (request : RequestMessage) (ls : list lbl) (l : lbl) : Prop :=
  ∀ t, l = LSubmit request t → allowed c request ls.

(** All there is to say about a forwarded request that was answered. *)
Definition accounted (c : Ctx) (request : RequestMessage) (response : ResponseMessage)
    (ls : list lbl) : Prop :=
  let h := request_handle (request_header request) in
  ∃ cl rest ignored, planned c request cl rest ignored ls ∧
    entries_for c cl (recorded ls) ∧
    ( (* refused: the intent could not be committed, and nothing was sent *)
     (response = fault h BadInternalError ∧ submitted ls = [] ∧
      ∃ p, rest = Some p ∧ event <$> recorded ls = [intent p]) ∨
     (* sent: the answer is the server's, and every outcome is recorded *)
     ∃ a p announced outcome,
       came request a ls ∧ response = (settle h a).1 ∧ erase <$> p = erase <$> rest ∧
       event <$> recorded ls = announced ++ outcome ∧
       (announced = [] ∨ ∃ p, rest = Some p ∧ announced = [intent p]) ∧
       outcome_recorded h cl p ignored response (settle h a).2 ls outcome).

Lemma seen_mono (ls ls' : list lbl) s : ls ⊆ ls' → s ∈ seen ls → s ∈ seen ls'.
Proof.
  intros Hs. unfold seen. rewrite !list_elem_of_omap. intros (l & Hl & He). exists l. auto.
Qed.

Lemma attributed_mono c token cl ls ls' :
  ls ⊆ ls' → attributed c token cl ls → attributed c token cl ls'.
Proof.
  intros Hs [?|(s & s' & e & H1 & H2 & H3)]; [by left|right].
  exists s, s', e. split_and!; try (by eapply seen_mono); apply H3.
Qed.

Lemma planned_mono c r cl rest ig ls ls' :
  ls ⊆ ls' → planned c r cl rest ig ls → planned c r cl rest ig ls'.
Proof.
  intros Hs (w & s & Hw & Hin & Hsp & Ha). exists w, s.
  split_and!; [done|by eapply seen_mono|done|by eapply attributed_mono].
Qed.

Lemma allowed_mono c r ls ls' : ls ⊆ ls' → allowed c r ls → allowed c r ls'.
Proof.
  intros Hs (cl & rest & ig & Hp & Ha). exists cl, rest, ig. split; [by eapply planned_mono|].
  destruct rest as [p|]; [|done]. destruct Ha as [(e & n & Hin & He)|(s & Hin & Ho)]; [left|right].
  - exists e, n. split; [by apply Hs|done].
  - exists s. split; [by eapply seen_mono|done].
Qed.

Lemma change_guard_other c r ls l : (∀ t, l ≠ LSubmit r t) → change_guard c r ls l.
Proof. intros Hn t ->. by destruct (Hn t). Qed.

Lemma outcome_recorded_mono h cl p ig response u ls ls' evs :
  ls ⊆ ls' → outcome_recorded h cl p ig response u ls evs →
  outcome_recorded h cl p ig response u ls' evs.
Proof.
  intros Hs (known & over & He & Ho). exists known, over. split; [done|].
  eapply Forall2_impl; [done|]. intros w es. by apply ignored_once_mono.
Qed.

Lemma pre_read_of_spec old known rest p pre r whole l cl :
  plan r = Some whole → (split_ignored l cl whole).1 = rest →
  pre_read_of old known rest = (p, pre) →
  erase <$> p = erase <$> rest ∧ reads_fit r p pre ∧ (is_Some p ↔ is_Some rest).
Proof.
  intros Hw Hs. destruct rest as [p0|]; simpl.
  - destruct (pre_read old known p0) as [p1 o] eqn:Hp. intros [= <- <-].
    destruct (pre_read_spec _ _ _ _ _ Hp) as (He & _ & Hfit). simpl. rewrite He.
    split_and!; [done| |done]. intros pr Hpr. split; [|exists p1; split; [done|by apply Hfit]].
    intros h ns ->. simpl in Hw. injection Hw as <-. done.
  - intros [= <- <-]. split_and!; [done| |done]. by intros pr [=].
Qed.

(** From the plan on. *)
Lemma forward_rest c request cl rest ignored p pre closed h committed :
  planned c request cl rest ignored h → recorded h = committed → submitted h = [] →
  entries_for c cl committed → steps (change_guard c request) h →
  erase <$> p = erase <$> rest → reads_fit request p pre →
  (committed = [] ∨ ∃ p, rest = Some p ∧ event <$> committed = [intent p]) →
  allowed c request h →
  always (steps (change_guard c request))
    ('(p, a) ← send_change c request p pre;
     let (response, unknown) := settle (request_handle (request_header request)) a in
     _ ← record_all closed c cl (request_handle (request_header request)) p ignored response unknown;
     mret response) h (accounted c request).
Proof.
  intros Hpl Hrec Hsub Hfor Hst He Hfit Hann Hal.
  eapply always_then.
  { eapply spec_use; [by apply send_change_spec|]. intros ls _. apply steps_extend; [done|].
    intros pre' l t _. eapply allowed_mono; [|done]. set_solver. }
  intros [p' a] h1 (ls1 & -> & _ & Hr1 & Hc & Hp'). cbn [fst snd] in *.
  destruct (settle _ a) as [response unknown] eqn:Hse.
  eapply always_then.
  { eapply spec_use; [apply record_all_spec|]. intros ls Hq. apply steps_extend.
    - apply steps_extend; [done|]. intros pre' l t _. eapply allowed_mono; [|done]. set_solver.
    - intros pre' l t _. eapply allowed_mono; [|done]. set_solver. }
  intros [] h2 (ls2 & -> & Hq & Ho & He2). run_prog. split.
  { apply steps_extend; [apply steps_extend; [done|]|];
      intros pre' l t _; (eapply allowed_mono; [|done]); set_solver. }
  exists cl, rest, ignored. split; [eapply planned_mono; [|done]; set_solver|].
  rewrite !recorded_app, Hrec, Hr1, app_nil_r. split; [by apply Forall_app|]. right.
  exists a, p', (event <$> committed), (event <$> recorded ls2). rewrite Hse. cbn [fst snd].
  split_and!; [|done|congruence|by rewrite fmap_app| |].
  - rewrite <- (app_assoc h). destruct Hc as [[-> Hn]|(r & Hr & ->)].
    + left. split; [done|]. intros t. rewrite !elem_of_app. intros [Hin|[Hin|Hin]].
      * assert (Hin' : request ∈ submitted h)
          by (apply list_elem_of_omap; exists (LSubmit request t); done).
        rewrite Hsub in Hin'. by apply not_elem_of_nil in Hin'.
      * by eapply Hn.
      * rewrite Forall_forall in Hq. by apply Hq in Hin.
    + right. exists r. split; [|done]. set_solver.
  - destruct Hann as [->|Hann]; [by left|by right].
  - eapply outcome_recorded_mono; [|done]. set_solver.
Qed.
(** Labels of another kind than sending leave the guard satisfied. *)
Definition not_sending (l : lbl) : Prop :=
  match l with LSubmit _ _ | LAwait _ _ => False | _ => True end.

Lemma guard_extend c r h ls :
  steps (change_guard c r) h → Forall not_sending ls → steps (change_guard c r) (h ++ ls).
Proof.
  intros Hs Hq. eapply steps_app_Forall; [done| |done]. intros pre l Hl t ->. done.
Qed.

Lemma forward_always c request :
  always (steps (change_guard c request)) (forward c request) [] (accounted c request).
Proof.
  unfold forward. eapply always_then.
  { eapply spec_use; [apply attributed_client_spec|]. intros ls Hq. apply guard_extend.
    - apply steps_nil.
    - eapply Forall_impl; [done|]. by intros []. }
  intros cl h0 (ls0 & -> & Hq0 & Hat). cbn [app].
  assert (Hr0 : recorded ls0 = [] ∧ submitted ls0 = [] ∧ Forall not_sending ls0).
  { clear -Hq0. induction Hq0 as [|l ls Hl Hq (IH1 & IH2 & IH3)]; [by repeat constructor|].
    destruct l; try done; (split_and!; [done|done|by constructor]). }
  destruct Hr0 as (Hr0 & Hs0 & Hn0). pose proof (guard_extend c request [] ls0 (steps_nil _) Hn0) as Hst0.
  cbn [app] in Hst0.
  unfold or_panic. destruct (plan request) as [whole|] eqn:Hwhole; run_prog; [|by split].
  split; [done|]. intros s1.
  destruct (split_ignored (summarise s1) cl whole) as [rest ignored] eqn:Hsp.
  split; [by apply guard_extend; [|repeat constructor]|]. intros s2.
  destruct (pre_read_of _ _ rest) as [p pre] eqn:Hpre.
  split; [apply guard_extend; [by apply guard_extend; [|repeat constructor]|by repeat constructor]|].
  intros s3. rewrite <- !app_assoc. cbn [app].
  set (h := ls0 ++ [LUpdate s1 (id s1); LUpdate s2 (id s2); LUpdate s3 (id s3)]).
  assert (Hh : steps (change_guard c request) h) by (by apply guard_extend; [|repeat constructor]).
  assert (Hrec : recorded h = []) by (unfold h; by rewrite recorded_app, Hr0).
  assert (Hsub : submitted h = []) by (unfold h; by rewrite submitted_app, Hs0).
  assert (Hseen : ∀ s, s ∈ seen h ↔ s ∈ seen ls0 ∨ s = s1 ∨ s = s2 ∨ s = s3).
  { intros s. unfold h. rewrite seen_app, elem_of_app. cbn. set_solver. }
  destruct (pre_read_of_spec _ _ rest p pre request whole (summarise s1) cl Hwhole ltac:(by rewrite Hsp) Hpre)
    as (Hers & Hfit & Hsome).
  assert (Hpl : ∀ ls, h ⊆ ls → planned c request cl rest ignored ls).
  { intros ls Hls. exists whole, s1. split_and!; [done| |done|].
    - eapply seen_mono; [done|]. apply Hseen. auto.
    - eapply attributed_mono; [|done]. intros l Hl. apply Hls. unfold h. set_solver. }
  assert (Hopen : rest = None ∨ bool_decide (fail_mode (settings s3) = Closed) = false →
    allowed c request h).
  { intros Ho. exists cl, rest, ignored. split; [by apply Hpl|]. destruct rest as [rp|]; [|done].
    destruct Ho as [?|Ho]; [done|]. right. exists s3. split; [apply Hseen; auto|].
    apply bool_decide_eq_false in Ho. unfold fail_mode in Ho. by destruct (fail_closed (settings s3)). }
  destruct p as [p|].
  2: { cbn [bind]. destruct rest as [rp|]; [by destruct (proj2 Hsome)|].
       eapply forward_rest; try done; [by apply Hpl|constructor|by left|by apply Hopen; left]. }
  destruct rest as [rp|]; [|by destruct (proj1 Hsome)].
  destruct (bool_decide (fail_mode (settings s3) = Closed)) eqn:Hclosed.
  2: { cbn [bind]. eapply forward_rest; try done; [by apply Hpl|constructor|by left|by apply Hopen; right]. }
  unfold entry_for. run_prog. split; [done|]. intros now.
  split; [by apply guard_extend; [|repeat constructor]|]. intros answer.
  rewrite <- app_assoc. cbn [app].
  set (entry := with_client cl (with_target (target_name c) (new_entry now (intent p)))).
  set (h' := h ++ [LClock now; LRecord true entry answer]).
  assert (Hh' : steps (change_guard c request) h') by (by apply guard_extend; [|repeat constructor]).
  assert (Hrec' : recorded h' = [entry]) by (unfold h'; by rewrite recorded_app, Hrec).
  assert (Hsub' : submitted h' = []) by (unfold h'; by rewrite submitted_app, Hsub).
  assert (Hint : intent p = intent rp).
  { simpl in Hers. injection Hers as Hers. by rewrite <- (intent_erase p), Hers, intent_erase. }
  assert (Hsubset : h ⊆ h') by (unfold h'; set_solver).
  destruct answer as [n|e].
  - eapply forward_rest; try done; [by apply Hpl|by repeat constructor| |].
    + right. exists rp. by rewrite <- Hint.
    + exists cl, (Some rp), ignored. split; [by apply Hpl|]. left. exists entry, n.
      split_and!; [unfold h'; set_solver|done..].
  - cbn [always]. split; [done|]. exists cl, (Some rp), ignored. split; [by apply Hpl|].
    rewrite Hrec'. split; [by repeat constructor|]. left. split_and!; [done|done|].
    exists rp. by rewrite <- Hint.
Qed.
Lemma split_ignored_none l cl whole :
  (split_ignored l cl (Some whole)).1 = None →
  ∃ h items, whole = PlanWrite h items ∧
    ∀ w, w ∈ items → attribute_id w = attr_Value ∧ matches l (node w) cl = true.
Proof.
  simpl. destruct (lookup_is_empty l) eqn:Hl; simpl.
  - destruct whole as [h [|w items]| | | |]; try done. intros _. exists h, [].
    split; [done|]. intros w Hw. by apply not_elem_of_nil in Hw.
  - destruct whole as [h items| | | |]; simpl; try done.
    destruct (List.filter (fun w => negb (ignores _ w)) items) as [|w0 rest] eqn:Hf; [|done].
    intros _. exists h, items. split; [done|]. intros w Hw.
    destruct (ignores (fun n => matches l n cl) w) eqn:Hi.
    + unfold ignores in Hi. apply andb_true_iff in Hi as [H1%Z.eqb_eq H2]. done.
    + assert (Hin : In w []).
      { rewrite <- Hf. apply filter_In. rewrite Hi. by rewrite <- list_elem_of_In. }
      destruct Hin.
Qed.

(** Claim C1. Fail closed: while the gateway is
    configured to fail closed, a change is put on the upstream channel only
    after a record announcing it was committed, for the client it is
    attributed to. Only a write of nothing but summarised values goes out
    without one. This holds of every run, whatever other connections do to
    the shared state and whatever the store and the server answer. *)
Theorem change_follows_intent c request pre t q :
  runs (forward c request) (pre ++ [LSubmit request t]) q →
  is_audited request = true →
  (∀ s, s ∈ seen pre → fail_closed (settings s) = true) →
  ∃ whole s cl, plan request = Some (Some whole) ∧ s ∈ seen pre ∧
    attributed c (authentication_token (request_header request)) cl pre ∧
    match (split_ignored (summarise s) cl (Some whole)).1 with
    | Some changes => intent_committed c cl changes pre
    | None => ∃ h items, whole = PlanWrite h items ∧
        ∀ w, w ∈ items → attribute_id w = attr_Value ∧ matches (summarise s) (node w) cl = true
    end.
Proof.
  intros Hr Hau Hclosed. destruct (always_sound _ _ _ _ _ (forward_always c request) Hr) as [Hs _].
  destruct (Hs pre _ [] eq_refl t eq_refl) as (cl & rest & ig & (w & s & Hw & Hin & Hsp & Hat) & Hal).
  destruct w as [whole|].
  2: { exfalso. apply plan_audited in Hw. destruct (proj2 Hw Hau). done. }
  exists whole, s, cl. split_and!; [done..|]. rewrite Hsp. cbn [fst]. destruct rest as [p|].
  - destruct Hal as [?|(s' & Hin' & Ho)]; [done|]. by rewrite (Hclosed s' Hin') in Ho.
  - apply split_ignored_none. by rewrite Hsp.
Qed.

End ForwardFacts.

(** ** A small gateway to run *)
Module ToyRelay.
Import ToyNodes ToyOpc.

(** Signatures name their signer and nonce; secrets are sent in the clear. *)
#[export] Instance crypto : Crypto := {
  verify_signature s _ signer _ nonce := bool_decide (s = Some (signer +:+ "/" +:+ nonce));
  create_signature key _ _ nonce := Ok (Some (key +:+ "/" +:+ nonce));
  application_uri_valid _ _ := true;
  decrypt_secret t _ _ := Some (Ok (un_password t));
  encrypt_secret _ _ _ _ _ secret := Ok (secret, "clear");
}.

Definition gw : GatewayIdentity := mkGatewayIdentity "gw" "gw" "gw" "urn:gw" "Gateway" "Gateway (plc)".
Definition app : ApplicationDescription := mkApplicationDescription "urn:plc" "" "PLC" true None.
Definition endpoint : EndpointDescription :=
  mkEndpointDescription "opc.tcp://plc:4840" app "plc" ModeSignAndEncrypt "Basic256Sha256"
    (Some [mkUserTokenPolicy "anon" TokenAnonymous ""; mkUserTokenPolicy "user" TokenUserName ""]) "tcp" 3.
Definition operator : ClientContext :=
  mkClientContext "10.0.0.5:5000" None (Some "HMI") None (Some (UserName "operator")) (Some "s1").
Definition hmi : ClientContext := mkClientContext "10.0.0.5:5001" None None None None None.
Definition ctx : Ctx :=
  mkCtx "plc" "opc.tcp://plc:4840" SecNone gw endpoint (Some "plc") 7 "Basic256Sha256"
    ModeSignAndEncrypt (Some "hmi") hmi [endpoint] "opc.tcp://gw:4841".
Definition session : SessionEntry :=
  mkSessionEntry operator (Some "hmi") "n1" "n2" 60000000000 0 "Basic256Sha256" ModeSignAndEncrypt 7.
Definition settings (closed : bool) : AuditSettings := mkAuditSettings closed true 90 60.
Definition shared (closed : bool) : Shared :=
  mkShared {["session" := session]} ∅ ∅ (mkLookup {["life"]} ∅) ∅ (settings closed) 1
    GATEWAY_REQUEST_HANDLES None.
(** A server that accepts everything, and a store that commits everything. *)
Definition server (r : RequestMessage) : result StatusCode ResponseMessage :=
  match r with
  | RqWrite _ (Some l) => Ok (RsWrite (Status 0) (Some ((fun _ => Status 0) <$> l)))
  | RqRead _ (Some l) => Ok (RsRead (Status 0) (Some ((fun _ => mkDataValue None None None None) <$> l)))
  | _ => Ok (RsOther (Status 0) "")
  end.
Definition world : World :=
  mkWorld 1000 "nonce" (fun _ => Ok 1) false server (fun _ _ => Ok ()) (fun _ => Ok ()) (Ok [endpoint]).
Definition write : RequestMessage :=
  RqWrite (mkRequestHeader "session" 7 0) (Some [write_of "a" 1; write_of "life" 2]).
End ToyRelay.

Section RelayWitnesses.
Import ToyNodes ToyOpc ToyRelay.

Definition run_closed := exec world (forward ctx write) (shared true).

(** A write of a normal and a summarised value is announced, then sent. *)
Lemma change_follows_intent_witness :
  let pre := firstn 12 run_closed.1.1 in
  run_closed.1.1 !! 12%nat = Some (LSubmit write 600000) ∧
  ∃ whole s cl, plan write = Some (Some whole) ∧ s ∈ seen pre ∧ attributed ctx "session" cl pre ∧
    match (split_ignored (summarise s) cl (Some whole)).1 with
    | Some changes => intent_committed ctx cl changes pre
    | None => ∃ h items, whole = PlanWrite h items ∧
        ∀ w, w ∈ items → attribute_id w = attr_Value ∧ matches (summarise s) (node w) cl = true
    end.
Proof.
  intros pre. assert (Hl : run_closed.1.1 !! 12%nat = Some (LSubmit write 600000))
    by (vm_compute; reflexivity).
  split; [exact Hl|].
  destruct (exec_prefix world (forward ctx write) (shared true)
    (pre ++ [LSubmit write 600000]) (skipn 13 run_closed.1.1)) as [q Hq].
  { rewrite <- app_assoc. exact (eq_sym (take_drop_middle _ _ _ Hl)). }
  apply (change_follows_intent ctx write pre 600000 q Hq).
  - reflexivity.
  - intros s Hs%list_elem_of_In.
    assert (Hall : forallb (fun s => fail_closed (Sessions.settings s)) (seen (firstn 12 run_closed.1.1)) = true)
      by (vm_compute; reflexivity).
    exact (proj1 (forallb_forall _ _) Hall s Hs).
Defined.

End RelayWitnesses.
