(* ===== verification/Login.v ===== *)
(** Creating and activating sessions ([create_session], [activate_session] and
    [translate_identity] of [src/src/relay/connection.rs]): the gateway is the
    server to the client and the client to the server, so it checks both
    sides' certificates and signatures and translates the user's token. *)

From S2P Require Import Prelude Net Config Pipeline Ignore Endpoints AuditMap Event Opc Task Sessions Relay.

Section Login.
Context `{Crypto}.
Abbreviation task := (prog Shared).

Definition or_text (a b : string) : string := match a with EmptyString => b | _ => a end.

(** The client presents the certificate it opened the channel with. *)
Definition same_certificate (bytes : Blob) (cert : Cert) : bool :=
  match cert_of_bytes bytes with
  | Some c => String.eqb (thumbprint c) (thumbprint cert)
  | None => false
  end.

(** The checks on the client of a secured channel; an error for the client. *)
Definition check_create (c : Ctx) (r : CreateSessionRequest) : option StatusCode :=
  if bool_decide (policy c = PolicyNone) then None
  else match client_certificate c with
  | None => Some BadCertificateInvalid
  | Some cert =>
      if negb (same_certificate (cs_client_certificate r) cert) then Some BadCertificateInvalid
      else if (String.length (cs_client_nonce r) <? NONCE_LENGTH)%nat then Some BadNonceInvalid
      else if negb (application_uri_valid cert (ad_application_uri (cs_client_description r)))
      then Some BadCertificateUriInvalid
      else None
  end.

Definition session_name_of (r : CreateSessionRequest) : string :=
  clip (or_text (cs_session_name r) (ad_application_name (cs_client_description r))) MAX_NAME.

Definition upstream_create (c : Ctx) (r : CreateSessionRequest) (nonce : Blob) : CreateSessionRequest :=
  mkCreateSessionRequest (cs_header r) (client_description (gateway c)) EmptyString (target_url c)
    (session_name_of r +:+ " via " +:+ gw_application_name (gateway c)) nonce
    (certificate_bytes (gateway c)) (cs_requested_session_timeout r)
    (cs_max_response_message_size r).

(** The session really comes from the server the gateway trusts. *)
Definition server_verified (c : Ctx) (nonce : Blob) (u : CreateSessionResponse) : bool :=
  match cert_of_bytes (cr_server_certificate u) with
  | None => false
  | Some cert =>
      match upstream_certificate c with
      | Some known => String.eqb (thumbprint known) (thumbprint cert)
      | None => false
      end &&
      verify_signature (cr_server_signature u) (upstream_policy c) cert (certificate (gateway c)) nonce
  end.

Definition missing_text (missing : string) : string :=
  "BadSecurityChecksFailed: the upstream server offers " +:+ missing +:+
  ", which discovery did not return".

Definition session_client (c : Ctx) (r : CreateSessionRequest) (session : string) : ClientContext :=
  mkClientContext (remote_addr (ctx_client c))
    (Some (clip (ad_application_uri (cs_client_description r)) MAX_TEXT))
    (Some (clip (ad_application_name (cs_client_description r)) MAX_NAME))
    (certificate_thumbprint (ctx_client c)) (user (ctx_client c)) (Some session).

Definition name_client (info : ClientInfo) (cl : ClientContext) (u : option string) : ClientInfo :=
  mkClientInfo (ci_remote_addr info) (connected_at info) (ci_security_policy info)
    (ci_security_mode info) (application_uri cl) (application_name cl) u.

(** [clients.write().get_mut(id)], with the client's application and user. *)
Definition update_info (id : Z) (cl : ClientContext) (u : option string) (s : Shared) : Shared :=
  set_clients (alter (fun i => name_client i cl (match u with Some _ => u | None => ci_user i end)) id
    (clients s)) s.

(** The signature the gateway answers the client with. *)
Definition own_signature (c : Ctx) (p : Policy) (cert nonce : Blob) : result StatusCode Signature :=
  if bool_decide (p = PolicyNone) then Ok None
  else create_signature (private_key (gateway c)) p cert nonce.

(** From the upstream server's answer on. *)
Definition finish_create (c : Ctx) (r : CreateSessionRequest) (nonce : Blob) (u : CreateSessionResponse)
    : task ResponseMessage :=
  let handle := request_handle (cs_header r) in
  match own_signature c (policy c) (cs_client_certificate r) (cs_client_nonce r) with
  | Err s => mret (fault handle s)
  | Ok signature =>
      server_nonce ← random;
      let cl := session_client c r (cr_session_id u) in
      created ← clock;
      now ← clock;
      let e := mkSessionEntry cl (client_certificate c) server_nonce (cr_server_nonce u)
                 (f64_as_u64 (cr_revised_session_timeout u) * 1000000) created (policy c) (mode c)
                 (connection_id c) in
      _ ← atomic (fun s => ((), set_sessions
            (session_insert now (cr_authentication_token u) e (sessions s)) s));
      _ ← atomic (fun s => ((), update_info (connection_id c) cl None s));
      _ ← audit c cl (SessionCreated (session_name_of r));
      mret (RsCreateSession (mkCreateSessionResponse (cr_service_result u) (cr_session_id u)
        (cr_authentication_token u) (cr_revised_session_timeout u) server_nonce
        (certificate_bytes (gateway c))
        (Some (gateway_endpoints (upstream_endpoints c) (gateway c)
                 (or_text (cs_endpoint_url r) (hello_url c))))
        signature (cr_max_request_message_size u)))
  end.

Definition create_session (c : Ctx) (r : CreateSessionRequest) : task ResponseMessage :=
  let handle := request_handle (cs_header r) in
  match check_create c r with
  | Some s => mret (fault handle s)
  | None =>
      nonce ← random;
      answer ← send (RqCreateSession (upstream_create c r nonce))
                 (upstream_timeout (timeout_hint (cs_header r)));
      match answer with
      | Err e => mret (fault handle (send_status e))
      | Ok (RsCreateSession u) =>
          if bool_decide (upstream_policy c = PolicyNone) then finish_create c r nonce u
          else if negb (server_verified c nonce u)
          then mret (fault handle BadApplicationSignatureInvalid)
          else match missing_from_discovery (default [] (cr_server_endpoints u))
                       (upstream_endpoints c) (min_security c) with
          | Some missing =>
              _ ← audit c (ctx_client c) (AuthenticationFailed (missing_text missing));
              mret (fault handle BadSecurityChecksFailed)
          | None => finish_create c r nonce u
          end
      | Ok other => mret other
      end
  end.

(** ** Identities *)
Record Identity : Type := mkIdentity { id_user : UserIdentity; upstream_token : IdentityToken }.

(** The password of a user name token; the stack may panic on a malformed
    one, which is caught. *)
Definition decrypt_password (t : UserNameToken) (nonce key : Blob) : result StatusCode Blob :=
  match un_encryption_algorithm t with
  | EmptyString => Ok (un_password t)
  | _ => match decrypt_secret t nonce key with
         | None => Err BadIdentityTokenInvalid
         | Some r => r
         end
  end.

Definition anonymous_identity (c : Ctx) : result (StatusCode * UserIdentity) Identity :=
  match token_policy_of_type (upstream_endpoint c) TokenAnonymous with
  | Some p => Ok (mkIdentity Anonymous (ItAnonymous (policy_id p)))
  | None => Err (BadIdentityTokenRejected, Anonymous)
  end.

Definition certificate_user (data : Blob) : UserIdentity :=
  match cert_of_bytes data with
  | Some cert => Event.Certificate (clip (subject_name cert) MAX_TEXT) (thumbprint cert)
  | None => Event.Certificate "invalid certificate" EmptyString
  end.

Definition user_name_identity (c : Ctx) (t : UserNameToken) (downstream upstream : Blob)
    : result (StatusCode * UserIdentity) Identity :=
  let u := UserName (clip (un_user_name t) MAX_NAME) in
  let e := upstream_endpoint c in
  match decrypt_password t downstream (private_key (gateway c)) with
  | Err s => Err (s, u)
  | Ok password =>
      match (match token_policy e (un_policy_id t) with
             | Some p => Some p
             | None => token_policy_of_type e TokenUserName
             end) with
      | None => Err (BadIdentityTokenRejected, u)
      | Some p =>
          match encrypt_secret (upstream_policy c) (security_mode e) p upstream
                  (cert_of_bytes (ep_server_certificate e)) password with
          | Err s => Err (s, u)
          | Ok (secret, algorithm) =>
              Ok (mkIdentity u (ItUserName
                    (mkUserNameToken (policy_id p) (un_user_name t) secret algorithm)))
          end
      end
  end.

Definition translate_identity (c : Ctx) (t : IdentityToken) (downstream upstream : Blob)
    : result (StatusCode * UserIdentity) Identity :=
  match t with
  | ItNull | ItAnonymous _ => anonymous_identity c
  | ItUserName t => user_name_identity c t downstream upstream
  | ItX509 data => Err (BadIdentityTokenRejected, certificate_user data)
  | ItIssued => Err (BadIdentityTokenRejected, IssuedToken)
  | ItOther => Err (BadIdentityTokenInvalid, Anonymous)
  end.

(** ** Activation *)

(** The client proves that it holds the key the session was created with. *)
Definition client_proved (c : Ctx) (r : ActivateSessionRequest) (e : SessionEntry) : bool :=
  match se_client_certificate e, client_certificate c with
  | Some a, Some b =>
      String.eqb (thumbprint a) (thumbprint b) &&
      verify_signature (as_client_signature r) (policy c) a (certificate (gateway c)) (downstream_nonce e)
  | _, _ => false
  end.

(** The session after the server accepted the activation. *)
Definition activated (c : Ctx) (cl : ClientContext) (server_nonce nonce : Blob) (e : SessionEntry)
    : SessionEntry :=
  mkSessionEntry cl (se_client_certificate e) server_nonce nonce (se_timeout e) (last_used e)
    (se_security_policy e) (se_security_mode e) (connection_id c).

Definition auth_failed (c : Ctx) (cl : ClientContext) (text : string) (response : ResponseMessage)
    : task ResponseMessage :=
  _ ← audit c cl (AuthenticationFailed text); mret response.

(** With the translated identity: sign in upstream, then hand over the session. *)
Definition activate_as (c : Ctx) (r : ActivateSessionRequest) (cl : ClientContext)
    (upstream : Blob) (identity : Identity) : task ResponseMessage :=
  let handle := request_handle (as_header r) in
  let token := authentication_token (as_header r) in
  match own_signature c (upstream_policy c) (ep_server_certificate (upstream_endpoint c)) upstream with
  | Err s => mret (fault handle s)
  | Ok signature =>
      answer ← send (RqActivateSession (mkActivateSessionRequest (as_header r) signature
                       (as_locale_ids r) (upstream_token identity) None))
                 (upstream_timeout (timeout_hint (as_header r)));
      match answer with
      | Err e => mret (fault handle (send_status e))
      | Ok response =>
          let cl := with_user (id_user identity) cl in
          match response with
          | RsActivateSession sr nonce results =>
              if is_good sr then
                server_nonce ← random;
                _ ← with_session token (activated c cl server_nonce nonce);
                _ ← atomic (fun s => ((), update_info (connection_id c) cl
                      (Some (Event.label (id_user identity))) s));
                _ ← audit c cl SessionActivated;
                mret (RsActivateSession sr server_nonce results)
              else auth_failed c cl (status_str sr) response
          | _ => auth_failed c cl (status_str (service_result response)) response
          end
      end
  end.

Definition activate_session (c : Ctx) (r : ActivateSessionRequest) : task ResponseMessage :=
  let handle := request_handle (as_header r) in
  let token := authentication_token (as_header r) in
  found ← with_session token id;
  match found with
  | None => mret (fault handle BadSessionIdInvalid)
  | Some e =>
      let cl := with_address (remote_addr (ctx_client c)) (se_client e) in
      if security_rank (policy c) (mode c) <? security_rank (se_security_policy e) (se_security_mode e)
      then auth_failed c cl (status_str BadSecurityModeInsufficient +:+
             ": session re-activation over a less secure channel")
             (fault handle BadSecurityModeInsufficient)
      else if negb (bool_decide (policy c = PolicyNone)) && negb (client_proved c r e)
      then auth_failed c cl (status_str BadApplicationSignatureInvalid)
             (fault handle BadApplicationSignatureInvalid)
      else match translate_identity c (as_user_identity_token r) (downstream_nonce e)
                   (upstream_nonce e) with
      | Err (s, u) => auth_failed c (with_user u cl) (status_str s) (fault handle s)
      | Ok identity => activate_as c r cl (upstream_nonce e) identity
      end
  end.

(** Every other service is forwarded. *)
Definition service_task (c : Ctx) (message : RequestMessage) : task ResponseMessage :=
  match message with
  | RqCreateSession r => create_session c r
  | RqActivateSession r => activate_session c r
  | RqCloseSession h => close_session c h
  | other => forward c other
  end.
End Login.

(** ** Properties *)
Section LoginFacts.
Context `{Crypto}.
Abbreviation lbl := (label Shared).

(** The same session, possibly used later. *)
Definition same_session (e e' : SessionEntry) : Prop := ∃ t, e' = touch t e ∨ e' = e.

(** What a step may do to the sessions without having to justify it: keep
    them, drop them, note that they were used. *)
Definition touches (b a : Shared) : Prop :=
  ∀ token e', sessions a !! token = Some e' →
    ∃ e, sessions b !! token = Some e ∧ same_session e e'.

Definition calm (l : lbl) : Prop :=
  match l with
  | LUpdate b a => touches b a
  | LSubmit (RqCreateSession _) _ | LSubmit (RqActivateSession _) _ => False
  | _ => True
  end.

Definition is_calm {A} (p : prog Shared A) : Prop := spec calm p (fun _ _ => True).

Lemma touches_same b a : sessions a = sessions b → touches b a.
Proof. intros E token e'. rewrite E. intros He. exists e'. split; [done|]. exists 0. by right. Qed.

Lemma calm_ret {A} (a : A) : is_calm (mret a).
Proof. by apply spec_ret. Qed.

Lemma calm_bind {A B} (p : prog Shared A) (f : A → prog Shared B) :
  is_calm p → (∀ a, is_calm (f a)) → is_calm (p ≫= f).
Proof. intros Hp Hf. eapply spec_bind; [apply Hp|]. intros a ls _ _. apply Hf. Qed.

Lemma calm_clock : is_calm clock.
Proof. unfold is_calm, spec. run_prog. run_on. done. Qed.

Lemma calm_record closed e : is_calm (record_as closed e).
Proof. unfold is_calm, spec. run_prog. run_on. done. Qed.

Lemma calm_atomic {A} (f : Shared → A * Shared) :
  (∀ s, touches s (f s).2) → is_calm (atomic f).
Proof.
  intros Hf. unfold is_calm, spec. run_prog. split; [constructor|]. intros s.
  split; [constructor; [apply Hf|constructor]|done].
Qed.

Lemma calm_get : is_calm get.
Proof.
  unfold is_calm, spec. run_prog. split; [constructor|]. intros s.
  split; [constructor; [by apply touches_same|constructor]|done].
Qed.

Lemma calm_or_panic {A} (o : option A) : is_calm (or_panic o).
Proof. destruct o; [apply calm_ret|]. by split; [constructor|]. Qed.

Definition plain_request (r : RequestMessage) : Prop :=
  match r with RqCreateSession _ | RqActivateSession _ => False | _ => True end.

Lemma calm_queue r t : plain_request r → is_calm (queue r t).
Proof.
  intros Hr. unfold queue, is_calm, spec. run_prog. run_on.
  all: try (split; [repeat constructor; by destruct r|]); done.
Qed.

Lemma calm_await r q : is_calm (await r q).
Proof. unfold await, is_calm, spec. destruct q; run_prog; run_on; repeat constructor. Qed.

Create HintDb calm.
#[local] Hint Resolve calm_ret calm_clock calm_record calm_get calm_or_panic calm_queue calm_await
  touches_same : calm.
#[local] Hint Extern 1 (is_calm (_ ≫= _)) => apply calm_bind; [|intros ?] : calm.

Lemma calm_with_session token : is_calm (with_session token id).
Proof.
  unfold with_session. apply calm_bind; [auto with calm|]. intros now. apply calm_atomic. intros s.
  unfold session_with. destruct (sessions s !! token) as [e|] eqn:He; cbn [fst snd]; [|by apply touches_same].
  intros k e'. cbn [sessions set_sessions]. destruct (decide (k = token)) as [->|Hk].
  - rewrite lookup_insert_eq. intros [= <-]. exists e. split; [done|]. exists now. by left.
  - rewrite lookup_insert_ne by done. intros ?. exists e'. split; [done|]. exists 0. by right.
Qed.
#[local] Hint Resolve calm_with_session : calm.

Lemma calm_audit c cl e : is_calm (audit c cl e).
Proof. unfold audit, entry_for. auto 10 with calm. Qed.

Lemma calm_attributed c token : is_calm (attributed_client c token).
Proof.
  unfold attributed_client, client_of. apply calm_bind; [|auto with calm].
  apply calm_bind; [auto with calm|]. intros [e|]; auto with calm.
Qed.

Lemma calm_send r t : plain_request r → is_calm (send r t).
Proof. intros Hr. unfold send. auto with calm. Qed.

Lemma calm_send_both r1 t1 r2 t2 :
  plain_request r1 → plain_request r2 → is_calm (send_both r1 t1 r2 t2).
Proof. intros H1 H2. unfold send_both. auto 10 with calm. Qed.

Lemma calm_each {A} (f : A → prog Shared unit) l : (∀ x, is_calm (f x)) → is_calm (each f l).
Proof. intros Hf. induction l; simpl; auto with calm. Qed.

Lemma calm_forward c r : plain_request r → is_calm (forward c r).
Proof.
  intros Hr. unfold forward. apply calm_bind; [apply calm_attributed|]. intros cl.
  apply calm_bind; [auto with calm|]. intros whole. apply calm_bind; [auto with calm|]. intros s1.
  destruct (split_ignored _ _ _) as [rest ig]. apply calm_bind; [auto with calm|]. intros s2.
  destruct (pre_read_of _ _ _) as [p pre]. apply calm_bind; [auto with calm|]. intros s3.
  apply calm_bind.
  { destruct p; [|auto with calm]. destruct (bool_decide _); [unfold entry_for|]; auto with calm. }
  intros [n|e]; [|auto with calm]. apply calm_bind.
  { unfold send_change. destruct pre as [pr|]; [|apply calm_bind; [by apply calm_send|auto with calm]].
    apply calm_bind; [apply calm_atomic; intros s; by apply touches_same|]. intros h.
    apply calm_bind; [by apply calm_send_both|]. intros [read a].
    destruct p; [|auto with calm]. destruct read as [read|]; [|auto with calm].
    destruct read; auto with calm.
    apply calm_bind; [apply calm_atomic|auto with calm].
    intros s. destruct (apply_pre_read _ _ _ _) as [[? ?]|]; by apply touches_same. }
  intros [p' a]. destruct (settle _ _) as [response u]. apply calm_bind; [|auto with calm].
  unfold record_all. apply calm_bind.
  { destruct ig as [items|]; [|auto with calm]. apply calm_bind; [auto with calm|]. intros s.
    apply calm_each. intros w. unfold count_ignored. apply calm_bind; [auto with calm|]. intros now.
    apply calm_bind; [|intros []; [auto with calm|apply calm_audit]].
    apply calm_atomic. intros s'. destruct (Ignore.add _ _). by apply touches_same. }
  intros []. destruct p'; [|auto with calm]. apply calm_each. intros ev.
  unfold record_outcome, entry_for. auto 10 with calm.
Qed.

Lemma calm_close c h : is_calm (close_session c h).
Proof.
  unfold close_session. apply calm_bind; [by apply calm_forward|]. intros response.
  apply calm_bind; [|intros [e|]; auto using calm_audit with calm].
  apply calm_atomic. intros s. unfold remove_owned.
  destruct (sessions s !! _) as [e|] eqn:He; [|by apply touches_same].
  destruct (_ =? _); [|by apply touches_same]. intros token e'. cbn [fst snd sessions set_sessions].
  rewrite lookup_delete_Some. intros [_ ?]. exists e'. split; [done|]. exists 0. by right.
Qed.
(** ** What creating and activating a session takes *)

(** The client of the connection may sign in to the session [token] with [r]:
    the channel is at least as secure as the one the session was created on,
    and over a secured channel the client holds the session's key. *)
Definition may_activate (c : Ctx) (r : ActivateSessionRequest) (h : list lbl) (e : SessionEntry) : Prop :=
  (∃ s, s ∈ seen h ∧ sessions s !! authentication_token (as_header r) = Some e) ∧
  security_rank (se_security_policy e) (se_security_mode e) ≤ security_rank (policy c) (mode c) ∧
  (policy c ≠ PolicyNone → client_proved c r e = true).

(** What the gateway sends to activate the session, with the translated user. *)
Definition activation (c : Ctx) (r : ActivateSessionRequest) (e : SessionEntry)
    (identity : Identity) (r' : ActivateSessionRequest) : Prop :=
  translate_identity c (as_user_identity_token r) (downstream_nonce e) (upstream_nonce e) = Ok identity ∧
  as_header r' = as_header r ∧ as_user_identity_token r' = upstream_token identity.

(** The session was taken over with the user the server accepted. *)
Definition accepted (c : Ctx) (m : RequestMessage) (token : NodeId) (u : UserIdentity) (h : list lbl) : Prop :=
  ∃ r e identity r' sr nonce results, m = RqActivateSession r ∧
    authentication_token (as_header r) = token ∧ may_activate c r h e ∧
    activation c r e identity r' ∧ u = id_user identity ∧
    LAwait (RqActivateSession r') (Ok (RsActivateSession sr nonce results)) ∈ h ∧ is_good sr = true.

(** The server answered the gateway's own CreateSession with this session,
    and proved that it is the server the gateway trusts. *)
Definition opened (c : Ctx) (m : RequestMessage) (token : NodeId) (h : list lbl) : Prop :=
  ∃ r nonce u, m = RqCreateSession r ∧
    check_create c r = None ∧ LRandom nonce ∈ h ∧
    LAwait (RqCreateSession (upstream_create c r nonce)) (Ok (RsCreateSession u)) ∈ h ∧
    token = cr_authentication_token u ∧
    (upstream_policy c ≠ PolicyNone → server_verified c nonce u = true ∧
       missing_from_discovery (default [] (cr_server_endpoints u)) (upstream_endpoints c)
         (min_security c) = None).

Definition keeps_security (e e' : SessionEntry) : Prop :=
  se_security_policy e' = se_security_policy e ∧ se_security_mode e' = se_security_mode e ∧
  se_client_certificate e' = se_client_certificate e.

Definition has_security_of (c : Ctx) (e : SessionEntry) : Prop :=
  se_security_policy e = policy c ∧ se_security_mode e = mode c ∧
  se_client_certificate e = client_certificate c.

(** Every session after a step was there before, was opened, or was taken
    over by an accepted activation. *)
Definition justified (c : Ctx) (m : RequestMessage) (h : list lbl) (before after : Shared) : Prop :=
  ∀ token e', sessions after !! token = Some e' →
    (∃ e, sessions before !! token = Some e ∧ same_session e e') ∨
    (opened c m token h ∧ has_security_of c e' ∧ user (se_client e') = user (ctx_client c) ∧
     se_connection_id e' = connection_id c) ∨
    (∃ e u, sessions before !! token = Some e ∧ accepted c m token u h ∧ keeps_security e e' ∧
     user (se_client e') = Some u ∧ se_connection_id e' = connection_id c).

Definition login_guard (c : Ctx) (m : RequestMessage) (h : list lbl) (l : lbl) : Prop :=
  match l with
  | LUpdate b a => justified c m h b a
  | LSubmit (RqActivateSession r') _ =>
      ∃ r e identity, m = RqActivateSession r ∧ may_activate c r h e ∧ activation c r e identity r'
  | _ => True
  end.

Lemma calm_guarded c m h l : calm l → login_guard c m h l.
Proof.
  destruct l as [| | |b a| |r t| | | |]; try done.
  - intros Ht token e' He. left. by apply Ht.
  - by destruct r.
Qed.

Lemma is_calm_then {A B} c m (p : prog Shared A) (f : A → prog Shared B) h Φ :
  is_calm p → steps (login_guard c m) h →
  (∀ a ls, steps (login_guard c m) (h ++ ls) → always (steps (login_guard c m)) (f a) (h ++ ls) Φ) →
  always (steps (login_guard c m)) (p ≫= f) h Φ.
Proof.
  intros Hp Hs Hf.
  assert (He : ∀ ls, Forall calm ls → steps (login_guard c m) (h ++ ls)).
  { intros ls Hq. eapply steps_app_Forall; [done| |done]. intros. by apply calm_guarded. }
  eapply always_then; [by eapply spec_use|]. intros a h' (ls & -> & Hq & _). auto.
Qed.

Lemma is_calm_end {A} c m (p : prog Shared A) h :
  is_calm p → steps (login_guard c m) h → always (steps (login_guard c m)) p h (fun _ _ => True).
Proof.
  intros Hp Hs. eapply always_mono; [|eapply spec_use; [exact Hp|]]; [done|].
  intros ls Hq. eapply steps_app_Forall; [done| |done]. intros. by apply calm_guarded.
Qed.

Lemma may_activate_mono c r h h' e : h ⊆ h' → may_activate c r h e → may_activate c r h' e.
Proof. intros Hs [(s & Hin & He) Hm]. split; [|done]. exists s. split; [by eapply seen_mono|done]. Qed.

Lemma accepted_mono c m token u h h' : h ⊆ h' → accepted c m token u h → accepted c m token u h'.
Proof.
  intros Hs (r & e & i & r' & sr & n & rs & Hr & Ht & Hm & Ha & Hu & Hin & Hg).
  exists r, e, i, r', sr, n, rs. split_and!; auto. by eapply may_activate_mono.
Qed.

Lemma opened_mono c m token h h' : h ⊆ h' → opened c m token h → opened c m token h'.
Proof.
  intros Hs (r & n & u & H0' & H1 & H2 & H3 & H4). exists r, n, u. split_and!; auto; apply H4.
Qed.

Lemma justified_mono c m h h' b a : h ⊆ h' → justified c m h b a → justified c m h' b a.
Proof.
  intros Hs Hj token e' He. destruct (Hj token e' He) as [?|[[Ho ?]|(e & u & ? & Ha & Hrest)]].
  - by left.
  - right; left. split; [by eapply opened_mono|done].
  - right; right. exists e, u. split; [done|]. split; [by eapply accepted_mono|exact Hrest].
Qed.
(** Sending one request the guard allows. *)
Lemma send_guarded c m r t h :
  steps (login_guard c m) h → (∀ ls, login_guard c m (h ++ ls) (LSubmit r t)) →
  always (steps (login_guard c m)) (send r t) h
    (fun a h' => ∃ ls, h' = h ++ ls ∧ steps (login_guard c m) h' ∧
       ∀ x, a = Ok x → LAwait r (Ok x) ∈ h').
Proof.
  intros Hs Hg. unfold send, queue, await. run_prog.
  assert (Hi : ∀ b, steps (login_guard c m) (h ++ [LIsClosed b])) by (intros b; by apply steps_snoc).
  split; [done|]. intros [|]; run_prog.
  - split; [done|]. exists [LIsClosed true]. by split_and!.
  - assert (Hsub : steps (login_guard c m) ((h ++ [LIsClosed false]) ++ [LSubmit r t]))
      by (apply steps_snoc; auto).
    split; [done|]. split; [done|]. intros a.
    assert (Ha : steps (login_guard c m) (((h ++ [LIsClosed false]) ++ [LSubmit r t]) ++ [LAwait r a]))
      by (by apply steps_snoc).
    split; [done|]. exists [LIsClosed false; LSubmit r t; LAwait r a].
    rewrite <- !app_assoc in Ha |- *. split_and!; [done|done|].
    intros x Hx. destruct a as [y|]; [|done]. simpl in Hx. injection Hx as ->. set_solver.
Qed.

Lemma auth_failed_calm c cl text response : is_calm (auth_failed c cl text response).
Proof. unfold auth_failed. apply calm_bind; [apply calm_audit|]. intros []. apply calm_ret. Qed.

Lemma calm_update_info id cl u : is_calm (atomic (fun s => ((), update_info id cl u s))).
Proof. apply calm_atomic. intros s. by apply touches_same. Qed.

Lemma calm_random : is_calm random.
Proof. unfold is_calm, spec. run_prog. split; [constructor|]. intros b. by repeat constructor. Qed.
#[local] Hint Resolve calm_random auth_failed_calm calm_update_info calm_audit : calm.

(** A critical section the guard allows. *)
Lemma atomic_then {A B} c m (f : Shared → A * Shared) (k : A → prog Shared B) h Φ :
  steps (login_guard c m) h → (∀ s, justified c m h s (f s).2) →
  (∀ a h', h ⊆ h' → steps (login_guard c m) h' → always (steps (login_guard c m)) (k a) h' Φ) →
  always (steps (login_guard c m)) (atomic f ≫= k) h Φ.
Proof.
  intros Hs Hg Hk. apply always_bind. run_prog. split; [done|]. intros s.
  assert (Hs' : steps (login_guard c m) (h ++ [LUpdate s (f s).2])) by (by apply steps_snoc; split; [done|apply Hg]).
  split; [done|]. apply Hk; [set_solver|done].
Qed.

Lemma same_session_refl e : same_session e e.
Proof. exists 0. by right. Qed.

Lemma finish_create_always c r nonce u h (m := RqCreateSession r) :
  steps (login_guard c m) h → opened c m (cr_authentication_token u) h →
  always (steps (login_guard c m)) (finish_create c r nonce u) h (fun _ _ => True).
Proof.
  intros Hs Ho. unfold finish_create.
  destruct (own_signature _ _ _ _) as [sig|]; [|by apply is_calm_end; [apply calm_ret|]].
  apply is_calm_then; [auto with calm|done|]. intros sn l1 H1.
  apply is_calm_then; [auto with calm|done|]. intros created l2 H2.
  apply is_calm_then; [auto with calm|done|]. intros now l3 H3.
  apply atomic_then; [done| |].
  - intros s token e'. unfold session_insert. cbn [fst snd sessions set_sessions].
    rewrite lookup_insert_Some. intros [[<- <-]|[Hne Hf]].
    + right; left. split; [|done]. eapply opened_mono; [|done]. set_solver.
    + left. apply map_lookup_filter_Some in Hf as [Hf _]. exists e'. split; [done|apply same_session_refl].
  - intros [] h' _ Hs'. apply is_calm_end; [|done].
    apply calm_bind; [auto with calm|]. intros []. apply calm_bind; auto with calm.
Qed.

Lemma create_always c r (m := RqCreateSession r) :
  always (steps (login_guard c m)) (create_session c r) [] (fun _ _ => True).
Proof.
  unfold create_session. destruct (check_create c r) eqn:Hcheck.
  { apply is_calm_end; [apply calm_ret|apply steps_nil]. }
  apply always_bind. run_prog. split; [apply steps_nil|]. intros nonce.
  assert (Hst : steps (login_guard c m) [LRandom nonce]) by (by apply (steps_snoc _ []); split; [apply steps_nil|]).
  split; [done|]. eapply always_then; [by apply send_guarded|].
  intros answer h (ls & Hh & Hs & Hin).
  assert (Hn : LRandom nonce ∈ h) by (rewrite Hh; by left). clear Hh Hst.
  destruct answer as [resp|e]; [|by apply is_calm_end; [apply calm_ret|]].
  specialize (Hin resp eq_refl).
  destruct resp as [| | | | | | | | |u| | | | | |]; try (by apply is_calm_end; [apply calm_ret|]).
  case_bool_decide as Hnone.
  { apply finish_create_always; [done|]. exists r, nonce, u. by split_and!. }
  destruct (server_verified c nonce u) eqn:Hver; cbn [negb]; [|by apply is_calm_end; [apply calm_ret|]].
  destruct (missing_from_discovery _ _ _) eqn:Hmiss.
  { apply is_calm_end; [|done]. apply calm_bind; [auto with calm|]. intros []. apply calm_ret. }
  apply finish_create_always; [done|]. exists r, nonce, u. by split_and!.
Qed.

Lemma activate_as_always c r e identity h (m := RqActivateSession r) :
  steps (login_guard c m) h → may_activate c r h e →
  translate_identity c (as_user_identity_token r) (downstream_nonce e) (upstream_nonce e) = Ok identity →
  always (steps (login_guard c m))
    (activate_as c r (with_address (remote_addr (ctx_client c)) (se_client e)) (upstream_nonce e) identity)
    h (fun _ _ => True).
Proof.
  intros Hs Hm Ht. unfold activate_as.
  destruct (own_signature _ _ _ _) as [sig|]; [|by apply is_calm_end; [apply calm_ret|]].
  set (r' := mkActivateSessionRequest _ _ _ _ _).
  assert (Hact : activation c r e identity r') by (by split_and!).
  eapply always_then.
  { apply send_guarded; [done|]. intros ls. exists r, e, identity. split; [done|].
    split; [|done]. eapply may_activate_mono; [|done]. set_solver. }
  intros a h' (ls & -> & Hs' & Hin).
  destruct a as [resp|err]; [|by apply is_calm_end; [apply calm_ret|]]. specialize (Hin resp eq_refl).
  destruct resp as [| | | | | | | | | |sr nonce results| | | | |];
    try (by apply is_calm_end; [auto with calm|]).
  destruct (is_good sr) eqn:Hg; [|by apply is_calm_end; [auto with calm|]].
  assert (Hacc : accepted c m (authentication_token (as_header r)) (id_user identity) (h ++ ls)).
  { exists r, e, identity, r', sr, nonce, results. split_and!; try done.
    eapply may_activate_mono; [|done]. set_solver. }
  apply is_calm_then; [auto with calm|done|]. intros sn l1 H1.
  set (cl := with_user _ _). apply always_bind. unfold with_session.
  apply is_calm_then; [auto with calm|done|]. intros now l2 H2. set (h2 := ((h ++ ls) ++ l1) ++ l2) in *. unfold atomic. cbn [always].
  split; [done|]. intros s.
  set (upd := fun e0 => activated c cl sn nonce e0).
  assert (Hj : justified c m h2 s (let (r0, reg) := session_with now (authentication_token (as_header r))
                 upd (sessions s) in (r0, set_sessions reg s)).2).
  { intros token e'. unfold session_with. destruct (sessions s !! _) as [e1|] eqn:He1; cbn [snd].
    2: { cbn. intros ?. left. exists e'. split; [done|apply same_session_refl]. }
    cbn [sessions set_sessions]. rewrite lookup_insert_Some. intros [[<- <-]|[Hne ?]].
    - right; right. exists e1, (id_user identity). split; [done|]. split; [|by split_and!].
      eapply accepted_mono; [|done]. unfold h2. set_solver.
    - left. exists e'. split; [done|apply same_session_refl]. }
  assert (Hs2 : steps (login_guard c m) (h2 ++ [LUpdate s _])) by (apply steps_snoc; split; [done|exact Hj]).
  split; [exact Hs2|]. apply is_calm_end; [|exact Hs2].
  apply calm_bind; [apply calm_update_info|]. intros []. apply calm_bind; [auto with calm|].
  intros []. apply calm_ret.
Qed.

Lemma with_session_spec token :
  spec calm (with_session token id) (fun found ls => ∀ e, found = Some e → ∃ s e0 now,
    s ∈ seen ls ∧ sessions s !! token = Some e0 ∧ e = touch now e0).
Proof.
  unfold spec. apply (always_mono _ _ _ (fun found ls => Forall calm ls ∧ ∀ e, found = Some e → ∃ s e0 now,
    s ∈ seen ls ∧ sessions s !! token = Some e0 ∧ e = touch now e0)); [by intros ? ? []|].
  unfold with_session. run_prog. split; [constructor|]. intros now. split; [by repeat constructor|].
  intros s. unfold session_with. destruct (sessions s !! token) as [e0|] eqn:He; cbn [fst snd].
  - assert (Hc : Forall calm [LClock now; LUpdate s (set_sessions (<[token := id (touch now e0)]> (sessions s)) s)]).
    { repeat constructor. intros k e'. cbn [sessions set_sessions].
      rewrite lookup_insert_Some. intros [[<- <-]|[Hne ?]].
      - exists e0. split; [done|]. exists now. by left.
      - exists e'. split; [done|apply same_session_refl]. }
    split; [exact Hc|]. split; [exact Hc|]. intros e [= <-]. exists s, e0, now.
    split_and!; [left|done|done].
  - assert (Hc : Forall calm [LClock now; LUpdate s (set_sessions (sessions s) s)])
      by (repeat constructor; by apply touches_same).
    split; [exact Hc|]. split; [exact Hc|]. done.
Qed.

Lemma activate_always c r (m := RqActivateSession r) :
  always (steps (login_guard c m)) (activate_session c r) [] (fun _ _ => True).
Proof.
  unfold activate_session. eapply always_then.
  { eapply (spec_use calm _ _ [] (fun found ls => ∀ e, found = Some e → ∃ s e0 now,
      s ∈ seen ls ∧ sessions s !! authentication_token (as_header r) = Some e0 ∧ e = touch now e0)).
    - eapply spec_mono; [done| |apply with_session_spec]. done.
    - intros ls Hq. eapply steps_app_Forall; [apply steps_nil| |done]. intros. by apply calm_guarded. }
  intros [e|] h (ls & -> & Hcalm & Hf); cbn [app].
  all: assert (Hs : steps (login_guard c m) ls)
    by (eapply (steps_app_Forall _ calm []); [apply steps_nil|intros; by apply calm_guarded|done]).
  2: { by apply is_calm_end; [apply calm_ret|]. }
  destruct (Hf e eq_refl) as (s & e0 & now & Hin & He0 & ->).
  cbn [touch se_client se_security_policy se_security_mode downstream_nonce upstream_nonce].
  destruct (Z.ltb_spec (security_rank (policy c) (mode c))
    (security_rank (se_security_policy e0) (se_security_mode e0))) as [Hlt|Hge].
  { by apply is_calm_end; [apply auth_failed_calm|]. }
  destruct (negb _ && negb _) eqn:Hproof; [by apply is_calm_end; [apply auth_failed_calm|]|].
  destruct (translate_identity _ _ _ _) as [identity|[st u]] eqn:Ht.
  2: { by apply is_calm_end; [apply auth_failed_calm|]. }
  apply (activate_as_always c r e0 identity ls); [done| |done].
  split; [by exists s|]. split; [lia|]. intros Hpol.
  apply andb_false_iff in Hproof as [Hp|Hp]; apply negb_false_iff in Hp.
  - by apply bool_decide_eq_true in Hp.
  - done.
Qed.
(** Whatever a task of a connection does, its steps are justified. *)
Lemma service_always c m : always (steps (login_guard c m)) (service_task c m) [] (fun _ _ => True).
Proof.
  destruct m; try (by apply is_calm_end; [apply calm_forward|apply steps_nil]).
  - apply create_always.
  - apply activate_always.
  - apply is_calm_end; [apply calm_close|apply steps_nil].
Qed.

(** Claim C5. The gateway signs in to the server on a
    client's behalf only for a session it knows, over a channel at least as
    secure as the one the session was created on, and (over a secured channel)
    with the client's signature by the session's certificate over the nonce
    the gateway gave last. What it sends is the client's own identity,
    translated. *)
Theorem activation_needs_proof c r pre r' t q :
  runs (activate_session c r) (pre ++ [LSubmit (RqActivateSession r') t]) q →
  ∃ e identity, may_activate c r pre e ∧ activation c r e identity r'.
Proof.
  intros Hr. destruct (always_sound _ _ _ _ _ (activate_always c r) Hr) as [Hs _].
  destruct (Hs pre _ [] eq_refl) as (r0 & e & i & [= <-] & Hm & Ha). by exists e, i.
Qed.
End LoginFacts.

(** ** A session in the small gateway *)
Module ToyLogin.
Import ToyNodes ToyOpc ToyRelay.

Definition client_nonce : Blob := "0123456789abcdef0123456789abcdef".
Definition create : CreateSessionRequest :=
  mkCreateSessionRequest (mkRequestHeader "" 1 0) (mkApplicationDescription "urn:hmi" "" "HMI" false None)
    "" "" "HMI" client_nonce "hmi" SpecFloat.S754_nan 0.
Definition created : CreateSessionResponse :=
  mkCreateSessionResponse (Status 0) "s1" "tok" (SpecFloat.S754_finite false 60000 0) "n2" "plc"
    (Some [endpoint]) (Some "plc/nonce") 0.
Definition sign_in : ActivateSessionRequest :=
  mkActivateSessionRequest (mkRequestHeader "tok" 2 0) (Some "hmi/nonce") []
    (ItUserName (mkUserNameToken "user" "operator" "secret" "")) None.
(** A server that creates one session and accepts the sign-in. *)
Definition answers (r : RequestMessage) : result StatusCode ResponseMessage :=
  match r with
  | RqCreateSession _ => Ok (RsCreateSession created)
  | RqActivateSession _ => Ok (RsActivateSession (Status 0) "n3" "")
  | _ => server r
  end.
Definition login_world : World :=
  mkWorld 1000 "nonce" (fun _ => Ok 1) false answers (fun _ _ => Ok ()) (fun _ => Ok ()) (Ok [endpoint]).
Definition empty_shared : Shared :=
  mkShared ∅ ∅ ∅ (mkLookup ∅ ∅) ∅ (settings true) 1 GATEWAY_REQUEST_HANDLES None.
(** The state with the session created. *)
Definition with_tok : Shared := (exec login_world (create_session ctx create) empty_shared).2.
Definition sign_in_run := exec login_world (activate_session ctx sign_in) with_tok.
End ToyLogin.

Section LoginWitnesses.
Import ToyNodes ToyOpc ToyRelay ToyLogin.

Definition signed_in : ActivateSessionRequest :=
  mkActivateSessionRequest (mkRequestHeader "tok" 2 0) (Some "gw/n2") []
    (ItUserName (mkUserNameToken "user" "operator" "secret" "clear")) None.

Lemma activation_needs_proof_witness :
  let pre := firstn 3 sign_in_run.1.1 in
  sign_in_run.1.1 !! 3%nat = Some (LSubmit (RqActivateSession signed_in) 600000) ∧
  ∃ e identity, may_activate ctx sign_in pre e ∧ activation ctx sign_in e identity signed_in.
Proof.
  intros pre. assert (Hl : sign_in_run.1.1 !! 3%nat = Some (LSubmit (RqActivateSession signed_in) 600000))
    by (vm_compute; reflexivity).
  split; [exact Hl|].
  destruct (exec_prefix login_world (activate_session ctx sign_in) with_tok
    (pre ++ [LSubmit (RqActivateSession signed_in) 600000]) (skipn 4 sign_in_run.1.1)) as [q Hq].
  { rewrite <- app_assoc. exact (eq_sym (take_drop_middle _ _ _ Hl)). }
  exact (activation_needs_proof ctx sign_in pre signed_in 600000 q Hq).
Defined.
End LoginWitnesses.
