(* ===== verification/Target.v ===== *)
(** All tasks of a target together: the connections' tasks run interleaved on
    the shared state, one effect at a time; other parts of the gateway may
    change settings, names and the like in between, but not the sessions. *)

From S2P Require Import Prelude Net Config Pipeline Ignore Endpoints AuditMap Event Opc Task Sessions Relay Login.

Section Target.
Context `{Crypto}.
Abbreviation lbl := (label Shared).

(** A task: its connection, the request it serves, what it did, what is left. *)
Record Thread : Type := mkThread {
  th_ctx : Ctx;
  th_request : RequestMessage;
  th_history : list lbl;
  th_program : prog Shared ResponseMessage;
}.

Record Target : Type := mkTarget { tg_shared : Shared; tg_threads : list Thread }.

Definition spawn (c : Ctx) (m : RequestMessage) : Thread := mkThread c m [] (service_task c m).

Definition advance (th : Thread) (l : lbl) (p : prog Shared ResponseMessage) : Thread :=
  mkThread (th_ctx th) (th_request th) (th_history th ++ [l]) p.

(** The shared state after an effect. *)
Definition after (l : lbl) (s : Shared) : Shared := match l with LUpdate _ a => a | _ => s end.

Definition on_shared (l : lbl) (s : Shared) : Prop := match l with LUpdate b _ => b = s | _ => True end.

Inductive target_step : Target → Target → Prop :=
(** A connection starts a task; a connection itself has no user. *)
| t_spawn s ths c m :
    user (ctx_client c) = None →
    target_step (mkTarget s ths) (mkTarget s (ths ++ [spawn c m]))
(** A task does its next effect. *)
| t_effect s ths i th l p :
    ths !! i = Some th → does (th_program th) l p → on_shared l s →
    target_step (mkTarget s ths) (mkTarget (after l s) (<[i := advance th l p]> ths))
(** Another part of the gateway changes the shared state. *)
| t_other s s' ths :
    sessions s' = sessions s → target_step (mkTarget s ths) (mkTarget s' ths).

Inductive target_reachable : Target → Prop :=
| t_start s : sessions s = ∅ → target_reachable (mkTarget s [])
| t_next t t' : target_reachable t → target_step t t' → target_reachable t'.

(** ** Properties *)

(** Where a session of the registry comes from. *)
Definition provenance (ths : list Thread) (token : NodeId) (e : SessionEntry) : Prop :=
  (∃ th, th ∈ ths ∧ opened (th_ctx th) (th_request th) token (th_history th) ∧
     has_security_of (th_ctx th) e) ∧
  ∀ u, user (se_client e) = Some u →
    ∃ th, th ∈ ths ∧ accepted (th_ctx th) (th_request th) token u (th_history th) ∧
      connection_id (th_ctx th) = se_connection_id e.

Definition all_sound (ths : list Thread) (s : Shared) : Prop :=
  ∀ token e, sessions s !! token = Some e → provenance ths token e.

(** Every task of the first list goes on in the second. *)
Definition goes_on (ths ths' : list Thread) : Prop :=
  ∀ th, th ∈ ths → ∃ th', th' ∈ ths' ∧ th_ctx th' = th_ctx th ∧ th_request th' = th_request th ∧
    th_history th ⊆ th_history th'.

Lemma provenance_mono ths ths' token e :
  goes_on ths ths' → provenance ths token e → provenance ths' token e.
Proof.
  intros Hg [(th & Hin & Ho & Hs) Hu]. split.
  - destruct (Hg th Hin) as (th' & Hin' & Hc & Hm & Hh). exists th'. rewrite Hc, Hm.
    split_and!; [done|by eapply opened_mono|apply Hs..].
  - intros u He. destruct (Hu u He) as (t & Ht & Ha & Hid). destruct (Hg t Ht) as (t' & Ht' & Hc & Hm & Hh).
    exists t'. rewrite Hc, Hm. split_and!; [done|by eapply accepted_mono|done].
Qed.

Lemma provenance_same ths token e e' :
  same_session e e' → provenance ths token e → provenance ths token e'.
Proof. by intros [t [->| ->]]. Qed.

Lemma goes_on_advance ths i th l p :
  ths !! i = Some th → goes_on ths (<[i := advance th l p]> ths).
Proof.
  intros Hi t Ht. apply list_elem_of_lookup in Ht as [j Hj]. destruct (decide (j = i)) as [->|Hne].
  - rewrite Hi in Hj. injection Hj as <-. exists (advance th l p). split.
    + apply (list_elem_of_lookup_2 _ i). rewrite list_lookup_insert_eq; [done|].
      by eapply lookup_lt_Some.
    + split_and!; [done|done|]. simpl. set_solver.
  - exists t. split_and!; [|done..]. apply (list_elem_of_lookup_2 _ j).
    by rewrite list_lookup_insert_ne.
Qed.

Lemma goes_on_spawn ths th : goes_on ths (ths ++ [th]).
Proof. intros t Ht. exists t. split_and!; [|done..]. apply elem_of_app. by left. Qed.

Record target_inv (t : Target) : Prop := {
  inv_tasks i th : tg_threads t !! i = Some th →
    always (steps (login_guard (th_ctx th) (th_request th))) (th_program th) (th_history th)
      (fun _ _ => True);
  inv_users i th : tg_threads t !! i = Some th → user (ctx_client (th_ctx th)) = None;
  inv_seen i th b a : tg_threads t !! i = Some th → LUpdate b a ∈ th_history th →
    all_sound (tg_threads t) b;
  inv_shared : all_sound (tg_threads t) (tg_shared t);
}.
Lemma all_sound_mono ths ths' s : goes_on ths ths' → all_sound ths s → all_sound ths' s.
Proof. intros Hg Hs token e He. by eapply provenance_mono, Hs. Qed.

Lemma inv_spawn s ths c m :
  user (ctx_client c) = None → target_inv (mkTarget s ths) → target_inv (mkTarget s (ths ++ [spawn c m])).
Proof.
  intros Hu [H1 H2 H3 H4]. pose proof (goes_on_spawn ths (spawn c m)) as Hg.
  assert (Hcase : ∀ i th, (ths ++ [spawn c m]) !! i = Some th → ths !! i = Some th ∨ th = spawn c m).
  { intros i th. rewrite lookup_app_Some, list_lookup_singleton_Some. naive_solver. }
  split; cbn [tg_threads tg_shared] in *.
  - intros i th Hi. destruct (Hcase i th Hi) as [Ht| ->]; [by eapply H1|]. apply service_always.
  - intros i th Hi. destruct (Hcase i th Hi) as [Ht| ->]; [by eapply H2|done].
  - intros i th b a Hi Hl. destruct (Hcase i th Hi) as [Ht| ->].
    + by eapply all_sound_mono, H3.
    + by apply not_elem_of_nil in Hl.
  - by eapply all_sound_mono.
Qed.

(** The update a task does leaves only sessions that come from somewhere. *)
Lemma sound_update ths th b a p :
  th ∈ ths → user (ctx_client (th_ctx th)) = None →
  justified (th_ctx th) (th_request th) (th_history th) b a → all_sound ths b →
  ∀ ths', goes_on ths ths' → (∃ i, ths' !! i = Some (advance th (LUpdate b a) p)) → all_sound ths' a.
Proof.
  intros Hth Hu Hj Hs ths' Hg [i Hi] token e' He'.
  destruct (Hj token e' He') as [(e & He & Hsame)|[(Ho & Hsec & Huser & Hid)|(e & u & He & Ha & Hk & Huser & Hid)]].
  - by eapply provenance_mono, provenance_same, Hs.
  - split; [|intros u Hu'; congruence]. exists (advance th (LUpdate b a) p).
    split; [by eapply list_elem_of_lookup_2|]. split; [|done]. eapply opened_mono; [|done]. simpl. set_solver.
  - assert (Hp : provenance ths' token e) by (by eapply provenance_mono, Hs).
    destruct Hp as [(t & Ht & Ho & Hsec) _]. split.
    + exists t. split; [done|]. split; [done|].
      destruct Hk as (E1 & E2 & E3), Hsec as (F1 & F2 & F3). by split_and!; etrans.
    + intros u' Hu'. exists (advance th (LUpdate b a) p). split; [by eapply list_elem_of_lookup_2|].
      assert (u' = u) as -> by congruence. split; [|done].
      eapply accepted_mono; [|done]. simpl. set_solver.
Qed.

Lemma inv_effect s ths i th l p :
  ths !! i = Some th → does (th_program th) l p → on_shared l s →
  target_inv (mkTarget s ths) → target_inv (mkTarget (after l s) (<[i := advance th l p]> ths)).
Proof.
  intros Hi Hd Hon [H1 H2 H3 H4]. cbn [tg_threads tg_shared] in *.
  pose proof (goes_on_advance ths i th l p Hi) as Hg.
  assert (Hin : <[i := advance th l p]> ths !! i = Some (advance th l p))
    by (apply list_lookup_insert_eq; by eapply lookup_lt_Some).
  assert (Halw := always_does _ _ _ _ _ _ Hd (H1 i th Hi)).
  assert (Hcase : ∀ j t, <[i := advance th l p]> ths !! j = Some t →
    (j ≠ i ∧ ths !! j = Some t) ∨ (j = i ∧ t = advance th l p)).
  { intros j t Hj. destruct (decide (j = i)) as [->|Hne].
    - right. rewrite Hin in Hj. by injection Hj as <-.
    - left. by rewrite list_lookup_insert_ne in Hj by done. }
  assert (Hafter : all_sound (<[i := advance th l p]> ths) (after l s)).
  { destruct l as [| | |b a| | | | | |]; try (by eapply all_sound_mono). simpl in Hon. subst b.
    eapply (sound_update ths th s a p); [by eapply list_elem_of_lookup_2|by eapply H2| |done|done|by exists i].
    apply always_inv in Halw. apply (Halw _ (LUpdate s a) []). done. }
  split; cbn [tg_threads tg_shared].
  - intros j t Hj. destruct (Hcase j t Hj) as [[_ Ht]|[_ ->]]; [by eapply H1|done].
  - intros j t Hj. destruct (Hcase j t Hj) as [[_ Ht]|[_ ->]]; [by eapply H2|].
    cbn. by eapply H2.
  - intros j t b a Hj Hl. destruct (Hcase j t Hj) as [[_ Ht]|[_ ->]].
    + by eapply all_sound_mono, H3.
    + cbn in Hl. apply elem_of_app in Hl as [Hl|Hl]; [by eapply all_sound_mono, H3|].
      apply list_elem_of_singleton in Hl. subst l. simpl in Hon. subst b. by eapply all_sound_mono.
  - done.
Qed.

Lemma target_reachable_inv t : target_reachable t → target_inv t.
Proof.
  induction 1 as [s Hs|t t' Hr IH Hstep].
  - split; cbn; try done. intros token e He. by rewrite Hs, lookup_empty in He.
  - destruct Hstep as [s ths c m Hu|s ths i th l p Hi Hd Hon|s s' ths Hs].
    + by apply inv_spawn.
    + by apply inv_effect.
    + destruct IH as [H1 H2 H3 H4]. split; try done. intros token e. cbn in *. rewrite Hs. apply H4.
Qed.

(** Claim C6. However the tasks of a target interleave, and
    whatever clients send and the server answers: every session the gateway
    knows was opened by the server in answer to the gateway's own request, by
    the server whose certificate and signature the gateway checked (over a
    secured upstream channel), and keeps the security it was created with. If
    it has a user, the server accepted an activation of exactly this session
    as that user, by a client on a channel at least as secure that proved the
    session's key, on the connection the session now belongs to. *)
Theorem session_provenance t token e :
  target_reachable t → sessions (tg_shared t) !! token = Some e →
  provenance (tg_threads t) token e.
Proof. intros Hr He. by apply (inv_shared t (target_reachable_inv t Hr)). Qed.

(** Claim C15. A record of a forwarded request names a user
    only if the server accepted that user on the session the request was sent
    in; otherwise the record names no user. A request that borrows another
    connection's session is recorded without that session's user. *)
Theorem attribution_sound t th e u :
  target_reachable t → th ∈ tg_threads t →
  ∀ response, runs (forward (th_ctx th) (th_request th)) (th_history th) (Ret response) →
  e ∈ recorded (th_history th) → (∃ cl, Event.client e = Some cl ∧ user cl = Some u) →
  let token := authentication_token (request_header (th_request th)) in
  (∃ t', t' ∈ tg_threads t ∧ accepted (th_ctx t') (th_request t') token u (th_history t')) ∧
  ∃ s, s ∈ seen (th_history th) ∧ owned_by token (connection_id (th_ctx th)) (sessions s) = true.
Proof.
  intros Hr Hth response Hrun He (cl & Hcl & Hu) token.
  destruct (target_reachable_inv t Hr) as [H1 H2 H3 H4].
  apply list_elem_of_lookup in Hth as [i Hi].
  destruct (always_sound _ _ _ _ _ (forward_always _ _) Hrun) as [_ Hacc].
  destruct (Hacc response eq_refl) as (cl' & rest & ig & (w & s & _ & _ & _ & Hat) & Hent & _).
  unfold entries_for in Hent. rewrite Forall_forall in Hent. destruct (Hent e He) as [Hcl' _].
  assert (cl' = cl) as -> by congruence.
  destruct Hat as [->|(s1 & s2 & en & Hs1 & Hs2 & Hen & -> & Hown)].
  { specialize (H2 i th Hi). congruence. }
  split; [|by exists s2].
  unfold seen in Hs1. apply list_elem_of_omap in Hs1 as (l & Hl & Hs1).
  destruct l as [| | |b a| | | | | |]; try done. injection Hs1 as ->.
  destruct (H3 i th s1 a Hi Hl token en Hen) as [_ Hprov].
  destruct (Hprov u Hu) as (t' & Ht' & Ha & _). by exists t'.
Qed.
End Target.

(** ** Running the tasks of a target one after the other *)
Section Running.
Context `{Crypto}.

(** A task run on to its end, by itself. *)
Definition finished (w : World) (th : Thread) (s : Shared) : Thread :=
  let r := exec w (th_program th) s in
  mkThread (th_ctx th) (th_request th) (th_history th ++ r.1.1)
    (match r.1.2 with Some a => Ret a | None => Panic end).

Lemma one_effect s ths i c m h l p p0 :
  target_reachable (mkTarget s ths) → ths !! i = Some (mkThread c m h p0) →
  does p0 l p → on_shared l s →
  target_reachable (mkTarget (after l s) (<[i := mkThread c m (h ++ [l]) p]> ths)) ∧
  <[i := mkThread c m (h ++ [l]) p]> ths !! i = Some (mkThread c m (h ++ [l]) p).
Proof.
  intros Hr Hi Hd Hon. split.
  - eapply t_next; [exact Hr|]. exact (t_effect s ths i _ l p Hi Hd Hon).
  - apply list_lookup_insert_eq. by eapply lookup_lt_Some.
Qed.

Lemma finished_reachable w s ths i th :
  target_reachable (mkTarget s ths) → ths !! i = Some th →
  target_reachable (mkTarget (exec w (th_program th) s).2 (<[i := finished w th s]> ths)).
Proof.
  destruct th as [c m h p]. unfold finished. cbn [th_program th_ctx th_request th_history].
  revert h s ths.
  induction p as [a| |k IH|k IH|co e k IH|f k IH|k IH|r t k IH|r k IH|x po k IH|e k IH|k IH];
    intros h s ths Hr Hi; cbn [exec fst snd];
    try (rewrite app_nil_r, list_insert_id by done; exact Hr).
  all: lazymatch goal with
    | |- context [exec ?w' ?p' ?s'] =>
        lazymatch goal with
        | |- context [_ ++ ?l :: _] => pose proof (one_effect _ _ _ _ _ _ l p' _ Hr Hi ltac:(constructor) ltac:(by cbn)) as Hone
        end
    end.
  all: cbn [after] in Hone; destruct Hone as [Hr1 Hi1];
    first [pose proof (IH _ _ _ Hr1 Hi1) as Hend|pose proof (IH _ _ _ _ Hr1 Hi1) as Hend].
  all: rewrite list_insert_insert_eq, <- app_assoc in Hend; exact Hend.
Qed.
End Running.

(** A client creates a session, signs in as operator and writes. *)
Section TargetWitnesses.
Import ToyNodes ToyOpc ToyRelay ToyLogin.

Definition write_tok : RequestMessage :=
  RqWrite (mkRequestHeader "tok" 7 0) (Some [write_of "a" 1]).

Definition tasks : list Thread :=
  [spawn ctx (RqCreateSession create); spawn ctx (RqActivateSession sign_in); spawn ctx write_tok].
Definition st1 := (exec login_world (create_session ctx create) empty_shared).2.
Definition st2 := (exec login_world (activate_session ctx sign_in) st1).2.
Definition st3 := (exec login_world (forward ctx write_tok) st2).2.
Definition finished_tasks : list Thread :=
  [finished login_world (spawn ctx (RqCreateSession create)) empty_shared;
   finished login_world (spawn ctx (RqActivateSession sign_in)) st1;
   finished login_world (spawn ctx write_tok) st2].

Lemma toy_reachable : target_reachable (mkTarget st3 finished_tasks).
Proof.
  assert (H0 : target_reachable (mkTarget empty_shared tasks)).
  { unfold tasks.
    eapply t_next; [|apply (t_spawn _ [_; _]); reflexivity].
    eapply t_next; [|apply (t_spawn _ [_]); reflexivity].
    eapply t_next; [|apply (t_spawn _ []); reflexivity]. by apply t_start. }
  pose proof (finished_reachable login_world _ _ 0 _ H0 eq_refl) as H1.
  pose proof (finished_reachable login_world _ _ 1 _ H1 eq_refl) as H2.
  exact (finished_reachable login_world _ _ 2 _ H2 eq_refl).
Qed.

Lemma session_provenance_witness :
  ∃ e, sessions st3 !! "tok" = Some e ∧ user (se_client e) = Some (UserName "operator") ∧
    provenance finished_tasks "tok" e.
Proof.
  eexists. split; [vm_compute; reflexivity|]. split; [reflexivity|].
  apply (session_provenance (mkTarget st3 finished_tasks)); [exact toy_reachable|].
  vm_compute. reflexivity.
Defined.

Lemma attribution_sound_witness :
  ∃ t' s, t' ∈ finished_tasks ∧ accepted (th_ctx t') (th_request t') "tok" (UserName "operator") (th_history t') ∧
    owned_by "tok" 7 (sessions s) = true.
Proof.
  destruct (exec login_world (forward ctx write_tok) st2).1.2 as [response|] eqn:Hresp.
  2: { exfalso. vm_compute in Hresp. discriminate. }
  set (th := finished login_world (spawn ctx write_tok) st2).
  assert (He : ∃ e, e ∈ recorded (th_history th) ∧
    ∃ cl, Event.client e = Some cl ∧ user cl = Some (UserName "operator")).
  { eexists. split; [vm_compute; left|]. eexists. split; reflexivity. }
  destruct He as (e & He & Hu).
  destruct (attribution_sound (mkTarget st3 finished_tasks) th e (UserName "operator") toy_reachable
    ltac:(right; right; left) response (exec_returns login_world (forward ctx write_tok) st2 response Hresp) He Hu)
    as [(t' & Ht' & Ha) (s & _ & Ho)].
  exists t', s. split; [exact Ht'|]. split; [exact Ha|exact Ho].
Defined.
End TargetWitnesses.
