(* ===== verification/Transport.v ===== *)
(** The transport towards a client ([src/src/relay/transport.rs]): the
    handshake, the frame limit of [LimitedCodec], and the reassembly of chunks
    into requests. Parsing, decryption and encoding are the OPC UA stack's:
    the class [Stack]. *)

From S2P Require Import Prelude Net Event Opc.

(** ** Limits *)
Record Limits : Type := mkLimits {
  send_buffer_size : Z;
  receive_buffer_size : Z;
  max_message_size : Z;
  max_chunk_count : Z;
  max_request_size : Z;
  max_request_chunks : Z;
  (** nanoseconds *)
  hello_timeout : Z;
}.

Definition default_limits : Limits :=
  mkLimits 65535 65535 (64 * 1024 * 1024) 4096 (8 * 1024 * 1024) 1024 10000000000.

Definition MAX_HELLO_SIZE : Z := 8192.
Definition MAX_OPEN_SIZE : Z := 64 * 1024.

Record DecodingOptions : Type := mkDecodingOptions {
  do_max_message_size : Z;
  do_max_chunk_count : Z;
  do_max_string_length : Z;
  do_max_byte_string_length : Z;
  do_max_array_length : Z;
}.

(** Generous: the gateway must not reject what the server would accept. *)
Definition decoding_options (l : Limits) : DecodingOptions :=
  mkDecodingOptions (max_message_size l) (max_chunk_count l) (16 * 1024 * 1024) (16 * 1024 * 1024)
    (4 * 1024 * 1024).

(** ** What the stack parses *)
Record Hello : Type := mkHello {
  h_protocol_version : Z;
  h_receive_buffer_size : Z;
  h_send_buffer_size : Z;
  h_max_message_size : Z;
  h_max_chunk_count : Z;
  h_endpoint_url : string;
}.

Inductive Message : Type :=
| MsgHello (h : Hello)
| MsgChunk (data : Blob)
| MsgOther.

Inductive IsFinal : Type := Final | Intermediate | FinalError.

Record ChunkHeader : Type := mkChunkHeader { is_open : bool; is_final : IsFinal }.

Inductive SecurityHeader : Type :=
| Asymmetric (security_policy_uri : string) (sender_certificate : Blob)
| Symmetric.

(** The stack's error: a status and, for a request that could be told apart,
    its id and handle. *)
Record StackError : Type := mkStackError {
  err_status : StatusCode;
  err_request_id : option Z;
  err_handle : option Z;
}.

Definition plain_error (s : StatusCode) : StackError := mkStackError s None None.
Definition with_request_id (id : Z) (e : StackError) : StackError :=
  mkStackError (err_status e) (Some id) (err_handle e).
Definition full_context (e : StackError) : option (Z * Z) :=
  id ← err_request_id e; h ← err_handle e; Some (id, h).

Record ChunkInfo : Type := mkChunkInfo {
  sequence_number : Z;
  request_id : Z;
  security_header : SecurityHeader;
}.

(** The secure channel: what the relay reads and sets of it, and the rest
    (keys, counters) as the stack keeps it. *)
Record Channel `{Opc} : Type := mkChannel {
  ch_policy : Policy;
  ch_mode : SecurityMode;
  ch_remote_cert : option Cert;
  ch_remote_nonce : Blob;
  ch_id : Z;
  ch_rest : Blob;
}.

Class Stack `{Opc} : Type := {
  hello_valid : Hello → bool;
  chunk_header : Blob → result StackError ChunkHeader;
  (** the header of an OpenSecureChannel chunk *)
  open_header : Blob → result StackError SecurityHeader;
  (** [verify_and_remove_security_server] *)
  unsecure : Channel → Blob → result StackError Blob * Channel;
  chunk_info : Channel → Blob → result StackError ChunkInfo;
  validate_chunks : Channel → list Blob → result StackError unit;
  decode_request : Channel → list Blob → result StackError RequestMessage;
  (** sequence numbers: the last one, and the check of the next *)
  Sequence : Type;
  sequence_start : Sequence;
  sequence_next : Sequence → Z → result StackError Sequence;
  (** [SendBuffer::write] *)
  encode_response : Channel → Z → ResponseMessage → result StackError unit;
  (** [TcpCodec::decode]: a message or not yet one, and the rest of the buffer *)
  tcp_decode : string → result string (option Message) * string;
}.

Section Transport.
Context `{Stack}.

(** ** Frames *)

(** A byte of the buffer. *)
Definition byte_at (i : nat) (buf : string) : Z :=
  match String.get i buf with Some a => Z.of_N (N_of_ascii a) | None => 0 end.

(** The size a frame header announces, little endian. *)
Definition announced (buf : string) : Z :=
  byte_at 4 buf + 256 * byte_at 5 buf + 65536 * byte_at 6 buf + 16777216 * byte_at 7 buf.

(** [LimitedCodec::decode] *)
Definition limited_decode (max_frame : Z) (buf : string) : result string (option Message) * string :=
  if (8 <=? String.length buf)%nat && (max_frame <? announced buf) then
    (Err ("frame of " +:+ pretty (announced buf) +:+ " bytes exceeds the negotiated " +:+
          pretty max_frame +:+ " bytes"), buf)
  else tcp_decode buf.

(** ** The handshake *)
Record Ack : Type := mkAck {
  ack_receive_buffer_size : Z;
  ack_send_buffer_size : Z;
  ack_max_message_size : Z;
  ack_max_chunk_count : Z;
}.

Definition min_zero_infinite (ours theirs : Z) : Z :=
  if ours =? 0 then theirs else if theirs =? 0 then ours else Z.min ours theirs.

Record ChannelBinding : Type := mkChannelBinding { cb_policy_uri : string; cb_certificate : Blob }.

(** The state of the connection's transport. *)
Record Downstream : Type := mkDownstream {
  max_frame : Z;
  (** the limits of responses: chunk size, message size, chunk count *)
  response_limits : Z * Z * Z;
  pending_chunks : list Blob;
  pending_bytes : Z;
  d_max_request_chunks : Z;
  d_max_request_size : Z;
  sequence_numbers : Sequence;
  closing : bool;
  binding : option ChannelBinding;
  endpoint_url : string;
  protocol_version : Z;
  (** what is queued for the client *)
  sent : list (Z * ResponseMessage);
  sent_error : option (StatusCode * string);
}.

(** What the client's first message leads to: an error for it, or the
    acknowledgement and the transport. *)
Inductive HelloResult : Type :=
| HelloFailed (told : option string) (status : StatusCode)
| HelloOk (ack : Ack) (d : Downstream).

Definition acknowledge (l : Limits) (h : Hello) : Ack :=
  mkAck (Z.min (u32_wrap (receive_buffer_size l)) (h_send_buffer_size h))
    (Z.min (u32_wrap (send_buffer_size l)) (h_receive_buffer_size h))
    (u32_wrap (max_request_size l)) (u32_wrap (max_request_chunks l)).

(** [Downstream::accept]; [None]: nothing arrived in time, or at all. *)
Definition accept (l : Limits) (timed_out : bool) (first : option (result string Message)) : HelloResult :=
  if timed_out then HelloFailed (Some "timeout waiting for Hello") BadTimeout
  else match first with
  | None | Some (Err _) => HelloFailed None BadCommunicationError
  | Some (Ok (MsgHello h)) =>
      if negb (hello_valid h) then HelloFailed (Some "invalid Hello buffer sizes") BadCommunicationError
      else if 0 <? h_protocol_version h
      then HelloFailed (Some "protocol version unsupported") BadProtocolVersionUnsupported
      else
        let ack := acknowledge l h in
        HelloOk ack (mkDownstream (ack_receive_buffer_size ack)
          (ack_send_buffer_size ack, min_zero_infinite (u32_wrap (max_message_size l)) (h_max_message_size h),
           min_zero_infinite (u32_wrap (max_chunk_count l)) (h_max_chunk_count h))
          [] 0 (max_request_chunks l) (max_request_size l) sequence_start false None
          (h_endpoint_url h) (h_protocol_version h) [] None)
  | Some (Ok _) => HelloFailed (Some "expected Hello") BadCommunicationError
  end.

(** ** Sending *)
Definition set_closing (d : Downstream) : Downstream :=
  mkDownstream (max_frame d) (response_limits d) (pending_chunks d) (pending_bytes d)
    (d_max_request_chunks d) (d_max_request_size d) (sequence_numbers d) true (binding d)
    (endpoint_url d) (protocol_version d) (sent d) (sent_error d).

Definition enqueue_error (status : StatusCode) (reason : string) (d : Downstream) : Downstream :=
  mkDownstream (max_frame d) (response_limits d) (pending_chunks d) (pending_bytes d)
    (d_max_request_chunks d) (d_max_request_size d) (sequence_numbers d) true (binding d)
    (endpoint_url d) (protocol_version d) (sent d)
    (if closing d then sent_error d else Some (status, reason)).

Definition put (id : Z) (m : ResponseMessage) (d : Downstream) : Downstream :=
  mkDownstream (max_frame d) (response_limits d) (pending_chunks d) (pending_bytes d)
    (d_max_request_chunks d) (d_max_request_size d) (sequence_numbers d) (closing d) (binding d)
    (endpoint_url d) (protocol_version d) (sent d ++ [(id, m)]) (sent_error d).

Definition bind_channel (b : ChannelBinding) (d : Downstream) : Downstream :=
  mkDownstream (max_frame d) (response_limits d) (pending_chunks d) (pending_bytes d)
    (d_max_request_chunks d) (d_max_request_size d) (sequence_numbers d) (closing d) (Some b)
    (endpoint_url d) (protocol_version d) (sent d) (sent_error d).

(** A response that does not fit is replaced by a fault. *)
Definition enqueue (ch : Channel) (m : ResponseMessage) (id : Z) (d : Downstream)
    : result StatusCode unit * Downstream :=
  match encode_response ch id m with
  | Ok _ => (Ok (), put id m d)
  | Err e =>
      match full_context e with
      | None => (Err (err_status e), d)
      | Some (id', h) =>
          let f := fault h (err_status e) in
          match encode_response ch id' f with
          | Ok _ => (Ok (), put id' f d)
          | Err e => (Err (err_status e), d)
          end
      end
  end.

(** ** Receiving *)
Record Request : Type := mkRequest {
  rq_message : RequestMessage;
  rq_id : Z;
  rq_security_header : SecurityHeader;
}.

(** A renewal must keep the issued channel's policy and certificate. *)
Definition check_renewal (data : Blob) (b : ChannelBinding) : result StackError unit :=
  match open_header data with
  | Err e => Err e
  | Ok Symmetric => Err (plain_error BadSecurityChecksFailed)
  | Ok (Asymmetric uri cert) =>
      if String.eqb uri (cb_policy_uri b) && String.eqb cert (cb_certificate b) then Ok ()
      else Err (plain_error BadSecurityChecksFailed)
  end.

Definition set_pending (chunks : list Blob) (bytes : Z) (d : Downstream) : Downstream :=
  mkDownstream (max_frame d) (response_limits d) chunks bytes
    (d_max_request_chunks d) (d_max_request_size d) (sequence_numbers d) (closing d) (binding d)
    (endpoint_url d) (protocol_version d) (sent d) (sent_error d).

Definition set_sequence (q : Sequence) (d : Downstream) : Downstream :=
  mkDownstream (max_frame d) (response_limits d) (pending_chunks d) (pending_bytes d)
    (d_max_request_chunks d) (d_max_request_size d) q (closing d) (binding d)
    (endpoint_url d) (protocol_version d) (sent d) (sent_error d).

(** The checks before the stack's cryptography sees the chunk. *)
Definition admit_chunk (d : Downstream) (data : Blob) : result StackError ChunkHeader :=
  match chunk_header data with
  | Err e => Err e
  | Ok h =>
      match binding d with
      | None => if is_open h then Ok h else Err (plain_error BadSecureChannelIdInvalid)
      | Some b =>
          if is_open h then
            match check_renewal data b with Err e => Err e | Ok _ => Ok h end
          else Ok h
      end
  end.

(** How much a request may hold while it is incomplete. *)
Definition pending_limit (d : Downstream) : Z :=
  match binding d with None => MAX_OPEN_SIZE | Some _ => d_max_request_size d end.

(** The chunks of a complete message, decoded; there is at least one. *)
Definition complete (ch : Channel) (chunks : list Blob) : result StackError (option Request) :=
  match chunks with
  | [] => Err (plain_error BadUnexpectedError)
  | first :: _ =>
      match chunk_info ch first with
      | Err e => Err e
      | Ok info =>
          match validate_chunks ch chunks with
          | Err e => Err e
          | Ok _ =>
              match decode_request ch chunks with
              | Err e => Err (with_request_id (request_id info) e)
              | Ok m => Ok (Some (mkRequest m (request_id info) (security_header info)))
              end
          end
      end
  end.

(** [Downstream::process]: the transport keeps what it changed before an error. *)
Definition process (m : Message) (ch : Channel) (d : Downstream)
    : result StackError (option Request) * Channel * Downstream :=
  match m with
  | MsgChunk data =>
      match admit_chunk d data with
      | Err e => (Err e, ch, d)
      | Ok header =>
          match is_final header with
          | FinalError => (Ok None, ch, set_pending [] 0 d)
          | final =>
              let (plain, ch) := unsecure ch data in
              match plain with
              | Err e => (Err e, ch, d)
              | Ok chunk =>
                  if d_max_request_chunks d <=? Z.of_nat (length (pending_chunks d))
                  then (Err (plain_error BadDecodingError), ch, d)
                  else
                    let bytes := pending_bytes d + Z.of_nat (String.length chunk) in
                    let d := set_pending (pending_chunks d) bytes d in
                    if pending_limit d <? bytes then (Err (plain_error BadDecodingError), ch, d)
                    else match chunk_info ch chunk with
                    | Err e => (Err e, ch, d)
                    | Ok info =>
                        match sequence_next (sequence_numbers d) (sequence_number info) with
                        | Err e => (Err e, ch, d)
                        | Ok q =>
                            let d := set_pending (pending_chunks d ++ [chunk]) bytes (set_sequence q d) in
                            match final with
                            | Intermediate => (Ok None, ch, d)
                            | _ => (complete ch (pending_chunks d), ch, d)
                            end
                        end
                    end
              end
          end
      end
  | _ => (Err (plain_error BadUnexpectedError), ch, d)
  end.

Inductive PollResult : Type :=
| Sent
| Chunk
| GotRequest (r : Request)
| Recoverable (status : StatusCode) (id handle : Z)
| PollError (status : StatusCode)
| Closed.

Definition handle_incoming (incoming : option (result string Message)) (ch : Channel) (d : Downstream)
    : PollResult * Channel * Downstream :=
  match incoming with
  | None => (Closed, ch, d)
  | Some (Err _) => (PollError BadConnectionClosed, ch, d)
  | Some (Ok m) =>
      let '(r, ch, d) := process m ch d in
      match r with
      | Ok None => (Chunk, ch, d)
      | Ok (Some request) => (GotRequest request, ch, set_pending [] 0 d)
      | Err e =>
          (match full_context e with
           | Some (id, h) => Recoverable (err_status e) id h
           | None => PollError (err_status e)
           end, ch, set_pending [] 0 d)
      end
  end.

(** What happens first while the transport waits: the next chunk to send cannot
    be encoded; queued bytes are written, or cannot be; nothing is queued any
    more; a frame arrives, or the stream ends. *)
Inductive Progress : Type :=
| EncodeFailed (status : StatusCode)
| Flushed (ok : bool)
| Emptied
| Arrived (m : option (result string Message)).

(** [Downstream::poll]; [None]: this does not happen in this state. Once closing,
    nothing is read, and the transport is done when its queue is empty. *)
Definition poll (w : Progress) (ch : Channel) (d : Downstream) : option (PollResult * Channel * Downstream) :=
  match w with
  | EncodeFailed status => Some (PollError status, ch, d)
  | Flushed ok => Some (if ok : bool then Sent else Closed, ch, d)
  | Emptied => if closing d then Some (Closed, ch, d) else None
  | Arrived m => if closing d then None else Some (handle_incoming m ch d)
  end.

(** ** Properties *)

Definition total_bytes (chunks : list Blob) : Z :=
  Z.of_nat (sum_list (String.length <$> chunks)).

(** What is held of an incomplete request. *)
Definition held_ok (d : Downstream) : Prop :=
  pending_bytes d = total_bytes (pending_chunks d) ∧
  (pending_chunks d = [] ∨ pending_bytes d ≤ pending_limit d) ∧
  Z.of_nat (length (pending_chunks d)) ≤ Z.max 0 (d_max_request_chunks d).

Lemma held_ok_empty d : held_ok (set_pending [] 0 d).
Proof. split_and!; [done|by left|simpl; lia]. Qed.

Lemma total_bytes_snoc l x : total_bytes (l ++ [x]) = total_bytes l + Z.of_nat (String.length x).
Proof. unfold total_bytes. rewrite fmap_app, sum_list_with_app. simpl. lia. Qed.

(** What [process] leaves is fit to go on with, unless it failed. *)
Lemma process_held m ch d r ch' d' :
  process m ch d = (r, ch', d') → held_ok d →
  (is_ok r = true → held_ok d') ∧ binding d' = binding d ∧
  d_max_request_size d' = d_max_request_size d ∧ d_max_request_chunks d' = d_max_request_chunks d.
Proof.
  intros Hp Hd. unfold process in Hp. destruct m as [h|data|]; try (by injection Hp as <- <- <-).
  destruct (admit_chunk d data) as [header|e]; [|by injection Hp as <- <- <-].
  destruct (is_final header) eqn:Hf.
  3: { injection Hp as <- <- <-. split; [intros _; apply held_ok_empty|done]. }
  all: destruct (unsecure ch data) as [[chunk|e] ch1]; [|by injection Hp as <- <- <-].
  all: destruct (Z.leb_spec (d_max_request_chunks d) (Z.of_nat (length (pending_chunks d))));
    [by injection Hp as <- <- <-|].
  all: destruct (Z.ltb_spec (pending_limit (set_pending (pending_chunks d)
         (pending_bytes d + Z.of_nat (String.length chunk)) d))
         (pending_bytes d + Z.of_nat (String.length chunk))) as [|Hlim]; [by injection Hp as <- <- <-|].
  all: destruct (chunk_info ch1 chunk) as [info|e]; [|by injection Hp as <- <- <-].
  all: cbn [set_pending sequence_numbers] in Hp;
    destruct (sequence_next (sequence_numbers d) (sequence_number info)) as [q|e];
    [|by injection Hp as <- <- <-].
  all: injection Hp as <- <- <-; split; [intros _|done].
  all: destruct Hd as (Hb & _ & Hl); split_and!; cbn [pending_bytes pending_chunks set_pending];
    [rewrite total_bytes_snoc, Hb; lia|right; exact Hlim|rewrite length_app; simpl; lia].
Qed.

(** Claim C21. Whatever a client sends, the gateway holds at
    most 64 KiB of it before the client has a secure channel, and at most the
    request limit and chunk count it announced afterwards: the bytes it counts
    are the bytes it holds, and both stay within the limit. *)
Theorem reassembly_bounded incoming ch d r ch' d' :
  held_ok d → handle_incoming incoming ch d = (r, ch', d') →
  held_ok d' ∧ binding d' = binding d ∧
  total_bytes (pending_chunks d') ≤ Z.max 0 (match binding d' with
    | None => MAX_OPEN_SIZE | Some _ => d_max_request_size d end).
Proof.
  intros Hd Hh.
  assert (held_ok d' ∧ binding d' = binding d ∧ d_max_request_size d' = d_max_request_size d)
    as (H1 & H2 & H3).
  { unfold handle_incoming in Hh. destruct incoming as [[m|e]|]; try (by injection Hh as <- <- <-).
    destruct (process m ch d) as [[x ch1] d1] eqn:Hp.
    destruct (process_held _ _ _ _ _ _ Hp Hd) as (Hok & Hb & Hs & _).
    destruct x as [[request|]|e]; injection Hh as <- <- <-.
    - split; [apply held_ok_empty|done].
    - split; [by apply Hok|done].
    - split; [apply held_ok_empty|done]. }
  split; [done|]. split; [done|]. destruct H1 as (Hb & Hl & _).
  rewrite <- Hb. destruct Hl as [Hl|Hl].
  - rewrite Hl in Hb. unfold total_bytes in Hb. simpl in Hb. lia.
  - unfold pending_limit in Hl. rewrite H3 in Hl. lia.
Qed.

(** Claim C20. What the client sends reaches the channel's
    cryptography or becomes a request only if it is allowed at this point:
    before the channel is issued nothing but OpenSecureChannel, and after it a
    renewal only with exactly the policy and certificate the channel was
    issued with. Anything else leaves the channel as it was. *)
Theorem only_admitted_chunks m ch d r ch' d' :
  handle_incoming (Some (Ok m)) ch d = (r, ch', d') →
  (ch' = ch ∧ ∀ request, r ≠ GotRequest request) ∨
  ∃ data h, m = MsgChunk data ∧ chunk_header data = Ok h ∧
    match binding d with
    | None => is_open h = true
    | Some b => is_open h = true →
        open_header data = Ok (Asymmetric (cb_policy_uri b) (cb_certificate b))
    end.
Proof.
  intros Hh. unfold handle_incoming in Hh. destruct (process m ch d) as [[x ch1] d1] eqn:Hp.
  assert (Hno : ∀ e, x = Err e → ch1 = ch → ch' = ch ∧ ∀ request, r ≠ GotRequest request).
  { intros e -> ->. injection Hh as <- <- <-. split; [done|]. intros request.
    by destruct (full_context e) as [[? ?]|]. }
  unfold process in Hp. destruct m as [h|data|]; try (left; injection Hp as <- <- <-; by eapply Hno).
  unfold admit_chunk in Hp. destruct (chunk_header data) as [h|e] eqn:Hc.
  2: { left. injection Hp as <- <- <-. by eapply Hno. }
  destruct (binding d) as [b|] eqn:Hb.
  - destruct (is_open h) eqn:Ho; [|right; exists data, h; by rewrite Ho].
    unfold check_renewal in Hp. destruct (open_header data) as [[uri cert|]|e] eqn:Hoh.
    2-3: left; injection Hp as <- <- <-; by eapply Hno.
    destruct (String.eqb_spec uri (cb_policy_uri b)) as [->|];
      destruct (String.eqb_spec cert (cb_certificate b)) as [->|];
      try (left; injection Hp as <- <- <-; by eapply Hno).
    right. exists data, h. by rewrite Hoh.
  - destruct (is_open h) eqn:Ho; [by right; exists data, h|].
    left. injection Hp as <- <- <-. by eapply Hno.
Qed.

(** The codec never waits for more than the limit: if
    it asks for more bytes, it holds less than a header or less than the
    largest frame it accepts, so a client cannot make the gateway buffer what
    a frame header merely announces (the stack's codec, which only waits while
    a frame is incomplete, would buffer up to 4 GiB). *)
Theorem frames_bounded limit buf rest :
  (∀ b r, tcp_decode b = (Ok None, r) →
     (String.length b < 8)%nat ∨ Z.of_nat (String.length b) < announced b) →
  limited_decode limit buf = (Ok None, rest) →
  Z.of_nat (String.length buf) < Z.max 8 limit.
Proof.
  intros Hcodec. unfold limited_decode.
  destruct (Nat.leb_spec 8 (String.length buf)) as [Hlen|Hlen]; simpl.
  - destruct (Z.ltb_spec limit (announced buf)); [done|]. intros Hd.
    destruct (Hcodec _ _ Hd); lia.
  - intros _. lia.
Qed.
End Transport.

(** ** A stack to run the transport with *)
Module ToyStack.
Import ToyNodes ToyOpc.

(** A chunk's first byte: [O] opens a channel, any other is a request chunk;
    its second byte says whether it is the last one ([F]) or aborts ([A]). An
    opening chunk goes on with four bytes of policy and the certificate. *)
Definition toy_header (data : Blob) : result StackError ChunkHeader :=
  match data with
  | String k (String f _) =>
      Ok (mkChunkHeader (Ascii.eqb k "O") (if Ascii.eqb f "F" then Final else
                                            if Ascii.eqb f "A" then FinalError else Intermediate))
  | _ => Err (plain_error BadDecodingError)
  end.

Definition toy_security (data : Blob) : SecurityHeader :=
  match data with
  | String "O" (String _ rest) => Asymmetric (substring 0 4 rest) (substring 4 100 rest)
  | _ => Symmetric
  end.

(** An opening chunk switches the channel to its policy. *)
Definition toy_unsecure (ch : Channel) (data : Blob) : result StackError Blob * Channel :=
  (Ok data,
   match toy_security data with
   | Asymmetric uri _ =>
       mkChannel _ uri (ch_mode ch) (ch_remote_cert ch) (ch_remote_nonce ch) (ch_id ch) (ch_rest ch)
   | Symmetric => ch
   end).

Definition toy_decode (ch : Channel) (chunks : list Blob) : result StackError RequestMessage :=
  Ok (RqOpenSecureChannel (mkRequestHeader "" 1 0) (mkOpenSecureChannelRequest 0 false
        (if String.eqb (ch_policy ch) "None" then ModeNone else ModeSign) "" 60000)).

Definition toy_codec (buf : string) : result string (option Message) * string :=
  if (String.length buf <? 8)%nat then (Ok None, buf)
  else if Z.of_nat (String.length buf) <? announced buf then (Ok None, buf)
  else (Ok (Some (MsgChunk buf)), EmptyString).

#[export] Instance stack : Stack := {
  hello_valid h := 8192 <=? h_receive_buffer_size h;
  chunk_header := toy_header;
  open_header data := Ok (toy_security data);
  unsecure := toy_unsecure;
  chunk_info _ data := Ok (mkChunkInfo 1 1 (toy_security data));
  validate_chunks _ _ := Ok ();
  decode_request := toy_decode;
  Sequence := Z;
  sequence_start := 0;
  sequence_next q n := Ok n;
  encode_response _ _ _ := Ok ();
  tcp_decode := toy_codec;
}.

Definition channel : Channel := mkChannel _ "None" ModeNone None "" 1 "".
Definition hello : Hello := mkHello 0 65535 65535 0 0 "opc.tcp://gw:4841".
Definition transport : Downstream :=
  match accept default_limits false (Some (Ok (MsgHello hello))) with
  | HelloOk _ d => d
  | HelloFailed _ _ =>
      mkDownstream 0 (0, 0, 0) [] 0 0 0 0 false None "" 0 [] None
  end.
End ToyStack.

Section TransportWitnesses.
Import ToyNodes ToyOpc ToyStack.

Definition half_open : Downstream :=
  (handle_incoming (Some (Ok (MsgChunk "OCNone"))) channel transport).2.

Lemma reassembly_bounded_witness :
  held_ok half_open ∧ pending_chunks half_open = ["OCNone"] ∧
  total_bytes (pending_chunks half_open) ≤ MAX_OPEN_SIZE.
Proof.
  destruct (reassembly_bounded (Some (Ok (MsgChunk "OCNone"))) channel transport Chunk channel half_open)
    as (H1 & H2 & H3).
  - split_and!; [reflexivity|left; reflexivity|vm_compute; discriminate].
  - reflexivity.
  - split; [exact H1|]. split; [reflexivity|exact H3].
Defined.

Lemma only_admitted_chunks_witness :
  let '(r, ch, _) := handle_incoming (Some (Ok (MsgChunk "MFabc"))) channel transport in
  ch = channel ∧ ∀ request, r ≠ GotRequest request.
Proof.
  destruct (only_admitted_chunks (MsgChunk "MFabc") channel transport _ _ _ eq_refl)
    as [H|(data & h & [= <-] & Hh & Hb)].
  - exact H.
  - exfalso. vm_compute in Hh. injection Hh as <-. vm_compute in Hb. discriminate.
Defined.

Lemma toy_codec_waits b r :
  toy_codec b = (Ok None, r) → (String.length b < 8)%nat ∨ Z.of_nat (String.length b) < announced b.
Proof.
  unfold toy_codec. destruct (Nat.ltb_spec (String.length b) 8); [by left|].
  destruct (Z.ltb_spec (Z.of_nat (String.length b)) (announced b)); [by right|done].
Qed.

Lemma frames_bounded_witness :
  (∃ rest, limited_decode 16 "MSGF" = (Ok None, rest)) ∧ Z.of_nat (String.length "MSGF") < Z.max 8 16.
Proof.
  split; [by eexists|]. apply (frames_bounded 16 "MSGF" "MSGF").
  - exact toy_codec_waits.
  - reflexivity.
Defined.
End TransportWitnesses.
