(* ===== verification/Connection.v ===== *)
(** One client connection ([Connection] in [src/src/relay/connection.rs], and
    [Upstream::connect] of [src/src/relay/upstream.rs]): the secure channel, the
    services the gateway answers itself, the upstream channel, and which tasks
    are started. [on_event] is one turn of the connection's loop. *)

From S2P Require Import Prelude Net Config Pipeline Ignore Endpoints AuditMap Event Opc Task Sessions Relay Login Transport.

Definition MAX_TOKEN_LIFETIME_MS : Z := 3600000.
Definition MIN_TOKEN_LIFETIME_MS : Z := 10000.
Definition CLOSE_TIMEOUT : Z := 5000000000.

(** What else the stack does for a channel. *)
Class Channels `{Stack} : Type := {
  common_name : Cert → option string;
  (** the status of bytes [X509::from_byte_string] does not read *)
  cert_error : Blob → StatusCode;
  (** [set_remote_cert_from_byte_string] *)
  remote_cert_of : Blob → result StatusCode (option Cert);
  (** [validate_secure_channel_nonce_length], and storing the nonce *)
  nonce_ok : Policy → Blob → result StatusCode unit;
  (** the channel's state after [create_random_nonce] and [derive_keys] *)
  derive : Blob → Blob → bool → Blob;
}.

(** Whether the common name is safe as a file name (not on Windows). *)
Definition safe_file_name `{Channels} (c : Cert) : bool :=
  negb (existsb is_control (chars (default EmptyString (common_name c)))).

Section Connection.
Context `{Crypto} `{!Stack} `{!Channels}.
Abbreviation task := (prog Shared).

(** What a connection knows of its target. *)
Record Relayed : Type := mkRelayed {
  r_name : string;
  r_url : string;
  r_min : MinSecurity;
  r_gateway : GatewayIdentity;
}.

Record Upstream : Type := mkUpstream {
  up_endpoint : EndpointDescription;
  up_certificate : option Cert;
}.

(** A request in progress. *)
Record Pending : Type := mkPending {
  p_audited : bool;
  p_request_id : Z;
  p_ctx : Ctx;
  p_message : RequestMessage;
}.

Record Connection : Type := mkConnection {
  cn_id : Z;
  cn_client : ClientContext;
  cn_transport : Downstream;
  cn_channel : Channel;
  issued : bool;
  last_token_id : Z;
  cn_endpoints : list EndpointDescription;
  cn_upstream : option Upstream;
  cn_pending : list Pending;
  deadline : Z;
  close_reason : option string;
}.

Definition set_transport (d : Downstream) (cn : Connection) : Connection :=
  mkConnection (cn_id cn) (cn_client cn) d (cn_channel cn) (issued cn) (last_token_id cn)
    (cn_endpoints cn) (cn_upstream cn) (cn_pending cn) (deadline cn) (close_reason cn).
Definition set_channel (ch : Channel) (cn : Connection) : Connection :=
  mkConnection (cn_id cn) (cn_client cn) (cn_transport cn) ch (issued cn) (last_token_id cn)
    (cn_endpoints cn) (cn_upstream cn) (cn_pending cn) (deadline cn) (close_reason cn).
Definition set_closed (now : Z) (reason : string) (cn : Connection) : Connection :=
  mkConnection (cn_id cn) (cn_client cn) (cn_transport cn) (cn_channel cn) (issued cn)
    (last_token_id cn) (cn_endpoints cn) (cn_upstream cn) (cn_pending cn) (now + CLOSE_TIMEOUT)
    (Some reason).
Definition set_endpoints (es : list EndpointDescription) (cn : Connection) : Connection :=
  mkConnection (cn_id cn) (cn_client cn) (cn_transport cn) (cn_channel cn) (issued cn)
    (last_token_id cn) es (cn_upstream cn) (cn_pending cn) (deadline cn) (close_reason cn).
Definition set_upstream (u : option Upstream) (cn : Connection) : Connection :=
  mkConnection (cn_id cn) (cn_client cn) (cn_transport cn) (cn_channel cn) (issued cn)
    (last_token_id cn) (cn_endpoints cn) u (cn_pending cn) (deadline cn) (close_reason cn).
Definition set_pending_tasks (ps : list Pending) (cn : Connection) : Connection :=
  mkConnection (cn_id cn) (cn_client cn) (cn_transport cn) (cn_channel cn) (issued cn)
    (last_token_id cn) (cn_endpoints cn) (cn_upstream cn) ps (deadline cn) (close_reason cn).
Definition set_thumbprint (t : string) (cn : Connection) : Connection :=
  let c := cn_client cn in
  mkConnection (cn_id cn)
    (mkClientContext (remote_addr c) (application_uri c) (application_name c) (Some t) (user c)
       (session_id c))
    (cn_transport cn) (cn_channel cn) (issued cn) (last_token_id cn) (cn_endpoints cn)
    (cn_upstream cn) (cn_pending cn) (deadline cn) (close_reason cn).
(** A token is granted: the deadline, and the channel issued. *)
Definition set_issued (until : Z) (cn : Connection) : Connection :=
  mkConnection (cn_id cn) (cn_client cn) (cn_transport cn) (cn_channel cn) true (last_token_id cn)
    (cn_endpoints cn) (cn_upstream cn) (cn_pending cn) until (close_reason cn).
Definition set_deadline (until : Z) (cn : Connection) : Connection :=
  mkConnection (cn_id cn) (cn_client cn) (cn_transport cn) (cn_channel cn) (issued cn)
    (last_token_id cn) (cn_endpoints cn) (cn_upstream cn) (cn_pending cn) until (close_reason cn).
Definition next_token (cn : Connection) : Connection :=
  mkConnection (cn_id cn) (cn_client cn) (cn_transport cn) (cn_channel cn) (issued cn)
    (u32_wrap (last_token_id cn + 1)) (cn_endpoints cn) (cn_upstream cn) (cn_pending cn)
    (deadline cn) (close_reason cn).

Definition transport_closing (cn : Connection) : bool := bool_decide (is_Some (close_reason cn)).

(** ** Answering and closing *)
Definition close (status : StatusCode) (reason : string) (cn : Connection) : task Connection :=
  match close_reason cn with
  | Some _ => mret (set_transport (enqueue_error status reason (cn_transport cn)) cn)
  | None =>
      now ← clock;
      mret (set_transport (enqueue_error status reason (cn_transport cn)) (set_closed now reason cn))
  end.

Definition respond (id : Z) (response : ResponseMessage) (cn : Connection) : task Connection :=
  let (r, d) := enqueue (cn_channel cn) response id (cn_transport cn) in
  let cn := set_transport d cn in
  match r with
  | Ok _ => mret cn
  | Err status => close status "failed to encode response" cn
  end.

(** [record]: an event of the target's for the connection's client. *)
Definition record_event (t : Relayed) (cl : ClientContext) (e : AuditEvent) : task unit :=
  entry ← entry_for (r_name t) cl e;
  _ ← record_as false entry;
  mret ().

(** ** Upstream endpoints *)

(** [RelayTarget::upstream_endpoints] *)
Definition target_endpoints (t : Relayed) : task (result StatusCode (list EndpointDescription)) :=
  s ← get;
  match (match status s with Some (_, raw) => raw | None => [] end) with
  | [] =>
      found ← Discover mret;
      mret (match found with
            | Ok e => Ok (at_least e (r_min t))
            | Err _ => Err BadServerNotConnected
            end)
  | raw => mret (Ok (at_least raw (r_min t)))
  end.

(** An error is passed on only if nothing was known before. *)
Definition refresh_upstream_endpoints (t : Relayed) (cn : Connection)
    : task (option StatusCode * Connection) :=
  found ← target_endpoints t;
  mret (match found with
        | Ok es => (None, set_endpoints es cn)
        | Err s => (match cn_endpoints cn with [] => Some s | _ => None end, cn)
        end).

(** ** The upstream channel *)

(** [Upstream::connect]: over a secured endpoint the server's certificate must
    be trusted before anything is opened. *)
Definition connect (e : EndpointDescription) : task (result (@UpstreamError) Upstream) :=
  let p := ep_policy e in
  let cert := cert_of_bytes (ep_server_certificate e) in
  let open :=
    opened ← Connect e mret;
    mret (match opened with
          | Ok _ => Ok (mkUpstream e cert)
          | Err (s, text) => Err (OtherError s text)
          end) in
  if bool_decide (p = PolicyNone) then open
  else match cert with
  | None => mret (Err (OtherError BadCertificateInvalid "upstream endpoint has no valid certificate"))
  | Some c =>
      if negb (safe_file_name c)
      then mret (Err (OtherError BadCertificateInvalid
             "the server certificate's common name is not usable as a file name"))
      else
        trusted ← Validate c p mret;
        match trusted with
        | Ok _ => open
        | Err s => mret (Err (Untrusted (subject_name c) (thumbprint c) s))
        end
  end.

(** [set_gateway_trust], with its record. *)
Definition set_gateway_trust (t : Relayed) (found : GatewayTrust) : task unit :=
  event ← atomic (set_trust (r_url t) found);
  match event with
  | None => mret ()
  | Some e =>
      now ← clock;
      _ ← record_as false (with_target (r_name t) (new_entry now e));
      mret ()
  end.

Definition ensure_upstream (t : Relayed) (cn : Connection)
    : task (result StatusCode Upstream * Connection) :=
  match cn_upstream cn with
  | Some u => mret (Ok u, cn)
  | None =>
      '(failed, cn) ← match cn_endpoints cn with
                      | [] => refresh_upstream_endpoints t cn
                      | _ => mret (None, cn)
                      end;
      match failed with
      | Some s => mret (Err s, cn)
      | None =>
          match matching_upstream (cn_endpoints cn) (ch_policy (cn_channel cn)) (ch_mode (cn_channel cn)) with
          | None => mret (Err BadSecurityPolicyRejected, cn)
          | Some e =>
              connected ← connect e;
              match connected with
              | Ok u => mret (Ok u, set_upstream (Some u) cn)
              | Err (Untrusted subject thumb s) =>
                  _ ← record_event t (cn_client cn) (CertificateRejected subject thumb
                        ("upstream server certificate not trusted (" +:+ status_str s +:+ ")"));
                  mret (Err BadServerNotConnected, cn)
              | Err (OtherError s text) =>
                  _ ← (if contains "BadSecurityChecksFailed" text || contains "BadCertificateUntrusted" text
                       then set_gateway_trust t (Refused text) else mret ());
                  mret (Err BadServerNotConnected, cn)
              end
          end
      end
  end.

(** Everything a request task needs. *)
Definition make_ctx (t : Relayed) (cn : Connection) : task (result StatusCode Ctx * Connection) :=
  '(u, cn) ← ensure_upstream t cn;
  match u with
  | Err s => mret (Err s, cn)
  | Ok u =>
      let p := ch_policy (cn_channel cn) in
      mret (Ok (mkCtx (r_name t) (r_url t) (r_min t) (r_gateway t) (up_endpoint u) (up_certificate u)
              (cn_id cn) p (ch_mode (cn_channel cn))
              (if bool_decide (p = PolicyNone) then None else ch_remote_cert (cn_channel cn))
              (cn_client cn) (cn_endpoints cn) (endpoint_url (cn_transport cn))), cn)
  end.

(** ** The secure channel *)

(** Checks the client's certificate against the trust list. *)
Definition check_client_certificate (t : Relayed) (bytes : Blob) (cn : Connection)
    : task (option StatusCode * Connection) :=
  match cert_of_bytes bytes with
  | None => mret (Some (cert_error bytes), cn)
  | Some c =>
      let cn := set_thumbprint (thumbprint c) cn in
      if negb (safe_file_name c) then
        _ ← record_event t (cn_client cn) (CertificateRejected (clip (subject_name c) MAX_TEXT)
              (thumbprint c) "common name not usable as a file name");
        mret (Some BadCertificateInvalid, cn)
      else
        trusted ← Validate c (ch_policy (cn_channel cn)) mret;
        match trusted with
        | Ok _ => mret (None, cn)
        | Err s =>
            _ ← record_event t (cn_client cn)
                  (CertificateRejected (subject_name c) (thumbprint c) (status_str s));
            mret (Some s, cn)
        end
  end.

(** The response, then the connection closes. *)
Definition reject (id handle : Z) (status : StatusCode) (reason : string) (cn : Connection)
    : task Connection :=
  cn ← respond id (fault handle status) cn; close status reason cn.

(** The security mode fits the policy. *)
Definition consistent (p : Policy) (m : SecurityMode) : bool :=
  match m with
  | ModeNone => bool_decide (p = PolicyNone)
  | ModeSign | ModeSignAndEncrypt => negb (bool_decide (p = PolicyNone))
  | ModeInvalid => false
  end.

(** Why a renewal or an issue is refused before the certificate is looked at. *)
Definition renewal_problem (o : OpenSecureChannelRequest) (cn : Connection) : option (StatusCode * string) :=
  if negb (issued cn) then Some (BadSecureChannelIdInvalid, "renew before issue")
  else if negb (bool_decide (os_security_mode o = ch_mode (cn_channel cn)))
  then Some (BadSecurityModeRejected, "renewal with a different security mode")
  else if negb (bool_decide (ch_policy (cn_channel cn) = PolicyNone)) &&
          String.eqb (os_client_nonce o) (ch_remote_nonce (cn_channel cn))
  then Some (BadNonceInvalid, "nonce reused on renew")
  else None.

Definition issue_problem (o : OpenSecureChannelRequest) (cn : Connection) : option (StatusCode * string) :=
  if issued cn then Some (BadSecureChannelIdInvalid, "second issue")
  else if negb (consistent (ch_policy (cn_channel cn)) (os_security_mode o))
  then Some (BadSecurityModeRejected, "invalid security mode")
  else None.

(** The gateway offers the policy and mode, following the target. *)
Definition offers (t : Relayed) (cn : Connection) (m : SecurityMode) : bool :=
  existsb (fun e => bool_decide (security_mode e = m) &&
                    bool_decide (ep_policy e = ch_policy (cn_channel cn)))
    (gateway_endpoints (cn_endpoints cn) (r_gateway t) EmptyString).

(** The certificate of a secured channel is trusted; none is needed without. *)
Definition trusted_or_open (t : Relayed) (bytes : Blob) (cn : Connection)
    : task (option StatusCode * Connection) :=
  if bool_decide (ch_policy (cn_channel cn) = PolicyNone) then mret (None, cn)
  else check_client_certificate t bytes cn.

(** The new token's channel id, or why the request is refused. *)
Definition admit_open (t : Relayed) (cert : Blob) (o : OpenSecureChannelRequest) (cn : Connection)
    : task (result (StatusCode * string) Z * Connection) :=
  if os_renew o then
    match renewal_problem o cn with
    | Some problem => mret (Err problem, cn)
    | None =>
        '(failed, cn) ← trusted_or_open t cert cn;
        match failed with
        | Some s => mret (Err (s, "client certificate no longer trusted"), cn)
        | None => mret (Ok (ch_id (cn_channel cn)), cn)
        end
    end
  else
    match issue_problem o cn with
    | Some problem => mret (Err problem, cn)
    | None =>
        '(_, cn) ← refresh_upstream_endpoints t cn;
        if negb (offers t cn (os_security_mode o)) &&
           negb (bool_decide (ch_policy (cn_channel cn) = PolicyNone))
        then mret (Err (BadSecurityPolicyRejected, "security policy not offered by the target"), cn)
        else
          '(failed, cn) ← trusted_or_open t cert cn;
          match failed with
          | Some s => mret (Err (s, "client certificate rejected"), cn)
          | None => id ← atomic next_channel_id; mret (Ok id, cn)
          end
    end.

(** The channel set up for the token; on an error it stays as far as it got. *)
Definition setup_channel (o : OpenSecureChannelRequest) (cert : Blob) (id : Z) (nonce : Blob)
    (ch : Channel) : result StatusCode unit * Channel :=
  let ch := mkChannel _ (ch_policy ch) (os_security_mode o) (ch_remote_cert ch) (ch_remote_nonce ch) id
              (ch_rest ch) in
  match remote_cert_of cert with
  | Err s => (Err s, ch)
  | Ok c =>
      let ch := mkChannel _ (ch_policy ch) (ch_mode ch) c (ch_remote_nonce ch) (ch_id ch) (ch_rest ch) in
      match nonce_ok (ch_policy ch) (os_client_nonce o) with
      | Err s => (Err s, ch)
      | Ok _ =>
          (Ok (), mkChannel _ (ch_policy ch) (ch_mode ch) (ch_remote_cert ch) (os_client_nonce o) (ch_id ch)
             (derive (ch_rest ch) nonce
                (negb (bool_decide (ch_policy ch = PolicyNone)) && negb (bool_decide (ch_mode ch = ModeNone)))))
      end
  end.

Definition new_client_info (cn : Connection) (now : Z) : ClientInfo :=
  mkClientInfo (remote_addr (cn_client cn)) now (policy_str (ch_policy (cn_channel cn)))
    (Endpoints.mode_name (ch_mode (cn_channel cn))) None None None.

(** The token is granted and the client told. *)
Definition grant (t : Relayed) (request_id : Z) (uri : string) (cert : Blob)
    (o : OpenSecureChannelRequest) (id : Z) (nonce : Blob) (cn : Connection) : task Connection :=
  let lifetime := clamp (os_requested_lifetime o) MIN_TOKEN_LIFETIME_MS MAX_TOKEN_LIFETIME_MS in
  cn ← respond request_id (RsOpenSecureChannel (Status 0) (id, last_token_id cn, lifetime) nonce) cn;
  now ← clock;
  let until := now + lifetime * 4 / 3 * 1000000 in
  if os_renew o then mret (set_deadline until cn)
  else
    let cn := set_issued until (set_transport
                (bind_channel (mkChannelBinding uri cert) (cn_transport cn)) cn) in
    at_ ← clock;
    _ ← atomic (fun s => ((), set_clients (<[cn_id cn := new_client_info cn at_]> (clients s)) s));
    _ ← record_event t (cn_client cn) (SecureChannelOpened (policy_str (ch_policy (cn_channel cn)))
          (Endpoints.mode_name (ch_mode (cn_channel cn))));
    mret cn.

Definition open_secure_channel (t : Relayed) (request_id : Z) (sh : SecurityHeader)
    (h : RequestHeader) (o : OpenSecureChannelRequest) (cn : Connection) : task Connection :=
  match sh with
  | Symmetric => close BadSecurityChecksFailed "OpenSecureChannel without asymmetric header" cn
  | Asymmetric uri cert =>
      if negb (os_protocol_version o =? protocol_version (cn_transport cn)) then
        reject request_id (request_handle h) BadProtocolVersionUnsupported "protocol version mismatch" cn
      else
        '(admitted, cn) ← admit_open t cert o cn;
        match admitted with
        | Err (s, reason) => reject request_id (request_handle h) s reason cn
        | Ok id =>
            let cn := next_token cn in
            nonce ← random;
            let (set, ch) := setup_channel o cert id nonce (cn_channel cn) in
            let cn := set_channel ch cn in
            match set with
            | Err s => reject request_id (request_handle h) s "invalid OpenSecureChannel request" cn
            | Ok _ => grant t request_id uri cert o id nonce cn
            end
        end
  end.

(** Whether both certificates are still trusted. *)
Definition still_trusted (cn : Connection) : task (option string) :=
  let p := ch_policy (cn_channel cn) in
  ok ← match ch_remote_cert (cn_channel cn) with
       | Some c => if bool_decide (p = PolicyNone) then mret true
                   else a ← Validate c p mret; mret (is_ok a)
       | None => mret true
       end;
  if negb ok then mret (Some "client certificate is no longer trusted")
  else match cn_upstream cn with
  | Some u =>
      let p := ep_policy (up_endpoint u) in
      match up_certificate u with
      | Some c => if bool_decide (p = PolicyNone) then mret None
                  else a ← Validate c p mret;
                       mret (if is_ok a then None else Some "upstream server certificate is no longer trusted")
      | None => mret None
      end
  | None => mret None
  end.

(** ** Requests *)

(** Seen through to the end when the client disconnects. *)
Definition seen_through (m : RequestMessage) : bool :=
  is_audited m ||
  match m with RqCreateSession _ | RqActivateSession _ | RqCloseSession _ => true | _ => false end.

Definition used_url (requested : string) (cn : Connection) : string :=
  or_text requested (endpoint_url (cn_transport cn)).

Definition answer_endpoints (t : Relayed) (id handle : Z) (url : string) (cn : Connection)
    : task Connection :=
  '(failed, cn) ← refresh_upstream_endpoints t cn;
  respond id (match failed with
              | None => RsGetEndpoints (Status 0)
                          (Some (gateway_endpoints (cn_endpoints cn) (r_gateway t) (used_url url cn)))
              | Some s => fault handle s
              end) cn.

(** A task for the request, with the security of the channel. *)
Definition start_task (t : Relayed) (id handle : Z) (m : RequestMessage) (cn : Connection)
    : task Connection :=
  '(c, cn) ← make_ctx t cn;
  match c with
  | Err s => respond id (fault handle s) cn
  | Ok c => mret (set_pending_tasks (cn_pending cn ++ [mkPending (seen_through m) id c m]) cn)
  end.

Definition handle (t : Relayed) (r : Request) (cn : Connection) : task Connection :=
  let id := rq_id r in
  let handle := request_handle (request_header (rq_message r)) in
  if transport_closing cn then mret cn
  else match rq_message r, issued cn with
  | RqOpenSecureChannel h o, _ => open_secure_channel t id (rq_security_header r) h o cn
  | _, false => close BadSecureChannelIdInvalid "request before OpenSecureChannel" cn
  | RqCloseSecureChannel _, true =>
      now ← clock;
      mret (set_transport (set_closing (cn_transport cn))
              (set_closed now "client closed the secure channel" cn))
  | RqGetEndpoints _ url, true => answer_endpoints t id handle url cn
  | RqFindServers _ url, true =>
      respond id (RsFindServers (Status 0) (Some [server_description (r_gateway t) (used_url url cn)])) cn
  | RqFindServersOnNetwork _, true | RqRegisterServer _, true | RqRegisterServer2 _, true =>
      respond id (fault handle BadServiceUnsupported) cn
  | m, true => start_task t id handle m cn
  end.

(** ** One turn of the loop *)
Inductive Turn : Type :=
| Shutdown
| TrustChanged
| DeadlineReached
(** the i-th task is done *)
| TaskDone (i : nat) (response : ResponseMessage)
| UpstreamGone
| Polled (w : Progress).

(** What the loop does with what the transport reports; [None]: it ends. *)
Definition on_poll (t : Relayed) (r : PollResult) (cn : Connection) : task (option Connection) :=
  match r with
  | GotRequest request => cn ← handle t request cn; mret (Some cn)
  | Recoverable status id handle => cn ← respond id (fault handle status) cn; mret (Some cn)
  | PollError status =>
      cn ← close status ("transport error: " +:+ status_str status) cn; mret (Some cn)
  | Closed => mret None
  | Sent | Chunk => mret (Some cn)
  end.

Definition on_turn (t : Relayed) (turn : Turn) (cn : Connection) : task (option Connection) :=
  match turn with
  | Shutdown =>
      if transport_closing cn then mret (Some cn)
      else cn ← close BadServerHalted "target stopped or reconfigured" cn; mret (Some cn)
  | TrustChanged =>
      if transport_closing cn then mret (Some cn)
      else
        problem ← still_trusted cn;
        match problem with
        | None => mret (Some cn)
        | Some reason => cn ← close BadCertificateUntrusted reason cn; mret (Some cn)
        end
  | DeadlineReached =>
      if transport_closing cn then mret None
      else cn ← close BadTimeout "secure channel expired" cn; mret (Some cn)
  | TaskDone i response =>
      match cn_pending cn !! i with
      | None => mret (Some cn)
      | Some p =>
          cn ← respond (p_request_id p) response
                 (set_pending_tasks (base.delete i (cn_pending cn)) cn);
          mret (Some cn)
      end
  | UpstreamGone =>
      cn ← close BadServerNotConnected "upstream connection lost" (set_upstream None cn);
      mret (Some cn)
  | Polled w =>
      match poll w (cn_channel cn) (cn_transport cn) with
      | Some (r, ch, d) => on_poll t r (set_transport d (set_channel ch cn))
      | None => mret (Some cn)
      end
  end.

(** The tasks that go on when the connection ends ([finish_audited]). *)
Definition seen_to_end (cn : Connection) : list Pending := List.filter p_audited (cn_pending cn).

(** A record of the target itself, for no client. *)
Definition record_for (t : Relayed) (e : AuditEvent) : task unit :=
  now ← clock; _ ← record_as false (with_target (r_name t) (new_entry now e)); mret ().

(** [record_ignored]: the summaries of ignored writes since the last call. *)
Definition record_ignored (t : Relayed) : task unit :=
  events ← atomic take_summaries; each (record_for t) events.

(** The end of [run]: summaries if the target stopped, and the last record. *)
Definition disconnect (t : Relayed) (stopped : bool) (cn : Connection) : task unit :=
  _ ← (if stopped : bool then record_ignored t else mret ());
  _ ← atomic (fun s => ((), set_clients (base.delete (cn_id cn) (clients s)) s));
  record_event t (cn_client cn)
    (ClientDisconnected (default "connection closed" (close_reason cn))).
End Connection.

(** ** Properties *)

(** What the stack promises about chunks and channels: the security header is
    part of a chunk, verifying an OpenSecureChannel chunk switches the channel
    to the chunk's policy, and nothing else does. *)
Class StackOk `{Channels} : Prop := {
  unsecure_keeps ch data r ch' :
    unsecure ch data = (r, ch') → ch_mode ch' = ch_mode ch ∧ ch_remote_cert ch' = ch_remote_cert ch;
  unsecure_plain ch data r ch' h :
    chunk_header data = Ok h → is_open h = false → unsecure ch data = (r, ch') →
    ch_policy ch' = ch_policy ch;
  unsecure_open ch data r ch' h :
    chunk_header data = Ok h → is_open h = true → unsecure ch data = (r, ch') →
    ch_policy ch' = ch_policy ch ∨
    ∃ uri cert, open_header data = Ok (Asymmetric uri cert) ∧ ch_policy ch' = policy_of_uri uri;
  unsecure_open_ok ch data chunk ch' h ch1 info :
    chunk_header data = Ok h → is_open h = true → unsecure ch data = (Ok chunk, ch') →
    chunk_info ch1 chunk = Ok info →
    ∃ uri cert, open_header data = Ok (Asymmetric uri cert) ∧ ch_policy ch' = policy_of_uri uri ∧
      security_header info = Asymmetric uri cert;
  unsecure_plain_ok ch data chunk ch' h ch1 info :
    chunk_header data = Ok h → is_open h = false → unsecure ch data = (Ok chunk, ch') →
    chunk_info ch1 chunk = Ok info → security_header info = Symmetric;
  remote_cert_same bytes c : remote_cert_of bytes = Ok c → c = cert_of_bytes bytes;
}.

Section ConnectionFacts.
Context `{Crypto} `{!Stack} `{!Channels} `{!StackOk}.
Abbreviation lbl := (label Shared).

(** OPC UA sends an OpenSecureChannel request as one chunk. *)
Definition single_open (turn : Turn) : Prop :=
  ∀ data h, turn = Polled (Arrived (Some (Ok (MsgChunk data)))) → chunk_header data = Ok h →
    is_open h = true → is_final h ≠ Intermediate.

(** The policy and mode of a channel, with the certificate behind them. *)
Definition proven (h : list lbl) (p : Policy) (m : SecurityMode) (c : option Cert) : Prop :=
  consistent p m = true ∧
  (p ≠ PolicyNone → ∃ cert, c = Some cert ∧ LValidate cert p (Ok ()) ∈ h).

(** The channel is the one that was issued: with the binding's policy and
    certificate, in a mode that fits, the certificate validated. *)
Definition channel_issued (h : list lbl) (b : ChannelBinding) (ch : Channel) : Prop :=
  ch_policy ch = policy_of_uri (cb_policy_uri b) ∧
  ch_remote_cert ch = cert_of_bytes (cb_certificate b) ∧
  proven h (ch_policy ch) (ch_mode ch) (ch_remote_cert ch).

(** A task runs with the security of the issued channel. *)
Definition ctx_of_channel (b : ChannelBinding) (m : SecurityMode) (c : Ctx) : Prop :=
  policy c = policy_of_uri (cb_policy_uri b) ∧ mode c = m ∧
  client_certificate c =
    (if bool_decide (policy c = PolicyNone) then None else cert_of_bytes (cb_certificate b)).

Record conn_inv (cn : Connection) (h : list lbl) : Prop := {
  ci_bound : issued cn = true ↔ is_Some (binding (cn_transport cn));
  ci_channel b : binding (cn_transport cn) = Some b → channel_issued h b (cn_channel cn);
  ci_tasks p : p ∈ cn_pending cn →
    ∃ b, binding (cn_transport cn) = Some b ∧ ctx_of_channel b (ch_mode (cn_channel cn)) (p_ctx p);
  ci_upstream u : cn_upstream cn = Some u → ep_policy (up_endpoint u) ≠ PolicyNone →
    ∃ c, up_certificate u = Some c ∧ LValidate c (ep_policy (up_endpoint u)) (Ok ()) ∈ h;
  ci_held chunk ch info : chunk ∈ pending_chunks (cn_transport cn) →
    chunk_info ch chunk = Ok info → security_header info = Symmetric;
}.

(** The same as far as security goes. *)
Definition alike (cn cn' : Connection) : Prop :=
  issued cn' = issued cn ∧ binding (cn_transport cn') = binding (cn_transport cn) ∧
  pending_chunks (cn_transport cn') = pending_chunks (cn_transport cn) ∧
  ch_policy (cn_channel cn') = ch_policy (cn_channel cn) ∧
  ch_mode (cn_channel cn') = ch_mode (cn_channel cn) ∧
  ch_remote_cert (cn_channel cn') = ch_remote_cert (cn_channel cn) ∧
  cn_pending cn' ⊆ cn_pending cn ∧
  (∀ u, cn_upstream cn' = Some u → cn_upstream cn = Some u).

Lemma alike_refl cn : alike cn cn.
Proof. by split_and!. Qed.

#[local] Hint Resolve alike_refl : core.

Lemma alike_trans a b c : alike a b → alike b c → alike a c.
Proof.
  intros (A1 & A2 & A3 & A4 & A5 & A6 & A7 & A8) (B1 & B2 & B3 & B4 & B5 & B6 & B7 & B8).
  split_and!; try congruence; [set_solver|auto].
Qed.

Lemma proven_mono h h' p m c : h ⊆ h' → proven h p m c → proven h' p m c.
Proof. intros Hs [Hc Hp]. split; [done|]. intros Hne. destruct (Hp Hne) as (x & ? & ?). exists x. auto. Qed.

Lemma conn_inv_alike cn cn' h h' : alike cn cn' → h ⊆ h' → conn_inv cn h → conn_inv cn' h'.
Proof.
  intros (A1 & A2 & A3 & A4 & A5 & A6 & A7 & A8) Hs [I1 I2 I3 I4 I5]. split.
  - by rewrite A1, A2.
  - intros b. rewrite A2. intros Hb. destruct (I2 b Hb) as (J1 & J2 & J3). unfold channel_issued.
    rewrite A4, A5, A6. split_and!; [done|done|]. by eapply proven_mono.
  - intros p Hp. rewrite A2, A5. apply I3. set_solver.
  - intros u Hu Hne. destruct (I4 u (A8 u Hu) Hne) as (c & ? & ?). exists c. auto.
  - intros chunk. rewrite A3. apply I5.
Qed.

(** ** A logic for the connection's programs *)
Definition ends {A} (p : prog Shared A) (h : list lbl) (Φ : A → list lbl → Prop) : Prop :=
  always (fun _ => True) p h Φ.

(** What a program leads to, with at least the history it started with. *)
Definition leads {A} (p : prog Shared A) (h : list lbl) (Φ : A → list lbl → Prop) : Prop :=
  ends p h (fun a h' => h ⊆ h' ∧ Φ a h').

Lemma leads_ret {A} (a : A) h (Φ : A → list lbl → Prop) : Φ a h → leads (mret a) h Φ.
Proof. intros Ha. by split; [|split]. Qed.

Lemma leads_bind {A B} (p : prog Shared A) (f : A → prog Shared B) h Φ Ψ :
  leads p h Φ → (∀ a h', h ⊆ h' → Φ a h' → leads (f a) h' Ψ) → leads (p ≫= f) h Ψ.
Proof.
  intros Hp Hf. unfold leads, ends. apply always_bind. eapply always_mono; [|exact Hp].
  intros a h' [Hs Ha]. eapply always_mono; [|exact (Hf a h' Hs Ha)].
  intros b h'' [Hs' Hb]. split; [set_solver|done].
Qed.

Lemma leads_mono {A} (p : prog Shared A) h (Φ Ψ : A → list lbl → Prop) :
  (∀ a h', Φ a h' → Ψ a h') → leads p h Φ → leads p h Ψ.
Proof. intros Hm. apply always_mono. intros a h' [? ?]. auto. Qed.

(** A program about which only its result being anything matters. *)
Definition harmless {A} (p : prog Shared A) : Prop := ∀ h, leads p h (fun _ _ => True).

Lemma always_true {A} (p : prog Shared A) h h0 :
  h0 ⊆ h → always (fun _ => True) p h (fun _ h' => h0 ⊆ h').
Proof.
  revert h. induction p; simpl; intros h Hs; (split; [done|]); try done; intros; auto;
    repeat match goal with IH : _ |- _ => apply IH end; set_solver.
Qed.

Lemma any_harmless {A} (p : prog Shared A) : harmless p.
Proof. intros h. unfold leads, ends. eapply always_mono; [|by apply (always_true p h h)]. by intros a h' ?. Qed.

Lemma leads_then {A B} (p : prog Shared A) (f : A → prog Shared B) h Ψ :
  (∀ a h', h ⊆ h' → leads (f a) h' Ψ) → leads (p ≫= f) h Ψ.
Proof. intros Hf. eapply leads_bind; [apply any_harmless|]. intros a h' Hs _. auto. Qed.

Lemma leads_validate c p h : leads (Validate c p mret) h
  (fun a h' => LValidate c p a ∈ h').
Proof. unfold leads, ends. run_prog. split; [done|]. intros a. split; [done|]. set_solver. Qed.
Lemma close_alike status reason cn h : leads (close status reason cn) h (fun cn' _ => alike cn cn').
Proof.
  unfold close. destruct (close_reason cn); [by apply leads_ret|].
  apply leads_then. intros now h' _. by apply leads_ret.
Qed.

Lemma respond_alike id r cn h : leads (respond id r cn) h (fun cn' _ => alike cn cn').
Proof.
  unfold respond, enqueue.
  destruct (encode_response _ _ _) as [|e]; [by apply leads_ret|].
  destruct (full_context e) as [[id' hd]|].
  - destruct (encode_response _ _ _) as [|e']; [by apply leads_ret|].
    eapply leads_mono; [|apply close_alike]. intros cn' ? Ha. by eapply alike_trans.
  - eapply leads_mono; [|apply close_alike]. intros cn' ? Ha. by eapply alike_trans.
Qed.

Lemma reject_alike id hd s reason cn h : leads (reject id hd s reason cn) h (fun cn' _ => alike cn cn').
Proof.
  unfold reject. eapply leads_bind; [apply respond_alike|]. intros cn1 h1 _ Ha1.
  eapply leads_mono; [|apply close_alike]. intros cn2 ? Ha2. exact (alike_trans _ _ _ Ha1 Ha2).
Qed.

Lemma refresh_alike t cn h :
  leads (refresh_upstream_endpoints t cn) h (fun r _ => alike cn r.2).
Proof.
  unfold refresh_upstream_endpoints. apply leads_then. intros [es|s] h' _; by apply leads_ret.
Qed.

(** The certificate was validated for the channel's policy. *)
Definition validated (bytes : Blob) (p : Policy) (h : list lbl) : Prop :=
  p ≠ PolicyNone → ∃ c, cert_of_bytes bytes = Some c ∧ LValidate c p (Ok ()) ∈ h.

Lemma validated_mono bytes p h h' : h ⊆ h' → validated bytes p h → validated bytes p h'.
Proof. intros Hs Hv Hne. destruct (Hv Hne) as (c & ? & ?). exists c. auto. Qed.

Lemma trusted_or_open_leads t bytes cn h :
  leads (trusted_or_open t bytes cn) h
    (fun r h' => alike cn r.2 ∧ (r.1 = None → validated bytes (ch_policy (cn_channel cn)) h')).
Proof.
  unfold trusted_or_open. case_bool_decide as Hp.
  { apply leads_ret. split; [done|]. intros _ Hne. by destruct Hne. }
  unfold check_client_certificate. destruct (cert_of_bytes bytes) as [c|] eqn:Hc.
  2: { apply leads_ret. by split. }
  destruct (negb (safe_file_name c)).
  { apply leads_then. intros [] h' _. apply leads_ret. by split. }
  eapply leads_bind; [apply leads_validate|]. intros [[]|s] h' _ Hin.
  - apply leads_ret. split; [done|]. intros _ _. by exists c.
  - apply leads_then. intros [] h'' _. apply leads_ret. by split.
Qed.

(** What granting a token takes. *)
Definition admitted (o : OpenSecureChannelRequest) (bytes : Blob) (cn : Connection) (h : list lbl) : Prop :=
  validated bytes (ch_policy (cn_channel cn)) h ∧
  (if os_renew o then issued cn = true ∧ os_security_mode o = ch_mode (cn_channel cn)
   else issued cn = false ∧ consistent (ch_policy (cn_channel cn)) (os_security_mode o) = true).

Lemma admit_open_leads t bytes o cn h :
  leads (admit_open t bytes o cn) h
    (fun r h' => alike cn r.2 ∧ ∀ id, r.1 = Ok id → admitted o bytes cn h').
Proof.
  unfold admit_open, admitted. destruct (os_renew o).
  - unfold renewal_problem. destruct (issued cn) eqn:Hi; cbn [negb]; [|by apply leads_ret].
    case_bool_decide as Hm; cbn [negb]; [|by apply leads_ret].
    destruct (_ && _); [by apply leads_ret|].
    eapply leads_bind; [apply trusted_or_open_leads|]. intros [[s|] cn1] h1 _ [Ha Hv].
    + by apply leads_ret.
    + apply leads_ret. split; [done|]. intros _ _. split; [by apply Hv|done].
  - unfold issue_problem. destruct (issued cn) eqn:Hi; [by apply leads_ret|].
    destruct (consistent _ _) eqn:Hc; cbn [negb]; [|by apply leads_ret].
    eapply leads_bind; [apply refresh_alike|]. intros [x cn1] h1 _ Ha1. cbn [snd] in Ha1.
    assert (Hp : ch_policy (cn_channel cn1) = ch_policy (cn_channel cn)) by apply Ha1.
    destruct (_ && _); [by apply leads_ret|].
    eapply leads_bind; [apply trusted_or_open_leads|]. intros [[s|] cn2] h2 _ [Ha2 Hv].
    + apply leads_ret. split; [exact (alike_trans _ _ _ Ha1 Ha2)|done].
    + apply leads_then. intros id h3 Hs3. apply leads_ret. split; [exact (alike_trans _ _ _ Ha1 Ha2)|].
      intros _ _. split; [|done]. eapply validated_mono; [done|]. rewrite <- Hp. by apply Hv.
Qed.
Lemma setup_spec o cert id nonce ch r ch' :
  setup_channel o cert id nonce ch = (r, ch') →
  ch_policy ch' = ch_policy ch ∧ ch_mode ch' = os_security_mode o ∧
  (ch_remote_cert ch' = ch_remote_cert ch ∨ ch_remote_cert ch' = cert_of_bytes cert) ∧
  (r = Ok () → ch_remote_cert ch' = cert_of_bytes cert).
Proof.
  unfold setup_channel. destruct (remote_cert_of cert) as [c|s] eqn:Hc.
  2: { intros [= <- <-]. split_and!; try done. by left. }
  apply remote_cert_same in Hc as ->. cbn [ch_policy].
  destruct (nonce_ok _ _); intros [= <- <-]; (split_and!; try done); by right.
Qed.

(** A connection with a channel set up for an admitted request. *)
Lemma set_up_inv o uri cert cn ch h :
  conn_inv cn h → admitted o cert cn h →
  (∀ b, binding (cn_transport cn) = Some b → uri = cb_policy_uri b ∧ cert = cb_certificate b) →
  ch_policy ch = ch_policy (cn_channel cn) → ch_mode ch = os_security_mode o →
  (ch_remote_cert ch = ch_remote_cert (cn_channel cn) ∨ ch_remote_cert ch = cert_of_bytes cert) →
  conn_inv (set_channel ch (next_token cn)) h.
Proof.
  intros [I1 I2 I3 I4 I5] [Hv Had] Hb Hp Hm Hr. split; cbn; try done.
  - intros b Hbind. destruct (Hb b Hbind) as [-> ->]. destruct (I2 b Hbind) as (J1 & J2 & J3 & J4).
    assert (Hi : issued cn = true) by (apply I1; by exists b).
    destruct (os_renew o); destruct Had as [Had1 Had2]; [|congruence].
    assert (Hr' : ch_remote_cert ch = cert_of_bytes (cb_certificate b)) by (destruct Hr; congruence).
    split; [congruence|]. split; [done|]. rewrite Hp, Hm, Had2, Hr', <- J2. by split.
  - intros p Hp'. destruct (I3 p Hp') as (b & Hbind & Hctx). exists b. split; [done|].
    assert (Hi : issued cn = true) by (apply I1; by exists b).
    destruct (os_renew o); destruct Had as [Had1 Had2]; [|congruence]. by rewrite Hm, Had2.
Qed.

Lemma grant_inv t id uri cert o ch_id nonce cn ch h :
  conn_inv cn h → admitted o cert cn h →
  (∀ b, binding (cn_transport cn) = Some b → uri = cb_policy_uri b ∧ cert = cb_certificate b) →
  ch_policy (cn_channel cn) = policy_of_uri uri →
  ch_policy ch = ch_policy (cn_channel cn) → ch_mode ch = os_security_mode o →
  ch_remote_cert ch = cert_of_bytes cert →
  leads (grant t id uri cert o ch_id nonce (set_channel ch (next_token cn))) h conn_inv.
Proof.
  intros Hinv Had Hb Huri Hp Hm Hr.
  assert (Hset := set_up_inv o uri cert cn ch h Hinv Had Hb Hp Hm (or_intror Hr)).
  unfold grant. eapply leads_bind; [apply respond_alike|]. intros cn1 h1 Hs1 Ha1.
  apply leads_then. intros now h2 Hs2.
  assert (Hs : h ⊆ h2) by set_solver.
  assert (H1' := conn_inv_alike _ _ _ h2 Ha1 Hs Hset).
  destruct (os_renew o) eqn:Hren.
  { apply leads_ret. apply (conn_inv_alike cn1 _ h2 h2); [by split_and!|done|exact H1']. }
  destruct Had as [Hv Had]. rewrite Hren in Had. destruct Had as [Hnot Hcons].
  assert (Hinv3 : conn_inv (set_issued (now + clamp (os_requested_lifetime o) MIN_TOKEN_LIFETIME_MS
    MAX_TOKEN_LIFETIME_MS * 4 / 3 * 1000000) (set_transport (bind_channel (mkChannelBinding uri cert)
    (cn_transport cn1)) cn1)) h2).
  { destruct Hinv as [I1 I2 I3 I4 I5]. destruct Ha1 as (A1 & A2 & A3 & A4 & A5 & A6 & A7 & A8).
    cbn in A1, A2, A3, A4, A5, A6, A7, A8.
    assert (Hnb : binding (cn_transport cn) = None).
    { destruct (binding (cn_transport cn)) eqn:Hbb; [|done].
      assert (issued cn = true) by (apply I1; by eexists). congruence. }
    split; cbn.
    - split; [by eexists|done].
    - intros b [= <-]. unfold channel_issued. cbn. rewrite A4, A5, A6, Hp, Hm, Hr.
      split; [done|]. split; [done|]. split; [done|]. intros Hne.
      destruct (Hv Hne) as (c & Hc & Hin). exists c. auto.
    - intros p Hpp. destruct (I3 p (A7 p Hpp)) as (b & Hbb & _). congruence.
    - intros u Hu Hne. destruct (I4 u (A8 u Hu) Hne) as (c & Hc & Hin). exists c. auto.
    - rewrite A3. exact I5. }
  apply leads_then. intros at_ h3 Hs3. apply leads_then. intros [] h4 Hs4.
  apply leads_then. intros [] h5 Hs5. apply leads_ret.
  eapply (conn_inv_alike _ _ h2); [apply alike_refl| |exact Hinv3]. set_solver.
Qed.

(** The header the request came with is the one the channel was switched to. *)
Definition header_fits (cn : Connection) (sh : SecurityHeader) : Prop :=
  match sh with
  | Symmetric => True
  | Asymmetric uri cert =>
      ch_policy (cn_channel cn) = policy_of_uri uri ∧
      ∀ b, binding (cn_transport cn) = Some b → uri = cb_policy_uri b ∧ cert = cb_certificate b
  end.

Lemma alike_inv cn (p : prog Shared Connection) h :
  conn_inv cn h → leads p h (fun cn' _ => alike cn cn') → leads p h conn_inv.
Proof.
  intros Hinv. apply always_mono. intros cn' h' [Hs Ha]. split; [done|].
  by apply (conn_inv_alike cn cn' h h').
Qed.

Lemma header_fits_alike cn cn' sh : alike cn cn' → header_fits cn sh → header_fits cn' sh.
Proof.
  intros (A1 & A2 & A3 & A4 & _). destruct sh; [|done]. simpl. by rewrite A2, A4.
Qed.

Lemma admitted_alike o cert cn cn' h : alike cn cn' → admitted o cert cn h → admitted o cert cn' h.
Proof. intros (A1 & A2 & A3 & A4 & A5 & _). unfold admitted. by rewrite A1, A4, A5. Qed.

Lemma open_secure_channel_inv t id sh hd o cn h :
  conn_inv cn h → header_fits cn sh →
  leads (open_secure_channel t id sh hd o cn) h conn_inv.
Proof.
  intros Hinv Hfit. unfold open_secure_channel. destruct sh as [uri cert|].
  2: { apply (alike_inv cn); [done|apply close_alike]. }
  destruct (negb _).
  { apply (alike_inv cn); [done|apply reject_alike]. }
  eapply leads_bind; [apply admit_open_leads|]. intros [r cn1] h1 Hs1 [Ha1 Had]. cbn [fst snd] in Ha1, Had.
  assert (Hinv1 := conn_inv_alike _ _ _ _ Ha1 Hs1 Hinv).
  destruct r as [cid|[s reason]].
  2: { apply (alike_inv cn1); [done|apply reject_alike]. }
  specialize (Had cid eq_refl). apply (admitted_alike _ _ _ _ _ Ha1) in Had.
  apply (header_fits_alike _ _ _ Ha1) in Hfit. destruct Hfit as [Hpol Hbound].
  apply leads_then. intros nonce h2 Hs2.
  assert (Hinv2 := conn_inv_alike _ _ _ _ (alike_refl cn1) Hs2 Hinv1).
  assert (Had2 : admitted o cert cn1 h2) by (destruct Had; split; [by eapply validated_mono|done]).
  destruct (setup_channel o cert cid nonce (cn_channel (next_token cn1))) as [set_ ch] eqn:Hset.
  apply setup_spec in Hset as (Hp & Hm & Hr & Hok). cbn [cn_channel next_token] in Hp, Hr.
  destruct set_ as [[]|s].
  - by apply grant_inv; auto.
  - apply (alike_inv (set_channel ch (next_token cn1))); [|apply reject_alike]. by eapply set_up_inv.
Qed.

(** ** Starting tasks *)
Lemma connect_leads e h :
  leads (connect e) h (fun r h' => ∀ u, r = Ok u → up_endpoint u = e ∧
    (ep_policy e ≠ PolicyNone → ∃ c, up_certificate u = Some c ∧ LValidate c (ep_policy e) (Ok ()) ∈ h')).
Proof.
  unfold connect.
  assert (Hopen : ∀ h', (ep_policy e ≠ PolicyNone → ∃ c, cert_of_bytes (ep_server_certificate e) = Some c ∧
      LValidate c (ep_policy e) (Ok ()) ∈ h') →
    leads (opened ← Connect e mret;
           mret (match opened with
                 | Ok _ => Ok (mkUpstream e (cert_of_bytes (ep_server_certificate e)))
                 | Err (s, text) => Err (OtherError s text)
                 end)) h' (fun r h'' => ∀ u, r = Ok u → up_endpoint u = e ∧
      (ep_policy e ≠ PolicyNone → ∃ c, up_certificate u = Some c ∧ LValidate c (ep_policy e) (Ok ()) ∈ h''))).
  { intros h' Hv. apply leads_then. intros [[]|[s text]] h'' Hs; apply leads_ret; [|done].
    intros u [= <-]. split; [done|]. intros Hne. destruct (Hv Hne) as (c & ? & ?). exists c. auto. }
  case_bool_decide as Hp; [by apply Hopen|].
  destruct (cert_of_bytes _) as [c|] eqn:Hc; [|by apply leads_ret].
  destruct (negb _); [by apply leads_ret|].
  eapply leads_bind; [apply leads_validate|]. intros [[]|s] h' Hs Hin; [|by apply leads_ret].
  apply Hopen. intros _. by exists c.
Qed.
(** [cn'] differs from [cn] at most in its upstream channel and endpoints. *)
Definition same_client (cn cn' : Connection) : Prop :=
  issued cn' = issued cn ∧ cn_transport cn' = cn_transport cn ∧ cn_channel cn' = cn_channel cn ∧
  cn_pending cn' = cn_pending cn.

Lemma refresh_same t cn h :
  leads (refresh_upstream_endpoints t cn) h
    (fun r _ => same_client cn r.2 ∧ cn_upstream r.2 = cn_upstream cn).
Proof.
  unfold refresh_upstream_endpoints. apply leads_then. intros [es|s] h' _; by apply leads_ret.
Qed.

Lemma same_client_inv cn cn' h h' :
  same_client cn cn' → h ⊆ h' → conn_inv cn h →
  (∀ u, cn_upstream cn' = Some u → ep_policy (up_endpoint u) ≠ PolicyNone →
    ∃ c, up_certificate u = Some c ∧ LValidate c (ep_policy (up_endpoint u)) (Ok ()) ∈ h') →
  conn_inv cn' h'.
Proof.
  intros (E1 & E2 & E3 & E4) Hs [I1 I2 I3 I4 I5] Hu.
  split; rewrite ?E1, ?E2, ?E3, ?E4; try done.
  intros b Hb. destruct (I2 b Hb) as (J1 & J2 & J3). split_and!; [done|done|]. by eapply proven_mono.
Qed.

Lemma ensure_upstream_inv t cn h :
  conn_inv cn h →
  leads (ensure_upstream t cn) h (fun r h' => conn_inv r.2 h' ∧ same_client cn r.2).
Proof.
  intros Hinv. unfold ensure_upstream. destruct (cn_upstream cn) as [u0|] eqn:Hup.
  { apply leads_ret. by split. }
  eapply (leads_bind _ _ _ (fun r _ => same_client cn r.2 ∧ cn_upstream r.2 = cn_upstream cn)).
  { destruct (cn_endpoints cn); [apply refresh_same|]. by apply leads_ret. }
  intros [failed cn1] h1 Hs1 [Hsame Hup1]. cbn [snd] in Hsame, Hup1. rewrite Hup in Hup1.
  assert (Hinv1 : ∀ h', h1 ⊆ h' → conn_inv cn1 h').
  { intros h' Hs'. apply (same_client_inv cn _ h h'); [done|set_solver|done|]. intros u Hu. congruence. }
  destruct failed as [s|].
  { apply leads_ret. split; [by apply Hinv1|done]. }
  destruct (matching_upstream _ _ _) as [e|].
  2: { apply leads_ret. split; [by apply Hinv1|done]. }
  eapply leads_bind; [apply connect_leads|]. intros r h2 Hs2 Hr.
  destruct r as [u|[subject thumb s|s text]].
  - destruct (Hr u eq_refl) as [He Hv]. apply leads_ret. split; [|done].
    apply (same_client_inv cn _ h h2); [done|set_solver|done|]. intros u' [= <-]. by rewrite He.
  - apply leads_then. intros [] h3 Hs3. apply leads_ret. split; [apply Hinv1; set_solver|done].
  - apply leads_then. intros [] h3 Hs3. apply leads_ret. split; [apply Hinv1; set_solver|done].
Qed.

Lemma make_ctx_inv t cn h :
  conn_inv cn h →
  leads (make_ctx t cn) h (fun r h' => conn_inv r.2 h' ∧ same_client cn r.2 ∧
    ∀ c b, r.1 = Ok c → binding (cn_transport cn) = Some b →
      ctx_of_channel b (ch_mode (cn_channel cn)) c).
Proof.
  intros Hinv. unfold make_ctx. eapply leads_bind; [by apply ensure_upstream_inv|].
  intros [[u|s] cn1] h1 Hs1 [Hinv1 Hsame]; cbn [snd] in *; apply leads_ret; split_and!; try done.
  intros c b [= <-] Hb. destruct Hsame as (E1 & E2 & E3 & E4).
  destruct (ci_channel _ _ Hinv b Hb) as (J1 & J2 & _). unfold ctx_of_channel. cbn.
  rewrite E3, J1, J2. done.
Qed.

Lemma start_task_inv t id hd m cn h :
  conn_inv cn h → issued cn = true → leads (start_task t id hd m cn) h conn_inv.
Proof.
  intros Hinv Hi. unfold start_task. eapply leads_bind; [by apply make_ctx_inv|].
  intros [[c|s] cn1] h1 Hs1 (Hinv1 & Hsame & Hctx); cbn [fst snd] in *.
  2: { apply (alike_inv cn1); [done|apply respond_alike]. }
  apply leads_ret. destruct Hsame as (E1 & E2 & E3 & E4).
  destruct (proj1 (ci_bound _ _ Hinv) Hi) as [b Hb].
  destruct Hinv1 as [I1 I2 I3 I4 I5]. split; cbn; try done.
  intros p. rewrite elem_of_app, list_elem_of_singleton. intros [Hp| ->]; [by apply I3|].
  exists b. rewrite E2, E3. split; [done|]. by apply Hctx.
Qed.

Lemma handle_inv t r cn h :
  conn_inv cn h → header_fits cn (rq_security_header r) → leads (handle t r cn) h conn_inv.
Proof.
  intros Hinv Hfit. unfold handle. destruct (transport_closing cn); [by apply leads_ret|].
  destruct (rq_message r);
    try (by apply open_secure_channel_inv);
    destruct (issued cn) eqn:Hi;
    try (by apply start_task_inv);
    try (by apply (alike_inv cn); [done|apply close_alike]);
    try (by apply (alike_inv cn); [done|apply respond_alike]).
  - apply leads_then. intros now h' Hs. apply leads_ret. apply (conn_inv_alike cn _ h h'); [by split_and!|done|done].
  - apply (alike_inv cn); [done|]. unfold answer_endpoints.
    eapply leads_bind; [apply refresh_alike|]. intros [f cn1] h1 Hs1 Ha1. cbn [snd] in Ha1.
    eapply leads_mono; [|apply respond_alike]. intros cn2 ? Ha2. exact (alike_trans _ _ _ Ha1 Ha2).
Qed.
(** ** Receiving *)

(** The transport differs only in what it holds of an incomplete request. *)
Lemma conn_inv_transport cn d h :
  conn_inv cn h → binding d = binding (cn_transport cn) →
  (∀ chunk ch info, chunk ∈ pending_chunks d → chunk_info ch chunk = Ok info →
     security_header info = Symmetric) →
  conn_inv (set_transport d cn) h.
Proof. intros [I1 I2 I3 I4 I5] Hb Hc. split; cbn; rewrite ?Hb; done. Qed.

Lemma admit_bound d data hd b uri cert :
  admit_chunk d data = Ok hd → binding d = Some b → is_open hd = true →
  open_header data = Ok (Asymmetric uri cert) → uri = cb_policy_uri b ∧ cert = cb_certificate b.
Proof.
  unfold admit_chunk. destruct (chunk_header data) as [x|]; [|done]. intros Ha Hb.
  rewrite Hb in Ha. destruct (is_open x) eqn:Ho.
  2: { intros Ho'. injection Ha as ->. congruence. }
  unfold check_renewal in Ha. intros _ Hoh. rewrite Hoh in Ha.
  destruct (String.eqb_spec uri (cb_policy_uri b)); [|done].
  by destruct (String.eqb_spec cert (cb_certificate b)).
Qed.

Lemma admit_header d data hd : admit_chunk d data = Ok hd → chunk_header data = Ok hd.
Proof.
  unfold admit_chunk. destruct (chunk_header data) as [x|]; [|done].
  destruct (binding d); destruct (is_open x); try congruence.
  destruct (check_renewal _ _); congruence.
Qed.

Lemma unsecure_inv cn data hd r ch h :
  conn_inv cn h → admit_chunk (cn_transport cn) data = Ok hd →
  unsecure (cn_channel cn) data = (r, ch) → conn_inv (set_channel ch cn) h.
Proof.
  intros [I1 I2 I3 I4 I5] Ha Hu. pose proof (admit_header _ _ _ Ha) as Hh.
  destruct (unsecure_keeps _ _ _ _ Hu) as [Hm Hc]. split; cbn; try done.
  - intros b Hb. destruct (I2 b Hb) as (J1 & J2 & J3).
    assert (Hp : ch_policy ch = ch_policy (cn_channel cn)).
    { destruct (is_open hd) eqn:Ho; [|by eapply unsecure_plain].
      destruct (unsecure_open _ _ _ _ _ Hh Ho Hu) as [?|(uri & cert & Hoh & ->)]; [done|].
      destruct (admit_bound _ _ _ _ _ _ Ha Hb Ho Hoh) as [-> _]. done. }
    unfold channel_issued. by rewrite Hp, Hm, Hc.
  - intros p Hp. rewrite Hm. by apply I3.
Qed.

Lemma process_inv cn m r ch d h :
  conn_inv cn h → single_open (Polled (Arrived (Some (Ok m)))) →
  process m (cn_channel cn) (cn_transport cn) = (r, ch, d) →
  conn_inv (set_channel ch cn) h ∧ binding d = binding (cn_transport cn) ∧
  (is_ok r = true → ∀ chunk c info, r = Ok None → chunk ∈ pending_chunks d →
     chunk_info c chunk = Ok info → security_header info = Symmetric) ∧
  (∀ request, r = Ok (Some request) →
     header_fits (set_channel ch cn) (rq_security_header request)).
Proof.
  intros Hinv Hsingle Hp. unfold process in Hp.
  destruct m as [x|data|]; try (injection Hp as <- <- <-; by split_and!; try (by destruct cn)).
  destruct (admit_chunk _ _) as [hd|e] eqn:Ha.
  2: { injection Hp as <- <- <-. by split_and!; try (by destruct cn). }
  pose proof (admit_header _ _ _ Ha) as Hh.
  pose proof (Hsingle data hd eq_refl Hh) as Hone.
  destruct (is_final hd) eqn:Hf.
  3: { injection Hp as <- <- <-. split_and!; [by destruct cn|done| |done].
       intros _ chunk c info _ Hin. by apply not_elem_of_nil in Hin. }
  all: destruct (unsecure (cn_channel cn) data) as [[chunk|e] ch1] eqn:Hu;
    pose proof (unsecure_inv _ _ _ _ _ _ Hinv Ha Hu) as Hinv1;
    [|injection Hp as <- <- <-; by split_and!].
  all: destruct (d_max_request_chunks _ <=? _); [injection Hp as <- <- <-; by split_and!|].
  all: destruct (pending_limit _ <? _); [injection Hp as <- <- <-; by split_and!|].
  all: destruct (chunk_info ch1 chunk) as [info|e]; [|injection Hp as <- <- <-; by split_and!].
  all: cbn [set_pending sequence_numbers] in Hp;
    destruct (sequence_next _ (sequence_number info)) as [q|e]; [|injection Hp as <- <- <-; by split_and!].
  - injection Hp as <- <- <-. split_and!; [done|done| |].
    { intros _ chunk' c info' Hnone. unfold complete in Hnone.
      destruct (pending_chunks (cn_transport cn) ++ [chunk]) as [|first rest]; [done|].
      cbn in Hnone. destruct (chunk_info ch1 first); [|done].
      destruct (validate_chunks _ _); [|done]. by destruct (decode_request _ _). }
    intros request Hreq. unfold complete in Hreq. cbn [pending_chunks set_pending] in Hreq.
    destruct (pending_chunks (cn_transport cn) ++ [chunk]) as [|first rest] eqn:Hl; [done|].
    destruct (chunk_info ch1 first) as [info'|] eqn:Hi'; [|done].
    destruct (validate_chunks _ _); [|done]. destruct (decode_request _ _); [|done].
    injection Hreq as <-. cbn [rq_security_header].
    destruct (pending_chunks (cn_transport cn)) as [|x xs] eqn:Hpend.
    + injection Hl as <- <-. destruct (is_open hd) eqn:Ho.
      * destruct (unsecure_open_ok _ _ _ _ _ _ _ Hh Ho Hu Hi') as (uri & cert & Hoh & Hpol & ->).
        simpl. split; [done|]. intros b Hb. by eapply admit_bound.
      * by rewrite (unsecure_plain_ok _ _ _ _ _ _ _ Hh Ho Hu Hi').
    + injection Hl as <- <-. rewrite (ci_held _ _ Hinv x ch1 info'); [done| |done].
      rewrite Hpend. by left.
  - injection Hp as <- <- <-. split_and!; [done|done| |done].
    intros _ chunk' c info' _ Hin Hi'. cbn [pending_chunks set_pending] in Hin.
    apply elem_of_app in Hin as [Hin|Hin].
    + by apply (ci_held _ _ Hinv chunk' c).
    + apply list_elem_of_singleton in Hin as ->.
      destruct (is_open hd) eqn:Ho; [by destruct (Hone eq_refl)|].
      by eapply unsecure_plain_ok.
Qed.
Lemma incoming_inv cn m r ch d h :
  conn_inv cn h → single_open (Polled (Arrived m)) →
  handle_incoming m (cn_channel cn) (cn_transport cn) = (r, ch, d) →
  conn_inv (set_transport d (set_channel ch cn)) h ∧
  ∀ request, r = GotRequest request →
    header_fits (set_transport d (set_channel ch cn)) (rq_security_header request).
Proof.
  intros Hinv Hs Hh. unfold handle_incoming in Hh.
  destruct m as [[m|e]|]; try (injection Hh as <- <- <-; split; [by destruct cn|done]).
  destruct (process m _ _) as [[x ch1] d1] eqn:Hp.
  destruct (process_inv _ _ _ _ _ _ Hinv Hs Hp) as (Hinv1 & Hb & Hheld & Hfit).
  assert (Hempty : conn_inv (set_transport (set_pending [] 0 d1) (set_channel ch1 cn)) h).
  { apply conn_inv_transport; [done|done|]. intros chunk c info Hin. by apply not_elem_of_nil in Hin. }
  destruct x as [[request|]|e]; injection Hh as <- <- <-.
  - split; [done|]. intros rq [= <-]. specialize (Hfit request eq_refl).
    destruct (rq_security_header request); [|done]. simpl in *. by rewrite Hb.
  - split; [|done]. apply conn_inv_transport; [done|done|]. intros chunk c info. by apply Hheld.
  - split; [done|]. intros rq. by destruct (full_context e) as [[? ?]|].
Qed.
Lemma poll_inv cn w r ch d h :
  conn_inv cn h → single_open (Polled w) → poll w (cn_channel cn) (cn_transport cn) = Some (r, ch, d) →
  conn_inv (set_transport d (set_channel ch cn)) h ∧
  ∀ request, r = GotRequest request →
    header_fits (set_transport d (set_channel ch cn)) (rq_security_header request).
Proof.
  intros Hinv Hs Hp.
  assert (Hsame : set_transport (cn_transport cn) (set_channel (cn_channel cn) cn) = cn) by (by destruct cn).
  unfold poll in Hp. destruct w as [s|[]| |m]; try case_match; try done;
    try (injection Hp as <- <- <-; by rewrite Hsame).
  eapply incoming_inv; [done|exact Hs|congruence].
Qed.

(** What a turn leaves, if the loop goes on. *)
Lemma some_inv (p : prog Shared Connection) h :
  leads p h conn_inv →
  leads (cn ← p; mret (Some cn)) h (fun o h' => ∀ cn, o = Some cn → conn_inv cn h').
Proof.
  intros Hp. eapply leads_bind; [exact Hp|]. intros cn h' _ Hinv. apply leads_ret. by intros ? [= <-].
Qed.

Lemma on_turn_inv t turn cn h :
  conn_inv cn h → single_open turn →
  leads (on_turn t turn cn) h (fun o h' => ∀ cn', o = Some cn' → conn_inv cn' h').
Proof.
  intros Hinv Hs.
  assert (Hclose : ∀ st reason h', h ⊆ h' →
    leads (cn' ← close st reason cn; mret (Some cn')) h' (fun o h' => ∀ cn', o = Some cn' → conn_inv cn' h')).
  { intros st reason h' Hs'. apply some_inv, (alike_inv cn); [|apply close_alike].
    by eapply conn_inv_alike. }
  assert (Hsame : ∀ h', h ⊆ h' →
    leads (mret (Some cn)) h' (fun o h' => ∀ cn', o = Some cn' → conn_inv cn' h')).
  { intros h' Hs'. apply leads_ret. intros cn' [= <-]. by eapply conn_inv_alike. }
  destruct turn as [| | |i response| |w]; simpl.
  - destruct (transport_closing cn); [by apply Hsame|by apply Hclose].
  - destruct (transport_closing cn); [by apply Hsame|]. apply leads_then.
    intros [reason|] h' Hs'; [by apply Hclose|by apply Hsame].
  - destruct (transport_closing cn); [by apply leads_ret|by apply Hclose].
  - destruct (cn_pending cn !! i) as [p|]; [|by apply Hsame]. apply some_inv.
    apply (alike_inv (set_pending_tasks (base.delete i (cn_pending cn)) cn)); [|apply respond_alike].
    apply (conn_inv_alike cn _ h h); [|done|done]. split_and!; try done.
    cbn. apply sublist_subseteq, sublist_delete.
  - apply some_inv. apply (alike_inv (set_upstream None cn)); [|apply close_alike].
    apply (conn_inv_alike cn _ h h); [|done|done]. by split_and!.
  - destruct (poll _ _ _) as [[[r ch] d]|] eqn:Hh; [|by apply Hsame].
    destruct (poll_inv _ _ _ _ _ _ Hinv Hs Hh) as [Hinv1 Hfit].
    destruct r as [| |request|status id hd|status|]; simpl; try (by apply leads_ret; intros ? [= <-]).
    + apply some_inv. apply handle_inv; [done|by apply Hfit].
    + apply some_inv. apply (alike_inv (set_transport d (set_channel ch cn))); [done|apply respond_alike].
    + apply some_inv. apply (alike_inv (set_transport d (set_channel ch cn))); [done|apply close_alike].
Qed.

(** A connection and what it did, after any number of turns. *)
Inductive conn_reachable (t : Relayed) : Connection → list lbl → Prop :=
| cr_start l late first ack d id cl ch until :
    accept l late first = HelloOk ack d →
    conn_reachable t (mkConnection id cl d ch false 0 [] None [] until None) []
| cr_turn cn h turn ls cn' :
    conn_reachable t cn h → single_open turn → runs (on_turn t turn cn) ls (Ret (Some cn')) →
    conn_reachable t cn' (h ++ ls).

Lemma accept_fresh l late first ack d :
  accept l late first = HelloOk ack d → binding d = None ∧ pending_chunks d = [].
Proof.
  unfold accept. destruct late; [done|]. destruct first as [[[x| |]|]|]; try done.
  destruct (negb _); [done|]. destruct (0 <? _); [done|]. by intros [= _ <-].
Qed.

Lemma conn_reachable_inv t cn h : conn_reachable t cn h → conn_inv cn h.
Proof.
  induction 1 as [l late first ack d id cl ch until Ha|cn h turn ls cn' Hr IH Hs Hrun].
  - apply accept_fresh in Ha as [Hb Hp]. split; cbn; try done.
    + rewrite Hb. split; [done|]. by intros [].
    + by rewrite Hb.
    + intros p Hin. by apply not_elem_of_nil in Hin.
    + rewrite Hp. intros chunk c info Hin. by apply not_elem_of_nil in Hin.
  - pose proof (on_turn_inv t turn cn h IH Hs) as Hl.
    pose proof (always_runs _ _ _ _ _ _ Hrun Hl) as Hend. simpl in Hend.
    destruct Hend as (_ & _ & Hinv). by apply Hinv.
Qed.

End ConnectionFacts.

(** ** A connection of the small gateway *)
Module ToyConnection.
Import ToyNodes ToyOpc ToyRelay ToyStack.

#[export] Instance channels : Channels := {
  common_name c := Some c;
  cert_error _ := BadCertificateInvalid;
  remote_cert_of b := Ok (cert_of_bytes b);
  nonce_ok _ _ := Ok ();
  derive rest _ _ := rest;
}.

Lemma toy_kind data h :
  toy_header data = Ok h →
  (is_open h = true ∧ ∃ uri cert, toy_security data = Asymmetric uri cert) ∨
  (is_open h = false ∧ toy_security data = Symmetric).
Proof.
  destruct data as [|k [|f rest]]; simpl; try done. intros [= <-]. simpl.
  destruct (Ascii.eqb_spec k "O") as [->|Hk]; [left; split; [done|by do 2 eexists]|right; split; [done|]].
  destruct k as [[] [] [] [] [] [] [] []]; try done.
Qed.

#[export] Instance stack_ok : StackOk.
Proof.
  split; intros; cbn in *; unfold toy_unsecure in *;
    try match goal with E : toy_header _ = Ok _ |- _ =>
          destruct (toy_kind _ _ E) as [[? (? & ? & Hs)]|[? Hs]]; try congruence end;
    repeat match goal with E : (_, _) = (_, _) |- _ => injection E as <- <- end; simplify_eq; try done.
  - by destruct (toy_security data).
  - by rewrite Hs.
  - right. rewrite Hs. by do 2 eexists.
  - rewrite Hs. by do 2 eexists.
Qed.

Definition relayed : Relayed := mkRelayed "plc" "opc.tcp://plc:4840" SecNone gw.
Definition started : Connection := mkConnection 7 hmi transport channel false 0 [] None [] 0 None.
Definition issuing : Turn := Polled (Arrived (Some (Ok (MsgChunk "OFNone")))).
Definition opening := exec world (on_turn relayed issuing started) (shared true).
End ToyConnection.

Section ConnectionWitnesses.
Import ToyNodes ToyOpc ToyRelay ToyStack ToyConnection.


(** An OpenSecureChannel request in two chunks: the channel is switched to the
    policy of the last chunk, but bound to the header of the first. *)
Definition first_part : Turn := Polled (Arrived (Some (Ok (MsgChunk "OCBasi")))).
Definition half_opened : option Connection :=
  match (exec world (on_turn relayed first_part started) (shared true)).1.2 with
  | Some (Some cn) => Some cn
  | _ => None
  end.

Example two_part_open_splits_the_binding :
  match half_opened with
  | Some cn =>
      match (exec world (on_turn relayed issuing cn) (shared true)).1.2 with
      | Some (Some cn) => issued cn = true ∧ ch_policy (cn_channel cn) = "None" ∧
          cb_policy_uri <$> binding (cn_transport cn) = Some "Basi"
      | _ => False
      end
  | None => False
  end.
Proof. vm_compute. by split_and!. Qed.
End ConnectionWitnesses.
