(* ===== verification/Lifetime.v ===== *)
(** The life of a client connection, from its first record to its last
    ([run] and [finish_audited] in [src/src/relay/connection.rs]): the loop and the
    requests in progress take turns, and those that may have changed something
    are seen through when the client is gone. *)

From S2P Require Import Prelude Net Config Pipeline Ignore Endpoints AuditMap Event Opc Task Sessions Relay Login Transport Connection.

(** How long requests in progress may take once the client is gone. *)
Definition DRAIN_TIMEOUT : Z := 30000000000.

Section Lifetime.
Context `{Crypto} `{!Stack} `{!Channels}.
Abbreviation lbl := (label Shared).
Abbreviation task := (prog Shared).

(** A request in progress: what it did, and what is left. *)
Record Flight : Type := mkFlight {
  fl_task : Pending;
  fl_done : list lbl;
  fl_left : task ResponseMessage;
}.
Definition launch (p : Pending) : Flight := mkFlight p [] (service_task (p_ctx p) (p_message p)).
Definition fly (f : Flight) (l : lbl) (p : task ResponseMessage) : Flight := mkFlight (fl_task f) (fl_done f ++ [l]) p.
Definition is_seen_through (f : Flight) : bool := p_audited (fl_task f).

Inductive Phase : Type :=
| Entering (p : task unit)
(** the loop waits *)
| Selecting
(** the body of a branch *)
| Turning (p : task (option Connection))
(** [finish_audited]: up to [DRAIN_TIMEOUT]; the upstream channel closed, up to
    [CLOSE_TIMEOUT] *)
| Draining
| Cutting
| Leaving (p : task unit)
| Left
(** a panic outside the loop ends the connection's task *)
| Lost.

(** What becomes of a request in progress. *)
Inductive Fate : Type := Answered (r : ResponseMessage) | Dropped | GivenUp | Panicked.

Record Life : Type := mkLife {
  li_phase : Phase;
  li_conn : Connection;
  li_flights : list Flight;
  li_ended : list (Flight * Fate);
  (** all effects of the connection and its requests *)
  li_log : list lbl;
}.

Definition with_reason (r : string) (cn : Connection) : Connection :=
  mkConnection (cn_id cn) (cn_client cn) (cn_transport cn) (cn_channel cn) (issued cn) (last_token_id cn) (cn_endpoints cn)
    (cn_upstream cn) (cn_pending cn) (deadline cn) (Some r).
Definition internal_error : string := "internal error".

(** [finish_audited] keeps the requests that are seen through. *)
Definition drain (cn : Connection) (fs : list Flight) (ended : list (Flight * Fate)) (log : list lbl) : Life :=
  mkLife Draining cn (List.filter is_seen_through fs)
    (ended ++ ((fun f => (f, Dropped)) <$> List.filter (fun f => negb (is_seen_through f)) fs)) log.
Definition leave (t : Relayed) (stopped : bool) (cn : Connection) (ended : list (Flight * Fate)) (log : list lbl) : Life :=
  mkLife (Leaving (disconnect t stopped cn)) cn [] ended log.

(** The requests make progress while nothing else of the connection does. *)
Definition polls (ph : Phase) : Prop := match ph with Selecting | Draining | Cutting => True | _ => False end.

Inductive life_step (t : Relayed) : Life → Life → Prop :=
| ls_enter cn fs ed log p l p' :
    does p l p' → life_step t (mkLife (Entering p) cn fs ed log) (mkLife (Entering p') cn fs ed (log ++ [l]))
| ls_entered cn fs ed log :
    life_step t (mkLife (Entering (Ret ())) cn fs ed log) (mkLife Selecting cn fs ed log)
| ls_turn cn fs ed log turn :
    (∀ i r, turn ≠ TaskDone i r) →
    life_step t (mkLife Selecting cn fs ed log) (mkLife (Turning (on_turn t turn cn)) cn fs ed log)
| ls_answered cn fs ed log i f r :
    fs !! i = Some f → fl_left f = Ret r →
    life_step t (mkLife Selecting cn fs ed log)
      (mkLife (Turning (on_turn t (TaskDone i r) cn)) cn (base.delete i fs) (ed ++ [(f, Answered r)]) log)
| ls_turns cn fs ed log p l p' :
    does p l p' → life_step t (mkLife (Turning p) cn fs ed log) (mkLife (Turning p') cn fs ed (log ++ [l]))
| ls_turned cn fs ed log cn' :
    life_step t (mkLife (Turning (Ret (Some cn'))) cn fs ed log)
      (mkLife Selecting cn' (fs ++ (launch <$> drop (length fs) (cn_pending cn'))) ed log)
| ls_ends cn fs ed log : life_step t (mkLife (Turning (Ret None)) cn fs ed log) (drain cn fs ed log)
| ls_turn_panics cn fs ed log :
    life_step t (mkLife (Turning Panic) cn fs ed log) (drain (with_reason internal_error cn) fs ed log)
| ls_goes ph cn fs ed log i f l p :
    polls ph → fs !! i = Some f → does (fl_left f) l p →
    life_step t (mkLife ph cn fs ed log) (mkLife ph cn (<[i := fly f l p]> fs) ed (log ++ [l]))
(** caught *)
| ls_panics cn fs ed log i f :
    fs !! i = Some f → fl_left f = Panic →
    life_step t (mkLife Selecting cn fs ed log)
      (drain (with_reason internal_error cn) (base.delete i fs) (ed ++ [(f, Panicked)]) log)
(** not caught *)
| ls_lost ph cn fs ed log i f :
    ph = Draining ∨ ph = Cutting → fs !! i = Some f → fl_left f = Panic →
    life_step t (mkLife ph cn fs ed log)
      (mkLife Lost cn [] (ed ++ (f, Panicked) :: ((fun f => (f, Dropped)) <$> base.delete i fs)) log)
| ls_finished ph cn fs ed log i f r :
    ph = Draining ∨ ph = Cutting → fs !! i = Some f → fl_left f = Ret r →
    life_step t (mkLife ph cn fs ed log) (mkLife ph cn (base.delete i fs) (ed ++ [(f, Answered r)]) log)
| ls_drained ph stopped cn ed log :
    ph = Draining ∨ ph = Cutting → life_step t (mkLife ph cn [] ed log) (leave t stopped cn ed log)
(** [DRAIN_TIMEOUT] *)
| ls_cut cn fs ed log :
    fs ≠ [] → life_step t (mkLife Draining cn fs ed log) (mkLife Cutting (set_upstream None cn) fs ed log)
(** [CLOSE_TIMEOUT] *)
| ls_gives_up stopped cn fs ed log :
    fs ≠ [] →
    life_step t (mkLife Cutting cn fs ed log) (leave t stopped cn (ed ++ ((fun f => (f, GivenUp)) <$> fs)) log)
| ls_leaves cn fs ed log p l p' :
    does p l p' → life_step t (mkLife (Leaving p) cn fs ed log) (mkLife (Leaving p') cn fs ed (log ++ [l]))
| ls_left cn fs ed log : life_step t (mkLife (Leaving (Ret ())) cn fs ed log) (mkLife Left cn fs ed log).

(** [run], once the handshake is done. *)
Definition new_connection (id : Z) (peer : ClientContext) (d : Downstream) (ch : Channel) (until : Z) : Connection :=
  mkConnection id peer d ch false 0 [] None [] until None.
Definition born (t : Relayed) (cn : Connection) : Life :=
  mkLife (Entering (record_event t (cn_client cn) ClientConnected)) cn [] [] [].

Inductive lives (t : Relayed) : Life → Prop :=
| lives_born l late first ack d id peer ch until :
    accept l late first = HelloOk ack d → lives t (born t (new_connection id peer d ch until))
| lives_next x y : lives t x → life_step t x y → lives t y.

(** ** What a turn does to the requests in progress *)
Definition returns {A} (p : task A) (Φ : A → Prop) : Prop := spec (fun _ => True) p (fun a _ => Φ a).
Lemma returns_ret {A} (a : A) (Φ : A → Prop) : Φ a → returns (mret a) Φ.
Proof. intros Ha. by apply spec_ret. Qed.
Lemma returns_bind {A B} (p : task A) (f : A → task B) Φ Ψ : returns p Φ → (∀ a, Φ a → returns (f a) Ψ) → returns (p ≫= f) Ψ.
Proof. intros Hp Hf. eapply spec_bind; [exact Hp|]. intros a ls Ha _. by apply Hf. Qed.
Lemma returns_all {A} (p : task A) (Φ : A → Prop) : (∀ a, Φ a) → returns p Φ.
Proof.
  intros HΦ. unfold returns, spec. generalize (@nil lbl).
  induction p; simpl; intros h; (split; [by apply Forall_true|]); auto.
Qed.
Lemma returns_skip {A B} (p : task A) (f : A → task B) Ψ : (∀ a, returns (f a) Ψ) → returns (p ≫= f) Ψ.
Proof. intros Hf. eapply returns_bind; [by apply (returns_all p (fun _ => True))|]. auto. Qed.
Lemma returns_mono {A} (p : task A) (Φ Ψ : A → Prop) : (∀ a, Φ a → Ψ a) → returns p Φ → returns p Ψ.
Proof. intros Hi. apply spec_mono; auto. Qed.

(** The requests in progress stay those of [cn]. *)
Definition same_tasks (cn cn' : Connection) : Prop := cn_pending cn' = cn_pending cn.
Definition then_same {A} (cn : Connection) (r : A * Connection) : Prop := same_tasks cn r.2.
Ltac tasks :=
  repeat first
    [apply returns_ret; unfold then_same, same_tasks in *; simpl in *; congruence
    |eapply returns_mono; [|eassumption]; unfold then_same, same_tasks in *; simpl in *; intros; congruence
    |case_match].

Lemma close_tasks s r cn : returns (close s r cn) (same_tasks cn).
Proof. unfold close. case_match; [tasks|]. apply returns_skip. intros. tasks. Qed.
Lemma respond_tasks id r cn : returns (respond id r cn) (same_tasks cn).
Proof. unfold respond. destruct (enqueue _ _ _ _) as [[] d]; [tasks|]. exact (close_tasks _ _ (Connection.set_transport d cn)). Qed.
Lemma reject_tasks id h s r cn : returns (reject id h s r cn) (same_tasks cn).
Proof.
  unfold reject. eapply returns_bind; [apply respond_tasks|]. intros cn' Hcn.
  eapply returns_mono; [|apply close_tasks]. unfold same_tasks in *. intros; congruence.
Qed.
Lemma refresh_tasks t cn : returns (refresh_upstream_endpoints t cn) (then_same cn).
Proof. unfold refresh_upstream_endpoints. apply returns_skip. intros. tasks. Qed.
Lemma upstream_tasks t cn : returns (ensure_upstream t cn) (then_same cn).
Proof.
  unfold ensure_upstream. case_match; [tasks|]. eapply returns_bind with (Φ := then_same cn).
  { case_match; [apply refresh_tasks|tasks]. }
  intros [failed cn'] Hcn. case_match; [tasks|]. case_match; [|tasks]. apply returns_skip. intros.
  case_match; [tasks|]. case_match; apply returns_skip; intros; tasks.
Qed.
Lemma ctx_tasks t cn : returns (make_ctx t cn) (then_same cn).
Proof. unfold make_ctx. eapply returns_bind; [apply upstream_tasks|]. intros [u cn'] Hcn. tasks. Qed.
Lemma certificate_tasks t b cn : returns (check_client_certificate t b cn) (then_same cn).
Proof.
  unfold check_client_certificate. case_match; [|tasks]. case_match; [apply returns_skip; intros; tasks|].
  apply returns_skip. intros. case_match; [tasks|]. apply returns_skip. intros. tasks.
Qed.
Lemma trusted_tasks t b cn : returns (trusted_or_open t b cn) (then_same cn).
Proof. unfold trusted_or_open. case_match; [tasks|]. apply certificate_tasks. Qed.
Lemma admit_tasks t b o cn : returns (admit_open t b o cn) (then_same cn).
Proof.
  unfold admit_open. case_match.
  - case_match; [tasks|]. eapply returns_bind; [apply trusted_tasks|]. intros [failed cn'] Hcn. tasks.
  - case_match; [tasks|]. eapply returns_bind; [apply refresh_tasks|]. intros [failed cn'] Hcn. case_match; [tasks|].
    eapply returns_bind; [apply trusted_tasks|]. intros [failed' cn2] Hcn2. case_match; [tasks|]. apply returns_skip. intros. tasks.
Qed.
Lemma grant_tasks t id u c o ch n cn : returns (grant t id u c o ch n cn) (same_tasks cn).
Proof.
  unfold grant. eapply returns_bind; [apply respond_tasks|]. intros cn' Hcn. apply returns_skip. intros. case_match; [tasks|].
  do 3 (apply returns_skip; intros). tasks.
Qed.
Lemma open_tasks t id sh h o cn : returns (open_secure_channel t id sh h o cn) (same_tasks cn).
Proof.
  unfold open_secure_channel. destruct sh as [uri cert|]; [|apply close_tasks]. case_match; [apply reject_tasks|].
  eapply returns_bind; [apply admit_tasks|]. intros [admitted cn'] Hcn. case_match.
  - apply returns_skip. intros nonce. destruct (setup_channel _ _ _ _ _) as [set ch].
    case_match; (eapply returns_mono; [|first [apply grant_tasks|apply reject_tasks]]); unfold then_same, same_tasks in *; simpl in *; intros; congruence.
  - case_match. eapply returns_mono; [|apply reject_tasks]; unfold then_same, same_tasks in *; simpl in *; intros; congruence.
Qed.

(** At most one request more is in progress, with the mark its kind has. *)
Definition one_more (ps : list Pending) (cn' : Connection) : Prop :=
  ∃ new, cn_pending cn' = ps ++ new ∧ Forall (fun p => p_audited p = seen_through (p_message p)) new.
Lemma same_more cn cn' : same_tasks cn cn' → one_more (cn_pending cn) cn'.
Proof. intros Hs. exists []. by rewrite app_nil_r. Qed.
Lemma start_tasks t id h m cn : returns (start_task t id h m cn) (one_more (cn_pending cn)).
Proof.
  unfold start_task. eapply returns_bind; [apply ctx_tasks|]. intros [c cn'] Hcn. unfold then_same, same_tasks in Hcn. simpl in Hcn.
  case_match.
  - apply returns_ret. eexists. rewrite Hcn. split; [reflexivity|]. by constructor.
  - eapply returns_mono; [|apply respond_tasks]. intros cn2 Hs. rewrite <- Hcn. by apply same_more.
Qed.
Lemma handle_tasks t r cn : returns (handle t r cn) (one_more (cn_pending cn)).
Proof.
  assert (Hs : ∀ p, returns p (same_tasks cn) → returns p (one_more (cn_pending cn))) by (intros p; apply returns_mono, same_more).
  unfold handle. case_match; [apply returns_ret; by apply same_more|].
  destruct (rq_message r), (issued cn); try apply start_tasks;
    try (apply Hs; first [apply open_tasks|apply close_tasks|apply respond_tasks]).
  - apply returns_skip. intros. apply returns_ret. by apply same_more.
  - apply Hs. unfold answer_endpoints. eapply returns_bind; [apply refresh_tasks|]. intros [failed cn'] Hcn.
    eapply returns_mono; [|apply respond_tasks]. unfold then_same, same_tasks in *. simpl in *. intros; congruence.
Qed.

(** The requests that go on in a turn. *)
Definition remaining (turn : Turn) (ps : list Pending) : list Pending :=
  match turn with TaskDone i _ => base.delete i ps | _ => ps end.
Definition turn_result (turn : Turn) (cn : Connection) (r : option Connection) : Prop :=
  ∀ cn', r = Some cn' → one_more (remaining turn (cn_pending cn)) cn'.
Lemma poll_tasks t r cn : returns (on_poll t r cn) (fun o => ∀ cn', o = Some cn' → one_more (cn_pending cn) cn').
Proof.
  assert (Hs : ∀ p, returns p (one_more (cn_pending cn)) →
    returns (cn ← p; mret (Some cn)) (fun o => ∀ cn', o = Some cn' → one_more (cn_pending cn) cn')).
  { intros p Hp. eapply returns_bind; [exact Hp|]. intros cn' Hcn. apply returns_ret. by intros ? [= <-]. }
  unfold on_poll. case_match; try (apply returns_ret; intros ? [=]; subst; by apply same_more); apply Hs;
    first [apply handle_tasks|eapply returns_mono; [|first [apply respond_tasks|apply close_tasks]]; apply same_more].
Qed.
Lemma turn_tasks t turn cn : returns (on_turn t turn cn) (turn_result turn cn).
Proof.
  assert (Hs : ∀ p cn0, cn_pending cn0 = remaining turn (cn_pending cn) → returns p (same_tasks cn0) →
    returns (cn ← p; mret (Some cn)) (turn_result turn cn)).
  { intros p cn0 Hcn Hp. eapply returns_bind; [exact Hp|]. intros cn' Hcn'. apply returns_ret. intros ? [= <-].
    rewrite <- Hcn. by apply same_more. }
  assert (Hpoll : ∀ r cn0, cn_pending cn0 = remaining turn (cn_pending cn) → returns (on_poll t r cn0) (turn_result turn cn)).
  { intros r cn0 Hcn. eapply returns_mono; [|apply poll_tasks]. intros o. unfold turn_result. by rewrite Hcn. }
  assert (Hstay : remaining turn (cn_pending cn) = cn_pending cn → returns (mret (Some cn)) (turn_result turn cn)).
  { intros Hr. apply returns_ret. intros ? [= <-]. rewrite Hr. by apply same_more. }
  unfold on_turn. destruct turn as [| | |i response| |w].
  - case_match; [by apply Hstay|]. by apply (Hs _ cn); [|apply close_tasks].
  - case_match; [by apply Hstay|]. apply returns_skip. intros. case_match; [|by apply Hstay]. by apply (Hs _ cn); [|apply close_tasks].
  - case_match; [by apply returns_ret|]. by apply (Hs _ cn); [|apply close_tasks].
  - destruct (cn_pending cn !! i) as [p|] eqn:Hp.
    + by apply (Hs _ (set_pending_tasks (base.delete i (cn_pending cn)) cn)); [|apply respond_tasks].
    + apply Hstay. simpl. rewrite delete_take_drop. apply lookup_ge_None in Hp. rewrite take_ge, drop_ge by lia. apply app_nil_r.
  - by apply (Hs _ (set_upstream None cn)); [|apply close_tasks].
  - destruct (poll _ _ _) as [[[r ch] d]|]; [by apply Hpoll|by apply Hstay].
Qed.

(** ** Lives *)
Definition yields {A} (p : task A) (Φ : A → Prop) : Prop := ∀ ls a, runs p ls (Ret a) → Φ a.
Lemma returns_yields {A} (p : task A) Φ : returns p Φ → yields p Φ.
Proof. intros Hp ls a Hr. by apply (spec_sound _ _ _ _ _ Hp) in Hr as [_ Ha]; apply Ha. Qed.
Lemma yields_step {A} (p : task A) l p' Φ : does p l p' → yields p Φ → yields p' Φ.
Proof. intros Hd Hp ls a Hr. apply (Hp (l :: ls)). by eapply runs_step. Qed.

(** A request in progress runs its service, and is marked by its kind. *)
Definition flies (f : Flight) : Prop :=
  runs (service_task (p_ctx (fl_task f)) (p_message (fl_task f))) (fl_done f) (fl_left f) ∧
  p_audited (fl_task f) = seen_through (p_message (fl_task f)).
Lemma flies_on f l p : does (fl_left f) l p → flies f → flies (fly f l p).
Proof. intros Hd [Hr Hm]. split; [|done]. eapply runs_app; [exact Hr|]. eapply runs_step; [exact Hd|constructor]. Qed.
Lemma launch_flies p : p_audited p = seen_through (p_message p) → flies (launch p).
Proof. intros Hp. split; [constructor|done]. Qed.

Definition leaving (ph : Phase) : Prop := match ph with Leaving _ | Left => True | _ => False end.
Definition fated (ph : Phase) (cn : Connection) (f : Flight) (fate : Fate) : Prop :=
  match fate with
  | Answered r => fl_left f = Ret r
  | Dropped => is_seen_through f = false ∨ ph = Lost
  | GivenUp => leaving ph ∧ cn_upstream cn = None
  | Panicked => fl_left f = Panic
  end.
Definition ended_ok (ph : Phase) (cn : Connection) (ed : list (Flight * Fate)) : Prop :=
  Forall (fun e => flies e.1 ∧ fated ph cn e.1 e.2) ed.
Definition in_order (x : Life) : Prop :=
  match li_phase x with
  | Entering _ => li_flights x = [] ∧ cn_pending (li_conn x) = []
  | Selecting => fl_task <$> li_flights x = cn_pending (li_conn x)
  | Turning p => yields p (fun o => ∀ cn', o = Some cn' → one_more (fl_task <$> li_flights x) cn')
  | Draining => Forall (fun f => is_seen_through f = true) (li_flights x)
  | Cutting => Forall (fun f => is_seen_through f = true) (li_flights x) ∧ cn_upstream (li_conn x) = None
  | Leaving _ | Left | Lost => li_flights x = []
  end.
Record life_inv (x : Life) : Prop := {
  iv_flights : Forall flies (li_flights x);
  iv_ended : ended_ok (li_phase x) (li_conn x) (li_ended x);
  iv_order : in_order x;
}.

Lemma ended_moves ph ph' cn cn' ed :
  (leaving ph → leaving ph' ∧ cn_upstream cn' = cn_upstream cn) → (ph = Lost → ph' = Lost) → ended_ok ph cn ed → ended_ok ph' cn' ed.
Proof.
  intros Hl Hn Hok. eapply Forall_impl; [exact Hok|]. intros [f fate] [Hf He]. split; [done|]. destruct fate; simpl in *; try naive_solver.
  destruct He as [Hph Hu]. destruct (Hl Hph) as [? ->]. done.
Qed.
Lemma ended_one ph cn ed f fate : ended_ok ph cn ed → flies f → fated ph cn f fate → ended_ok ph cn (ed ++ [(f, fate)]).
Proof. intros He Hf Hx. apply Forall_app. split; [done|]. by constructor. Qed.
Lemma ended_all ph cn ed fs fate :
  ended_ok ph cn ed → Forall flies fs → (∀ f, f ∈ fs → fated ph cn f fate) → ended_ok ph cn (ed ++ ((fun f => (f, fate)) <$> fs)).
Proof.
  intros He Hf Hx. apply Forall_app. split; [done|]. apply Forall_fmap, Forall_forall. intros f Hin. split; [|by apply Hx].
  by eapply Forall_forall in Hf.
Qed.

Lemma inv_drain cn fs ed log : ended_ok Draining cn ed → Forall flies fs → life_inv (drain cn fs ed log).
Proof.
  intros He Hf. split; simpl.
  - apply Forall_forall. intros f [Hin _]%elem_of_filter_bool. by eapply Forall_forall in Hf.
  - apply ended_all; [done|..].
    + apply Forall_forall. intros f [Hin _]%elem_of_filter_bool. by eapply Forall_forall in Hf.
    + intros f [_ Hs]%elem_of_filter_bool. left. by apply negb_true_iff in Hs.
  - apply Forall_forall. by intros f [_ Hs]%elem_of_filter_bool.
Qed.

Lemma flights_insert (fs : list Flight) i f l p :
  fs !! i = Some f → (fl_task <$> <[i := fly f l p]> fs) = fl_task <$> fs.
Proof. intros Hi. rewrite list_fmap_insert. apply list_insert_id. by rewrite list_lookup_fmap, Hi. Qed.

Lemma inv_turned cn fs ed log cn' :
  life_inv (mkLife (Turning (Ret (Some cn'))) cn fs ed log) →
  life_inv (mkLife Selecting cn' (fs ++ (launch <$> drop (length fs) (cn_pending cn'))) ed log).
Proof.
  intros [Hf He Ho]. destruct (Ho [] (Some cn') ltac:(constructor) cn' eq_refl) as (new & Hp & Hnew). simpl in Hp.
  assert (Hd : drop (length fs) (cn_pending cn') = new).
  { rewrite Hp, <- (length_fmap fl_task fs). apply drop_app_length. }
  rewrite Hd. split; simpl.
  - apply Forall_app. split; [done|]. apply Forall_fmap. eapply Forall_impl; [exact Hnew|]. intros p. apply launch_flies.
  - by eapply ended_moves; [..|exact He].
  - unfold in_order. simpl. rewrite fmap_app, Hp. f_equal. rewrite <- list_fmap_compose. apply list_fmap_id.
Qed.
Lemma inv_turn t turn cn fs ed log :
  ended_ok Selecting cn ed → Forall flies fs → fl_task <$> fs = remaining turn (cn_pending cn) →
  life_inv (mkLife (Turning (on_turn t turn cn)) cn fs ed log).
Proof.
  intros He Hf Ho. split; [done|by eapply ended_moves; [..|exact He]|]. unfold in_order. simpl. rewrite Ho.
  apply returns_yields, turn_tasks.
Qed.
Lemma flying (fs : list Flight) i f l p : Forall flies fs → fs !! i = Some f → does (fl_left f) l p → Forall flies (<[i := fly f l p]> fs).
Proof. intros Hf Hi Hd. apply Forall_insert; [done|]. apply flies_on; [done|]. by eapply Forall_lookup in Hf. Qed.

Lemma life_step_inv t x y : life_step t x y → life_inv x → life_inv y.
Proof.
  intros Hs Hx. destruct Hs as [cn fs ed log p l p' Hd|cn fs ed log|cn fs ed log turn Ht|cn fs ed log i f r Hi Hr|cn fs ed log p l p' Hd
    |cn fs ed log cn'|cn fs ed log|cn fs ed log|ph cn fs ed log i f l p Hph Hi Hd|cn fs ed log i f Hi Hp|ph cn fs ed log i f Hph Hi Hp
    |ph cn fs ed log i f r Hph Hi Hr|ph stopped cn ed log Hph|cn fs ed log Hne|stopped cn fs ed log Hne|cn fs ed log p l p' Hd|cn fs ed log].
  6: by eapply inv_turned.
  all: destruct Hx as [Hf He Ho]; unfold in_order in Ho; simpl in Hf, He, Ho.
  all: try (assert (Hfl : flies f) by (by eapply Forall_lookup in Hf)).
  - split; [done| |done]. by eapply ended_moves; [..|exact He].
  - split; [done|by eapply ended_moves; [..|exact He]|]. unfold in_order. simpl. by destruct Ho as [-> ->].
  - apply inv_turn; [done..|]. rewrite Ho. destruct turn; try done. by destruct (Ht i response).
  - apply inv_turn; [by apply ended_one|by apply Forall_delete|]. simpl. by rewrite list_fmap_delete, Ho.
  - split; [done|by eapply ended_moves; [..|exact He]|]. unfold in_order. simpl. by eapply yields_step.
  - apply inv_drain; [by eapply ended_moves; [..|exact He]|done].
  - apply inv_drain; [by eapply ended_moves; [..|exact He]|done].
  - split; [by apply flying|done|]. unfold in_order. destruct ph; try done; simpl.
    + by rewrite (flights_insert _ _ _ _ _ Hi).
    + apply Forall_insert; [done|]. exact (Forall_lookup_1 _ _ _ _ Ho Hi).
    + destruct Ho as [Ho Hu]. split; [|done]. apply Forall_insert; [done|]. exact (Forall_lookup_1 _ _ _ _ Ho Hi).
  - apply inv_drain; [|by apply Forall_delete]. apply ended_one; [by eapply ended_moves; [..|exact He]|done|done].
  - split; [constructor| |done]. simpl. rewrite cons_middle, app_assoc. apply ended_all; [|by apply Forall_delete|by right].
    apply ended_one; [|done|done]. eapply ended_moves; [..|exact He]; by destruct Hph; subst.
  - split; [by apply Forall_delete|by apply ended_one|]. unfold in_order. destruct Hph as [-> | ->]; simpl; [by apply Forall_delete|].
    destruct Ho. split; [by apply Forall_delete|done].
  - split; [done| |done]. eapply ended_moves; [..|exact He]; by destruct Hph; subst.
  - split; [done| |]; [by eapply ended_moves; [..|exact He]|]. by split.
  - split; [constructor| |done]. destruct Ho as [Ho Hu]. simpl. apply ended_all; [by eapply ended_moves; [..|exact He]|done|]. by split.
  - split; [done| |done]. by eapply ended_moves; [..|exact He].
  - split; [done| |done]. by eapply ended_moves; [..|exact He].
Qed.

Lemma lives_inv t x : lives t x → life_inv x.
Proof. induction 1 as [l late first ack d id peer ch until Ha|x y _ IH Hs]; [by repeat split; simpl; try constructor|by eapply life_step_inv]. Qed.

(** What was in progress is so still, or has its fate. *)
Definition taken (x : Life) : list Pending := (fl_task <$> li_flights x) ++ ((fun e => fl_task e.1) <$> li_ended x).
Lemma taken_one i f fate (fs : list Flight) ed p :
  fs !! i = Some f → p ∈ (fl_task <$> fs) ++ ((fun e : Flight * Fate => fl_task e.1) <$> ed) →
  p ∈ (fl_task <$> base.delete i fs) ++ ((fun e => fl_task e.1) <$> (ed ++ [(f, fate)])).
Proof.
  intros Hi. rewrite fmap_app, !elem_of_app. intros [Hin|Hin]; [|by right; left].
  apply list_elem_of_fmap in Hin as (g & -> & [j Hj]%list_elem_of_lookup). destruct (decide (i = j)) as [<-|Hij].
  - right. right. simplify_eq. by left.
  - left. apply list_elem_of_fmap_2. rewrite delete_take_drop, elem_of_app. destruct (decide (j < i)%nat).
    + left. apply (list_elem_of_lookup_2 _ j). by rewrite lookup_take_lt.
    + right. apply (list_elem_of_lookup_2 _ (j - S i)). rewrite lookup_drop. rewrite <- Hj. f_equal. lia.
Qed.
Lemma taken_split (fs : list Flight) ed p :
  p ∈ (fl_task <$> fs) ++ ((fun e : Flight * Fate => fl_task e.1) <$> ed) →
  p ∈ (fl_task <$> List.filter is_seen_through fs) ++
      ((fun e => fl_task e.1) <$> (ed ++ ((fun f => (f, Dropped)) <$> List.filter (fun f => negb (is_seen_through f)) fs))).
Proof.
  rewrite fmap_app, !elem_of_app. intros [(f & -> & Hin)%list_elem_of_fmap|Hin]; [|by right; left].
  destruct (is_seen_through f) eqn:Hs.
  - left. apply list_elem_of_fmap_2, elem_of_filter_bool. done.
  - right. right. rewrite <- list_fmap_compose. apply (list_elem_of_fmap_2 (fun f => fl_task f)), elem_of_filter_bool. by rewrite Hs.
Qed.

Lemma taken_step t x y p : life_step t x y → p ∈ taken x → p ∈ taken y.
Proof.
  unfold taken. intros Hs. destruct Hs as [cn fs ed log q l q' Hd|cn fs ed log|cn fs ed log turn Ht|cn fs ed log i f r Hi Hr|cn fs ed log q l q' Hd
    |cn fs ed log cn'|cn fs ed log|cn fs ed log|ph cn fs ed log i f l q Hph Hi Hd|cn fs ed log i f Hi Hp|ph cn fs ed log i f Hph Hi Hp
    |ph cn fs ed log i f r Hph Hi Hr|ph stopped cn ed log Hph|cn fs ed log Hne|stopped cn fs ed log Hne|cn fs ed log q l q' Hd|cn fs ed log];
    simpl; try done; try (by apply taken_one); try (by apply taken_split).
  - rewrite fmap_app, !elem_of_app. naive_solver.
  - by rewrite (flights_insert _ _ _ _ _ Hi).
  - intros Hin. by apply taken_split, taken_one.
  - intros Hin. apply (taken_one i f Panicked) in Hin; [|done]. rewrite fmap_app, fmap_cons, <- list_fmap_compose.
    rewrite fmap_app in Hin. revert Hin. rewrite !elem_of_app, elem_of_cons, list_elem_of_fmap. simpl. set_solver.
  - rewrite fmap_app, <- list_fmap_compose, !elem_of_app. simpl. naive_solver.
Qed.


(** ** The first and the last record *)
Definition greeted (t : Relayed) (log : list lbl) : Prop :=
  ∃ cl ls rest, log = ls ++ rest ∧ runs (record_event t cl ClientConnected) ls (Ret ()).
Definition parting (t : Relayed) (cn : Connection) (log : list lbl) (p : task unit) : Prop :=
  ∃ pre stopped ls, log = pre ++ ls ∧ greeted t pre ∧ runs (disconnect t stopped cn) ls p.
Definition logged (t : Relayed) (x : Life) : Prop :=
  match li_phase x with
  | Entering p => runs (record_event t (cn_client (li_conn x)) ClientConnected) (li_log x) p
  | Leaving p => parting t (li_conn x) (li_log x) p
  | Left => parting t (li_conn x) (li_log x) (Ret ())
  | _ => greeted t (li_log x)
  end.

Lemma greeted_on t log ls : greeted t log → greeted t (log ++ ls).
Proof. intros (cl & l0 & rest & -> & Hr). exists cl, l0, (rest ++ ls). by rewrite <- app_assoc. Qed.
Lemma runs_on {A} (p p' p'' : task A) ls l : runs p ls p' → does p' l p'' → runs p (ls ++ [l]) p''.
Proof. intros Hr Hd. eapply runs_app; [exact Hr|]. eapply runs_step; [exact Hd|constructor]. Qed.
Lemma leave_logged t stopped cn ed log : greeted t log → logged t (leave t stopped cn ed log).
Proof. intros Hg. exists log, stopped, []. rewrite app_nil_r. split; [done|]. split; [done|constructor]. Qed.

Lemma logged_step t x y : life_step t x y → logged t x → logged t y.
Proof.
  unfold logged. intros Hs.
  destruct Hs as [cn fs ed log q l q' Hd|cn fs ed log|cn fs ed log turn Ht|cn fs ed log i f r Hi Hr|cn fs ed log q l q' Hd
    |cn fs ed log cn'|cn fs ed log|cn fs ed log|ph cn fs ed log i f l q Hph Hi Hd|cn fs ed log i f Hi Hp|ph cn fs ed log i f Hph Hi Hp
    |ph cn fs ed log i f r Hph Hi Hr|ph stopped cn ed log Hph|cn fs ed log Hne|stopped cn fs ed log Hne|cn fs ed log q l q' Hd|cn fs ed log];
    simpl; try done.
  - intros Hr. by eapply runs_on.
  - intros Hr. exists (cn_client cn), log, []. by rewrite app_nil_r.
  - apply greeted_on.
  - destruct ph; try done; apply greeted_on.
  - destruct Hph as [-> | ->]; done.
  - intros Hg. apply (leave_logged t stopped cn ed). by destruct Hph as [-> | ->].
  - apply (leave_logged t stopped cn []).
  - intros (pre & stopped & ls & -> & Hg & Hr). exists pre, stopped, (ls ++ [l]). rewrite app_assoc. split; [done|]. split; [done|]. by eapply runs_on.
Qed.

Lemma lives_logged t x : lives t x → logged t x.
Proof. induction 1 as [l late first ack d id peer ch until Ha|x y _ IH Hs]; [constructor|by eapply logged_step]. Qed.

Lemma runs_record_event t cl e ls : runs (record_event t cl e) ls (Ret ()) →
  ∃ z r, ls = [LClock z; LRecord false (with_client cl (with_target (r_name t) (new_entry z e))) r].
Proof.
  unfold record_event, entry_for. intros Hr. apply runs_bind in Hr as (l1 & l2 & entry & -> & He & Hr).
  apply runs_bind in He as (m1 & m2 & z & -> & Hz & He). apply runs_clock in Hz as ->. apply runs_ret in He as [<- ->].
  apply runs_bind in Hr as (n1 & n2 & r & -> & Hrec & Hret). apply runs_record in Hrec as ->. apply runs_ret in Hret as [_ ->].
  by exists z, r.
Qed.

(** A connection's first record says that the client connected, and its last
    that it disconnected and why; when that is written the client is no longer
    listed. *)
Lemma connection_on_record t x :
  lives t x → li_phase x = Left →
  ∃ z e r mid b a z' e' r', li_log x = LClock z :: LRecord false e r :: mid ++ [LUpdate b a; LClock z'; LRecord false e' r'] ∧
    event e = ClientConnected ∧ clients a !! cn_id (li_conn x) = None ∧
    event e' = ClientDisconnected (default "connection closed" (close_reason (li_conn x))) ∧
    Event.client e' = Some (cn_client (li_conn x)).
Proof.
  intros Hl Hp. pose proof (lives_logged t x Hl) as Hlog. unfold logged in Hlog. rewrite Hp in Hlog.
  destruct Hlog as (pre & stopped & ls & -> & (cl & l0 & rest & -> & Hfirst) & Hr).
  apply runs_record_event in Hfirst as (z & r & ->). unfold disconnect in Hr.
  apply runs_bind in Hr as (m1 & m2 & [] & -> & _ & Hr). apply runs_bind in Hr as (n1 & n2 & [] & -> & Hu & Hr).
  apply runs_atomic in Hu as (s & -> & _). apply runs_record_event in Hr as (z' & r' & ->).
  eexists z, _, r, (rest ++ m1), s, _, z', _, r'. split; [simpl; by rewrite <- !app_assoc|]. split; [done|]. split; [|done].
  simpl. apply lookup_delete_eq.
Qed.

(** ** Running a connection *)
Lemma enters_all t cn fs ed log p ls p' : runs p ls p' → rtc (life_step t) (mkLife (Entering p) cn fs ed log) (mkLife (Entering p') cn fs ed (log ++ ls)).
Proof.
  intros Hr. revert log. induction Hr as [p|p l p1 ls p2 Hd _ IH]; intros log; [by rewrite app_nil_r|].
  eapply rtc_l; [by apply ls_enter|]. rewrite (cons_middle l log ls), app_assoc. apply IH.
Qed.
Lemma turns_all t cn fs ed log p ls p' : runs p ls p' → rtc (life_step t) (mkLife (Turning p) cn fs ed log) (mkLife (Turning p') cn fs ed (log ++ ls)).
Proof.
  intros Hr. revert log. induction Hr as [p|p l p1 ls p2 Hd _ IH]; intros log; [by rewrite app_nil_r|].
  eapply rtc_l; [by apply ls_turns|]. rewrite (cons_middle l log ls), app_assoc. apply IH.
Qed.
Lemma leaves_all t cn fs ed log p ls p' : runs p ls p' → rtc (life_step t) (mkLife (Leaving p) cn fs ed log) (mkLife (Leaving p') cn fs ed (log ++ ls)).
Proof.
  intros Hr. revert log. induction Hr as [p|p l p1 ls p2 Hd _ IH]; intros log; [by rewrite app_nil_r|].
  eapply rtc_l; [by apply ls_leaves|]. rewrite (cons_middle l log ls), app_assoc. apply IH.
Qed.
Lemma flies_all t ph cn task done ed log p ls p' : polls ph → runs p ls p' →
  rtc (life_step t) (mkLife ph cn [mkFlight task done p] ed log) (mkLife ph cn [mkFlight task (done ++ ls) p'] ed (log ++ ls)).
Proof.
  intros Hph Hr. revert log done. induction Hr as [p|p l p1 ls p2 Hd _ IH]; intros log done; [by rewrite !app_nil_r|].
  eapply rtc_l; [by apply (ls_goes t ph cn _ ed log 0 (mkFlight task done p) l p1)|]. cbn [list_insert fly fl_task fl_done].
  rewrite (cons_middle l log ls), (cons_middle l done ls), !app_assoc. apply IH.
Qed.

(** ** A connection always comes to its end *)

(** The task never panics, whatever it is answered. *)
Fixpoint unfailing {A} (p : task A) : Prop :=
  match p with
  | Ret _ => True
  | Panic => False
  | Clock k => ∀ x, unfailing (k x)
  | Random k => ∀ x, unfailing (k x)
  | Record_ _ _ k => ∀ x, unfailing (k x)
  | Update _ k => ∀ x, unfailing (k x)
  | IsClosed k => ∀ x, unfailing (k x)
  | Submit _ _ k => unfailing k
  | Await _ k => ∀ x, unfailing (k x)
  | Validate _ _ k => ∀ x, unfailing (k x)
  | Connect _ k => ∀ x, unfailing (k x)
  | Discover k => ∀ x, unfailing (k x)
  end.
Lemma unfailing_bind {A B} (p : task A) (f : A → task B) : unfailing p → (∀ a, unfailing (f a)) → unfailing (p ≫= f).
Proof. intros Hp Hf. change (unfailing (bind p f)). induction p; simpl in *; auto. Qed.
Lemma unfailing_runs {A} (p p' : task A) ls : runs p ls p' → unfailing p → unfailing p'.
Proof. induction 1 as [|p l p1 ls p2 Hd _ IH]; [done|]. intros Hp. apply IH. destruct Hd; apply Hp. Qed.
Lemma unfailing_event t cl e : unfailing (record_event t cl e).
Proof. by repeat (apply unfailing_bind; simpl; intros). Qed.
Lemma unfailing_each {A} (f : A → task unit) l : (∀ x, unfailing (f x)) → unfailing (each f l).
Proof. intros Hf. induction l; simpl; [done|]. by apply unfailing_bind. Qed.
Lemma unfailing_disconnect t stopped cn : unfailing (disconnect t stopped cn).
Proof.
  unfold disconnect. apply unfailing_bind; [|intros; apply unfailing_bind; [done|intros; apply unfailing_event]].
  destruct stopped; [|done]. apply unfailing_bind; [done|]. intros events. by apply unfailing_each.
Qed.

(** Whatever the surroundings answer, a task returns or panics. *)
Lemma comes_to (w : World) (s : Shared) {A} (p : task A) : ∃ ls, runs p ls Panic ∨ ∃ a, runs p ls (Ret a).
Proof. pose proof (exec_runs w p s) as Hr. exists (exec w p s).1.1. destruct (exec w p s).1.2 as [a|]; eauto. Qed.
Lemma unfailing_comes (w : World) (s : Shared) {A} (p : task A) : unfailing p → ∃ ls a, runs p ls (Ret a).
Proof.
  intros Hp. destruct (comes_to w s p) as [ls [Hr|[a Hr]]]; [|by exists ls, a].
  by apply (unfailing_runs _ _ _ Hr) in Hp.
Qed.

Definition can_end (t : Relayed) (x : Life) : Prop := ∃ y, rtc (life_step t) x y ∧ li_phase y = Left.
Lemma can_end_after t x y : rtc (life_step t) x y → can_end t y → can_end t x.
Proof. intros Hs (z & Hz & Hl). exists z. split; [by etrans|done]. Qed.

Section Ends.
Context (w : World) (s : Shared) (t : Relayed).

Lemma leaves_ends cn fs ed log p : unfailing p → can_end t (mkLife (Leaving p) cn fs ed log).
Proof.
  intros Hp. destruct (unfailing_comes w s p Hp) as (ls & [] & Hr). exists (mkLife Left cn fs ed (log ++ ls)). split; [|done].
  eapply rtc_r; [by apply leaves_all|apply ls_left].
Qed.
Lemma cutting_ends cn fs ed log : can_end t (mkLife Cutting cn fs ed log).
Proof.
  destruct fs as [|f fs].
  - eapply can_end_after; [by apply rtc_once, (ls_drained t Cutting false); right|]. apply leaves_ends, unfailing_disconnect.
  - eapply can_end_after; [by apply rtc_once, (ls_gives_up t false)|]. apply leaves_ends, unfailing_disconnect.
Qed.
Lemma draining_ends cn fs ed log : can_end t (mkLife Draining cn fs ed log).
Proof.
  destruct fs as [|f fs].
  - eapply can_end_after; [by apply rtc_once, (ls_drained t Draining false); left|]. apply leaves_ends, unfailing_disconnect.
  - eapply can_end_after; [by apply rtc_once, ls_cut|]. apply cutting_ends.
Qed.
Lemma selecting_ends cn fs ed log : can_end t (mkLife Selecting cn fs ed log).
Proof.
  eapply can_end_after; [eapply rtc_l; [by apply (ls_turn t _ _ _ _ (Polled (Flushed false)))|apply rtc_once, ls_ends]|].
  apply draining_ends.
Qed.
Lemma turning_ends cn fs ed log p : can_end t (mkLife (Turning p) cn fs ed log).
Proof.
  destruct (comes_to w s p) as [ls [Hr|[[cn'|] Hr]]]; (eapply can_end_after; [by apply turns_all|]); eapply can_end_after.
  - apply rtc_once, ls_turn_panics.
  - apply draining_ends.
  - apply rtc_once, ls_turned.
  - apply selecting_ends.
  - apply rtc_once, ls_ends.
  - apply draining_ends.
Qed.

(** Wherever a connection is in its life, its end can be reached, whatever the
    server and the client do: the deadlines see to that. The exception is the
    panic that nothing catches. *)
Theorem connection_ends x : lives t x → li_phase x ≠ Lost → can_end t x.
Proof.
  intros Hl Hn. pose proof (lives_logged t x Hl) as Hlog. destruct x as [ph cn fs ed log]. unfold logged in Hlog. simpl in *.
  destruct ph as [p| |p| | |p| |]; simpl in Hlog.
  - destruct (unfailing_comes w s p) as (ls & [] & Hr); [by eapply unfailing_runs, unfailing_event|].
    eapply can_end_after; [eapply rtc_r; [by apply enters_all|apply ls_entered]|]. apply selecting_ends.
  - apply selecting_ends.
  - apply turning_ends.
  - apply draining_ends.
  - apply cutting_ends.
  - destruct Hlog as (pre & stopped & ls & _ & _ & Hr). apply leaves_ends. by eapply unfailing_runs, unfailing_disconnect.
  - exists (mkLife Left cn fs ed log). by split; [constructor|].
  - done.
Qed.
End Ends.
End Lifetime.

(** ** A client that leaves while its change is under way *)
Section LifetimeWitnesses.
Import ToyNodes ToyOpc ToyRelay ToyStack.

(** After the channel is open, a chunk [MF] is the write of the small gateway. *)
Definition write_decode (ch : @Channel opc) (chunks : list Blob) : result StackError RequestMessage :=
  match chunks with
  | [String "M" _] => Ok ToyRelay.write
  | _ => toy_decode ch chunks
  end.
#[local] Instance write_stack : @Stack opc := {
  hello_valid h := 8192 <=? h_receive_buffer_size h;
  chunk_header := toy_header;
  open_header data := Ok (toy_security data);
  unsecure := toy_unsecure;
  chunk_info _ data := Ok (mkChunkInfo 1 1 (toy_security data));
  validate_chunks _ _ := Ok ();
  decode_request := write_decode;
  Sequence := Z;
  sequence_start := 0;
  sequence_next q n := Ok n;
  encode_response _ _ _ := Ok ();
  tcp_decode := toy_codec;
}.
#[local] Instance write_channels : @Channels opc write_stack := {
  common_name c := Some c;
  cert_error _ := BadCertificateInvalid;
  remote_cert_of b := Ok (cert_of_bytes b);
  nonce_ok _ _ := Ok ();
  derive rest _ _ := rest;
}.

Definition secured : EndpointDescription :=
  mkEndpointDescription "opc.tcp://plc:4840" app "plc" ModeSign "Basi" (Some [mkUserTokenPolicy "anon" TokenAnonymous ""]) "tcp" 3.
Definition plc_world (answer : RequestMessage → result StatusCode ResponseMessage) : World :=
  mkWorld 1000 "nonce" (fun _ => Ok 1) false answer (fun _ _ => Ok ()) (fun _ => Ok ()) (Ok [secured]).
Definition plc : Relayed := mkRelayed "plc" "opc.tcp://plc:4840" SecNone gw.
Definition accepted : Downstream :=
  match accept default_limits false (Some (Ok (MsgHello hello))) with
  | HelloOk _ d => d
  | HelloFailed _ _ => mkDownstream 0 (0, 0, 0) [] 0 0 0 0 false None "" 0 [] None
  end.
Definition arrived : Connection := new_connection 1 hmi accepted channel 0.

Definition opens : Turn := Polled (Arrived (Some (Ok (MsgChunk "OFBasihmi")))).
Definition writes : Turn := Polled (Arrived (Some (Ok (MsgChunk "MFwrite")))).
Definition turned (turn : Turn) (cn : Connection) := exec (plc_world server) (on_turn plc turn cn) (ToyRelay.shared true).
Definition open_connection : Connection := default arrived (default None (turned opens arrived).1.2).
Definition writing : Connection := default arrived (default None (turned writes open_connection).1.2).
Definition greeting := exec (plc_world server) (record_event plc hmi ClientConnected) (ToyRelay.shared true).
Definition the_write : Pending :=
  match cn_pending writing with p :: _ => p | [] => mkPending false 0 ToyRelay.ctx ToyRelay.write end.
Definition first_log : list (label Shared) := (greeting.1.1 ++ (turned opens arrived).1.1) ++ (turned writes open_connection).1.1.
Definition busy : Life := mkLife Selecting writing [launch the_write] [] first_log.
Example a_write_is_pending :
  (fun p => (p_audited p, p_message p)) <$> cn_pending writing = [(true, ToyRelay.write)].
Proof. vm_compute. reflexivity. Qed.

Lemma lives_rtc t x y : lives t x → rtc (life_step t) x y → lives t y.
Proof. intros Hx Hs. induction Hs as [|x x1 y Hstep _ IH]; [done|]. apply IH. by eapply lives_next. Qed.

Lemma greeting_runs : runs (record_event plc hmi ClientConnected) greeting.1.1 (Ret ()).
Proof. apply (exec_returns (plc_world server) _ (ToyRelay.shared true)). vm_compute. reflexivity. Qed.
Lemma turned_runs turn cn :
  match (turned turn cn).1.2 with Some (Some _) => true | _ => false end = true →
  runs (on_turn plc turn cn) (turned turn cn).1.1 (Ret (Some (default arrived (default None (turned turn cn).1.2)))).
Proof.
  pose proof (exec_runs (plc_world server) (on_turn plc turn cn) (ToyRelay.shared true)) as Hr. unfold turned.
  destruct (exec _ _ _) as [[ls o] s]. cbn [fst snd] in *. by destruct o as [[c|]|].
Qed.
Lemma opens_runs : runs (on_turn plc opens arrived) (turned opens arrived).1.1 (Ret (Some open_connection)).
Proof. apply turned_runs. vm_compute. reflexivity. Qed.
Lemma writes_runs : runs (on_turn plc writes open_connection) (turned writes open_connection).1.1 (Ret (Some writing)).
Proof. apply turned_runs. vm_compute. reflexivity. Qed.
Lemma length_one {A} (l : list A) (d : A) : length l = 1%nat → l = [match l with x :: _ => x | [] => d end].
Proof. by destruct l as [|? []]. Qed.
Lemma writing_pending : cn_pending writing = [the_write].
Proof. apply length_one. vm_compute. reflexivity. Qed.
Lemma arrived_accepted : ∃ ack, accept default_limits false (Some (Ok (MsgHello hello))) = HelloOk ack accepted.
Proof.
  assert (Hok : match accept default_limits false (Some (Ok (MsgHello hello))) with HelloOk _ _ => true | _ => false end = true)
    by (vm_compute; reflexivity).
  unfold accepted. destruct (accept _ _ _) as [told st|ack d]; [done|]. by exists ack.
Qed.

Lemma born_lives : lives plc (born plc arrived).
Proof. destruct arrived_accepted as [ack Hack]. exact (lives_born plc _ _ _ _ accepted 1 hmi channel 0 Hack). Qed.
Lemma busy_reached : rtc (life_step plc) (born plc arrived) busy.
Proof.
  etrans; [exact (enters_all plc arrived [] [] [] _ _ _ greeting_runs)|].
  eapply rtc_l; [apply ls_entered|]. eapply rtc_l; [exact (ls_turn plc _ _ _ _ opens ltac:(done))|].
  etrans; [exact (turns_all plc arrived [] [] _ _ _ _ opens_runs)|].
  eapply rtc_l; [apply ls_turned|].
  assert (Hnone : cn_pending open_connection = []) by (vm_compute; reflexivity). rewrite Hnone.
  eapply rtc_l; [exact (ls_turn plc _ _ _ _ writes ltac:(done))|].
  etrans; [exact (turns_all plc open_connection [] [] _ _ _ _ writes_runs)|].
  eapply rtc_l; [apply ls_turned|]. rewrite writing_pending. constructor.
Qed.
Lemma busy_lives : lives plc busy.
Proof. exact (lives_rtc plc _ _ born_lives busy_reached). Qed.

(** The connection ends while the server has the write. *)
Definition served := exec (plc_world server) (forward (p_ctx the_write) ToyRelay.write) (ToyRelay.shared true).
Definition good : ResponseMessage := RsWrite (Status 0) (Some [Status 0; Status 0]).
Lemma served_runs : runs (forward (p_ctx the_write) ToyRelay.write) served.1.1 (Ret good).
Proof. apply (exec_returns (plc_world server) _ (ToyRelay.shared true)). vm_compute. reflexivity. Qed.
Definition parted := exec (plc_world server) (disconnect plc false writing) (ToyRelay.shared true).
Lemma parted_runs : runs (disconnect plc false writing) parted.1.1 (Ret ()).
Proof. apply (exec_returns (plc_world server) _ (ToyRelay.shared true)). vm_compute. reflexivity. Qed.
Definition served_flight : Flight := mkFlight the_write served.1.1 (Ret good).
Definition over : Life :=
  mkLife Left writing [] [(served_flight, Answered good)] ((first_log ++ served.1.1) ++ parted.1.1).

Lemma over_reached : rtc (life_step plc) busy over.
Proof.
  eapply rtc_l; [exact (ls_turn plc _ _ _ _ (Polled (Flushed false)) ltac:(done))|]. eapply rtc_l; [apply ls_ends|]. unfold drain.
  assert (Hf : List.filter is_seen_through [launch the_write] = [launch the_write]) by reflexivity.
  assert (Hn : List.filter (fun f => negb (is_seen_through f)) [launch the_write] = []) by reflexivity.
  rewrite Hf, Hn. etrans; [exact (flies_all plc Draining _ _ _ _ _ _ _ _ I served_runs)|].
  eapply rtc_l; [exact (ls_finished plc Draining _ [served_flight] _ _ 0 served_flight good (or_introl eq_refl) eq_refl eq_refl)|].
  eapply rtc_l; [exact (ls_drained plc Draining false _ _ _ (or_introl eq_refl))|].
  etrans; [exact (leaves_all plc writing [] _ _ _ _ _ parted_runs)|]. apply rtc_once, ls_left.
Qed.


(** When the value from before the write cannot be shown, its task panics. Once
    the client is gone nothing catches that: the write was sent, but its outcome
    is not recorded, the client's end neither, and it stays listed. *)
Definition old_value : DataValue := mkDataValue (Some (VExtensionObject (EoBody "i=887" ("x" +:+ repeated 2100 "é")))) None None None.
Definition unshowable (r : RequestMessage) : result StatusCode ResponseMessage :=
  match r with
  | RqRead _ (Some l) => Ok (RsRead (Status 0) (Some ((fun _ => old_value) <$> l)))
  | r => server r
  end.
Definition doomed := exec (plc_world unshowable) (forward (p_ctx the_write) ToyRelay.write) (ToyRelay.shared true).
Lemma doomed_runs : runs (forward (p_ctx the_write) ToyRelay.write) doomed.1.1 Panic.
Proof.
  pose proof (exec_runs (plc_world unshowable) (forward (p_ctx the_write) ToyRelay.write) (ToyRelay.shared true)) as Hr.
  assert (Hn : match doomed.1.2 with Some _ => false | None => true end = true) by (vm_compute; reflexivity).
  unfold doomed in *. destruct (exec _ _ _) as [[ls o] s]. cbn [fst snd] in *. by destruct o.
Qed.
Definition lost : Life := mkLife Lost writing [] [(mkFlight the_write doomed.1.1 Panic, Panicked)] (first_log ++ doomed.1.1).
Lemma lost_reached : rtc (life_step plc) busy lost.
Proof.
  eapply rtc_l; [exact (ls_turn plc _ _ _ _ (Polled (Flushed false)) ltac:(done))|]. eapply rtc_l; [apply ls_ends|]. unfold drain.
  assert (Hf : List.filter is_seen_through [launch the_write] = [launch the_write]) by reflexivity.
  assert (Hn : List.filter (fun f => negb (is_seen_through f)) [launch the_write] = []) by reflexivity.
  rewrite Hf, Hn. etrans; [exact (flies_all plc Draining _ _ _ _ _ _ _ _ I doomed_runs)|].
  apply rtc_once. exact (ls_lost plc Draining _ [mkFlight the_write doomed.1.1 Panic] _ _ 0 _ (or_introl eq_refl) eq_refl eq_refl).
Qed.
Example lost_without_record :
  lives plc lost ∧ existsb (fun l => match l with LSubmit (RqWrite _ _) _ => true | _ => false end) (li_log lost) = true ∧
  (fun e => kind (event e)) <$> recorded (li_log lost) = ["client_connected"; "secure_channel_opened"; "change_intent"].
Proof. split; [exact (lives_rtc plc busy lost busy_lives lost_reached)|]. by split; vm_compute. Qed.
End LifetimeWitnesses.
