(* ===== verification/Browser.v ===== *)
(** The sessions the web UI's browser keeps on targets
    ([src/src/web/browser.rs]): one per UI user and target. The OPC UA session
    itself is the client library's; an entry is what the gateway keeps of it. *)

From S2P Require Import Prelude Net Config Event Opc Endpoints.

(** [BROWSER_IDLE] in nanoseconds; the source calls it [IDLE_TIMEOUT]. *)
Definition IDLE_TIMEOUT : Z := 600 * 1000000000.

(** An entry; [b_id] tells sessions apart. *)
Record Entry : Type := mkEntry {
  b_id : Z;
  b_last_used : Z;
  b_user : string;
  b_target : string;
}.

Abbreviation BrowserSessions := (gmap (string * string) Entry).

Definition elapsed (now since : Z) : Z := Z.max 0 (now - since).

(** The user's live session on the target; one whose event loop ended is
    dropped. *)
Definition browser_get (finished : Entry → bool) (now : Z) (user target : string) (m : BrowserSessions)
    : option Entry * BrowserSessions :=
  match m !! (user, target) with
  | None => (None, m)
  | Some e =>
      if finished e then (None, base.delete (user, target) m)
      else let e := mkEntry (b_id e) now (b_user e) (b_target e) in
           (Some e, <[(user, target) := e]> m)
  end.

(** The entries with a key or value to close, taken out of the map. *)
Definition take_where (p : (string * string) * Entry → Prop) `{∀ x, Decision (p x)} (m : BrowserSessions)
    : list Entry * BrowserSessions :=
  ((map_to_list (filter p m)).*2, filter (fun x => ¬ p x) m).

Definition take_user (user : string) : BrowserSessions → list Entry * BrowserSessions :=
  take_where (fun x => x.1.1 = user).
Definition take_target (target : string) : BrowserSessions → list Entry * BrowserSessions :=
  take_where (fun x => x.1.2 = target).
Definition take_all (m : BrowserSessions) : list Entry * BrowserSessions := ((map_to_list m).*2, ∅).
Definition take_idle (now : Z) : BrowserSessions → list Entry * BrowserSessions :=
  take_where (fun x => IDLE_TIMEOUT < elapsed now (b_last_used x.2)).

Definition browser_take (user target : string) (m : BrowserSessions) : option Entry * BrowserSessions :=
  (m !! (user, target), base.delete (user, target) m).

(** A new session, and the one it replaces. *)
Definition browser_insert (now id : Z) (user target : string) (m : BrowserSessions)
    : option Entry * BrowserSessions :=
  (m !! (user, target), <[(user, target) := mkEntry id now user target]> m).

(** Who a browser session acts as, in the trail. *)
Definition browser_client (ui_user : string) : ClientContext :=
  mkClientContext "web-ui" None (Some "Gateway web browser") None
    (Some (UserName ("ui:" +:+ ui_user))) None.

Section Pick.
Context `{Opc}.

(** The token can be used over a channel with the policy: a password only
    when the channel or the token's own policy encrypts it. *)
Definition token_fits (p : Policy) (token : UserTokenType) (t : UserTokenPolicy) : bool :=
  bool_decide (token_type t = token) && is_relayable_token t &&
  (negb (bool_decide (token = TokenUserName)) || negb (bool_decide (p = PolicyNone)) ||
   negb (bool_decide (policy_of_uri (token_security_policy_uri t) = PolicyNone) ||
         bool_decide (policy_of_uri (token_security_policy_uri t) = PolicyUnknown))).

Definition candidate (token : UserTokenType) (e : EndpointDescription) : bool :=
  negb (bool_decide (ep_policy e = PolicyUnknown)) && policy_supported (ep_policy e) &&
  existsb (token_fits (ep_policy e) token) (default [] (user_identity_tokens e)).

(** [Reverse((security_of(e), e.security_level))] *)
Definition safer (a b : EndpointDescription) : bool :=
  let ra := MinSecurity_rank (security_of a) in
  let rb := MinSecurity_rank (security_of b) in
  (rb <? ra) || (rb =? ra) && (security_level b <=? security_level a).

(** The most secure endpoint for the login type. *)
Definition pick_endpoint (endpoints : list EndpointDescription) (token : UserTokenType)
    : option EndpointDescription :=
  head (sort_stable safer (List.filter (candidate token) endpoints)).

Lemma safer_total a b : safer a b = true ∨ safer b a = true.
Proof. unfold safer. rewrite !orb_true_iff, !andb_true_iff, !Z.ltb_lt, !Z.eqb_eq, !Z.leb_le. lia. Qed.
Lemma safer_trans a b c : safer a b = true → safer b c = true → safer a c = true.
Proof. unfold safer. rewrite !orb_true_iff, !andb_true_iff, !Z.ltb_lt, !Z.eqb_eq, !Z.leb_le. lia. Qed.

End Pick.

(** ** Facts *)
Lemma take_where_gone p `{∀ x, Decision (p x)} (m : BrowserSessions) k e :
  (take_where p m).2 !! k = Some e ↔ m !! k = Some e ∧ ¬ p (k, e).
Proof. unfold take_where. simpl. by rewrite map_lookup_filter_Some. Qed.

Lemma take_where_taken p `{∀ x, Decision (p x)} (m : BrowserSessions) e :
  e ∈ (take_where p m).1 ↔ ∃ k, m !! k = Some e ∧ p (k, e).
Proof.
  unfold take_where. simpl. rewrite list_elem_of_fmap. split.
  - intros ([k x] & -> & Hin). apply elem_of_map_to_list, map_lookup_filter_Some in Hin. eauto.
  - intros (k & Hk & Hp). exists (k, e). split; [done|].
    by apply elem_of_map_to_list, map_lookup_filter_Some.
Qed.

Section BrowserWitness.
Import ToyOpc.

Definition plain : EndpointDescription :=
  mkEndpointDescription "opc.tcp://plc" (mkApplicationDescription "urn:plc" "" "PLC" true None) "plc"
    ModeNone "None" (Some [mkUserTokenPolicy "pw" TokenUserName "Basic256Sha256"]) "" 0.

End BrowserWitness.
