(* ===== verification/Users.v ===== *)
(** Web UI users and API tokens ([src/src/users.rs]).

    The tables of [gateway.db]: the users by name (their primary key), the
    tokens in the order they were inserted. [io k] says whether the [k]-th SQL
    statement of an operation succeeds; a failing statement changes nothing.
    Argon2 is [UserEnv]; salts, token secrets and the clock's text are
    arguments. *)

From S2P Require Import Prelude Event Store Config.

Class UserEnv : Type := {
  (** [Argon2::hash_password(password, salt)] *)
  argon2_hash : string → string → option string;
  (** [PasswordHash::new(stored)] and [verify_password] *)
  argon2_ok : string → string → bool;
}.

(** ** Roles *)
Inductive Role : Type := Auditor | Operator | Admin.
#[export] Instance Role_eq_dec : EqDecision Role.
Proof. solve_decision. Defined.

(** The derived order of the variants. *)
Definition role_rank (r : Role) : Z := match r with Auditor => 0 | Operator => 1 | Admin => 2 end.

Definition role_str (r : Role) : string :=
  match r with Auditor => "auditor" | Operator => "operator" | Admin => "admin" end.

Definition role_parse (s : string) : result string Role :=
  if String.eqb s "auditor" then Ok Auditor
  else if String.eqb s "operator" then Ok Operator
  else if String.eqb s "admin" then Ok Admin
  else Err ("unknown role '" +:+ s +:+ "' (use admin, operator or auditor)").

(** ** Rows *)
Record UserRow : Type := mkUserRow {
  u_hash : string;
  u_role : string;
  u_created_at : string;
  u_epoch : Z;
  u_must_change : bool;
}.
#[export] Instance UserRow_eq_dec : EqDecision UserRow.
Proof. solve_decision. Defined.

Record TokenRow : Type := mkTokenRow {
  t_id : string;
  t_user : string;
  t_name : string;
  t_hash : string;
  t_created_at : string;
  t_last_used : option string;
  t_scopes : string;
}.

Record UserDb : Type := mkUserDb {
  users : gmap string UserRow;
  tokens : list TokenRow;
}.

Definition set_users (m : gmap string UserRow) (db : UserDb) : UserDb := mkUserDb m (tokens db).
Definition set_tokens (l : list TokenRow) (db : UserDb) : UserDb := mkUserDb (users db) l.

(** ** What callers see *)
Record User : Type := mkUser {
  username : string;
  role : Role;
  created_at : string;
  must_change_password : bool;
}.

Record SessionState : Type := mkSessionState {
  ss_role : Role;
  ss_epoch : Z;
  ss_must_change : bool;
}.

Record ApiToken : Type := mkApiToken {
  at_id : string;
  at_name : string;
  at_scopes : list string;
  at_created_at : string;
  at_last_used : option string;
}.

Definition MIN_PASSWORD_LENGTH : nat := 8.

(** The characters of a user name: an ASCII letter or digit, or one of [._-@]. *)
Definition name_char (a : ascii) : bool :=
  is_ascii_alphanumeric a || has_byte a "._-@".

Definition validate (username password : string) : result string unit :=
  bail_if String.eqb username EmptyString || (64 <? String.length username)%nat ||
          negb (string_all name_char username)
    with "user names use letters, digits and . _ - @ (max. 64)";
  bail_if (chars_count password <? MIN_PASSWORD_LENGTH)%nat
    with "passwords need at least 8 characters";
  Ok ().

(** The stored scopes that still exist. *)
Definition split_scopes (s : string) : list string :=
  List.filter (fun x => bool_decide (x ∈ MCP_SCOPES)) (split ","%char s).

(** Compares without stopping at the first difference. *)
Fixpoint differences (a b : string) : N :=
  match a, b with
  | String x a, String y b => N.lor (N.lxor (N_of_ascii x) (N_of_ascii y)) (differences a b)
  | _, _ => 0%N
  end.
Definition constant_time_eq (a b : string) : bool :=
  (String.length a =? String.length b)%nat && (differences a b =? 0)%N.

(** [random_password], from the 20 random bytes it draws. *)
Definition ALPHABET : string := "abcdefghijkmnpqrstuvwxyzABCDEFGHJKLMNPQRSTUVWXYZ23456789".
Definition random_password (bytes : list N) : string :=
  foldr (fun b s => match String.get (N.to_nat (b mod N.of_nat (String.length ALPHABET))) ALPHABET with
                    | Some a => String a s
                    | None => s
                    end) EmptyString bytes.

Section Users.
Context `{StoreEnv} `{UserEnv}.

Definition hash (salt password : string) : result string string :=
  of_option "hashing password" (argon2_hash salt password).

Definition token_hash (secret : string) : string := sha256_hex secret.

Definition find_user (name : string) (db : UserDb) : option UserRow := users db !! name.

(** ** Users *)
Definition count (io : io_oracle) (db : UserDb) : result string Z :=
  if io 0%nat then Ok (Z.of_nat (size (users db))) else Err "SELECT COUNT failed".

(** [INSERT OR IGNORE INTO users] *)
Definition insert_user (io : io_oracle) (name : string) (row : UserRow) (db : UserDb)
    : result string unit * UserDb :=
  if negb (io 0%nat) then (Err "INSERT INTO users failed", db)
  else match find_user name db with
  | Some _ => (Err ("user '" +:+ name +:+ "' already exists"), db)
  | None => (Ok (), set_users (<[name := row]> (users db)) db)
  end.

Definition create_with (io : io_oracle) (salt now name password : string) (r : Role) (must : bool)
    (db : UserDb) : result string unit * UserDb :=
  match (_ ← validate name password; hash salt password) with
  | Err e => (Err e, db)
  | Ok h => insert_user io name (mkUserRow h (role_str r) now 0 must) db
  end.

Definition create (io : io_oracle) (salt now name password : string) (r : Role) (db : UserDb)
    : result string unit * UserDb :=
  create_with io salt now name password r false db.

Definition create_initial_admin (io : io_oracle) (salt now password : string) (db : UserDb)
    : result string unit * UserDb :=
  match (_ ← validate "admin" password; hash salt password) with
  | Err e => (Err e, db)
  | Ok h => insert_user io "admin" (mkUserRow h (role_str Admin) now 0 true) db
  end.

(** One hash verification, for a user that exists or not: [dummy] is the hash
    of a password nobody has. *)
Definition verify (io : io_oracle) (dummy name password : string) (db : UserDb)
    : result string (option User) :=
  if negb (io 0%nat) then Err "SELECT failed"
  else
    let row := find_user name db in
    let ok := argon2_ok (from_option u_hash dummy row) password in
    match row with
    | Some row =>
        if ok then r ← role_parse (u_role row);
                   Ok (Some (mkUser name r (u_created_at row) (u_must_change row)))
        else Ok None
    | None => Ok None
    end.

(** The new password's hash and the epoch the user had; or why it is refused. *)
Definition check_own_password (io : io_oracle) (salt name : string) (current : option string)
    (new : string) (db : UserDb) : result string (string * Z) :=
  _ ← validate name new;
  bail_if negb (io 0%nat) with "SELECT failed";
  row ← of_option ("no user '" +:+ name +:+ "'") (find_user name db);
  bail_if (match current with Some c => negb (argon2_ok (u_hash row) c) | None => false end)
    with "the current password is wrong";
  bail_if (match current with None => negb (u_must_change row) | Some _ => false end)
    with "the current password is needed";
  bail_if argon2_ok (u_hash row) new with "choose a password other than the current one";
  h ← hash salt new;
  Ok (h, u_epoch row).

(** The [UPDATE], on the database as another process may have left it. *)
Definition write_own_password (io : io_oracle) (name h : string) (epoch : Z) (db : UserDb)
    : result string unit * UserDb :=
  if negb (io 1%nat) then (Err "UPDATE failed", db)
  else match find_user name db with
  | Some row =>
      if u_epoch row =? epoch then
        (Ok (), set_users (<[name := mkUserRow h (u_role row) (u_created_at row) (u_epoch row + 1)
                                       false]> (users db)) db)
      else (Err "the password was changed meanwhile; log in again", db)
  | None => (Err "the password was changed meanwhile; log in again", db)
  end.

Definition change_own_password (io : io_oracle) (salt name : string) (current : option string)
    (new : string) (db : UserDb) : result string unit * UserDb :=
  match check_own_password io salt name current new db with
  | Err e => (Err e, db)
  | Ok (h, epoch) => write_own_password io name h epoch db
  end.

Definition session_state (io : io_oracle) (name : string) (db : UserDb)
    : result string (option SessionState) :=
  bail_if negb (io 0%nat) with "SELECT failed";
  match find_user name db with
  | None => Ok None
  | Some row => r ← role_parse (u_role row); Ok (Some (mkSessionState r (u_epoch row) (u_must_change row)))
  end.

Definition list_users (io : io_oracle) (db : UserDb) : result string (list User) :=
  bail_if negb (io 0%nat) with "SELECT failed";
  collect ((fun name =>
    row ← of_option "no row" (find_user name db);
    r ← role_parse (u_role row);
    Ok (mkUser name r (u_created_at row) (u_must_change row))) <$> sorted_keys (users db)).

(** How many admins there are besides a user. *)
Definition other_admins (name : string) (db : UserDb) : nat :=
  size (filter (fun x : string * UserRow => u_role x.2 = "admin" ∧ x.1 ≠ name) (users db)).

(** Refuses changes that would leave nobody able to administer the gateway;
    its two queries are the statements [k] and [k + 1]. *)
Definition ensure_admin_remains (io : io_oracle) (k : nat) (name : string) (new_role : option Role)
    (db : UserDb) : result string unit :=
  if bool_decide (new_role = Some Admin) then Ok ()
  else
    bail_if negb (io k && io (S k)) with "SELECT failed";
    bail_if (match find_user name db with
             | Some row => String.eqb (u_role row) "admin"
             | None => false
             end) && (other_admins name db =? 0)%nat
      with "'" +:+ name +:+ "' is the last admin";
    Ok ().

(** *** The transaction of [update]: the changes made so far, and the tables. *)
Definition alter_user (f : UserRow → UserRow) (name : string) (db : UserDb) : UserDb :=
  set_users (alter f name (users db)) db.

Definition with_role (r : string) (row : UserRow) : UserRow :=
  mkUserRow (u_hash row) r (u_created_at row) (u_epoch row) (u_must_change row).
Definition with_hash (h : string) (must : bool) (row : UserRow) : UserRow :=
  mkUserRow h (u_role row) (u_created_at row) (u_epoch row) must.
Definition next_epoch (row : UserRow) : UserRow :=
  mkUserRow (u_hash row) (u_role row) (u_created_at row) (u_epoch row + 1) (u_must_change row).
Definition without_scopes (t : TokenRow) : TokenRow :=
  mkTokenRow (t_id t) (t_user t) (t_name t) (t_hash t) (t_created_at t) (t_last_used t) EmptyString.

Definition scoped (name : string) (t : TokenRow) : bool :=
  String.eqb (t_user t) name && negb (String.eqb (t_scopes t) EmptyString).

Definition update_role (io : io_oracle) (name : string) (r : Role) (db : UserDb)
    : result string (list string * UserDb) :=
  _ ← ensure_admin_remains io 2 name (Some r) db;
  bail_if negb (io 4%nat) with "UPDATE users failed";
  let db' := alter_user (with_role (role_str r)) name db in
  let changes := ["role " +:+ role_str r] in
  if role_rank r <? role_rank Admin then
    bail_if negb (io 5%nat) with "UPDATE api_tokens failed";
    let n := length (List.filter (scoped name) (tokens db')) in
    Ok (changes ++ (if (0 <? n)%nat then [pretty (Z.of_nat n) +:+ " API token(s) now read only"] else []),
        set_tokens ((fun t => if scoped name t then without_scopes t else t) <$> tokens db') db')
  else Ok (changes, db').

Definition update_hash (io : io_oracle) (name h : string) (must : bool) (changes : list string)
    (db : UserDb) : result string (list string * UserDb) :=
  bail_if negb (io 6%nat) with "UPDATE users failed";
  let db := alter_user (with_hash h must) name db in
  let changes := changes ++ ["password"] in
  if must then
    bail_if negb (io 7%nat) with "DELETE FROM api_tokens failed";
    let n := length (List.filter (fun t => String.eqb (t_user t) name) (tokens db)) in
    Ok (changes ++ (if (0 <? n)%nat then [pretty (Z.of_nat n) +:+ " API token(s) deleted"] else []),
        set_tokens (List.filter (fun t => negb (String.eqb (t_user t) name)) (tokens db)) db)
  else Ok (changes, db).

Definition update_tx (io : io_oracle) (name : string) (r : option Role) (h : option string)
    (must : bool) (db : UserDb) : result string (list string * UserDb) :=
  bail_if negb (io 0%nat && io 1%nat) with "BEGIN failed";
  bail_if bool_decide (find_user name db = None) with "no user '" +:+ name +:+ "'";
  '(changes, db) ← match r with Some r => update_role io name r db | None => Ok ([], db) end;
  '(changes, db) ← match h with Some h => update_hash io name h must changes db | None => Ok (changes, db) end;
  bail_if negb (io 8%nat) with "UPDATE users failed";
  bail_if negb (io 9%nat) with "COMMIT failed";
  Ok (changes, alter_user next_epoch name db).

Definition update (io : io_oracle) (salt name : string) (r : option Role) (password : option string)
    (must : bool) (db : UserDb) : result string (list string) * UserDb :=
  if bool_decide (r = None ∧ password = None) then (Err "nothing to change", db)
  else match (match password with
              | Some p => _ ← validate name p; h ← hash salt p; Ok (Some h)
              | None => Ok None
              end) with
  | Err e => (Err e, db)
  | Ok h => match update_tx io name r h must db with
            | Err e => (Err e, db)
            | Ok (changes, db') => (Ok changes, db')
            end
  end.

Definition set_password (io : io_oracle) (salt name password : string) (db : UserDb)
    : result string unit * UserDb :=
  let (r, db) := update io salt name None (Some password) false db in
  (match r with Ok _ => Ok () | Err e => Err e end, db).

Definition set_role (io : io_oracle) (salt name : string) (r : Role) (db : UserDb)
    : result string unit * UserDb :=
  let (r, db) := update io salt name (Some r) None false db in
  (match r with Ok _ => Ok () | Err e => Err e end, db).

(** The user's tokens are deleted by a statement of its own. *)
Definition delete (io : io_oracle) (name : string) (db : UserDb) : result string unit * UserDb :=
  match ensure_admin_remains io 0 name None db with
  | Err e => (Err e, db)
  | Ok _ =>
      if negb (io 2%nat) then (Err "DELETE FROM users failed", db)
      else match find_user name db with
      | None => (Err ("no user '" +:+ name +:+ "'"), db)
      | Some _ =>
          let db := set_users (base.delete name (users db)) db in
          if negb (io 3%nat) then (Err "DELETE FROM api_tokens failed", db)
          else (Ok (), set_tokens (List.filter (fun t => negb (String.eqb (t_user t) name)) (tokens db)) db)
      end
  end.

(** ** API tokens *)
Definition api_token (t : TokenRow) : ApiToken :=
  mkApiToken (t_id t) (t_name t) (split_scopes (t_scopes t)) (t_created_at t) (t_last_used t).

(** [id] and [random] are the hex digits of 6 and 32 random bytes. The token
    with its secret. *)
Definition create_token (io : io_oracle) (id random now name label : string) (scopes : list string)
    (db : UserDb) : result string (ApiToken * string) * UserDb :=
  let label := trim label in
  if String.eqb label EmptyString || (64 <? chars_count label)%nat
  then (Err "a token needs a name of 1 to 64 characters", db)
  else match List.find (fun s => negb (bool_decide (s ∈ MCP_SCOPES))) scopes with
  | Some bad => (Err ("unknown scope '" +:+ bad +:+ "'"), db)
  | None =>
      let scopes := dedup (merge_sort str_le scopes) in
      let secret := "gwt_" +:+ id +:+ "_" +:+ random in
      if negb (io 0%nat) then (Err "SELECT failed", db)
      else if bool_decide (find_user name db = None) then (Err ("no user '" +:+ name +:+ "'"), db)
      else if negb (io 1%nat) || bool_decide (id ∈ t_id <$> tokens db)
      then (Err "INSERT INTO api_tokens failed", db)
      else (Ok (mkApiToken id label scopes now None, secret),
            set_tokens (tokens db ++ [mkTokenRow id name label (token_hash secret) now None
                                        (join "," scopes)]) db)
  end.

(** [ORDER BY created_at] *)
Definition created_before (a b : TokenRow) : Prop := str_le (t_created_at a) (t_created_at b).
#[export] Instance created_before_dec : RelDecision created_before.
Proof. intros a b. unfold created_before. apply _. Defined.

Definition tokens_of (io : io_oracle) (name : string) (db : UserDb) : result string (list ApiToken) :=
  bail_if negb (io 0%nat) with "SELECT failed";
  Ok (api_token <$> merge_sort created_before
        (List.filter (fun t => String.eqb (t_user t) name) (tokens db))).

(** Every user's tokens. *)
Definition all_tokens (io : nat → io_oracle) (db : UserDb) : result string (list (string * ApiToken)) :=
  us ← list_users (io 0%nat) db;
  let of_user (i : nat) (u : User) : result string (list (string * ApiToken)) :=
    ts ← tokens_of (io (S i)) (username u) db; Ok (List.map (pair (username u)) ts) in
  lists ← collect (imap of_user us);
  Ok (List.concat lists).

Definition delete_token (io : io_oracle) (name id : string) (db : UserDb) : result string string * UserDb :=
  if negb (io 0%nat) then (Err "SELECT failed", db)
  else match List.find (fun t => String.eqb (t_id t) id && String.eqb (t_user t) name) (tokens db) with
  | None => (Err "no such token", db)
  | Some t =>
      if negb (io 1%nat) then (Err "DELETE failed", db)
      else (Ok (t_name t), set_tokens (List.filter (fun t => negb (String.eqb (t_id t) id)) (tokens db)) db)
  end.

Definition note_use (id now : string) (t : TokenRow) : TokenRow :=
  if String.eqb (t_id t) id
  then mkTokenRow (t_id t) (t_user t) (t_name t) (t_hash t) (t_created_at t) (Some now) (t_scopes t)
  else t.

(** The user a token belongs to and its scopes, if it is valid. *)
Definition verify_token (io : io_oracle) (now secret : string) (db : UserDb)
    : result string (option (string * list string)) * UserDb :=
  match (rest ← strip_prefix "gwt_" secret; split_once "_"%char rest) with
  | None => (Ok None, db)
  | Some (id, _) =>
      if negb (io 0%nat) then (Err "SELECT failed", db)
      else match List.find (fun t => String.eqb (t_id t) id) (tokens db) with
      | None => (Ok None, db)
      | Some t =>
          if negb (constant_time_eq (t_hash t) (token_hash secret)) then (Ok None, db)
          else if negb (io 1%nat) then (Err "UPDATE api_tokens failed", db)
          else (Ok (Some (t_user t, split_scopes (t_scopes t))),
                set_tokens (note_use id now <$> tokens db) db)
      end
  end.
End Users.

(** ** Facts *)
Lemma role_parse_str r : role_parse (role_str r) = Ok r.
Proof. by destruct r. Qed.

Lemma differences_zero a b :
  String.length a = String.length b → (differences a b = 0%N ↔ a = b).
Proof.
  revert b. induction a as [|x a IH]; intros [|y b] Hl; simpl in *; try done.
  rewrite N.lor_eq_0_iff, N.lxor_eq_0_iff, IH by lia. split.
  - intros [Hx ->]. f_equal. by rewrite <- (ascii_N_embedding x), Hx, ascii_N_embedding.
  - by intros [= -> ->].
Qed.

(** The comparison that takes the same time wherever two secrets differ is
    equality. *)
Lemma constant_time_eq_spec a b : constant_time_eq a b = true ↔ a = b.
Proof.
  unfold constant_time_eq. rewrite andb_true_iff, Nat.eqb_eq, N.eqb_eq. split.
  - intros [Hl Hd]. by apply differences_zero.
  - intros ->. split; [done|]. by apply differences_zero.
Qed.

Section UserFacts.
Context `{StoreEnv} `{UserEnv}.

Lemma ensure_admin_Ok io k name r db :
  ensure_admin_remains io k name r db = Ok () →
  r = Some Admin ∨ other_admins name db ≠ 0%nat ∨
  ∀ row, users db !! name = Some row → u_role row ≠ "admin".
Proof.
  unfold ensure_admin_remains, find_user. case_bool_decide as Ha; [by left|].
  intros [_ [Hb _]%bail_Ok]%bail_Ok. right. apply andb_false_iff in Hb as [Hb|Hb].
  - right. intros row Hrow. rewrite Hrow in Hb. by apply String.eqb_neq.
  - left. by apply Nat.eqb_neq.
Qed.

(** What an update makes of the user and of the tokens. *)
Definition updated (r : option Role) (h : option string) (must : bool) (row : UserRow) : UserRow :=
  let row := match r with Some r => with_role (role_str r) row | None => row end in
  let row := match h with Some h => with_hash h must row | None => row end in
  next_epoch row.

Definition demotes (r : option Role) : bool :=
  match r with Some r => role_rank r <? role_rank Admin | None => false end.

Definition updated_tokens (name : string) (r : option Role) (h : option string) (must : bool)
    (l : list TokenRow) : list TokenRow :=
  let l := if demotes r then (fun t => if scoped name t then without_scopes t else t) <$> l else l in
  if bool_decide (is_Some h) && must then List.filter (fun t => negb (String.eqb (t_user t) name)) l else l.

Lemma update_role_Ok io name r db changes db' :
  update_role io name r db = Ok (changes, db') →
  ensure_admin_remains io 2 name (Some r) db = Ok () ∧
  db' = mkUserDb (alter (with_role (role_str r)) name (users db))
          (updated_tokens name (Some r) None false (tokens db)).
Proof.
  unfold update_role. intros ([] & He & [_ Hk]%bail_Ok)%result_bind_Ok. split; [done|].
  unfold updated_tokens. simpl. destruct (role_rank r <? 2) eqn:Hr; cbn [role_rank] in Hk; rewrite Hr in Hk.
  - apply bail_Ok in Hk as [_ [= _ <-]]. done.
  - injection Hk as _ <-. done.
Qed.

Lemma update_hash_Ok io name h must ch db changes db' :
  update_hash io name h must ch db = Ok (changes, db') →
  db' = mkUserDb (alter (with_hash h must) name (users db))
          (updated_tokens name None (Some h) must (tokens db)).
Proof.
  unfold update_hash. intros [_ Hk]%bail_Ok. unfold updated_tokens. simpl.
  destruct must; [apply bail_Ok in Hk as [_ [= _ <-]]|injection Hk as _ <-]; done.
Qed.

Lemma alter_chain (f g k : UserRow → UserRow) name row (m : gmap string UserRow) :
  m !! name = Some row →
  alter f name (alter g name (alter k name m)) = <[name := f (g (k row))]> m.
Proof.
  intros Hrow. apply map_eq. intros i. destruct (decide (i = name)) as [->|Hi].
  - by rewrite !lookup_alter_eq, Hrow, lookup_insert_eq.
  - by rewrite !lookup_alter_ne, lookup_insert_ne.
Qed.

Lemma update_tx_Ok io name r h must db changes db' :
  update_tx io name r h must db = Ok (changes, db') →
  ∃ row, users db !! name = Some row ∧
    users db' = <[name := updated r h must row]> (users db) ∧
    tokens db' = updated_tokens name r h must (tokens db) ∧
    (demotes r = true → ensure_admin_remains io 2 name r db = Ok ()).
Proof.
  unfold update_tx. intros [_ [Hf%bool_decide_eq_false Hk]%bail_Ok]%bail_Ok.
  unfold find_user in Hf. destruct (users db !! name) as [row|] eqn:Hrow; [|done]. exists row.
  apply result_bind_Ok in Hk as ([ch1 db1] & H1 & Hk). apply result_bind_Ok in Hk as ([ch2 db2] & H2 & Hk).
  apply bail_Ok in Hk as [_ [_ [= _ <-]]%bail_Ok].
  assert (Hd1 : db1 = mkUserDb (alter (fun row => match r with Some r => with_role (role_str r) row | None => row end)
                         name (users db)) (updated_tokens name r None false (tokens db)) ∧
                (demotes r = true → ensure_admin_remains io 2 name r db = Ok ())).
  { destruct r as [r|].
    - apply update_role_Ok in H1 as [He ->]. by split.
    - injection H1 as _ <-. split; [|done]. destruct db as [us ts]. simpl. f_equal.
      symmetry. by apply alter_id. }
  destruct Hd1 as [-> He]. clear H1.
  destruct h as [h|].
  - apply update_hash_Ok in H2 as ->. split_and!; [done| |by destruct must|done].
    simpl. by rewrite (alter_chain _ _ _ _ row).
  - injection H2 as _ <-. split_and!; [done| |done|done].
    simpl. rewrite <- (alter_id id (alter _ name (users db)) name) by done.
    by rewrite (alter_chain _ _ _ _ row).
Qed.

(** An update that went through: the salted hash of the password, if one was
    given, and the tables. *)
Definition updates (name salt : string) (r : option Role) (password : option string) (must : bool)
    (db db' : UserDb) : Prop :=
  ∃ row h, users db !! name = Some row ∧
    h = (p ← password; argon2_hash salt p) ∧ (is_Some password → is_Some h) ∧
    users db' = <[name := updated r h must row]> (users db) ∧
    tokens db' = updated_tokens name r h must (tokens db) ∧
    (demotes r = true → u_role row = "admin" → other_admins name db ≠ 0%nat).

Lemma update_Ok io salt name r password must db changes db' :
  update io salt name r password must db = (Ok changes, db') →
  updates name salt r password must db db'.
Proof.
  unfold update. case_bool_decide; [done|].
  destruct (match password with Some _ => _ | None => _ end) as [h|e] eqn:Hh; [|done].
  destruct (update_tx _ _ _ _ _ _) as [[ch db1]|e] eqn:Ht; [|done]. intros [= _ <-].
  apply update_tx_Ok in Ht as (row & Hrow & Hu & Htk & He).
  exists row, h. split_and!; try done.
  - destruct password as [p|]; [|by injection Hh as <-].
    apply result_bind_Ok in Hh as (? & _ & Hh). apply result_bind_Ok in Hh as (hx & Hx & [= <-]).
    symmetry. by apply of_option_Ok in Hx.
  - intros [p ->]. apply result_bind_Ok in Hh as (? & _ & Hh). apply result_bind_Ok in Hh as (hx & Hx & [= <-]). done.
  - intros Hd Hadm. specialize (He Hd). apply ensure_admin_Ok in He as [->|[Ho|Hn]]; [done|done|].
    by destruct (Hn row Hrow).
Qed.

(** The tables differ for one user only. *)
Definition only_user (name : string) (db db' : UserDb) : Prop :=
  (∀ other, other ≠ name → users db' !! other = users db !! other) ∧
  (∀ t, t_user t ≠ name → t ∈ tokens db' ↔ t ∈ tokens db).

Lemma only_user_refl name db : only_user name db db.
Proof. by split. Qed.

Lemma set_users_only name row db : only_user name db (set_users (<[name := row]> (users db)) db).
Proof. split; [|done]. intros other Ho. simpl. by rewrite lookup_insert_ne. Qed.

(** Scopes taken away, on another user's tokens and on the user's own. *)
Lemma unscoped_other name t (l : list TokenRow) :
  t_user t ≠ name → t ∈ (fun t => if scoped name t then without_scopes t else t) <$> l ↔ t ∈ l.
Proof.
  intros Ht. rewrite list_elem_of_fmap. split.
  - intros (t' & -> & Hin). destruct (scoped name t') eqn:Hs; [|done].
    unfold scoped in Hs. apply andb_true_iff in Hs as [Hs%String.eqb_eq _]. done.
  - intros Hin. exists t. split; [|done]. unfold scoped. by apply String.eqb_neq in Ht as ->.
Qed.

Lemma unscoped_own name t (l : list TokenRow) :
  t_user t = name → t ∈ (fun t => if scoped name t then without_scopes t else t) <$> l → t_scopes t = EmptyString.
Proof.
  intros Hname (t' & -> & _)%list_elem_of_fmap. destruct (scoped name t') eqn:Hs; [done|].
  unfold scoped in Hs. subst name. rewrite String.eqb_refl in Hs. simpl in Hs.
  by apply negb_false_iff, String.eqb_eq in Hs.
Qed.

Lemma updates_only name salt r password must db db' :
  updates name salt r password must db db' → only_user name db db'.
Proof.
  intros (row & h & _ & _ & _ & Hus & Hts & _). split; rewrite ?Hus, ?Hts.
  - intros other Ho. by rewrite lookup_insert_ne.
  - intros t Ht. unfold updated_tokens. pose proof (unscoped_other name t (tokens db) Ht) as Hmap.
    apply String.eqb_neq in Ht. destruct (bool_decide (is_Some h) && must), (demotes r);
      rewrite ?elem_of_filter_bool, ?Ht; tauto.
Qed.

Lemma update_Err io salt name r password must db e db' :
  update io salt name r password must db = (Err e, db') → db' = db.
Proof.
  unfold update. case_bool_decide; [by intros [= _ <-]|].
  destruct (match password with Some _ => _ | None => _ end) as [h|e']; [|by intros [= _ <-]].
  destruct (update_tx _ _ _ _ _ _) as [[ch db1]|e'']; [done|by intros [= _ <-]].
Qed.

(** Changing a user applies everything or
    nothing: when any step fails the tables are as before. When it succeeds
    the user has the new role and password, a session epoch one higher and the
    mark of a password someone else chose exactly when it is one; a demoted
    user's tokens are read only, a user whose password was reset by an admin
    has none, and no other user or token is touched. The last admin is never
    demoted. *)
Theorem update_all_or_nothing io salt name r password must db :
  match update io salt name r password must db with
  | (Err _, db') => db' = db
  | (Ok _, db') => updates name salt r password must db db' ∧ only_user name db db' ∧
      (demotes r = true → ∀ t, t ∈ tokens db' → t_user t = name → t_scopes t = EmptyString)
  end.
Proof.
  destruct (update io salt name r password must db) as [[changes|e] db'] eqn:Hu; [|by eapply update_Err].
  apply update_Ok in Hu. split_and!; [done|by eapply updates_only|].
  destruct Hu as (row & h & _ & _ & _ & _ & -> & _). intros Hd t. unfold updated_tokens. rewrite Hd.
  intros Hin Hname. apply (unscoped_own name t (tokens db) Hname).
  destruct (bool_decide (is_Some h) && must); [by apply elem_of_filter_bool in Hin as [Hin _]|done].
Qed.

(** ** What can happen to the tables *)
Inductive db_step : UserDb → UserDb → Prop :=
| step_create io salt now name password r must db :
    db_step db (create_with io salt now name password r must db).2
| step_initial io salt now password db :
    db_step db (create_initial_admin io salt now password db).2
| step_own_password io name h epoch db :
    db_step db (write_own_password io name h epoch db).2
| step_update io salt name r password must db :
    db_step db (update io salt name r password must db).2
| step_delete io name db : db_step db (delete io name db).2
| step_create_token io id random now name label scopes db :
    db_step db (create_token io id random now name label scopes db).2
| step_delete_token io name id db : db_step db (delete_token io name id db).2
| step_verify_token io now secret db : db_step db (verify_token io now secret db).2.

Definition has_admin (db : UserDb) : Prop :=
  ∃ name row, users db !! name = Some row ∧ u_role row = "admin".

Lemma other_admin_found name db :
  other_admins name db ≠ 0%nat →
  ∃ other row, other ≠ name ∧ users db !! other = Some row ∧ u_role row = "admin".
Proof.
  unfold other_admins. intros Hs.
  destruct (map_choose (filter (fun x : string * UserRow => u_role x.2 = "admin" ∧ x.1 ≠ name) (users db)))
    as (other & row & Hin).
  - intros Hz. apply Hs. by rewrite Hz, map_size_empty.
  - apply map_lookup_filter_Some in Hin as [Hl [Ha Hn]]. by exists other, row.
Qed.

(** A new user is added, or nothing changes. *)
Lemma insert_user_cases io name row db :
  (insert_user io name row db).2 = db ∨
  users db !! name = None ∧ (insert_user io name row db).2 = set_users (<[name := row]> (users db)) db.
Proof.
  unfold insert_user, find_user. destruct (io 0%nat); [|by left]. simpl.
  destruct (users db !! name) eqn:Hn; [by left|by right].
Qed.

Lemma create_cases io salt now name password r must db :
  (create_with io salt now name password r must db).2 = db ∨
  ∃ row, users db !! name = None ∧
    (create_with io salt now name password r must db).2 = set_users (<[name := row]> (users db)) db.
Proof.
  unfold create_with. destruct (_ ≫= _) as [h|e]; [|by left].
  destruct (insert_user_cases io name (mkUserRow h (role_str r) now 0 must) db) as [->|[? ->]]; eauto.
Qed.

Lemma initial_cases io salt now password db :
  (create_initial_admin io salt now password db).2 = db ∨
  ∃ row, users db !! "admin" = None ∧
    (create_initial_admin io salt now password db).2 = set_users (<["admin" := row]> (users db)) db.
Proof.
  unfold create_initial_admin. destruct (_ ≫= _) as [h|e]; [|by left].
  destruct (insert_user_cases io "admin" (mkUserRow h (role_str Admin) now 0 true) db) as [->|[? ->]]; eauto.
Qed.

Lemma own_password_cases io name h epoch db :
  (write_own_password io name h epoch db).2 = db ∨
  ∃ row, users db !! name = Some row ∧ u_epoch row = epoch ∧
    (write_own_password io name h epoch db).2 =
      set_users (<[name := mkUserRow h (u_role row) (u_created_at row) (u_epoch row + 1) false]> (users db)) db.
Proof.
  unfold write_own_password, find_user. destruct (io 1%nat); [|by left]. simpl.
  destruct (users db !! name) as [row|] eqn:Hn; [|by left].
  destruct (Z.eqb_spec (u_epoch row) epoch); [right; by exists row|by left].
Qed.

Lemma update_cases io salt name r password must db :
  (update io salt name r password must db).2 = db ∨
  updates name salt r password must db (update io salt name r password must db).2.
Proof.
  destruct (update io salt name r password must db) as [[ch|e] db'] eqn:Hu.
  - right. by apply update_Ok in Hu.
  - left. by apply update_Err in Hu.
Qed.

Lemma delete_cases io name db :
  (delete io name db).2 = db ∨
  ensure_admin_remains io 0 name None db = Ok () ∧ is_Some (users db !! name) ∧
    users (delete io name db).2 = base.delete name (users db).
Proof.
  unfold delete, find_user. destruct (ensure_admin_remains io 0 name None db) as [[]|e]; [|by left].
  destruct (io 2%nat); [|by left]. simpl. destruct (users db !! name) eqn:Hn; [|by left].
  right. destruct (io 3%nat); by split_and!.
Qed.

(** The token operations leave the users alone. *)
Lemma create_token_users io id random now name label scopes db :
  users (create_token io id random now name label scopes db).2 = users db.
Proof.
  unfold create_token. destruct (_ || _); [done|]. destruct (List.find _ scopes); [done|].
  destruct (io 0%nat); [|done]. simpl. destruct (bool_decide _); [done|].
  by destruct (_ || _).
Qed.
Lemma delete_token_users io name id db : users (delete_token io name id db).2 = users db.
Proof.
  unfold delete_token. destruct (io 0%nat); [|done]. simpl. destruct (List.find _ _); [|done].
  by destruct (io 1%nat).
Qed.
Lemma verify_token_users io now secret db : users (verify_token io now secret db).2 = users db.
Proof.
  unfold verify_token. destruct (_ ≫= _) as [[id rest]|]; [|done].
  destruct (io 0%nat); [|done]. simpl. destruct (List.find _ _); [|done].
  destruct (constant_time_eq _ _); [|done]. by destruct (io 1%nat).
Qed.

(** *** One user only *)
Lemma create_only io salt now name password r must db :
  only_user name db (create_with io salt now name password r must db).2.
Proof.
  destruct (create_cases io salt now name password r must db) as [->|(row & _ & ->)];
    [apply only_user_refl|apply set_users_only].
Qed.

Lemma own_password_only io name h epoch db : only_user name db (write_own_password io name h epoch db).2.
Proof.
  destruct (own_password_cases io name h epoch db) as [->|(row & _ & _ & ->)];
    [apply only_user_refl|apply set_users_only].
Qed.

Lemma update_only io salt name r password must db : only_user name db (update io salt name r password must db).2.
Proof.
  destruct (update_cases io salt name r password must db) as [->|?]; [apply only_user_refl|by eapply updates_only].
Qed.

Lemma delete_only io name db : only_user name db (delete io name db).2.
Proof.
  unfold delete. destruct (ensure_admin_remains io 0 name None db); [|apply only_user_refl].
  destruct (io 2%nat); [|apply only_user_refl]. simpl. destruct (find_user name db); [|apply only_user_refl].
  split.
  - intros other Ho. destruct (io 3%nat); simpl; by rewrite lookup_delete_ne.
  - intros t Ht. apply String.eqb_neq in Ht. destruct (io 3%nat); simpl; [|done].
    rewrite elem_of_filter_bool, Ht. tauto.
Qed.

Lemma create_token_only io id random now name label scopes db :
  only_user name db (create_token io id random now name label scopes db).2.
Proof.
  split; [by rewrite create_token_users|]. intros t Ht. unfold create_token.
  destruct (_ || _); [done|]. destruct (List.find _ scopes); [done|].
  destruct (io 0%nat); [|done]. simpl. destruct (bool_decide _); [done|]. destruct (_ || _); [done|].
  simpl. rewrite elem_of_app, list_elem_of_singleton. split; [|by left]. intros [?|Hn]; [done|].
  exfalso. apply Ht. by rewrite Hn.
Qed.

(** Token ids are the table's primary key. *)
Definition unique_ids (db : UserDb) : Prop := NoDup (t_id <$> tokens db).

Lemma unique_token db t t' :
  unique_ids db → t ∈ tokens db → t' ∈ tokens db → t_id t = t_id t' → t = t'.
Proof.
  unfold unique_ids. intros Hn [i Hi]%list_elem_of_lookup [j Hj]%list_elem_of_lookup Heq.
  assert (i = j) as ->; [|congruence].
  eapply NoDup_lookup; [exact Hn| |]; rewrite list_lookup_fmap_Some; eauto.
Qed.

Lemma delete_token_only io name id db : unique_ids db → only_user name db (delete_token io name id db).2.
Proof.
  intros Hu. split; [by rewrite delete_token_users|]. intros t Ht. unfold delete_token.
  destruct (io 0%nat); [|done]. simpl. destruct (List.find _ _) as [t0|] eqn:Hf; [|done].
  destruct (io 1%nat); [|done]. simpl. rewrite elem_of_filter_bool.
  split; [tauto|]. intros Hin. split; [done|]. apply negb_true_iff, String.eqb_neq. intros Hid.
  apply find_some in Hf as [Hin0%list_elem_of_In [Hid0%String.eqb_eq Hname%String.eqb_eq]%andb_true_iff].
  apply Ht. rewrite <- Hname. f_equal. symmetry. apply (unique_token db); [done..|congruence].
Qed.

Lemma unique_filter f (l : list TokenRow) : NoDup (t_id <$> l) → NoDup (t_id <$> List.filter f l).
Proof.
  induction l as [|t l IH]; simpl; [done|]. rewrite NoDup_cons. intros [Hn Hl].
  destruct (f t); simpl; [|by apply IH]. apply NoDup_cons. split; [|by apply IH].
  rewrite list_elem_of_fmap. intros (x & Hx & [Hin _]%elem_of_filter_bool). apply Hn.
  rewrite list_elem_of_fmap. by exists x.
Qed.

Lemma same_ids (f : TokenRow → TokenRow) (l : list TokenRow) :
  (∀ t, t_id (f t) = t_id t) → t_id <$> (f <$> l) = t_id <$> l.
Proof. intros Hf. rewrite <- list_fmap_compose. apply list_fmap_ext. intros i t _. apply Hf. Qed.

Lemma step_unique_ids db db' : db_step db db' → unique_ids db → unique_ids db'.
Proof.
  unfold unique_ids. intros Hs Hu. destruct Hs.
  - by destruct (create_cases io salt now name password r must db) as [->|(row & _ & ->)].
  - by destruct (initial_cases io salt now password db) as [->|(row & _ & ->)].
  - by destruct (own_password_cases io name h epoch db) as [->|(row & _ & _ & ->)].
  - destruct (update_cases io salt name r password must db) as [->|(row & h & _ & _ & _ & _ & -> & _)]; [done|].
    unfold updated_tokens.
    assert (Hu' : NoDup (t_id <$> (if demotes r then (fun t => if scoped name t then without_scopes t else t)
      <$> tokens db else tokens db))).
    { destruct (demotes r); [|done]. rewrite same_ids; [done|]. intros t. by destruct (scoped name t). }
    destruct (bool_decide _ && must); [by apply unique_filter|done].
  - unfold delete. destruct (ensure_admin_remains io 0 name None db); [|done].
    destruct (io 2%nat); [|done]. simpl. destruct (find_user name db); [|done].
    destruct (io 3%nat); [|done]. by apply unique_filter.
  - unfold create_token. destruct (_ || _); [done|]. destruct (List.find _ scopes); [done|].
    destruct (io 0%nat); [|done]. simpl. destruct (bool_decide _); [done|].
    destruct (io 1%nat); [|done]. simpl. case_bool_decide as Hid; [done|]. simpl.
    rewrite fmap_app. apply NoDup_app. split_and!; [done| |apply NoDup_singleton].
    intros x Hx Hx'. apply list_elem_of_singleton in Hx' as ->. by apply Hid.
  - unfold delete_token. destruct (io 0%nat); [|done]. simpl. destruct (List.find _ _); [|done].
    destruct (io 1%nat); [|done]. by apply unique_filter.
  - unfold verify_token. destruct (_ ≫= _) as [[id rest]|]; [|done].
    destruct (io 0%nat); [|done]. simpl. destruct (List.find _ _); [|done].
    destruct (constant_time_eq _ _); [|done]. destruct (io 1%nat); [|done]. simpl.
    rewrite same_ids; [done|]. intros tk. unfold note_use. by destruct (String.eqb_spec (t_id tk) id).
Qed.

(** One step's effect on the users. *)
Inductive users_step (m : gmap string UserRow) : gmap string UserRow → Prop :=
| us_same : users_step m m
| us_added name row : m !! name = None → users_step m (<[name := row]> m)
| us_changed name row row' :
    m !! name = Some row → u_epoch row < u_epoch row' →
    (u_role row = "admin" → u_role row' ≠ "admin" →
     ∃ other arow, other ≠ name ∧ m !! other = Some arow ∧ u_role arow = "admin") →
    users_step m (<[name := row']> m)
| us_deleted name row :
    m !! name = Some row →
    (u_role row = "admin" → ∃ other arow, other ≠ name ∧ m !! other = Some arow ∧ u_role arow = "admin") →
    users_step m (base.delete name m).

Lemma db_step_users db db' : db_step db db' → users_step (users db) (users db').
Proof.
  destruct 1 as [io salt now name password r must db|io salt now password db|io name h epoch db
    |io salt name r password must db|io name db|io id random now name label scopes db|io name id db|io now secret db].
  - destruct (create_cases io salt now name password r must db) as [->|(row & Hn & ->)]; by constructor.
  - destruct (initial_cases io salt now password db) as [->|(row & Hn & ->)]; by constructor.
  - destruct (own_password_cases io name h epoch db) as [->|(row & Hn & _ & ->)]; [constructor|].
    apply (us_changed _ name row); simpl; [done|lia|done].
  - destruct (update_cases io salt name r password must db) as [->|(row & ho & Hn & _ & _ & -> & _ & Ha)]; [constructor|].
    apply (us_changed _ name row); [done| |].
    + unfold updated. destruct r, ho; simpl; lia.
    + intros Hadm Hnot. apply other_admin_found. apply Ha; [|done].
      destruct r as [[]|]; [done|done| |]; exfalso; apply Hnot; unfold updated; destruct ho; simpl; done.
  - destruct (delete_cases io name db) as [->|(He & [row Hn] & ->)]; [constructor|].
    apply (us_deleted _ name row); [done|]. intros Hadm.
    apply ensure_admin_Ok in He as [?|[Ho|Hno]]; [done|by apply other_admin_found|by destruct (Hno row Hn)].
  - rewrite create_token_users. constructor.
  - rewrite delete_token_users. constructor.
  - rewrite verify_token_users. constructor.
Qed.

(** A user that stays is unchanged, or has a higher epoch. *)
Lemma step_epoch db db' name row row' :
  db_step db db' → users db !! name = Some row → users db' !! name = Some row' →
  row' = row ∨ u_epoch row < u_epoch row'.
Proof.
  intros Hs%db_step_users Hr Hr'. destruct Hs as [|n r Hn|n r r' Hn He _|n r Hn _].
  - left. congruence.
  - destruct (decide (n = name)) as [->|Hne]; [congruence|].
    rewrite lookup_insert_ne in Hr' by done. left. congruence.
  - destruct (decide (n = name)) as [->|Hne].
    + rewrite lookup_insert_eq in Hr'. right. congruence.
    + rewrite lookup_insert_ne in Hr' by done. left. congruence.
  - destruct (decide (n = name)) as [->|Hne]; [by rewrite lookup_delete_eq in Hr'|].
    rewrite lookup_delete_ne in Hr' by done. left. congruence.
Qed.

Lemma step_keeps_admin db db' : db_step db db' → has_admin db → has_admin db'.
Proof.
  intros Hstep (a & arow & Ha & Hadm). unfold has_admin.
  apply db_step_users in Hstep as [|n r Hn|n r r' Hn _ Hkeep|n r Hn Hkeep].
  - by exists a, arow.
  - exists a, arow. rewrite lookup_insert_ne by congruence. done.
  - destruct (decide (n = a)) as [->|Hne].
    + assert (r = arow) as -> by congruence.
      destruct (decide (u_role r' = "admin")) as [Hr'|Hr'].
      * exists a, r'. by rewrite lookup_insert_eq.
      * destruct (Hkeep Hadm Hr') as (o & orow & Ho & Hl & Hor). exists o, orow.
        by rewrite lookup_insert_ne.
    + exists a, arow. by rewrite lookup_insert_ne.
  - destruct (decide (n = a)) as [->|Hne].
    + assert (r = arow) as -> by congruence.
      destruct (Hkeep Hadm) as (o & orow & Ho & Hl & Hor). exists o, orow. by rewrite lookup_delete_ne.
    + exists a, arow. by rewrite lookup_delete_ne.
Qed.

(** Whatever is done to the users, in whatever
    order and with whichever statements failing: once somebody can administer
    the gateway, somebody always can. *)
Theorem an_admin_remains db db' : rtc db_step db db' → has_admin db → has_admin db'.
Proof.
  induction 1 as [db|db db1 db' Hstep _ IH]; [done|]. intros Ha. apply IH. by eapply step_keeps_admin.
Qed.

(** ** Tokens *)
Lemma scopes_round_trip l : (∀ s, s ∈ l → s ∈ MCP_SCOPES) → split_scopes (join "," l) = l.
Proof.
  intros Hl. unfold split_scopes. destruct l as [|a l]; [done|].
  rewrite split_join; [|done|].
  - induction (a :: l) as [|x k IH]; [done|]. simpl.
    rewrite bool_decide_eq_true_2 by (apply Hl; left). rewrite IH; [done|]. intros s Hs. apply Hl. by right.
  - apply Forall_forall. intros s Hs%Hl. unfold MCP_SCOPES in Hs.
    repeat (apply elem_of_cons in Hs as [->|Hs]; [done|]). by apply not_elem_of_nil in Hs.
Qed.

Lemma find_all_in (l : list string) :
  List.find (fun s => negb (bool_decide (s ∈ MCP_SCOPES))) l = None → ∀ s, s ∈ l → s ∈ MCP_SCOPES.
Proof.
  intros Hf s Hs. pose proof (find_none _ _ Hf s (proj1 (list_elem_of_In _ _) Hs)) as Hb.
  apply negb_false_iff in Hb. by apply bool_decide_eq_true in Hb.
Qed.

Lemma find_new_token id (l : list TokenRow) t :
  id ∉ t_id <$> l → t_id t = id → List.find (fun t => String.eqb (t_id t) id) (l ++ [t]) = Some t.
Proof.
  intros Hl Ht. induction l as [|x l IH]; simpl.
  - by rewrite Ht, String.eqb_refl.
  - rewrite fmap_cons, not_elem_of_cons in Hl. destruct Hl as [Hx Hl].
    rewrite IH by done. destruct (String.eqb_spec (t_id x) id); congruence.
Qed.

Lemma create_token_Ok io id random now name label scopes db tok secret db' :
  create_token io id random now name label scopes db = (Ok (tok, secret), db') →
  secret = "gwt_" +:+ id +:+ "_" +:+ random ∧ id ∉ t_id <$> tokens db ∧
  at_scopes tok = dedup (merge_sort str_le scopes) ∧ (∀ s, s ∈ at_scopes tok → s ∈ MCP_SCOPES) ∧
  db' = set_tokens (tokens db ++ [mkTokenRow id name (trim label) (token_hash secret) now None
                                    (join "," (at_scopes tok))]) db.
Proof.
  unfold create_token. destruct (_ || _); [done|].
  destruct (List.find _ scopes) as [bad|] eqn:Hf; [done|]. destruct (io 0%nat); [|done]. simpl.
  case_bool_decide; [done|]. destruct (io 1%nat); [|done]. simpl.
  case_bool_decide as Hid; [done|]. intros [= <- <- <-]. split_and!; try done. cbn.
  intros s Hs. apply (find_all_in scopes); [done|].
  rewrite elem_of_dedup in Hs. by rewrite merge_sort_Permutation in Hs.
Qed.

(** The secret handed out for a new API token is
    accepted, for the user it was created for and with exactly the scopes that
    were asked for, each once; and no other text with the token's id is
    accepted unless it has the same SHA-256. *)
Theorem token_roundtrip io id random now name label scopes db tok secret db' io' now' :
  has_byte "_" id = false →
  create_token io id random now name label scopes db = (Ok (tok, secret), db') →
  ((∀ k, io' k = true) → (verify_token io' now' secret db').1 = Ok (Some (name, at_scopes tok))) ∧
  (∀ s, s ∈ at_scopes tok ↔ s ∈ scopes) ∧
  (∀ other u sc, (verify_token io' now' ("gwt_" +:+ id +:+ "_" +:+ other) db').1 = Ok (Some (u, sc)) →
     sha256_hex ("gwt_" +:+ id +:+ "_" +:+ other) = sha256_hex secret).
Proof.
  intros Hid (-> & Hnew & Hsc & Hin & ->)%create_token_Ok.
  assert (Hparse : ∀ r, (rest ← strip_prefix "gwt_" ("gwt_" +:+ id +:+ "_" +:+ r); split_once "_"%char rest)
                        = Some (id, r)).
  { intros r. simpl. by apply (split_once_app "_"%char id r). }
  split_and!.
  - intros Hio. unfold verify_token. rewrite Hparse, !Hio. cbn [negb tokens set_tokens].
    rewrite find_new_token by done. cbn [t_hash t_user t_scopes].
    rewrite (proj2 (constant_time_eq_spec _ _) eq_refl). simpl. by rewrite scopes_round_trip.
  - intros s. rewrite Hsc, elem_of_dedup. by rewrite merge_sort_Permutation.
  - intros other u sc. unfold verify_token. rewrite Hparse.
    destruct (io' 0%nat); [|done]. cbn [negb tokens set_tokens]. rewrite find_new_token by done. cbn [t_hash].
    destruct (constant_time_eq _ _) eqn:Hc; [|done]. intros _.
    apply constant_time_eq_spec in Hc. done.
Qed.
End UserFacts.

(** ** Running the model *)
Module ToyUsers.
Definition hashed (salt password : string) : string := salt +:+ "$" +:+ password.
#[export] Instance env : UserEnv := {
  argon2_hash salt p := Some (hashed salt p);
  argon2_ok stored p := match split_once "$"%char stored with
                        | Some (_, q) => String.eqb p q
                        | None => false
                        end;
}.
Definition yes : io_oracle := fun _ => true.
Definition two_admins : UserDb :=
  mkUserDb {["ann" := mkUserRow "s$ann's secret" "admin" "t0" 0 false;
             "bob" := mkUserRow "s$bob's secret" "admin" "t0" 3 false]} [].
End ToyUsers.

Section UserWitnesses.
Import Toy ToyUsers.

Lemma an_admin_remains_witness :
  has_admin (delete yes "ann" two_admins).2.
Proof.
  apply (an_admin_remains two_admins).
  - apply rtc_once. apply (step_delete yes "ann" two_admins).
  - exists "bob", (mkUserRow "s$bob's secret" "admin" "t0" 3 false). by split.
Defined.

Definition new_token := create_token yes "0a1b" "ffee" "t1" "ann" " scripts " ["targets"; "alarms"; "targets"] two_admins.

Lemma token_roundtrip_witness :
  match new_token with
  | (Ok (tok, secret), db') => (verify_token yes "t2" secret db').1 = Ok (Some ("ann", at_scopes tok))
  | _ => False
  end.
Proof.
  destruct new_token as [[[tok secret]|e] db'] eqn:Hn; [|by vm_compute in Hn].
  apply (token_roundtrip yes "0a1b" "ffee" "t1" "ann" " scripts " ["targets"; "alarms"; "targets"] two_admins
           tok secret db' yes "t2" eq_refl Hn).
  by intros k.
Defined.

(** The last admin cannot be demoted, also not when another one was just
    deleted; a second admin can. *)
Example last_admin_stays :
  (set_role yes "x" "bob" Operator (delete yes "ann" two_admins).2).1 = Err "'bob' is the last admin".
Proof. vm_compute. reflexivity. Qed.

(** A user who is deleted while the second statement fails leaves tokens that
    still work, also for a user created later under the same name. *)
Example deleted_user_keeps_token :
  let db := new_token.2 in
  let gone := (delete (fun k => negb (k =? 3)%nat) "ann" db).2 in
  users gone !! "ann" = None ∧
  (verify_token yes "t3" "gwt_0a1b_ffee" gone).1 = Ok (Some ("ann", ["alarms"; "targets"])).
Proof. vm_compute. by split. Qed.
End UserWitnesses.
