(* ===== verification/WebAuth.v ===== *)
(** Web UI login ([src/src/web/auth.rs]): session cookies, roles, CSRF
    protection and limits on guessing passwords.

    The handlers are programs over the state the requests share: the users'
    tables, the web sessions, the counts of failed logins and the browser
    sessions. Every lock is a critical section; a clock reading before it
    stands for the ones the source makes while holding it. SQL statements that
    fail, the random generator failing and the wait for a password check are
    arguments ([Faults]). *)

From S2P Require Import Prelude Net Event Store Config Opc Users Browser Task.

(** ** Constants, in nanoseconds *)
Definition COOKIE : string := "gw_session".
Definition SECURE_COOKIE : string := "__Host-gw_session".
Definition SESSION_IDLE_TIMEOUT : Z := 8 * 3600 * 1000000000.
Definition MAX_LIFETIME : Z := 24 * 3600 * 1000000000.
Definition CSRF_VALUE : string := "opcua-audit-gateway".
Definition MAX_FAILURES_PER_ADDRESS : Z := 5.
Definition MAX_FAILURES_PER_USER : Z := 20.
Definition BLOCK_TIME : Z := 15 * 60 * 1000000000.

(** ** State *)
Record WebSession : Type := mkWebSession {
  ws_username : string;
  ws_epoch : Z;
  created : Z;
  last_seen : Z;
}.

Record Failures : Type := mkFailures { f_count : Z; f_last : option Z }.
Definition no_failures : Failures := mkFailures 0 None.

Record WebSessions : Type := mkWebSessions {
  ws_map : gmap string WebSession;
  by_address : gmap IpAddr Failures;
  by_user : gmap string Failures;
}.

(** What the requests of the web UI share. *)
Record Gw : Type := mkGw {
  g_db : UserDb;
  g_web : WebSessions;
  g_browser : BrowserSessions;
}.

Definition set_db (d : UserDb) (g : Gw) : Gw := mkGw d (g_web g) (g_browser g).
Definition set_browser (b : BrowserSessions) (g : Gw) : Gw := mkGw (g_db g) (g_web g) b.
Definition set_map (m : gmap string WebSession) (g : Gw) : Gw :=
  mkGw (g_db g) (mkWebSessions m (by_address (g_web g)) (by_user (g_web g))) (g_browser g).
Definition set_by_address (m : gmap IpAddr Failures) (g : Gw) : Gw :=
  mkGw (g_db g) (mkWebSessions (ws_map (g_web g)) m (by_user (g_web g))) (g_browser g).
Definition set_by_user (m : gmap string Failures) (g : Gw) : Gw :=
  mkGw (g_db g) (mkWebSessions (ws_map (g_web g)) (by_address (g_web g)) m) (g_browser g).

(** ** Failed logins *)

(** [Failures::blocked]: the time left, [None] when not blocked. The clock is
    read twice; the outer [None] is the panic of a negative [Duration]. *)
Definition blocked (max now now' : Z) (f : Failures) : option (option Z) :=
  match f_last f with
  | None => Some None
  | Some l =>
      if (max <=? f_count f) && (elapsed now l <? BLOCK_TIME) then
        if elapsed now' l <=? BLOCK_TIME then Some (Some (BLOCK_TIME - elapsed now' l)) else None
      else Some None
  end.

(** [Failures::add] *)
Definition add_failure (now : Z) (f : Failures) : Failures :=
  let n := match f_last f with
           | Some l => if BLOCK_TIME <=? elapsed now l then 0 else f_count f
           | None => f_count f
           end in
  mkFailures (u32_wrap (n + 1)) (Some now).

(** [f.last.is_some_and(|l| l.elapsed() < BLOCK_TIME)] *)
Definition recent (now : Z) (f : Failures) : Prop :=
  match f_last f with Some l => elapsed now l < BLOCK_TIME | None => False end.
#[export] Instance recent_dec now f : Decision (recent now f).
Proof. unfold recent. destruct (f_last f); apply _. Defined.

Section Table.
Context {K : Type} `{Countable K}.

Definition blocked_at (max now now' : Z) (k : K) (m : gmap K Failures) : option (option Z) :=
  match m !! k with Some f => blocked max now now' f | None => Some None end.

(** A table that grew large keeps the entries that still matter. *)
Definition prune (now : Z) (m : gmap K Failures) : gmap K Failures :=
  if (10000 <? size m)%nat then filter (fun x : K * Failures => recent now x.2) m else m.

(** One more failure for a key; whether it starts a block. *)
Definition count_failure (max now : Z) (k : K) (m : gmap K Failures) : bool * gmap K Failures :=
  let f := add_failure now (default no_failures (prune now m !! k)) in
  (f_count f =? max, <[k := f]> (prune now m)).
End Table.

(** ** Sessions *)
Definition live (now : Z) (s : WebSession) : Prop :=
  elapsed now (last_seen s) < SESSION_IDLE_TIMEOUT ∧ elapsed now (created s) < MAX_LIFETIME.
#[export] Instance live_dec now s : Decision (live now s).
Proof. unfold live. apply _. Defined.

Definition session_create (token : string) (now : Z) (username : string) (epoch : Z)
    (m : gmap string WebSession) : gmap string WebSession :=
  <[token := mkWebSession username epoch now now]> (filter (fun x : string * WebSession => live now x.2) m).

(** [Sessions::get] *)
Definition session_get (now : Z) (token : string) (m : gmap string WebSession)
    : option (string * Z) * gmap string WebSession :=
  match m !! token with
  | None => (None, m)
  | Some s =>
      if bool_decide (live now s) then
        (Some (ws_username s, ws_epoch s),
         <[token := mkWebSession (ws_username s) (ws_epoch s) (created s) now]> m)
      else (None, base.delete token m)
  end.

Definition remove_user (username : string) (m : gmap string WebSession) : gmap string WebSession :=
  filter (fun x : string * WebSession => ws_username x.2 ≠ username) m.

(** ** Addresses *)

(** The client's address, from the peer and the [X-Forwarded-For] header. *)
Definition client_address (peer : option IpAddr) (forwarded : option string) (trusted : list IpAddr)
    : option IpAddr :=
  p ← peer;
  if bool_decide (p ∉ trusted) then Some p
  else
    let hops := omap (fun a => ip_parse (trim a)) (split ","%char (default EmptyString forwarded)) in
    Some (default p (List.find (fun a => negb (bool_decide (a ∈ trusted))) (reverse hops))).

Definition address_text (address : option IpAddr) : string :=
  default EmptyString (ip_to_string <$> address).

(** ** Errors and users of a request *)
Record ApiError : Type := mkApiError { api_status : Z; api_text : string }.

Definition UNAUTHORIZED : Z := 401.
Definition FORBIDDEN : Z := 403.
Definition NOT_FOUND : Z := 404.
Definition BAD_REQUEST : Z := 400.
Definition CONFLICT : Z := 409.
Definition TOO_MANY_REQUESTS : Z := 429.
Definition INTERNAL_SERVER_ERROR : Z := 500.
Definition BAD_GATEWAY : Z := 502.

(** [From<anyhow::Error>] *)
Definition api_internal (e : string) : ApiError := mkApiError INTERNAL_SERVER_ERROR e.
Definition api_bad_request (e : string) : ApiError := mkApiError BAD_REQUEST e.
Definition api_not_found (e : string) : ApiError := mkApiError NOT_FOUND e.

Definition api {A} (f : string → ApiError) (r : result string A) : result ApiError A :=
  match r with Ok a => Ok a | Err e => Err (f e) end.

Record AuthUser : Type := mkAuthUser {
  au_username : string;
  au_role : Role;
  au_must_change : bool;
  via_token : option string;
}.

Definition actor (u : AuthUser) : string :=
  match via_token u with
  | Some t => au_username u +:+ " (via MCP, token " +:+ t +:+ ")"
  | None => au_username u
  end.

Definition require (r : Role) (u : AuthUser) : result ApiError unit :=
  if role_rank r <=? role_rank (au_role u) then Ok ()
  else Err (mkApiError FORBIDDEN ("this needs the " +:+ role_str r +:+ " role")).

Definition cookie_name (tls : bool) : string := if tls then SECURE_COOKIE else COOKIE.

(** The session cookie the browser is told to keep. *)
Record Cookie : Type := mkCookie { c_name : string; c_value : string; c_secure : bool; c_http_only : bool }.
Definition session_cookie (tls : bool) (token : string) : Cookie :=
  mkCookie (cookie_name tls) token tls true.

Definition web_client (address : option IpAddr) : ClientContext :=
  mkClientContext (address_text address) None (Some "web UI") None None None.

(** What state-changing requests must carry: a request without it that is not
    [safe] never reaches a handler. *)
Inductive Method : Type := GET | HEAD | OPTIONS | POST | PUT | DELETE | OtherMethod.
Definition safe_method (m : Method) : bool := match m with GET | HEAD | OPTIONS => true | _ => false end.
Definition csrf (m : Method) (header : option string) (path : string) : result ApiError unit :=
  let marked := match header with Some v => String.eqb v CSRF_VALUE | None => false end in
  if safe_method m || marked || String.eqb path "/mcp" then Ok ()
  else Err (mkApiError FORBIDDEN "missing CSRF header").

(** The paths a user who must choose a new password may use. *)
Definition allowed_paths : list string := ["/api/me"; "/api/me/password"; "/api/logout"].

(** ** The handlers *)
Section Handlers.
Context `{Opc} `{StoreEnv} `{UserEnv}.
Abbreviation web := (prog Gw).

(** What a request cannot decide: SQL statements, the random generator, the
    wait for one of the password checks, and the hash no password has. *)
Record Faults : Type := mkFaults {
  f_io : nat → io_oracle;
  f_rng : bool;
  f_permit : bool;
  f_dummy : string;
}.

(** An entry for the audit pipeline, at the time it is made. *)
Definition audit {S} (committed : bool) (entry : Z → AuditEntry) : prog S (result string Z) :=
  now ← clock; record_as committed (entry now).

Definition config_changed {S} (u : AuthUser) (summary : string) : prog S (result string Z) :=
  audit true (fun now => new_entry now (ConfigChanged (actor u) summary)).

(** The users' tables, read by one statement or transaction. *)
Definition users_read {A} (f : UserDb → A) : web A := atomic (fun g => (f (g_db g), g)).
(** ... or changed by one. *)
Definition users_change {A} (f : UserDb → A * UserDb) : web A :=
  atomic (fun g => let r := f (g_db g) in (r.1, set_db r.2 g)).

Definition web_map {A} (f : gmap string WebSession → A * gmap string WebSession) : web A :=
  atomic (fun g => let r := f (ws_map (g_web g)) in (r.1, set_map r.2 g)).

(** [Sessions::create] *)
Definition create_session (fs : Faults) (username : string) (epoch : Z) : web (result ApiError string) :=
  if negb (f_rng fs) then mret (Err (api_internal "no random numbers for a session"))
  else
    bytes ← random;
    let token := hex_encode bytes in
    now ← clock;
    _ ← web_map (fun m => ((), session_create token now username epoch m));
    mret (Ok token).

Definition get_session (token : string) : web (option (string * Z)) :=
  now ← clock; web_map (session_get now token).
Definition remove_session (token : string) : web unit := web_map (fun m => ((), base.delete token m)).
Definition remove_sessions_of (username : string) : web unit :=
  web_map (fun m => ((), remove_user username m)).

Definition blocked_address (address : option IpAddr) : web (option Z) :=
  match address with
  | None => mret None
  | Some a =>
      now ← clock; now' ← clock; g ← get;
      or_panic (blocked_at MAX_FAILURES_PER_ADDRESS now now' a (by_address (g_web g)))
  end.

Definition blocked_user (username : string) : web (option Z) :=
  now ← clock; now' ← clock; g ← get;
  or_panic (blocked_at MAX_FAILURES_PER_USER now now' username (by_user (g_web g))).

(** [Sessions::failed]: two locks, one after the other. *)
Definition failed (address : option IpAddr) (username : string) : web bool :=
  by_a ← match address with
         | None => mret false
         | Some a =>
             now ← clock;
             atomic (fun g => let r := count_failure MAX_FAILURES_PER_ADDRESS now a (by_address (g_web g)) in
                              (r.1, set_by_address r.2 g))
         end;
  by_u ← (if (String.length username <=? 64)%nat then
            now ← clock;
            atomic (fun g => let r := count_failure MAX_FAILURES_PER_USER now username (by_user (g_web g)) in
                             (r.1, set_by_user r.2 g))
          else mret false);
  mret (by_a || by_u).

Definition succeeded (address : option IpAddr) (username : string) : web unit :=
  _ ← match address with
      | None => mret ()
      | Some a => atomic (fun g => ((), set_by_address (base.delete a (by_address (g_web g))) g))
      end;
  atomic (fun g => ((), set_by_user (base.delete username (by_user (g_web g))) g)).

(** *** The user of a request *)
Definition check_path (path : string) (u : AuthUser) : result ApiError AuthUser :=
  if au_must_change u && negb (bool_decide (path ∈ allowed_paths))
  then Err (mkApiError FORBIDDEN "choose a new password first") else Ok u.

Definition authenticate (fs : Faults) (cookie : option string) (path : string)
    : web (result ApiError AuthUser) :=
  let unauthorized := mkApiError UNAUTHORIZED "not logged in" in
  match cookie with
  | None => mret (Err unauthorized)
  | Some token =>
      found ← get_session token;
      match found with
      | None => mret (Err unauthorized)
      | Some (name, epoch) =>
          state ← users_read (session_state (f_io fs 0) name);
          match state with
          | Err e => mret (Err (api_internal e))
          | Ok state =>
              match (s ← state; if ss_epoch s =? epoch then Some s else None) with
              | None => _ ← remove_session token; mret (Err unauthorized)
              | Some s =>
                  mret (check_path path (mkAuthUser name (ss_role s) (ss_must_change s) None))
              end
          end
      end
  end.

(** *** Login *)
Definition too_many (wait : Z) : ApiError :=
  mkApiError TOO_MANY_REQUESTS
    ("too many failed logins; try again in " +:+ pretty (Z.div (wait / 1000000000 + 59) 60) +:+ " minutes").

Definition blocked_reason (name : string) : string :=
  "web UI logins blocked for " +:+ pretty (BLOCK_TIME / 1000000000 / 60)
    +:+ " minutes after repeated failures (user " +:+ clip name 64 +:+ ")".

(** A wrong password. *)
Definition login_failed (address : option IpAddr) (name : string) (user_block : option Z)
    : web (result ApiError (Cookie * AuthUser)) :=
  starts_block ← failed address name;
  _ ← audit true (fun now => with_client (web_client address) (new_entry now (UiLoginFailed (clip name 64))));
  _ ← (if (starts_block : bool) then
         _ ← audit true (fun now => new_entry now
               (ConnectionsRefused (address_text address) MAX_FAILURES_PER_ADDRESS (blocked_reason name)));
         mret ()
       else mret ());
  mret (Err match user_block with
            | Some wait => too_many wait
            | None => mkApiError UNAUTHORIZED "wrong user name or password"
            end).

(** A session for a user who just gave the right password. *)
Definition start_session (fs : Faults) (tls : bool) (name : string) (log : web unit)
    : web (result ApiError (Cookie * AuthUser)) :=
  state ← users_read (session_state (f_io fs 1) name);
  match state with
  | Err e => mret (Err (api_internal e))
  | Ok None => mret (Err (mkApiError UNAUTHORIZED "user was just deleted"))
  | Ok (Some s) =>
      token ← create_session fs name (ss_epoch s);
      match token with
      | Err e => mret (Err e)
      | Ok token =>
          _ ← log;
          mret (Ok (session_cookie tls token, mkAuthUser name (ss_role s) (ss_must_change s) None))
      end
  end.

Definition login (fs : Faults) (tls : bool) (address : option IpAddr) (name password : string)
    : web (result ApiError (Cookie * AuthUser)) :=
  wait ← blocked_address address;
  match wait with
  | Some wait => mret (Err (too_many wait))
  | None =>
      if negb (f_permit fs)
      then mret (Err (mkApiError TOO_MANY_REQUESTS "too many logins at once; try again"))
      else
        found ← users_read (verify (f_io fs 0) (f_dummy fs) name password);
        match found with
        | Err e => mret (Err (api_internal e))
        | Ok found =>
            user_block ← blocked_user name;
            match found with
            | None => login_failed address name user_block
            | Some u =>
                _ ← succeeded address (username u);
                start_session fs tls (username u)
                  (_ ← audit true (fun now => with_client (web_client address)
                                                (new_entry now (UiLogin (username u))));
                   mret ())
            end
        end
  end.

(** The cookie's session ends. *)
Definition logout (cookie : option string) : web unit :=
  match cookie with Some token => remove_session token | None => mret () end.

(** [BrowserSessions::close_user]: the sessions taken out, and each one's end. *)
Fixpoint close_all {S} (entries : list Entry) : prog S unit :=
  match entries with
  | [] => mret ()
  | e :: rest =>
      _ ← audit false (fun now => with_client (browser_client (b_user e))
                                    (with_target (b_target e) (new_entry now SessionClosed)));
      close_all rest
  end.
Definition close_browser (f : BrowserSessions → list Entry * BrowserSessions) : web unit :=
  entries ← atomic (fun g => let r := f (g_browser g) in (r.1, set_browser r.2 g));
  close_all entries.

(** *** A user's own password *)
Definition change_password (fs : Faults) (tls : bool) (salt : string) (u : AuthUser)
    (current : option string) (new : string) : web (result ApiError Cookie) :=
  let name := au_username u in
  let current := if au_must_change u then None else Some (default EmptyString current) in
  checked ← users_read (check_own_password (f_io fs 0) salt name current new);
  match checked with
  | Err e => mret (Err (api_bad_request e))
  | Ok (h, epoch) =>
      written ← users_change (write_own_password (f_io fs 0) name h epoch);
      match written with
      | Err e => mret (Err (api_bad_request e))
      | Ok _ =>
          _ ← remove_sessions_of name;
          _ ← close_browser (take_user name);
          r ← start_session fs tls name
                (_ ← config_changed u ("changed own password (" +:+ name +:+ ")"); mret ());
          mret (match r with Ok (c, _) => Ok c | Err e => Err e end)
      end
  end.
End Handlers.

(** ** Facts *)

(** Only a trusted proxy is believed about where a request comes from. *)
Lemma client_address_direct p forwarded trusted :
  p ∉ trusted → client_address (Some p) forwarded trusted = Some p.
Proof. intros Hp. unfold client_address. simpl. by rewrite bool_decide_true. Qed.

(** The text "try again in" is made from a second clock reading: when the 15
    minutes end between the two, the subtraction is negative and the request's
    task panics. *)
Example blocked_can_panic :
  let f := mkFailures 5 (Some 0) in
  blocked 5 (BLOCK_TIME - 1) (BLOCK_TIME - 1) f = Some (Some 1) ∧
  blocked 5 (BLOCK_TIME - 1) (BLOCK_TIME + 1) f = None ∧
  blocked 5 BLOCK_TIME (BLOCK_TIME + 1) f = Some None.
Proof. vm_compute. by split_and!. Qed.

(** Behind a proxy: the last address that is not one, whatever a client put in
    front of it. *)
Example forwarded_last :
  client_address (Some (V4 1)) (Some "6.6.6.6, 10.0.0.7 ,0.0.0.1") [V4 1] = Some (V4 (10 * 2 ^ 24 + 7)) ∧
  client_address (Some (V4 2)) (Some "6.6.6.6") [V4 1] = Some (V4 2).
Proof. vm_compute. by split. Qed.
