(* ===== verification/LoginLimits.v ===== *)
(** Guessing passwords: what the limits of [Sessions] ([src/src/web/auth.rs])
    come to when logins are served one after another. *)

From S2P Require Import Prelude Net Event Store Config Opc Users Browser Task WebAuth.

Section Limits.
Context `{Opc} `{StoreEnv} `{UserEnv}.

(** A login that was served: its arguments, its effects and its answer. *)
Record Served : Type := mkServed {
  sv_faults : Faults;
  sv_tls : bool;
  sv_address : option IpAddr;
  sv_name : string;
  sv_password : string;
  sv_trace : list (label Gw);
  sv_answer : result ApiError (Cookie * AuthUser);
}.

Definition served (x : Served) : Prop :=
  runs (login (sv_faults x) (sv_tls x) (sv_address x) (sv_name x) (sv_password x))
    (sv_trace x) (Ret (sv_answer x)).

(** It left a [ui_login_failed] record: a password was checked and was wrong. *)
Definition is_guess (e : AuditEntry) : bool :=
  match event e with UiLoginFailed _ => true | _ => false end.
Definition wrong (x : Served) : bool := existsb is_guess (recorded (sv_trace x)).

(** Its password was right, for a state it saw. *)
Definition right (x : Served) : Prop :=
  ∃ g u, g ∈ seen (sv_trace x) ∧
    verify (f_io (sv_faults x) 0) (f_dummy (sv_faults x)) (sv_name x) (sv_password x) (g_db g) = Ok (Some u).

(** Logins served one after another, from one state to another. *)
Fixpoint in_turn (g : Gw) (xs : list Served) (g' : Gw) : Prop :=
  match xs with
  | [] => g' = g
  | x :: xs => served x ∧ ∃ m, chained g (sv_trace x) m ∧ in_turn m xs g'
  end.

Definition addresses_of (g : Gw) : gmap IpAddr Failures := by_address (g_web g).

Ltac follow :=
  cbn [fst snd] in *; run_parts; cbn [fst snd] in *;
  repeat match goal with
  | H : chained _ _ _ |- _ => progress (rewrite ?chained_app in H; cbn [app chained] in H); deex; subst
  end.

(** Applies a lemma on the complete runs of a program to a run of it. *)
Tactic Notation "effect" uconstr(lem) "as" simple_intropattern(pat) :=
  match goal with
  | Hr : runs _ ?l (Ret _), Hc : chained _ ?l _ |- _ =>
      let K := fresh in pose proof Hr as K; eapply lem in K; [|exact Hc]; clear Hr Hc; revert K; intros pat
  end.

Lemma failed_effect address name ls b g g' :
  runs (failed address name) ls (Ret b) → chained g ls g' →
  recorded ls = [] ∧
  match address with
  | None => addresses_of g' = addresses_of g
  | Some a => ∃ t, t ∈ clocks ls ∧
      addresses_of g' = (count_failure MAX_FAILURES_PER_ADDRESS t a (addresses_of g)).2
  end.
Proof.
  unfold failed. intros Hr Hc. destruct address as [a|], (String.length name <=? 64)%nat; follow;
    (split; [done|]); try done; eexists; (split; [left|done]).
Qed.

Lemma audit_effect {S} c f ls r (g g' : S) :
  runs (audit c f) ls (Ret r) → chained g ls g' → g' = g ∧ ∃ t, recorded ls = [f t].
Proof. unfold audit. intros Hr Hc. follow. split; [done|]. by eexists. Qed.

(** A login served alone, on the counts for addresses. *)
Inductive login_effect (x : Served) (m : gmap IpAddr Failures) : gmap IpAddr Failures → Prop :=
| le_none : wrong x = false → login_effect x m m
| le_unknown : sv_address x = None → login_effect x m m
| le_wrong a t t' t1 rest :
    sv_address x = Some a → clocks (sv_trace x) = t :: t' :: rest → t1 ∈ rest →
    blocked_at MAX_FAILURES_PER_ADDRESS t t' a m = Some None →
    login_effect x m (count_failure MAX_FAILURES_PER_ADDRESS t1 a m).2
| le_right a :
    sv_address x = Some a → right x → wrong x = false → login_effect x m (base.delete a m).

Lemma create_session_effect fs name epoch ls r g g' :
  runs (create_session fs name epoch) ls (Ret r) → chained g ls g' →
  recorded ls = [] ∧ addresses_of g' = addresses_of g.
Proof.
  unfold create_session, web_map. intros Hr Hc. destruct (f_rng fs); cbn [negb] in Hr; follow; done.
Qed.

Lemma start_session_effect fs tls name log ls r g g' :
  (∀ ls r g g', runs log ls (Ret r) → chained g ls g' →
     existsb is_guess (recorded ls) = false ∧ addresses_of g' = addresses_of g) →
  runs (start_session fs tls name log) ls (Ret r) → chained g ls g' →
  existsb is_guess (recorded ls) = false ∧ addresses_of g' = addresses_of g.
Proof.
  unfold start_session, users_read. intros Hlog Hr Hc. follow.
  destruct (session_state _ _ _) as [[s|]|e]; follow; [|by cbn..].
  effect create_session_effect as [Hq Ha].
  match goal with H : runs (match ?r with _ => _ end) _ _ |- _ => destruct r as [token|e] end; follow.
  - effect Hlog as [Hq' Ha'].
    autorewrite with task. cbn. rewrite Hq, app_nil_r. cbn. split; [done|]. by rewrite Ha', Ha.
  - autorewrite with task. cbn. by rewrite Hq, Ha.
Qed.

Lemma login_failed_effect address name ub ls r g g' :
  runs (login_failed address name ub) ls (Ret r) → chained g ls g' →
  match address with
  | None => addresses_of g' = addresses_of g
  | Some a => ∃ t, t ∈ clocks ls ∧
      addresses_of g' = (count_failure MAX_FAILURES_PER_ADDRESS t a (addresses_of g)).2
  end.
Proof.
  unfold login_failed. intros Hr Hc. follow.
  effect failed_effect as [Hq Ha].
  match goal with H : runs (if ?b then _ else _) _ _ |- _ => destruct b end; follow.
  all: repeat effect audit_effect as [-> _].
  all: destruct address; [|done]; destruct Ha as (t & Ht & Ha); exists t; split; [|done];
    autorewrite with task; set_solver.
Qed.

Lemma blocked_address_effect address ls r g g' :
  runs (blocked_address address) ls (Ret r) → chained g ls g' →
  g' = g ∧ recorded ls = [] ∧
  ∀ a, address = Some a → r = None → ∃ t t', clocks ls = [t; t'] ∧
    blocked_at MAX_FAILURES_PER_ADDRESS t t' a (addresses_of g) = Some None.
Proof.
  unfold blocked_address. intros Hr Hc. destruct address as [a|]; follow; [|done].
  split_and!; [done|done|]. intros a' [= <-] ->. by eexists _, _.
Qed.

Lemma blocked_user_effect name ls r g g' :
  runs (blocked_user name) ls (Ret r) → chained g ls g' → g' = g ∧ recorded ls = [].
Proof. unfold blocked_user. intros Hr Hc. by follow. Qed.

Lemma succeeded_effect address name ls r g g' :
  runs (succeeded address name) ls (Ret r) → chained g ls g' →
  recorded ls = [] ∧
  addresses_of g' = match address with Some a => base.delete a (addresses_of g) | None => addresses_of g end.
Proof. unfold succeeded. intros Hr Hc. destruct address as [a|]; by follow. Qed.

(** A login that succeeds records that, and only that. *)
Lemma login_log address name ls (r : ()) g g' :
  runs (_ ← audit true (fun now => with_client (web_client address) (new_entry now (UiLogin name)));
        mret ()) ls (Ret r) →
  chained g ls g' → existsb is_guess (recorded ls) = false ∧ addresses_of g' = addresses_of g.
Proof.
  intros Hr Hc. follow. effect audit_effect as [-> [t Ht]]. autorewrite with task. by rewrite Ht.
Qed.

(** The part of a login after the address was not blocked. *)
Lemma checked_effect x ls0 ls1 g g' :
  sv_trace x = ls0 ++ ls1 → recorded ls0 = [] →
  (∀ a, sv_address x = Some a → ∃ t t', clocks ls0 = [t; t'] ∧
     blocked_at MAX_FAILURES_PER_ADDRESS t t' a (addresses_of g) = Some None) →
  runs (found ← users_read (verify (f_io (sv_faults x) 0) (f_dummy (sv_faults x)) (sv_name x) (sv_password x));
        match found with
        | Err e => mret (Err (api_internal e))
        | Ok found =>
            user_block ← blocked_user (sv_name x);
            match found with
            | None => login_failed (sv_address x) (sv_name x) user_block
            | Some u =>
                _ ← succeeded (sv_address x) (username u);
                start_session (sv_faults x) (sv_tls x) (username u)
                  (_ ← audit true (fun now => with_client (web_client (sv_address x))
                                                (new_entry now (UiLogin (username u))));
                   mret ())
            end
        end) ls1 (Ret (sv_answer x)) →
  chained g ls1 g' → login_effect x (addresses_of g) (addresses_of g').
Proof.
  intros Hx Hq0 Hnot Hr Hc. unfold users_read in Hr. follow.
  destruct (verify _ _ _ _ _) as [[u|]|e] eqn:Hv; follow.
  - effect blocked_user_effect as [-> Hq1]. effect succeeded_effect as [Hq2 Ha2].
    effect (start_session_effect _ _ _ _ _ _ _ _ (login_log _ _)) as [Hq3 Ha3].
    assert (Hw : wrong x = false).
    { unfold wrong. rewrite Hx. autorewrite with task. rewrite Hq0, Hq1, Hq2. exact Hq3. }
    rewrite Ha3, Ha2. destruct (sv_address x) as [b|] eqn:Hb; [|by apply le_unknown].
    apply le_right; [done| |done]. exists g, u. split; [|done]. rewrite Hx.
    autorewrite with task. set_solver.
  - effect blocked_user_effect as [-> Hq1]. effect login_failed_effect as Hf.
    destruct (sv_address x) as [b|] eqn:Hb; [|by rewrite Hf; apply le_unknown].
    destruct (Hnot b eq_refl) as (t & t' & Ht & Hbl). destruct Hf as (t1 & Ht1 & ->).
    eapply le_wrong; [done| | |done].
    + rewrite Hx. autorewrite with task. rewrite Ht. cbn. reflexivity.
    + set_solver.
  - apply le_none. unfold wrong. rewrite Hx. autorewrite with task. by rewrite Hq0.
Qed.

Lemma login_has_effect x g g' :
  served x → chained g (sv_trace x) g' → login_effect x (addresses_of g) (addresses_of g').
Proof.
  unfold served, login. intros Hr Hc. remember (sv_trace x) as ls eqn:Hx. symmetry in Hx. follow.
  effect blocked_address_effect as (-> & Hq & Hnot).
  match goal with H : runs (match ?r with _ => _ end) _ _ |- _ => destruct r as [w|] end.
  - follow. apply le_none. unfold wrong. rewrite Hx. autorewrite with task. by rewrite Hq.
  - destruct (f_permit (sv_faults x)); cbn [negb] in *.
    + eapply checked_effect; eauto.
    + follow. apply le_none. unfold wrong. rewrite Hx. autorewrite with task. by rewrite Hq.
Qed.

(** ** Counting *)

(** [n] wrong passwords from [a], the last one at a time in [past]. *)
Definition counted (a : IpAddr) (n : nat) (past : list Z) (m : gmap IpAddr Failures) : Prop :=
  match n with
  | O => ∀ f, m !! a = Some f → 0 ≤ f_count f ∧ is_Some (f_last f)
  | S _ => ∃ f t, m !! a = Some f ∧ f_last f = Some t ∧ t ∈ past ∧
             n ≤ f_count f ≤ MAX_FAILURES_PER_ADDRESS
  end.

Lemma counted_more a n past past' m : past ⊆ past' → counted a n past m → counted a n past' m.
Proof. intros Hp. destruct n; [done|]. intros (f & t & ? & ? & ? & ?). exists f, t. set_solver. Qed.

(** The entries [count_failure] starts from. *)
Lemma kept_recent {K} `{Countable K} (m : gmap K Failures) k t :
  prune t m !! k = m !! k ∨ prune t m !! k = None ∧ ∃ f, m !! k = Some f ∧ ¬ recent t f.
Proof.
  unfold prune. destruct (Nat.ltb _ _); [|by left]. rewrite map_lookup_filter.
  destruct (m !! k) as [f|] eqn:Hk; [|by left]. cbn. destruct (decide (recent t f)) as [Hr|Hr].
  - left. by case_guard.
  - right. case_guard; [done|]. split; [done|]. by exists f.
Qed.

Lemma in_window t l : t - l < BLOCK_TIME → elapsed t l < BLOCK_TIME.
Proof. unfold elapsed, BLOCK_TIME. lia. Qed.

(** A failure from an address that was not blocked when it was checked. *)
Lemma counted_failure a n past m t t' t1 :
  counted a n past m → t ≤ t1 → (∀ l, l ∈ past → t1 - l < BLOCK_TIME) →
  blocked_at MAX_FAILURES_PER_ADDRESS t t' a m = Some None →
  counted a (S n) (past ++ [t1]) (count_failure MAX_FAILURES_PER_ADDRESS t1 a m).2.
Proof.
  intros Hn Ht Hwin Hb. unfold count_failure. cbn [snd]. pose proof (kept_recent m a t1) as Hk.
  exists (add_failure t1 (default no_failures (prune t1 m !! a))), t1.
  rewrite lookup_insert_eq. split; [done|]. split; [done|]. split; [set_solver|].
  unfold add_failure. cbn [f_count].
  assert (Hfresh : n = 0%nat → n + 1 ≤ u32_wrap (0 + 1) ≤ MAX_FAILURES_PER_ADDRESS).
  { intros ->. vm_compute. split; congruence. }
  assert (Hnext : ∀ f l, m !! a = Some f → f_last f = Some l → elapsed t1 l < BLOCK_TIME →
            n ≤ f_count f → n + 1 ≤ u32_wrap (f_count f + 1) ≤ MAX_FAILURES_PER_ADDRESS).
  { intros f l Hf Hl He Hc. unfold blocked_at, blocked in Hb. rewrite Hf, Hl in Hb.
    assert (He' : elapsed t l <? BLOCK_TIME = true) by (apply Z.ltb_lt; unfold elapsed in *; lia).
    rewrite He', andb_true_r in Hb.
    destruct (MAX_FAILURES_PER_ADDRESS <=? f_count f) eqn:Hm; [by case_match|].
    apply Z.leb_gt in Hm. unfold MAX_FAILURES_PER_ADDRESS in *.
    rewrite u32_wrap_small by (unfold u32_max; lia). lia. }
  destruct Hk as [-> |(-> & f & Hf & Hr)].
  - destruct (m !! a) as [f|] eqn:Hf; cbn [default from_option id no_failures f_last f_count].
    + destruct (f_last f) as [l|] eqn:Hl.
      * destruct (BLOCK_TIME <=? elapsed t1 l) eqn:He.
        { apply Z.leb_le in He. destruct n as [|n].
          - rewrite Nat2Z.inj_succ. apply Hfresh. done.
          - destruct Hn as (f' & l' & Hf' & Hl' & Hin & _). simplify_eq.
            apply Hwin, in_window in Hin. lia. }
        apply Z.leb_gt in He. rewrite Nat2Z.inj_succ. apply (Hnext f l); [done..|].
        destruct n; [by apply (Hn f)|]. destruct Hn as (f' & l' & Hf' & _ & _ & ?). simplify_eq. lia.
      * destruct n as [|n]; [destruct (Hn f Hf) as [_ [? ?]]; congruence|].
        destruct Hn as (f' & l' & Hf' & Hl' & _). by simplify_eq.
    + destruct n as [|n]; [by apply Hfresh|]. destruct Hn as (f' & l' & Hf' & _). by simplify_eq.
  - cbn [default from_option id no_failures f_last f_count]. destruct n as [|n]; [by apply Hfresh|].
    destruct Hn as (f' & l' & Hf' & Hl' & Hin & _). simplify_eq. exfalso. apply Hr. unfold recent.
    rewrite Hl'. by apply in_window, Hwin.
Qed.

(** A failure from another address. *)
Lemma counted_other a b n past m t1 :
  counted a n past m → b ≠ a → (∀ l, l ∈ past → t1 - l < BLOCK_TIME) →
  counted a n past (count_failure MAX_FAILURES_PER_ADDRESS t1 b m).2.
Proof.
  intros Hn Hb Hwin. unfold count_failure. cbn [snd]. pose proof (kept_recent m a t1) as Hk.
  destruct n as [|n]; cbn [counted] in *.
  - intros f. rewrite lookup_insert_ne by done. destruct Hk as [-> |(-> & _)]; [|done]. apply Hn.
  - destruct Hn as (f & t & Hf & Hl & Hin & Hc). exists f, t. rewrite lookup_insert_ne by done.
    split; [|done]. destruct Hk as [-> |(_ & f' & Hf' & Hr)]; [done|]. simplify_eq.
    exfalso. apply Hr. unfold recent. rewrite Hl. by apply in_window, Hwin.
Qed.

Lemma counted_delete a b n past m : counted a n past m → b ≠ a → counted a n past (base.delete b m).
Proof.
  intros Hn Hb. destruct n as [|n]; cbn [counted] in *.
  - intros f. rewrite lookup_delete_ne by done. apply Hn.
  - destruct Hn as (f & t & Hf). exists f, t. by rewrite lookup_delete_ne.
Qed.

Definition times (xs : list Served) : list Z := xs ≫= (fun x => clocks (sv_trace x)).

(** The wrong passwords tried from an address. *)
Definition guesses (a : IpAddr) (xs : list Served) : nat :=
  length (List.filter (fun x => wrong x && bool_decide (sv_address x = Some a)) xs).

Lemma counted_login a n past x m m' rest :
  login_effect x m m' → (sv_address x = Some a → ¬ right x) →
  StronglySorted Z.le (past ++ clocks (sv_trace x) ++ rest) →
  (∀ t t', t ∈ past ++ clocks (sv_trace x) ++ rest → t' ∈ past ++ clocks (sv_trace x) ++ rest →
     t' - t < BLOCK_TIME) →
  counted a n past m →
  counted a (n + guesses a [x]) (past ++ clocks (sv_trace x)) m'.
Proof.
  intros He Hnr Hsort Hwin Hn. unfold guesses. cbn [List.filter].
  destruct He as [Hw|Hno|b t t' t1 r Hb Hcl Hin Hbl|b Hb Hr Hw].
  - rewrite Hw. cbn. rewrite Nat.add_0_r. eapply counted_more; [|done]. set_solver.
  - rewrite Hno, andb_false_r. cbn. rewrite Nat.add_0_r. eapply counted_more; [|done]. set_solver.
  - assert (Hlate : ∀ l, l ∈ past → t1 - l < BLOCK_TIME).
    { intros l Hl. apply Hwin; rewrite Hcl; set_solver. }
    rewrite Hb. destruct (decide (b = a)) as [->|Hne].
    + rewrite bool_decide_true by done. rewrite andb_true_r.
      assert (Hle : t ≤ t1).
      { rewrite Hcl in Hsort. apply StronglySorted_app_1_r in Hsort. inversion_clear Hsort as [|? ? _ Hall].
        rewrite Forall_forall in Hall. apply Hall. set_solver. }
      pose proof (counted_failure a n past m t t' t1 Hn Hle Hlate Hbl) as Hs.
      destruct (wrong x); cbn [List.filter length].
      * rewrite Nat.add_1_r. eapply counted_more; [|done]. rewrite Hcl. set_solver.
      * rewrite Nat.add_0_r.
        destruct Hs as (f & l & Hf & Hl & Hi & Hc). destruct n as [|n].
        { intros f' Hf'. simplify_eq. split; [lia|eauto]. }
        exists f, l. split_and!; [done|done| |lia|lia]. rewrite Hcl. set_solver.
    + rewrite bool_decide_false by congruence. rewrite andb_false_r. cbn. rewrite Nat.add_0_r.
      eapply counted_more; [|by apply counted_other]. set_solver.
  - rewrite Hw. cbn. rewrite Nat.add_0_r. eapply counted_more; [|apply counted_delete; [done|]]; [set_solver|].
    intros ->. by apply Hnr.
Qed.

Lemma guesses_cons a x xs : guesses a (x :: xs) = (guesses a [x] + guesses a xs)%nat.
Proof. unfold guesses. cbn. by destruct (wrong x && bool_decide (sv_address x = Some a)). Qed.

Lemma counted_in_turn a xs : ∀ n past g g',
  in_turn g xs g' → (∀ x, x ∈ xs → sv_address x = Some a → ¬ right x) →
  StronglySorted Z.le (past ++ times xs) →
  (∀ t t', t ∈ past ++ times xs → t' ∈ past ++ times xs → t' - t < BLOCK_TIME) →
  counted a n past (addresses_of g) →
  counted a (n + guesses a xs) (past ++ times xs) (addresses_of g').
Proof.
  induction xs as [|x xs IH]; intros n past g g' Ht Hnr Hsort Hwin Hn.
  - simpl in Ht. subst. rewrite Nat.add_0_r, app_nil_r. done.
  - destruct Ht as (Hs & m & Hc & Ht). pose proof (login_has_effect x g m Hs Hc) as He.
    change (times (x :: xs)) with (clocks (sv_trace x) ++ times xs) in *.
    eapply counted_login in He; [|apply Hnr; left|exact Hsort|exact Hwin|exact Hn].
    rewrite guesses_cons, Nat.add_assoc, app_assoc.
    rewrite app_assoc in Hsort. setoid_rewrite app_assoc in Hwin.
    eapply IH; [done| |done|done|done]. intros y Hy. apply Hnr. by right.
Qed.

(** Claim C25. Of the logins tried from one address within 15
    minutes, one after another and whatever other addresses do in between, at
    most five have their password checked and found wrong (and recorded),
    unless one of them gives a right password: the failures before the first
    of them, and pruning the table of a flood of addresses, make no
    difference. *)
Theorem guesses_bounded a xs g g' :
  in_turn g xs g' →
  StronglySorted Z.le (times xs) →
  (∀ t t', t ∈ times xs → t' ∈ times xs → t' - t < BLOCK_TIME) →
  (∀ f, by_address (g_web g) !! a = Some f → 0 ≤ f_count f ∧ is_Some (f_last f)) →
  (∀ x, x ∈ xs → sv_address x = Some a → ¬ right x) →
  (guesses a xs ≤ 5)%nat.
Proof.
  intros Ht Hsort Hwin Hwf Hnr.
  pose proof (counted_in_turn a xs 0 [] g g' Ht Hnr Hsort Hwin Hwf) as Hc. cbn [Nat.add] in Hc.
  destruct (guesses a xs) as [|n]; [lia|]. destruct Hc as (f & t & _ & _ & _ & Hb).
  unfold MAX_FAILURES_PER_ADDRESS in Hb. lia.
Qed.
End Limits.

(** ** Running the model *)
Section LimitsWitness.
Import Toy ToyOpc ToyUsers.

Definition web_world (t : Z) : World (H := opc) :=
  mkWorld t "r" (fun _ => Ok 1) false (fun _ => Err BadTimeout) (fun _ _ => Ok ()) (fun _ => Ok ()) (Err "").
Definition all_well : Faults := mkFaults (fun _ => yes) true true "s$nobody".
Definition web_start : Gw := mkGw two_admins (mkWebSessions ∅ ∅ ∅) ∅.

(** Wrong passwords for "ann" from one address, at these times. *)
Fixpoint attempts (ts : list Z) (g : Gw) : list Served * Gw :=
  match ts with
  | [] => ([], g)
  | t :: ts =>
      let p := login (H := opc) all_well false (Some (V4 1)) "ann" "guess" in
      let r := exec (web_world t) p g in
      match r.1.2 with
      | Some a =>
          let rest := attempts ts r.2 in
          (mkServed all_well false (Some (V4 1)) "ann" "guess" r.1.1 a :: rest.1, rest.2)
      | None => ([], g)
      end
  end.

Lemma attempts_in_turn ts g : in_turn g (attempts ts g).1 (attempts ts g).2.
Proof.
  revert g. induction ts as [|t ts IH]; intros g; [done|]. cbn [attempts].
  set (p := login _ _ _ _ _). destruct (exec (web_world t) p g).1.2 as [a|] eqn:Ha; [|done].
  cbn [fst snd in_turn]. split.
  - unfold served. cbn. pose proof (exec_runs (web_world t) p g) as Hr. by rewrite Ha in Hr.
  - exists (exec (web_world t) p g).2. split; [apply exec_chained|apply IH].
Qed.

(** Seven attempts within two minutes: five are checked. *)
Definition seven : list Served :=
  (attempts ((fun k => k * 20000000000) <$> [1; 2; 3; 4; 5; 6; 7]) web_start).1.

Lemma guesses_bounded_witness : length seven = 7%nat ∧ guesses (V4 1) seven = 5%nat ∧ (guesses (V4 1) seven ≤ 5)%nat.
Proof.
  split; [vm_compute; reflexivity|]. split; [vm_compute; reflexivity|].
  assert (Ht : Forall (fun t => 0 ≤ t ≤ 200000000000) (times seven)).
  { apply (bool_decide_eq_true_1 _). vm_compute. reflexivity. }
  eapply (guesses_bounded (V4 1) seven web_start).
  - apply attempts_in_turn.
  - apply (bool_decide_eq_true_1 _). vm_compute. reflexivity.
  - intros t t' H1 H2. rewrite Forall_forall in Ht. apply Ht in H1, H2. unfold BLOCK_TIME. lia.
  - intros f Hf. vm_compute in Hf. discriminate Hf.
  - intros x Hx _ (g & u & Hg & Hv).
    assert (Hall : forallb (fun x => forallb (fun g => match verify (f_io (sv_faults x) 0) (f_dummy (sv_faults x))
      (sv_name x) (sv_password x) (g_db g) with Ok (Some _) => false | _ => true end) (seen (sv_trace x))) seven = true)
      by (vm_compute; reflexivity).
    rewrite forallb_forall in Hall. specialize (Hall x (proj1 (list_elem_of_In _ _) Hx)).
    rewrite forallb_forall in Hall. specialize (Hall g (proj1 (list_elem_of_In _ _) Hg)).
    rewrite Hv in Hall. discriminate Hall.
Defined.
End LimitsWitness.
