(* ===== verification/WebSession.v ===== *)
(** Web sessions over time: the requests of the web UI run interleaved on the
    state they share, while other handlers and the command line change the
    users. What a session cookie is worth. *)

From S2P Require Import Prelude Net Event Store Config Opc Users Browser Task WebAuth.

Section WebSession.
Context `{Opc} `{StoreEnv} `{UserEnv}.
Abbreviation lbl := (label Gw).

(** ** Tasks *)
Inductive WebTask : Type :=
| TLogin (fs : Faults) (tls : bool) (address : option IpAddr) (name password : string)
| TChange (fs : Faults) (tls : bool) (salt : string) (u : AuthUser) (current : option string) (new : string)
(** the [AuthUser] extractor of any other request *)
| TRequest (fs : Faults) (cookie : option string) (path : string)
| TLogout (cookie : option string).

Definition Answer : Type := option AuthUser.
Definition web_task (t : WebTask) : prog Gw Answer :=
  match t with
  | TLogin fs tls address name password => _ ← login fs tls address name password; mret None
  | TChange fs tls salt u current new => _ ← change_password fs tls salt u current new; mret None
  | TRequest fs cookie path => r ← authenticate fs cookie path; mret (result_ok r)
  | TLogout cookie => _ ← logout cookie; mret None
  end.

Record WebThread : Type := mkWebThread {
  wt_task : WebTask;
  wt_history : list lbl;
  wt_program : prog Gw Answer;
}.

(** Every state so far, oldest first, the current one, and the tasks. *)
Record WebSystem : Type := mkWebSystem {
  ws_past : list Gw;
  ws_now : Gw;
  ws_threads : list WebThread;
}.

Definition states (w : WebSystem) : list Gw := ws_past w ++ [ws_now w].

(** The same session: only the time it was last used may differ. *)
Definition same_web_session (a b : WebSession) : Prop :=
  ws_username a = ws_username b ∧ ws_epoch a = ws_epoch b.

Definition no_new_session (b a : Gw) : Prop :=
  ∀ token s, ws_map (g_web a) !! token = Some s →
    ∃ s0, ws_map (g_web b) !! token = Some s0 ∧ same_web_session s0 s.

Definition db_moves (b a : Gw) : Prop := g_db a = g_db b ∨ db_step (g_db b) (g_db a).

Definition web_after (l : lbl) (g : Gw) : Gw := match l with LUpdate _ a => a | _ => g end.
Definition web_on (l : lbl) (g : Gw) : Prop := match l with LUpdate b _ => b = g | _ => True end.
Definition web_past (l : lbl) (w : WebSystem) : list Gw :=
  match l with LUpdate _ _ => ws_past w ++ [ws_now w] | _ => ws_past w end.

Inductive web_step (w : WebSystem) : WebSystem → Prop :=
| w_spawn t : web_step w (mkWebSystem (ws_past w) (ws_now w) (ws_threads w ++ [mkWebThread t [] (web_task t)]))
| w_effect i th l p :
    ws_threads w !! i = Some th → does (wt_program th) l p → web_on l (ws_now w) →
    web_step w (mkWebSystem (web_past l w) (web_after l (ws_now w))
                  (<[i := mkWebThread (wt_task th) (wt_history th ++ [l]) p]> (ws_threads w)))
(** Other handlers and the command line: the users, and sessions that end. *)
| w_other g :
    db_moves (ws_now w) g → no_new_session (ws_now w) g →
    web_step w (mkWebSystem (ws_past w ++ [ws_now w]) g (ws_threads w)).

Inductive web_reachable : WebSystem → Prop :=
| w_start g : ws_map (g_web g) = ∅ → web_reachable (mkWebSystem [] g [])
| w_next w w' : web_reachable w → web_step w w' → web_reachable w'.

(** ** What a task may do *)

(** The task was given the user's password: the current one. *)
Definition proved (t : WebTask) (name : string) (h : list lbl) : Prop :=
  match t with
  | TLogin fs _ _ n password =>
      n = name ∧ ∃ g u, g ∈ seen h ∧ verify (f_io fs 0) (f_dummy fs) name password (g_db g) = Ok (Some u)
  | TChange fs _ salt u current new =>
      au_username u = name ∧ ∃ g r, g ∈ seen h ∧
        check_own_password (f_io fs 0) salt name
          (if au_must_change u then None else Some (default EmptyString current)) new (g_db g) = Ok r
  | _ => False
  end.

Definition granted (t : WebTask) (h : list lbl) (s : WebSession) : Prop :=
  proved t (ws_username s) h ∧
  ∃ g row, g ∈ seen h ∧ users (g_db g) !! ws_username s = Some row ∧ u_epoch row = ws_epoch s.

Definition web_guard (t : WebTask) (h : list lbl) (l : lbl) : Prop :=
  match l with
  | LUpdate b a =>
      db_moves b a ∧
      ∀ token s, ws_map (g_web a) !! token = Some s →
        (∃ s0, ws_map (g_web b) !! token = Some s0 ∧ same_web_session s0 s) ∨ granted t h s
  | _ => True
  end.

(** A request that was let in: the session it found, then the user's row. *)
Definition let_in (fs : Faults) (token path : string) (u : AuthUser) (h : list lbl) : Prop :=
  ∃ g1 g2 s row,
    [g1; g2] `sublist_of` seen h ∧
    ws_map (g_web g1) !! token = Some s ∧ ws_username s = au_username u ∧
    users (g_db g2) !! au_username u = Some row ∧ u_epoch row = ws_epoch s ∧
    role_parse (u_role row) = Ok (au_role u) ∧ u_must_change row = au_must_change u ∧
    (au_must_change u = true → path ∈ allowed_paths).

Definition web_result (t : WebTask) (a : Answer) (h : list lbl) : Prop :=
  match t, a with
  | TRequest fs cookie path, Some u => ∃ token, cookie = Some token ∧ let_in fs token path u h
  | _, _ => True
  end.

(** Effects that start no session and leave the users alone. *)
Definition quiet (l : lbl) : Prop :=
  match l with LUpdate b a => g_db a = g_db b ∧ no_new_session b a | _ => True end.

Lemma quiet_guard t h l : quiet l → web_guard t h l.
Proof.
  destruct l; try done. intros [Hd Hs]. split; [by left|]. intros token s Hl. left. by apply (Hs token).
Qed.

Lemma same_map_quiet (b a : Gw) : g_db a = g_db b → ws_map (g_web a) = ws_map (g_web b) → quiet (LUpdate b a).
Proof. intros Hd Hm. split; [done|]. intros token s. rewrite Hm. intros Hs. by exists s. Qed.

Lemma smaller_map_quiet (b : Gw) m : m ⊆ ws_map (g_web b) → quiet (LUpdate b (set_map m b)).
Proof. intros Hm. split; [done|]. intros token s Hs. exists s. split; [|done]. by eapply lookup_weaken. Qed.

(** *** Specifications of the parts *)
Abbreviation quietly p := (spec quiet p (fun _ _ => True)).

Ltac quiet_run :=
  repeat match goal with
  | |- spec _ (mret _) _ => by apply spec_ret
  | |- spec _ (mbind _ _) _ => eapply spec_bind; [|intros; cbn beta]
  end.

Lemma spec_atomic {A} (Q : lbl → Prop) (f : Gw → A * Gw) (Φ : A → list lbl → Prop) :
  (∀ g, Q (LUpdate g (f g).2)) → (∀ g, Φ (f g).1 [LUpdate g (f g).2]) → spec Q (atomic f) Φ.
Proof. intros Hq Hf. split; [constructor|]. intros g. split; [by repeat constructor|apply Hf]. Qed.

Lemma spec_get (Φ : Gw → list lbl → Prop) : (∀ g, Φ g [LUpdate g g]) → spec quiet get Φ.
Proof.
  intros Hf. split; [constructor|]. intros g. split; [|apply Hf]. constructor; [|constructor]. by apply same_map_quiet.
Qed.
Lemma spec_clock : spec quiet clock (fun t ls => ls = [LClock t]).
Proof. split; [constructor|]. intros z. by repeat constructor. Qed.
Lemma quietly_clock : quietly clock.
Proof. split; [constructor|]. intros z. by repeat constructor. Qed.
Lemma quietly_random : quietly random.
Proof. split; [constructor|]. intros z. by repeat constructor. Qed.
Lemma quietly_record c e : quietly (record_as c e).
Proof. split; [constructor|]. intros z. by repeat constructor. Qed.
Lemma quietly_or_panic {A} (o : option A) : quietly (or_panic o).
Proof. destruct o; split; by repeat constructor. Qed.

#[local] Hint Resolve quietly_clock quietly_random quietly_record quietly_or_panic : quiet.

Lemma quietly_bind {A B} (p : prog Gw A) (f : A → prog Gw B) :
  quietly p → (∀ a, quietly (f a)) → quietly (p ≫= f).
Proof. intros Hp Hf. eapply spec_bind; [exact Hp|]. intros a ls _ _. apply Hf. Qed.
Lemma quietly_ret {A} (a : A) : quietly (mret a).
Proof. by apply spec_ret. Qed.
Lemma quietly_get : quietly get.
Proof. by apply spec_get. Qed.
Lemma quietly_atomic {A} (f : Gw → A * Gw) : (∀ g, quiet (LUpdate g (f g).2)) → quietly (atomic f).
Proof. intros Hf. by apply spec_atomic. Qed.
#[local] Hint Resolve quietly_ret quietly_get : quiet.

(** Takes a program apart down to effects that are known to be quiet. *)
Ltac be_quiet :=
  repeat match goal with
  | |- quietly (mbind _ _) => apply quietly_bind; [|intros ?]
  | |- quietly (atomic _) => apply quietly_atomic; intros ?; by apply same_map_quiet
  | |- quietly (match ?x with _ => _ end) => destruct x
  | |- _ => by auto with quiet
  end.

Lemma quietly_audit c f : quietly (audit c f).
Proof. unfold audit. be_quiet. Qed.
Lemma quietly_config_changed u s : quietly (config_changed u s).
Proof. apply quietly_audit. Qed.
#[local] Hint Resolve quietly_audit quietly_config_changed : quiet.
Lemma quietly_blocked_address a : quietly (blocked_address a).
Proof. unfold blocked_address. be_quiet. Qed.
Lemma quietly_blocked_user u : quietly (blocked_user u).
Proof. unfold blocked_user. be_quiet. Qed.
Lemma quietly_failed a u : quietly (failed a u).
Proof. unfold failed. be_quiet. Qed.
Lemma quietly_succeeded a u : quietly (succeeded a u).
Proof. unfold succeeded. be_quiet. Qed.
#[local] Hint Resolve quietly_blocked_address quietly_blocked_user quietly_failed quietly_succeeded : quiet.
Lemma quietly_login_failed a u b : quietly (login_failed a u b).
Proof. unfold login_failed. be_quiet. Qed.
Lemma quietly_close_all l : quietly (close_all l).
Proof. induction l; cbn [close_all]; be_quiet. Qed.
#[local] Hint Resolve quietly_login_failed quietly_close_all : quiet.
Lemma quietly_close_browser f : quietly (close_browser f).
Proof. unfold close_browser. be_quiet. Qed.
Lemma quietly_remove_session token : quietly (remove_session token).
Proof. apply quietly_atomic. intros g. apply smaller_map_quiet, delete_subseteq. Qed.
Lemma quietly_remove_sessions_of name : quietly (remove_sessions_of name).
Proof. apply quietly_atomic. intros g. apply smaller_map_quiet, map_filter_subseteq. Qed.
#[local] Hint Resolve quietly_close_browser quietly_remove_session quietly_remove_sessions_of : quiet.

(** A read of the users' tables. *)
Lemma spec_users_read {A} (f : UserDb → A) :
  spec quiet (users_read f) (fun a ls => ∃ g, ls = [LUpdate g g] ∧ a = f (g_db g)).
Proof.
  apply spec_atomic; [intros g; by apply same_map_quiet|]. intros g. by exists g.
Qed.

(** [Sessions::get] *)
Lemma spec_get_session token :
  spec quiet (get_session token) (fun r ls => ∀ name epoch, r = Some (name, epoch) →
    ∃ g s, seen ls = [g] ∧ ws_map (g_web g) !! token = Some s ∧ ws_username s = name ∧ ws_epoch s = epoch).
Proof.
  unfold get_session. eapply spec_bind; [apply spec_clock|]. intros now ls -> _.
  unfold web_map. apply spec_atomic.
  - intros g. split; [done|]. intros t s. cbn. unfold session_get.
    destruct (ws_map (g_web g) !! token) as [s0|] eqn:Hs; [|by exists s].
    case_bool_decide; cbn.
    + destruct (decide (t = token)) as [->|Hne].
      * rewrite lookup_insert_eq. intros [= <-]. by exists s0.
      * rewrite lookup_insert_ne by done. by exists s.
    + intros [_ Hl]%lookup_delete_Some. by exists s.
  - intros g name epoch. cbn. unfold session_get.
    destruct (ws_map (g_web g) !! token) as [s0|] eqn:Hs; [|done].
    case_bool_decide; [|done]. intros [= <- <-]. by exists g, s0.
Qed.

(** *** The tasks keep to the guard *)
Lemma steps_quiet t h ls : steps (web_guard t) h → Forall quiet ls → steps (web_guard t) (h ++ ls).
Proof. intros Hs Hq. apply (steps_app_Forall _ quiet); [done| |done]. intros pre l. apply quiet_guard. Qed.

Lemma always_quiet {A B} t (p : prog Gw A) (f : A → prog Gw B) h Ψ Φ :
  spec quiet p Ψ → steps (web_guard t) h →
  (∀ a ls, Ψ a ls → steps (web_guard t) (h ++ ls) → always (steps (web_guard t)) (f a) (h ++ ls) Φ) →
  always (steps (web_guard t)) (p ≫= f) h Φ.
Proof.
  intros Hp Hh Hf. eapply always_then.
  - apply (spec_use _ _ _ h _ Hp). intros ls Hq. by apply steps_quiet.
  - intros a h' (ls & -> & Hq & Ha). apply Hf; [done|]. by apply steps_quiet.
Qed.

Lemma always_last t {A} (p : prog Gw A) h Ψ :
  spec quiet p Ψ → steps (web_guard t) h →
  always (steps (web_guard t)) p h (fun a h' => ∃ ls, h' = h ++ ls ∧ Ψ a ls ∧ steps (web_guard t) h').
Proof.
  intros Hp Hh. eapply always_mono; [|apply (spec_use _ _ _ h _ Hp)].
  - intros a h' (ls & -> & Hq & Ha). exists ls. split_and!; [done|done|by apply steps_quiet].
  - intros ls Hq. by apply steps_quiet.
Qed.

Lemma always_ret t {A} (a : A) h Φ : steps (web_guard t) h → Φ a h → always (steps (web_guard t)) (mret a) h Φ.
Proof. by split. Qed.

Lemma proved_mono t name h ls : proved t name h → proved t name (h ++ ls).
Proof.
  destruct t; try done; simpl; intros (-> & g & r & Hg & Hv); (split; [done|]); exists g, r;
    autorewrite with task; set_solver.
Qed.

Lemma granted_mono t s h ls : granted t h s → granted t (h ++ ls) s.
Proof.
  intros [Hp (g & row & Hg & Hr)]. split; [by apply proved_mono|]. exists g, row.
  autorewrite with task. set_solver.
Qed.

Lemma always_web_map t {A} (f : gmap string WebSession → A * gmap string WebSession) h Φ :
  steps (web_guard t) h →
  (∀ m token s, (f m).2 !! token = Some s →
     (∃ s0, m !! token = Some s0 ∧ same_web_session s0 s) ∨ granted t h s) →
  (∀ a g, steps (web_guard t) (h ++ [LUpdate g (set_map (f (ws_map (g_web g))).2 g)]) →
     a = (f (ws_map (g_web g))).1 → Φ a (h ++ [LUpdate g (set_map (f (ws_map (g_web g))).2 g)])) →
  always (steps (web_guard t)) (web_map f) h Φ.
Proof.
  intros Hh Hm Hf. split; [done|]. intros g.
  assert (Hs : steps (web_guard t) (h ++ [LUpdate g (set_map (f (ws_map (g_web g))).2 g)])).
  { apply steps_snoc. split; [done|]. split; [by left|]. intros token s. apply Hm. }
  split; [exact Hs|]. by apply Hf.
Qed.

Lemma always_create t fs name epoch h Φ :
  steps (web_guard t) h → granted t h (mkWebSession name epoch 0 0) →
  (∀ r ls, steps (web_guard t) (h ++ ls) → Φ r (h ++ ls)) →
  always (steps (web_guard t)) (create_session fs name epoch) h Φ.
Proof.
  intros Hh Hg Hf. unfold create_session. destruct (f_rng fs); cbn [negb].
  2: { apply always_ret; [done|]. rewrite <- (app_nil_r h). apply Hf. by rewrite app_nil_r. }
  eapply always_quiet; [apply quietly_random|done|]. intros b ls1 _ Hs1.
  eapply always_quiet; [apply quietly_clock|done|]. intros now ls2 _ Hs2.
  apply always_bind, always_web_map; [done| |].
  - intros m token s Hl. cbn in Hl. unfold session_create in Hl.
    destruct (decide (token = hex_encode b)) as [->|Hne].
    + rewrite lookup_insert_eq in Hl. injection Hl as <-. right. by do 2 apply granted_mono.
    + rewrite lookup_insert_ne in Hl by done. apply map_lookup_filter_Some in Hl as [Hl _].
      left. by exists s.
  - intros a g Hs3 _. apply always_ret; [done|]. rewrite <- !app_assoc in *. by apply Hf.
Qed.

Lemma always_start t fs tls name log h Φ :
  steps (web_guard t) h → proved t name h → quietly log →
  (∀ r ls, steps (web_guard t) (h ++ ls) → Φ r (h ++ ls)) →
  always (steps (web_guard t)) (start_session fs tls name log) h Φ.
Proof.
  intros Hh Hp Hlog Hf. unfold start_session.
  eapply always_quiet; [apply spec_users_read|done|]. intros st ls (g & -> & ->) Hs.
  destruct (session_state _ _ _) as [[s|]|e] eqn:Hst; [|by apply always_ret, Hf..].
  apply always_bind. apply always_create; [done| |].
  - split; [by apply proved_mono|]. unfold session_state in Hst.
    apply bail_Ok in Hst as [_ Hst]. unfold find_user in Hst.
    destruct (users (g_db g) !! name) as [row|] eqn:Hrow; [|done].
    apply result_bind_Ok in Hst as (r & _ & [= <-]). exists g, row. autorewrite with task.
    split; [set_solver|done].
  - intros r ls Hs2. destruct r as [token|e].
    + eapply always_quiet; [exact Hlog|done|]. intros [] ls' _ Hs3.
      apply always_ret; [done|]. rewrite <- !app_assoc in *. by apply Hf.
    + apply always_ret; [done|]. rewrite <- !app_assoc in *. by apply Hf.
Qed.

Lemma login_always fs tls address name password :
  let t := TLogin fs tls address name password in
  always (steps (web_guard t)) (web_task t) [] (web_result t).
Proof.
  cbn zeta. cbn [web_task]. set (t := TLogin _ _ _ _ _). apply always_bind. unfold login.
  assert (Hdone : ∀ h, steps (web_guard t) h → always (steps (web_guard t)) (mret None) h (web_result t))
    by (intros; by apply always_ret).
  eapply always_quiet; [apply quietly_blocked_address|apply steps_nil|]. intros w h1 _ Hs1. cbn [app] in *.
  destruct w; [by apply always_ret; [|apply Hdone]|].
  destruct (f_permit fs); cbn [negb]; [|by apply always_ret; [|apply Hdone]].
  eapply always_quiet; [apply spec_users_read|done|]. intros found ls (g & -> & ->) Hs2.
  destruct (verify _ _ _ _ _) as [found|e] eqn:Hv; [|by apply always_ret; [|apply Hdone]].
  eapply always_quiet; [apply quietly_blocked_user|done|]. intros ub ls _ Hs3.
  destruct found as [u|].
  - assert (Hu : username u = name).
    { revert Hv. unfold verify. destruct (negb _); [done|]. destruct (find_user name (g_db g)); [|done].
      destruct (argon2_ok _ _); [|done]. intros (r & _ & [= <-])%result_bind_Ok. done. }
    eapply always_quiet; [apply quietly_succeeded|done|]. intros [] ls' _ Hs4.
    apply always_start; [done| | |].
    + rewrite Hu. split; [done|]. exists g, u. split; [autorewrite with task; set_solver|done].
    + be_quiet.
    + intros r ls'' Hs5. by apply Hdone.
  - eapply always_mono; [|apply always_last; [apply quietly_login_failed|done]].
    intros r h' (l & -> & _ & Hs4). by apply Hdone.
Qed.

Lemma change_always fs tls salt u current new :
  let t := TChange fs tls salt u current new in
  always (steps (web_guard t)) (web_task t) [] (web_result t).
Proof.
  cbn zeta. cbn [web_task]. set (t := TChange _ _ _ _ _ _). apply always_bind. unfold change_password.
  assert (Hdone : ∀ h, steps (web_guard t) h → always (steps (web_guard t)) (mret None) h (web_result t))
    by (intros; by apply always_ret).
  eapply always_quiet; [apply spec_users_read|apply steps_nil|]. intros checked ls (g & -> & ->) Hs1.
  destruct (check_own_password _ _ _ _ _ _) as [[hash epoch]|e] eqn:Hc; [|by apply always_ret; [|apply Hdone]].
  apply always_bind. unfold users_change. split; [done|]. intros g2. cbn zeta.
  set (r := write_own_password _ _ _ _ _).
  assert (Hs2 : steps (web_guard t) (([] ++ [LUpdate g g]) ++ [LUpdate g2 (set_db r.2 g2)])).
  { apply steps_snoc. split; [done|]. split; [right; apply step_own_password|].
    intros token s Hl. left. by exists s. }
  split; [exact Hs2|]. cbn beta iota zeta. fold r. destruct r.1 as [[]|e]; [|by apply always_ret; [|apply Hdone]].
  eapply always_quiet; [apply quietly_remove_sessions_of|done|]. intros [] l1 _ Hs3.
  eapply always_quiet; [apply quietly_close_browser|done|]. intros [] l2 _ Hs4.
  apply always_bind. apply always_start; [done| | |].
  - split; [done|]. exists g, (hash, epoch). split; [autorewrite with task; set_solver|done].
  - be_quiet.
  - intros r' l3 Hs5. apply always_ret; [done|]. by apply Hdone.
Qed.

Lemma request_always fs cookie path :
  let t := TRequest fs cookie path in
  always (steps (web_guard t)) (web_task t) [] (web_result t).
Proof.
  cbn zeta. cbn [web_task]. set (t := TRequest _ _ _). apply always_bind. unfold authenticate.
  assert (Hno : ∀ h (e : ApiError), steps (web_guard t) h →
    always (steps (web_guard t)) (mret (result_ok (Err (A := AuthUser) e))) h (web_result t))
    by (intros; by apply always_ret).
  destruct cookie as [token|]; [|by apply always_ret; [apply steps_nil|apply Hno, steps_nil]].
  eapply always_quiet; [apply spec_get_session|apply steps_nil|]. intros found ls Hfound Hs1. cbn [app] in *.
  destruct found as [[name epoch]|]; [|by apply always_ret; [|apply Hno]].
  destruct (Hfound name epoch eq_refl) as (g1 & s & Hseen & Hmap & Hname & Hepoch).
  eapply always_quiet; [apply spec_users_read|done|]. intros st l2 (g2 & -> & ->) Hs2.
  destruct (session_state _ _ _) as [st|e] eqn:Hst; [|by apply always_ret; [|apply Hno]].
  destruct (st ≫= _) as [x|] eqn:Hx.
  2: { eapply always_quiet; [apply quietly_remove_session|done|]. intros [] l3 _ Hs3.
       by apply always_ret; [|apply Hno]. }
  apply always_ret; [done|]. unfold check_path. cbn [au_must_change].
  destruct (ss_must_change x && _) eqn:Hpath; [by apply Hno|].
  apply always_ret; [done|]. exists token. split; [done|].
  destruct st as [y|]; [|done]. simpl in Hx. destruct (Z.eqb_spec (ss_epoch y) epoch) as [He|]; [|done].
  injection Hx as ->. unfold session_state in Hst. apply bail_Ok in Hst as [_ Hst]. unfold find_user in Hst.
  destruct (users (g_db g2) !! name) as [row|] eqn:Hrow; [|done].
  apply result_bind_Ok in Hst as (r & Hr & [= <-]). cbn [ss_role ss_epoch ss_must_change] in *.
  exists g1, g2, s, row. cbn [au_username au_role au_must_change].
  split_and!; [|done|done|done|congruence|done|done|].
  - autorewrite with task. by rewrite Hseen.
  - intros Hm. rewrite Hm in Hpath. simpl in Hpath. by apply negb_false_iff, bool_decide_eq_true in Hpath.
Qed.

Lemma logout_always cookie :
  let t := TLogout cookie in always (steps (web_guard t)) (web_task t) [] (web_result t).
Proof.
  cbn zeta. cbn [web_task]. unfold logout. destruct cookie as [token|].
  - eapply always_quiet; [apply quietly_remove_session|apply steps_nil|]. intros [] ls _ Hs. by apply always_ret.
  - apply always_bind, always_ret; [apply steps_nil|]. by apply always_ret; [apply steps_nil|].
Qed.

Lemma task_always t : always (steps (web_guard t)) (web_task t) [] (web_result t).
Proof.
  destruct t; [apply login_always|apply change_always|apply request_always|apply logout_always].
Qed.

(** ** All tasks together *)

(** A session that state [i] knows was started for a row of the users' table
    in that state or an earlier one, by a task that had the password. *)
Definition origin (w : WebSystem) (i : nat) (s : WebSession) : Prop :=
  (∃ k d row, (k ≤ i)%nat ∧ states w !! k = Some d ∧
     users (g_db d) !! ws_username s = Some row ∧ u_epoch row = ws_epoch s) ∧
  ∃ th, th ∈ ws_threads w ∧ proved (wt_task th) (ws_username s) (wt_history th).

Record web_inv (w : WebSystem) : Prop := {
  wi_task i th : ws_threads w !! i = Some th →
    always (steps (web_guard (wt_task th))) (wt_program th) (wt_history th) (web_result (wt_task th));
  wi_seen i th : ws_threads w !! i = Some th → seen (wt_history th) `sublist_of` ws_past w;
  wi_chain i b a : states w !! i = Some b → states w !! S i = Some a → db_moves b a;
  wi_session i g token s : states w !! i = Some g → ws_map (g_web g) !! token = Some s → origin w i s;
}.

(** Later systems know more states, and their tasks did more. *)
Definition grows (w w' : WebSystem) : Prop :=
  states w `prefix_of` states w' ∧
  ∀ th, th ∈ ws_threads w → ∃ th', th' ∈ ws_threads w' ∧ wt_task th' = wt_task th ∧
    wt_history th `prefix_of` wt_history th'.

Lemma origin_grows w w' i s : grows w w' → origin w i s → origin w' i s.
Proof.
  intros [Hp Ht] [(k & d & row & Hk & Hd & Hr) (th & Hth & Hpr)]. split.
  - exists k, d, row. split_and!; [done|by eapply prefix_lookup_Some|apply Hr..].
  - destruct (Ht th Hth) as (th' & Hth' & Htask & [ls Hh]). exists th'. split; [done|].
    rewrite Htask, Hh. by apply proved_mono.
Qed.

Lemma same_origin w i s s' : same_web_session s s' → origin w i s → origin w i s'.
Proof. unfold origin. intros [-> ->]. done. Qed.

Lemma origin_later w i j s : (i ≤ j)%nat → origin w i s → origin w j s.
Proof. intros Hij [(k & d & row & Hk & Hd) Ht]. split; [exists k, d, row|done]. split; [lia|done]. Qed.

(** A new current state after a known one. *)
Lemma inv_new_state w w' g :
  web_inv w → grows w w' → states w' = states w ++ [g] → db_moves (ws_now w) g →
  (∀ token s, ws_map (g_web g) !! token = Some s →
     (∃ s0, ws_map (g_web (ws_now w)) !! token = Some s0 ∧ same_web_session s0 s) ∨
     origin w' (length (states w)) s) →
  (∀ i b a, states w' !! i = Some b → states w' !! S i = Some a → db_moves b a) ∧
  (∀ i g' token s, states w' !! i = Some g' → ws_map (g_web g') !! token = Some s → origin w' i s).
Proof.
  intros [_ _ Hc Hs] Hg Hst Hdb Hnew.
  assert (Hlast : states w !! pred (length (states w)) = Some (ws_now w)).
  { unfold states. rewrite length_app, Nat.add_1_r. by rewrite lookup_app_r, Nat.sub_diag by lia. }
  assert (Hlen : (0 < length (states w))%nat) by (unfold states; rewrite length_app; simpl; lia).
  split.
  - intros i b a Hb Ha. rewrite Hst in Hb, Ha.
    destruct (decide (S i < length (states w))%nat) as [Hi|Hi].
    + rewrite lookup_app_l in Hb, Ha by lia. by eapply Hc.
    + apply lookup_lt_Some in Ha as Hl. rewrite length_app in Hl. simpl in Hl.
      rewrite lookup_app_r in Ha by lia. replace (S i - length (states w))%nat with 0%nat in Ha by lia.
      injection Ha as <-. rewrite lookup_app_l in Hb by lia.
      replace i with (pred (length (states w))) in Hb by lia. rewrite Hlast in Hb. by injection Hb as <-.
  - intros i g' token s Hi Hl. rewrite Hst in Hi.
    destruct (decide (i < length (states w))%nat) as [Hlt|Hge].
    + rewrite lookup_app_l in Hi by done. eapply origin_grows; [done|]. by eapply Hs.
    + apply lookup_lt_Some in Hi as Hl'. rewrite length_app in Hl'. simpl in Hl'.
      rewrite lookup_app_r in Hi by lia. replace (i - length (states w))%nat with 0%nat in Hi by lia.
      injection Hi as <-. replace i with (length (states w)) by lia.
      destruct (Hnew token s Hl) as [(s0 & Hs0 & Hsame)|Ho]; [|done].
      eapply same_origin; [done|]. eapply origin_grows; [done|].
      eapply origin_later; [|by eapply (Hs _ _ token s0 Hlast)]. lia.
Qed.

Lemma web_step_inv w w' : web_inv w → web_step w w' → web_inv w'.
Proof.
  intros Hinv Hstep. pose proof Hinv as [Ht Hn Hc Hs].
  destruct Hstep as [t|i th l p Hi Hd Hon|g Hdb Hsm].
  - assert (Hg : grows w (mkWebSystem (ws_past w) (ws_now w) (ws_threads w ++ [mkWebThread t [] (web_task t)]))).
    { split; [done|]. intros th Hth. exists th. split_and!; [apply elem_of_app; by left|done|done]. }
    split; cbn [ws_threads ws_past] in *.
    + intros j th Hj. apply lookup_app_Some in Hj as [Hj|[_ Hj]]; [by eapply Ht|].
      apply list_lookup_singleton_Some in Hj as [_ <-]. apply task_always.
    + intros j th Hj. apply lookup_app_Some in Hj as [Hj|[_ Hj]]; [by eapply Hn|].
      apply list_lookup_singleton_Some in Hj as [_ <-]. apply sublist_nil_l.
    + apply Hc.
    + intros j g token s Hj Hl. eapply origin_grows; [exact Hg|]. by eapply Hs.
  - set (w' := mkWebSystem _ _ _).
    pose proof (always_does _ _ _ _ _ _ Hd (Ht i th Hi)) as Ha.
    assert (Hin : <[i := mkWebThread (wt_task th) (wt_history th ++ [l]) p]> (ws_threads w) !! i =
                  Some (mkWebThread (wt_task th) (wt_history th ++ [l]) p))
      by (apply list_lookup_insert_eq; by eapply lookup_lt_Some).
    assert (Hcase : ∀ j th', ws_threads w' !! j = Some th' →
      ws_threads w !! j = Some th' ∨ th' = mkWebThread (wt_task th) (wt_history th ++ [l]) p).
    { intros j th' Hj. cbn in Hj. destruct (decide (j = i)) as [->|Hne].
      - rewrite Hin in Hj. injection Hj as <-. by right.
      - left. by rewrite list_lookup_insert_ne in Hj by done. }
    assert (Hst : states w' = match l with LUpdate _ a => states w ++ [a] | _ => states w end).
    { unfold states, w'. cbn. by destruct l; cbn. }
    assert (Hg : grows w w').
    { split; [rewrite Hst; destruct l as [| | |b a| | | | | |]; try done; by exists [a]|].
      intros t Hin'. apply list_elem_of_lookup in Hin' as [j Hj]. destruct (decide (j = i)) as [->|Hne].
      - rewrite Hi in Hj. injection Hj as <-. eexists. split; [by eapply list_elem_of_lookup_2|].
        split; [done|]. by exists [l].
      - exists t. split_and!; [|done|done]. apply (list_elem_of_lookup_2 _ j). cbn.
        by rewrite list_lookup_insert_ne. }
    assert (Hseen : ∀ j th', ws_threads w' !! j = Some th' → seen (wt_history th') `sublist_of` ws_past w').
    { intros j th' Hj. destruct (Hcase j th' Hj) as [Hj'| ->].
      - etrans; [by eapply Hn|]. cbn. destruct l; cbn; try done. by apply sublist_inserts_r.
      - cbn [wt_history]. rewrite seen_app. pose proof (Hn i th Hi) as Hsub. cbn [ws_past w'].
        destruct l; cbn [web_past seen omap list_omap app]; rewrite ?app_nil_r; try done.
        cbn in Hon. subst. by apply sublist_app. }
    assert (Htask : ∀ j th', ws_threads w' !! j = Some th' →
      always (steps (web_guard (wt_task th'))) (wt_program th') (wt_history th') (web_result (wt_task th'))).
    { intros j th' Hj. destruct (Hcase j th' Hj) as [Hj'| ->]; [by eapply Ht|exact Ha]. }
    destruct l as [| | |b a| | | | | |].
    4: { cbn in Hon. subst b. apply always_inv in Ha as Hsteps.
         destruct (Hsteps _ (LUpdate (ws_now w) a) [] eq_refl) as [Hdb Hnew].
         destruct (inv_new_state w w' a Hinv Hg Hst Hdb) as [H1' H2']; [|by split].
         intros token s Hl. destruct (Hnew token s Hl) as [?|Hgr]; [by left|right].
         apply granted_mono with (ls := [LUpdate (ws_now w) a]) in Hgr as [Hp _].
         destruct (Hnew token s Hl) as [[s0 [Hs0 Hsame]]|[_ (g & row & Hgs & Hrow & He)]].
         { eapply same_origin; [done|]. eapply origin_grows; [done|]. eapply origin_later;
             [|eapply (Hs (length (ws_past w)) _ token s0)]; [|unfold states; by rewrite lookup_app_r, Nat.sub_diag|done].
           unfold states. rewrite length_app. lia. }
         split.
         - eapply elem_of_sublist in Hgs; [|by eapply Hn]. apply list_elem_of_lookup in Hgs as [k Hk].
           exists k, g, row. split_and!; [|rewrite Hst; unfold states|done|done].
           + apply lookup_lt_Some in Hk. unfold states. rewrite length_app. lia.
           + apply lookup_lt_Some in Hk as Hlt. by rewrite !lookup_app_l by (rewrite ?length_app; lia).
         - exists (mkWebThread (wt_task th) (wt_history th ++ [LUpdate (ws_now w) a]) p).
           split; [by eapply list_elem_of_lookup_2|done]. }
    all: split; [done|done|by rewrite Hst|]; intros j g token s Hj Hl; rewrite Hst in Hj;
      (eapply origin_grows; [exact Hg|]); by eapply Hs.
  - set (w' := mkWebSystem _ _ _).
    assert (Hst : states w' = states w ++ [g]) by done.
    assert (Hg : grows w w').
    { split; [rewrite Hst; by exists [g]|]. intros th Hth. by exists th. }
    destruct (inv_new_state w w' g Hinv Hg Hst Hdb) as [H1' H2'].
    { intros token s Hl. left. by apply Hsm. }
    split; [exact Ht| |done|done]. intros i th Hi. cbn. apply sublist_inserts_r. by eapply Hn.
Qed.

Lemma web_reachable_inv w : web_reachable w → web_inv w.
Proof.
  induction 1 as [g Hg|w w' Hr IH Hstep]; [|by eapply web_step_inv].
  split; cbn.
  - intros i th Hi. by rewrite lookup_nil in Hi.
  - intros i th Hi. by rewrite lookup_nil in Hi.
  - intros i b a _ Ha. apply lookup_lt_Some in Ha. cbn in Ha. lia.
  - intros i g' token s Hi. apply list_lookup_singleton_Some in Hi as [_ <-]. by rewrite Hg, lookup_empty.
Qed.

(** A user who is there all the time: the row is the same as at the start, or
    has a higher epoch. *)
Lemma row_since w k d name row : web_inv w →
  states w !! k = Some d → users (g_db d) !! name = Some row →
  ∀ i g row', (k ≤ i)%nat → states w !! i = Some g → users (g_db g) !! name = Some row' →
  (∀ j s, (k ≤ j ≤ i)%nat → states w !! j = Some s → is_Some (users (g_db s) !! name)) →
  row' = row ∨ u_epoch row < u_epoch row'.
Proof.
  intros Hinv Hd Hrow i g row' Hki. revert g row'. induction Hki as [|i Hki IH]; intros g row' Hg Hr' Hall.
  - left. congruence.
  - destruct (lookup_lt_is_Some_2 (states w) i) as [m Hm]; [apply lookup_lt_Some in Hg; lia|].
    destruct (Hall i m) as [rm Hrm]; [lia|done|].
    assert (Hi : rm = row ∨ u_epoch row < u_epoch rm).
    { apply (IH m rm Hm Hrm). intros j s Hj. apply Hall. lia. }
    destruct (wi_chain w Hinv i m g Hm Hg) as [Heq|Hst].
    + rewrite Heq in Hr'. assert (row' = rm) as -> by congruence. done.
    + destruct (step_epoch _ _ name rm row' Hst Hrm Hr') as [->|Hlt]; [done|].
      right. destruct Hi as [->|?]; [done|lia].
Qed.

End WebSession.

(** ** Running the tasks one after the other *)
Section WebRunning.
Context `{Opc} `{StoreEnv} `{UserEnv}.

(** Task [i] run on to its end, by itself. *)
Definition ran (wd : World) (i : nat) (th : WebThread) (w : WebSystem) : WebSystem :=
  let r := exec wd (wt_program th) (ws_now w) in
  mkWebSystem (ws_past w ++ seen r.1.1) r.2
    (<[i := mkWebThread (wt_task th) (wt_history th ++ r.1.1)
              (match r.1.2 with Some a => Ret a | None => Panic end)]> (ws_threads w)).

Lemma one_web_effect w i t h p0 l p :
  web_reachable w → ws_threads w !! i = Some (mkWebThread t h p0) → does p0 l p → web_on l (ws_now w) →
  let w' := mkWebSystem (web_past l w) (web_after l (ws_now w))
              (<[i := mkWebThread t (h ++ [l]) p]> (ws_threads w)) in
  web_reachable w' ∧ ws_threads w' !! i = Some (mkWebThread t (h ++ [l]) p).
Proof.
  intros Hw Hi Hd Hon w'. split.
  - eapply w_next; [exact Hw|]. exact (w_effect w i _ l p Hi Hd Hon).
  - apply list_lookup_insert_eq. by eapply lookup_lt_Some.
Qed.

Lemma ran_reachable wd w i th :
  web_reachable w → ws_threads w !! i = Some th → web_reachable (ran wd i th w).
Proof.
  destruct th as [t h p]. unfold ran. cbn [wt_program wt_task wt_history].
  revert h w. induction p as [a| |k IH|k IH|c e k IH|f k IH|k IH|r tm k IH|r k IH|x po k IH|e k IH|k IH];
    intros h w Hw Hi; cbn [exec fst snd].
  1, 2: cbn; rewrite !app_nil_r, list_insert_id by done; by destruct w.
  all: lazymatch goal with
    | |- context [exec ?wd' ?p' ?s'] =>
        lazymatch goal with
        | |- context [_ ++ ?l :: _] =>
            destruct (one_web_effect _ _ _ _ _ l p' Hw Hi ltac:(constructor) ltac:(by cbn)) as [Hw1 Hi1]
        end
    end.
  all: first [pose proof (IH _ _ Hw1 Hi1) as Hend|pose proof (IH _ _ _ Hw1 Hi1) as Hend];
    cbn [ws_past ws_now ws_threads web_past web_after] in Hend;
    rewrite list_insert_insert_eq, <- !app_assoc in Hend; exact Hend.
Qed.
End WebRunning.

(** Ann logs in; her next request carries the cookie. *)
Section WebWitness.
Import Toy ToyOpc ToyUsers.

Definition web_start : Gw := mkGw two_admins (mkWebSessions ∅ ∅ ∅) ∅.
Definition calm : Faults := mkFaults (fun _ => yes) true true "s$nobody".
Definition web_world : World :=
  mkWorld 1000 "r" (fun _ => Ok 1) false (fun _ => Err BadTimeout) (fun _ _ => Ok ()) (fun _ => Ok ()) (Err "").
Definition ann_login : WebTask := TLogin calm true None "ann" "ann's secret".
Definition ann_request : WebTask := TRequest calm (Some (hex_encode "r")) "/api/targets".
Definition fresh (t : WebTask) : WebThread := mkWebThread t [] (web_task t).

Definition web_before : WebSystem := mkWebSystem [] web_start [fresh ann_login; fresh ann_request].
Definition web_logged_in : WebSystem := ran web_world 0 (fresh ann_login) web_before.
Definition web_done : WebSystem := ran web_world 1 (fresh ann_request) web_logged_in.

Lemma web_done_reachable : web_reachable web_done.
Proof.
  assert (H0 : web_reachable web_before).
  { unfold web_before. eapply w_next; [|exact (w_spawn (mkWebSystem [] web_start [_]) _)].
    eapply w_next; [|exact (w_spawn (mkWebSystem [] web_start []) _)]. by apply w_start. }
  apply ran_reachable; [by apply ran_reachable|done].
Qed.

End WebWitness.
