(* ===== verification/WebUsers.v ===== *)
(** The web UI's handlers for users and API tokens, and the host names it
    answers to ([src/src/web/mod.rs]).

    A handler is the part of a request after the [AuthUser] extractor
    ([WebAuth.authenticate]) let it in: a program over the shared state. *)

From S2P Require Import Prelude Net Event Store Config Opc Users Browser Task WebAuth.

(** ** Host names *)

(** [str::ends_with] for a char. *)
Definition ends_with (c : ascii) (s : string) : bool :=
  match rsplit_once c s with Some (_, EmptyString) => true | _ => false end.

(** The host name of a Host header, without the port. *)
Definition host_name (host : string) : string :=
  match rsplit_once ":" host with
  | Some (name, port) =>
      if string_all is_ascii_digit port && negb (ends_with ":" name) then name else host
  | None => host
  end.

Definition is_loopback_host (host : string) : bool :=
  bool_decide (host_name host ∈ ["localhost"; "127.0.0.1"; "[::1]"]).

(** Whether the UI answers to this Host header. *)
Definition host_allowed (host : string) (loopback : bool) (names : list string) : bool :=
  if is_loopback_host host then true
  else if loopback then false
  else
    let name := to_ascii_lowercase (host_name host) in
    let ip := trim_end_matches "]" (trim_start_matches "[" name) in
    negb (String.eqb name EmptyString) &&
    (bool_decide (is_Some (ip_parse ip)) || existsb (fun n => eq_ignore_ascii_case n name) names).

(** The names [security_headers] allows: [web] is the configuration at start,
    [certificate_hostnames] what it is now, [computer] the machine's names. *)
Definition known_hosts (web : WebConfig) (certificate_hostnames computer : list string) : list string :=
  if is_loopback (ip (listen web)) then allowed_hosts web
  else allowed_hosts web ++ certificate_hostnames ++ computer.

(** A request's way in, before any handler. *)
Definition let_through (web : WebConfig) (certificate_hostnames computer : list string) (host : string)
    : result ApiError unit :=
  if host_allowed host (is_loopback (ip (listen web))) (known_hosts web certificate_hostnames computer)
  then Ok () else Err (mkApiError 421 "unknown host name").

Definition trimmed (s : option string) : option string :=
  t ← (trim <$> s); if String.eqb t EmptyString then None else Some t.

(** ** Users and tokens *)
Definition mcp_scope_role (scope : string) : Role :=
  if String.eqb scope "alarms" then Operator else Admin.

Record NewUser : Type := mkNewUser { nu_username : string; nu_password : string; nu_role : Role }.
Record UserUpdate : Type := mkUserUpdate { uu_role : option Role; uu_password : option string }.
Record NewToken : Type := mkNewToken { nt_name : string; nt_scopes : list string }.

Section Handlers.
Context `{Opc} `{StoreEnv} `{UserEnv}.
Abbreviation web := (prog Gw).

(** [user.require(role)?; k] *)
Definition requires {S A} (r : Role) (u : AuthUser) (k : prog S (result ApiError A)) : prog S (result ApiError A) :=
  match require r u with Ok _ => k | Err e => mret (Err e) end.

(** [r.map_err(f)?] *)
Definition try {S E A B} (f : E → ApiError) (r : result E A) (k : A → prog S (result ApiError B))
    : prog S (result ApiError B) :=
  match r with Ok a => k a | Err e => mret (Err (f e)) end.

Definition list_users (fs : Faults) (u : AuthUser) : web (result ApiError (list User)) :=
  requires Admin u (r ← users_read (Users.list_users (f_io fs 0)); try api_internal r (fun l => mret (Ok l))).

Definition create_user (fs : Faults) (salt now : string) (u : AuthUser) (req : NewUser)
    : web (result ApiError unit) :=
  requires Admin u
    (r ← users_change (create_with (f_io fs 0) salt now (nu_username req) (nu_password req) (nu_role req) true);
     try api_bad_request r (fun _ =>
       _ ← config_changed u ("created user '" +:+ nu_username req +:+ "' (" +:+ role_str (nu_role req) +:+ ")");
       mret (Ok ()))).

Definition update_user (fs : Faults) (salt : string) (u : AuthUser) (name : string) (req : UserUpdate)
    : web (result ApiError unit) :=
  requires Admin u
    (r ← users_change (Users.update (f_io fs 0) salt name (uu_role req) (uu_password req) true);
     try api_bad_request r (fun changes =>
       _ ← remove_sessions_of name;
       _ ← (if bool_decide (is_Some (uu_password req)) ||
               match uu_role req with Some r => role_rank r <? role_rank Operator | None => false end
            then close_browser (take_user name) else mret ());
       _ ← config_changed u ("changed user '" +:+ name +:+ "': " +:+ join ", " changes);
       mret (Ok ()))).

Definition delete_user (fs : Faults) (u : AuthUser) (name : string) : web (result ApiError unit) :=
  requires Admin u
    (r ← users_change (Users.delete (f_io fs 0) name);
     try api_bad_request r (fun _ =>
       _ ← remove_sessions_of name;
       _ ← close_browser (take_user name);
       _ ← config_changed u ("deleted user '" +:+ name +:+ "'");
       mret (Ok ()))).

Definition all_tokens (fs : Faults) (u : AuthUser) : web (result ApiError (list (string * ApiToken))) :=
  requires Admin u (r ← users_read (Users.all_tokens (f_io fs)); try api_internal r (fun l => mret (Ok l))).

Definition revoke_token (fs : Faults) (u : AuthUser) (name id : string) : web (result ApiError unit) :=
  requires Admin u
    (r ← users_change (Users.delete_token (f_io fs 0) name id);
     try api_not_found r (fun token =>
       _ ← config_changed u ("revoked API token '" +:+ token +:+ "' (" +:+ id +:+ ") of user '" +:+ name +:+ "'");
       mret (Ok ()))).

Definition list_tokens (fs : Faults) (u : AuthUser) : web (result ApiError (list ApiToken)) :=
  r ← users_read (Users.tokens_of (f_io fs 0) (au_username u)); try api_internal r (fun l => mret (Ok l)).

(** The first scope the user may not hand out. *)
Fixpoint require_scopes (scopes : list string) (u : AuthUser) : result ApiError unit :=
  match scopes with
  | [] => Ok ()
  | s :: rest => _ ← require (mcp_scope_role s) u; require_scopes rest u
  end.

Definition access_text (scopes : list string) : string :=
  match scopes with [] => "read only" | _ => "may change " +:+ join ", " scopes end.

(** [id] and [random] are random digits. *)
Definition create_token (fs : Faults) (id random now : string) (u : AuthUser) (req : NewToken)
    : web (result ApiError (ApiToken * string)) :=
  match require_scopes (nt_scopes req) u with
  | Err e => mret (Err e)
  | Ok _ =>
      r ← users_change (Users.create_token (f_io fs 0) id random now (au_username u) (nt_name req) (nt_scopes req));
      try api_bad_request r (fun t =>
        _ ← config_changed u ("created API token '" +:+ at_name t.1 +:+ "' (" +:+ at_id t.1 +:+ ", "
                                +:+ access_text (at_scopes t.1) +:+ ")");
        mret (Ok t))
  end.

Definition delete_token (fs : Faults) (u : AuthUser) (id : string) : web (result ApiError unit) :=
  r ← users_change (Users.delete_token (f_io fs 0) (au_username u) id);
  try api_not_found r (fun name =>
    _ ← config_changed u ("deleted API token '" +:+ name +:+ "' (" +:+ id +:+ ")");
    mret (Ok ())).

(** ** Properties *)

(** The handlers that change the users' tables. *)
Inductive UserOp : Type :=
| OpCreateUser (salt now : string) (req : NewUser)
| OpUpdateUser (salt name : string) (req : UserUpdate)
| OpDeleteUser (name : string)
| OpRevokeToken (name id : string)
| OpCreateToken (id random now : string) (req : NewToken)
| OpDeleteToken (id : string)
(** [auth::change_password] *)
| OpOwnPassword (tls : bool) (salt : string) (current : option string) (new : string).

Definition ok_unit {A} (r : result ApiError A) : result ApiError unit :=
  match r with Ok _ => Ok () | Err e => Err e end.

Definition serve (fs : Faults) (u : AuthUser) (op : UserOp) : web (result ApiError unit) :=
  match op with
  | OpCreateUser salt now req => create_user fs salt now u req
  | OpUpdateUser salt name req => update_user fs salt u name req
  | OpDeleteUser name => delete_user fs u name
  | OpRevokeToken name id => revoke_token fs u name id
  | OpCreateToken id random now req => r ← create_token fs id random now u req; mret (ok_unit r)
  | OpDeleteToken id => delete_token fs u id
  | OpOwnPassword tls salt current new => r ← change_password fs tls salt u current new; mret (ok_unit r)
  end.

(** Who may do it. *)
Definition may (u : AuthUser) (op : UserOp) : Prop :=
  match op with
  | OpCreateUser _ _ _ | OpUpdateUser _ _ _ | OpDeleteUser _ | OpRevokeToken _ _ => au_role u = Admin
  | OpCreateToken _ _ _ req => ∀ s, s ∈ nt_scopes req → role_rank (mcp_scope_role s) ≤ role_rank (au_role u)
  | OpDeleteToken _ | OpOwnPassword _ _ _ _ => True
  end.

(** Whose row and tokens it can change. *)
Definition touches (u : AuthUser) (op : UserOp) : string :=
  match op with
  | OpCreateUser _ _ req => nu_username req
  | OpUpdateUser _ name _ | OpDeleteUser name | OpRevokeToken name _ => name
  | OpCreateToken _ _ _ _ | OpDeleteToken _ | OpOwnPassword _ _ _ _ => au_username u
  end.

Definition config_change (u : AuthUser) (e : AuditEntry) : Prop := ∃ s, event e = ConfigChanged (actor u) s.
Definition session_end (e : AuditEntry) : Prop := event e = SessionClosed.

(** Nothing but sessions that end: the tables stay as they are. *)
Definition ending (l : label Gw) : Prop :=
  match l with
  | LUpdate b a => g_db a = g_db b
  | LRecord _ e _ => session_end e
  | _ => True
  end.

(** A step that changes the tables can fail after they were changed: deleting
    the tokens of a deleted user, and starting a new session for a user who
    changed their own password. *)
Definition can_stop_halfway (op : UserOp) : Prop :=
  match op with OpDeleteUser _ | OpOwnPassword _ _ _ _ => True | _ => False end.

(** What a request did: the tables' changes, then sessions that ended, then
    the record of the change. *)
Definition accounted (u : AuthUser) (op : UserOp) (ls : list (label Gw)) (r : result ApiError unit) : Prop :=
  (∀ b a, LUpdate b a ∈ ls → unique_ids (g_db b) → only_user (touches u op) (g_db b) (g_db a)) ∧
  (may u op ∨ Forall ending ls) ∧
  match r with
  | Ok _ => may u op ∧ ∃ rest e, recorded ls = rest ++ [e] ∧ config_change u e ∧ Forall session_end rest
  | Err _ => Forall session_end (recorded ls) ∧ (Forall ending ls ∨ can_stop_halfway op)
  end.

Lemma ending_recorded ls : Forall ending ls → Forall session_end (recorded ls).
Proof. unfold recorded. induction 1 as [|[] ls Hl _ IH]; simpl; try done. by constructor. Qed.

Lemma ending_only name ls b a : Forall ending ls → LUpdate b a ∈ ls → only_user name (g_db b) (g_db a).
Proof. rewrite Forall_forall. intros Hl Hin. specialize (Hl _ Hin). simpl in Hl. rewrite Hl. apply only_user_refl. Qed.

(** A refused or failed request. *)
Lemma accounted_Err u op ls e : Forall ending ls → accounted u op ls (Err e).
Proof.
  intros Hl. split; [intros b a Hin _; by eapply ending_only|]. split; [by right|].
  split; [by apply ending_recorded|by left].
Qed.

(** A change that went through. *)
Lemma accounted_Ok u op b a ls e c r :
  may u op → (unique_ids (g_db b) → only_user (touches u op) (g_db b) (g_db a)) → Forall ending ls →
  config_change u e →
  accounted u op ([LUpdate b a] ++ ls ++ [LClock (ts e); LRecord c e r]) (Ok ()).
Proof.
  intros Hm Ho Hl He. split; [|split; [by left|split; [done|]]].
  - intros b' a' [[= -> ->]%list_elem_of_singleton|[Hin|Hin]%elem_of_app]%elem_of_app.
    + done.
    + intros _. by eapply ending_only.
    + apply elem_of_cons in Hin as [?|Hin]; [done|]. apply list_elem_of_singleton in Hin. done.
  - exists (recorded ls), e. autorewrite with task. split; [done|]. split; [done|]. by apply ending_recorded.
Qed.

(** A change that was made, and a later part that failed. *)
Lemma accounted_halfway u op b a ls e :
  can_stop_halfway op → may u op → (unique_ids (g_db b) → only_user (touches u op) (g_db b) (g_db a)) →
  Forall ending ls → accounted u op ([LUpdate b a] ++ ls) (Err e).
Proof.
  intros Hc Hm Ho Hl. split; [|split; [by left|split; [|by right]]].
  - intros b' a' [[= -> ->]%list_elem_of_singleton|Hin]%elem_of_app; [done|].
    intros _. by eapply ending_only.
  - autorewrite with task. cbn. by apply ending_recorded.
Qed.

(** Reads before the change. *)
Lemma accounted_after u op l0 ls r : Forall ending l0 → accounted u op ls r → accounted u op (l0 ++ ls) r.
Proof.
  intros Hl (Ho & Hm & Hr). split; [|split].
  - intros b a [Hin|Hin]%elem_of_app Hu; [by eapply ending_only|by apply Ho].
  - destruct Hm as [?|?]; [by left|right; by apply Forall_app].
  - autorewrite with task. apply ending_recorded in Hl as Hl'. destruct r as [[]|e].
    + destruct Hr as (Hy & rest & e & -> & He & Hrest). split; [done|].
      exists (recorded l0 ++ rest), e. rewrite app_assoc. split_and!; [done|done|by apply Forall_app].
    + destruct Hr as (Hrec & Hc). split; [by apply Forall_app|]. destruct Hc; [left; by apply Forall_app|by right].
Qed.

(** *** The parts of a handler *)
Lemma runs_users_change {A} (f : UserDb → A * UserDb) ls r :
  runs (users_change f) ls (Ret r) → ∃ g, ls = [LUpdate g (set_db (f (g_db g)).2 g)] ∧ r = (f (g_db g)).1.
Proof. unfold users_change. intros Hr. run_parts. by exists s. Qed.

Lemma runs_users_read {A} (f : UserDb → A) ls r :
  runs (users_read f) ls (Ret r) → ∃ g, ls = [LUpdate g g] ∧ r = f (g_db g).
Proof. unfold users_read. intros Hr. run_parts. by exists s. Qed.

Lemma runs_config_changed {S} u s (ls : list (label S)) r :
  runs (config_changed u s) ls (Ret r) →
  ∃ e, ls = [LClock (ts e); LRecord true e r] ∧ config_change u e.
Proof.
  unfold config_changed, audit. intros Hr. run_parts.
  eexists (new_entry _ _). split; [done|]. by eexists.
Qed.

Lemma runs_remove_sessions name ls r : runs (remove_sessions_of name) ls (Ret r) → Forall ending ls.
Proof. unfold remove_sessions_of, web_map. intros Hr. run_parts. by repeat constructor. Qed.

Lemma runs_close_all l ls r : runs (close_all l) ls (Ret r) → Forall ending ls.
Proof.
  revert ls. induction l as [|e l IH]; intros ls; cbn [close_all]; unfold audit; intros Hr; run_parts; [done|].
  apply IH in Hr1. by repeat constructor.
Qed.

Lemma runs_close_browser f ls r : runs (close_browser f) ls (Ret r) → Forall ending ls.
Proof.
  unfold close_browser. intros Hr. run_parts. apply runs_close_all in Hr1. by constructor.
Qed.

Lemma runs_create_session fs name epoch ls r : runs (create_session fs name epoch) ls (Ret r) → Forall ending ls.
Proof.
  unfold create_session, web_map. destruct (f_rng fs); cbn [negb]; intros Hr; run_parts; by repeat constructor.
Qed.

(** A session started: the reads, and what is recorded at the end. *)
Lemma runs_start_session fs tls name log ls r :
  runs (start_session fs tls name log) ls (Ret r) →
  match r with
  | Ok _ => ∃ l1 l2 x, ls = l1 ++ l2 ∧ Forall ending l1 ∧ runs log l2 (Ret x)
  | Err _ => Forall ending ls
  end.
Proof.
  unfold start_session. intros Hr. run_parts. apply runs_users_read in Hr0 as (g & -> & ->).
  destruct (session_state _ _ _) as [[s|]|e]; run_parts; [|by repeat constructor..].
  match goal with H : runs (create_session _ _ _) _ _ |- _ => apply runs_create_session in H end.
  match goal with H : runs (match ?x with _ => _ end) _ _ |- _ => destruct x as [token|e] end; run_parts.
  - eexists ([LUpdate g g] ++ _), _, _. split_and!; [rewrite app_nil_r; by rewrite <- app_assoc| |done].
    apply Forall_app. split; [by repeat constructor|done].
  - rewrite app_nil_r. apply Forall_app. split; [by repeat constructor|done].
Qed.

Lemma require_Ok r u : require r u = Ok () → role_rank r ≤ role_rank (au_role u).
Proof. unfold require. destruct (Z.leb_spec (role_rank r) (role_rank (au_role u))); done. Qed.
Lemma require_Admin u : require Admin u = Ok () → au_role u = Admin.
Proof. intros Hr%require_Ok. destruct (au_role u); simpl in Hr; [lia|lia|done]. Qed.
Lemma require_scopes_Ok l u :
  require_scopes l u = Ok () → ∀ s, s ∈ l → role_rank (mcp_scope_role s) ≤ role_rank (au_role u).
Proof.
  induction l as [|x l IH]; simpl; [set_solver|]. intros ([] & Hx%require_Ok & Hl)%result_bind_Ok s.
  rewrite elem_of_cons. intros [->|?]; [done|]. by apply IH.
Qed.

(** *** Each handler *)

(** The parts of a handler's run. *)
Ltac pieces :=
  run_parts; cbn [fst snd] in *;
  repeat match goal with
  | Hr : runs (users_change _) _ (Ret _) |- _ => apply runs_users_change in Hr as (? & -> & ->)
  | Hr : runs (config_changed _ _) _ (Ret _) |- _ => apply runs_config_changed in Hr as (? & -> & ?)
  | Hr : runs (remove_sessions_of _) _ (Ret _) |- _ => apply runs_remove_sessions in Hr
  | Hr : runs (close_browser _) _ (Ret _) |- _ => apply runs_close_browser in Hr
  end.

(** A handler for one role: refused, or allowed. *)
Lemma runs_requires {S A} role u (k : prog S (result ApiError A)) ls r :
  runs (requires role u k) ls (Ret r) →
  (∃ e, r = Err e ∧ ls = []) ∨ role_rank role ≤ role_rank (au_role u) ∧ runs k ls (Ret r).
Proof.
  unfold requires. destruct (require role u) as [[]|e] eqn:Ha; intros Hr.
  - right. split; [by apply require_Ok|done].
  - left. run_parts. eauto.
Qed.

Lemma runs_try {S E A B} (f : E → ApiError) r (k : A → prog S (result ApiError B)) ls y :
  runs (try f r k) ls (Ret y) →
  (∃ e, r = Err e ∧ y = Err (f e) ∧ ls = []) ∨ ∃ a, r = Ok a ∧ runs (k a) ls (Ret y).
Proof. unfold try. destruct r as [a|e]; intros Hr; [right; eauto|left]. run_parts. eauto. Qed.

Lemma needs_admin u : role_rank Admin ≤ role_rank (au_role u) → au_role u = Admin.
Proof. destruct (au_role u); simpl; [lia|lia|done]. Qed.

(** What is done after a change: sessions end, and the change is recorded. *)
Definition ends_with_record {A} (u : AuthUser) (p : web (result ApiError A)) : Prop :=
  ∀ ls x, runs p ls (Ret x) → is_ok x = true ∧
    ∃ l1 e r, ls = l1 ++ [LClock (ts e); LRecord true e r] ∧ Forall ending l1 ∧ config_change u e.

Lemma config_changed_ends {A} u text (a : A) : ends_with_record u (_ ← config_changed u text; mret (Ok a)).
Proof.
  intros ls x Hr. pieces. split; [done|]. eexists [], _, _. rewrite app_nil_r.
  split_and!; [reflexivity|constructor|done].
Qed.

Lemma then_ends {A B} u (p : web B) (q : web (result ApiError A)) :
  (∀ ls x, runs p ls (Ret x) → Forall ending ls) → ends_with_record u q →
  ends_with_record u (_ ← p; q).
Proof.
  intros Hp Hq ls x Hr. run_parts.
  match goal with H1 : runs p _ _, H2 : runs q _ _ |- _ => apply Hp in H1; apply Hq in H2 as (Hok & l1 & e & r & -> & Hl & He) end.
  split; [done|]. eexists (_ ++ l1), e, r. split_and!; [by rewrite app_assoc|by apply Forall_app|done].
Qed.

(** One change of the tables, and what follows it. *)
Lemma change_accounted {A B} u op (f : UserDb → result string A * UserDb) err k ls (r : result ApiError B) :
  (∀ db, may u op ∧ (unique_ids db → only_user (touches u op) db (f db).2) ∧
         (∀ e, (f db).1 = Err e → (f db).2 = db ∨ can_stop_halfway op)) →
  (∀ a, ends_with_record u (k a)) →
  runs (r ← users_change f; try err r k) ls (Ret r) →
  accounted u op ls (ok_unit r).
Proof.
  intros Hf Hk Hr. pieces.
  match goal with g : Gw |- _ => destruct (Hf (g_db g)) as (Hm & Ho & He); destruct (f (g_db g)) as [[a|e] db'] eqn:Hfg end;
    cbn [fst snd try] in *.
  - match goal with H : runs (k _) _ _ |- _ => apply Hk in H as (Hok & l1 & e & y & -> & Hl & Hc) end.
    destruct r as [b|]; [|done]. by apply accounted_Ok.
  - pieces. destruct (He e eq_refl) as [->|Hh].
    + apply accounted_Err. by repeat constructor.
    + by apply (accounted_halfway _ _ _ _ []).
Qed.

Lemma ok_unit_id (r : result ApiError unit) : ok_unit r = r.
Proof. by destruct r as [[]|]. Qed.

Lemma admin_change {A} u op (f : UserDb → result string A * UserDb) err k ls r :
  (au_role u = Admin → may u op) →
  (∀ db, unique_ids db → only_user (touches u op) db (f db).2) →
  (∀ db e, (f db).1 = Err e → (f db).2 = db ∨ can_stop_halfway op) →
  (∀ a, ends_with_record u (k a)) →
  runs (requires Admin u (r ← users_change f; try err r k)) ls (Ret r) →
  accounted u op ls r.
Proof.
  intros Hm Ho He Hk [(e & -> & ->)|[Ha Hr]]%runs_requires; [by apply accounted_Err|].
  apply needs_admin in Ha. rewrite <- ok_unit_id. eapply change_accounted; [|exact Hk|exact Hr]. intros db. split_and!; [by apply Hm|apply Ho|apply He].
Qed.

Lemma Err_same {A} (f : UserDb → result string A * UserDb) db e :
  (∀ e db', f db = (Err e, db') → db' = db) → (f db).1 = Err e → (f db).2 = db.
Proof. intros Hf He. destruct (f db) as [x db'] eqn:Hx. simpl in *. subst x. by eapply Hf. Qed.

Lemma create_user_accounted fs salt now u req ls r :
  runs (create_user fs salt now u req) ls (Ret r) → accounted u (OpCreateUser salt now req) ls r.
Proof.
  apply admin_change; [done| | |].
  - intros db _. apply create_only.
  - intros db e He. left. revert He. unfold create_with, insert_user.
    destruct (_ ≫= _); [|done]. destruct (negb _); [done|]. by destruct (find_user _ _).
  - intros a. apply config_changed_ends.
Qed.

Lemma update_user_accounted fs salt u name req ls r :
  runs (update_user fs salt u name req) ls (Ret r) → accounted u (OpUpdateUser salt name req) ls r.
Proof.
  apply admin_change; [done| | |].
  - intros db _. apply update_only.
  - intros db e He. left. destruct (update _ _ _ _ _ _ db) as [x db'] eqn:Hx. simpl in *. subst x.
    by eapply update_Err.
  - intros a. apply then_ends; [apply runs_remove_sessions|]. apply then_ends; [|apply config_changed_ends].
    intros ls0 x. destruct (_ || _); [apply runs_close_browser|]. intros Hx. by run_parts.
Qed.

Lemma delete_user_accounted fs u name ls r :
  runs (delete_user fs u name) ls (Ret r) → accounted u (OpDeleteUser name) ls r.
Proof.
  apply admin_change; [done| | |].
  - intros db _. apply delete_only.
  - intros db e _. by right.
  - intros a. apply then_ends; [apply runs_remove_sessions|].
    apply then_ends; [apply runs_close_browser|apply config_changed_ends].
Qed.

Lemma delete_token_Err io name id db e : (Users.delete_token io name id db).1 = Err e → (Users.delete_token io name id db).2 = db.
Proof.
  unfold Users.delete_token. destruct (negb _); [done|]. destruct (List.find _ _); [|done]. by destruct (negb _).
Qed.

Lemma revoke_token_accounted fs u name id ls r :
  runs (revoke_token fs u name id) ls (Ret r) → accounted u (OpRevokeToken name id) ls r.
Proof.
  apply admin_change; [done| | |].
  - intros db. apply delete_token_only.
  - intros db e He. left. by eapply delete_token_Err.
  - intros a. apply config_changed_ends.
Qed.

Lemma delete_token_accounted fs u id ls r :
  runs (delete_token fs u id) ls (Ret r) → accounted u (OpDeleteToken id) ls r.
Proof.
  intros Hr. rewrite <- (ok_unit_id r). eapply change_accounted; [|intros a; apply config_changed_ends|exact Hr].
  intros db. split_and!; [done|apply delete_token_only|]. intros e He. left. by eapply delete_token_Err.
Qed.

Lemma create_token_accounted fs id random now u req ls r :
  runs (create_token fs id random now u req) ls (Ret r) → accounted u (OpCreateToken id random now req) ls (ok_unit r).
Proof.
  unfold create_token. destruct (require_scopes _ _) as [[]|e] eqn:Hs.
  2: { intros Hr. run_parts. by apply accounted_Err. }
  apply change_accounted; [|intros a; apply config_changed_ends].
  intros db. split_and!; [intros s; by apply require_scopes_Ok|intros _; apply create_token_only|].
  intros e He. left. revert He. unfold Users.create_token. destruct (_ || _); [done|].
  destruct (List.find _ _); [done|]. destruct (negb _); [done|]. destruct (bool_decide _); [done|]. by destruct (_ || _).
Qed.

Lemma own_password_accounted fs tls salt u current new ls r :
  runs (change_password fs tls salt u current new) ls (Ret r) →
  accounted u (OpOwnPassword tls salt current new) ls (ok_unit r).
Proof.
  unfold change_password. intros Hr. pieces.
  match goal with H : runs (users_read _) _ _ |- _ => apply runs_users_read in H as (g & -> & ->) end.
  destruct (check_own_password _ _ _ _ _ _) as [[h epoch]|e]; pieces.
  2: { apply accounted_Err. by repeat constructor. }
  match goal with |- context [write_own_password ?io ?n ?h ?ep (g_db ?g')] =>
    set (w := write_own_password io n h ep (g_db g')) in *; rename g' into g1;
    assert (Ho : only_user n (g_db g1) w.2) by apply own_password_only end.
  assert (He : ∀ e, w.1 = Err e → w.2 = g_db g1).
  { unfold w, write_own_password. destruct (negb _); [done|]. destruct (find_user _ _); [|done]. by destruct (_ =? _). }
  destruct w.1 as [[]|e]; pieces.
  2: { apply accounted_Err. repeat constructor. cbn. by eapply He. }
  match goal with H : runs (start_session _ _ _ _) _ (Ret ?x) |- _ => apply runs_start_session in H; destruct x as [[c s]|e] end.
  all: pieces; match goal with |- accounted _ _ ([?l] ++ _) _ =>
    apply (accounted_after _ _ [l]); [by repeat constructor|] end.
  - match goal with H : ∃ l1 l2 x, _ |- _ => destruct H as (l1 & l2 & [] & -> & Hl1 & Hlog) end. pieces.
    rewrite !app_nil_r. rewrite (app_assoc _ l1), (app_assoc _ _ [_; _]).
    apply accounted_Ok; [done|done| |done]. by rewrite !Forall_app.
  - rewrite app_nil_r. apply accounted_halfway; [done|done|done|]. by rewrite !Forall_app.
Qed.

(** Claim C24. Every request that changes the users or
    the API tokens: it does so only for an admin, or on the user's own tokens
    and password, with scopes the user's role covers; it changes the row and
    tokens of one user only; and when it answers with success the trail was
    given exactly one record of the change, naming who did it. A request that
    is refused or fails leaves users and tokens as they were, except that
    deleting a user, or changing one's own password, can fail after the
    change. *)
Theorem user_changes_accounted fs u op ls r :
  runs (serve fs u op) ls (Ret r) →
  (∀ b a, LUpdate b a ∈ ls → unique_ids (g_db b) → only_user (touches u op) (g_db b) (g_db a)) ∧
  ((∃ b a, LUpdate b a ∈ ls ∧ g_db a ≠ g_db b) → may u op) ∧
  match r with
  | Ok _ => may u op ∧ ∃ rest e, recorded ls = rest ++ [e] ∧ config_change u e ∧ Forall session_end rest
  | Err _ => Forall session_end (recorded ls) ∧
             ((∀ b a, LUpdate b a ∈ ls → g_db a = g_db b) ∨ can_stop_halfway op)
  end.
Proof.
  intros Hr. assert (Ha : accounted u op ls r).
  { destruct op; cbn [serve] in Hr; run_parts; rewrite ?app_nil_r.
    - by eapply create_user_accounted.
    - by eapply update_user_accounted.
    - by eapply delete_user_accounted.
    - by eapply revoke_token_accounted.
    - by eapply create_token_accounted.
    - by eapply delete_token_accounted.
    - by eapply own_password_accounted. }
  destruct Ha as (Ho & Hm & Ha).
  assert (Hend : Forall ending ls → ∀ b a, LUpdate b a ∈ ls → g_db a = g_db b).
  { rewrite Forall_forall. intros Hl b a Hin. by apply Hl in Hin. }
  split; [done|]. split.
  - intros (b & a & Hin & Hne). destruct Hm as [?|Hl]; [done|]. by destruct (Hne (Hend Hl b a Hin)).
  - destruct r; [done|]. destruct Ha as [? [?|?]]; split; auto.
Qed.

(** A Host header of another site is refused; one of the gateway's own names
    or an address is not. *)
Theorem host_gate_spec host loopback names :
  host_allowed host loopback names = true ↔
  host_name host ∈ ["localhost"; "127.0.0.1"; "[::1]"] ∨
  loopback = false ∧ host_name host ≠ EmptyString ∧
  ((∃ n, n ∈ names ∧ to_ascii_lowercase n = to_ascii_lowercase (host_name host)) ∨
   is_Some (ip_parse (trim_end_matches "]" (trim_start_matches "[" (to_ascii_lowercase (host_name host)))))).
Proof.
  assert (Hlow : ∀ s, to_ascii_lowercase (to_ascii_lowercase s) = to_ascii_lowercase s).
  { induction s as [|a s IH]; [done|]. unfold to_ascii_lowercase in *. cbn. rewrite IH. f_equal.
    destruct a as [[] [] [] [] [] [] [] []]; vm_compute; done. }
  assert (Hempty : ∀ s, to_ascii_lowercase s = EmptyString ↔ s = EmptyString) by (by intros []).
  unfold host_allowed, is_loopback_host. case_bool_decide as Hl; [by split; [left|]|].
  destruct loopback; [split; [done|intros [?|(? & _)]; done]|].
  rewrite andb_true_iff, negb_true_iff, String.eqb_neq, Hempty, orb_true_iff, bool_decide_eq_true, existsb_exists.
  unfold eq_ignore_ascii_case. setoid_rewrite String.eqb_eq. setoid_rewrite Hlow.
  setoid_rewrite <- list_elem_of_In. naive_solver.
Qed.
End Handlers.

(** ** Running the model *)
Section WebUsersWitness.
Import Toy ToyOpc ToyUsers.

Definition ann : AuthUser := mkAuthUser "ann" Admin false None.
Definition quiet_faults : Faults := mkFaults (fun _ => yes) true true "s$nobody".
Definition one_world : World :=
  mkWorld 1000 "r" (fun _ => Ok 1) false (fun _ => Err BadTimeout) (fun _ _ => Ok ()) (fun _ => Ok ()) (Err "").
Definition start : Gw := mkGw two_admins (mkWebSessions ∅ ∅ ∅) ∅.
Definition demote_bob : UserOp := OpUpdateUser "salt" "bob" (mkUserUpdate (Some Auditor) None).

(** Ann demotes Bob: one record, by Ann. *)
Lemma user_changes_accounted_witness :
  ∃ ls e, runs (serve quiet_faults ann demote_bob) ls (Ret (Ok ())) ∧ e ∈ recorded ls ∧ config_change ann e.
Proof.
  pose proof (exec_runs one_world (serve quiet_faults ann demote_bob) start) as Hr.
  assert (Ha : (exec one_world (serve quiet_faults ann demote_bob) start).1.2 = Some (Ok ())) by (vm_compute; reflexivity).
  rewrite Ha in Hr.
  destruct (user_changes_accounted quiet_faults ann demote_bob _ (Ok ()) Hr) as (_ & _ & _ & rest & e & Hrec & Hc & _).
  exists (exec one_world (serve quiet_faults ann demote_bob) start).1.1, e. split; [exact Hr|]. split; [|exact Hc].
  rewrite Hrec. apply elem_of_app. right. left.
Defined.

Example hosts :
  host_allowed "evil.example:8080" false ["gateway.local"] = false ∧
  host_allowed "Gateway.LOCAL:8443" false ["gateway.local"] = true ∧
  host_allowed "[fe80::1]:8443" false [] = true ∧ host_allowed "192.168.0.5" true [] = false ∧
  host_allowed "[::1]:8080" true [] = true ∧ host_allowed "" false [] = false.
Proof. vm_compute. by split_and!. Qed.

(** Deleting a user whose tokens cannot be deleted answers with an error, and
    no record says the user is gone. *)
Example deleted_without_record :
  let fs := mkFaults (fun _ k => negb (k =? 3)%nat) true true "s$nobody" in
  let r := exec one_world (delete_user fs ann "bob") start in
  r.1.2 = Some (Err (mkApiError 400 "DELETE FROM api_tokens failed")) ∧ recorded r.1.1 = [] ∧
  users (g_db r.2) !! "bob" = None.
Proof. vm_compute. by split_and!. Qed.
End WebUsersWitness.
