(* ===== verification/Export.v ===== *)
(** Shipping the trail to external systems ([src/src/export/mod.rs]): positions
    and where they are kept, gaps, the exporter's loop.

    A destination is [send]; the trail is read from the database of the audit
    store. One pass of the exporter's loop is [pass]: a function of what the
    reads, the destination and the state file answered. Times are nanoseconds. *)

From S2P Require Import Prelude Event Config Store Query.

(** ** Positions *)

(** The last record a destination received. *)
Record Position : Type := mkPosition { p_seq : Z; p_hash : string }.
#[export] Instance Position_eq_dec : EqDecision Position.
Proof. solve_decision. Defined.
Definition no_position : Position := mkPosition 0 EmptyString.

(** State files from before hashes were kept hold a number. *)
Inductive StoredPosition : Type :=
| StoredSeq (seq : Z)
| StoredPos (p : Position).

Definition position_of (p : StoredPosition) : Position :=
  match p with StoredSeq s => mkPosition s EmptyString | StoredPos p => p end.

(** What reading and parsing [export-state.json] gives. *)
Inductive StateFile : Type :=
| FileMissing
| FileError (e : string)
| FileCorrupt
| FileOk (stored : gmap string StoredPosition).

(** [ExportState]: the positions in memory, and the file. *)
Record ExportState : Type := mkExportState {
  positions : gmap string Position;
  x_file : StateFile;
}.

(** [ExportState::open]; [aside]: a corrupt file can be renamed. *)
Definition open_state (aside : bool) (f : StateFile) : result string ExportState :=
  match f with
  | FileMissing => Ok (mkExportState ∅ f)
  | FileError e => Err e
  | FileCorrupt => Ok (mkExportState ∅ (if aside then FileMissing else f))
  | FileOk m => Ok (mkExportState (position_of <$> m) f)
  end.

Definition position_for (kind key : string) (s : ExportState) : Position * ExportState :=
  match positions s !! key with
  | Some p => (p, s)
  | None =>
      match positions s !! kind with
      | Some p => (p, mkExportState (<[key := p]> (base.delete kind (positions s))) (x_file s))
      | None => (no_position, s)
      end
  end.

(** A record that was exported must still be in the trail. *)
Definition anchor_of (name : string) (p : Position) : Anchor :=
  mkAnchor (p_seq p) (p_hash p) ("the last record exported to " +:+ name).
Definition anchors (m : gmap string Position) : list Anchor :=
  omap (fun name =>
    p ← m !! name;
    if (0 <? p_seq p) && negb (String.eqb (p_hash p) EmptyString) then Some (anchor_of name p) else None)
  (sorted_keys m).

(** Only what has a hash, and nothing from a file that cannot be read. *)
Definition anchors_from (f : StateFile) : list Anchor :=
  match f with
  | FileOk m => anchors (omap (fun p => match p with StoredPos p => Some p | StoredSeq _ => None end) m)
  | _ => []
  end.

(** [ExportState::set]: the position is kept in memory also when the file
    cannot be written ([written] is the result of [write_atomic]). *)
Definition set_position (key : string) (p : Position) (written : result string unit) (s : ExportState)
    : result string unit * ExportState :=
  let m := <[key := p]> (positions s) in
  (written, mkExportState m (match written with Ok _ => FileOk (StoredPos <$> m) | Err _ => x_file s end)).

(** ** Gaps *)

(** Whether the records continue exactly after the position; else the next
    sequence number and why not. *)
Definition gap (position : Position) (records : list StoredRecord) (head : Z) : option (Z * string) :=
  if head <? p_seq position then
    Some (head, "the audit trail ends at record " +:+ pretty head +:+ ", before the last exported record "
                +:+ pretty (p_seq position) +:+ ": it was cut off or replaced")
  else match records with
  | [] => None
  | first :: _ =>
      if p_seq position =? 0 then None
      else if negb (seq first =? p_seq position + 1) then
        Some (seq first, "records " +:+ pretty (p_seq position + 1) +:+ " to " +:+ pretty (seq first - 1)
                         +:+ " were removed before they were exported")
      else if negb (String.eqb (p_hash position) EmptyString) &&
              negb (String.eqb (prev_hash first) (p_hash position)) then
        Some (seq first, "record " +:+ pretty (seq first) +:+ " does not follow the exported record "
                         +:+ pretty (p_seq position) +:+ ": the trail was rewritten or replaced")
      else None
  end.

(** ** Status *)
Record ExportStatus : Type := mkExportStatus {
  x_name : string;
  x_destination : string;
  exported_seq : Z;
  pending : Z;
  last_success : option Z;
  last_error : option string;
  x_gap : option string;
}.

Definition initial_status (name destination : string) (p : Position) : ExportStatus :=
  mkExportStatus name destination (p_seq p) 0 None None None.

Definition BATCH_SIZE : nat := 1000.

(** A destination: its kind, its key in the state file, what it shows. *)
Record Sink : Type := mkSink { sink_name : string; sink_destination : string }.
Definition sink_key (s : Sink) : string := sink_name s +:+ " " +:+ sink_destination s.

(** ** The exporter's loop *)
Section Exporter.
Context `{StoreEnv}.

(** What one pass sees: the trail at each of its reads ([None]: the read
    failed), the destination's and the state file's answers, the time. *)
Record Answers : Type := mkAnswers {
  a_head : option Db;
  a_records : option Db;
  a_again : option Db;
  a_send : list StoredRecord → result string unit;
  a_written : result string unit;
  a_head_after : option Db;
  a_now : Z;
}.

Definition read {A} (db : option Db) (f : Db → result string A) : result string A :=
  match db with Some db => f db | None => Err "reading the audit trail" end.

(** The exporter between two passes. *)
Record Exporter : Type := mkExporter {
  position : Position;
  failures : Z;
  e_status : ExportStatus;
}.

(** What a pass did: the event it recorded, the records it handed to the
    destination, and what became of it. *)
Record Pass : Type := mkPass {
  ps_event : option AuditEvent;
  ps_sent : list StoredRecord;
  ps_result : result string nat;
  ps_position : Position;
  ps_state : ExportState;
}.

(** The records are sent, then the position is stored, then it counts. *)
Definition deliver (key : string) (a : Answers) (event : option AuditEvent) (p : Position)
    (records : list StoredRecord) (s : ExportState) : Pass :=
  match last records with
  | None => mkPass event [] (Ok 0%nat) p s
  | Some r =>
      match a_send a records with
      | Err e => mkPass event records (Err e) p s
      | Ok _ =>
          let next := mkPosition (seq r) (hash r) in
          match set_position key next (a_written a) s with
          | (Err e, s) => mkPass event records (Err e) p s
          | (Ok _, s) => mkPass event records (Ok (length records)) next s
          end
      end
  end.

(** The [async] block of the loop. *)
Definition attempt (sink : Sink) (a : Answers) (p : Position) (s : ExportState) : Pass :=
  match (head ← read (a_head a) (fun db => Ok (head_seq db));
         records ← read (a_records a) (fun db => query_after db (p_seq p) BATCH_SIZE);
         Ok (head, records)) with
  | Err e => mkPass None [] (Err e) p s
  | Ok (head, records) =>
      match gap p records head with
      | None => deliver (sink_key sink) a None p records s
      | Some (next, reason) =>
          let event := Some (ExportGap (sink_name sink) (p_seq p) next reason) in
          if head <? p_seq p then
            match read (a_again a) (fun db => query_after db 0 BATCH_SIZE) with
            | Err e => mkPass event [] (Err e) no_position s
            | Ok records => deliver (sink_key sink) a event no_position records s
            end
          else deliver (sink_key sink) a event p records s
      end
  end.

Definition gap_reason (e : option AuditEvent) : option string :=
  match e with Some (ExportGap _ _ _ reason) => Some reason | _ => None end.

(** The status after a pass, and how long the exporter waits. *)
Definition settle (interval : Z) (a : Answers) (x : Exporter) (ps : Pass) : Exporter * Z :=
  let st := e_status x in
  let head := read (a_head_after a) (fun db => Ok (head_seq db)) in
  let gap := match gap_reason (ps_event ps) with Some r => Some r | None => x_gap st end in
  let waiting := match head with Ok h => Z.max (h - p_seq (ps_position ps)) 0 | Err _ => pending st end in
  match ps_result ps with
  | Ok n =>
      (mkExporter (ps_position ps) 0
         (mkExportStatus (x_name st) (x_destination st) (p_seq (ps_position ps)) waiting
            (if (0 <? n)%nat then Some (a_now a) else last_success st)
            (match head with Ok _ => None | Err e => Some ("reading the audit trail: " +:+ e) end) gap),
       if (n =? BATCH_SIZE)%nat then 0 else interval)
  | Err e =>
      let failures := Z.min (failures x + 1) u32_max in
      (mkExporter (ps_position ps) failures
         (mkExportStatus (x_name st) (x_destination st) (p_seq (ps_position ps)) waiting
            (last_success st) (Some e) gap),
       Z.min (interval * failures) 60000000000)
  end.

(** One pass of [run]. *)
Definition pass (sink : Sink) (interval : Z) (a : Answers) (x : Exporter) (s : ExportState)
    : Pass * Exporter * Z :=
  let ps := attempt sink a (position x) s in
  let r := settle interval a x ps in (ps, r.1, r.2).

(** [run] until its loop. *)
Definition start_exporter (sink : Sink) (s : ExportState) : Exporter * ExportState :=
  let (p, s) := position_for (sink_name sink) (sink_key sink) s in
  (mkExporter p 0 (initial_status (sink_name sink) (sink_destination sink) p), s).
End Exporter.

(** ** The trail as a log *)
Section Log.
Context `{StoreEnv} `{!StoreEnvOk}.

(** Every row ever committed; the table holds the ones that were not pruned. *)
Definition log_of (full : list Row) (s : AuditStore) : Prop :=
  linked GENESIS_HASH 1 full ∧ last_seq s = length full ∧ last_hash s = tip_hash GENESIS_HASH full ∧
  ∃ k, (k ≤ length full)%nat ∧ (full ≠ [] → (k < length full)%nat) ∧ audit (conn s) = drop k full.

Lemma log_new : log_of [] new_store.
Proof. split_and!; [done..|]. by exists 0%nat. Qed.

Lemma log_step full s s' :
  good s → store_step s s' → log_of full s → ∃ new, log_of (full ++ new) s'.
Proof.
  intros Hg Hst (Hl & Hseq & Hhash & k & Hk & Hkl & Ha).
  destruct Hst as [io entries Hb|io cutoff now Hb|io now s' Ho].
  - destruct (append io s entries) as [[seqs|e] s'] eqn:Happ; simpl.
    + destruct (append_spec _ _ _ _ _ Hg Hb Happ) as (new & Hc & Hln & _ & Hs' & Hh' & Hf).
      apply Forall2_length in Hf. exists new. split_and!.
      * apply linked_app. split; [done|]. rewrite <- Hhash. by replace (1 + length full) with (last_seq s + 1) by lia.
      * rewrite Hs', length_app. lia.
      * by rewrite Hh', tip_hash_app, Hhash.
      * exists k. rewrite length_app, Hc. simpl. split_and!; [lia| |by rewrite drop_app_le, Ha by lia].
        intros Hne. destruct full as [|x full]; [|specialize (Hkl ltac:(done)); simpl in *; lia].
        simpl in *. destruct new; [done|simpl; lia].
    + apply append_err in Happ as ->. exists []. rewrite app_nil_r. split_and!; eauto.
  - destruct (prune_before io s cutoff now) as [out s'] eqn:Hp. simpl.
    apply prune_cases in Hp; [|done..].
    assert (Hsame : s' = s → ∃ new, log_of (full ++ new) s').
    { intros ->. exists []. rewrite app_nil_r. split_and!; eauto. }
    destruct out as [d|e]; [|by apply Hsame]. destruct Hp as [[_ ->]|Hp]; [by apply Hsame|].
    destruct Hp as (pre & post & r & Hrows & _ & _ & _ & _ & Hdb & (p & n & _ & Hok & _) & Hs' & Hh' & _).
    exists [r]. split_and!.
    + apply linked_app. split; [done|]. rewrite <- Hhash. simpl.
      replace (1 + length full) with (last_seq s + 1) by lia. by split.
    + rewrite Hs', length_app. simpl. lia.
    + rewrite tip_hash_app. simpl. by rewrite Hh'.
    + exists (k + length pre)%nat. rewrite length_app. simpl.
      assert (Hlen : (k + length pre ≤ length full)%nat).
      { apply (f_equal length) in Hrows. rewrite Ha, length_drop, length_app in Hrows. lia. }
      split; [lia|]. split; [lia|]. rewrite Hdb, drop_app_le by lia. f_equal. rewrite <- drop_drop, <- Ha, Hrows.
      by rewrite drop_app_length.
  - rewrite open_good in Ho by done. injection Ho as ->. exists []. rewrite app_nil_r. split_and!; eauto.
Qed.

Lemma log_steps full s s' :
  good s → rtc store_step s s' → log_of full s → ∃ new, log_of (full ++ new) s' ∧ good s'.
Proof.
  intros Hg Hr. revert full Hg. induction Hr as [s|s s1 s' Hs Hr IH]; intros full Hg Hl.
  - exists []. by rewrite app_nil_r.
  - destruct (log_step _ _ _ Hg Hs Hl) as [new Hl1]. apply step_good in Hs; [|done].
    destruct (IH _ Hs Hl1) as (new' & Hl' & Hg'). exists (new ++ new'). by rewrite app_assoc.
Qed.

Lemma log_lookup full s (i : nat) r : log_of full s → full !! i = Some r → r_seq r = i + 1.
Proof.
  intros (Hl & _) Hi. pose proof (linked_seqs _ _ _ Hl) as Hs.
  apply (f_equal (lookup i)) in Hs. rewrite list_lookup_fmap, Hi in Hs. simpl in Hs.
  apply lookup_lt_Some in Hi. rewrite lookup_seqZ_lt in Hs by lia. injection Hs as ->. lia.
Qed.

Lemma linked_max m p n l :
  linked p n l →
  foldr (fun r m => Z.max (r_seq r) m) m l = match l with [] => m | _ => Z.max m (n + length l - 1) end.
Proof.
  revert p n. induction l as [|x l IH]; intros p n; [done|]. intros [[Hx _] Hl]. simpl.
  rewrite (IH _ _ Hl). destruct l; simpl; lia.
Qed.

Lemma log_head full s : log_of full s → head_seq (conn s) = length full.
Proof.
  intros (Hl & _ & _ & k & Hk & Hkl & Ha). unfold head_seq.
  assert (Hl' : linked (tip_hash GENESIS_HASH (take k full)) (1 + length (take k full)) (audit (conn s))).
  { rewrite <- (take_drop k full) in Hl. apply linked_app in Hl as [_ Hl]. by rewrite Ha. }
  rewrite length_take, Nat.min_l in Hl' by lia.
  assert (Hlen : length (audit (conn s)) = (length full - k)%nat) by by rewrite Ha, length_drop.
  destruct (audit (conn s)) as [|r rows].
  { simpl in Hlen. destruct full as [|x full]; [done|]. specialize (Hkl ltac:(done)). lia. }
  destruct Hl' as [[Hr _] Hl']. simpl in Hlen.
  rewrite (linked_max (r_seq r) _ _ _ Hl'). destruct rows; simpl in *; lia.
Qed.

(** A read of the log after a sequence number: the rows that are still there. *)
Lemma query_log full s (k : nat) p n :
  log_of full s → audit (conn s) = drop k full → (k ≤ length full)%nat → 0 ≤ p →
  query_after (conn s) p n = collect (stored <$> take n (drop (k `max` Z.to_nat p) full)).
Proof.
  intros (Hl & _) Ha Hk Hp. unfold query_after. rewrite Ha. do 3 f_equal.
  assert (Hl' : linked (tip_hash GENESIS_HASH (take k full)) (1 + k) (drop k full)).
  { rewrite <- (take_drop k full) in Hl. apply linked_app in Hl as [_ Hl].
    by rewrite length_take, Nat.min_l in Hl by lia. }
  destruct (linked_filter _ _ _ p Hl') as [Hf _].
  replace (drop (k `max` Z.to_nat p) full) with (drop (Z.to_nat (p - (1 + k) + 1)) (drop k full)).
  2: { rewrite drop_drop. f_equal. lia. }
  rewrite <- Hf. clear. induction (drop k full) as [|r rows IH]; [done|]. simpl.
  rewrite filter_cons. destruct (Z.ltb_spec p (r_seq r)); case_decide; try lia; by rewrite IH.
Qed.

Lemma read_log full s p n recs :
  log_of full s → 0 ≤ p → query_after (conn s) p n = Ok recs →
  ∃ d, (Z.to_nat p ≤ d)%nat ∧ Forall2 (fun r o => stored r = Ok o) (take n (drop d full)) recs.
Proof.
  intros Hlog Hp Hq. pose proof Hlog as (_ & _ & _ & k & Hk & _ & Ha).
  exists (k `max` Z.to_nat p)%nat. split; [lia|]. apply collect_stored.
  by rewrite <- (query_log _ _ _ _ _ Hlog Ha Hk Hp).
Qed.

Lemma log_readable full s l : log_of full s → l ⊆ full → ∃ out, collect (stored <$> l) = Ok out ∧ Forall2 (fun r o => stored r = Ok o) l out.
Proof.
  intros (Hl & _) Hs. apply collect_stored_total. intros r Hr. eapply linked_parses; [done|by apply Hs].
Qed.
End Log.

(** ** Exporting while the trail grows *)
Section Shipping.
Context `{StoreEnv} `{!StoreEnvOk}.
Context (sink : Sink).

(** The trail; the state file and what the gateway has in memory of it (one
    object, shared with the exporter); the running exporter; what the destination acknowledged; the gaps recorded;
    and the oldest records of the trail when an export began without a
    position. *)
Record Shipping : Type := mkShipping {
  sh_store : AuditStore;
  sh_state : ExportState;
  sh_exporter : option Exporter;
  sh_delivered : list StoredRecord;
  sh_gaps : list AuditEvent;
  sh_starts : list Z;
}.

(** The trail at the time of a read, or the read failed. *)
Definition read_at (s : AuditStore) (db : option Db) : Prop := ∀ d, db = Some d → d = conn s.

(** The reads of a pass, in the order it makes them, while the trail grows. *)
Definition reads (s : AuditStore) (a : Answers) (s' : AuditStore) : Prop :=
  ∃ s1 s2 s3, rtc store_step s s1 ∧ rtc store_step s1 s2 ∧ rtc store_step s2 s3 ∧ rtc store_step s3 s' ∧
    read_at s1 (a_head a) ∧ read_at s2 (a_records a) ∧ read_at s3 (a_again a) ∧ read_at s' (a_head_after a).

Definition acknowledged (a : Answers) (ps : Pass) : list StoredRecord :=
  match ps_sent ps with [] => [] | rs => if is_ok (a_send a rs) then rs else [] end.
Definition started (p : Position) (acked : list StoredRecord) : list Z :=
  match acked with o :: _ => if p_seq p =? 0 then [seq o] else [] | [] => [] end.

Inductive ship_step (x : Shipping) : Shipping → Prop :=
| ss_trail s :
    store_step (sh_store x) s →
    ship_step x (mkShipping s (sh_state x) (sh_exporter x) (sh_delivered x) (sh_gaps x) (sh_starts x))
(** The state file is lost or cut off by a power loss. *)
| ss_lost f :
    (∀ m, f ≠ FileOk m) →
    ship_step x (mkShipping (sh_store x) (mkExportState (positions (sh_state x)) f) (sh_exporter x)
                   (sh_delivered x) (sh_gaps x) (sh_starts x))
(** The gateway starts: the state file is read. *)
| ss_open aside st :
    sh_exporter x = None → open_state aside (x_file (sh_state x)) = Ok st →
    ship_step x (mkShipping (sh_store x) st None (sh_delivered x) (sh_gaps x) (sh_starts x))
(** [Exports::apply] starts the exporter. *)
| ss_start :
    sh_exporter x = None →
    ship_step x (mkShipping (sh_store x) (start_exporter sink (sh_state x)).2
                   (Some (start_exporter sink (sh_state x)).1) (sh_delivered x) (sh_gaps x) (sh_starts x))
(** A pass of its loop. *)
| ss_pass e interval a s' :
    sh_exporter x = Some e → reads (sh_store x) a s' →
    let r := pass sink interval a e (sh_state x) in
    ship_step x (mkShipping s' (ps_state r.1.1) (Some r.1.2)
                   (sh_delivered x ++ acknowledged a r.1.1)
                   (sh_gaps x ++ option_list (ps_event r.1.1))
                   (sh_starts x ++ started (position e) (acknowledged a r.1.1)))
(** It is stopped, at any point of a pass: before the position was stored. *)
| ss_stop e interval a s' :
    sh_exporter x = Some e → reads (sh_store x) a s' →
    let r := pass sink interval a e (sh_state x) in
    ship_step x (mkShipping s' (sh_state x) None
                   (sh_delivered x ++ acknowledged a r.1.1)
                   (sh_gaps x ++ option_list (ps_event r.1.1))
                   (sh_starts x ++ started (position e) (acknowledged a r.1.1))).

(** A new installation: no state file. *)
Definition ship_start : Shipping :=
  mkShipping new_store (mkExportState ∅ FileMissing) None [] [] [].
Definition ship_reachable : Shipping → Prop := rtc ship_step ship_start.

(** Record [s] of the trail got to the destination, or a recorded gap says it
    did not. *)
Definition accounted_for (x : Shipping) (s : Z) : Prop :=
  (∃ o, o ∈ sh_delivered x ∧ seq o = s) ∨
  (∃ a n why, ExportGap (sink_name sink) a n why ∈ sh_gaps x ∧ a < s < n).

(** Everything from the start of the export to the position. *)
Definition covers (x : Shipping) (p : Position) : Prop :=
  p = no_position ∨ ∃ f, f ∈ sh_starts x ∧ f ≤ p_seq p ∧ ∀ s, f ≤ s ≤ p_seq p → accounted_for x s.

(** A position of this trail. *)
Definition on_log (full : list Row) (p : Position) : Prop :=
  p = no_position ∨ ∃ (i : nat) r, full !! i = Some r ∧ p = mkPosition (i + 1) (r_hash r).

Definition keeps (full : list Row) (x : Shipping) (m : gmap string Position) : Prop :=
  ∀ k p, m !! k = Some p → k = sink_key sink ∧ on_log full p ∧ covers x p.

Definition file_keeps (full : list Row) (x : Shipping) (f : StateFile) : Prop :=
  match f with FileOk st => ∃ m, st = StoredPos <$> m ∧ keeps full x m | _ => True end.

Definition from_log (full : list Row) (recs : list StoredRecord) : Prop :=
  ∀ o, o ∈ recs → ∃ r, r ∈ full ∧ stored r = Ok o.

Record ship_inv (full : list Row) (x : Shipping) : Prop := {
  si_good : good (sh_store x);
  si_log : log_of full (sh_store x);
  si_delivered : from_log full (sh_delivered x);
  si_memory : keeps full x (positions (sh_state x));
  si_file : file_keeps full x (x_file (sh_state x));
  si_exporter : ∀ e, sh_exporter x = Some e → on_log full (position e) ∧ covers x (position e);
}.

(** Later: the trail longer, more delivered, more gaps and starts known. *)
Definition later (x y : Shipping) : Prop :=
  sh_delivered x ⊆ sh_delivered y ∧ sh_gaps x ⊆ sh_gaps y ∧ sh_starts x ⊆ sh_starts y.

Lemma covers_later x y p : later x y → covers x p → covers y p.
Proof.
  intros (Hd & Hg & Hs) [->|(f & Hf & Hle & Hall)]; [by left|right]. exists f. split_and!; [set_solver|done|].
  intros s Hr. destruct (Hall s Hr) as [(o & Ho & Hseq)|(a & n & why & Hin & Hb)].
  - left. exists o. set_solver.
  - right. exists a, n, why. set_solver.
Qed.

Lemma on_log_app full new p : on_log full p → on_log (full ++ new) p.
Proof.
  intros [->|(i & r & Hi & ->)]; [by left|right]. exists i, r. split; [|done]. by apply lookup_app_l_Some.
Qed.

Lemma keeps_later full new x y m : later x y → keeps full x m → keeps (full ++ new) y m.
Proof.
  intros Hl Hk k p Hp. destruct (Hk k p Hp) as (-> & Ho & Hc).
  split_and!; [done|by apply on_log_app|by eapply covers_later].
Qed.

Lemma key_not_name : sink_name sink ≠ sink_key sink.
Proof.
  unfold sink_key. intros Heq. apply (f_equal String.length) in Heq.
  rewrite length_app_string in Heq. simpl in Heq. lia.
Qed.

Lemma keeps_position_for full x st p st' :
  keeps full x (positions st) → position_for (sink_name sink) (sink_key sink) st = (p, st') →
  st' = st ∧ on_log full p ∧ covers x p.
Proof.
  unfold position_for. intros Hk. destruct (positions st !! sink_key sink) as [q|] eqn:Hq.
  - intros [= <- <-]. by destruct (Hk _ _ Hq) as (_ & ? & ?).
  - destruct (positions st !! sink_name sink) as [q|] eqn:Hn.
    + destruct (Hk _ _ Hn) as (Heq & _). by apply key_not_name in Heq.
    + intros [= <- <-]. split_and!; [done|by left|by left].
Qed.

(** *** A batch of the log *)
Definition batch (full : list Row) (d : nat) (recs : list StoredRecord) : Prop :=
  Forall2 (fun r o => stored r = Ok o) (take BATCH_SIZE (drop d full)) recs.

Lemma stored_fields r o : stored r = Ok o → seq o = r_seq r ∧ hash o = r_hash r ∧ prev_hash o = r_prev_hash r.
Proof. unfold stored. destruct (of_json _); simpl; by intros [= <-]. Qed.

Lemma batch_lookup full s d recs j o :
  log_of full s → batch full d recs → recs !! j = Some o →
  ∃ r, full !! (d + j)%nat = Some r ∧ stored r = Ok o ∧ seq o = d + j + 1 ∧ hash o = r_hash r ∧ prev_hash o = r_prev_hash r.
Proof.
  intros Hlog Hb Hj. destruct (Forall2_lookup_r _ _ _ _ _ Hb Hj) as (r & Hr & Hs).
  apply lookup_take_Some in Hr as [Hr _]. rewrite lookup_drop in Hr. exists r.
  destruct (stored_fields _ _ Hs) as (-> & -> & ->). pose proof (log_lookup _ _ _ _ Hlog Hr).
  split_and!; try done. lia.
Qed.

Lemma batch_elem full s d recs o :
  log_of full s → batch full d recs → o ∈ recs → ∃ r, r ∈ full ∧ stored r = Ok o.
Proof.
  intros Hlog Hb [j Hj]%list_elem_of_lookup. destruct (batch_lookup _ _ _ _ _ _ Hlog Hb Hj) as (r & Hr & Hs & _).
  exists r. split; [by eapply list_elem_of_lookup_2|done].
Qed.

Lemma batch_has full s d recs n :
  log_of full s → batch full d recs → d < n ≤ d + length recs → ∃ o, o ∈ recs ∧ seq o = n.
Proof.
  intros Hlog Hb Hn. destruct (lookup_lt_is_Some_2 recs (Z.to_nat (n - d - 1))) as [o Ho]; [lia|].
  destruct (batch_lookup _ _ _ _ _ _ Hlog Hb Ho) as (r & _ & _ & Hseq & _).
  exists o. split; [by eapply list_elem_of_lookup_2|lia].
Qed.

Lemma batch_last full s d recs o :
  log_of full s → batch full d recs → last recs = Some o →
  seq o = d + length recs ∧ on_log full (mkPosition (seq o) (hash o)).
Proof.
  intros Hlog Hb Ho. rewrite last_lookup in Ho.
  destruct (batch_lookup _ _ _ _ _ _ Hlog Hb Ho) as (r & Hr & _ & Hseq & Hh & _).
  apply lookup_lt_Some in Ho as Hlt. split; [lia|]. right. exists (d + pred (length recs))%nat, r.
  split; [done|]. rewrite Hh. f_equal. lia.
Qed.

Lemma on_log_bound full p : on_log full p → 0 ≤ p_seq p ≤ length full.
Proof. intros [->|(i & r & Hi & ->)]; simpl; [lia|]. apply lookup_lt_Some in Hi. lia. Qed.

(** The next record of the log names the hash of the one before. *)
Lemma log_prev full s i r r' :
  log_of full s → full !! i = Some r → full !! S i = Some r' → r_prev_hash r' = r_hash r.
Proof.
  intros (Hl & _) Hi Hi'. rewrite <- (take_drop_middle full i r Hi) in Hl.
  apply linked_app in Hl as [_ [_ Hl]].
  rewrite <- (take_drop (S i) full) in Hi'. rewrite lookup_app_r in Hi' by (rewrite length_take; lia).
  rewrite length_take in Hi'. apply lookup_lt_Some in Hi as Hlt. replace (S i - S i `min` length full)%nat with 0%nat in Hi' by lia.
  destruct (drop (S i) full) as [|x rest]; [done|]. injection Hi' as ->. by destruct Hl as [(_ & Hp & _) _].
Qed.

(** What [gap] finds on a log: nothing, or rows pruned before they were read. *)
Lemma gap_on_log full s p d recs head :
  log_of full s → on_log full p → batch full d recs → (Z.to_nat (p_seq p) ≤ d)%nat → p_seq p ≤ head →
  gap p recs head = None ∧ (p = no_position ∨ recs = [] ∨ p_seq p = d) ∨
  ∃ why, gap p recs head = Some (d + 1, why) ∧ p_seq p < d.
Proof.
  intros Hlog Hon Hb Hd Hh. pose proof (on_log_bound _ _ Hon) as Hp. unfold gap.
  rewrite (proj2 (Z.ltb_ge head (p_seq p)) Hh). destruct recs as [|o recs]; [left; auto|].
  destruct (batch_lookup _ _ _ _ 0 o Hlog Hb eq_refl) as (r & Hr & _ & Hseq & _ & Hprev).
  destruct (Z.eqb_spec (p_seq p) 0) as [Hz|Hz].
  { left. split; [done|]. left. destruct Hon as [->|(i & r' & _ & ->)]; [done|]. simpl in Hz. lia. }
  destruct (Z.eqb_spec (seq o) (p_seq p + 1)) as [He|He]; cbn [negb].
  - left. assert (Hdp : p_seq p = d) by lia. split; [|by right; right].
    destruct Hon as [->|(i & r' & Hi & ->)]; [done|]. simpl in *.
    assert (Hpr : prev_hash o = r_hash r').
    { rewrite Hprev. apply (log_prev full s i); [done|done|]. by replace (S i) with (d + 0)%nat by lia. }
    rewrite Hpr, String.eqb_refl. simpl. by rewrite andb_false_r.
  - right. eexists. split; [f_equal; f_equal; lia|lia].
Qed.

(** *** A pass on a log *)
Definition next_of (o : StoredRecord) : Position := mkPosition (seq o) (hash o).

(** Where a pass left the position and the state. *)
Definition moved (a : Answers) (recs : list StoredRecord) (p : Position) (st : ExportState) (ps : Pass) : Prop :=
  (ps_position ps = p ∧ ps_state ps = st) ∨
  ∃ o, last recs = Some o ∧ is_ok (a_send a recs) = true ∧
    ps_state ps = (set_position (sink_key sink) (next_of o) (a_written a) st).2 ∧
    (ps_position ps = p ∨ ps_position ps = next_of o).

Lemma deliver_moved a ev p recs st :
  let ps := deliver (sink_key sink) a ev p recs st in
  ps_event ps = ev ∧ ps_sent ps = recs ∧ moved a recs p st ps.
Proof.
  unfold deliver, moved, next_of. destruct (last recs) as [o|] eqn:Ho.
  2: { apply last_None in Ho as ->. simpl. auto. }
  destruct (a_send a recs) as [u|e] eqn:Hs; simpl; [|auto].
  destruct (a_written a) as [w|e] eqn:Hw; simpl; (split_and!; [done..|]); right; exists o; by auto.
Qed.

(** What the pass read continues the position, or follows a recorded gap. *)
Definition continues (p : Position) (d : nat) (recs : list StoredRecord) (ev : option AuditEvent) : Prop :=
  (ev = None ∧ (p = no_position ∨ recs = [] ∨ p_seq p = d)) ∨
  ∃ why, ev = Some (ExportGap (sink_name sink) (p_seq p) (d + 1) why) ∧ p_seq p < d.

Lemma attempt_on_log full new s1 s2 a p st :
  log_of full s1 → log_of (full ++ new) s2 → read_at s1 (a_head a) → read_at s2 (a_records a) →
  on_log full p →
  let ps := attempt sink a p st in
  ∃ d, (ps_sent ps = [] ∨ batch (full ++ new) d (ps_sent ps)) ∧
    continues p d (ps_sent ps) (ps_event ps) ∧ moved a (ps_sent ps) p st ps.
Proof.
  intros H1 H2 Hr1 Hr2 Hp. unfold attempt.
  assert (Hstay : ∀ e, ∃ d, (ps_sent (mkPass None [] (Err e) p st) = [] ∨ batch (full ++ new) d []) ∧
    continues p d [] None ∧ moved a [] p st (mkPass None [] (Err e) p st)).
  { intros e. exists 0%nat. split_and!; [by left|left; auto|by left]. }
  destruct (a_head a) as [db1|]; simpl; [|apply Hstay]. rewrite (Hr1 _ eq_refl), (log_head _ _ H1).
  destruct (a_records a) as [db2|]; simpl; [|apply Hstay]. rewrite (Hr2 _ eq_refl).
  pose proof (on_log_bound _ _ Hp) as Hb.
  destruct (query_after _ _ _) as [recs|e] eqn:Hq; simpl; [|apply Hstay].
  destruct (read_log _ _ _ _ _ H2 (proj1 Hb) Hq) as (d & Hd & Hbt).
  destruct (gap_on_log (full ++ new) s2 p d recs (length full) H2) as [[Hg Hc]|(why & Hg & Hlt)];
    [by apply on_log_app|done|done|lia|..]; rewrite Hg; exists d.
  - destruct (deliver_moved a None p recs st) as (-> & -> & Hm). split_and!; [by right| |done]. left. auto.
  - rewrite (proj2 (Z.ltb_ge _ _)) by lia.
    destruct (deliver_moved a (Some (ExportGap (sink_name sink) (p_seq p) (d + 1) why)) p recs st) as (-> & -> & Hm).
    split_and!; [by right| |done]. right. eauto.
Qed.

(** The next position is covered by what was acknowledged in this pass. *)
Lemma covers_next full s x y p d recs ev o :
  log_of full s → on_log full p → covers x p → later x y → batch full d recs → last recs = Some o →
  continues p d recs ev →
  recs ⊆ sh_delivered y → option_list ev ⊆ sh_gaps y → started p recs ⊆ sh_starts y →
  covers y (next_of o).
Proof.
  intros Hlog Hon Hc Hl Hb Ho Hcont Hdel Hgap Hst.
  destruct (batch_last _ _ _ _ _ Hlog Hb Ho) as [Hseq _].
  assert (Hsent : ∀ n, d < n ≤ d + length recs → accounted_for y n).
  { intros n Hn. left. destruct (batch_has _ _ _ _ _ Hlog Hb Hn) as (o' & Hin & <-). exists o'. auto. }
  right. destruct (decide (p = no_position)) as [->|Hp].
  - destruct recs as [|o1 recs]; [done|]. exists (seq o1). simpl in Hst.
    destruct (batch_lookup _ _ _ _ 0 o1 Hlog Hb eq_refl) as (r & _ & _ & H1 & _).
    simpl in Hseq |- *. split_and!; [set_solver|lia|]. intros n Hn. apply Hsent. simpl. lia.
  - destruct (covers_later _ _ _ Hl Hc) as [->|(f & Hf & Hle & Hall)]; [done|].
    destruct recs as [|o1 recs]; [done|]. exists f. simpl p_seq.
    destruct Hcont as [[_ [->|[?|Hd]]]|(why & -> & Hlt)]; [done|done|..]; (split_and!; [done|lia|]); intros n Hn.
    + destruct (decide (n ≤ p_seq p)); [apply Hall; lia|apply Hsent; lia].
    + destruct (decide (n ≤ p_seq p)); [apply Hall; lia|].
      destruct (decide (n ≤ d)); [|apply Hsent; lia].
      right. exists (p_seq p), (d + 1), why. split; [set_solver|lia].
Qed.

(** *** The invariant *)
Lemma later_refl x : later x x.
Proof. by split_and!. Qed.

(** What does not touch the exporter's records keeps everything. *)
Lemma inv_same full new x y :
  later x y → ship_inv full x → good (sh_store y) → log_of (full ++ new) (sh_store y) →
  sh_delivered y = sh_delivered x → keeps (full ++ new) y (positions (sh_state y)) →
  file_keeps (full ++ new) y (x_file (sh_state y)) →
  (∀ e, sh_exporter y = Some e → on_log (full ++ new) (position e) ∧ covers y (position e)) →
  ship_inv (full ++ new) y.
Proof.
  intros Hl Hi Hg Hlog Hd Hm Hf He. split; try done. rewrite Hd. intros o Ho.
  destruct (si_delivered _ _ Hi o Ho) as (r & Hr & Hs). exists r. split; [set_solver|done].
Qed.

Lemma file_keeps_later full new x y f : later x y → file_keeps full x f → file_keeps (full ++ new) y f.
Proof.
  intros Hl. destruct f; try done. intros (m & -> & Hk). exists m. split; [done|]. by eapply keeps_later.
Qed.

Lemma open_keeps full x aside f st :
  file_keeps full x f → open_state aside f = Ok st → keeps full x (positions st) ∧ file_keeps full x (x_file st).
Proof.
  unfold open_state. destruct f as [|e| |m]; simpl.
  - by intros _ [= <-].
  - done.
  - intros _ [= <-]. by destruct aside.
  - intros (m' & -> & Hk) [= <-]. simpl. rewrite <- map_fmap_compose, map_fmap_id. split; [done|]. by exists m'.
Qed.

(** The state after a pass, in memory and in the file. *)
Lemma moved_keeps full x a recs p st ps :
  keeps full x (positions st) → file_keeps full x (x_file st) → on_log full p → covers x p →
  (∀ o, last recs = Some o → is_ok (a_send a recs) = true → on_log full (next_of o) ∧ covers x (next_of o)) →
  moved a recs p st ps →
  keeps full x (positions (ps_state ps)) ∧ file_keeps full x (x_file (ps_state ps)) ∧
  on_log full (ps_position ps) ∧ covers x (ps_position ps).
Proof.
  intros Hk Hf Hon Hc Hnext [[-> ->]|(o & Ho & Hs & -> & Hp)]; [done|]. destruct (Hnext o Ho Hs) as [Hno Hnc].
  assert (Hk' : keeps full x (<[sink_key sink := next_of o]> (positions st))).
  { intros k q [[<- <-]|[_ Hq]]%lookup_insert_Some; [done|by apply Hk]. }
  unfold set_position. simpl. split; [done|]. split; [|by destruct Hp as [->| ->]].
  destruct (a_written a); [|done]. by eexists.
Qed.

Lemma acknowledged_eq a ps :
  acknowledged a ps = [] ∨ acknowledged a ps = ps_sent ps ∧ ps_sent ps ≠ [] ∧ is_ok (a_send a (ps_sent ps)) = true.
Proof.
  unfold acknowledged. destruct (ps_sent ps) as [|o recs] eqn:Hs; [by left|].
  destruct (is_ok _) eqn:Ha; [by right|by left].
Qed.

(** What [x] becomes in a pass, apart from the state and the exporter. *)
Definition passed (x : Shipping) (e : Exporter) (a : Answers) (s' : AuditStore) (st : ExportState)
    (exp : option Exporter) : Shipping :=
  let ps := attempt sink a (position e) (sh_state x) in
  mkShipping s' st exp (sh_delivered x ++ acknowledged a ps) (sh_gaps x ++ option_list (ps_event ps))
    (sh_starts x ++ started (position e) (acknowledged a ps)).

Lemma passed_later x e a s' st exp : later x (passed x e a s' st exp).
Proof. split_and!; simpl; set_solver. Qed.

Lemma pass_inv full x e a s' :
  ship_inv full x → sh_exporter x = Some e → reads (sh_store x) a s' →
  let ps := attempt sink a (position e) (sh_state x) in
  ∃ new, ship_inv (full ++ new) (passed x e a s' (sh_state x) None) ∧
    ∀ e', position e' = ps_position ps → ship_inv (full ++ new) (passed x e a s' (ps_state ps) (Some e')).
Proof.
  intros Hi He (s1 & s2 & s3 & R1 & R2 & R3 & R4 & A1 & A2 & _). intros ps.
  destruct (log_steps _ _ _ (si_good _ _ Hi) R1 (si_log _ _ Hi)) as (n1 & L1 & G1).
  destruct (log_steps _ _ _ G1 R2 L1) as (n2 & L2 & G2).
  destruct (log_steps _ _ _ G2 (transitivity R3 R4) L2) as (n3 & L3 & G3).
  destruct (si_exporter _ _ Hi e He) as [Hon Hcov].
  destruct (attempt_on_log _ _ _ _ a (position e) (sh_state x) L1 L2 A1 A2 (on_log_app _ _ _ Hon))
    as (d & Hb & Hcont & Hmoved). fold ps in Hb, Hcont, Hmoved.
  exists (n1 ++ n2 ++ n3). rewrite !app_assoc.
  set (full2 := (full ++ n1) ++ n2) in *.
  assert (Hlate : ∀ st exp, later x (passed x e a s' st exp)) by (intros; apply passed_later).
  assert (Hf : full2 ++ n3 = full ++ (n1 ++ n2 ++ n3)) by (unfold full2; by rewrite <- !app_assoc).
  assert (Hdel : ∀ st exp, from_log (full2 ++ n3) (sh_delivered (passed x e a s' st exp))).
  { intros st exp o Ho. simpl in Ho. fold ps in Ho. apply elem_of_app in Ho as [Ho|Ho].
    - destruct (si_delivered _ _ Hi o Ho) as (r & Hr & Hs). exists r. rewrite Hf. set_solver.
    - destruct (acknowledged_eq a ps) as [Hz|(Hz & Hne & _)]; rewrite Hz in Ho; [set_solver|].
      destruct Hb as [Hb|Hb]; [congruence|].
      destruct (batch_elem _ _ _ _ _ L2 Hb Ho) as (r & Hr & Hs). exists r. split; [set_solver|done]. }
  assert (Hkx : ∀ y, later x y → keeps (full2 ++ n3) y (positions (sh_state x)) ∧
                 file_keeps (full2 ++ n3) y (x_file (sh_state x))).
  { intros y Hy. rewrite Hf. split; [by eapply keeps_later; [|apply Hi]|by eapply file_keeps_later; [|apply Hi]]. }
  split.
  - destruct (Hkx _ (Hlate (sh_state x) None)). by split.
  - intros e' He'. destruct (Hkx _ (Hlate (ps_state ps) (Some e'))) as [Hk0 Hf0].
    destruct (moved_keeps (full2 ++ n3) (passed x e a s' (ps_state ps) (Some e')) a (ps_sent ps) (position e)
      (sh_state x) ps) as (Hk & Hfk & Hon' & Hc'); [done|done| |by eapply covers_later| |done|].
    + rewrite Hf. by apply on_log_app.
    + intros o Ho Hok. destruct Hb as [Hb|Hb]; [by rewrite Hb in Ho|].
      destruct (batch_last _ _ _ _ _ L2 Hb Ho) as [_ Hol]. split; [by apply on_log_app|].
      assert (Hack : acknowledged a ps = ps_sent ps).
      { unfold acknowledged. destruct (ps_sent ps) eqn:Hz; [done|]. by rewrite Hok. }
      apply (covers_next full2 s2 x _ (position e) d (ps_sent ps) (ps_event ps) o); try done;
        try (unfold full2; by apply on_log_app, on_log_app); try apply Hlate; simpl; fold ps; rewrite ?Hack; set_solver.
    + split; try done. intros ? [= <-]. by rewrite He'.
Qed.

Lemma step_inv full x y : ship_inv full x → ship_step x y → ∃ new, ship_inv (full ++ new) y.
Proof.
  intros Hi Hs. destruct Hs as [s Hst|f Hf|aside st He Hop|He|e interval a s' He Hr r|e interval a s' He Hr r].
  - destruct (log_step _ _ _ (si_good _ _ Hi) Hst (si_log _ _ Hi)) as [new Hlog]. exists new.
    apply (inv_same full new x); simpl; try done.
    + by apply step_good in Hst; [|apply Hi].
    + eapply keeps_later; [|apply Hi]. done.
    + eapply file_keeps_later; [|apply Hi]. done.
    + intros e He. destruct (si_exporter _ _ Hi e He). split; [by apply on_log_app|].
      eapply covers_later; [|done]. done.
  - exists []. rewrite app_nil_r. destruct Hi. split; try done. simpl. destruct f; try done. by edestruct Hf.
  - exists []. rewrite app_nil_r. destruct (open_keeps _ _ _ _ _ (si_file _ _ Hi) Hop). destruct Hi. by split.
  - exists []. rewrite app_nil_r. unfold start_exporter.
    destruct (position_for _ _ _) as [p st] eqn:Hp.
    destruct (keeps_position_for _ _ _ _ _ (si_memory _ _ Hi) Hp) as (-> & Hon & Hc). destruct Hi.
    split; try done. simpl. intros e [= <-]. done.
  - destruct (pass_inv _ _ _ _ _ Hi He Hr) as (new & _ & Hy). exists new. apply Hy.
    unfold r, pass, settle. simpl. by destruct (ps_result _).
  - destruct (pass_inv _ _ _ _ _ Hi He Hr) as (new & Hy & _). by exists new.
Qed.

Lemma ship_reachable_inv x : ship_reachable x → ∃ full, ship_inv full x.
Proof.
  intros Hr. unfold ship_reachable in Hr. apply rtc_ind_r with (P := λ x, ∃ full, ship_inv full x) in Hr; [done| |].
  - exists []. split; [apply good_new|apply log_new|intros o Ho; set_solver|by intros k p Hk|done|done].
  - intros y z _ Hs [full Hi]. destruct (step_inv _ _ _ Hi Hs) as [new Hz]. by eexists.
Qed.


(** *** Catching up *)
(** No faults, and nothing is appended. *)
Definition quiet (s : AuditStore) (a : Answers) : Prop :=
  a_head a = Some (conn s) ∧ a_records a = Some (conn s) ∧ a_head_after a = Some (conn s) ∧
  (∀ recs, is_ok (a_send a recs) = true) ∧ is_ok (a_written a) = true.

(** Passes one after the other, and how long each waits. *)
Fixpoint passes (interval : Z) (answers : list Answers) (x : Exporter) (st : ExportState)
    : list (Pass * Z) * Exporter * ExportState :=
  match answers with
  | [] => ([], x, st)
  | a :: answers =>
      let r := pass sink interval a x st in
      let rest := passes interval answers r.1.2 (ps_state r.1.1) in
      ((r.1.1, r.2) :: rest.1.1, rest.1.2, rest.2)
  end.

(** The rows from [d] on, as records. *)
Definition records_from (full : list Row) (d : nat) (recs : list StoredRecord) : Prop :=
  Forall2 (fun r o => stored r = Ok o) (drop d full) recs.

Lemma quiet_attempt full s k a p st :
  log_of full s → audit (conn s) = drop k full → (k ≤ length full)%nat → quiet s a → on_log full p →
  let ps := attempt sink a p st in let d := (k `max` Z.to_nat (p_seq p))%nat in
  batch full d (ps_sent ps) ∧ ps_result ps = Ok (length (ps_sent ps)) ∧
  ps_position ps = from_option next_of p (last (ps_sent ps)) ∧
  (last (ps_sent ps) ≠ None → positions (ps_state ps) = <[sink_key sink := ps_position ps]> (positions st)) ∧
  (last (ps_sent ps) = None → ps_state ps = st).
Proof.
  intros Hlog Ha Hk (Q1 & Q2 & _ & Q4 & Q5) Hp ps d. pose proof (on_log_bound _ _ Hp) as Hb.
  destruct (log_readable full s (take BATCH_SIZE (drop d full)) Hlog) as (recs & Hc & Hbt).
  { intros r Hr. apply list_elem_of_lookup in Hr as [j Hj]. apply lookup_take_Some in Hj as [Hj _].
    rewrite lookup_drop in Hj. by eapply list_elem_of_lookup_2. }
  assert (Hdel : ∀ ev, let ps := deliver (sink_key sink) a ev p recs st in
    ps_sent ps = recs ∧ ps_result ps = Ok (length recs) ∧ ps_position ps = from_option next_of p (last recs) ∧
    (last recs ≠ None → positions (ps_state ps) = <[sink_key sink := ps_position ps]> (positions st)) ∧
    (last recs = None → ps_state ps = st)).
  { intros ev. unfold deliver. destruct (last recs) as [o|] eqn:Ho.
    - specialize (Q4 recs). destruct (a_send a recs); [|done]. destruct (a_written a); [|done].
      simpl. by split_and!.
    - apply last_None in Ho as ->. by split_and!. }
  assert (Hps : ∃ ev, ps = deliver (sink_key sink) a ev p recs st).
  { unfold ps, attempt. rewrite Q1, Q2. simpl. rewrite (query_log _ _ k _ _ Hlog Ha Hk) by lia.
    fold d. rewrite Hc, (log_head _ _ Hlog). simpl.
    destruct (gap_on_log full s p d recs (length full) Hlog Hp Hbt) as [[-> _]|(why & -> & _)];
      [unfold d; lia|lia|eauto|]. rewrite (proj2 (Z.ltb_ge _ _)) by lia. eauto. }
  destruct Hps as [ev ->]. destruct (Hdel ev) as (-> & ? & ? & ? & ?). by split_and!.
Qed.

Lemma batch_length full d recs : batch full d recs → length recs = (BATCH_SIZE `min` (length full - d))%nat.
Proof. intros Hb%Forall2_length. by rewrite length_take, length_drop in Hb. Qed.

(** One pass moves the position over its batch, and waits only when that
    leaves nothing. *)
Lemma quiet_pass full s k interval a x st :
  log_of full s → audit (conn s) = drop k full → (k ≤ length full)%nat → (full ≠ [] → (k < length full)%nat) →
  quiet s a → on_log full (position x) →
  let r := pass sink interval a x st in let d := (k `max` Z.to_nat (p_seq (position x)))%nat in
  batch full d (ps_sent r.1.1) ∧ on_log full (position r.1.2) ∧
  p_seq (position r.1.2) = (d + length (ps_sent r.1.1))%nat ∧
  failures r.1.2 = 0 ∧ pending (e_status r.1.2) = length full - p_seq (position r.1.2) ∧
  (p_seq (ps_position r.1.1) < length full → r.2 = 0).
Proof.
  intros Hlog Ha Hk Hkl Hq Hp r d. pose proof (on_log_bound _ _ Hp) as Hb.
  assert (Hdl : (d ≤ length full)%nat) by (unfold d; lia).
  destruct (quiet_attempt full s k a (position x) st Hlog Ha Hk Hq Hp) as (Hbt & Hres & Hpos & _). fold d in Hbt.
  assert (Hr : r.1.1 = attempt sink a (position x) st ∧ position r.1.2 = ps_position r.1.1 ∧ failures r.1.2 = 0 ∧
    pending (e_status r.1.2) = Z.max (length full - p_seq (position r.1.2)) 0 ∧
    r.2 = if (length (ps_sent r.1.1) =? BATCH_SIZE)%nat then 0 else interval).
  { unfold r, pass, settle. simpl. destruct Hq as (_ & _ & -> & _). rewrite Hres. simpl.
    by rewrite (log_head _ _ Hlog). }
  clearbody r. destruct Hr as (Hr1 & Hr2 & Hr3 & Hr4 & Hr5). rewrite <- Hr1 in Hbt, Hpos.
  pose proof (batch_length _ _ _ Hbt) as Hlen. rewrite Hr2, Hpos in *.
  assert (Hseq : on_log full (from_option next_of (position x) (last (ps_sent r.1.1))) ∧
    p_seq (from_option next_of (position x) (last (ps_sent r.1.1))) = (d + length (ps_sent r.1.1))%nat).
  { destruct (last (ps_sent r.1.1)) as [o|] eqn:Ho; simpl.
    - destruct (batch_last _ _ _ _ _ Hlog Hbt Ho) as [Hs Hon]. split; [done|lia].
    - apply last_None in Ho. split; [done|]. rewrite Ho in Hlen |- *. unfold BATCH_SIZE, d in *. cbn [length] in *.
      destruct (decide (full = [])) as [->|Hfe]; [simpl in *; lia|]. specialize (Hkl Hfe). lia. }
  destruct Hseq as [Hon Hseq]. split_and!; try done.
  - rewrite Hr4. assert (d + length (ps_sent r.1.1) ≤ length full)%nat by lia. lia.
  - intros Hlt. rewrite Hr5. replace (length (ps_sent r.1.1)) with BATCH_SIZE by lia. by rewrite Nat.eqb_refl.
Qed.

(** Passes without faults, by induction on their number. *)
Lemma quiet_passes full s k interval answers x st :
  log_of full s → audit (conn s) = drop k full → (k ≤ length full)%nat → (full ≠ [] → (k < length full)%nat) →
  Forall (quiet s) answers → on_log full (position x) →
  length full - p_seq (position x) ≤ 1000 * length answers → answers ≠ [] →
  let r := passes interval answers x st in
  records_from full (k `max` Z.to_nat (p_seq (position x))) (List.concat (List.map (fun w => ps_sent w.1) r.1.1)) ∧
  p_seq (position r.1.2) = length full ∧ failures r.1.2 = 0 ∧ pending (e_status r.1.2) = 0 ∧
  Forall (fun w => p_seq (ps_position w.1) < length full → w.2 = 0) r.1.1.
Proof.
  intros Hlog Ha Hk Hkl Hq. revert x st. induction Hq as [|a answers Hqa Hq IH]; intros x st Hp Hn Hne; [done|].
  destruct (quiet_pass full s k interval a x st Hlog Ha Hk Hkl Hqa Hp) as (Hb & Hon & Hseq & Hf & Hpe & Hw).
  cbn [passes]. cbv zeta. cbn [fst snd]. set (r := pass sink interval a x st) in *. clearbody r.
  pose proof (batch_length _ _ _ Hb) as Hlen. pose proof (on_log_bound _ _ Hon) as Hbd.
  pose proof (on_log_bound _ _ Hp) as Hbd'.
  set (d := (k `max` Z.to_nat (p_seq (position x)))%nat) in *.
  assert (Hsplit : ∀ recs, records_from full (k `max` Z.to_nat (p_seq (position r.1.2))) recs →
                    records_from full d (ps_sent r.1.1 ++ recs)).
  { intros recs Hr. unfold records_from. rewrite <- (take_drop BATCH_SIZE (drop d full)). apply Forall2_app; [exact Hb|].
    rewrite drop_drop. unfold records_from in Hr.
    destruct (decide (d + BATCH_SIZE ≤ length full)%nat).
    - replace (d + BATCH_SIZE)%nat with (k `max` Z.to_nat (p_seq (position r.1.2)))%nat by lia. done.
    - rewrite drop_ge by lia. rewrite drop_ge in Hr by lia. done. }
  destruct answers as [|a' answers].
  - simpl. assert (Hend : p_seq (position r.1.2) = length full).
    { cbn [length] in Hn. unfold BATCH_SIZE, d in *. lia. }
    split_and!; [|done|done|lia|by constructor]. apply Hsplit. unfold records_from. rewrite drop_ge by lia. constructor.
  - destruct (IH r.1.2 (ps_state r.1.1) Hon) as (Hrec & ? & ? & ? & Hws); [|done|].
    + rewrite Hseq. cbn [length] in *. unfold BATCH_SIZE, d in *. lia.
    + split_and!; [|done..|by constructor]. cbn [List.map List.concat]. by apply Hsplit.
Qed.

(** Claim C40. When nothing fails and the trail stops growing,
    an exporter that is behind delivers, in one pass per thousand records,
    exactly the records after its position, each once and in the order of the
    trail; then its position is the end of the trail, nothing is pending and
    no failure is counted. It does not wait before it is there. *)
Theorem export_catches_up x e interval answers :
  ship_reachable x → sh_exporter x = Some e → Forall (quiet (sh_store x)) answers → answers ≠ [] →
  last_seq (sh_store x) - p_seq (position e) ≤ 1000 * length answers →
  let r := passes interval answers e (sh_state x) in
  query_after (conn (sh_store x)) (p_seq (position e)) (length (audit (conn (sh_store x)))) =
    Ok (List.concat (List.map (fun w => ps_sent w.1) r.1.1)) ∧
  p_seq (position r.1.2) = last_seq (sh_store x) ∧ failures r.1.2 = 0 ∧ pending (e_status r.1.2) = 0 ∧
  Forall (fun w => p_seq (ps_position w.1) < last_seq (sh_store x) → w.2 = 0) r.1.1.
Proof.
  intros [full Hi]%ship_reachable_inv He Hq Hne Hn r. pose proof (si_log _ _ Hi) as Hlog.
  pose proof Hlog as (_ & Hs & _ & k & Hk & Hkl & Ha). rewrite Hs in *.
  destruct (si_exporter _ _ Hi e He) as [Hon _]. pose proof (on_log_bound _ _ Hon) as Hb.
  destruct (quiet_passes full (sh_store x) k interval answers e (sh_state x) Hlog Ha Hk Hkl Hq Hon Hn Hne)
    as (Hrec & Hrest). split; [|exact Hrest]. fold r in Hrec. rewrite (query_log _ _ _ _ _ Hlog Ha Hk) by lia.
  rewrite take_ge by (rewrite Ha, !length_drop; lia).
  destruct (log_readable full _ (drop (k `max` Z.to_nat (p_seq (position e))) full) Hlog) as (out & Hc & Hf).
  { intros y [j Hj]%list_elem_of_lookup. rewrite lookup_drop in Hj. by eapply list_elem_of_lookup_2. }
  rewrite Hc. f_equal. unfold records_from in Hrec. clear -Hrec Hf. revert Hrec Hf.
  generalize (List.concat (List.map (fun w => ps_sent w.1) r.1.1)) as recs. generalize (drop (k `max` Z.to_nat (p_seq (position e))) full) as rows.
  intros rows recs Hr. revert out. induction Hr as [|row o rows recs H1 _ IH]; intros out Hf; inversion Hf; subst; [done|].
  f_equal; [congruence|auto].
Qed.
End Shipping.

Section ExportWitnesses.
Import Toy.

Definition questdb : Sink := mkSink "questdb" "http://db:9000".
Definition answers_of (s : AuditStore) : Answers :=
  mkAnswers (Some (conn s)) (Some (conn s)) (Some (conn s)) (fun _ => Ok tt) (Ok tt) (Some (conn s)) 100.
Lemma quiet_answers s : quiet s (answers_of s).
Proof. by split_and!. Qed.

(** Two records, and an exporter that has just started. *)
Definition no_state : ExportState := mkExportState ∅ FileMissing.
Definition begun_exporter : Exporter := (start_exporter questdb no_state).1.
Definition begun_state : ExportState := (start_exporter questdb no_state).2.
Definition begun : Shipping := mkShipping store2 begun_state (Some begun_exporter) [] [] [].
Lemma begun_reachable : ship_reachable questdb begun.
Proof.
  eapply rtc_l; [|eapply rtc_once].
  - apply (ss_trail questdb ship_start store2). apply (step_append new_store up). vm_compute. reflexivity.
  - apply (ss_start questdb (mkShipping store2 no_state None [] [] [])). reflexivity.
Qed.

Definition first_pass : Pass * Exporter * Z :=
  pass questdb 5000000000 (answers_of store2) begun_exporter begun_state.

(** The state after one pass. *)
Definition shipped : Shipping :=
  mkShipping store2 (ps_state first_pass.1.1) (Some first_pass.1.2)
    (acknowledged (answers_of store2) first_pass.1.1) (option_list (ps_event first_pass.1.1))
    (started (position begun_exporter) (acknowledged (answers_of store2) first_pass.1.1)).
Lemma shipped_reachable : ship_reachable questdb shipped.
Proof.
  eapply rtc_r; [apply begun_reachable|].
  apply (ss_pass questdb begun begun_exporter 5000000000 (answers_of store2) store2); [reflexivity|].
  exists store2, store2, store2. split_and!; try apply rtc_refl; by intros d [= <-].
Qed.


Lemma export_catches_up_witness :
  p_seq (position (passes questdb 5000000000 [answers_of store2] begun_exporter begun_state).1.2) = 2.
Proof.
  apply (export_catches_up questdb begun begun_exporter 5000000000 [answers_of store2] begun_reachable eq_refl).
  - apply Forall_singleton, quiet_answers.
  - discriminate.
  - vm_compute. discriminate.
Defined.

(** After the state file was lost the position is 0, and from there [gap] finds
    nothing: the first record was removed before the export began again, and
    nothing says that it was never delivered. *)
Example lost_position_no_gap :
  let ps := attempt questdb (answers_of store_pruned) no_position no_state in
  ps_event ps = None ∧ map seq (ps_sent ps) = [2; 3].
Proof. vm_compute. done. Qed.
End ExportWitnesses.
