(* ===== verification/Lines.v ===== *)
(** Records as text for other systems: the flat view of a record
    ([src/src/export/mod.rs]), QuestDB's line protocol and the delivery of a
    batch ([src/src/export/questdb.rs]), CSV ([src/src/web/mod.rs]).

    Both formats are read back by a small reader written from their public
    description; the theorems say that the reader finds exactly the records. *)

From S2P Require Import Prelude Event Store Query.

(** ** Fields *)

(** [serde_json::to_value(&event)] and [Value::to_string]. *)
Class EventJson : Type := {
  to_value : AuditEvent → json;
  json_text : json → string;
}.

Record RecordFields : Type := mkRecordFields {
  f_target : string;
  f_kind : string;
  f_user : string;
  client_address : string;
  client_application : string;
  f_node_id : string;
  f_display_name : string;
  f_data_type : string;
  f_old_value : string;
  f_new_value : string;
  f_status : string;
  event_json : string;
}.

Section Fields.
Context `{EventJson}.

Definition or_text (v : json) : string := match v with JStr s => s | v => json_text v end.

Definition field_text (event : json) (key : string) : string :=
  match json_get key event with None | Some JNull => EmptyString | Some v => or_text v end.
Definition field_value (event : json) (key : string) : string :=
  match json_get key event ≫= json_get "value" with None => EmptyString | Some v => or_text v end.

(** Who did it: the client's user, else the web user the event names. *)
Definition user_of (entry : AuditEntry) (event : json) : string :=
  match Event.client entry ≫= fun c => label <$> user c with
  | Some u => u
  | None =>
      let by_ := field_text event "by" in
      let by_ := if String.eqb by_ EmptyString then field_text event "user" else by_ in
      if negb (String.eqb by_ EmptyString) && negb (String.eqb by_ "gateway") then "ui:" +:+ by_ else EmptyString
  end.

Definition address_of (c : option ClientContext) : string :=
  match c with Some c => remote_addr c | None => EmptyString end.
Definition application_of (c : option ClientContext) : string :=
  match c with
  | Some c =>
      match application_name c with Some n => n | None => default EmptyString (application_uri c) end
  | None => EmptyString
  end.
Definition data_type_of (event : json) : string :=
  default EmptyString (v ← json_get "new_value" event; t ← json_get "data_type" v; json_as_str t).

Definition fields (record : StoredRecord) : RecordFields :=
  let e := Query.entry record in
  let event := to_value (Event.event e) in
  mkRecordFields
    (default EmptyString (Event.target e)) (kind (Event.event e)) (user_of e event)
    (address_of (Event.client e)) (application_of (Event.client e))
    (default EmptyString (event_node_id (Event.event e)))
    (field_text event "display_name") (data_type_of event)
    (field_value event "old_value") (field_value event "new_value") (field_text event "status")
    (json_text event).
End Fields.

(** ** Line protocol *)
Definition quote : string := String "034" EmptyString.
Definition backslash : string := String "092" EmptyString.

Definition escape_name_char (c : string) : string :=
  if bool_decide (c ∈ [","; " "; "="; backslash]) then backslash +:+ c
  else if is_control c then backslash +:+ " " else c.
Definition escape_name (s : string) : string := concat_all (escape_name_char <$> chars s).

Definition escape_string_char (c : string) : string :=
  if bool_decide (c ∈ [quote; backslash]) then backslash +:+ c
  else if is_control c then " " else c.
Definition escape_string (s : string) : string := concat_all (escape_string_char <$> chars s).

(** [timestamp_nanos_opt().unwrap_or_default()] *)
Definition timestamp (record : StoredRecord) : Z :=
  let t := ts (entry record) in if (i64_min <=? t) && (t <=? i64_max) then t else 0.

Definition given (kv : string * string) : bool := negb (String.eqb kv.2 EmptyString).

Section Lines.
Context `{EventJson}.

Definition line_tags (f : RecordFields) : list (string * string) :=
  List.filter given [("target", f_target f); ("kind", f_kind f); ("user", f_user f)].
Definition line_strings (record : StoredRecord) (f : RecordFields) : list (string * string) :=
  List.filter given
    [("hash", hash record); ("prev_hash", prev_hash record); ("node_id", f_node_id f);
     ("display_name", f_display_name f); ("data_type", f_data_type f); ("old_value", f_old_value f);
     ("new_value", f_new_value f); ("status", f_status f); ("client_address", client_address f);
     ("client_application", client_application f); ("event", event_json f)].

Definition tag_text (kv : string * string) : string := "," +:+ kv.1 +:+ "=" +:+ escape_name kv.2.
Definition string_text (kv : string * string) : string :=
  "," +:+ kv.1 +:+ "=" +:+ quote +:+ escape_string kv.2 +:+ quote.

Definition line (table : string) (record : StoredRecord) : string :=
  let f := fields record in
  escape_name table +:+ concat_all (tag_text <$> line_tags f) +:+
  " seq=" +:+ pretty (seq record) +:+ "i" +:+
  concat_all (string_text <$> line_strings record f) +:+
  " " +:+ pretty (timestamp record) +:+ lf.

(** A line QuestDB cannot refuse. *)
Definition minimal_line (table : string) (record : StoredRecord) (reason : string) : string :=
  escape_name table +:+ ",kind=" +:+ kind (event (entry record)) +:+
  " seq=" +:+ pretty (seq record) +:+ "i" +:+
  ",hash=" +:+ quote +:+ hash record +:+ quote +:+
  ",prev_hash=" +:+ quote +:+ prev_hash record +:+ quote +:+
  ",event=" +:+ quote +:+ escape_string ("not exportable: " +:+ reason) +:+ quote +:+
  " " +:+ pretty (timestamp record) +:+ lf.

(** *** Delivery *)
Section Send.
Context (table : string).
(** What the [n]th POST of a delivery is answered: [None] on success, else
    the status and the text; or it fails. *)
Context (post : nat → string → result string (option (Z * string))).

Definition BAD_REQUEST : Z := 400.

(** The result, and the bodies QuestDB stored. *)
Fixpoint send_each (n : nat) (records : list StoredRecord) : result string unit * list string :=
  match records with
  | [] => (Ok tt, [])
  | r :: records =>
      match post n (line table r) with
      | Err e => (Err e, [])
      | Ok None => let (o, stored) := send_each (S n) records in (o, line table r :: stored)
      | Ok (Some (_, text)) =>
          match post (S n) (minimal_line table r text) with
          | Err e => (Err e, [])
          | Ok (Some (status, text)) =>
              (Err ("QuestDB rejected record " +:+ pretty (seq r) +:+ " (" +:+ pretty status +:+ "): " +:+ text), [])
          | Ok None =>
              let (o, stored) := send_each (S (S n)) records in (o, minimal_line table r text :: stored)
          end
      end
  end.

Definition send (records : list StoredRecord) : result string unit * list string :=
  let body := concat_all (line table <$> records) in
  match post 0 body with
  | Err e => (Err e, [])
  | Ok None => (Ok tt, [body])
  | Ok (Some (status, text)) =>
      if negb (status =? BAD_REQUEST) then (Err ("QuestDB answered " +:+ pretty status +:+ ": " +:+ text), [])
      else send_each 1 records
  end.
End Send.

(** [QuestDbSink::new]: the authorization header. *)
Definition authorization (base64 : string → string) (token username password : option string) : option string :=
  match token, username with
  | Some token, _ => Some ("Bearer " +:+ token)
  | None, Some user => Some ("Basic " +:+ base64 (user +:+ ":" +:+ default EmptyString password))
  | None, None => None
  end.
End Lines.

(** ** A reader of the line protocol

    As its documentation describes it: a backslash makes the next byte part of
    a name or a string; unescaped, a comma, a space, an equals sign, a quote
    and a line break separate. *)
Module Ilp.
Record Line : Type := mkLine {
  measurement : string;
  tags : list (string * string);
  ints : list (string * string);
  strs : list (string * string);
  time : string;
}.
#[export] Instance Line_eq_dec : EqDecision Line.
Proof. solve_decision. Defined.
Definition no_line : Line := mkLine EmptyString [] [] [] EmptyString.

Inductive Place : Type :=
| InTable (t : string)
| InTagKey (k : string)
| InTagValue (k v : string)
| InFieldKey (k : string)
| FieldStart (k : string)
| InInt (k v : string)
| InString (k v : string)
| AfterField
| InTime (t : string).

Record State : Type := mkState { place : Place; escaped : bool; part : Line; out : list Line }.

Definition with_table t (l : Line) : Line := mkLine t (tags l) (ints l) (strs l) (time l).
Definition add_tag kv (l : Line) : Line := mkLine (measurement l) (tags l ++ [kv]) (ints l) (strs l) (time l).
Definition add_int kv (l : Line) : Line := mkLine (measurement l) (tags l) (ints l ++ [kv]) (strs l) (time l).
Definition add_str kv (l : Line) : Line := mkLine (measurement l) (tags l) (ints l) (strs l ++ [kv]) (time l).
Definition with_time t (l : Line) : Line := mkLine (measurement l) (tags l) (ints l) (strs l) t.

Definition isc (a : ascii) (c : string) : bool := String.eqb (String a EmptyString) c.
Definition snoc (s : string) (a : ascii) : string := s +:+ String a EmptyString.
Definition special (a : ascii) : bool :=
  isc a "," || isc a " " || isc a "=" || isc a backslash || isc a lf.

(** A byte that belongs to the text being read. *)
Definition push (a : ascii) (p : Place) : option Place :=
  match p with
  | InTable t => Some (InTable (snoc t a))
  | InTagKey k => Some (InTagKey (snoc k a))
  | InTagValue k v => Some (InTagValue k (snoc v a))
  | InFieldKey k => Some (InFieldKey (snoc k a))
  | InString k v => Some (InString k (snoc v a))
  | InInt k v => Some (InInt k (snoc v a))
  | InTime t => Some (InTime (snoc t a))
  | FieldStart _ | AfterField => None
  end.

(** An unescaped separator. *)
Definition separate (a : ascii) (p : Place) (l : Line) (o : list Line) : option (Place * Line * list Line) :=
  match p with
  | InTable t =>
      if isc a "," then Some (InTagKey EmptyString, with_table t l, o)
      else if isc a " " then Some (InFieldKey EmptyString, with_table t l, o) else None
  | InTagKey k => if isc a "=" then Some (InTagValue k EmptyString, l, o) else None
  | InTagValue k v =>
      if isc a "," then Some (InTagKey EmptyString, add_tag (k, v) l, o)
      else if isc a " " then Some (InFieldKey EmptyString, add_tag (k, v) l, o) else None
  | InFieldKey k => if isc a "=" then Some (FieldStart k, l, o) else None
  | AfterField =>
      if isc a "," then Some (InFieldKey EmptyString, l, o)
      else if isc a " " then Some (InTime EmptyString, l, o) else None
  | InTime t => if isc a lf then Some (InTable EmptyString, no_line, o ++ [with_time t l]) else None
  | FieldStart _ | InInt _ _ | InString _ _ => None
  end.

Definition step (s : State) (a : ascii) : option State :=
  let pushed := (fun p => mkState p false (part s) (out s)) <$> push a (place s) in
  if escaped s then pushed
  else match place s with
  | FieldStart k =>
      if isc a quote then Some (mkState (InString k EmptyString) false (part s) (out s))
      else Some (mkState (InInt k (String a EmptyString)) false (part s) (out s))
  | InInt k v =>
      if isc a "i" then Some (mkState AfterField false (add_int (k, v) (part s)) (out s))
      else if special a then None else pushed
  | InString k v =>
      if isc a backslash then Some (mkState (InString k v) true (part s) (out s))
      else if isc a quote then Some (mkState AfterField false (add_str (k, v) (part s)) (out s))
      else if isc a lf then None else pushed
  | p =>
      if isc a backslash then Some (mkState p true (part s) (out s))
      else if special a then
        '(p, l, o) ← separate a p (part s) (out s); Some (mkState p false l o)
      else pushed
  end.

Fixpoint run (s : State) (text : string) : option State :=
  match text with
  | EmptyString => Some s
  | String a text => s ← step s a; run s text
  end.

Definition start (o : list Line) : State := mkState (InTable EmptyString) false no_line o.

(** The lines of a text, when it is well formed and ends after a line. *)
Definition read (text : string) : option (list Line) :=
  s ← run (start []) text;
  match place s, escaped s with InTable EmptyString, false => Some (out s) | _, _ => None end.
End Ilp.

Import Ilp (Line, mkLine).

(** What text becomes: a control character is a space. *)
Definition clean (s : string) : string :=
  concat_all ((fun c => if is_control c then " " else c) <$> chars s).

(** An ASCII byte is a char of its own, as in UTF-8. *)
Definition high (a : ascii) : bool := (128 <=? N_of_ascii a)%N.
Definition alone (c : string) : bool :=
  match c with
  | EmptyString => false
  | String a EmptyString => negb (high a)
  | String a _ => is_char_start a && string_all high c
  end.
Definition ascii_alone (s : string) : bool := forallb alone (chars s).

Section Reading.
Import Ilp.

Lemma concat_all_cons x l : concat_all (x :: l) = x +:+ concat_all l.
Proof. reflexivity. Qed.

Lemma run_app s a b : run s (a +:+ b) = (s ← run s a; run s b).
Proof. revert s. induction a as [|x a IH]; intros s; [done|]. simpl. destruct (step s x); simpl; auto. Qed.

Lemma snoc_app s a t : snoc s a +:+ t = s +:+ String a t.
Proof. unfold snoc. by rewrite <- string_app_assoc'. Qed.

(** A place in a text that ends at a separator, as a function of what was read. *)
Record name_place (f : string → Place) : Prop := {
  np_push v a : push a (f v) = Some (f (snoc v a));
  np_plain v a l o : special a = false → step (mkState (f v) false l o) a = Some (mkState (f (snoc v a)) false l o);
  np_escape v l o : step (mkState (f v) false l o) "092" = Some (mkState (f v) true l o);
}.
Lemma plain_byte a : special a = false → special a = false ∧ isc a backslash = false.
Proof. intros Ha. split; [done|]. unfold special in Ha. by destruct (isc a backslash); rewrite ?orb_true_r in Ha. Qed.
Lemma table_place : name_place InTable.
Proof. split; [done| |done]. by intros v a l o [Hs Hb]%plain_byte; unfold step; simpl; rewrite Hs, Hb. Qed.
Lemma tag_place k : name_place (InTagValue k).
Proof. split; [done| |done]. by intros v a l o [Hs Hb]%plain_byte; unfold step; simpl; rewrite Hs, Hb. Qed.

Lemma run_escaped f v a l o :
  name_place f → run (mkState (f v) false l o) (backslash +:+ String a EmptyString) = Some (mkState (f (snoc v a)) false l o).
Proof.
  intros [Hp _ He]. unfold backslash. cbn [String.append run]. rewrite He. simpl.
  unfold step. cbn [place escaped part out]. by rewrite Hp.
Qed.

(** Bytes that are no separators are read as they are. *)
Lemma run_plain f v s l o :
  name_place f → string_all (fun a => negb (special a)) s = true →
  run (mkState (f v) false l o) s = Some (mkState (f (v +:+ s)) false l o).
Proof.
  intros Hf. revert v. induction s as [|a s IH]; intros v; [by rewrite string_app_nil_r|].
  simpl. intros [Ha%negb_true_iff Hs]%andb_prop. rewrite (np_plain _ Hf) by done. simpl.
  rewrite IH by done. by rewrite snoc_app.
Qed.

Lemma high_plain a : high a = true → special a = false ∧ isc a quote = false.
Proof. destruct a as [[] [] [] [] [] [] [] []]; vm_compute; done. Qed.

Lemma string_all_impl (f g : ascii → bool) s : (∀ a, f a = true → g a = true) → string_all f s = true → string_all g s = true.
Proof. intros Hi. induction s as [|a s IH]; simpl; [done|]. intros [Ha Hs]%andb_prop. by rewrite (Hi _ Ha), IH. Qed.

(** One char of a name. *)
Lemma run_name_char f v c l o :
  name_place f → alone c = true →
  run (mkState (f v) false l o) (escape_name_char c) =
    Some (mkState (f (v +:+ if is_control c then " " else c)) false l o).
Proof.
  intros Hf Ha. unfold escape_name_char. case_bool_decide as Hin.
  - assert (is_control c = false) as ->.
    { repeat (apply elem_of_cons in Hin as [->|Hin]; [done|]). by inversion Hin. }
    repeat (apply elem_of_cons in Hin as [->|Hin]; [by apply run_escaped|]). by inversion Hin.
  - destruct (is_control c) eqn:Hc; [by apply run_escaped|]. apply run_plain; [done|].
    destruct c as [|a [|b c]]; [done| |].
    + simpl. rewrite andb_true_r. clear -Hin Hc. apply negb_true_iff.
      destruct (special a) eqn:Hs; [|done]. exfalso. unfold special, isc in Hs.
      rewrite !orb_true_iff, !String.eqb_eq in Hs.
      destruct Hs as [[[[E|E]|E]|E]|E]; rewrite E in *; try (apply Hin; set_solver).
    + eapply string_all_impl; [|exact (proj2 (andb_prop _ _ Ha))]. intros x Hx%high_plain. by rewrite (proj1 Hx).
Qed.

Lemma run_chars (f : string → Place) (esc : string → string) v cs l o :
  (∀ v c, c ∈ cs → run (mkState (f v) false l o) (esc c) =
     Some (mkState (f (v +:+ if is_control c then " " else c)) false l o)) →
  run (mkState (f v) false l o) (concat_all (esc <$> cs)) =
    Some (mkState (f (v +:+ concat_all ((fun c => if is_control c then " " else c) <$> cs))) false l o).
Proof.
  revert v. induction cs as [|c cs IH]; intros v Hc; simpl; [by rewrite string_app_nil_r|].
  rewrite run_app, Hc by set_solver. simpl. rewrite IH by set_solver. by rewrite string_app_assoc'.
Qed.

Lemma alone_elem s c : ascii_alone s = true → c ∈ chars s → alone c = true.
Proof. unfold ascii_alone. rewrite forallb_forall. intros Ha Hc. by apply Ha, list_elem_of_In. Qed.

(** An escaped name is read as its clean text. *)
Lemma run_name f v s l o :
  name_place f → ascii_alone s = true →
  run (mkState (f v) false l o) (escape_name s) = Some (mkState (f (v +:+ clean s)) false l o).
Proof. intros Hf Ha. apply run_chars. intros w c Hc. apply run_name_char; [done|by eapply alone_elem]. Qed.

Lemma run_string_char k v c l o :
  alone c = true →
  run (mkState (InString k v) false l o) (escape_string_char c) =
    Some (mkState (InString k (v +:+ if is_control c then " " else c)) false l o).
Proof.
  intros Ha. unfold escape_string_char. case_bool_decide as Hin.
  - repeat (apply elem_of_cons in Hin as [->|Hin]; [reflexivity|]). by inversion Hin.
  - destruct (is_control c) eqn:Hc; [reflexivity|].
    assert (Hall : string_all (fun a => negb (isc a backslash) && negb (isc a quote) && negb (isc a lf)) c = true).
    { destruct c as [|a [|b c]]; [done| |].
      - simpl. rewrite andb_true_r. unfold isc. rewrite !andb_true_iff, !negb_true_iff, !String.eqb_neq.
        split_and!; intros E; rewrite E in *; try (apply Hin; set_solver).
      - eapply string_all_impl; [|exact (proj2 (andb_prop _ _ Ha))]. intros x Hx. destruct (high_plain _ Hx) as [Hs ->].
        unfold special in Hs. rewrite !orb_false_iff in Hs. destruct Hs as [[_ ->] ->]. done. }
    clear -Hall. revert v. induction c as [|a c IH]; intros v; [by rewrite string_app_nil_r|].
    simpl in Hall. apply andb_prop in Hall as [Ha Hc]. cbn [run].
    assert (step (mkState (InString k v) false l o) a = Some (mkState (InString k (snoc v a)) false l o)) as ->.
    { unfold step. simpl. by destruct (isc a backslash), (isc a quote), (isc a lf). }
    simpl. rewrite (IH Hc). by rewrite snoc_app.
Qed.

Lemma run_string k v s l o :
  ascii_alone s = true →
  run (mkState (InString k v) false l o) (escape_string s) = Some (mkState (InString k (v +:+ clean s)) false l o).
Proof. intros Ha. apply (run_chars (InString k)). intros w c Hc. apply run_string_char. by eapply alone_elem. Qed.

Lemma tag_key_place : name_place InTagKey.
Proof. split; [done| |done]. by intros v a l o [Hs Hb]%plain_byte; unfold step; simpl; rewrite Hs, Hb. Qed.
Lemma field_key_place : name_place InFieldKey.
Proof. split; [done| |done]. by intros v a l o [Hs Hb]%plain_byte; unfold step; simpl; rewrite Hs, Hb. Qed.

Definition plain (s : string) : bool := string_all (fun a => negb (special a)) s.

(** *** Tags *)
Definition add_tags (kvs : list (string * string)) (l : Line) : Line :=
  mkLine (measurement l) (tags l ++ kvs) (ints l) (strs l) (time l).
Definition add_strs (kvs : list (string * string)) (l : Line) : Line :=
  mkLine (measurement l) (tags l) (ints l) (strs l ++ kvs) (time l).
Definition cleaned (kv : string * string) : string * string := (kv.1, clean kv.2).

(** A place where the table name or a tag ends, [l] with it. *)
Definition closes (p : Place) (l0 l : Line) : Prop :=
  ∀ o, step (mkState p false l0 o) "," = Some (mkState (InTagKey EmptyString) false l o) ∧
       step (mkState p false l0 o) " " = Some (mkState (InFieldKey EmptyString) false l o).

Lemma run_tag p l0 l o kv :
  closes p l0 l → plain kv.1 = true → ascii_alone kv.2 = true →
  run (mkState p false l0 o) (tag_text kv) = Some (mkState (InTagValue kv.1 (clean kv.2)) false l o).
Proof.
  intros Hc Hk Hv. unfold tag_text. rewrite run_app. simpl. destruct (Hc o) as [-> _]. simpl.
  rewrite run_app, (run_plain InTagKey) by (done || apply tag_key_place). simpl.
  apply (run_name (InTagValue kv.1) EmptyString); [apply tag_place|done].
Qed.

Lemma run_tags kvs p l0 l o :
  closes p l0 l → Forall (fun kv => plain kv.1 = true ∧ ascii_alone kv.2 = true) kvs →
  ∃ p' l', run (mkState p false l0 o) (concat_all (tag_text <$> kvs)) = Some (mkState p' false l' o) ∧
           closes p' l' (add_tags (cleaned <$> kvs) l).
Proof.
  intros Hc Hk. revert p l0 l Hc. induction Hk as [|kv kvs [Hk Hv] _ IH]; intros p l0 l Hc.
  - exists p, l0. split; [done|]. unfold add_tags. simpl. rewrite app_nil_r. by destruct l.
  - destruct (IH (InTagValue kv.1 (clean kv.2)) l (add_tag (cleaned kv) l)) as (p' & l' & Hr & Hc'); [done|].
    exists p', l'. rewrite fmap_cons, concat_all_cons, run_app, (run_tag _ _ _ _ _ Hc Hk Hv). split; [done|].
    unfold add_tags, add_tag in *. simpl in *. by rewrite <- app_assoc in Hc'.
Qed.

(** *** Numbers *)
Definition int_char (a : ascii) : bool := is_ascii_digit a || isc a "-".

Lemma pretty_N_go_nonempty x s : s ≠ EmptyString → pretty_N_go x s ≠ EmptyString.
Proof.
  revert s. induction (N.lt_wf_0 x) as [x _ IH]; intros s Hs. destruct (decide (0 < x)%N).
  - rewrite pretty_N_go_step by done. apply IH; [by apply N.div_lt|done].
  - assert (x = 0%N) as -> by lia. by rewrite pretty_N_go_0.
Qed.
Lemma pretty_N_nonempty (n : N) : pretty n ≠ EmptyString.
Proof.
  unfold pretty, pretty_N. case_decide; [done|]. rewrite pretty_N_go_step by lia. by apply pretty_N_go_nonempty.
Qed.

Lemma pretty_int (z : Z) : string_all int_char (pretty z) = true ∧ pretty z ≠ EmptyString.
Proof.
  assert (Hn : ∀ n : N, string_all int_char (pretty n) = true ∧ pretty n ≠ EmptyString).
  { intros n. split; [|apply pretty_N_nonempty].
    eapply string_all_impl; [|apply pretty_N_digits]. unfold int_char. intros a ->. done. }
  destruct z as [|p|p]; [by vm_compute|apply (Hn (N.pos p))|]. simpl. split; [|done].
  apply (proj1 (Hn (N.pos p))).
Qed.

Lemma int_char_plain a : int_char a = true → isc a "i" = false ∧ special a = false ∧ isc a quote = false.
Proof. destruct a as [[] [] [] [] [] [] [] []]; vm_compute; done. Qed.

Lemma run_int k s l o :
  string_all int_char s = true → s ≠ EmptyString →
  run (mkState (FieldStart k) false l o) (s +:+ "i") = Some (mkState AfterField false (add_int (k, s) l) o).
Proof.
  destruct s as [|a s]; [done|]. simpl. intros [Ha Hs]%andb_prop _.
  destruct (int_char_plain _ Ha) as (_ & _ & Hq). unfold step at 1. cbn [place escaped part out]. rewrite Hq. simpl.
  assert (∀ v, run (mkState (InInt k v) false l o) (s +:+ "i") = Some (mkState AfterField false (add_int (k, v +:+ s) l) o)) as Hr.
  { clear -Hs. induction s as [|b s IH]; intros v; [by rewrite string_app_nil_r|].
    simpl in Hs. apply andb_prop in Hs as [Hb Hs]. destruct (int_char_plain _ Hb) as (Hi & Hsp & _).
    simpl. unfold step at 1. cbn [place escaped part out]. rewrite Hi, Hsp. simpl. rewrite (IH Hs).
    by rewrite snoc_app. }
  apply Hr.
Qed.

(** *** Strings *)
Lemma run_str_field kv l o :
  plain kv.1 = true → ascii_alone kv.2 = true →
  run (mkState AfterField false l o) (string_text kv) = Some (mkState AfterField false (add_str (cleaned kv) l) o).
Proof.
  intros Hk Hv. unfold string_text. simpl. rewrite run_app, (run_plain InFieldKey) by (done || apply field_key_place).
  simpl. rewrite run_app, (run_string kv.1 EmptyString) by done. reflexivity.
Qed.

Lemma run_str_fields kvs l o :
  Forall (fun kv => plain kv.1 = true ∧ ascii_alone kv.2 = true) kvs →
  run (mkState AfterField false l o) (concat_all (string_text <$> kvs)) =
    Some (mkState AfterField false (add_strs (cleaned <$> kvs) l) o).
Proof.
  intros Hk. revert l. induction Hk as [|kv kvs [Hk Hv] _ IH]; intros l.
  - unfold add_strs. simpl. rewrite app_nil_r. by destruct l.
  - rewrite fmap_cons, concat_all_cons, run_app, run_str_field by done. simpl. rewrite IH.
    unfold add_strs, add_str. simpl. by rewrite <- app_assoc.
Qed.

(** *** The end of a line *)
Lemma run_time (z : Z) l o :
  run (mkState AfterField false l o) (" " +:+ pretty z +:+ lf) = Some (start (o ++ [with_time (pretty z) l])).
Proof.
  simpl. rewrite run_app. destruct (pretty_int z) as [Hz _].
  assert (∀ s v, string_all int_char s = true → run (mkState (InTime v) false l o) s = Some (mkState (InTime (v +:+ s)) false l o)) as Hr.
  { induction s as [|a s IH]; intros v; [by rewrite string_app_nil_r|]. simpl. intros [Ha Hs]%andb_prop.
    destruct (int_char_plain _ Ha) as (_ & Hsp & _). destruct (plain_byte _ Hsp) as [_ Hb].
    unfold step. cbn [place escaped part out]. rewrite Hb, Hsp. simpl. rewrite (IH _ Hs). by rewrite snoc_app. }
  rewrite Hr by done. reflexivity.
Qed.
End Reading.

Section Reading_lines.
Import Ilp.
Context `{EventJson}.

(** What a reader of [line table record] finds. *)
Definition line_of (table : string) (record : StoredRecord) : Line :=
  let f := fields record in
  mkLine (clean table) (cleaned <$> line_tags f) [("seq", pretty (seq record))]
    (cleaned <$> line_strings record f) (pretty (timestamp record)).

(** All text of the line is text: what UTF-8 gives. *)
Definition texts_ok (table : string) (record : StoredRecord) : Prop :=
  ascii_alone table = true ∧
  Forall (fun kv => ascii_alone kv.2 = true) (line_tags (fields record) ++ line_strings record (fields record)).

Lemma given_keys kvs :
  Forall (fun kv => plain kv.1 = true) kvs → Forall (fun kv => ascii_alone kv.2 = true) (List.filter given kvs) →
  Forall (fun kv => plain kv.1 = true ∧ ascii_alone kv.2 = true) (List.filter given kvs).
Proof.
  intros Hk Hv. apply Forall_and. split; [|done]. rewrite Forall_forall in *. intros kv Hkv. apply Hk.
  rewrite list_elem_of_In, filter_In in Hkv. apply list_elem_of_In, Hkv.
Qed.

Lemma table_closes t o : ascii_alone t = true →
  run (start o) (escape_name t) = Some (mkState (InTable (clean t)) false no_line o) ∧
  closes (InTable (clean t)) no_line (with_table (clean t) no_line).
Proof.
  intros Ht. unfold start. split; [|done]. by rewrite (run_name InTable) by (done || apply table_place).
Qed.

(** From a closed tag set to the end of the line. *)
Lemma run_fields p l0 l o (n : Z) (strings : string) l' (t : Z) :
  closes p l0 l →
  run (mkState AfterField false (add_int ("seq", pretty n) l) o) strings = Some (mkState AfterField false l' o) →
  run (mkState p false l0 o) (" seq=" +:+ pretty n +:+ "i" +:+ strings +:+ " " +:+ pretty t +:+ lf) =
    Some (start (o ++ [with_time (pretty t) l'])).
Proof.
  intros Hc Hs. destruct (pretty_int n) as [Hn Hne].
  rewrite run_app. assert (run (mkState p false l0 o) " seq=" = Some (mkState (FieldStart "seq") false l o)) as ->.
  { cbn [run]. destruct (Hc o) as [_ ->]. reflexivity. }
  cbn [mbind option_bind]. rewrite (string_app_assoc' (pretty n) "i"), run_app, run_int by done.
  cbn [mbind option_bind]. rewrite run_app.
  rewrite Hs. cbn [mbind option_bind]. apply run_time.
Qed.

(** One line is read as its record, whatever was read before. *)
Lemma run_line table record o :
  texts_ok table record → run (start o) (line table record) = Some (start (o ++ [line_of table record])).
Proof.
  intros [Ht Hv]. apply Forall_app in Hv as [Hv1 Hv2]. unfold line.
  destruct (table_closes table o Ht) as [Hr Hc]. rewrite run_app, Hr. cbn [mbind option_bind].
  destruct (run_tags (line_tags (fields record)) _ _ _ o Hc) as (p & l & Hrt & Hct).
  { apply given_keys; [by repeat constructor|done]. }
  rewrite run_app, Hrt. cbn [mbind option_bind].
  erewrite run_fields; [|exact Hct|apply run_str_fields].
  - reflexivity.
  - apply given_keys; [by repeat constructor|done].
Qed.

(** *** Text that is kept as it is *)
Definition word (a : ascii) : bool := is_ascii_alphanumeric a || isc a "_".

Lemma word_char a :
  word a = true →
  is_char_start a = true ∧ high a = false ∧ is_control (String a EmptyString) = false ∧
  escape_name_char (String a EmptyString) = String a EmptyString ∧
  escape_string_char (String a EmptyString) = String a EmptyString.
Proof. destruct a as [[] [] [] [] [] [] [] []]; vm_compute; by intros. Qed.

Lemma map_chars_id (f : string → string) s :
  (∀ a, word a = true → f (String a EmptyString) = String a EmptyString) → string_all word s = true →
  concat_all (f <$> chars s) = s.
Proof.
  intros Hf Hs. rewrite <- (concat_all_chars s) at 2. f_equal.
  assert (Hw := chars_ascii word s (fun a Ha => proj1 (word_char a Ha)) Hs).
  clear Hs. induction Hw as [|c cs (a & -> & Ha) _ IH]; [done|]. rewrite fmap_cons. f_equal; auto.
Qed.

Lemma words_kept s :
  string_all word s = true → escape_name s = s ∧ escape_string s = s ∧ clean s = s ∧ ascii_alone s = true.
Proof.
  intros Hs. split_and!.
  - apply map_chars_id; [|done]. intros a Ha. by apply word_char.
  - apply map_chars_id; [|done]. intros a Ha. by apply word_char.
  - unfold clean. apply map_chars_id; [|done]. intros a Ha. by destruct (word_char a Ha) as (_ & _ & -> & _).
  - unfold ascii_alone. apply forallb_forall. intros c Hc%list_elem_of_In.
    assert (Hw := chars_ascii word s (fun a Ha => proj1 (word_char a Ha)) Hs). rewrite Forall_forall in Hw.
    destruct (Hw c Hc) as (a & -> & Ha). simpl. by destruct (word_char a Ha) as (_ & -> & _).
Qed.

Lemma kind_word e : string_all word (kind e) = true.
Proof. by destruct e. Qed.

(** A hash as [hex::encode] writes it. *)
Definition digest (h : string) : bool := string_all word h && negb (String.eqb h EmptyString).

Definition minimal_of (table : string) (record : StoredRecord) (reason : string) : Line :=
  mkLine (clean table) [("kind", kind (event (entry record)))] [("seq", pretty (seq record))]
    [("hash", hash record); ("prev_hash", prev_hash record); ("event", clean ("not exportable: " +:+ reason))]
    (pretty (timestamp record)).

Lemma ascii_alone_cons a s : high a = false → ascii_alone s = true → ascii_alone (String a s) = true.
Proof.
  intros Ha Hs. unfold ascii_alone in *. simpl. destruct (chars s) as [|[|b c] cs]; simpl in *; [by rewrite Ha|done|].
  assert (is_char_start b = true) as ->.
  { apply andb_prop in Hs as [Hb _]. destruct c; [|by apply andb_prop in Hb as [? _]].
    clear -Hb. destruct b as [[] [] [] [] [] [] [] []]; vm_compute in Hb |- *; done. }
  simpl. by rewrite Ha, Hs.
Qed.

Lemma ascii_alone_app p s :
  string_all (fun a => negb (high a)) p = true → ascii_alone s = true → ascii_alone (p +:+ s) = true.
Proof.
  intros Hp Hs. induction p as [|a p IH]; [done|]. simpl in *. apply andb_prop in Hp as [Ha%negb_true_iff Hp].
  apply ascii_alone_cons; auto.
Qed.

Lemma run_minimal table record reason o :
  ascii_alone table = true → digest (hash record) = true → digest (prev_hash record) = true →
  ascii_alone reason = true →
  run (start o) (minimal_line table record reason) = Some (start (o ++ [minimal_of table record reason])).
Proof.
  unfold digest. intros Ht [Hh _]%andb_prop [Hp _]%andb_prop Hr.
  destruct (words_kept _ Hh) as (_ & Hh1 & Hh2 & Hh3), (words_kept _ Hp) as (_ & Hp1 & Hp2 & Hp3).
  destruct (words_kept _ (kind_word (event (entry record)))) as (Hk1 & _ & Hk2 & Hk3).
  set (strings := [("hash", hash record); ("prev_hash", prev_hash record); ("event", "not exportable: " +:+ reason)]).
  destruct (table_closes table o Ht) as [Hrt Hc].
  pose proof (run_tag _ _ _ o ("kind", kind (event (entry record))) Hc eq_refl Hk3) as Hrk.
  assert (Hck : closes (InTagValue "kind" (clean (kind (event (entry record))))) (with_table (clean table) no_line)
    (add_tag ("kind", clean (kind (event (entry record)))) (with_table (clean table) no_line))) by done.
  assert (Hs := run_str_fields strings
    (add_int ("seq", pretty (seq record)) (add_tag ("kind", clean (kind (event (entry record)))) (with_table (clean table) no_line))) o).
  assert (Hline : minimal_line table record reason =
    escape_name table +:+ tag_text ("kind", kind (event (entry record))) +:+
    " seq=" +:+ pretty (seq record) +:+ "i" +:+ concat_all (string_text <$> strings) +:+ " " +:+
    pretty (timestamp record) +:+ lf).
  { unfold minimal_line, tag_text, strings. rewrite !fmap_cons, !concat_all_cons. unfold string_text. cbn [fst snd].
    rewrite Hk1, Hh1, Hp1. simpl. repeat (rewrite <- string_app_assoc'; simpl). done. }
  rewrite Hline, run_app, Hrt. cbn [mbind option_bind].
  rewrite run_app, Hrk. cbn [mbind option_bind fst snd]. erewrite run_fields; [|exact Hck|apply Hs].
  - unfold strings, minimal_of, cleaned. simpl. by rewrite Hh2, Hp2, Hk2.
  - repeat constructor; try done. cbn [snd]. by apply ascii_alone_app.
Qed.

(** The end of a text, and its lines one after the other. *)
Lemma read_of texts lines :
  Forall2 (fun t l => ∀ o, run (start o) t = Some (start (o ++ [l]))) texts lines →
  read (concat_all texts) = Some lines.
Proof.
  intros Hf. unfold read.
  assert (∀ o, run (start o) (concat_all texts) = Some (start (o ++ lines))) as ->; [|by simpl].
  induction Hf as [|t l texts lines Ht _ IH]; intros o; [by rewrite app_nil_r|].
  rewrite concat_all_cons, run_app, Ht. cbn [mbind option_bind]. rewrite IH. by rewrite <- app_assoc.
Qed.

(** What is sent for a batch reads back, line by line
    and in order, as exactly the records of the batch: every tag and string
    with its text (control characters as spaces), the sequence number and the
    time. No text of a client ends its string, its tag set or its line. *)
Theorem lines_read_back table records :
  Forall (texts_ok table) records →
  Ilp.read (concat_all (line table <$> records)) = Some (line_of table <$> records).
Proof.
  intros Hr. apply read_of. induction Hr as [|r records Hr _ IH]; constructor; [|exact IH].
  intros o. by apply run_line.
Qed.

(** *** Delivery *)
(** A line that identifies its record: number, hashes, type and time. *)
Definition identifies (r : StoredRecord) (l : Line) : Prop :=
  ints l = [("seq", pretty (seq r))] ∧ ("hash", hash r) ∈ strs l ∧ ("prev_hash", prev_hash r) ∈ strs l ∧
  ("kind", kind (event (entry r))) ∈ tags l ∧ time l = pretty (timestamp r).

Definition hashes_ok (r : StoredRecord) : Prop := digest (hash r) = true ∧ digest (prev_hash r) = true.

Lemma elem_of_filter_given kv kvs : kv ∈ kvs → kv.2 ≠ EmptyString → kv ∈ List.filter given kvs.
Proof.
  rewrite !list_elem_of_In, filter_In. intros Hin Hne. split; [done|]. unfold given.
  apply negb_true_iff, String.eqb_neq, Hne.
Qed.

Lemma line_identifies table r : hashes_ok r → identifies r (line_of table r).
Proof.
  unfold hashes_ok, digest. rewrite !andb_true_iff, !negb_true_iff, !String.eqb_neq. intros [[Hh Hne] [Hp Hnp]].
  assert (Hk : ∀ k v kvs, (k, v) ∈ kvs → v ≠ EmptyString → string_all word v = true → (k, v) ∈ cleaned <$> List.filter given kvs).
  { intros k v kvs Hin Hv Hw. apply list_elem_of_fmap. exists (k, v). unfold cleaned. simpl.
    destruct (words_kept _ Hw) as (_ & _ & -> & _). split; [done|]. by apply elem_of_filter_given. }
  split_and!; try done; apply Hk; try done; try apply kind_word; try (by destruct (event (entry r))); set_solver.
Qed.

Lemma minimal_identifies table r reason : identifies r (minimal_of table r reason).
Proof. split_and!; simpl; try done; set_solver. Qed.

(** Claim C29. When a delivery succeeds, what QuestDB stored reads
    back as one line per record, in order, each with the number, the hashes,
    the type and the time of its record: also when QuestDB refused the batch
    and some of its records, which were then replaced by minimal lines. *)
Theorem send_delivers table post records :
  Forall (texts_ok table) records → Forall hashes_ok records →
  (∀ n body status text, post n body = Ok (Some (status, text)) → ascii_alone text = true) →
  (send table post records).1 = Ok tt →
  ∃ lines, Ilp.read (concat_all (send table post records).2) = Some lines ∧ Forall2 identifies records lines.
Proof.
  intros Ht Hh Hpost. unfold send.
  assert (Hall : ∃ lines, Forall2 (fun t l => ∀ o, run (start o) t = Some (start (o ++ [l]))) (line table <$> records) lines ∧
    Forall2 identifies records lines).
  { exists (line_of table <$> records). split.
    - clear Hh. induction Ht as [|r records Hr _ IH]; constructor; [intros o; by apply run_line|exact IH].
    - clear Ht. induction Hh as [|r records Hr _ IH]; constructor; [by apply line_identifies|exact IH]. }
  destruct (post 0%nat _) as [[[status text]|]|e] eqn:Hp0; [destruct (negb _); [done|]| |done].
  2: { intros _. destruct Hall as (lines & Hl & Hi). exists lines. split; [|done]. simpl.
       rewrite string_app_nil_r. by apply read_of. }
  clear Hall. generalize 1%nat as n. intros n Hok.
  cut (∃ lines, Forall2 (fun t l => ∀ o, run (start o) t = Some (start (o ++ [l]))) (send_each table post n records).2 lines ∧
    Forall2 identifies records lines).
  { intros (lines & Hl & Hi). exists lines. split; [by apply read_of|done]. }
  clear status text Hp0. revert n Hok.
  induction Ht as [|r records Hr Ht IH]; intros n Hok; [by exists []|]. inversion_clear Hh as [|? ? Hhr Hhs].
  simpl in Hok |- *. destruct (post n (line table r)) as [[[status text]|]|e] eqn:Hp; [| |done].
  - destruct (post (S n) _) as [[[status' text']|]|e]; [done| |done].
    specialize (IH Hhs (S (S n))). destruct (send_each table post (S (S n)) records) as [res stored].
    destruct (IH Hok) as (lines & Hl & Hi). exists (minimal_of table r text :: lines).
    split; constructor; try done; [|apply minimal_identifies].
    intros o. apply run_minimal; [apply Hr|apply Hhr..|by eapply Hpost].
  - specialize (IH Hhs (S n)). destruct (send_each table post (S n) records) as [res stored].
    destruct (IH Hok) as (lines & Hl & Hi). exists (line_of table r :: lines).
    split; constructor; try done; [intros o; by apply run_line|by apply line_identifies].
Qed.

(** A batch QuestDB calls malformed does not block the export: when it answers,
    and stores the minimal lines, the delivery succeeds. *)
Lemma malformed_does_not_block table post records :
  (∀ n body, is_ok (post n body) = true) →
  (∀ body status text, post 0%nat body = Ok (Some (status, text)) → status = BAD_REQUEST) →
  (∀ n r reason, post n (minimal_line table r reason) = Ok None) →
  (send table post records).1 = Ok tt.
Proof.
  intros Hok H0 Hmin. unfold send. destruct (post 0%nat _) as [[[status text]|]|e] eqn:Hp.
  - rewrite (H0 _ _ _ Hp). simpl. clear Hp. generalize 1%nat.
    induction records as [|r records IH]; intros n; [done|]. simpl. specialize (Hok n (line table r)).
    destruct (post n _) as [[[? reason]|]|]; [| |done].
    + rewrite Hmin. specialize (IH (S (S n))). by destruct (send_each _ _ _ _).
    + specialize (IH (S n)). by destruct (send_each _ _ _ _).
  - done.
  - specialize (Hok 0%nat (concat_all (line table <$> records))). by rewrite Hp in Hok.
Qed.
End Reading_lines.

(** ** CSV *)

(** [str::parse::<f64>().is_ok()]: an optional sign, then [inf], [infinity] or
    [nan] in any case, or digits with an optional point and exponent. *)
Fixpoint take_digits (s : string) : string * string :=
  match s with
  | String a t => if is_ascii_digit a then let (d, r) := take_digits t in (String a d, r) else (EmptyString, s)
  | EmptyString => (EmptyString, EmptyString)
  end.
Definition drop_sign (s : string) : string :=
  match s with
  | String a t => if Ascii.eqb a "+" || Ascii.eqb a "-" then t else s
  | EmptyString => EmptyString
  end.
Definition exponent (s : string) : bool :=
  match s with
  | EmptyString => true
  | String a t =>
      (Ascii.eqb a "e" || Ascii.eqb a "E") &&
      match take_digits (drop_sign t) with (String _ _, EmptyString) => true | _ => false end
  end.
Definition is_f64 (s : string) : bool :=
  let s := drop_sign s in
  existsb (eq_ignore_ascii_case s) ["inf"; "infinity"; "nan"] ||
  let (int, rest) := take_digits s in
  let (frac, rest) := match rest with
                      | String a t => if Ascii.eqb a "." then take_digits t else (EmptyString, rest)
                      | EmptyString => (EmptyString, EmptyString)
                      end in
  negb (String.eqb int EmptyString && String.eqb frac EmptyString) && exponent rest.

Example f64_texts :
  List.map is_f64 ["-3.5"; "+.5"; "5."; "1e-3"; "-inf"; "."; "-"; "+1+1"; "=1"; "1e"; "-Infinity"; "2e+"; "e5"] =
  [true; true; true; true; true; false; false; false; false; false; true; false; false].
Proof. reflexivity. Qed.

Definition formula_start (a : ascii) : bool :=
  existsb (Ascii.eqb a) ["="; "+"; "-"; "@"; "009"; "013"]%char.

(** Spreadsheet formulas are made text; numbers stay numbers. *)
Definition neutral (value : string) : string :=
  match value with
  | String a _ => if formula_start a && negb (is_f64 value) then "'" +:+ value else value
  | EmptyString => EmptyString
  end.

Definition double_quotes (s : string) : string :=
  concat_all ((fun a => if Ascii.eqb a "034" then quote +:+ quote else String a EmptyString) <$> String.list_ascii_of_string s).

Definition csv_field (value : string) : string := quote +:+ double_quotes (neutral value) +:+ quote.

Section Csv.
Context `{EventJson}.
(** [DateTime::to_rfc3339] *)
Context (to_rfc3339 : Z → string).

Definition csv_values (record : StoredRecord) : list string :=
  let f := fields record in
  [to_rfc3339 (ts (entry record)); f_target f; f_kind f; client_address f; client_application f; f_user f;
   f_node_id f; f_display_name f; f_old_value f; f_new_value f; f_status f; event_json f; hash record].

Definition csv_row (record : StoredRecord) : string :=
  join "," (pretty (seq record) :: (csv_field <$> csv_values record)) +:+ lf.

Definition csv_header : string :=
  "seq,time,target,event,client_address,client_application,user,node_id,display_name,old_value,new_value,status,details,hash" +:+ lf.

(** *** The whole trail, page by page *)
Context `{StoreEnv} (json_extract : string → string → option string).

(** The loop of [audit_csv]: pages of a thousand, up to 100 000 records. *)
Fixpoint csv_pages (fuel : nat) (db : Db) (q : AuditQuery) (total : Z) : result string (list StoredRecord) :=
  match fuel with
  | O => Ok []
  | S fuel =>
      page ← query json_extract db q;
      match last page with
      | None => Ok []
      | Some l =>
          let total := total + length page in
          if (length page <? 1000)%nat || (100000 <=? total) then Ok page
          else rest ← csv_pages fuel db (with_page q (Some (seq l)) 1000) total; Ok (page ++ rest)
      end
  end.

(** Every page that is followed by another has a thousand records: a hundred
    pages are enough. *)
Definition audit_csv (db : Db) (q : AuditQuery) : result string string :=
  records ← csv_pages 100 db (with_page q (before_seq q) 1000) 0;
  Ok (csv_header +:+ concat_all (csv_row <$> records)).

Lemma csv_pages_all (fuel : nat) db q total prev k :
  linked prev k (audit db) → limit q = Some 1000 → total + 1000 * fuel = 100000 →
  ∃ records, csv_pages fuel db q total = Ok records ∧
    Forall2 (fun r o => stored r = Ok o) (take (Z.to_nat (1000 * fuel)) (matching json_extract db q)) records.
Proof.
  intros Hl. revert q total. induction fuel as [|fuel IH]; intros q total Hq Ht; [exists []; by rewrite take_0|].
  cbn [csv_pages]. unfold query. fold (matching json_extract db q).
  assert (query_limit q = 1000%nat) as -> by (unfold query_limit; by rewrite Hq).
  destruct (collect_stored_total (take 1000 (matching json_extract db q))) as (page & Hc & Hf).
  { intros r [Hr _]%elem_of_take_l%elem_of_matching. by eapply linked_parses. }
  rewrite Hc. cbn [mbind result_bind]. pose proof (Forall2_length _ _ _ Hf) as Hlen. rewrite length_take in Hlen.
  destruct (last page) as [o|] eqn:Ho.
  2: { apply last_None in Ho as ->. exists []. split; [done|]. simpl in Hlen.
       destruct (matching json_extract db q); [by rewrite take_nil|simpl in Hlen; lia]. }
  destruct (Nat.ltb_spec (length page) 1000); simpl.
  { exists page. split; [done|]. rewrite take_ge in Hf by lia. by rewrite take_ge by lia. }
  destruct (Z.leb_spec 100000 (total + length page)) as [Hfull|Hfull].
  - exists page. split; [done|]. assert (fuel = 0)%nat as -> by lia. exact Hf.
  - destruct (collect_stored_last _ _ _ Hc Ho) as (r & Hlast & [Hseq _]%stored_seq).
    destruct (IH (with_page q (Some (seq o)) 1000) (total + length page)) as (rest & Hrest & Hfr); [done|lia|].
    rewrite Hrest. exists (page ++ rest). split; [done|].
    rewrite Hseq, (matching_next_page _ _ _ _ _ _ _ _ Hl Hlast) in Hfr.
    replace (Z.to_nat (1000 * S fuel)) with (1000 + Z.to_nat (1000 * fuel))%nat by lia.
    rewrite <- take_take_drop. by apply Forall2_app.
Qed.
End Csv.

(** *** A reader of CSV

    RFC 4180: fields between commas, a record per line; in quotes anything, a
    doubled quote for a quote. *)
Module CsvReader.
Inductive Place : Type := Begin | Bare (v : string) | Quoted (v : string) | Closing (v : string).
Record State : Type := mkState { place : Place; row : list string; rows : list (list string) }.

Definition isc (a : ascii) (c : string) : bool := String.eqb (String a EmptyString) c.

(** Where a field ends. *)
Definition close (s : State) (v : string) (a : ascii) : option State :=
  if isc a "," then Some (mkState Begin (row s ++ [v]) (rows s))
  else if isc a lf then Some (mkState Begin [] (rows s ++ [row s ++ [v]]))
  else None.

Definition move (p : Place) (s : State) : State := mkState p (row s) (rows s).

Definition step (s : State) (a : ascii) : option State :=
  match place s with
  | Begin =>
      if isc a quote then Some (move (Quoted EmptyString) s)
      else match close s EmptyString a with Some s => Some s | None => Some (move (Bare (String a EmptyString)) s) end
  | Bare v =>
      if isc a quote then None
      else match close s v a with Some s => Some s | None => Some (move (Bare (v +:+ String a EmptyString)) s) end
  | Quoted v =>
      if isc a quote then Some (move (Closing v) s) else Some (move (Quoted (v +:+ String a EmptyString)) s)
  | Closing v => if isc a quote then Some (move (Quoted (v +:+ quote)) s) else close s v a
  end.

Fixpoint run (s : State) (text : string) : option State :=
  match text with EmptyString => Some s | String a text => s ← step s a; run s text end.

Definition start (rows : list (list string)) : State := mkState Begin [] rows.
Definition read (text : string) : option (list (list string)) :=
  s ← run (start []) text;
  match place s, row s with Begin, [] => Some (rows s) | _, _ => None end.
End CsvReader.

Section CsvReading.
Import CsvReader.

Lemma csv_run_app s a b : run s (a +:+ b) = (s ← run s a; run s b).
Proof. revert s. induction a as [|x a IH]; intros s; [done|]. simpl. destruct (step s x); simpl; auto. Qed.

Lemma run_doubled v r o s :
  run (mkState (Quoted v) r o) (double_quotes s) = Some (mkState (Quoted (v +:+ s)) r o).
Proof.
  revert v. induction s as [|a s IH]; intros v; [by rewrite string_app_nil_r|].
  unfold double_quotes in *. cbn [String.list_ascii_of_string]. rewrite fmap_cons, concat_all_cons, csv_run_app.
  assert (run (mkState (Quoted v) r o) (if Ascii.eqb a "034" then quote +:+ quote else String a EmptyString) =
    Some (mkState (Quoted (v +:+ String a EmptyString)) r o)) as ->.
  { destruct (Ascii.eqb_spec a "034") as [->|Ha]; [done|].
    assert (isc a quote = false) as Hq by (apply String.eqb_neq; by intros [= ->]).
    cbn [run]. unfold step. cbn [place]. by rewrite Hq. }
  cbn [mbind option_bind]. rewrite IH. by rewrite <- string_app_assoc'.
Qed.

(** A quoted field, up to what ends it. *)
Lemma run_csv_field r o v a s' :
  close (mkState (Closing (neutral v)) r o) (neutral v) a = Some s' → isc a quote = false →
  run (mkState Begin r o) (csv_field v +:+ String a EmptyString) = Some s'.
Proof.
  intros Hc Ha. unfold csv_field. rewrite !csv_run_app.
  change (run (mkState Begin r o) quote) with (Some (mkState (Quoted EmptyString) r o)). cbn [mbind option_bind].
  rewrite csv_run_app, run_doubled. cbn [mbind option_bind].
  change (run (mkState (Quoted (EmptyString +:+ neutral v)) r o) quote) with (Some (mkState (Closing (neutral v)) r o)).
  cbn [mbind option_bind run]. unfold step. cbn [place]. rewrite Ha, Hc. done.
Qed.

Lemma run_csv_fields v vs r o :
  run (mkState Begin r o) (join "," (csv_field <$> v :: vs) +:+ lf) =
    Some (start (o ++ [r ++ (neutral <$> v :: vs)])).
Proof.
  revert v r. induction vs as [|v' vs IH]; intros v r.
  - by apply run_csv_field.
  - rewrite fmap_cons. change (join "," (csv_field v :: (csv_field <$> v' :: vs))) with
      (csv_field v +:+ "," +:+ join "," (csv_field <$> v' :: vs)).
    rewrite <- !string_app_assoc', (string_app_assoc' (csv_field v)), csv_run_app.
    rewrite (run_csv_field _ _ _ _ (mkState Begin (r ++ [neutral v]) o)) by done. cbn [mbind option_bind].
    rewrite IH. by rewrite <- app_assoc.
Qed.

Lemma int_char_bare a : int_char a = true → isc a quote = false ∧ isc a "," = false ∧ isc a lf = false.
Proof. destruct a as [[] [] [] [] [] [] [] []]; vm_compute; done. Qed.

Lemma run_csv_int s r o :
  string_all int_char s = true → s ≠ EmptyString →
  run (mkState Begin r o) (s +:+ ",") = Some (mkState Begin (r ++ [s]) o).
Proof.
  destruct s as [|a s]; [done|]. simpl. intros [Ha Hs]%andb_prop _.
  destruct (int_char_bare _ Ha) as (H1 & H2 & H3). unfold step at 1. cbn [place]. rewrite H1. unfold close. rewrite H2, H3.
  assert (∀ v, run (mkState (Bare v) r o) (s +:+ ",") = Some (mkState Begin (r ++ [v +:+ s]) o)) as Hr.
  { clear -Hs. induction s as [|b s IH]; intros v; [by rewrite string_app_nil_r|].
    simpl in Hs. apply andb_prop in Hs as [Hb Hs]. destruct (int_char_bare _ Hb) as (H1 & H2 & H3).
    simpl. unfold step at 1. cbn [place]. rewrite H1. unfold close. rewrite H2, H3. cbn [mbind option_bind].
    unfold move. simpl. rewrite (IH Hs). by rewrite <- string_app_assoc'. }
  apply (Hr (String a EmptyString)).
Qed.
End CsvReading.

Section Csv_claims.
Context `{EventJson} (to_rfc3339 : Z → string) `{StoreEnv} (json_extract : string → string → option string).
Import CsvReader.

Definition csv_cells (r : StoredRecord) : list string := pretty (seq r) :: (neutral <$> csv_values to_rfc3339 r).

Lemma run_csv_row r o : run (start o) (csv_row to_rfc3339 r) = Some (start (o ++ [csv_cells r])).
Proof.
  unfold csv_row, csv_cells, csv_values. unfold start at 1. set (v := to_rfc3339 _). set (vs := f_target _ :: _).
  change (join "," (pretty (seq r) :: (csv_field <$> v :: vs))) with
    (pretty (seq r) +:+ "," +:+ join "," (csv_field <$> v :: vs)).
  destruct (pretty_int (seq r)) as [Hd Hne].
  rewrite <- !string_app_assoc', (string_app_assoc' (pretty _)), csv_run_app, run_csv_int by done.
  cbn [mbind option_bind]. apply run_csv_fields.
Qed.

Definition csv_columns : list string :=
  ["seq"; "time"; "target"; "event"; "client_address"; "client_application"; "user"; "node_id"; "display_name";
   "old_value"; "new_value"; "status"; "details"; "hash"].

Lemma run_csv_rows records o :
  run (start o) (concat_all (csv_row to_rfc3339 <$> records)) = Some (start (o ++ (csv_cells <$> records))).
Proof.
  revert o. induction records as [|r records IH]; intros o; [by rewrite app_nil_r|].
  rewrite fmap_cons, concat_all_cons, csv_run_app, run_csv_row. cbn [mbind option_bind].
  rewrite IH. by rewrite <- app_assoc.
Qed.

(** A cell is the text, or the text after an apostrophe; only a number begins
    with what would begin a formula. *)
Lemma neutral_spec v :
  (neutral v = v ∨ neutral v = "'" +:+ v) ∧
  match neutral v with String a _ => formula_start a = true → is_f64 (neutral v) = true | EmptyString => True end.
Proof.
  unfold neutral. destruct v as [|a v]; [by split; [left|]|].
  destruct (formula_start a) eqn:Hf, (is_f64 (String a v)) eqn:Hn; simpl; rewrite ?Hf, ?Hn; by split; auto.
Qed.

(** On a trail that verifies the CSV export succeeds: the
    paging ends within the hundred queries it may make, and its text reads back as the column names and then, newest first, one row for
    each of the (at most 100 000) newest records that match: every cell is the
    text of the record, whatever quotes, commas and line breaks it contains,
    or that text after an apostrophe, and a cell that begins like a formula is
    a number. *)
Theorem csv_complete db q :
  in_range (audit db) → report_ok (verify_chain db) = true →
  ∃ records text, audit_csv to_rfc3339 json_extract db q = Ok text ∧
    Forall2 (fun r o => stored r = Ok o) (take (Z.to_nat 100000) (matching json_extract db q)) records ∧
    read text = Some (csv_columns :: (csv_cells <$> records)) ∧
    Forall (fun r => ∀ v, v ∈ csv_values to_rfc3339 r →
      (neutral v = v ∨ neutral v = "'" +:+ v) ∧
      match neutral v with String a _ => formula_start a = true → is_f64 (neutral v) = true | EmptyString => True end) records.
Proof.
  intros Hr Hok. destruct (intact_linked _ Hr Hok) as (prev & k & Hl). unfold audit_csv.
  destruct (csv_pages_all json_extract 100 db (with_page q (before_seq q) 1000) 0 prev k Hl) as (records & Hp & Hf); [done|lia|].
  rewrite Hp. cbn [mbind result_bind]. exists records. eexists. split; [done|].
  split; [exact Hf|]. split.
  - unfold read. rewrite csv_run_app.
    assert (run (start []) csv_header = Some (start [csv_columns])) as -> by reflexivity.
    cbn [mbind option_bind]. rewrite run_csv_rows. done.
  - apply Forall_forall. intros r _ v _. apply neutral_spec.
Qed.
End Csv_claims.

Section LineWitnesses.
Import Toy.

#[local] Instance toy_json : EventJson := {
  to_value e := match e with
                | UiLoginFailed u => JObj [("type", JStr (kind e)); ("user", JStr u)]
                | _ => JObj [("type", JStr (kind e))]
                end;
  json_text v := match v with JStr s => s | _ => "{}" end;
}.

(** A failed login with a name that tries to end the tag set and the line, as
    in the test [control_characters_in_tags_stay_inside_the_tag]. *)
Definition forged : StoredRecord :=
  mkStoredRecord 8 "ab12" "ab11" (new_entry 1500 (UiLoginFailed ("bob" +:+ lf +:+ "forged=1i"))).

Example forged_line :
  line "opcua_audit" forged =
    "opcua_audit,kind=ui_login_failed,user=ui:bob\ forged\=1i seq=8i,hash=" +:+ quote +:+ "ab12" +:+ quote +:+
    ",prev_hash=" +:+ quote +:+ "ab11" +:+ quote +:+ ",event=" +:+ quote +:+ "{}" +:+ quote +:+ " 1500" +:+ lf.
Proof. vm_compute. reflexivity. Qed.

Lemma forged_ok : texts_ok "opcua_audit" forged.
Proof. split; [vm_compute; reflexivity|]. vm_compute. repeat constructor. Qed.

Lemma lines_read_back_witness :
  Ilp.read (concat_all (line "opcua_audit" <$> [forged; forged])) =
    Some (line_of "opcua_audit" <$> [forged; forged]).
Proof.
  apply (lines_read_back "opcua_audit" [forged; forged]). repeat constructor; apply forged_ok.
Defined.

(** QuestDB refuses the batch and the record, not the minimal line. *)
Definition refusing (n : nat) (body : string) : result string (option (Z * string)) :=
  if (n <? 2)%nat then Ok (Some (400, "bad line")) else Ok None.

Lemma send_delivers_witness :
  ∃ l, Ilp.read (concat_all (send "opcua_audit" refusing [forged]).2) = Some [l] ∧ identifies forged l.
Proof.
  destruct (send_delivers "opcua_audit" refusing [forged]) as (lines & Hr & Hf).
  - constructor; [apply forged_ok|constructor].
  - constructor; [split; vm_compute; reflexivity|constructor].
  - intros n body status text. unfold refusing. destruct (n <? 2)%nat; [|done]. intros [= _ <-]. vm_compute. reflexivity.
  - vm_compute. reflexivity.
  - apply list.Forall2_cons_inv_l in Hf as (l & ls & Hl & Hn & ->). apply Forall2_nil_inv_l in Hn as ->.
    exists l. split; [exact Hr|exact Hl].
Defined.

Lemma csv_complete_witness :
  ∃ text, audit_csv (fun t => pretty t) no_json (conn store2) any_query = Ok text.
Proof.
  destruct store2_intact as [Hr Hok].
  destruct (csv_complete (fun t => pretty t) no_json (conn store2) any_query Hr Hok) as (records & text & H & _).
  exists text. exact H.
Defined.

Example csv_of_formula : csv_field "=1+1" = quote +:+ "'=1+1" +:+ quote ∧ csv_field "-3.5" = quote +:+ "-3.5" +:+ quote.
Proof. by vm_compute. Qed.
End LineWitnesses.
