(* ===== verification/Discovery.v ===== *)
(** Upstream discovery and the target's status ([src/src/discovery.rs]), and the
    check whether the target trusts the gateway ([check_gateway_trust] and
    [probe_session] in [src/src/relay/mod.rs]).

    The statuses of all targets are one map behind a lock: an operation on it
    is a function. Times are nanoseconds. *)

From Stdlib Require Import SpecFloat.
From S2P Require Import Prelude Net Config Pipeline Ignore Endpoints AuditMap Event Opc Sessions Task Relay Login Transport Connection.

(** [SocketAddr]'s [Display] *)
Definition socket_to_string (a : SocketAddr) : string :=
  match ip a with
  | V4 _ => ip_to_string (ip a) +:+ ":" +:+ pretty (port a)
  | V6 _ => "[" +:+ ip_to_string (ip a) +:+ "]:" +:+ pretty (port a)
  end.

(** ** What is shown of an endpoint *)
Record UserTokenInfo : Type := mkUserTokenInfo {
  uti_policy_id : string;
  uti_token_type : string;
  uti_security_policy_uri : string;
}.

Section Discovery.
Context `{Opc}.

Record EndpointInfo : Type := mkEndpointInfo {
  ei_endpoint_url : string;
  ei_security_policy : string;
  ei_security_policy_uri : string;
  ei_security_mode : string;
  ei_security_level : Z;
  ei_user_tokens : list UserTokenInfo;
  ei_server_application_uri : string;
  ei_server_application_name : string;
  (** [CertificateInfo] is shown of it *)
  ei_server_certificate : option Cert;
}.

Definition token_info (t : UserTokenPolicy) : UserTokenInfo :=
  mkUserTokenInfo (policy_id t) (token_type_name (token_type t)) (token_security_policy_uri t).
Definition endpoint_info (e : EndpointDescription) : EndpointInfo :=
  mkEndpointInfo (ep_url e) (policy_str (ep_policy e)) (security_policy_uri e) (mode_name (security_mode e))
    (security_level e) (token_info <$> default [] (user_identity_tokens e))
    (ad_application_uri (ep_server e)) (ad_application_name (ep_server e))
    (cert_of_bytes (ep_server_certificate e)).

(** What GetEndpoints returned, the highest security level first. *)
Definition by_level (endpoints : list EndpointDescription) : list EndpointDescription :=
  sort_stable (fun a b => security_level b <=? security_level a) endpoints.

(** ** The status of a target *)
Inductive UpstreamState : Type := Unknown | Available | Unavailable.
#[export] Instance UpstreamState_eq_dec : EqDecision UpstreamState.
Proof. solve_decision. Defined.

Record TargetStatus : Type := mkTargetStatus {
  ts_name : string;
  ts_listen : string;
  ts_endpoint_url : string;
  ts_state : UpstreamState;
  last_check : option Z;
  ts_last_error : option string;
  ts_endpoints : list EndpointInfo;
  raw_endpoints : list EndpointDescription;
  gateway_trust : GatewayTrust;
}.

Definition new_status (t : TargetConfig) : TargetStatus :=
  mkTargetStatus (t_name t) (socket_to_string (t_listen t)) (Config.endpoint_url t) Unknown None None [] [] TrustUnknown.

Abbreviation Statuses := (gmap string TargetStatus).

Definition initial_statuses (c : Config) : Statuses :=
  foldl (fun m t => <[t_name t := new_status t]> m) ∅ (Config.targets c).

(** [apply_discovery] on the target's entry: the new entry and the events, in
    the order they are recorded. *)
Definition discovered (t : TargetConfig) (now : Z) (found : result string (list EndpointDescription))
    (s : TargetStatus) : list AuditEvent * TargetStatus :=
  match found with
  | Ok endpoints =>
      let before := summary <$> raw_endpoints s in
      let after := summary <$> endpoints in
      ((if bool_decide (ts_state s = Available) then []
        else [UpstreamAvailable (Config.endpoint_url t) (length endpoints)]) ++
       (if negb (bool_decide (before = [])) && negb (bool_decide (before = after))
        then [UpstreamEndpointsChanged (Config.endpoint_url t) before after] else []),
       mkTargetStatus (ts_name s) (ts_listen s) (ts_endpoint_url s) Available (Some now) None
         (endpoint_info <$> endpoints) endpoints (gateway_trust s))
  | Err reason =>
      ((if bool_decide (ts_state s = Unavailable) then []
        else [UpstreamUnavailable (Config.endpoint_url t) reason]),
       mkTargetStatus (ts_name s) (ts_listen s) (ts_endpoint_url s) Unavailable (Some now) (Some reason)
         (ts_endpoints s) (raw_endpoints s) (gateway_trust s))
  end.

(** A target without an entry (just removed) is not recorded. *)
Definition apply_discovery (t : TargetConfig) (now : Z) (found : result string (list EndpointDescription))
    (m : Statuses) : list AuditEvent * Statuses :=
  match m !! t_name t with
  | None => ([], m)
  | Some s => let (events, s) := discovered t now found s in (events, <[t_name t := s]> m)
  end.

(** Checks one after the other: the monitor's and those of the web UI. *)
Fixpoint discoveries (t : TargetConfig) (checks : list (Z * result string (list EndpointDescription)))
    (m : Statuses) : list AuditEvent * Statuses :=
  match checks with
  | [] => ([], m)
  | (now, found) :: checks =>
      let (events, m) := apply_discovery t now found m in
      let (rest, m) := discoveries t checks m in
      (events ++ rest, m)
  end.

(** ** Does the target accept the gateway? *)
Definition secure_endpoints (endpoints : list EndpointDescription) : list EndpointDescription :=
  List.filter (fun e => negb (bool_decide (ep_policy e = PolicyNone))) endpoints.

(** [max_by_key]: the last one of the highest level. *)
Definition max_by_level (endpoints : list EndpointDescription) : option EndpointDescription :=
  foldl (fun best e =>
    match best with
    | Some b => if security_level b <=? security_level e then Some e else best
    | None => Some e
    end) None endpoints.

Definition refused (s : StatusCode) : bool :=
  bool_decide (s ∈ [BadSecurityChecksFailed; BadCertificateUntrusted; BadCertificateInvalid; BadCertificateUriInvalid]).
End Discovery.
#[export] Instance TargetStatus_inhabited `{Opc} : Inhabited TargetStatus :=
  populate (mkTargetStatus EmptyString EmptyString EmptyString Unknown None None [] [] TrustUnknown).

Section Trust.
Context `{Crypto} `{!Transport.Stack} `{!Channels}.

(** The authentication token of [RequestHeader::default]. *)
Context (no_token : NodeId).

Definition f64_10000 : spec_float := S754_finite false 10000 0.

Definition probe_request (t : Relayed) (handle : Z) (nonce : Blob) : CreateSessionRequest :=
  mkCreateSessionRequest (mkRequestHeader no_token handle 10000) (client_description (r_gateway t)) EmptyString
    (r_url t) (gw_application_name (r_gateway t) +:+ " trust check") nonce (certificate_bytes (r_gateway t))
    f64_10000 0.

(** A session is created, without logging in, and closed again. *)
Definition probe_session (t : Relayed) (p : Policy) : prog Shared GatewayTrust :=
  handle ← atomic next_request_handle;
  nonce ← random;
  answer ← send (RqCreateSession (probe_request t handle nonce)) 10000;
  match answer with
  | Ok (RsCreateSession r) =>
      if is_good (cr_service_result r) then
        handle ← atomic next_request_handle;
        _ ← send (RqCloseSession (mkRequestHeader (cr_authentication_token r) handle 10000)) 5000;
        mret (Trusted (policy_str p))
      else if refused (cr_service_result r) then mret (Refused (status_str (cr_service_result r)))
      else mret (TrustFailed ("CreateSession: " +:+ status_str (cr_service_result r)))
  | Ok other =>
      if refused (service_result other) then mret (Refused (status_str (service_result other)))
      else mret (TrustFailed ("CreateSession: " +:+ status_str (service_result other)))
  | Err e =>
      if refused (send_status e) then mret (Refused (status_str (send_status e)))
      else mret (TrustFailed ("CreateSession: " +:+ status_str (send_status e)))
  end.

(** [check_gateway_trust]; [in_time]: connecting took less than 15 s. *)
Definition find_trust (t : Relayed) (in_time : bool) : prog Shared GatewayTrust :=
  found ← target_endpoints t;
  match found with
  | Err status => mret (TrustFailed ("target not reachable (" +:+ status_str status +:+ ")"))
  | Ok endpoints =>
      match max_by_level (secure_endpoints endpoints) with
      | None => mret NoSecureEndpoint
      | Some e =>
          connected ← connect e;
          if negb in_time then mret (TrustFailed "no answer within 15 s")
          else match connected with
          | Ok _ => probe_session t (ep_policy e)
          | Err (Untrusted _ _ _) => mret TargetNotTrustedYet
          | Err (OtherError _ text) =>
              if contains "BadSecurityChecksFailed" text || contains "BadCertificateUntrusted" text
              then mret (Refused text) else mret (TrustFailed text)
          end
      end
  end.

Definition check_gateway_trust (t : Relayed) (in_time : bool) : prog Shared unit :=
  found ← find_trust t in_time; set_gateway_trust t found.
End Trust.

(** ** What the trail says of a target *)
Section Trail.
Context `{Opc}.

Definition offers (s : TargetStatus) : list string := summary <$> raw_endpoints s.

(** What a reader of the trail knows: the availability, and the endpoints
    since they last changed. *)
Definition view : Type := UpstreamState * option (list string).
Definition read_event (v : view) (e : AuditEvent) : view :=
  match e with
  | UpstreamAvailable _ _ => (Available, v.2)
  | UpstreamUnavailable _ _ => (Unavailable, v.2)
  | UpstreamEndpointsChanged _ _ after => (v.1, Some after)
  | _ => v
  end.
Definition replay (v : view) (events : list AuditEvent) : view := foldl read_event v events.

Definition availability (e : AuditEvent) : option UpstreamState :=
  match e with
  | UpstreamAvailable _ _ => Some Available
  | UpstreamUnavailable _ _ => Some Unavailable
  | _ => None
  end.

(** Each differs from the one before it, the first from [s]. *)
Fixpoint alternates (s : UpstreamState) (l : list UpstreamState) : Prop :=
  match l with [] => True | s' :: l => s' ≠ s ∧ alternates s' l end.

Lemma alternates_app s l l' :
  alternates s l → alternates (default s (last l)) l' → alternates s (l ++ l').
Proof.
  revert s. induction l as [|x l IH]; intros s; [done|]. cbn [alternates app]. intros [Hx Hl] Hl'. split; [done|].
  apply IH; [done|]. destruct l as [|y l]; [done|]. change (last (x :: y :: l)) with (last (y :: l)) in Hl'.
  destruct (last (y :: l)) eqn:E; [done|by apply last_None in E].
Qed.

(** The view of a status: exact on the availability, and on the endpoints
    once a change was recorded. *)
Definition agrees (v : view) (s : TargetStatus) : Prop :=
  v.1 = ts_state s ∧ match v.2 with Some l => l = offers s ∧ l ≠ [] | None => True end.

Definition answered (found : result string (list EndpointDescription)) : Prop := found ≠ Ok [].

Lemma discovered_agrees t now found s v :
  answered found → agrees v s →
  let r := discovered t now found s in
  agrees (replay v r.1) r.2 ∧ alternates (ts_state s) (omap availability r.1) ∧
  default (ts_state s) (last (omap availability r.1)) = ts_state r.2.
Proof.
  destruct v as [st off]. intros Ha [Hst Hoff]. simpl in Hst. subst st. unfold discovered, offers, agrees in *.
  destruct found as [endpoints|reason]; simpl in *.
  - assert (Hne : summary <$> endpoints ≠ []) by (destruct endpoints; [by destruct Ha|done]).
    destruct (decide (ts_state s = Available)) as [Hs|Hs].
    + rewrite bool_decide_true by done. simpl.
      destruct (decide (summary <$> raw_endpoints s = [])) as [He|He].
      * rewrite bool_decide_true by done. simpl. split_and!; try done; destruct off as [l|]; try done.
        by destruct Hoff as [-> Hl].
      * rewrite bool_decide_false by done. case_bool_decide as Heq; simpl; split_and!; try done;
          destruct off as [l|]; try done; destruct Hoff as [-> Hl]; by rewrite ?Heq.
    + rewrite bool_decide_false by done. simpl.
      destruct (decide (summary <$> raw_endpoints s = [])) as [He|He].
      * rewrite bool_decide_true by done. simpl. split_and!; try done; destruct off as [l|]; try done.
        by destruct Hoff as [-> Hl].
      * rewrite bool_decide_false by done. case_bool_decide as Heq; simpl; split_and!; try done;
          destruct off as [l|]; try done; destruct Hoff as [-> Hl]; by rewrite ?Heq.
  - case_bool_decide as Hs; simpl; split_and!; try done.
Qed.

Lemma discoveries_agree t checks m s v :
  Forall (fun c => answered c.2) checks → m !! t_name t = Some s → agrees v s →
  let r := discoveries t checks m in
  ∃ s', r.2 !! t_name t = Some s' ∧ agrees (replay v r.1) s' ∧
    alternates (ts_state s) (omap availability r.1) ∧ ∀ k, k ≠ t_name t → r.2 !! k = m !! k.
Proof.
  intros Hall. revert m s v. induction Hall as [|[now found] checks Ha _ IH]; intros m s v Hm Hv; simpl.
  { by exists s. }
  unfold apply_discovery. rewrite Hm. pose proof (discovered_agrees t now found s v Ha Hv) as (Hv1 & Halt & Hlast).
  destruct (discovered t now found s) as [events s1]. simpl in *.
  destruct (IH (<[t_name t := s1]> m) s1 (replay v events)) as (s' & Hs' & Hv' & Halt' & Hk);
    [by rewrite lookup_insert_eq|done|].
  destruct (discoveries t checks (<[t_name t := s1]> m)) as [rest m']. simpl in *. exists s'. split_and!; [done| | |].
  - unfold replay in *. by rewrite foldl_app.
  - rewrite omap_app. apply alternates_app; [done|]. by rewrite Hlast.
  - intros k Hne. rewrite Hk by done. by rewrite lookup_insert_ne.
Qed.

(** However often a target is checked, the trail
    has its availability: the recorded events alternate between available and
    unavailable, the last one is the target's state, and the last recorded
    change of endpoints names exactly the endpoints clients are offered now
    (as long as the server never answers with an empty list). Other targets
    are untouched. *)
Theorem trail_tells_status t checks m s :
  Forall (fun c => answered c.2) checks → m !! t_name t = Some s →
  let r := discoveries t checks m in
  ∃ s', r.2 !! t_name t = Some s' ∧
    alternates (ts_state s) (omap availability r.1) ∧
    (replay (ts_state s, None) r.1).1 = ts_state s' ∧
    (∀ l, (replay (ts_state s, None) r.1).2 = Some l → l = offers s') ∧
    ∀ k, k ≠ t_name t → r.2 !! k = m !! k.
Proof.
  intros Hall Hm r. destruct (discoveries_agree t checks m s (ts_state s, None) Hall Hm) as (s' & Hs' & [Hv Ho] & Halt & Hk);
    [done|]. fold r in Hs', Hv, Ho, Halt, Hk. exists s'. split_and!; try done. intros l Hl. rewrite Hl in Ho. by destruct Ho.
Qed.
End Trail.

(** ** The trust check *)
Create HintDb in_list.
#[export] Hint Resolve list_elem_of_here list_elem_of_further : in_list.

Section TrustCheck.
Context `{Crypto} `{!Transport.Stack} `{!Channels} (no_token : NodeId).

(** The requests of a trust check: it never activates a session. *)
Definition probing (t : Relayed) (l : @label _ Shared) : Prop :=
  match l with
  | LSubmit (RqCreateSession r) _ => ∃ handle nonce, r = probe_request no_token t handle nonce
  | LSubmit (RqCloseSession _) _ => True
  | LSubmit _ _ => False
  | _ => True
  end.

(** What [Trusted] stands for. *)
Definition accepted (t : Relayed) (p : string) (h : list (@label _ Shared)) : Prop :=
  ∃ e c u handle nonce r,
    p = policy_str (ep_policy e) ∧ ep_policy e ≠ PolicyNone ∧
    cert_of_bytes (ep_server_certificate e) = Some c ∧
    LValidate c (ep_policy e) (Ok u) ∈ h ∧ LConnect e (Ok u) ∈ h ∧
    LAwait (RqCreateSession (probe_request no_token t handle nonce)) (Ok (RsCreateSession r)) ∈ h ∧
    is_good (cr_service_result r) = true ∧
    ((∃ n, LSubmit (RqCloseSession (mkRequestHeader (cr_authentication_token r) n 10000)) 5000 ∈ h) ∨ LIsClosed true ∈ h).

(** Runs a program through its effects and matches. *)
Ltac probe_step :=
  run_prog;
  match goal with
  | |- Forall _ _ ∧ _ => split; [solve [repeat constructor; simpl; eauto]|]
  | |- always _ ?p _ _ =>
      match p with context [match ?x with _ => _ end] => destruct x eqn:? end
  | |- ∀ _, always _ _ _ _ => intros ?
  | |- ∀ _, Forall _ _ ∧ _ => intros ?
  end.

Lemma max_by_level_elem l e : max_by_level l = Some e → e ∈ l.
Proof.
  unfold max_by_level. assert (∀ best, foldl (fun best e =>
    match best with
    | Some b => if security_level b <=? security_level e then Some e else best
    | None => Some e
    end) best l = Some e → best = Some e ∨ e ∈ l) as Hl.
  { induction l as [|x l IH]; intros best; simpl; [by left|]. intros [Hb|Hin]%IH; [|set_solver].
    destruct best as [b|]; [|right; set_solver]. destruct (_ <=? _); [right; set_solver|by left]. }
  intros [?|?]%Hl; done.
Qed.

Lemma secure_policy l e : e ∈ secure_endpoints l → ep_policy e ≠ PolicyNone.
Proof.
  unfold secure_endpoints. rewrite list_elem_of_In, filter_In. intros [_ H3].
  by apply negb_true_iff, bool_decide_eq_false in H3.
Qed.

Lemma find_trust_spec t in_time :
  spec (probing t) (find_trust no_token t in_time) (fun found h => ∀ q, found = Trusted q → accepted t q h).
Proof.
  unfold spec, find_trust, target_endpoints, connect, probe_session, send, queue, await.
  repeat probe_step.
  all: try (intros ? [=]; fail).
  all: simplify_eq/=.
  all: match goal with H : max_by_level _ = Some ?e |- _ => pose proof (secure_policy _ _ (max_by_level_elem _ _ H)) end.
  all: try (exfalso; case_bool_decide; congruence).
  all: repeat match goal with
       | H : match ?a with Ok _ => Ok (mkUpstream _ _) | Err _ => _ end = Ok _ |- _ => destruct a as [[]|[? ?]]; simplify_eq/=
       | H : answer_of ?a = Ok _ |- _ => destruct a; simplify_eq/=
       | u : () |- _ => destruct u
       end.
  all: intros q [= <-]; eexists _, _, (), _, _, _; split_and!;
    [done|eassumption|eassumption|eauto 20 with in_list..|eassumption|].
  all: first [right; eauto 20 with in_list; fail|left; eexists; eauto 20 with in_list].
Qed.

(** The check reports that the target trusts the
    gateway only when, over a secured channel to a server whose certificate
    was validated, the server itself answered the gateway's CreateSession with
    a good result; the session is then closed again if the connection is still
    there. The check sends no other requests: nobody is logged in. *)
Theorem trust_check_sound t in_time ls q :
  runs (find_trust no_token t in_time) ls (Ret (Trusted q)) → accepted t q ls ∧ Forall (probing t) ls.
Proof.
  intros Hr. destruct (spec_sound _ _ _ _ _ (find_trust_spec t in_time) Hr) as [Hp Ha]. split; [by eapply Ha|done].
Qed.
End TrustCheck.

Section DiscoveryWitnesses.
Import ToyNodes ToyOpc ToyRelay ToyLogin ToyStack ToyConnection.

Definition plc1_status : TargetStatus := new_status plc1.
Definition weaker : EndpointDescription :=
  mkEndpointDescription "opc.tcp://plc:4840" app "plc" ModeNone "None" None "tcp" 0.
(** Found, found again, then with other endpoints, then not. *)
Definition four_checks : list (Z * result string (list EndpointDescription)) :=
  [(1, Ok [endpoint]); (2, Ok [endpoint]); (3, Ok [endpoint; weaker]); (4, Err "no answer")].

Lemma trail_tells_status_witness :
  kind <$> (discoveries plc1 four_checks {[t_name plc1 := plc1_status]}).1 =
    ["upstream_available"; "upstream_endpoints_changed"; "upstream_unavailable"] ∧
  ∃ s', (discoveries plc1 four_checks {[t_name plc1 := plc1_status]}).2 !! t_name plc1 = Some s' ∧
    ts_state s' = Unavailable ∧ offers s' = summary <$> [endpoint; weaker].
Proof.
  split; [vm_compute; reflexivity|].
  destruct (trail_tells_status plc1 four_checks {[t_name plc1 := plc1_status]} plc1_status) as (s' & Hs & _ & Hst & Ho & _).
  - repeat constructor; discriminate.
  - vm_compute. reflexivity.
  - exists s'. split; [exact Hs|]. split; [rewrite <- Hst; vm_compute; reflexivity|].
    symmetry. apply Ho. vm_compute. reflexivity.
Defined.

Definition plc_relayed : Relayed := mkRelayed "plc" "opc.tcp://plc:4840" SecNone gw.
Definition null_id : @NodeId (@opc_nodes opc) := "".
Definition checking := exec login_world (find_trust null_id plc_relayed true) empty_shared.

Lemma trust_check_sound_witness :
  accepted null_id plc_relayed "Basic256Sha256" checking.1.1 ∧ length (submitted checking.1.1) = 2%nat.
Proof.
  split; [|vm_compute; reflexivity].
  apply (trust_check_sound null_id plc_relayed true checking.1.1 "Basic256Sha256").
  apply (exec_returns login_world (find_trust null_id plc_relayed true) empty_shared). vm_compute. reflexivity.
Defined.

(** After an empty answer what the server offers next is no change. *)
Example change_after_empty :
  kind <$> (discoveries plc1 [(1, Ok [endpoint]); (2, Ok []); (3, Ok [weaker])] {[t_name plc1 := plc1_status]}).1 =
    ["upstream_available"; "upstream_endpoints_changed"].
Proof. vm_compute. reflexivity. Qed.
End DiscoveryWitnesses.
