(* ===== verification/Serving.v ===== *)
(** How a target serves its clients ([serve] in [src/src/relay/mod.rs]): the loop
    that accepts connections, with what it does from time to time, and all
    connections it has accepted. *)

From S2P Require Import Prelude Net Config Pipeline Ignore Endpoints AuditMap Event Opc Task Sessions Relay Login Transport Connection Lifetime Discovery Admission Target.

(** Refused connections of one address, and why the last one was. *)
Definition Refusal : Type := IpAddr * Z * string.

Section Serving.
Context `{Crypto} `{!Stack} `{!Channels} (no_token : NodeId).
Abbreviation lbl := (label Shared).
Abbreviation task := (prog Shared).

(** [RelayTarget::new]: nothing is shared yet but the groups of the
    configuration; the settings and the status are the gateway's. *)
Definition new_shared (groups : list SummariseGroup) (settings : AuditSettings)
    (status : option (GatewayTrust * list EndpointDescription)) : Shared :=
  mkShared ∅ ∅ ∅ (set_groups groups) ∅ settings 1 GATEWAY_REQUEST_HANDLES status.
Lemma new_shared_starts groups settings status : target_reachable (mkTarget (new_shared groups settings status) []).
Proof. by constructor. Qed.

(** [tokio::select!] waits, or the body of one of its branches runs. *)
Inductive Loop : Type :=
| Waiting
| Checking (p : task unit)
| Summarising (p : task unit)
(** a summary is recorded, and those of [rest] are next *)
| Reporting (p : task unit) (rest : list Refusal)
| Stopping (p : task unit)
| Stopped.

(** A connection's task: the handshake, and then its life. One that panicked
    stays as it was. *)
Inductive Stage : Type := Greeting | Living (x : Life).
Record Client : Type := mkClient { ct_address : IpAddr; ct_id : Z; ct_stage : Stage }.

Record Server : Type := mkServer {
  sv_admission : Admission;
  sv_loop : Loop;
  next_trust_check : Z;
  last_summary : Z;
  connection_ids : Z;
  sv_clients : list Client;
  (** what the loop did, and who was turned away *)
  sv_log : list lbl;
  sv_refused : list IpAddr;
}.

Definition set_loop (l : Loop) (s : Server) : Server :=
  mkServer (sv_admission s) l (next_trust_check s) (last_summary s) (connection_ids s) (sv_clients s) (sv_log s) (sv_refused s).
Definition check_at (now : Z) (s : Server) : Server :=
  mkServer (sv_admission s) (sv_loop s) now (last_summary s) (connection_ids s) (sv_clients s) (sv_log s) (sv_refused s).
Definition summarised_at (now : Z) (s : Server) : Server :=
  mkServer (sv_admission s) (sv_loop s) (next_trust_check s) now (connection_ids s) (sv_clients s) (sv_log s) (sv_refused s).
Definition set_admission (a : Admission) (s : Server) : Server :=
  mkServer a (sv_loop s) (next_trust_check s) (last_summary s) (connection_ids s) (sv_clients s) (sv_log s) (sv_refused s).
Definition set_sv_clients (cs : list Client) (s : Server) : Server :=
  mkServer (sv_admission s) (sv_loop s) (next_trust_check s) (last_summary s) (connection_ids s) cs (sv_log s) (sv_refused s).
Definition did (l : lbl) (loop : Loop) (s : Server) : Server :=
  mkServer (sv_admission s) loop (next_trust_check s) (last_summary s) (connection_ids s) (sv_clients s) (sv_log s ++ [l]) (sv_refused s).

(** The start of [serve]: the trust check is due after two seconds. *)
Definition new_server (max_connections max_connections_per_address : nat) (now : Z) : Server :=
  mkServer (new_admission max_connections max_connections_per_address) Waiting (now + 2000000000) now 1 [] [] [].

(** A new connection is admitted and gets a task, or dropped. *)
Definition accept_client (ip : IpAddr) (now : Z) (s : Server) : Server :=
  let (admitted, a) := admit_connection (sv_admission s) ip now in
  if admitted then
    mkServer a (sv_loop s) (next_trust_check s) (last_summary s) (u64_wrap (connection_ids s + 1))
      (mkClient ip (connection_ids s) Greeting :: sv_clients s) (sv_log s) (sv_refused s)
  else
    mkServer a (sv_loop s) (next_trust_check s) (last_summary s) (connection_ids s) (sv_clients s) (sv_log s) (ip :: sv_refused s).

(** [connection::run] returned: its place is free. *)
Definition done_with (i : nat) (c : Client) (s : Server) : Server :=
  set_admission (release (sv_admission s) (ct_address c)) (set_sv_clients (base.delete i (sv_clients s)) s).
Definition set_stage (i : nat) (c : Client) (st : Stage) (s : Server) : Server :=
  set_sv_clients (<[i := mkClient (ct_address c) (ct_id c) st]> (sv_clients s)) s.

(** One summary of refused connections. *)
Definition report (t : Relayed) (r : Refusal) : task unit :=
  let '(ip, count, why) := r in record_for t (ConnectionsRefused (ip_to_string ip) count why).
Definition take_reports (now : Z) (s : Server) : Server :=
  let (l, a) := take_refused (sv_admission s) now in set_loop (Reporting (Ret ()) l) (set_admission a s).

(** What the loop's body does next. *)
Definition body (l : Loop) : option (task unit * (task unit → Loop)) :=
  match l with
  | Checking p => Some (p, Checking)
  | Summarising p => Some (p, Summarising)
  | Reporting p rest => Some (p, fun p => Reporting p rest)
  | Stopping p => Some (p, Stopping)
  | Waiting | Stopped => None
  end.

(** [interval]: the target's [discovery_interval_secs]. *)
Definition recheck (interval : Z) : Z := Z.max interval 10 * 1000000000.

Inductive serve_step (t : Relayed) (interval : Z) : Server → Server → Prop :=
| sv_stop s : sv_loop s = Waiting → serve_step t interval s (set_loop (Stopping (record_ignored t)) s)
| sv_check s now in_time :
    sv_loop s = Waiting → next_trust_check s ≤ now →
    serve_step t interval s (set_loop (Checking (check_gateway_trust no_token t in_time)) s)
| sv_checked s now :
    sv_loop s = Checking (Ret ()) → serve_step t interval s (set_loop Waiting (check_at (now + recheck interval) s))
| sv_trust s now : sv_loop s = Waiting → serve_step t interval s (check_at now s)
(** [every]: the settings' summary interval, read anew each time *)
| sv_summary s every now :
    sv_loop s = Waiting → last_summary s + every ≤ now → serve_step t interval s (set_loop (Summarising (record_ignored t)) s)
| sv_summarised s now :
    sv_loop s = Summarising (Ret ()) → serve_step t interval s (set_loop Waiting (summarised_at now s))
| sv_tick s now : sv_loop s = Waiting → serve_step t interval s (take_reports now s)
| sv_next s r rest :
    sv_loop s = Reporting (Ret ()) (r :: rest) → serve_step t interval s (set_loop (Reporting (report t r) rest) s)
| sv_reported s : sv_loop s = Reporting (Ret ()) [] → serve_step t interval s (set_loop Waiting s)
| sv_accept s ip now : sv_loop s = Waiting → serve_step t interval s (accept_client ip now s)
| sv_works s p k l p' : body (sv_loop s) = Some (p, k) → does p l p' → serve_step t interval s (did l (k p') s)
| sv_stopped s : sv_loop s = Stopping (Ret ()) → serve_step t interval s (set_loop Stopped s)
(** the connections' tasks *)
| sv_no_hello s i c l late first told status :
    sv_clients s !! i = Some c → ct_stage c = Greeting → accept l late first = HelloFailed told status →
    serve_step t interval s (done_with i c s)
| sv_hello s i c l late first ack d peer ch until :
    sv_clients s !! i = Some c → ct_stage c = Greeting → accept l late first = HelloOk ack d →
    serve_step t interval s (set_stage i c (Living (born t (new_connection (ct_id c) peer d ch until))) s)
| sv_lives s i c x y :
    sv_clients s !! i = Some c → ct_stage c = Living x → life_step t x y → serve_step t interval s (set_stage i c (Living y) s)
| sv_left s i c x :
    sv_clients s !! i = Some c → ct_stage c = Living x → li_phase x = Left → serve_step t interval s (done_with i c s).


(** ** Accepted connections have a place *)
Definition addresses_of (s : Server) : list IpAddr := ct_address <$> sv_clients s.
Definition placed (s : Server) : Prop := admission_ok (sv_admission s) (addresses_of s).
Definition all_live (t : Relayed) (s : Server) : Prop :=
  Forall (fun c => match ct_stage c with Living x => lives t x | Greeting => True end) (sv_clients s).

Lemma placed_reports now s : placed s → placed (take_reports now s).
Proof.
  unfold placed, take_reports. intros Hp. pose proof (adm_report (sv_admission s) (addresses_of s) now) as Hs.
  destruct (take_refused _ _) as [l a]. by apply (admission_step_ok _ _ _ _ Hp).
Qed.
Lemma placed_accept ip now s : placed s → placed (accept_client ip now s).
Proof.
  unfold placed, accept_client. intros Hp. destruct (admit_connection _ ip now) as [[] a] eqn:Ha.
  - eapply admission_step_ok; [exact Hp|]. by eapply adm_admit.
  - eapply admission_step_ok; [exact Hp|]. by eapply adm_refuse.
Qed.
Lemma placed_done i c s : sv_clients s !! i = Some c → placed s → placed (done_with i c s).
Proof.
  unfold placed, addresses_of. intros Hi Hp. cbn [done_with set_admission set_sv_clients sv_admission sv_clients].
  rewrite delete_take_drop, fmap_app, fmap_take, fmap_drop.
  eapply admission_step_ok; [|apply adm_release]. rewrite (take_drop_middle (ct_address <$> sv_clients s) i); [exact Hp|].
  by rewrite list_lookup_fmap, Hi.
Qed.
Lemma addresses_stage i c st s : sv_clients s !! i = Some c → addresses_of (set_stage i c st s) = addresses_of s.
Proof.
  intros Hi. unfold addresses_of. cbn [set_stage set_sv_clients sv_clients]. rewrite list_fmap_insert. apply list_insert_id.
  by rewrite list_lookup_fmap, Hi.
Qed.

Lemma serve_step_placed t interval s s' : serve_step t interval s s' → placed s → placed s'.
Proof.
  destruct 1 as [| | | | | |s now|s r rest|s|s ip now|s p k l p'|s|s i c l late first told status Hi|s i c l late first ack d peer ch until Hi
    |s i c x y Hi|s i c x Hi]; try done; intros Hp.
  - by apply placed_reports.
  - by apply placed_accept.
  - by apply placed_done.
  - unfold placed. by rewrite addresses_stage.
  - unfold placed. by rewrite addresses_stage.
  - by apply placed_done.
Qed.

Lemma serve_step_live t interval s s' : serve_step t interval s s' → all_live t s → all_live t s'.
Proof.
  unfold all_live. destruct 1 as [| | | | | |s now|s r rest|s|s ip now|s p k l p'|s|s i c l late first told status Hi
    |s i c l late first ack d peer ch until Hi Hc Ha|s i c x y Hi Hc Hs|s i c x Hi]; try done; intros Hp.
  - unfold accept_client. destruct (admit_connection _ ip now) as [[] a]; [by constructor|done].
  - by apply Forall_delete.
  - apply Forall_insert; [done|]. simpl. by eapply lives_born.
  - apply Forall_insert; [done|]. simpl. apply (Forall_lookup_1 _ _ _ _ Hp) in Hi. rewrite Hc in Hi. by eapply lives_next.
  - by apply Forall_delete.
Qed.

(** ** Who is turned away is reported *)

(** The refusals of an address a label puts on record. *)
Definition tells (addr : string) (l : lbl) : Z :=
  match l with
  | LRecord _ e _ =>
      match event e with
      | ConnectionsRefused a count _ => if String.eqb a addr then count else 0
      | _ => 0
      end
  | _ => 0
  end.
Definition sum (l : list Z) : Z := foldr Z.add 0 l.
Definition reported (addr : string) (log : list lbl) : Z := sum (tells addr <$> log).
Definition is_address (addr : string) (ip : IpAddr) : bool := String.eqb (ip_to_string ip) addr.
Definition turned_away (addr : string) (l : list IpAddr) : Z := Z.of_nat (length (List.filter (is_address addr) l)).
Definition counts (addr : string) (ip : IpAddr) (n : Z) : Z := if is_address addr ip then n else 0.
Definition to_report (addr : string) (l : list Refusal) : Z := sum ((fun r => counts addr r.1.1 r.1.2) <$> l).
Lemma to_report_cons addr r l : to_report addr (r :: l) = counts addr r.1.1 r.1.2 + to_report addr l.
Proof. done. Qed.
(** The refusals that are still only counted. *)
Definition held (addr : string) (a : Admission) : Z :=
  map_fold (fun ip s n => counts addr ip (refused s) + n) 0 (addresses a).

Lemma sum_app l l' : sum (l ++ l') = sum l + sum l'.
Proof. induction l; simpl; lia. Qed.
Lemma reported_app addr l l' : reported addr (l ++ l') = reported addr l + reported addr l'.
Proof. unfold reported. by rewrite fmap_app, sum_app. Qed.
Lemma reported_cons addr l ls : reported addr (l :: ls) = tells addr l + reported addr ls.
Proof. done. Qed.
Lemma reported_one addr l : reported addr [l] = tells addr l.
Proof. unfold reported. simpl. lia. Qed.

Lemma held_new addr ip s (m : gmap IpAddr AddressState) :
  m !! ip = None →
  map_fold (fun ip s n => counts addr ip (refused s) + n) 0 (<[ip := s]> m) =
  counts addr ip (refused s) + map_fold (fun ip s n => counts addr ip (refused s) + n) 0 m.
Proof. intros Hn. rewrite map_fold_insert_L; [done|intros; lia|done]. Qed.
Lemma held_insert addr ip s (m : gmap IpAddr AddressState) :
  map_fold (fun ip s n => counts addr ip (refused s) + n) 0 (<[ip := s]> m) =
  map_fold (fun ip s n => counts addr ip (refused s) + n) 0 m
  + counts addr ip (refused s) - counts addr ip (from_option refused 0 (m !! ip)).
Proof.
  destruct (m !! ip) as [s0|] eqn:Hs; simpl.
  - rewrite <- insert_delete_eq, held_new by apply lookup_delete_eq.
    rewrite <- (insert_delete_id m ip s0 Hs) at 2. rewrite held_new by apply lookup_delete_eq. lia.
  - rewrite held_new by done. unfold counts. destruct (is_address addr ip); lia.
Qed.
Lemma held_none addr (m : gmap IpAddr AddressState) :
  (∀ ip s, m !! ip = Some s → refused s = 0) → map_fold (fun ip s n => counts addr ip (refused s) + n) 0 m = 0.
Proof.
  induction m as [|ip s m Hn IH] using map_ind; intros Hz; [done|]. rewrite held_new by done. rewrite IH.
  - rewrite (Hz ip s (lookup_insert_eq _ _ _)). unfold counts. by destruct (is_address addr ip).
  - intros ip' s' Hs'. apply (Hz ip'). rewrite lookup_insert_ne; [done|]. intros ->. congruence.
Qed.

(** No count of the table is negative, or more than there were refusals. *)
Definition counted (a : Admission) (away : list IpAddr) : Prop :=
  ∀ ip s, addresses a !! ip = Some s → 0 ≤ refused s ≤ Z.of_nat (length away).
Lemma counted_default a away now ip :
  counted a away → 0 ≤ refused (refill now (default (new_address now) (addresses a !! ip))) ≤ Z.of_nat (length away).
Proof. intros Hc. destruct (addresses a !! ip) as [s|] eqn:Hs; simpl; [by apply (Hc ip)|lia]. Qed.

Lemma refill_refused a now ip :
  refused (refill now (default (new_address now) (addresses a !! ip))) = from_option refused 0 (addresses a !! ip).
Proof. by destruct (addresses a !! ip). Qed.

Lemma taken_all addr a now away : counted a away → to_report addr (take_refused a now).1 = held addr a ∧ held addr (take_refused a now).2 = 0.
Proof.
  intros Hc. split.
  - unfold held, to_report, take_refused. cbn [fst]. rewrite map_fold_foldr.
    assert (Hl : ∀ x, x ∈ map_to_list (addresses a) → 0 ≤ refused x.2).
    { intros [ip s] Hin%elem_of_map_to_list. by apply (Hc ip). }
    revert Hl. induction (map_to_list (addresses a)) as [|[ip s] l IH]; intros Hl; [done|].
    assert (Hs : 0 ≤ refused s) by (apply (Hl (ip, s)); by left).
    specialize (IH (fun x Hx => Hl x (list_elem_of_further _ _ _ Hx))). cbn [foldr]. rewrite <- IH. cbn [omap list_omap].
    destruct (Z.ltb_spec 0 (refused s)); [done|].
    cbn [uncurry]. replace (refused s) with 0 by lia. unfold counts. by destruct (is_address addr ip).
  - apply held_none. intros ip s. unfold take_refused. cbn [snd addresses]. rewrite map_lookup_filter_Some, lookup_fmap.
    intros [Hl _]. destruct (addresses a !! ip); simpl in Hl; [|done]. by injection Hl as <-.
Qed.
Lemma taken_counted a now away : counted (take_refused a now).2 away.
Proof.
  intros ip s. unfold take_refused. cbn [snd addresses]. rewrite map_lookup_filter_Some, lookup_fmap.
  intros [Hl _]. destruct (addresses a !! ip); simpl in Hl; [|done]. injection Hl as <-. simpl. lia.
Qed.

Lemma admitted_held addr a ip now a' away :
  counted a away → admit_connection a ip now = (true, a') → held addr a' = held addr a ∧ counted a' away.
Proof.
  unfold admit_connection. intros Hc. pose proof (counted_default a away now ip Hc) as Hd. pose proof (refill_refused a now ip) as Hr.
  set (s0 := refill now _) in *. clearbody s0. destruct (refusal a s0) as [why|]; intros [= <-].
  split.
  - unfold held. cbn [addresses]. rewrite held_insert. cbn [refused]. rewrite Hr. lia.
  - intros ip' s. cbn [addresses]. destruct (decide (ip = ip')) as [->|Hne].
    + rewrite lookup_insert_eq. intros [= <-]. exact Hd.
    + rewrite lookup_insert_ne by done. apply Hc.
Qed.
Lemma refused_held addr a ip now a' away :
  counted a away → Z.of_nat (length (ip :: away)) ≤ u64_max → admit_connection a ip now = (false, a') →
  held addr a' = held addr a + counts addr ip 1 ∧ counted a' (ip :: away).
Proof.
  unfold admit_connection. intros Hc Hn. pose proof (counted_default a away now ip Hc) as Hd. pose proof (refill_refused a now ip) as Hr.
  set (s0 := refill now _) in *. clearbody s0. destruct (refusal a s0) as [why|]; intros [= <-].
  rewrite length_cons in Hn. rewrite u64_wrap_small by lia. split.
  - unfold held. cbn [addresses]. rewrite held_insert. cbn [refused]. rewrite Hr. unfold counts. destruct (is_address addr ip); lia.
  - intros ip' s. cbn [addresses]. rewrite length_cons. destruct (decide (ip = ip')) as [->|Hne].
    + rewrite lookup_insert_eq. intros [= <-]. cbn [refused]. lia.
    + rewrite lookup_insert_ne by done. intros Hs. specialize (Hc _ _ Hs). lia.
Qed.
Lemma released_held addr a ip away : counted a away → held addr (release a ip) = held addr a ∧ counted (release a ip) away.
Proof.
  intros Hc. unfold held, release. cbn [addresses].
  destruct (addresses a !! ip) as [s|] eqn:Hs.
  - assert (Ha : ∀ f : AddressState → AddressState, alter f ip (addresses a) = <[ip := f s]> (addresses a)).
    { intros f. apply map_eq. intros ip'. destruct (decide (ip = ip')) as [->|Hne].
      - by rewrite lookup_alter_eq, Hs, lookup_insert_eq.
      - by rewrite lookup_alter_ne, lookup_insert_ne. }
    rewrite Ha, held_insert, Hs. split; [simpl; lia|]. intros ip' s'. cbn [addresses]. destruct (decide (ip = ip')) as [->|Hne].
    + rewrite lookup_insert_eq. intros [= <-]. exact (Hc ip' s Hs).
    + rewrite lookup_insert_ne by done. apply Hc.
  - assert (Ha : ∀ f : AddressState → AddressState, alter f ip (addresses a) = addresses a).
    { intros f. apply map_eq. intros ip'. destruct (decide (ip = ip')) as [->|Hne]; [by rewrite lookup_alter_eq, Hs|by rewrite lookup_alter_ne]. }
    rewrite Ha. split; [done|]. intros ip' s'. cbn [addresses]. apply Hc.
Qed.

(** What a body still has to record of refusals, if it comes to its end. *)
Definition owes (addr : string) (p : task unit) (n : Z) : Prop := ∀ ls, runs p ls (Ret ()) → reported addr ls = n.
Lemma owes_ret addr n : owes addr (Ret ()) n → n = 0.
Proof. intros Ho. specialize (Ho [] (runs_here _)). unfold reported in Ho. simpl in Ho. lia. Qed.
Lemma owes_step addr p l p' n : does p l p' → owes addr p n → owes addr p' (n - tells addr l).
Proof.
  intros Hd Ho ls Hr. specialize (Ho (l :: ls) (runs_step _ _ _ _ _ Hd Hr)). rewrite reported_cons in Ho. lia.
Qed.

(** Effects that put no refusal on record. *)
Definition unrelated (l : lbl) : Prop := ∀ addr, tells addr l = 0.
Definition unrelating {A} (p : task A) : Prop := spec unrelated p (fun _ _ => True).
Lemma unrelated_reported addr ls : Forall unrelated ls → reported addr ls = 0.
Proof. induction 1 as [|l ls Hl _ IH]; [done|]. rewrite reported_cons, Hl. lia. Qed.
Lemma owes_nothing addr p : unrelating p → owes addr p 0.
Proof. intros Hp ls Hr. apply unrelated_reported. by apply (spec_sound _ _ _ _ _ Hp Hr). Qed.
Lemma unrelating_bind {A B} (p : task A) (f : A → task B) : unrelating p → (∀ a, unrelating (f a)) → unrelating (p ≫= f).
Proof. intros Hp Hf. eapply spec_bind; [exact Hp|]. intros a ls _ _. eapply spec_mono; [..|apply Hf]; auto. Qed.
Lemma unrelating_after {A B} (p : task A) (Φ : A → Prop) (f : A → task B) :
  spec unrelated p (fun a _ => Φ a) → (∀ a, Φ a → unrelating (f a)) → unrelating (p ≫= f).
Proof. intros Hp Hf. eapply spec_bind; [exact Hp|]. intros a ls Ha _. eapply spec_mono; [..|by apply Hf]; auto. Qed.
Lemma unrelating_ret {A} (a : A) : unrelating (Ret a).
Proof. by apply spec_ret. Qed.
Lemma spec_of_atomic {A} (f : Shared → A * Shared) (Φ : A → Prop) : (∀ s, Φ (f s).1) → spec unrelated (atomic f) (fun a _ => Φ a).
Proof. intros Hf. split; [constructor|]. intros s. split; [by repeat constructor|apply Hf]. Qed.
Lemma unrelating_atomic {A} (f : Shared → A * Shared) : unrelating (atomic f).
Proof. by apply spec_of_atomic. Qed.
Lemma unrelating_clock : unrelating clock.
Proof. split; [constructor|]. intros z. by repeat constructor. Qed.
Lemma unrelating_random : unrelating random.
Proof. split; [constructor|]. intros z. by repeat constructor. Qed.
Lemma unrelating_get : unrelating get.
Proof. split; [constructor|]. intros z. by repeat constructor. Qed.
Lemma unrelating_record c e : (∀ a n w, event e ≠ ConnectionsRefused a n w) → unrelating (record_as c e).
Proof.
  intros He. split; [constructor|]. intros z. split; [|done]. repeat constructor. intros addr. simpl.
  destruct (event e) eqn:Hev; try done. by destruct (He _ _ _ eq_refl).
Qed.
Lemma unrelating_queue r timeout : unrelating (queue r timeout).
Proof. split; [constructor|]. intros []; simpl; by repeat constructor. Qed.
Lemma unrelating_await r q : unrelating (await r q).
Proof. unfold await. destruct q; [|by apply spec_ret]. split; [constructor|]. intros a. by repeat constructor. Qed.
Lemma unrelating_send r timeout : unrelating (send r timeout).
Proof. unfold send. apply unrelating_bind; [apply unrelating_queue|]. intros q. apply unrelating_await. Qed.
Lemma unrelating_discover : unrelating (Discover mret).
Proof. split; [constructor|]. intros z. by repeat constructor. Qed.
Lemma unrelating_open e : unrelating (Connect e mret).
Proof. split; [constructor|]. intros z. by repeat constructor. Qed.
Lemma unrelating_validate c p : unrelating (Validate c p mret).
Proof. split; [constructor|]. intros z. by repeat constructor. Qed.
Lemma unrelating_record_for t e : (∀ a n w, e ≠ ConnectionsRefused a n w) → unrelating (record_for t e).
Proof.
  intros He. apply unrelating_bind; [apply unrelating_clock|]. intros now. apply unrelating_bind; [|intros; apply unrelating_ret].
  by apply unrelating_record.
Qed.
Lemma unrelating_each {A} (f : A → task unit) (l : list A) : (∀ x, x ∈ l → unrelating (f x)) → unrelating (each f l).
Proof.
  induction l as [|x l IH]; intros Hf; simpl; [apply unrelating_ret|]. apply unrelating_bind; [apply Hf; by left|].
  intros _. apply IH. intros y Hy. apply Hf. by right.
Qed.
Hint Resolve unrelating_ret unrelating_atomic unrelating_clock unrelating_random unrelating_get unrelating_send
  unrelating_discover unrelating_open unrelating_validate : unrelated.
Ltac unrelate := repeat first [exact (unrelating_ret _)|solve [auto with unrelated]|case_match|apply unrelating_bind; intros].

Lemma unrelating_ignored t : unrelating (record_ignored t).
Proof.
  unfold record_ignored. apply (unrelating_after _ (Forall (fun e => ∀ a n w, e ≠ ConnectionsRefused a n w))).
  - apply (spec_of_atomic take_summaries (Forall (fun e => ∀ a n w, e ≠ ConnectionsRefused a n w))). intros s.
    unfold take_summaries, Ignore.take. cbn [fst]. apply Forall_forall. intros e. rewrite list_elem_of_omap.
    intros (n & _ & He). destruct (_ !! n); [|done]. by injection He as <-.
  - intros events He. apply unrelating_each. intros e Hin. apply unrelating_record_for. by eapply Forall_forall in He.
Qed.
Lemma unrelating_trust t found : unrelating (set_gateway_trust t found).
Proof.
  unfold set_gateway_trust.
  apply (unrelating_after _ (fun o => ∀ e, o = Some e → ∀ a n w, e ≠ ConnectionsRefused a n w)).
  - apply (spec_of_atomic (set_trust (r_url t) found) (fun o => ∀ e, o = Some e → ∀ a n w, e ≠ ConnectionsRefused a n w)).
    intros s e. unfold set_trust, trust_event. repeat case_match; simpl; congruence.
  - intros [e|] He; [|apply unrelating_ret]. apply unrelating_record_for. by apply He.
Qed.
Lemma unrelating_check t in_time : unrelating (check_gateway_trust no_token t in_time).
Proof.
  unfold check_gateway_trust. apply unrelating_bind; [|intros; apply unrelating_trust].
  unfold find_trust, target_endpoints, connect, probe_session. unrelate.
Qed.
Lemma owes_report addr t r : owes addr (report t r) (counts addr r.1.1 r.1.2).
Proof.
  destruct r as [[ip n] why]. intros ls Hr. simpl in Hr. unfold record_for in Hr. apply runs_bind in Hr as (l1 & l2 & z & -> & Hz & Hr).
  apply runs_clock in Hz as ->. apply runs_bind in Hr as (n1 & n2 & a & -> & Hrec & Hret). apply runs_record in Hrec as ->.
  apply runs_ret in Hret as [_ ->]. unfold reported, counts, is_address. simpl. case_match; lia.
Qed.

Definition due (addr : string) (l : Loop) (n : Z) : Prop :=
  match l with
  | Waiting | Stopped => n = 0
  | Checking p | Summarising p | Stopping p => owes addr p n
  | Reporting p rest => owes addr p (n - to_report addr rest)
  end.
Definition balance (addr : string) (s : Server) : Prop :=
  ∃ n, due addr (sv_loop s) n ∧ turned_away addr (sv_refused s) = reported addr (sv_log s) + n + held addr (sv_admission s).
Definition balanced (s : Server) : Prop :=
  Z.of_nat (length (sv_refused s)) ≤ u64_max → counted (sv_admission s) (sv_refused s) ∧ ∀ addr, balance addr s.

Lemma body_due addr l p k n lb p' : body l = Some (p, k) → does p lb p' → due addr l n → due addr (k p') (n - tells addr lb).
Proof.
  intros Hb Hd. destruct l; simpl in Hb; try done; injection Hb as <- <-; simpl; try (by apply owes_step).
  intros Ho. apply (owes_step addr _ lb p') in Ho; [|done].
  by replace (n - tells addr lb - to_report addr rest) with (n - to_report addr rest - tells addr lb) by lia.
Qed.
(** A step that changes neither the counts nor the records. *)
Lemma balanced_moves s s' :
  sv_admission s' = sv_admission s → sv_refused s' = sv_refused s → sv_log s' = sv_log s →
  (∀ addr n, due addr (sv_loop s) n → due addr (sv_loop s') n) → balanced s → balanced s'.
Proof.
  intros Ha Hr Hl Hd Hb Hn. rewrite Ha, Hr in *. destruct (Hb Hn) as [Hc Hbal]. split; [done|]. intros addr.
  destruct (Hbal addr) as (n & Hdue & He). exists n. rewrite Ha, Hr, Hl. split; [by apply Hd|done].
Qed.
(** A connection's task changes only the places. *)
Lemma balanced_release i c s : balanced s → balanced (done_with i c s).
Proof.
  intros Hb Hn. destruct (Hb Hn) as [Hc Hbal]. split.
  - by apply (released_held EmptyString).
  - intros addr. destruct (Hbal addr) as (n & Hdue & He). exists n. split; [done|]. cbn [done_with set_admission set_sv_clients sv_admission sv_refused sv_log].
    destruct (released_held addr (sv_admission s) (ct_address c) (sv_refused s) Hc) as [-> _]. done.
Qed.
Lemma balanced_accept ip now s : sv_loop s = Waiting → balanced s → balanced (accept_client ip now s).
Proof.
  intros Hl Hb. unfold accept_client. destruct (admit_connection _ ip now) as [[] a] eqn:Ha; intros Hn; cbn [sv_refused] in Hn.
  - destruct (Hb Hn) as [Hc Hbal]. split; [by apply (admitted_held EmptyString _ _ _ _ _ Hc Ha)|]. intros addr.
    destruct (Hbal addr) as (n & Hdue & He). exists n. split; [done|]. cbn [sv_admission sv_refused sv_log].
    destruct (admitted_held addr _ _ _ _ _ Hc Ha) as [-> _]. done.
  - destruct Hb as [Hc Hbal]; [rewrite length_cons in Hn; lia|]. split; [by apply (refused_held EmptyString _ _ _ _ _ Hc Hn Ha)|]. intros addr.
    destruct (Hbal addr) as (n & Hdue & He). exists n. split; [done|]. cbn [sv_admission sv_refused sv_log].
    destruct (refused_held addr _ _ _ _ _ Hc Hn Ha) as [-> _]. unfold turned_away, counts in *. simpl. destruct (is_address addr ip); simpl; lia.
Qed.
Lemma balanced_tick now s : sv_loop s = Waiting → balanced s → balanced (take_reports now s).
Proof.
  intros Hl Hb Hn. destruct (Hb Hn) as [Hc Hbal]. split; [apply taken_counted|]. intros addr.
  destruct (Hbal addr) as (n & Hdue & He). rewrite Hl in Hdue. simpl in Hdue.
  destruct (taken_all addr (sv_admission s) now _ Hc) as [Ht Hh]. exists (held addr (sv_admission s)). unfold take_reports.
  destruct (take_refused _ now) as [l a]. simpl in *. split; [|lia]. rewrite Ht. intros ls Hr. apply runs_ret in Hr as [_ ->]. unfold reported. simpl. lia.
Qed.
Lemma balanced_works s p k l p' : body (sv_loop s) = Some (p, k) → does p l p' → balanced s → balanced (did l (k p') s).
Proof.
  intros Hbd Hd Hb Hn. destruct (Hb Hn) as [Hc Hbal]. split; [done|]. intros addr. destruct (Hbal addr) as (n & Hdue & He).
  exists (n - tells addr l). split; [by eapply body_due|]. cbn [did sv_log sv_refused sv_admission]. rewrite reported_app, reported_one. lia.
Qed.

Lemma serve_step_balanced t interval s s' : serve_step t interval s s' → balanced s → balanced s'.
Proof.
  assert (Hstart : ∀ p addr n, unrelating p → due addr Waiting n → owes addr p n) by (simpl; intros ? ? ? ? ->; by apply owes_nothing).
  assert (Hend : ∀ addr n, owes addr (Ret ()) n → due addr Waiting n) by (intros ? ?; apply owes_ret).
  destruct 1 as [s Hl|s now in_time Hl|s now Hl|s now Hl|s every now Hl|s now Hl|s now Hl|s r rest Hl|s Hl|s ip now Hl|s p k l p' Hbd Hd|s Hl
    |s i c l late first told status Hi|s i c l late first ack d peer ch until Hi|s i c x y Hi|s i c x Hi].
  - apply balanced_moves; [done..|]. rewrite Hl. intros addr n. apply Hstart, unrelating_ignored.
  - apply balanced_moves; [done..|]. rewrite Hl. intros addr n. apply Hstart, unrelating_check.
  - apply balanced_moves; [done..|]. by rewrite Hl.
  - by apply balanced_moves.
  - apply balanced_moves; [done..|]. rewrite Hl. intros addr n. apply Hstart, unrelating_ignored.
  - apply balanced_moves; [done..|]. by rewrite Hl.
  - by apply balanced_tick.
  - apply balanced_moves; [done..|]. rewrite Hl. intros addr n. simpl. intros Ho%owes_ret.
    replace (n - to_report addr rest) with (counts addr r.1.1 r.1.2) by (rewrite to_report_cons in Ho; lia). apply owes_report.
  - apply balanced_moves; [done..|]. rewrite Hl. intros addr n. simpl. intros Ho%owes_ret. change (to_report addr []) with 0 in Ho. lia.
  - by apply balanced_accept.
  - by eapply balanced_works.
  - apply balanced_moves; [done..|]. by rewrite Hl.
  - apply balanced_release.
  - by apply balanced_moves.
  - by apply balanced_moves.
  - apply balanced_release.
Qed.

Definition limits (s : Server) : nat * nat := (max_total (sv_admission s), max_per_address (sv_admission s)).
Lemma serve_step_limits t interval s s' : serve_step t interval s s' → limits s' = limits s.
Proof.
  destruct 1; try done. unfold accept_client, admit_connection. by destruct (refusal _ _).
Qed.
Record served (t : Relayed) (mt mp : nat) (s : Server) : Prop := {
  sd_placed : placed s;
  sd_live : all_live t s;
  sd_balanced : balanced s;
  sd_limits : limits s = (mt, mp);
}.
Lemma served_reachable t interval mt mp now s : rtc (serve_step t interval) (new_server mt mp now) s → served t mt mp s.
Proof.
  intros Hr. assert (Hnew : served t mt mp (new_server mt mp now)).
  { split; [|constructor| |done].
    - split; [done|]. split; [simpl; lia|]. intros ip. simpl. rewrite lookup_empty. split; [done|unfold open_from; simpl; lia].
    - intros _. split; [intros ip s' Hs; simpl in Hs; by rewrite lookup_empty in Hs|]. intros addr. by exists 0. }
  induction Hr as [s|s s1 s2 Hs _ IH]; [done|]. apply IH. destruct Hnew as [Hp Hl Hb Hm].
  split; [by eapply serve_step_placed|by eapply serve_step_live|by eapply serve_step_balanced|by rewrite (serve_step_limits _ _ _ _ Hs)].
Qed.

(** Claim C12. However clients come and go while a target
    serves them: every connection that got past its handshake lives the life of
    a connection; the places taken are those of the connections whose task has
    not returned, never more than the target's limit, nor from one address than
    the limit per address; and whoever is turned away is counted: while the loop
    waits, and when it has stopped, the connections refused from an address are those
    its records tell of, and those still counted for the next report. *)
Theorem connections_accounted t interval mt mp now s :
  rtc (serve_step t interval) (new_server mt mp now) s →
  (∀ c x, c ∈ sv_clients s → ct_stage c = Living x → lives t x) ∧
  active (sv_admission s) = length (sv_clients s) ∧ (length (sv_clients s) ≤ mt)%nat ∧
  (∀ ip, (open_from ip (addresses_of s) ≤ mp)%nat) ∧
  (Z.of_nat (length (sv_refused s)) ≤ u64_max → sv_loop s = Waiting ∨ sv_loop s = Stopped → ∀ addr,
     turned_away addr (sv_refused s) = reported addr (sv_log s) + held addr (sv_admission s)).
Proof.
  intros Hr. apply served_reachable in Hr as [(Ha & Hm & Hip) Hl Hb [= Hmt Hmp]].
  unfold addresses_of in Ha. rewrite length_fmap in Ha. split; [|split; [done|split; [lia|split]]].
  - intros c x Hc Hx. unfold all_live in Hl. rewrite Forall_forall in Hl. specialize (Hl c Hc). by rewrite Hx in Hl.
  - intros ip. rewrite <- Hmp. apply Hip.
  - intros Hn Hloop addr. destruct (Hb Hn) as [_ Hbal]. destruct (Hbal addr) as (n & Hdue & He).
    assert (n = 0) as -> by (destruct Hloop as [Hw|Hw]; by rewrite Hw in Hdue). lia.
Qed.
End Serving.

(** ** A target for one client *)
Section ServingWitnesses.
Import ToyNodes ToyOpc ToyRelay ToyStack.
#[local] Existing Instances opc write_stack write_channels.

Definition null_node : @NodeId (@opc_nodes opc) := "".
Abbreviation step := (serve_step null_node plc 30).

Definition fresh : Server := new_server 1 1 0.
Definition first_here : Server := accept_client (V4 1) 0 fresh.
Definition second_refused : Server := accept_client (V4 2) 5 first_here.

Lemma first_reached : rtc step fresh first_here.
Proof. apply rtc_once. by apply sv_accept. Qed.
Lemma second_reached : rtc step fresh second_refused.
Proof. eapply rtc_r; [exact first_reached|]. by apply sv_accept. Qed.

Lemma connections_accounted_witness :
  length (sv_clients second_refused) = 1%nat ∧ turned_away "0.0.0.2" (sv_refused second_refused) = 1 ∧
  turned_away "0.0.0.2" (sv_refused second_refused) =
    reported "0.0.0.2" (sv_log second_refused) + held "0.0.0.2" (sv_admission second_refused).
Proof.
  split; [vm_compute; reflexivity|]. split; [vm_compute; reflexivity|].
  apply (connections_accounted null_node plc 30 1 1 0 second_refused second_reached); [vm_compute; discriminate|left; vm_compute; reflexivity].
Defined.

(** A connection refused in the last ten seconds before the target stops is
    not recorded. *)
Definition stopping := exec (plc_world server) (record_ignored plc) (ToyRelay.shared true).
Example last_refusals_unreported :
  ∃ s, rtc step fresh s ∧ sv_loop s = Stopped ∧ turned_away "0.0.0.2" (sv_refused s) = 1 ∧ reported "0.0.0.2" (sv_log s) = 0.
Proof.
  assert (Hruns : runs (record_ignored plc) stopping.1.1 (Ret ())).
  { apply (exec_returns (plc_world server) _ (ToyRelay.shared true)). vm_compute. reflexivity. }
  assert (Hall : ∀ p ls p' s, runs p ls p' → sv_loop s = Stopping p →
    ∃ s', rtc step s s' ∧ sv_loop s' = Stopping p' ∧ sv_refused s' = sv_refused s ∧ sv_log s' = sv_log s ++ ls).
  { intros p ls p' s Hr. revert s. induction Hr as [p|p l p1 ls p2 Hd _ IH]; intros s Hs; [exists s; by rewrite app_nil_r|].
    destruct (IH (did l (Stopping p1) s) eq_refl) as (s' & Hr & Hl & Hf & Hlog). exists s'.
    split; [|split_and!; [done|done|rewrite Hlog; cbn [did sv_log]; by rewrite <- app_assoc]]. eapply rtc_l; [|exact Hr].
    by apply (sv_works null_node plc 30 s p Stopping l p1); [rewrite Hs|]. }
  destruct (Hall _ _ _ (set_loop (Stopping (record_ignored plc)) second_refused) Hruns eq_refl) as (s & Hr & Hl & Hf & Hlog).
  exists (set_loop Stopped s). split_and!.
  - etrans; [exact second_reached|]. eapply rtc_l; [by apply sv_stop|]. eapply rtc_r; [exact Hr|]. by apply sv_stopped.
  - done.
  - cbn [set_loop sv_refused]. rewrite Hf. vm_compute. reflexivity.
  - cbn [set_loop sv_log]. rewrite Hlog. vm_compute. reflexivity.
Qed.

(** The place of a connection whose task is lost is never free again: nobody is
    connected, and nobody is let in. *)
Definition with_life (x : Life) : Server := set_sv_clients [mkClient (V4 1) 1 (Living x)] first_here.
Lemma lives_on x y : rtc (life_step plc) x y → rtc step (with_life x) (with_life y).
Proof.
  intros Hr. induction Hr as [|x x1 y Hs _ IH]; [done|]. eapply rtc_l; [|exact IH].
  exact (sv_lives null_node plc 30 (with_life x) 0 (mkClient (V4 1) 1 (Living x)) x x1 eq_refl eq_refl Hs).
Qed.
Example place_lost :
  rtc step fresh (with_life lost) ∧ ∀ addr now, (admit_connection (sv_admission (with_life lost)) addr now).1 = false.
Proof.
  split; [|done]. etrans; [exact first_reached|]. destruct arrived_accepted as [ack Hack].
  eapply rtc_l; [exact (sv_hello null_node plc 30 first_here 0 (mkClient (V4 1) 1 Greeting) _ _ _ ack Lifetime.accepted hmi channel 0 eq_refl eq_refl Hack)|].
  apply (lives_on (born plc arrived)). etrans; [exact busy_reached|exact lost_reached].
Qed.
End ServingWitnesses.
