(* ===== verification/ConfigFile.v ===== *)
(** Writing the configuration file ([write_targets] and [write_settings] in
    [src/src/targets.rs]), and reading it as the [serde] attributes of the
    types in [src/src/config.rs] say.

    A document is its tables: keys in order with their items. Comments and
    formatting are not modelled. *)

From S2P Require Import Prelude Net Config Discovery.

(** ** Documents *)
Inductive item : Type :=
| TStr (s : string)
| TInt (z : Z)
| TBool (b : bool)
| TArr (l : list item)
(** [[table]]; [key = { ... }]; [[[tables]]] *)
| TTable (t : list (string * item))
| TInline (t : list (string * item))
| TTables (l : list (list (string * item))).

Abbreviation toml := (list (string * item)).

Fixpoint tget (k : string) (t : toml) : option item :=
  match t with
  | [] => None
  | (k', v) :: t => if String.eqb k k' then Some v else tget k t
  end.

(** Replaced where it is, or added at the end. *)
Fixpoint tset (k : string) (v : item) (t : toml) : toml :=
  match t with
  | [] => [(k, v)]
  | (k', v') :: t => if String.eqb k k' then (k', v) :: t else (k', v') :: tset k v t
  end.

Definition tdel (k : string) (t : toml) : toml := List.filter (fun kv => negb (String.eqb k kv.1)) t.

Definition has_key (k : string) (t : toml) : bool := bool_decide (is_Some (tget k t)).

(** ** [write_targets] *)
Definition opt_str (k : string) (v : option string) : toml :=
  match v with Some s => [(k, TStr s)] | None => [] end.

Definition names_table (m : gmap string string) : toml :=
  omap (fun k => v ← m !! k; Some (k, TStr v)) (sorted_keys m).

Definition group_table (g : SummariseGroup) : toml :=
  opt_str "name" (sg_name g) ++ opt_str "client" (sg_client g) ++
  [("nodes", TArr (TStr <$> nodes g))] ++
  (if bool_decide (names g = ∅) then [] else [("names", TTable (names_table (names g)))]).

(** The unsigned numbers are cast with [as i64]. *)
Definition target_table (t : TargetConfig) : toml :=
  [("name", TStr (t_name t)); ("listen", TStr (socket_to_string (t_listen t)));
   ("endpoint_url", TStr (endpoint_url t)); ("discovery_interval_secs", TInt (i64_wrap (discovery_interval_secs t)))] ++
  (if bool_decide (min_security t = SecNone) then []
   else [("min_security", TStr (MinSecurity_as_str (min_security t)))]) ++
  (if max_connections t =? default_max_connections then []
   else [("max_connections", TInt (i64_wrap (max_connections t)))]) ++
  (if max_connections_per_address t =? default_max_connections_per_address then []
   else [("max_connections_per_address", TInt (i64_wrap (max_connections_per_address t)))]) ++
  (if bool_decide (summarise t = []) then [] else [("summarise", TTables (group_table <$> summarise t))]).

Definition put_targets (targets : list TargetConfig) (doc : toml) : toml :=
  match targets with
  | [] => tdel "targets" doc
  | _ => tset "targets" (TTables (target_table <$> targets)) doc
  end.

(** ** [write_settings] *)

(** A key that is no [[table]] is replaced by an empty one. *)
Definition in_table (k : string) (f : toml → toml) (t : toml) : toml :=
  tset k (TTable (f (match tget k t with Some (TTable t) => t | _ => [] end))) t.

Definition set_opt (k : string) (v : option string) (t : toml) : toml :=
  match v with Some s => tset k (TStr s) t | None => tdel k t end.

Definition put_gateway (hostnames : list string) (t : toml) : toml :=
  match hostnames with
  | [] => tdel "certificate_hostnames" t
  | _ => tset "certificate_hostnames" (TArr (TStr <$> hostnames)) t
  end.

Definition fail_mode_str (m : FailMode) : string := match m with Open => "open" | Closed => "closed" end.

Definition put_audit (a : AuditConfig) (t : toml) : toml :=
  tset "ignored_summary_secs" (TInt (i64_wrap (ignored_summary_secs a)))
    (tset "record_old_value" (TBool (cfg_record_old_value a))
      (tset "fail_mode" (TStr (fail_mode_str (cfg_fail_mode a)))
        (tset "retention_days" (TInt (cfg_retention_days a)) t))).

Definition put_questdb (q : QuestDbConfig) (t : toml) : toml :=
  tset "interval_secs" (TInt (i64_wrap (interval_secs q)))
    (set_opt "ca_file" (ca_file q)
      (set_opt "password" (password q)
        (set_opt "username" (username q)
          (set_opt "token" (token q)
            (tset "table" (TStr (table q)) (tset "url" (TStr (url q)) t)))))).

Definition put_export (e : ExportConfig) (t : toml) : toml :=
  match questdb e with
  | None => tdel "questdb" t
  | Some q => in_table "questdb" (put_questdb q) t
  end.

Definition put_mcp (m : McpConfig) (doc : toml) : toml :=
  if enabled m || has_key "mcp" doc
  then in_table "mcp" (fun t => tdel "allow" (tset "enabled" (TBool (enabled m)) t)) doc
  else doc.

(** Syslog export is no longer supported; an empty [export] is removed. *)
Definition drop_syslog (doc : toml) : toml :=
  let doc := in_table "export" (tdel "syslog") doc in
  match tget "export" doc with Some (TTable []) => tdel "export" doc | _ => doc end.

Definition put_settings (c : Config) (doc : toml) : toml :=
  drop_syslog (put_mcp (mcp c)
    (in_table "export" (put_export (export c))
      (in_table "audit" (put_audit (audit c))
        (in_table "gateway" (put_gateway (certificate_hostnames (gateway c))) doc)))).

(** ** Reading *)
Section Reading.
(** [SocketAddr]'s [FromStr] *)
Context (parse_socket : string → option SocketAddr).

Definition as_str (i : item) : option string := match i with TStr s => Some s | _ => None end.
Definition as_unsigned (i : item) : option Z := match i with TInt z => if 0 <=? z then Some z else None | _ => None end.
Definition as_table (i : item) : option toml := match i with TTable t | TInline t => Some t | _ => None end.
Definition as_tables (i : item) : option (list toml) :=
  match i with TTables l => Some l | TArr l => mapM as_table l | _ => None end.
Definition as_u32 (i : item) : option Z := n ← as_unsigned i; if n <? 2 ^ 32 then Some n else None.
Definition as_strings (i : item) : option (list string) := match i with TArr l => mapM as_str l | _ => None end.

(** A key with [#[serde(default)]]: [None] only when its value is wrong. *)
Definition or_default {A} (d : A) (f : item → option A) (k : string) (t : toml) : option A :=
  match tget k t with Some i => f i | None => Some d end.
Definition required {A} (f : item → option A) (k : string) (t : toml) : option A := tget k t ≫= f.
Definition opt {A} (f : item → option A) : item → option (option A) := fun i => Some <$> f i.

(** [deny_unknown_fields] *)
Definition only (keys : list string) (t : toml) : option unit :=
  if forallb (fun kv => bool_decide (kv.1 ∈ keys)) t then Some () else None.

Definition read_security (i : item) : option MinSecurity :=
  s ← as_str i;
  if String.eqb s "none" then Some SecNone
  else if String.eqb s "sign" then Some Sign
  else if String.eqb s "sign_and_encrypt" then Some SignAndEncrypt else None.

Definition read_names (i : item) : option (gmap string string) :=
  t ← as_table i; list_to_map <$> mapM (fun kv : string * item => v ← as_str kv.2; Some (kv.1, v)) t.

Definition group_keys : list string := ["name"; "client"; "nodes"; "names"].
Definition read_group (t : toml) : option SummariseGroup :=
  _ ← only group_keys t;
  name ← or_default None (opt as_str) "name" t;
  client ← or_default None (opt as_str) "client" t;
  nodes ← or_default [] as_strings "nodes" t;
  names ← or_default ∅ read_names "names" t;
  Some (mkSummariseGroup name client nodes names).

Definition read_rule (t : toml) : option IgnoreRule :=
  _ ← only ["node_id"; "client"; "name"] t;
  node ← required as_str "node_id" t;
  client ← or_default None (opt as_str) "client" t;
  name ← or_default None (opt as_str) "name" t;
  Some (mkIgnoreRule node client name).

Definition target_keys : list string :=
  ["name"; "listen"; "endpoint_url"; "discovery_interval_secs"; "min_security"; "max_connections";
   "max_connections_per_address"; "summarise"; "ignore"].
Definition read_target (t : toml) : option TargetConfig :=
  _ ← only target_keys t;
  name ← required as_str "name" t;
  listen ← required (fun i => as_str i ≫= parse_socket) "listen" t;
  url ← required as_str "endpoint_url" t;
  interval ← or_default default_discovery_interval as_unsigned "discovery_interval_secs" t;
  security ← or_default SecNone read_security "min_security" t;
  max ← or_default default_max_connections as_unsigned "max_connections" t;
  max_per ← or_default default_max_connections_per_address as_unsigned "max_connections_per_address" t;
  groups ← or_default [] (fun i => as_tables i ≫= mapM read_group) "summarise" t;
  rules ← or_default [] (fun i => as_tables i ≫= mapM read_rule) "ignore" t;
  Some (mkTargetConfig name listen url interval security max max_per groups rules).

Definition read_targets (doc : toml) : option (list TargetConfig) :=
  or_default [] (fun i => as_tables i ≫= mapM read_target) "targets" doc.

Definition read_fail_mode (i : item) : option FailMode :=
  s ← as_str i; if String.eqb s "open" then Some Open else if String.eqb s "closed" then Some Closed else None.

Definition as_bool (i : item) : option bool := match i with TBool b => Some b | _ => None end.

(** The settings [put_settings] writes; the sections have defaults. *)
Definition read_hostnames (doc : toml) : option (list string) :=
  t ← or_default [] as_table "gateway" doc; or_default [] as_strings "certificate_hostnames" t.
Definition audit_keys : list string :=
  ["database"; "retention_days"; "fail_mode"; "record_old_value"; "ignored_summary_secs"].
Definition read_audit (doc : toml) : option AuditConfig :=
  t ← or_default [] as_table "audit" doc;
  _ ← only audit_keys t;
  database ← or_default None (opt as_str) "database" t;
  days ← or_default 365 as_u32 "retention_days" t;
  mode ← or_default Open read_fail_mode "fail_mode" t;
  old ← or_default true as_bool "record_old_value" t;
  summary ← or_default 3600 as_unsigned "ignored_summary_secs" t;
  Some (mkAuditConfig database days mode old summary).
Definition questdb_keys : list string :=
  ["url"; "ca_file"; "table"; "token"; "username"; "password"; "interval_secs"].
Definition read_questdb (t : toml) : option QuestDbConfig :=
  _ ← only questdb_keys t;
  url ← required as_str "url" t;
  ca ← or_default None (opt as_str) "ca_file" t;
  table ← or_default default_questdb_table as_str "table" t;
  token ← or_default None (opt as_str) "token" t;
  username ← or_default None (opt as_str) "username" t;
  password ← or_default None (opt as_str) "password" t;
  interval ← or_default default_export_interval as_unsigned "interval_secs" t;
  Some (mkQuestDbConfig url ca table token username password interval).
Definition read_export (doc : toml) : option (option QuestDbConfig) :=
  t ← or_default [] as_table "export" doc;
  _ ← only ["questdb"; "syslog"] t;
  or_default None (opt (fun i => as_table i ≫= read_questdb)) "questdb" t.
Definition read_mcp (doc : toml) : option bool :=
  t ← or_default [] as_table "mcp" doc;
  _ ← only ["enabled"; "allow"] t;
  or_default false as_bool "enabled" t.
End Reading.

(** ** Properties *)
Lemma tget_tset k k' v t : tget k (tset k' v t) = if String.eqb k k' then Some v else tget k t.
Proof.
  induction t as [|[k1 v1] t IH]; simpl; [done|]. destruct (String.eqb_spec k' k1) as [<-|Hne]; simpl.
  - by destruct (String.eqb_spec k k').
  - rewrite IH. destruct (String.eqb_spec k k1) as [->|]; [|done]. by destruct (String.eqb_spec k1 k').
Qed.

Lemma tget_tdel k k' t : tget k (tdel k' t) = if String.eqb k k' then None else tget k t.
Proof.
  unfold tdel. induction t as [|[k1 v1] t IH]; simpl; [by destruct (String.eqb k k')|].
  destruct (String.eqb_spec k' k1) as [<-|Hne]; simpl; rewrite IH; [by destruct (String.eqb_spec k k')|].
  destruct (String.eqb_spec k k1) as [->|]; [|done]. by destruct (String.eqb_spec k1 k').
Qed.

Lemma tget_in_table k k' f t :
  tget k (in_table k' f t) =
    if String.eqb k k' then Some (TTable (f (match tget k' t with Some (TTable t) => t | _ => [] end))) else tget k t.
Proof. unfold in_table. apply tget_tset. Qed.

Lemma tget_set_opt k k' v t :
  tget k (set_opt k' v t) = if String.eqb k k' then TStr <$> v else tget k t.
Proof. unfold set_opt. destruct v; [apply tget_tset|apply tget_tdel]. Qed.

Lemma or_default_Some {A} d (f : item → option A) k t i : tget k t = Some i → or_default d f k t = f i.
Proof. unfold or_default. by intros ->. Qed.

Lemma or_default_None {A} (d : A) f k t : tget k t = None → or_default d f k t = Some d.
Proof. unfold or_default. by intros ->. Qed.

Lemma only_tset ks k v t : k ∈ ks → only ks t = Some () → only ks (tset k v t) = Some ().
Proof.
  intros Hk. unfold only. destruct (forallb _ t) eqn:Ht; [|done]. intros _.
  assert (forallb (fun kv : string * item => bool_decide (kv.1 ∈ ks)) (tset k v t) = true) as ->; [|done].
  assert (Hb : bool_decide (k ∈ ks) = true) by by apply bool_decide_eq_true. revert Ht. induction t as [|[k1 v1] t IH]; simpl; [by rewrite Hb|].
  intros [H1 H2]%andb_prop. destruct (String.eqb k k1); simpl; rewrite H1; auto.
Qed.

Lemma only_tdel ks k t : only ks t = Some () → only ks (tdel k t) = Some ().
Proof.
  unfold only. destruct (forallb _ t) eqn:Ht; [|done]. intros _.
  assert (forallb (fun kv : string * item => bool_decide (kv.1 ∈ ks)) (tdel k t) = true) as ->; [|done].
  apply forallb_forall. intros kv [Hin _]%List.filter_In. by apply (proj1 (forallb_forall _ _) Ht).
Qed.

Lemma only_set_opt ks k v t : k ∈ ks → only ks t = Some () → only ks (set_opt k v t) = Some ().
Proof. destruct v; [apply only_tset|intros _; apply only_tdel]. Qed.

Lemma only_bind {A} ks t (f : option A) x : (_ ← only ks t; f) = Some x ↔ only ks t = Some () ∧ f = Some x.
Proof. destruct (only ks t) as [[]|]; simpl; naive_solver. Qed.

#[export] Hint Rewrite tget_tset tget_tdel tget_in_table tget_set_opt : toml.

Lemma sorted_keys_NoDup {A} (m : gmap string A) : NoDup (sorted_keys m).
Proof. unfold sorted_keys. rewrite merge_sort_Permutation. apply NoDup_fst_map_to_list. Qed.

Lemma mapM_cons {A B} (f : A → option B) x l : mapM f (x :: l) = (y ← f x; ys ← mapM f l; Some (y :: ys)).
Proof. reflexivity. Qed.

Lemma mapM_strings l : mapM as_str (TStr <$> l) = Some l.
Proof. induction l as [|x l IH]; [done|]. by rewrite fmap_cons, mapM_cons, IH. Qed.

Lemma mapM_id {A B} (f : A → B) (g : B → option A) l :
  Forall (fun x => g (f x) = Some x) l → mapM g (f <$> l) = Some l.
Proof. induction 1 as [|x l Hx _ IH]; [done|]. by rewrite fmap_cons, mapM_cons, Hx, IH. Qed.

Lemma read_names_table m : read_names (TTable (names_table m)) = Some m.
Proof.
  unfold read_names, names_table. cbn [as_table mbind option_bind].
  assert (Hk : ∀ k, k ∈ sorted_keys m → is_Some (m !! k)) by (intros k Hk; by apply elem_of_sorted_keys, elem_of_dom in Hk).
  assert (mapM (fun kv : string * item => v ← as_str kv.2; Some (kv.1, v))
    (omap (fun k => v ← m !! k; Some (k, TStr v)) (sorted_keys m)) =
    Some ((fun k => (k, default EmptyString (m !! k))) <$> sorted_keys m)) as ->.
  { induction (sorted_keys m) as [|k l IH]; [done|]. destruct (Hk k) as [v Hv]; [set_solver|].
    rewrite omap_cons_eq, Hv. cbn [mbind option_bind]. rewrite mapM_cons, IH by set_solver.
    rewrite fmap_cons, Hv. done. }
  simpl. f_equal. apply map_eq. intros k. destruct (m !! k) as [v|] eqn:Hv.
  - apply elem_of_list_to_map_1.
    + rewrite <- list_fmap_compose. simpl. rewrite list_fmap_id. apply sorted_keys_NoDup.
    + apply list_elem_of_fmap. exists k. rewrite Hv. split; [done|]. apply elem_of_sorted_keys, elem_of_dom. eauto.
  - apply not_elem_of_list_to_map_1. rewrite <- list_fmap_compose. simpl. rewrite list_fmap_id.
    intros Hin%elem_of_sorted_keys%elem_of_dom. rewrite Hv in Hin. by destruct Hin.
Qed.

Lemma tget_opt_str k k' v t : tget k (opt_str k' v ++ t) = if String.eqb k k' then match v with Some s => Some (TStr s) | None => tget k t end else tget k t.
Proof. destruct v as [s|]; simpl; [|by destruct (String.eqb k k')]. by destruct (String.eqb k k'). Qed.

Lemma read_group_table g : read_group (group_table g) = Some g.
Proof.
  assert (Hn : as_strings (TArr (TStr <$> nodes g)) = Some (nodes g)) by apply mapM_strings.
  pose proof (read_names_table (names g)) as Hr. destruct g as [name client nodes names].
  unfold read_group, group_table, or_default, opt. cbn [sg_name sg_client Config.nodes Config.names] in *.
  destruct name, client; case_bool_decide as Hm; cbn -[read_names as_strings names_table fmap list_fmap];
    rewrite Hn; cbn -[read_names names_table]; rewrite ?Hr; by subst.
Qed.

(** The numbers fit what the file can hold. *)
Definition fits (z : Z) : Prop := 0 ≤ z ≤ i64_max.
Definition target_fits (t : TargetConfig) : Prop :=
  fits (discovery_interval_secs t) ∧ fits (max_connections t) ∧ fits (max_connections_per_address t) ∧ ignore t = [].

Lemma fits_unsigned z : fits z → as_unsigned (TInt (i64_wrap z)) = Some z.
Proof.
  intros [H1 H2]. rewrite i64_wrap_small by (unfold i64_min; lia). simpl. by rewrite (proj2 (Z.leb_le _ _) H1).
Qed.

Section Roundtrip.
Context (parse_socket : string → option SocketAddr).

(** [FromStr] undoes [Display] on the target's address. *)
Definition listen_reads (t : TargetConfig) : Prop := parse_socket (socket_to_string (t_listen t)) = Some (t_listen t).

Lemma read_security_str m : read_security (TStr (MinSecurity_as_str m)) = Some m.
Proof. by destruct m. Qed.

Lemma read_target_table t : target_fits t → listen_reads t → read_target parse_socket (target_table t) = Some t.
Proof.
  unfold listen_reads. intros (H1 & H2 & H3 & H4) Hsock. destruct t as [name listen url interval security max per groups ignore].
  cbn [t_listen discovery_interval_secs max_connections max_connections_per_address Config.ignore] in *. subst ignore.
  assert (Hg : mapM read_group (group_table <$> groups) = Some groups).
  { apply mapM_id, Forall_forall. intros g _. apply read_group_table. }
  apply fits_unsigned in H1, H2, H3. pose proof (read_security_str security) as Hs.
  unfold read_target, target_table, or_default, required.
  cbn [t_name t_listen endpoint_url discovery_interval_secs min_security max_connections max_connections_per_address summarise].
  case_bool_decide as Hsec; destruct (Z.eqb_spec max default_max_connections) as [Hmx|Hmx];
    destruct (Z.eqb_spec per default_max_connections_per_address) as [Hpe|Hpe]; case_bool_decide as Hgr;
    cbn -[as_unsigned read_security mapM fmap list_fmap i64_wrap socket_to_string group_table default_max_connections
          default_max_connections_per_address];
    rewrite Hsock; cbn -[as_unsigned read_security mapM fmap list_fmap i64_wrap group_table default_max_connections
          default_max_connections_per_address];
    rewrite H1; cbn -[as_unsigned read_security mapM fmap list_fmap i64_wrap group_table default_max_connections
          default_max_connections_per_address];
    rewrite ?Hs; cbn -[as_unsigned mapM fmap list_fmap i64_wrap group_table default_max_connections
          default_max_connections_per_address];
    rewrite ?H2; cbn -[as_unsigned mapM fmap list_fmap i64_wrap group_table default_max_connections
          default_max_connections_per_address];
    rewrite ?H3; cbn -[mapM fmap list_fmap group_table default_max_connections
          default_max_connections_per_address];
    rewrite ?Hg; by subst.
Qed.

(** Claim C39. What is written to the configuration file for a
    list of targets reads back as exactly that list, summarise groups and
    display names included, as long as its numbers fit the file's 64-bit
    integers; every other key of the file keeps its item. *)
Theorem targets_roundtrip ts doc :
  Forall target_fits ts → Forall listen_reads ts →
  read_targets parse_socket (put_targets ts doc) = Some ts ∧
  ∀ k, k ≠ "targets" → tget k (put_targets ts doc) = tget k doc.
Proof.
  intros Hts Hls. split.
  - unfold read_targets, or_default, put_targets. destruct ts as [|t ts].
    + by rewrite tget_tdel.
    + rewrite tget_tset, String.eqb_refl. cbn [as_tables mbind option_bind]. apply mapM_id.
      rewrite Forall_forall in *. intros x Hx. apply read_target_table; auto.
  - intros k Hk. unfold put_targets. apply String.eqb_neq in Hk. destruct ts; rewrite ?tget_tset, ?tget_tdel; by rewrite Hk.
Qed.
End Roundtrip.

(** *** Settings *)
Definition no_inline (k : string) (doc : toml) : Prop := ∀ t, tget k doc = Some t → ∃ t', t = TTable t'.
Definition section (k : string) (doc : toml) : toml := match tget k doc with Some (TTable t) => t | _ => [] end.
Definition managed : list string := ["gateway"; "audit"; "export"; "mcp"].
Definition managed_audit : list string := ["retention_days"; "fail_mode"; "record_old_value"; "ignored_summary_secs"].

Definition questdb_fits (q : QuestDbConfig) : Prop := fits (interval_secs q).

Lemma drop_syslog_get k doc :
  k ≠ "export" → tget k (drop_syslog doc) = tget k doc.
Proof.
  intros Hk%String.eqb_neq. unfold drop_syslog. autorewrite with toml. simpl.
  destruct (tdel "syslog" _); [|autorewrite with toml; by rewrite Hk].
  autorewrite with toml. by rewrite Hk.
Qed.

Lemma drop_syslog_export doc :
  match tget "export" doc with Some (TTable _) => True | _ => False end →
  section "export" (drop_syslog doc) = tdel "syslog" (section "export" doc).
Proof.
  unfold drop_syslog, section. autorewrite with toml. simpl. destruct (tget "export" doc) as [[]|] eqn:Hx; try done. intros _.
  destruct (tdel "syslog" t) as [|kv t'] eqn:E; autorewrite with toml; simpl; rewrite ?Hx; by rewrite ?E.
Qed.

Lemma put_mcp_get m k doc : k ≠ "mcp" → tget k (put_mcp m doc) = tget k doc.
Proof. intros Hk%String.eqb_neq. unfold put_mcp. destruct (_ || _); [|done]. autorewrite with toml. by rewrite Hk. Qed.

(** The sections [put_settings] leaves. *)
Lemma settings_section c doc k :
  tget k (put_settings c doc) =
    if String.eqb k "export" then tget "export" (put_settings c doc)
    else if String.eqb k "mcp" then tget "mcp" (put_mcp (mcp c) doc)
    else if String.eqb k "audit" then Some (TTable (put_audit (audit c) (section "audit" doc)))
    else if String.eqb k "gateway" then Some (TTable (put_gateway (certificate_hostnames (gateway c)) (section "gateway" doc)))
    else tget k doc.
Proof.
  destruct (String.eqb_spec k "export") as [->|He]; [done|]. unfold put_settings. rewrite drop_syslog_get by done.
  destruct (String.eqb_spec k "mcp") as [->|Hm].
  { unfold put_mcp, has_key. autorewrite with toml. simpl. destruct (_ || _); autorewrite with toml; done. }
  rewrite put_mcp_get by done. autorewrite with toml.
  destruct (String.eqb_spec k "audit") as [->|Ha]; simpl; [by autorewrite with toml|].
  destruct (String.eqb_spec k "gateway") as [->|Hg]; simpl; [by autorewrite with toml|].
  apply String.eqb_neq in He. by rewrite He.
Qed.

(** A section as reading sees it. *)
Definition read_section (k : string) (doc : toml) : toml := default [] (tget k doc ≫= as_table).

Lemma read_section_table k doc : no_inline k doc → read_section k doc = section k doc.
Proof.
  unfold read_section, section, no_inline. destruct (tget k doc) as [t|]; [|done].
  intros Hn. destruct (Hn t eq_refl) as [t' ->]. done.
Qed.

Lemma drop_syslog_at_export doc :
  tget "export" (drop_syslog doc) =
    match tdel "syslog" (section "export" doc) with [] => None | t => Some (TTable t) end.
Proof.
  unfold drop_syslog. rewrite !tget_in_table. simpl. fold (section "export" doc).
  destruct (tdel "syslog" (section "export" doc)) as [|kv t] eqn:E; [by rewrite tget_tdel|].
  rewrite tget_in_table. simpl. fold (section "export" doc). by rewrite E.
Qed.

Lemma settings_export c doc :
  tget "export" (put_settings c doc) =
    match tdel "syslog" (put_export (export c) (section "export" doc)) with [] => None | t => Some (TTable t) end.
Proof.
  unfold put_settings. rewrite drop_syslog_at_export. unfold section at 1. rewrite put_mcp_get by done.
  rewrite tget_in_table. cbn [String.eqb Ascii.eqb Bool.eqb]. unfold section. rewrite !tget_in_table. done.
Qed.

Ltac in_keys := unfold questdb_keys, audit_keys; rewrite !elem_of_cons; tauto.

Lemma section_only ks k doc t : or_default [] as_table k doc = Some t → only ks t = Some () → only ks (section k doc) = Some ().
Proof. unfold or_default, section. destruct (tget k doc) as [[]|]; try done. by intros [= ->]. Qed.

Lemma put_questdb_only q t : only questdb_keys t = Some () → only questdb_keys (put_questdb q t) = Some ().
Proof.
  intros Ht. unfold put_questdb. repeat first [apply only_tset; [in_keys|] | apply only_set_opt; [in_keys|]]. done.
Qed.

Lemma put_audit_only a t : only audit_keys t = Some () → only audit_keys (put_audit a t) = Some ().
Proof. intros Ht. unfold put_audit. repeat (apply only_tset; [in_keys|]). done. Qed.

Lemma put_export_only e t :
  only ["questdb"; "syslog"] t = Some () → only ["questdb"; "syslog"] (put_export e t) = Some ().
Proof. unfold put_export. destruct (questdb e); [|apply only_tdel]. apply only_tset. in_keys. Qed.

Lemma put_questdb_read q t : questdb_fits q → only questdb_keys t = Some () → read_questdb (put_questdb q t) = Some q.
Proof.
  intros Hf%fits_unsigned Ht%(put_questdb_only q). unfold read_questdb. rewrite Ht. cbn [mbind option_bind]. unfold put_questdb, required, or_default, opt. autorewrite with toml.
  cbn -[as_unsigned i64_wrap]. destruct q as [u ca tb tk us pw iv]. cbn -[as_unsigned i64_wrap] in *.
  destruct ca, tk, us, pw; cbn -[as_unsigned i64_wrap]; by rewrite Hf.
Qed.

Lemma put_export_read e t :
  (∀ q, questdb e = Some q → questdb_fits q) →
  is_Some (or_default None (opt (fun i => as_table i ≫= read_questdb)) "questdb" t) →
  or_default None (opt (fun i => as_table i ≫= read_questdb)) "questdb" (put_export e t) = Some (questdb e).
Proof.
  intros Hq Hold. unfold put_export. destruct (questdb e) as [q|]; unfold or_default in *; autorewrite with toml; [|done].
  simpl. unfold opt. cbn [as_table mbind option_bind]. rewrite put_questdb_read; [done|by apply Hq|].
  destruct (tget "questdb" t) as [[| | | |t0| |]|]; try done. destruct Hold as [o Ho]. unfold opt in Ho. cbn [as_table mbind option_bind] in Ho.
  destruct (read_questdb t0) as [q0|] eqn:Hr; [|done]. unfold read_questdb in Hr. by apply only_bind in Hr as [? _].
Qed.

Definition settings_fit (c : Config) : Prop :=
  0 ≤ cfg_retention_days (audit c) < 2 ^ 32 ∧ fits (ignored_summary_secs (audit c)) ∧
  ∀ q, questdb (export c) = Some q → questdb_fits q.

Lemma as_u32_fits z : 0 ≤ z < 2 ^ 32 → as_u32 (TInt z) = Some z.
Proof.
  intros [H1 H2]. unfold as_u32. simpl. rewrite (proj2 (Z.leb_le _ _) H1). simpl. by rewrite (proj2 (Z.ltb_lt _ _) H2).
Qed.

Lemma read_audit_put a a0 doc doc' :
  0 ≤ cfg_retention_days a < 2 ^ 32 → fits (ignored_summary_secs a) →
  no_inline "audit" doc → read_audit doc = Some a0 →
  tget "audit" doc' = Some (TTable (put_audit a (section "audit" doc))) →
  read_audit doc' =
    Some (mkAuditConfig (database a0) (cfg_retention_days a) (cfg_fail_mode a) (cfg_record_old_value a) (ignored_summary_secs a)).
Proof.
  intros Hd%as_u32_fits Hs%fits_unsigned Hi Hold Hg. unfold read_audit in Hold.
  destruct (or_default [] as_table "audit" doc) as [t|] eqn:Ht; [|done]. cbn [mbind option_bind] in Hold.
  apply only_bind in Hold as [Hok Hold].
  assert (Hsec : section "audit" doc = t).
  { unfold section, or_default, no_inline in *. destruct (tget "audit" doc) as [i|]; [|congruence].
    destruct (Hi i eq_refl) as [t' ->]. by injection Ht. }
  rewrite Hsec in Hg. unfold read_audit. rewrite (or_default_Some _ _ _ _ _ Hg). cbn [as_table mbind option_bind].
  rewrite put_audit_only by done. cbn [mbind option_bind].
  unfold put_audit, or_default. autorewrite with toml. cbn -[as_unsigned as_u32 i64_wrap or_default].
  change (match tget "database" t with Some i => opt as_str i | None => Some None end) with (or_default None (opt as_str) "database" t).
  destruct (or_default None (opt as_str) "database" t) as [d|]; [|done]. cbn [mbind option_bind] in Hold |- *.
  rewrite Hd. cbn -[as_unsigned i64_wrap]. rewrite Hs.
  repeat match type of Hold with context [mbind _ ?x] => destruct x; [cbn [mbind option_bind] in Hold|done] end.
  injection Hold as <-. by destruct (cfg_fail_mode a).
Qed.

Lemma read_export_put c doc :
  settings_fit c → is_Some (read_export doc) → read_export (put_settings c doc) = Some (questdb (export c)).
Proof.
  intros (_ & _ & Hq) [q0 Hold]. unfold read_export in Hold.
  destruct (or_default [] as_table "export" doc) as [t0|] eqn:Ht0; [|done]. cbn [mbind option_bind] in Hold.
  apply only_bind in Hold as [Hok Hold].
  pose proof (put_export_only (export c) _ (section_only _ _ _ _ Ht0 Hok)) as Hput.
  assert (Hread : or_default None (opt (fun i => as_table i ≫= read_questdb)) "questdb" (put_export (export c) (section "export" doc)) =
                  Some (questdb (export c))).
  { apply put_export_read; [done|]. unfold section. unfold or_default at 1 in Ht0.
    destruct (tget "export" doc) as [[]|]; try (by eexists). injection Ht0 as ->. by eexists. }
  assert (Hget : tget "questdb" (tdel "syslog" (put_export (export c) (section "export" doc))) =
    tget "questdb" (put_export (export c) (section "export" doc))) by by rewrite tget_tdel.
  apply (only_tdel _ "syslog") in Hput. unfold or_default in Hread. rewrite <- Hget in Hread. pose proof (settings_export c doc) as Hset.
  destruct (tdel "syslog" _) as [|kv t]; unfold read_export.
  - rewrite (or_default_None _ _ _ _ Hset). simpl in *. by injection Hread as <-.
  - rewrite (or_default_Some _ _ _ _ _ Hset). cbn [as_table mbind option_bind]. by rewrite Hput.
Qed.

Lemma read_mcp_put c doc : is_Some (read_mcp doc) → read_mcp (put_settings c doc) = Some (enabled (mcp c)).
Proof.
  intros [b Hold]. unfold read_mcp in Hold.
  destruct (or_default [] as_table "mcp" doc) as [t0|] eqn:Ht0; [|done]. cbn [mbind option_bind] in Hold.
  apply only_bind in Hold as [Hok Hold]. pose proof (section_only _ _ _ _ Ht0 Hok) as Hsec.
  pose proof (settings_section c doc "mcp") as Hset. cbn [String.eqb Ascii.eqb Bool.eqb] in Hset. unfold put_mcp in Hset.
  unfold read_mcp. destruct (enabled (mcp c) || has_key "mcp" doc) eqn:He.
  - rewrite tget_in_table in Hset. cbn [String.eqb Ascii.eqb Bool.eqb] in Hset. fold (section "mcp" doc) in Hset.
    rewrite (or_default_Some _ _ _ _ _ Hset). cbn [as_table mbind option_bind].
    rewrite only_tdel by (apply only_tset; [rewrite !elem_of_cons; tauto|done]).
    cbn [mbind option_bind]. unfold or_default. by autorewrite with toml.
  - apply orb_false_iff in He as [-> Hk]. unfold has_key in Hk. apply bool_decide_eq_false in Hk.
    destruct (tget "mcp" doc); [by destruct Hk|]. by rewrite (or_default_None _ _ _ _ Hset).
Qed.

(** Saving the settings over a file that loads
    writes what loading finds again: the certificate host names, the audit
    settings, the QuestDB destination with its credentials and whether MCP is
    enabled; the file's audit database, every other section and every other key
    of the sections [gateway] and [audit] stay, where these two are tables. *)
Theorem settings_roundtrip c doc a0 :
  settings_fit c → no_inline "gateway" doc → no_inline "audit" doc →
  read_audit doc = Some a0 → is_Some (read_export doc) → is_Some (read_mcp doc) →
  let new := put_settings c doc in let a := audit c in
  read_hostnames new = Some (certificate_hostnames (gateway c)) ∧
  read_audit new =
    Some (mkAuditConfig (database a0) (cfg_retention_days a) (cfg_fail_mode a) (cfg_record_old_value a)
            (ignored_summary_secs a)) ∧
  read_export new = Some (questdb (export c)) ∧
  read_mcp new = Some (enabled (mcp c)) ∧
  (∀ k, k ∉ managed → tget k new = tget k doc) ∧
  (∀ k, k ≠ "certificate_hostnames" → tget k (read_section "gateway" new) = tget k (read_section "gateway" doc)) ∧
  (∀ k, k ∉ managed_audit → tget k (read_section "audit" new) = tget k (read_section "audit" doc)).
Proof.
  intros (Hd & Hs & Hq) Hg Ha Hold Hex Hmcp new a.
  rewrite (read_section_table _ _ Hg), (read_section_table _ _ Ha) in *.
  assert (Hag : tget "gateway" new = Some (TTable (put_gateway (certificate_hostnames (gateway c)) (section "gateway" doc))))
    by (unfold new; by rewrite settings_section).
  assert (Haa : tget "audit" new = Some (TTable (put_audit a (section "audit" doc))))
    by (unfold new; by rewrite settings_section).
  split_and!.
  - unfold read_hostnames, or_default. rewrite Hag. cbn [as_table mbind option_bind]. unfold put_gateway.
    destruct (certificate_hostnames (gateway c)) as [|h hs]; autorewrite with toml; [done|]. apply (mapM_strings (h :: hs)).
  - by apply (read_audit_put a a0 doc).
  - by apply read_export_put.
  - by apply read_mcp_put.
  - intros k Hk. unfold new. rewrite settings_section. unfold managed in Hk.
    destruct (String.eqb_spec k "export"), (String.eqb_spec k "mcp"), (String.eqb_spec k "audit"), (String.eqb_spec k "gateway");
      subst; try done; exfalso; apply Hk; set_solver.
  - intros k Hk%String.eqb_neq. unfold read_section. rewrite Hag. simpl. unfold put_gateway.
    destruct (certificate_hostnames (gateway c)); autorewrite with toml; by rewrite Hk.
  - intros k Hk. unfold read_section. rewrite Haa. simpl. unfold put_audit. autorewrite with toml. unfold managed_audit in Hk.
    destruct (String.eqb_spec k "ignored_summary_secs"), (String.eqb_spec k "record_old_value"),
      (String.eqb_spec k "fail_mode"), (String.eqb_spec k "retention_days"); subst; try done; exfalso; apply Hk; set_solver.
Qed.

Section ConfigFileWitnesses.
Import ToyNodes.

Definition one_address : SocketAddr := mkSocketAddr (V4 0) 4841.
(** A reader that knows one address. *)
Definition parse_one (s : string) : option SocketAddr :=
  if String.eqb s "0.0.0.0:4841" then Some one_address else None.
Definition plc_target : TargetConfig :=
  mkTargetConfig "plc" one_address "opc.tcp://plc:4840" 60 Sign 50 3
    [mkSummariseGroup (Some "HMI") None ["ns=3;s=Life"] {["ns=3;s=Life" := "Life bit"]}] [].

Lemma targets_roundtrip_witness :
  read_targets parse_one (put_targets [plc_target] [("web", TInline [])]) = Some [plc_target] ∧
  tget "web" (put_targets [plc_target] [("web", TInline [])]) = Some (TInline []).
Proof.
  destruct (targets_roundtrip parse_one [plc_target] [("web", TInline [])]) as [H1 H2].
  - apply Forall_singleton. unfold target_fits, fits. vm_compute. repeat split; discriminate.
  - apply Forall_singleton. vm_compute. reflexivity.
  - split; [exact H1|]. rewrite H2 by discriminate. reflexivity.
Defined.

Definition with_export : Config :=
  mkConfig default_gateway default_web (mkAuditConfig None 90 Closed false 60)
    (mkExportConfig (Some (mkQuestDbConfig "http://db:9000" None "audit" (Some "secret") None None 5)) None)
    (mkMcpConfig true []) [] [].
Definition a_file : toml := [("audit", TTable [("database", TStr "/data/a.db"); ("retention_days", TInt 365)]); ("web", TTable [])].

Lemma settings_roundtrip_witness :
  read_audit (put_settings with_export a_file) = Some (mkAuditConfig (Some "/data/a.db") 90 Closed false 60) ∧
  read_export (put_settings with_export a_file) = Some (questdb (export with_export)).
Proof.
  destruct (settings_roundtrip with_export a_file (mkAuditConfig (Some "/data/a.db") 365 Open true 3600)) as (_ & Ha & He & _).
  - split; [by vm_compute|]. split; [by vm_compute|]. intros q [= <-]. by vm_compute.
  - intros t [=].
  - intros t [= <-]. eexists. reflexivity.
  - reflexivity.
  - eexists. reflexivity.
  - eexists. reflexivity.
  - split; [exact Ha|exact He].
Defined.

(** A file with inline tables: the sections the settings are written to are
    replaced, and what else they held is gone. *)
Definition inline_file : toml := [("gateway", TInline [("application_name", TStr "Line 1"); ("pki_dir", TStr "/pki")])].
Example inline_section_lost :
  tget "pki_dir" (read_section "gateway" inline_file) = Some (TStr "/pki") ∧
  tget "pki_dir" (read_section "gateway" (put_settings default_config inline_file)) = None.
Proof. split; reflexivity. Qed.

(** A number above the 64-bit integers of the file is valid, but is written as
    a negative number, which does not read. *)
Definition big_interval : TargetConfig :=
  mkTargetConfig "plc" one_address "opc.tcp://plc:4840" (2 ^ 63) SecNone 50 10 [] [].
Example big_interval_unreadable :
  validate (mkConfig default_gateway default_web default_audit (mkExportConfig None None) (mkMcpConfig false []) [big_interval] []) = Ok () ∧
  ∀ parse, read_targets parse (put_targets [big_interval] []) = None.
Proof.
  split; [vm_compute; reflexivity|]. intros parse. unfold read_targets, or_default. simpl.
  unfold read_target, required. simpl. destruct (parse _); reflexivity.
Qed.
End ConfigFileWitnesses.
