(* ===== verification/Targets.v ===== *)
(** Running the configured targets and changing them ([TargetManager] in
    [src/src/targets.rs]).

    The state is what the manager keeps behind its locks, and the configuration
    file; a change holds the lock on the configuration from its first to its
    last line, so it is a function. Loading the gateway's certificate and
    binding a port, and writing the file, answer from outside. *)

From S2P Require Import Prelude Net Config Discovery ConfigFile Opc.

Section Targets.
Context `{Opc}.

(** A running target: the configuration it was started with, and the summarise
    groups it applies now ([RelayTarget::config] and [summarise]). *)
Record Running : Type := mkRunning {
  r_config : TargetConfig;
  r_groups : list SummariseGroup;
}.

Record Manager : Type := mkManager {
  config : Config;
  running : gmap string Running;
  statuses : gmap string TargetStatus;
  (** the file's document, or why it cannot be read *)
  file : result string toml;
}.

Inductive TargetError : Type :=
| UnknownTarget (name : string)
| Invalid (e : ConfigError)
| CannotStart (e : string)
| CannotWrite (e : string).

(** What one operation meets: each start of a target, and the write. *)
Record Outside : Type := mkOutside {
  o_start : TargetConfig → result string unit;
  (** the old target started again *)
  o_restart : TargetConfig → result string unit;
  o_write : result string unit;
}.

(** [write_targets], [write_settings]: read, change, write. *)
Definition write_file (o : Outside) (change : toml → toml) (f : result string toml)
    : result TargetError unit * result string toml :=
  match f with
  | Err e => (Err (CannotWrite e), f)
  | Ok doc =>
      match o_write o with
      | Ok _ => (Ok (), Ok (change doc))
      | Err e => (Err (CannotWrite e), f)
      end
  end.

Definition set_running (r : gmap string Running) (m : Manager) : Manager :=
  mkManager (config m) r (statuses m) (file m).
Definition set_statuses (s : gmap string TargetStatus) (m : Manager) : Manager :=
  mkManager (config m) (running m) s (file m).
Definition set_config (c : Config) (m : Manager) : Manager :=
  mkManager c (running m) (statuses m) (file m).
Definition set_file (f : result string toml) (m : Manager) : Manager :=
  mkManager (config m) (running m) (statuses m) f.

Definition with_targets (ts : list TargetConfig) (c : Config) : Config :=
  mkConfig (gateway c) (web c) (audit c) (export c) (mcp c) ts (load_fixes c).

(** [start]: the status appears with the target; the caller keeps it. *)
Definition start (answer : TargetConfig → result string unit) (t : TargetConfig) (m : Manager)
    : result TargetError Running * Manager :=
  match answer t with
  | Err e => (Err (CannotStart e), m)
  | Ok _ => (Ok (mkRunning t (summarise t)), set_statuses (<[t_name t := new_status t]> (statuses m)) m)
  end.

(** [start_all]: one that cannot start does not stop the others. *)
Definition start_all (o : Outside) (m : Manager) : Manager :=
  foldl (fun m t =>
    match start (o_start o) t m with
    | (Ok r, m) => set_running (<[t_name t := r]> (running m)) m
    | (Err _, m) => m
    end) m (targets (config m)).

Definition stop_all (m : Manager) : Manager := set_running ∅ m.
Definition restart_all (o : Outside) (m : Manager) : Manager := start_all o (stop_all m).

(** The first target with the name is replaced. *)
Fixpoint replace_target (old : string) (t : TargetConfig) (ts : list TargetConfig) : option (list TargetConfig) :=
  match ts with
  | [] => None
  | t' :: ts => if String.eqb (t_name t') old then Some (t :: ts) else (t' ::.) <$> replace_target old t ts
  end.

Definition changed_targets (t : TargetConfig) (replaces : option string) (ts : list TargetConfig)
    : result TargetError (list TargetConfig) :=
  match replaces with
  | Some old => of_option (UnknownTarget old) (replace_target old t ts)
  | None => Ok (ts ++ [t])
  end.

Definition valid (c : Config) : result TargetError unit :=
  match validate c with Ok _ => Ok () | Err e => Err (Invalid e) end.

(** The old instance is stopped first, as it may hold the same port. *)
Definition take_old (replaces : option string) (m : Manager) : option TargetConfig * Manager :=
  match replaces ≫= (fun name => r ← running m !! name; Some (name, r)) with
  | Some (name, r) =>
      (Some (r_config r),
       set_statuses (base.delete (t_name (r_config r)) (statuses m)) (set_running (base.delete name (running m)) m))
  | None => (None, m)
  end.

(** The new one runs and is saved, or it is stopped again. *)
Definition try_new (o : Outside) (t : TargetConfig) (c : Config) (m : Manager)
    : result TargetError unit * Manager :=
  match start (o_start o) t m with
  | (Err e, m) => (Err e, m)
  | (Ok r, m) =>
      match write_file o (put_targets (targets c)) (file m) with
      | (Ok _, f) => (Ok (), set_config c (set_running (<[t_name t := r]> (running m)) (set_file f m)))
      | (Err e, f) => (Err e, set_statuses (base.delete (t_name t) (statuses m)) (set_file f m))
      end
  end.

Definition put_back (o : Outside) (old : option TargetConfig) (m : Manager) : Manager :=
  match old with
  | None => m
  | Some t =>
      match start (o_restart o) t m with
      | (Ok r, m) => set_running (<[t_name t := r]> (running m)) m
      | (Err _, m) => m
      end
  end.

(** Adds a target, or replaces the one called [replaces]. *)
Definition upsert (o : Outside) (t : TargetConfig) (replaces : option string) (m : Manager)
    : result TargetError unit * Manager :=
  match (ts ← changed_targets t replaces (targets (config m));
         let c := with_targets ts (config m) in _ ← valid c; Ok c) with
  | Err e => (Err e, m)
  | Ok c =>
      let (old, m) := take_old replaces m in
      match try_new o t c m with
      | (Ok _, m) => (Ok (), m)
      | (Err e, m) => (Err e, put_back o old m)
      end
  end.

(** The first target with the name, and the others around it. *)
Fixpoint update_target {E A} (name : string) (f : TargetConfig → result E (A * TargetConfig)) (ts : list TargetConfig)
    : option (result E (A * list TargetConfig)) :=
  match ts with
  | [] => None
  | t :: ts =>
      if String.eqb (t_name t) name then
        Some (r ← f t; Ok (r.1, r.2 :: ts))
      else
        r ← update_target name f ts;
        Some (r ← r; Ok (r.1, t :: r.2))
  end.

Definition set_groups {E A} (change : list SummariseGroup → result E (A * list SummariseGroup))
    (t : TargetConfig) : result E (A * TargetConfig) :=
  r ← change (summarise t); Ok (r.1, with_summarise t r.2).

(** Changes a target's summarise groups, in the running target as well;
    [change] has errors of its own ([E: From<anyhow::Error>]). *)
Definition update_summarise {E A} (o : Outside) (from : TargetError → E) (name : string)
    (change : list SummariseGroup → result E (A * list SummariseGroup)) (m : Manager)
    : result E A * Manager :=
  match update_target name (set_groups change) (targets (config m)) with
  | None => (Err (from (UnknownTarget name)), m)
  | Some (Err e) => (Err e, m)
  | Some (Ok (out, ts)) =>
      let c := with_targets ts (config m) in
      match valid c with
      | Err e => (Err (from e), m)
      | Ok _ =>
          match write_file o (put_targets ts) (file m) with
          | (Err e, f) => (Err (from e), set_file f m)
          | (Ok _, f) =>
              let groups := default [] (summarise <$> List.find (fun t => String.eqb (t_name t) name) ts) in
              (Ok out,
               set_config c (set_running (alter (fun r => mkRunning (r_config r) groups) name (running m)) (set_file f m)))
          end
      end
  end.

Definition remove (o : Outside) (name : string) (m : Manager) : result TargetError unit * Manager :=
  if negb (existsb (fun t => String.eqb (t_name t) name) (targets (config m))) then (Err (UnknownTarget name), m)
  else
    let ts := List.filter (fun t => negb (String.eqb (t_name t) name)) (targets (config m)) in
    match write_file o (put_targets ts) (file m) with
    | (Err e, f) => (Err e, set_file f m)
    | (Ok _, f) =>
        (Ok (), mkManager (with_targets ts (config m)) (base.delete name (running m)) (base.delete name (statuses m)) f)
    end.

(** Settings outside the targets; the configurations before and after. *)
Definition update_settings (o : Outside) (change : Config → Config) (m : Manager)
    : result TargetError (Config * Config) * Manager :=
  let c := change (config m) in
  match valid c with
  | Err e => (Err e, m)
  | Ok _ =>
      match write_file o (put_settings c) (file m) with
      | (Err e, f) => (Err e, set_file f m)
      | (Ok _, f) => (Ok (config m, c), set_config c (set_file f m))
      end
  end.
End Targets.

(** ** The abstract manager

    A change either becomes the configuration and the file, together, or
    neither changes. *)
Section Spec.
Context `{Opc}.

Inductive Change : Type :=
| Upsert (t : TargetConfig) (replaces : option string)
| Remove (name : string)
(** [None]: refused by the caller's change *)
| Groups (name : string) (f : list SummariseGroup → option (list SummariseGroup))
| Settings (f : Config → Config).

Definition apply (o : Outside) (ch : Change) (m : Manager) : bool * Manager :=
  match ch with
  | Upsert t replaces => let (r, m) := upsert o t replaces m in (is_Ok r, m)
  | Remove name => let (r, m) := remove o name m in (is_Ok r, m)
  | Groups name f =>
      let (r, m) := update_summarise o Some name (fun gs => match f gs with Some gs => Ok ((), gs) | None => Err None end) m in
      (is_Ok r, m)
  | Settings f => let (r, m) := update_settings o f m in (is_Ok r, m)
  end.

Definition named (name : string) (t : TargetConfig) : bool := String.eqb (t_name t) name.

(** What a change means for the configuration, whose names are unique. *)
Definition intended (ch : Change) (c : Config) : option Config :=
  match ch with
  | Upsert t None => Some (with_targets (targets c ++ [t]) c)
  | Upsert t (Some old) =>
      if existsb (named old) (targets c)
      then Some (with_targets ((fun t' => if named old t' then t else t') <$> targets c) c) else None
  | Remove name =>
      if existsb (named name) (targets c)
      then Some (with_targets (List.filter (fun t => negb (named name t)) (targets c)) c) else None
  | Groups name f =>
      t ← List.find (named name) (targets c);
      gs ← f (summarise t);
      Some (with_targets ((fun t' => if named name t' then with_summarise t gs else t') <$> targets c) c)
  | Settings f => Some (f c)
  end.

(** What the file becomes. *)
Definition saved (ch : Change) (c : Config) : toml → toml :=
  match ch with Settings _ => put_settings c | _ => put_targets (targets c) end.

(** What the change needs from outside. *)
Definition allowed (o : Outside) (ch : Change) : bool :=
  match ch with Upsert t _ => is_Ok (o_start o t) | _ => true end && is_Ok (o_write o).

(** The configuration and the file after the change, when it counts. *)
Definition performed (o : Outside) (ch : Change) (c : Config) (f : result string toml)
    : option (Config * toml) :=
  c' ← intended ch c;
  if is_Ok (validate c') && allowed o ch then
    match f with Ok doc => Some (c', saved ch c' doc) | Err _ => None end
  else None.

Definition outcome (o : Outside) (ch : Change) (ok : bool) (m m' : Manager) : Prop :=
  match performed o ch (config m) (file m) with
  | Some (c, doc) => ok = true ∧ config m' = c ∧ file m' = Ok doc
  | None => ok = false ∧ config m' = config m ∧ file m' = file m
  end.

Lemma write_file_cases o change f :
  (∃ doc, f = Ok doc ∧ is_Ok (o_write o) = true ∧ write_file o change f = (Ok (), Ok (change doc))) ∨
  (∃ e, write_file o change f = (Err e, f) ∧ (is_Ok (o_write o) = true → ∃ e', f = Err e')).
Proof.
  unfold write_file. destruct f as [doc|e]; [destruct (o_write o) as [[]|e]|]; simpl; [left; by eauto|right..];
    (eexists; split; [done|]); [done|by eauto].
Qed.

Lemma valid_is_Ok c : is_Ok (valid c) = is_Ok (validate c).
Proof. unfold valid. by destruct (validate c). Qed.

(** With unique names the first target of a name is the only one. *)
Lemma replace_target_map old t ts ts' :
  NoDup (t_name <$> ts) → replace_target old t ts = Some ts' →
  existsb (named old) ts = true ∧ ts' = (fun t' => if named old t' then t else t') <$> ts.
Proof.
  revert ts'. induction ts as [|t1 ts IH]; intros ts' Hn; simpl; [done|]. rewrite fmap_cons in Hn.
  apply NoDup_cons in Hn as [Hn1 Hn]. unfold named at 1 3. destruct (String.eqb_spec (t_name t1) old) as [He|He].
  - intros [= <-]. split; [done|]. f_equal. rewrite <- (list_fmap_id ts) at 1. apply list_fmap_ext. intros i x Hx.
    unfold named. destruct (String.eqb_spec (t_name x) old) as [Hx'|]; [|done]. exfalso. apply Hn1. rewrite He, <- Hx'.
    apply list_elem_of_fmap. exists x. split; [done|by eapply list_elem_of_lookup_2].
  - destruct (replace_target old t ts) as [ts1|]; [|done]. intros [= <-]. destruct (IH ts1 Hn eq_refl) as [Hex ->].
    simpl. by rewrite Hex.
Qed.

Lemma replace_target_in old t ts ts' : replace_target old t ts = Some ts' → t ∈ ts'.
Proof.
  revert ts'. induction ts as [|t1 ts IH]; intros ts'; simpl; [done|].
  destruct (String.eqb (t_name t1) old); [intros [= <-]; by left|].
  destruct (replace_target old t ts) as [ts1|]; [|done]. intros [= <-]. right. by apply IH.
Qed.

Lemma replace_target_None old t ts : replace_target old t ts = None → existsb (named old) ts = false.
Proof.
  induction ts as [|t1 ts IH]; simpl; [done|]. unfold named at 1. destruct (String.eqb (t_name t1) old); [done|].
  destruct (replace_target old t ts); [done|]. intros _. by apply IH.
Qed.

Lemma update_target_map {E A} name (f : TargetConfig → result E (A * TargetConfig)) ts r :
  NoDup (t_name <$> ts) → update_target name f ts = Some r →
  ∃ t, List.find (named name) ts = Some t ∧
    r = (x ← f t; Ok (x.1, (fun t' => if named name t' then x.2 else t') <$> ts)).
Proof.
  revert r. induction ts as [|t1 ts IH]; intros r Hn; simpl; [done|]. rewrite fmap_cons in Hn.
  apply NoDup_cons in Hn as [Hn1 Hn]. unfold named at 1. destruct (String.eqb_spec (t_name t1) name) as [He|He].
  - intros [= <-]. exists t1. split; [done|]. destruct (f t1) as [[a t']|e]; [|done]. simpl. do 2 f_equal.
    unfold named at 1. rewrite He, String.eqb_refl. f_equal.
    rewrite <- (list_fmap_id ts) at 1. apply list_fmap_ext. intros i x Hx.
    unfold named. destruct (String.eqb_spec (t_name x) name) as [Hx'|]; [|done]. exfalso. apply Hn1. rewrite He, <- Hx'.
    apply list_elem_of_fmap. exists x. split; [done|by eapply list_elem_of_lookup_2].
  - destruct (update_target name f ts) as [r1|]; [|done]. intros [= <-].
    destruct (IH r1 Hn eq_refl) as (t & Hf & ->). exists t. split; [done|]. destruct (f t) as [[a t']|e]; [|done]. simpl.
    unfold named at 2. apply String.eqb_neq in He. by rewrite He.
Qed.

Lemma update_target_None {E A} name (f : TargetConfig → result E (A * TargetConfig)) ts :
  update_target name f ts = None → List.find (named name) ts = None.
Proof.
  induction ts as [|t ts IH]; simpl; [done|]. unfold named at 1. destruct (String.eqb (t_name t) name); [done|].
  destruct (update_target name f ts); [done|]. intros _. by apply IH.
Qed.

Lemma put_back_config o old m : config (put_back o old m) = config m ∧ file (put_back o old m) = file m.
Proof. unfold put_back, start. destruct old as [t|]; [|done]. by destruct (o_restart o t). Qed.

Lemma take_old_config replaces m : config (take_old replaces m).2 = config m ∧ file (take_old replaces m).2 = file m.
Proof. unfold take_old. by destruct (replaces ≫= _) as [[name r]|]. Qed.

Lemma try_new_outcome o t c m :
  let m' := (try_new o t c m).2 in
  (∃ doc, file m = Ok doc ∧ is_Ok (o_start o t) && is_Ok (o_write o) = true ∧ (try_new o t c m).1 = Ok () ∧
     m' = mkManager c (<[t_name t := mkRunning t (summarise t)]> (running m))
            (<[t_name t := new_status t]> (statuses m)) (Ok (put_targets (targets c) doc))) ∨
  (is_Ok (try_new o t c m).1 = false ∧ config m' = config m ∧ file m' = file m ∧ running m' = running m ∧
     (∀ n, n ≠ t_name t → statuses m' !! n = statuses m !! n) ∧
     (is_Ok (o_start o t) && is_Ok (o_write o) = true → ∃ e, file m = Err e)).
Proof.
  unfold try_new, start. destruct (o_start o t) as [u|e]; simpl; [|by right].
  destruct (write_file_cases o (put_targets (targets c)) (file m)) as [(doc & Hd & Hw & ->)|(e & -> & Hw)]; simpl.
  - left. exists doc. split_and!; try done.
  - right. split_and!; try done. intros n Hn. by rewrite lookup_delete_ne, lookup_insert_ne.
Qed.

Lemma changed_targets_intended t replaces ts c :
  NoDup (t_name <$> targets c) → changed_targets t replaces (targets c) = ts →
  intended (Upsert t replaces) c = match ts with Ok ts => Some (with_targets ts c) | Err _ => None end.
Proof.
  intros Hn <-. destruct replaces as [old|]; simpl; [|done]. destruct (replace_target old t (targets c)) as [ts|] eqn:Hr; simpl.
  - by destruct (replace_target_map _ _ _ _ Hn Hr) as [-> ->].
  - by rewrite (replace_target_None _ _ _ Hr).
Qed.

Lemma upsert_outcome o t replaces m :
  NoDup (t_name <$> targets (config m)) → outcome o (Upsert t replaces) (is_Ok (upsert o t replaces m).1) m (upsert o t replaces m).2.
Proof.
  intros Hn. unfold outcome, performed, upsert. rewrite (changed_targets_intended t replaces _ _ Hn eq_refl).
  destruct (changed_targets t replaces (targets (config m))) as [ts|e]; [|done].
  cbn [mbind result_bind option_bind]. rewrite <- valid_is_Ok.
  destruct (valid (with_targets ts (config m))) as [u|e]; [|done]. cbn [mbind result_bind is_Ok andb allowed].
  destruct (take_old replaces m) as [old m1] eqn:Ht. pose proof (take_old_config replaces m) as Hto. rewrite Ht in Hto.
  destruct Hto as [Hc1 Hf1]. simpl in Hc1, Hf1.
  destruct (try_new_outcome o t (with_targets ts (config m)) m1)
    as [(doc & Hd & Ha & Hr & Hm)|(Hr & Hc & Hf & _ & _ & Ha)];
    destruct (try_new _ _ _ m1) as [r m2]; simpl in *; rewrite Hf1 in *.
  - subst r m2. unfold allowed. by rewrite Ha, Hd.
  - destruct r as [|e]; [done|]. simpl. destruct (put_back_config o old m2) as [-> ->]. rewrite Hc, Hf. unfold allowed.
    destruct (_ && _); [|done]. by destruct (Ha eq_refl) as [e' ->].
Qed.

Lemma remove_valid name c : config_valid c →
  config_valid (with_targets (List.filter (fun t => negb (named name t)) (targets c)) c).
Proof.
  pose proof (bool_filter_sublist (fun t => negb (named name t)) (targets c)) as Hs.
  intros (? & ? & ? & ? & Hn & Hl & Hv). unfold config_valid. simpl. split_and!; try done.
  - eapply sublist_NoDup; [exact Hn|by apply fmap_sublist].
  - eapply sublist_NoDup; [exact Hl|by apply fmap_sublist].
  - rewrite Forall_forall in *. intros t Ht. apply Hv. by eapply elem_of_sublist.
Qed.

Lemma remove_outcome o name m : config_valid (config m) → outcome o (Remove name) (is_Ok (remove o name m).1) m (remove o name m).2.
Proof.
  intros Hv. unfold outcome, performed, remove, allowed. cbn [intended]. fold (named name).
  destruct (existsb (named name) _) eqn:Hex; simpl; [|done].
  assert (Hok : validate (with_targets (List.filter (fun t => negb (named name t)) (targets (config m))) (config m)) = Ok ())
    by by apply validate_Ok, remove_valid.
  rewrite Hok. cbn [is_Ok andb].
  destruct (write_file_cases o (put_targets (List.filter (fun t => negb (named name t)) (targets (config m)))) (file m))
    as [(doc & Hd & Hw & Heq)|(e & Heq & Hw)]; unfold named in Heq |- *; rewrite Heq; simpl.
  - by rewrite Hw, Hd.
  - destruct (is_Ok (o_write o)); [|done]. by destruct (Hw eq_refl) as [e' ->].
Qed.

Lemma groups_outcome {E A} o (from : TargetError → E) name (f : list SummariseGroup → result E (A * list SummariseGroup)) m :
  NoDup (t_name <$> targets (config m)) →
  outcome o (Groups name (fun gs => snd <$> result_ok (f gs))) (is_Ok (update_summarise o from name f m).1) m
    (update_summarise o from name f m).2.
Proof.
  intros Hn. unfold outcome, performed, update_summarise, allowed. cbn [intended].
  destruct (update_target name (set_groups f) (targets (config m))) as [r|] eqn:Hu.
  - destruct (update_target_map _ _ _ _ Hn Hu) as (t & Hf & ->). rewrite Hf. cbn [mbind option_bind]. unfold set_groups.
    destruct (f (summarise t)) as [[a gs]|e]; simpl; [|done].
    rewrite <- valid_is_Ok. destruct (valid _) as [u|e]; simpl; [|done].
    destruct (write_file_cases o (put_targets ((fun t' => if named name t' then with_summarise t gs else t') <$> targets (config m))) (file m))
      as [(doc & Hd & Hw & ->)|(e & -> & Hw)]; simpl.
    + rewrite Hw, Hd. split_and!; try done.
    + destruct (is_Ok (o_write o)); [|done]. by destruct (Hw eq_refl) as [e' ->].
  - by rewrite (update_target_None _ _ _ Hu).
Qed.

Lemma settings_outcome o f m : outcome o (Settings f) (is_Ok (update_settings o f m).1) m (update_settings o f m).2.
Proof.
  unfold outcome, performed, update_settings, allowed. cbn [intended mbind option_bind]. rewrite <- valid_is_Ok.
  destruct (valid (f (config m))) as [u|e]; [|done]. cbn [is_Ok andb].
  destruct (write_file_cases o (put_settings (f (config m))) (file m)) as [(doc & Hd & Hw & ->)|(e & -> & Hw)]; simpl.
  - by rewrite Hw, Hd.
  - destruct (is_Ok (o_write o)); [|done]. by destruct (Hw eq_refl) as [e' ->].
Qed.

(** *** The running targets

    A running target is a configured one. Its groups are the configured ones,
    or those it was started with ([fresh] rules the second out). *)
Definition embodies (fresh : bool) (t : TargetConfig) (r : Running) : Prop :=
  with_summarise t [] = with_summarise (r_config r) [] ∧
  (r_groups r = summarise t ∨ (fresh = false ∧ r_groups r = summarise (r_config r))).

Definition tidy (fresh : bool) (m : Manager) : Prop :=
  config_valid (config m) ∧
  ∀ n r, running m !! n = Some r →
    is_Some (statuses m !! n) ∧ ∃ t, t ∈ targets (config m) ∧ t_name t = n ∧ embodies fresh t r.

Lemma tidy_names fresh m : tidy fresh m → NoDup (t_name <$> targets (config m)).
Proof. by intros [(_ & _ & _ & _ & Hn & _) _]. Qed.

Lemma embodies_name fresh t r : embodies fresh t r → t_name (r_config r) = t_name t.
Proof. intros [Heq _]. by apply (f_equal t_name) in Heq. Qed.

Lemma embodies_start fresh t : embodies fresh t (mkRunning t (summarise t)).
Proof. split; [done|by left]. Qed.

Lemma embodies_stale fresh t r : embodies fresh t r → embodies false t r.
Proof. intros [? [?|[_ ?]]]; split; eauto. Qed.

Lemma tidy_stale fresh m : tidy fresh m → tidy false m.
Proof. intros [Hv Hr]. split; [done|]. intros n r Hn. destruct (Hr n r Hn) as (? & t & ? & ? & ?%embodies_stale). eauto 6. Qed.

Lemma tidy_start_all fresh o m : tidy fresh m → tidy fresh (start_all o m).
Proof.
  unfold start_all. intros Ht. assert (Hin : ∀ t, t ∈ targets (config m) → t ∈ targets (config m)) by done.
  revert Hin. generalize (targets (config m)) at 1 3. intros ts. revert m Ht.
  induction ts as [|t ts IH]; intros m Ht Hin; simpl; [done|].
  unfold start at 2. destruct (o_start o t) as [u|e]; simpl; (apply IH; [|by intros t0 Ht0; apply Hin; right]); [|done].
  destruct Ht as [Hv Hr]. split; [done|]. simpl. intros n r. rewrite !lookup_insert. case_decide as Hd.
  - subst n. intros [= <-]. split; [by eexists|]. exists t. split_and!; [by apply Hin; left|done|apply embodies_start].
  - apply Hr.
Qed.

Lemma start_all_config o m : config (start_all o m) = config m ∧ file (start_all o m) = file m.
Proof.
  unfold start_all. generalize (targets (config m)). intros ts. revert m. induction ts as [|t ts IH]; intros m; simpl; [done|].
  unfold start at 2 4. destruct (o_start o t) as [u|e]; [|apply IH].
  destruct (IH (set_running (<[t_name t := mkRunning t (summarise t)]> (running m))
    (set_statuses (<[t_name t := new_status t]> (statuses m)) m))) as [Hc Hf]. by split.
Qed.

Lemma tidy_stop fresh m : tidy fresh m → tidy fresh (stop_all m).
Proof. intros [Hv _]. split; [done|]. intros n r. simpl. by rewrite lookup_empty. Qed.

(** *** An edit *)
Lemma new_name_free t replaces m ts t' :
  changed_targets t replaces (targets (config m)) = Ok ts → NoDup (t_name <$> targets (config m)) →
  NoDup (t_name <$> ts) → t' ∈ targets (config m) → replaces ≠ Some (t_name t') → t_name t' ≠ t_name t ∧ t' ∈ ts.
Proof.
  intros Hc Hn Hn' Hin Hne. destruct replaces as [old|]; simpl in Hc.
  - apply of_option_Ok in Hc. destruct (replace_target_map _ _ _ _ Hn Hc) as [Hex ->].
    assert (Ho : named old t' = false) by (apply String.eqb_neq; congruence).
    apply existsb_exists in Hex as (t0 & Ht0%list_elem_of_In & Hold).
    apply list_elem_of_lookup in Hin as [i Hi]. apply list_elem_of_lookup in Ht0 as [j Hj].
    split; [|apply list_elem_of_lookup; exists i; by rewrite list_lookup_fmap, Hi; simpl; rewrite Ho].
    intros Heq. assert (i = j) as ->; [|congruence].
    eapply NoDup_lookup; [exact Hn'| |]; rewrite !list_lookup_fmap; [rewrite Hi|rewrite Hj]; simpl; [by rewrite Ho|].
    by rewrite Hold, Heq.
  - injection Hc as <-. rewrite fmap_app in Hn'. apply NoDup_app in Hn' as (_ & Hd & _).
    split; [|set_solver]. intros Heq. apply (Hd (t_name t')); [by apply list_elem_of_fmap_2|]. rewrite Heq. set_solver.
Qed.

Lemma take_old_lookup fresh replaces m :
  tidy fresh m →
  (∀ n, running (take_old replaces m).2 !! n = if decide (replaces = Some n) then None else running m !! n) ∧
  (∀ n, replaces ≠ Some n → statuses (take_old replaces m).2 !! n = statuses m !! n) ∧
  (take_old replaces m).1 = (r_config <$> (replaces ≫= (fun n => running m !! n))).
Proof.
  intros [_ Hr]. unfold take_old. destruct replaces as [old|]; simpl; [|done].
  destruct (running m !! old) as [r|] eqn:Ho; simpl.
  - destruct (Hr _ _ Ho) as (_ & t & _ & Hnt & Hname%embodies_name). rewrite Hname, Hnt. split_and!; [|intros n Hn..|done].
    + intros n. rewrite lookup_delete. repeat case_decide; congruence.
    + rewrite lookup_delete_ne; [done|congruence].
  - split_and!; [|done..]. intros n. case_decide; [congruence|done].
Qed.

Lemma old_named fresh replaces m r :
  tidy fresh m → replaces ≫= (fun n => running m !! n) = Some r →
  replaces = Some (t_name (r_config r)) ∧ ∃ t, t ∈ targets (config m) ∧ t_name t = t_name (r_config r) ∧ embodies fresh t r.
Proof.
  intros [_ Hr]. destruct replaces as [old|]; [|done]. simpl. intros Ho.
  destruct (Hr _ _ Ho) as (_ & t & Hin & <- & Hruns). rewrite (embodies_name _ _ _ Hruns). eauto.
Qed.

Lemma put_back_lookup o old m n :
  running (put_back o old m) !! n =
    match old with
    | Some t => if decide (t_name t = n) then
        (if is_Ok (o_restart o t) then Some (mkRunning t (summarise t)) else running m !! n) else running m !! n
    | None => running m !! n
    end ∧
  (is_Some (statuses m !! n) → is_Some (statuses (put_back o old m) !! n)) ∧
  (∀ t, old = Some t → t_name t = n → is_Ok (o_restart o t) = true → is_Some (statuses (put_back o old m) !! n)).
Proof.
  unfold put_back, start. destruct old as [t|]; [|done].
  destruct (o_restart o t) as [u|e] eqn:Ho; simpl.
  - rewrite !lookup_insert. case_decide; split_and!; try done; try (intros; by eexists). by intros ? [= <-].
  - case_decide; split_and!; try done; intros ? [= <-]; by rewrite Ho.
Qed.

Lemma upsert_cases o t replaces m :
  NoDup (t_name <$> targets (config m)) →
  let m' := (upsert o t replaces m).2 in
  match (upsert o t replaces m).1 with
  | Ok _ => ∃ ts doc, changed_targets t replaces (targets (config m)) = Ok ts ∧ validate (with_targets ts (config m)) = Ok () ∧
      let m1 := (take_old replaces m).2 in
      m' = mkManager (with_targets ts (config m)) (<[t_name t := mkRunning t (summarise t)]> (running m1))
             (<[t_name t := new_status t]> (statuses m1)) (Ok (put_targets ts doc))
  | Err _ => m' = m ∨
      ∃ m2, m' = put_back o (take_old replaces m).1 m2 ∧ config m2 = config m ∧ running m2 = running (take_old replaces m).2 ∧
        ∃ ts, changed_targets t replaces (targets (config m)) = Ok ts ∧ validate (with_targets ts (config m)) = Ok () ∧
        ∀ n, n ≠ t_name t → statuses m2 !! n = statuses (take_old replaces m).2 !! n
  end.
Proof.
  intros Hn. unfold upsert.
  destruct (changed_targets t replaces (targets (config m))) as [ts|e]; [|by left]. cbn [mbind result_bind].
  pose proof (valid_is_Ok (with_targets ts (config m))) as Hv.
  destruct (valid (with_targets ts (config m))) as [u|e]; [|by left]. cbn [mbind result_bind].
  destruct (validate (with_targets ts (config m))) as [[]|e] eqn:Hval; [|done].
  destruct (take_old_config replaces m) as [Hc1 _].
  destruct (take_old replaces m) as [old m1]. simpl in Hc1.
  destruct (try_new_outcome o t (with_targets ts (config m)) m1) as [(doc & Hd & Ha & Hr & Hm)|(Hr & Hc & Hf & Hrun & Hs & Ha)];
    destruct (try_new _ _ _ m1) as [r m2]; simpl in *; subst.
  - simpl. eauto.
  - destruct r as [|e]; [done|]. right. exists m2. rewrite Hc. eauto 10.
Qed.

Lemma tidy_upsert fresh o t replaces m :
  tidy fresh m → tidy (fresh && is_Ok (upsert o t replaces m).1) (upsert o t replaces m).2.
Proof.
  intros Ht. pose proof (tidy_names _ _ Ht) as Hn. pose proof (upsert_cases o t replaces m Hn) as Hu.
  destruct (take_old_lookup fresh replaces m Ht) as (Hrun & Hst & Hold). destruct Ht as [Hv Hr].
  destruct (upsert o t replaces m) as [[u|e] m']; simpl in *.
  - rewrite andb_true_r. destruct Hu as (ts & doc & Hts & Hval%validate_Ok & ->). split; [done|]. simpl.
    intros n r. rewrite !lookup_insert. case_decide as Hd.
    + subst n. intros [= <-]. split; [by eexists|]. exists t. split_and!; [|done|apply embodies_start].
      destruct replaces as [old|]; simpl in Hts.
      * apply of_option_Ok in Hts. by eapply replace_target_in.
      * injection Hts as <-. set_solver.
    + rewrite Hrun. case_decide as Ho; [done|]. intros Hnr. rewrite (Hst n Ho). destruct (Hr n r Hnr) as (Hs & t' & Hin & <- & Hruns).
      split; [done|]. exists t'. split_and!; [|done..]. eapply new_name_free; try done. by destruct Hval as (_ & _ & _ & _ & ? & _).
  - rewrite andb_false_r. destruct Hu as [->|(m2 & -> & Hc & Hrun2 & ts & Hts & Hval%validate_Ok & Hs2)]; [by eapply tidy_stale|].
    destruct (put_back_config o (take_old replaces m).1 m2) as [Hc' _]. split; [by rewrite Hc', Hc|]. rewrite Hc', Hc.
    intros n r. destruct (put_back_lookup o (take_old replaces m).1 m2 n) as (Hl & Hkeep & Hback). rewrite Hl, Hrun2, Hrun. clear Hl.
    assert (Hother : replaces ≠ Some n → running m !! n = Some r →
      is_Some (statuses (put_back o (take_old replaces m).1 m2) !! n) ∧
      ∃ t', t' ∈ targets (config m) ∧ t_name t' = n ∧ embodies false t' r).
    { intros Ho Hnr. destruct (Hr n r Hnr) as (Hs & t' & Hin & <- & Hruns%embodies_stale). split; [|by eauto].
      apply Hkeep. rewrite Hs2, Hst; [done..|]. eapply new_name_free; try done. by destruct Hval as (_ & _ & _ & _ & ? & _). }
    rewrite Hold in *. destruct (replaces ≫= _) as [r0|] eqn:Hr0; simpl in *;
      [case_decide as Hn0; [destruct (is_Ok _) eqn:Hok|]|]; [|case_decide; by auto..].
    intros [= <-]. split; [by eapply Hback|].
    destruct (old_named fresh replaces m r0 (conj Hv Hr) Hr0) as (_ & t' & Hin & Hname & [Heq _]).
    exists t'. rewrite <- Hn0. split_and!; [done..|]. split; [done|by right].
Qed.

Lemma names_unique t t' ts : NoDup (t_name <$> ts) → t ∈ ts → t' ∈ ts → t_name t = t_name t' → t = t'.
Proof.
  intros Hn [i Hi]%list_elem_of_lookup [j Hj]%list_elem_of_lookup Heq. assert (i = j) as ->; [|congruence].
  eapply NoDup_lookup; [exact Hn| |]; rewrite list_lookup_fmap; [by rewrite Hi|]. rewrite Hj. simpl. congruence.
Qed.

Lemma find_mapped name t gs ts :
  named name t = true → NoDup (t_name <$> ts) → t ∈ ts →
  List.find (named name) ((fun t' => if named name t' then with_summarise t gs else t') <$> ts) = Some (with_summarise t gs).
Proof.
  intros Hname Hn Hin. induction ts as [|t1 ts IH]; [by apply not_elem_of_nil in Hin|]. simpl.
  rewrite fmap_cons in Hn. apply NoDup_cons in Hn as [_ Hn]. destruct (named name t1) eqn:H1.
  - replace (named name (with_summarise t gs)) with true; done.
  - rewrite H1. apply IH; [done|]. apply elem_of_cons in Hin as [<-|?]; congruence.
Qed.

Lemma tidy_remove fresh o name m : tidy fresh m → tidy fresh (remove o name m).2.
Proof.
  intros [Hv Hr]. unfold remove. destruct (negb _); [done|]. fold (named name).
  destruct (write_file_cases o (put_targets (List.filter (fun t => negb (named name t)) (targets (config m)))) (file m))
    as [(doc & Hd & Hw & Heq)|(e & Heq & Hw)]; unfold named in Heq |- *; rewrite Heq; [|done].
  split; [by apply remove_valid|]. simpl. intros n r. rewrite !lookup_delete. case_decide as Hn; [done|].
  intros Hnr. destruct (Hr n r Hnr) as (Hs & t & Hin & Ht & Hruns). split; [done|]. exists t. split_and!; [|done..].
  apply list_elem_of_In, List.filter_In. split; [by apply list_elem_of_In|]. apply negb_true_iff, String.eqb_neq. congruence.
Qed.

Lemma tidy_groups {E A} fresh o (from : TargetError → E) name (f : list SummariseGroup → result E (A * list SummariseGroup)) m :
  tidy fresh m → tidy fresh (update_summarise o from name f m).2.
Proof.
  intros Ht. pose proof (tidy_names _ _ Ht) as Hn. destruct Ht as [Hv Hr]. unfold update_summarise.
  destruct (update_target name (set_groups f) (targets (config m))) as [r|] eqn:Hu; [|done].
  destruct (update_target_map _ _ _ _ Hn Hu) as (t & Hf & ->). unfold set_groups.
  destruct (f (summarise t)) as [[a gs]|e]; simpl; [|done].
  pose proof (valid_is_Ok (with_targets ((fun t' => if named name t' then with_summarise t gs else t') <$> targets (config m)) (config m))) as Hval.
  destruct (valid _) as [u|e]; [|done]. destruct (validate _) as [[]|] eqn:Hok; [|done]. apply validate_Ok in Hok.
  destruct (write_file_cases o (put_targets ((fun t' => if named name t' then with_summarise t gs else t') <$> targets (config m))) (file m))
      as [(doc & Hd & Hw & ->)|(e & -> & Hw)]; [|done].
  split; [done|]. simpl. clear Hval Hok Hw Hd. apply find_some in Hf as [Hin Hname]. apply list_elem_of_In in Hin.
  assert (Hnew : with_summarise t gs ∈ (fun t' => if named name t' then with_summarise t gs else t') <$> targets (config m)).
  { apply list_elem_of_fmap. exists t. by rewrite Hname. }
  rewrite (find_mapped name _ _ _ Hname Hn Hin). simpl.
  intros n r. rewrite lookup_alter. case_decide as Hd.
  - subst n. destruct (running m !! name) as [r0|] eqn:H0; [|done]. intros [= <-].
    destruct (Hr _ _ H0) as (Hs & t0 & Hin0 & Hn0 & [Heq _]). split; [done|].
    assert (t0 = t) as -> by (eapply names_unique; try done; apply String.eqb_eq in Hname; congruence).
    exists (with_summarise t gs). split_and!; [done|done|]. by split; [|left].
  - intros Hnr. destruct (Hr n r Hnr) as (Hs & t0 & Hin0 & Hn0 & Hruns). split; [done|]. exists t0. split_and!; [|done..].
    apply list_elem_of_fmap. exists t0. assert (Hne : named name t0 = false) by (apply String.eqb_neq; congruence).
    by rewrite Hne.
Qed.

Lemma update_summarise_Ok {E A} o (from : TargetError → E) name (f : list SummariseGroup → result E (A * list SummariseGroup)) m a :
  NoDup (t_name <$> targets (config m)) → (update_summarise o from name f m).1 = Ok a →
  ∃ t gs, t ∈ targets (config m) ∧ named name t = true ∧ f (summarise t) = Ok (a, gs) ∧
    config (update_summarise o from name f m).2 =
      with_targets ((fun t' => if named name t' then with_summarise t gs else t') <$> targets (config m)) (config m).
Proof.
  intros Hn. unfold update_summarise.
  destruct (update_target name (set_groups f) (targets (config m))) as [r|] eqn:Hu; [|done].
  destruct (update_target_map _ _ _ _ Hn Hu) as (t & Hf & ->). unfold set_groups.
  apply find_some in Hf as [Hin Hname]. apply list_elem_of_In in Hin.
  destruct (f (summarise t)) as [[a' gs]|e] eqn:Hft; simpl; [|done].
  destruct (valid _) as [u|e]; [|done]. destruct (write_file _ _ _) as [[[]|e] fl]; [|done].
  intros [= ->]. by exists t, gs.
Qed.

(** A change that leaves the groups as they were changes nothing. *)
Lemma update_summarise_same {E A} o (from : TargetError → E) name (f : list SummariseGroup → result E (A * list SummariseGroup)) m a :
  NoDup (t_name <$> targets (config m)) → (update_summarise o from name f m).1 = Ok a →
  (∀ t gs, t ∈ targets (config m) → f (summarise t) = Ok (a, gs) → gs = summarise t) →
  config (update_summarise o from name f m).2 = config m.
Proof.
  intros Hn Ha Hsame. destruct (update_summarise_Ok _ _ _ _ _ _ Hn Ha) as (t & gs & Hin & Hname & Hf & ->).
  rewrite (Hsame t gs Hin Hf). transitivity (with_targets (targets (config m)) (config m)); [|by destruct (config m)].
  f_equal. rewrite <- (list_fmap_id (targets (config m))) at 2. apply list_fmap_ext. intros i t' Ht'.
  destruct (named name t') eqn:Hn'; [|done]. apply String.eqb_eq in Hname, Hn'.
  assert (t' = t) as -> by (eapply names_unique; [exact Hn|by eapply list_elem_of_lookup_2|done|congruence]).
  by destruct t.
Qed.

(** A refused change leaves the configuration. *)
Lemma outcome_refused o ch m m' : outcome o ch false m m' → config m' = config m.
Proof. unfold outcome. destruct (performed _ _ _ _) as [[c doc]|]; [by intros [? _]|tauto]. Qed.

(** *** A run of the manager *)
Inductive Event : Type :=
| Edit (ch : Change)
| RestartAll
| StopAll.

Definition manage (o : Outside) (ev : Event) (m : Manager) : bool * Manager :=
  match ev with
  | Edit ch => apply o ch m
  | RestartAll => (true, restart_all o m)
  | StopAll => (true, stop_all m)
  end.

Fixpoint manage_all (evs : list (Outside * Event)) (m : Manager) : list bool * Manager :=
  match evs with
  | [] => ([], m)
  | (o, ev) :: evs =>
      let (b, m) := manage o ev m in
      let (bs, m) := manage_all evs m in (b :: bs, m)
  end.

(** The abstract manager: the configuration and the file. *)
Definition Abstract : Type := Config * result string toml.
Definition abstract (m : Manager) : Abstract := (config m, file m).

Definition perform (o : Outside) (ev : Event) (a : Abstract) : bool * Abstract :=
  match ev with
  | Edit ch =>
      match performed o ch a.1 a.2 with
      | Some (c, doc) => (true, (c, Ok doc))
      | None => (false, a)
      end
  | _ => (true, a)
  end.

Fixpoint perform_all (evs : list (Outside * Event)) (a : Abstract) : list bool * Abstract :=
  match evs with
  | [] => ([], a)
  | (o, ev) :: evs =>
      let (b, a) := perform o ev a in
      let (bs, a) := perform_all evs a in (b :: bs, a)
  end.

(** A settings change leaves the targets alone. *)
Definition settings_only (ev : Outside * Event) : Prop :=
  match ev.2 with Edit (Settings f) => ∀ c, targets (f c) = targets c | _ => True end.

Lemma apply_outcome o ch m : config_valid (config m) → outcome o ch (apply o ch m).1 m (apply o ch m).2.
Proof.
  intros Hv. assert (Hn : NoDup (t_name <$> targets (config m))) by by destruct Hv as (_ & _ & _ & _ & ? & _).
  destruct ch as [t replaces|name|name f|f]; simpl.
  - pose proof (upsert_outcome o t replaces m Hn). by destruct (upsert o t replaces m).
  - pose proof (remove_outcome o name m Hv). by destruct (remove o name m).
  - pose proof (groups_outcome o Some name (fun gs => match f gs with Some gs => Ok ((), gs) | None => Err None end) m Hn) as Ho.
    destruct (update_summarise _ _ _ _ _) as [r m']. unfold outcome in *. simpl in *.
    replace (performed o (Groups name f) (config m) (file m)) with
      (performed o (Groups name (fun gs => snd <$> result_ok (match f gs with Some gs0 => Ok ((), gs0) | None => @Err (option TargetError) _ None end)))
        (config m) (file m)); [done|].
    unfold performed. cbn [intended]. destruct (List.find (named name) (targets (config m))) as [t|]; [|done]. simpl.
    by destruct (f (summarise t)).
  - pose proof (settings_outcome o f m). by destruct (update_settings o f m).
Qed.

Lemma tidy_apply fresh o ch m :
  settings_only (o, Edit ch) → tidy fresh m →
  tidy (fresh && match ch with Upsert _ _ => (apply o ch m).1 | _ => true end) (apply o ch m).2.
Proof.
  intros Hs Ht. destruct ch as [t replaces|name|name f|f]; simpl.
  - pose proof (tidy_upsert fresh o t replaces m Ht). by destruct (upsert o t replaces m).
  - rewrite andb_true_r. pose proof (tidy_remove fresh o name m Ht). by destruct (remove o name m).
  - rewrite andb_true_r.
    pose proof (tidy_groups fresh o Some name (fun gs => match f gs with Some gs => Ok ((), gs) | None => Err None end) m Ht).
    by destruct (update_summarise _ _ _ _ _).
  - rewrite andb_true_r. pose proof (settings_outcome o f m) as Ho. unfold update_settings in *. simpl in Hs.
    pose proof (valid_is_Ok (f (config m))) as Hval.
    destruct (valid (f (config m))) as [u|e]; simpl; [|done]. destruct (validate _) as [[]|] eqn:Hok; [|done].
    destruct (write_file _ _ _) as [[[]|e] fl]; simpl; [|done].
    destruct Ht as [Hv Hr]. split; [by apply validate_Ok|]. simpl. by rewrite Hs.
Qed.

Lemma manage_abstract o ev m :
  config_valid (config m) → perform o ev (abstract m) = ((manage o ev m).1, abstract (manage o ev m).2).
Proof.
  intros Hv. destruct ev as [ch| |]; simpl.
  - pose proof (apply_outcome o ch m Hv) as Ho. unfold outcome in Ho. unfold abstract.
    destruct (apply o ch m) as [r m']; simpl in *.
    destruct (performed o ch (config m) (file m)) as [[c doc]|]; [destruct Ho as (-> & <- & <-)|destruct Ho as (-> & -> & ->)]; done.
  - unfold restart_all. by destruct (start_all_config o (stop_all m)) as [Hc Hf]; unfold abstract; rewrite Hc, Hf.
  - done.
Qed.


(** An edit that fails, for whatever reason,
    changes neither the configuration nor the file nor any other target; the
    edited one still runs, runs again as it was started, or, when it cannot be
    started again, is not running. *)
Theorem failed_edit_restores o t replaces m e m' :
  tidy false m → upsert o t replaces m = (Err e, m') →
  config m' = config m ∧ file m' = file m ∧
  (∀ n, replaces ≠ Some n → running m' !! n = running m !! n) ∧
  ∀ old, replaces = Some old →
    running m' !! old = running m !! old ∨
    ∃ r, running m !! old = Some r ∧
      running m' !! old =
        (if is_Ok (o_restart o (r_config r)) then Some (mkRunning (r_config r) (summarise (r_config r))) else None).
Proof.
  intros Ht Hu. pose proof (tidy_names _ _ Ht) as Hn. pose proof (upsert_outcome o t replaces m Hn) as Ho.
  pose proof (upsert_cases o t replaces m Hn) as Hc. rewrite Hu in Ho, Hc. simpl in Ho, Hc.
  assert (Hsame : config m' = config m ∧ file m' = file m).
  { unfold outcome in Ho. destruct (performed _ _ _ _) as [[c doc]|]; [by destruct Ho|tauto]. }
  destruct Hsame as [-> ->]. split_and!; [done|done|..].
  all: destruct Hc as [->|(m2 & -> & Hc & Hrun2 & _)]; [by auto|].
  all: destruct (take_old_lookup _ replaces m Ht) as (Hrun & _ & Hold).
  - intros n Hne. destruct (put_back_lookup o (take_old replaces m).1 m2 n) as [-> _]. rewrite Hold, Hrun2, Hrun.
    rewrite (decide_False (P := replaces = Some n)) by done. destruct (replaces ≫= _) as [r0|] eqn:Hr0; [|done].
    apply (old_named _ _ _ _ Ht) in Hr0 as [Hr0 _]. simpl. by rewrite decide_False by congruence.
  - intros old ->. destruct (put_back_lookup o (take_old (Some old) m).1 m2 old) as [-> _]. rewrite Hold, Hrun2, Hrun.
    rewrite (decide_True (P := Some old = Some old)) by done. simpl. destruct (running m !! old) as [r0|] eqn:Hr0; [right|by left].
    exists r0. split; [done|]. simpl. destruct (old_named false (Some old) m r0 Ht Hr0) as [[= Heq] _]. by rewrite decide_True.
Qed.
End Spec.

Section TargetsWitnesses.
Import ToyNodes ToyOpc.

Definition fine (t : TargetConfig) : result string unit := Ok ().
Definition well : Outside := mkOutside fine fine (Ok ()).
(** Another program has the new port. *)
Definition port_taken : Outside := mkOutside (fun _ => Err "address in use") fine (Ok ()).

Definition line1 : Manager := mkManager one_target ∅ ∅ (Ok []).
Definition regrouped : list SummariseGroup := [mkSummariseGroup (Some "HMI") None ["ns=3;i=2"] ∅].
Definition plc2 : TargetConfig :=
  mkTargetConfig "plc2" (mkSocketAddr (V4 0) 4842) "opc.tcp://192.168.0.11:4840" 60 SignAndEncrypt 50 10 [] [].

Definition a_day : list (Outside * Event) :=
  [(well, RestartAll); (well, Edit (Upsert plc2 None)); (port_taken, Edit (Upsert plc2 (Some "plc1")));
   (well, Edit (Groups "plc1" (fun _ => Some regrouped))); (port_taken, Edit (Upsert plc1 (Some "plc2")));
   (well, Edit (Remove "plc2")); (well, Edit (Remove "plc2"))].


(** The manager after the gateway started. *)
Definition started : Manager := restart_all well line1.
Lemma started_tidy : tidy false started.
Proof. apply tidy_start_all, (tidy_stop false). split; [apply validate_Ok; vm_compute; reflexivity|done]. Qed.

Lemma failed_edit_restores_witness :
  ∃ e m', upsert port_taken (with_summarise plc1 []) (Some "plc1") started = (Err e, m') ∧
    config m' = config started ∧ file m' = file started.
Proof.
  destruct (upsert port_taken (with_summarise plc1 []) (Some "plc1") started) as [[u|e] m'] eqn:Hu; [vm_compute in Hu; discriminate|].
  exists e, m'. split; [reflexivity|].
  destruct (failed_edit_restores port_taken _ _ _ _ _ started_tidy Hu) as (H1 & H2 & _). by split.
Defined.

(** The groups were changed while the target ran; an edit that then fails
    brings it back with the groups it was started with, not the configured
    ones. *)
Example restored_with_old_groups :
  let m := (manage_all [(well, RestartAll); (well, Edit (Groups "plc1" (fun _ => Some regrouped)));
                        (port_taken, Edit (Upsert (with_summarise plc1 []) (Some "plc1")))] line1).2 in
  (summarise <$> targets (config m)) = [regrouped] ∧
  (r_groups <$> running m !! "plc1") = Some (summarise plc1).
Proof. vm_compute. split; reflexivity. Qed.
End TargetsWitnesses.
