(* ===== verification/WebTargets.v ===== *)
(** The web UI's handlers for targets and their summarise groups
    ([src/src/web/mod.rs]), as programs over what they share: the target
    manager, the sessions of the web browser, the settings of the audit
    pipeline, the exporters' settings and the files next to the export state.

    An operation of the manager holds its lock throughout and is one step;
    what it meets outside ([Targets.Outside]) is an argument. *)

From S2P Require Import Prelude Net Event Users Config Pipeline Endpoints Opc Browser Task WebAuth WebUsers Discovery ConfigFile Targets.

Section Text.
Context `{Opc}.
(** [str::escape_debug], of the standard library's Unicode tables *)
Context (escape_debug : string → string).

(** What [Config::validate] says. *)
Definition config_error_text (e : ConfigError) : string :=
  match e with
  | SummaryIntervalZero => "audit.ignored_summary_secs must be > 0"
  | TlsPairIncomplete => "web: set both tls_certificate and tls_private_key, or neither"
  | TlsFilesWithoutTls => "web: tls_certificate is set but tls = false"
  | QuestDbScheme => "export.questdb.url must start with http:// or https://"
  | QuestDbCredentialsInUrl => "export.questdb.url must not contain credentials; use token or username/password"
  | QuestDbTokenAndPassword => "export.questdb: use either token or username/password"
  | QuestDbIntervalZero => "export.questdb.interval_secs must be > 0"
  | BadTargetName n => "target name '" +:+ escape_debug n +:+ "' must be 1-64 letters, digits, '.', '_' or '-'"
  | DuplicateTargetName n => "duplicate target name '" +:+ n +:+ "'"
  | SharedListen n a => "targets '" +:+ n +:+ "' share listen address " +:+ socket_to_string a
  | ListenIsWebUi n a => "target '" +:+ n +:+ "' uses the web UI address " +:+ socket_to_string a
  | BadEndpointUrl n u => "target '" +:+ n +:+ "': endpoint_url must start with opc.tcp:// (got '" +:+ u +:+ "')"
  | DiscoveryIntervalZero n => "target '" +:+ n +:+ "': discovery_interval_secs must be > 0"
  | ConnectionLimitZero n => "target '" +:+ n +:+ "': connection limits must be > 0"
  | TooManyGroups n => "target '" +:+ n +:+ "': at most " +:+ pretty MAX_SUMMARISE_GROUPS +:+ " summarise groups"
  | TooManyNodes n total =>
      "target '" +:+ n +:+ "': at most " +:+ pretty MAX_SUMMARISED_NODES +:+ " summarised nodes (got "
        +:+ pretty total +:+ ")"
  | TwoGroupsAlike n g => "target '" +:+ n +:+ "': two summarise groups " +:+ g +:+ "; give one another name"
  | BadGroupName n => "target '" +:+ n +:+ "': a summarise group name must be 1 to 100 characters"
  | BadGroupClient n => "target '" +:+ n +:+ "': summarise client must be an address or application URI"
  | NotANodeId n node => "target '" +:+ n +:+ "': summarise: '" +:+ escape_debug node +:+ "' is not a node id"
  | NodeTwiceInGroup n node g => "target '" +:+ n +:+ "': " +:+ node +:+ " is twice in summarise group " +:+ g
  | NameOfNoNode n extra => "target '" +:+ n +:+ "': summarise names " +:+ extra +:+ ", which is not in the group"
  | NodeInTwoGroups n node a b =>
      "target '" +:+ n +:+ "': " +:+ node +:+ " is already summarised in group " +:+ a
        +:+ ", which also applies to the writes of group " +:+ b
  | BadTlsEnv v => "OPCUA_GATEWAY_WEB_TLS: '" +:+ v +:+ "' is not true or false"
  end.

Definition target_error_text (e : TargetError) : string :=
  match e with
  | UnknownTarget n => "unknown target '" +:+ n +:+ "'"
  | Invalid e => config_error_text e
  | CannotStart e | CannotWrite e => e
  end.
End Text.

(** ** Requests and answers *)
Record NodeRef : Type := mkNodeRef { nr_node_id : string; nr_name : option string }.
Record NewGroup : Type := mkNewGroup { ng_name : option string; ng_client : option string; ng_nodes : list NodeRef }.
(** The group the caller saw at that position. *)
Record GroupCheck : Type := mkGroupCheck { gc_check : bool; gc_name : option string; gc_client : option string }.
Definition expecting (name client : option string) : GroupCheck := mkGroupCheck true name client.
Record GroupChange : Type := mkGroupChange { gch_group : nat; gch_changed : nat }.

(** ** Changing a list of groups *)
Section Groups.
Context `{Opc}.
Context (escape_debug : string → string).

Definition same_text (a b : option string) : bool := bool_decide (trimmed a = trimmed b).

(** [group_mut]: the group to change. *)
Definition group_at (groups : list SummariseGroup) (index : nat) (target : string) (expect : GroupCheck)
    : result ApiError SummariseGroup :=
  g ← of_option (api_not_found ("target '" +:+ target +:+ "' has no group " +:+ pretty index)) (groups !! index);
  if gc_check expect && negb (same_text (sg_name g) (gc_name expect) && same_text (sg_client g) (gc_client expect))
  then Err (mkApiError CONFLICT
              ("the summarise groups of '" +:+ target +:+ "' changed meanwhile; reload and try again"))
  else Ok g.

(** ... and its new value in its place. *)
Definition change_group {A} (index : nat) (target : string) (expect : GroupCheck)
    (f : SummariseGroup → result ApiError (A * SummariseGroup)) (groups : list SummariseGroup)
    : result ApiError (A * list SummariseGroup) :=
  g ← group_at groups index target expect;
  r ← f g;
  Ok (r.1, <[index := r.2]> groups).

Definition add_node (id : string) (name : option string) (g : SummariseGroup) : SummariseGroup :=
  mkSummariseGroup (sg_name g) (sg_client g) (nodes g ++ [id])
    (match name with Some n => <[id := clip n MAX_NAME]> (names g) | None => names g end).

(** Nodes already in the group are skipped. *)
Fixpoint add_each (present : list NodeId) (refs : list NodeRef) (added : nat) (g : SummariseGroup)
    : result ApiError (nat * SummariseGroup) :=
  match refs with
  | [] => Ok (added, g)
  | r :: refs =>
      let id := trim (nr_node_id r) in
      if String.eqb id EmptyString then add_each present refs added g
      else match parse_node id with
      | None => Err (api_bad_request ("'" +:+ escape_debug id +:+ "' is not a node id"))
      | Some n =>
          if bool_decide (n ∈ present) then add_each present refs added g
          else add_each (n :: present) refs (S added) (add_node id (trimmed (nr_name r)) g)
      end
  end.

Definition add_to_group (g : SummariseGroup) (refs : list NodeRef) : result ApiError (nat * SummariseGroup) :=
  add_each (parsed_nodes g) refs 0 g.

Definition remove_from_group (g : SummariseGroup) (ids : list string) : nat * SummariseGroup :=
  let gone := omap parse_node ids in
  let kept := List.filter (fun n => match parse_node n with
                                    | Some i => negb (bool_decide (i ∈ gone)) | None => true end) (nodes g) in
  ((length (nodes g) - length kept)%nat,
   mkSummariseGroup (sg_name g) (sg_client g) kept (filter (fun kv => kv.1 ∈ kept) (names g))).

Definition new_group (n : NewGroup) : SummariseGroup :=
  mkSummariseGroup (trimmed (ng_name n)) (trimmed (ng_client n)) [] ∅.

Definition create_change (n : NewGroup) (groups : list SummariseGroup)
    : result ApiError ((GroupChange * string) * list SummariseGroup) :=
  r ← add_to_group (new_group n) (ng_nodes n);
  Ok ((mkGroupChange (length groups) r.1, group_label r.2), groups ++ [r.2]).

Definition rename_change (index : nat) (target : string) (expect : GroupCheck) (name : option string)
    : list SummariseGroup → result ApiError ((string * string) * list SummariseGroup) :=
  change_group index target expect (fun g =>
    let g' := mkSummariseGroup (trimmed name) (sg_client g) (nodes g) (names g) in
    Ok ((group_label g, group_label g'), g')).

Definition delete_change (index : nat) (target : string) (expect : GroupCheck) (groups : list SummariseGroup)
    : result ApiError (SummariseGroup * list SummariseGroup) :=
  g ← group_at groups index target expect; Ok (g, base.delete index groups).

Definition add_change (index : nat) (target : string) (expect : GroupCheck) (refs : list NodeRef)
    : list SummariseGroup → result ApiError ((nat * string) * list SummariseGroup) :=
  change_group index target expect (fun g =>
    r ← add_to_group g refs; Ok ((r.1, group_label r.2), r.2)).

Definition remove_change (index : nat) (target : string) (expect : GroupCheck) (ids : list string)
    : list SummariseGroup → result ApiError ((nat * string) * list SummariseGroup) :=
  change_group index target expect (fun g =>
    let r := remove_from_group g ids in Ok ((r.1, group_label r.2), r.2)).
End Groups.

Definition nodes_text (n : nat) : string := if (n =? 1)%nat then "1 node" else pretty n +:+ " nodes".

(** ** What the handlers share *)
Section Handlers.
Context `{Opc}.
Context (escape_debug : string → string).

Record Site : Type := mkSite {
  s_manager : Manager;
  s_browser : BrowserSessions;
  s_settings : AuditSettings;
  (** the settings of the running exporter *)
  s_exporting : option QuestDbConfig;
  (** text files by their path *)
  s_files : gmap string string;
}.

Abbreviation site := (prog Site).

Definition on_manager {A} (f : Manager → A * Manager) : site A :=
  atomic (fun s => let r := f (s_manager s) in
                   (r.1, mkSite r.2 (s_browser s) (s_settings s) (s_exporting s) (s_files s))).
Definition read_config : site Config := on_manager (fun m => (config m, m)).

(** [BrowserSessions::close_target] *)
Definition close_target (name : string) : site unit :=
  entries ← atomic (fun s => let r := take_target name (s_browser s) in
                             (r.1, mkSite (s_manager s) r.2 (s_settings s) (s_exporting s) (s_files s)));
  close_all entries.

Definition refused_change (e : TargetError) : ApiError := api_bad_request (target_error_text escape_debug e).
Definition from_target (e : TargetError) : ApiError := api_internal (target_error_text escape_debug e).
(** An invalid result is the request's fault. *)
Definition bad_request (e : ApiError) : ApiError :=
  if api_status e =? INTERNAL_SERVER_ERROR then mkApiError BAD_REQUEST (api_text e) else e.

(** ** Targets *)
Definition create_target (o : Outside) (u : AuthUser) (t : TargetConfig) : site (result ApiError unit) :=
  requires Admin u
    (let t := migrate_ignore t in
     r ← on_manager (upsert o t None);
     try refused_change r (fun _ =>
       _ ← config_changed u ("added target '" +:+ t_name t +:+ "' (" +:+ socket_to_string (t_listen t)
                               +:+ " -> " +:+ endpoint_url t +:+ ")");
       mret (Ok ()))).

Definition min_security_debug (m : MinSecurity) : string :=
  match m with SecNone => "None" | Sign => "Sign" | SignAndEncrypt => "SignAndEncrypt" end.

Definition diff (what a b : string) : list string :=
  if String.eqb a b then [] else [what +:+ " " +:+ a +:+ " -> " +:+ b].

Definition changes (old new : TargetConfig) : list string :=
  diff "name" (t_name old) (t_name new) ++
  diff "listen" (socket_to_string (t_listen old)) (socket_to_string (t_listen new)) ++
  diff "endpoint" (endpoint_url old) (endpoint_url new) ++
  diff "minimum security" (min_security_debug (min_security old)) (min_security_debug (min_security new)) ++
  diff "discovery every" (pretty (discovery_interval_secs old) +:+ " s") (pretty (discovery_interval_secs new) +:+ " s") ++
  diff "max connections" (pretty (max_connections old)) (pretty (max_connections new)) ++
  diff "max connections per address" (pretty (max_connections_per_address old)) (pretty (max_connections_per_address new)).

Definition target_changes (old new : TargetConfig) : string :=
  match changes old new with
  | [] => "saved target '" +:+ t_name old +:+ "' unchanged"
  | l => "changed target '" +:+ t_name old +:+ "': " +:+ join ", " l
  end.

Definition target_config (name : string) : site (result ApiError TargetConfig) :=
  c ← read_config;
  mret (of_option (api_not_found ("unknown target '" +:+ name +:+ "'"))
          (List.find (fun t => String.eqb (t_name t) name) (targets c))).

(** The edited target, with the groups of the one it replaces. *)
Definition edited (old t : TargetConfig) : TargetConfig :=
  mkTargetConfig (t_name t) (t_listen t) (endpoint_url t) (discovery_interval_secs t) (min_security t)
    (max_connections t) (max_connections_per_address t) (summarise old) [].

Definition update_target (o : Outside) (u : AuthUser) (name : string) (t : TargetConfig)
    : site (result ApiError unit) :=
  requires Admin u
    (old ← target_config name;
     try id old (fun old =>
       let t := edited old t in
       r ← on_manager (upsert o t (Some name));
       try refused_change r (fun _ =>
         _ ← close_target name;
         _ ← config_changed u (target_changes old t);
         mret (Ok ())))).

Definition delete_target (o : Outside) (u : AuthUser) (name : string) : site (result ApiError unit) :=
  requires Admin u
    (r ← on_manager (remove o name);
     try refused_change r (fun _ =>
       _ ← close_target name;
       _ ← config_changed u ("removed target '" +:+ name +:+ "'");
       mret (Ok ()))).

(** ** Summarise groups *)
Definition change_groups {A B} (o : Outside) (u : AuthUser) (name : string)
    (change : list SummariseGroup → result ApiError (A * list SummariseGroup))
    (k : A → site (result ApiError B)) : site (result ApiError B) :=
  requires Admin u
    (r ← on_manager (update_summarise o from_target name change);
     try bad_request r k).

(** A record of the change, where something changed. *)
Definition note (u : AuthUser) (changed : bool) (summary : string) : site unit :=
  if changed then _ ← config_changed u summary; mret () else mret ().

Definition create_group (o : Outside) (u : AuthUser) (name : string) (new : NewGroup)
    : site (result ApiError GroupChange) :=
  change_groups o u name (create_change escape_debug new) (fun r =>
    let '(change, label) := r in
    let summary := "target '" +:+ name +:+ "': summarise group " +:+ label +:+ " created" in
    _ ← config_changed u (if (0 <? gch_changed change)%nat
                          then summary +:+ " with " +:+ nodes_text (gch_changed change) else summary);
    mret (Ok change)).

Definition rename_group (o : Outside) (u : AuthUser) (name : string) (index : nat) (expect : GroupCheck)
    (new : option string) : site (result ApiError unit) :=
  change_groups o u name (rename_change index name expect new) (fun r =>
    let '(old, new) := r in
    _ ← note u (negb (String.eqb old new))
          ("target '" +:+ name +:+ "': summarise group " +:+ old +:+ " renamed to " +:+ new);
    mret (Ok ())).

Definition delete_group (o : Outside) (u : AuthUser) (name : string) (index : nat) (expect : GroupCheck)
    : site (result ApiError unit) :=
  change_groups o u name (delete_change index name expect) (fun g =>
    _ ← config_changed u ("target '" +:+ name +:+ "': summarise group " +:+ group_label g
          +:+ " removed; writes to its " +:+ nodes_text (length (nodes g)) +:+ " are recorded again");
    mret (Ok ())).

Definition add_nodes (o : Outside) (u : AuthUser) (name : string) (index : nat) (expect : GroupCheck)
    (refs : list NodeRef) : site (result ApiError GroupChange) :=
  change_groups o u name (add_change escape_debug index name expect refs) (fun r =>
    let '(added, label) := r in
    _ ← note u (0 <? added)%nat
          ("target '" +:+ name +:+ "': " +:+ nodes_text added +:+ " added to " +:+ label);
    mret (Ok (mkGroupChange index added))).

Definition remove_nodes (o : Outside) (u : AuthUser) (name : string) (index : nat) (expect : GroupCheck)
    (ids : list string) : site (result ApiError GroupChange) :=
  change_groups o u name (remove_change index name expect ids) (fun r =>
    let '(removed, label) := r in
    _ ← note u (0 <? removed)%nat
          ("target '" +:+ name +:+ "': " +:+ nodes_text removed +:+ " removed from " +:+ label
             +:+ "; their writes are recorded again");
    mret (Ok (mkGroupChange index removed))).
End Handlers.
