(* ===== verification/WebSettings.v ===== *)
(** The settings outside the targets ([src/src/web/settings.rs]): what the web
    UI shows of them, and the handlers that change them. The HTTP library's
    URLs and the TLS library's certificate files are parameters. *)

From S2P Require Import Prelude Net Event Users Config Pipeline Endpoints Opc Browser Task WebAuth WebUsers Discovery ConfigFile Targets WebTargets.

#[export] Instance QuestDbConfig_eq_dec : EqDecision QuestDbConfig.
Proof. solve_decision. Defined.

(** ** What is shown *)
Record QuestDbView : Type := mkQuestDbView {
  qv_url : string;
  qv_table : string;
  qv_username : option string;
  qv_password_set : bool;
  qv_token_set : bool;
  qv_ca_pem : option string;
  qv_interval_secs : Z;
}.

Record AuditView : Type := mkAuditView {
  av_retention_days : Z;
  av_fail_mode : FailMode;
  av_record_old_value : bool;
  av_ignored_summary_secs : Z;
  av_database : string;
}.

Record GatewayView : Type := mkGatewayView {
  gv_application_name : string;
  gv_application_uri : string;
  gv_certificate_hostnames : list string;
  gv_pki_dir : string;
  gv_data_dir : string;
}.

Record WebView (Cert : Type) : Type := mkWebView {
  wv_listen : string;
  wv_tls : bool;
  wv_tls_env : option string;
  wv_tls_certificate : option string;
  wv_certificate : option Cert;
}.
Arguments mkWebView {_}.

Record McpView : Type := mkMcpView { mv_enabled : bool; mv_scopes : list string; mv_transport_ok : bool }.

Record SettingsView (Cert : Type) : Type := mkSettingsView {
  config_file : string;
  v_audit : AuditView;
  v_export : option QuestDbView;
  v_gateway : GatewayView;
  v_web : WebView Cert;
  v_mcp : McpView;
}.
Arguments mkSettingsView {_}.

Definition WEB_TLS_ENV : string := "OPCUA_GATEWAY_WEB_TLS".
Definition MCP_SCOPES : list string := ["targets"; "certificates"; "settings"; "alarms"].
(** [mcp::transport_is_safe] *)
Definition transport_is_safe (w : WebConfig) : bool := tls w || is_loopback (ip (listen w)).

Definition MAX_PEM : Z := 256 * 1024.
(** [read_pem]; [unreadable] is the error of a file that cannot be read. *)
Definition read_pem (unreadable : string) (files : gmap string string) (path : string) : string :=
  match files !! path with
  | Some pem => if String.length pem <=? MAX_PEM then pem else "# " +:+ path +:+ " is too large to show"
  | None => "# " +:+ path +:+ " cannot be read: " +:+ unreadable
  end.

Definition questdb_view (unreadable : string) (files : gmap string string) (q : QuestDbConfig) : QuestDbView :=
  mkQuestDbView (url q) (table q) (username q) (bool_decide (is_Some (password q)))
    (bool_decide (is_Some (token q))) (read_pem unreadable files <$> ca_file q) (interval_secs q).

(** [path]: the configuration file; [hosts]: the machine's names; [env]: the
    variable is set; [cert]: the web UI's own certificate; [started]: the
    configuration at start. *)
Definition settings_view {Cert} (path : string) (hosts : list string) (env : bool) (cert : option Cert)
    (unreadable : string) (files : gmap string string) (started : WebConfig) (c : Config) : SettingsView Cert :=
  let a := Config.audit c in let g := Config.gateway c in let w := Config.web c in
  mkSettingsView path
    (mkAuditView (cfg_retention_days a) (cfg_fail_mode a) (cfg_record_old_value a) (ignored_summary_secs a)
       (audit_database c))
    (questdb_view unreadable files <$> questdb (export c))
    (mkGatewayView (application_name g) (application_uri hosts g) (certificate_hostnames g) (pki_dir g) (data_dir g))
    (mkWebView (socket_to_string (listen w)) (tls w) (if env then Some WEB_TLS_ENV else None) (tls_certificate w) cert)
    (mkMcpView (enabled (mcp c)) MCP_SCOPES (transport_is_safe started)).

(** ** Destinations *)

(** [http::Uri], as far as it is used *)
Record Uri : Type := mkUri {
  u_scheme : option string;
  u_host : option string;
  u_port : option Z;
  u_text : string;
}.

Inductive Authorization : Type :=
| Bearer (token : string)
(** ["user:password"], in base64 *)
| Basic (credentials : string).

Record QuestDbSink : Type := mkQuestDbSink {
  qs_uri : Uri;
  qs_tls : bool;
  qs_table : string;
  qs_authorization : option Authorization;
}.

Section Destinations.
Context (parse_uri : string → result string Uri).
(** the certificates of a PEM file ([None]: it is not there) make a client *)
Context (ca_usable : option string → result string unit).

(** [QuestDbSink::new] *)
Definition new_sink (files : gmap string string) (q : QuestDbConfig) : result string QuestDbSink :=
  uri ← match parse_uri (trim_end_matches "/" (url q) +:+ "/write?precision=n") with
        | Ok u => Ok u
        | Err e => Err ("invalid QuestDB url " +:+ url q +:+ ": " +:+ e)
        end;
  let authorization :=
    match token q, username q with
    | Some t, _ => Some (Bearer t)
    | None, Some user => Some (Basic (user +:+ ":" +:+ default EmptyString (password q)))
    | None, None => None
    end in
  let https := bool_decide (u_scheme uri = Some "https") in
  _ ← (if https then match ca_file q with Some path => ca_usable (files !! path) | None => Ok () end else Ok ());
  Ok (mkQuestDbSink uri https (table q) authorization).

(** [Exports::check], of one destination *)
Definition check_export (files : gmap string string) (q : option QuestDbConfig) : result string unit :=
  match q with Some q => _ ← new_sink files q; Ok () | None => Ok () end.

Definition origin (url : string) : option (string * string * option Z) :=
  uri ← result_ok (parse_uri (trim url));
  scheme ← to_ascii_lowercase <$> u_scheme uri;
  host ← to_ascii_lowercase <$> u_host uri;
  Some (scheme, host,
    match u_port uri with
    | Some p => Some p
    | None => if String.eqb scheme "http" then Some 80 else if String.eqb scheme "https" then Some 443 else None
    end).

Definition same_server (a b : string) : bool :=
  match origin a, origin b with Some x, Some y => bool_decide (x = y) | _, _ => false end.
End Destinations.

(** Absent keeps the stored one, empty removes it. *)
Definition secret (input stored : option string) : option string :=
  match input with
  | None => stored
  | Some v => if String.eqb v EmptyString then None else Some v
  end.

(** ** Requests *)
Record QuestDbInput : Type := mkQuestDbInput {
  qi_url : string;
  qi_table : string;
  qi_username : option string;
  qi_password : option string;
  qi_token : option string;
  qi_ca_pem : option string;
  qi_interval_secs : Z;
}.

Definition managed_ca (data_dir : string) : string := path_join data_dir "questdb-ca.pem".
Definition staged_ca (data_dir : string) : string := path_join data_dir "questdb-ca.pem.new".

(** ** Handlers *)
Section Handlers.
Context `{Opc}.
Context (escape_debug : string → string).
Context (parse_uri : string → result string Uri) (ca_usable : option string → result string unit).
Abbreviation site := (prog Site).
Abbreviation refused_change := (refused_change escape_debug).

(** What a request meets: the write of the configuration, the two file
    operations of a pasted CA, the opening of the export state, and the error
    of a file that cannot be read. *)
Record Meets : Type := mkMeets {
  m_outside : Outside;
  m_write_ca : result string unit;
  m_rename_ca : result string unit;
  m_open_state : result string unit;
  m_unreadable : string;
}.

Definition set_audit (a : AuditConfig) (c : Config) : Config :=
  mkConfig (gateway c) (Config.web c) a (export c) (mcp c) (targets c) (load_fixes c).
Definition set_export (e : ExportConfig) (c : Config) : Config :=
  mkConfig (gateway c) (Config.web c) (Config.audit c) e (mcp c) (targets c) (load_fixes c).
Definition set_mcp (m : McpConfig) (c : Config) : Config :=
  mkConfig (gateway c) (Config.web c) (Config.audit c) (export c) m (targets c) (load_fixes c).
Definition set_gateway (g : GatewayConfig) (c : Config) : Config :=
  mkConfig g (Config.web c) (Config.audit c) (export c) (mcp c) (targets c) (load_fixes c).

(** *** [put_audit] *)
Definition keep_database (new : AuditConfig) (c : Config) : Config :=
  set_audit (mkAuditConfig (database (Config.audit c)) (cfg_retention_days new) (cfg_fail_mode new)
               (cfg_record_old_value new) (ignored_summary_secs new)) c.

Definition days_text (d : Z) : string := if d =? 0 then "forever" else pretty d +:+ " days".

Definition audit_changes (a b : AuditConfig) : list string :=
  (if cfg_retention_days a =? cfg_retention_days b then []
   else ["retention " +:+ days_text (cfg_retention_days a) +:+ " -> " +:+ days_text (cfg_retention_days b)]) ++
  (if bool_decide (cfg_fail_mode a = cfg_fail_mode b) then []
   else ["fail mode " +:+ fail_mode_str (cfg_fail_mode a) +:+ " -> " +:+ fail_mode_str (cfg_fail_mode b)]) ++
  (if Bool.eqb (cfg_record_old_value a) (cfg_record_old_value b) then []
   else ["old values " +:+ (if cfg_record_old_value b then "recorded" else "not recorded")]) ++
  (if ignored_summary_secs a =? ignored_summary_secs b then []
   else ["summaries of summarised nodes every " +:+ pretty (ignored_summary_secs a) +:+ " s -> "
           +:+ pretty (ignored_summary_secs b) +:+ " s"]).

Definition put_audit (x : Meets) (u : AuthUser) (new : AuditConfig) : site (result ApiError unit) :=
  requires Admin u
    (r ← on_manager (update_settings (m_outside x) (keep_database new));
     try refused_change r (fun oc =>
       let a := Config.audit oc.1 in let b := Config.audit oc.2 in
       _ ← atomic (fun s => ((), mkSite (s_manager s) (s_browser s) (Pipeline.apply b (s_settings s))
                                   (s_exporting s) (s_files s)));
       _ ← note u (negb (bool_decide (audit_changes a b = []))) ("audit settings: " +:+ join ", " (audit_changes a b));
       mret (Ok ()))).

(** *** [put_export] *)
Definition on_files {A} (f : gmap string string → A * gmap string string) : site A :=
  atomic (fun s => let r := f (s_files s) in
                   (r.1, mkSite (s_manager s) (s_browser s) (s_settings s) (s_exporting s) r.2)).

Definition bad_ca : string :=
  "QuestDB: the CA must be one or more PEM certificates (-----BEGIN CERTIFICATE-----)".

(** A CA pasted in the form is put next to the one in use. *)
Definition stage_ca (x : Meets) (path : string) (pem : option string) : site (result ApiError unit) :=
  match pem with
  | None => mret (Ok ())
  | Some pem =>
      if (MAX_PEM <? String.length pem) || negb (contains "-----BEGIN CERTIFICATE-----" pem)
      then mret (Err (api_bad_request bad_ca))
      else match m_write_ca x with
           | Err e => mret (Err (api_bad_request e))
           | Ok _ => _ ← on_files (fun fs => ((), <[path := pem +:+ lf]> fs)); mret (Ok ())
           end
  end.

(** The destination of a form; stored secrets only for the server they were
    given for. *)
Definition from_input (stored : option QuestDbConfig) (ca : string) (q : QuestDbInput) : QuestDbConfig :=
  let u := trim_end_matches "/" (trim (qi_url q)) in
  let stored := (st ← stored; if same_server parse_uri (url st) u then Some st else None) in
  mkQuestDbConfig u (if trimmed (qi_ca_pem q) then Some ca else None) (trim (qi_table q))
    (secret (qi_token q) (stored ≫= token)) (trimmed (qi_username q))
    (secret (qi_password q) (stored ≫= password)) (qi_interval_secs q).

Definition staged (x : Meets) (current : Config) (input : option QuestDbInput)
    : site (result ApiError (option QuestDbConfig)) :=
  match input with
  | None => mret (Ok None)
  | Some q =>
      let ca := staged_ca (data_dir (gateway current)) in
      w ← stage_ca x ca (trimmed (qi_ca_pem q));
      try id w (fun _ => mret (Ok (Some (from_input (questdb (export current)) ca q))))
  end.

Definition read_ca (x : Meets) (q : option QuestDbConfig) : site (option string) :=
  match q ≫= ca_file with
  | None => mret None
  | Some path => on_files (fun fs => (Some (read_pem (m_unreadable x) fs path), fs))
  end.

(** The staged CA becomes the one in use. *)
Definition move_ca (x : Meets) (current : Config) (q : option QuestDbConfig)
    : site (result ApiError (option QuestDbConfig)) :=
  match q with
  | None => mret (Ok None)
  | Some q =>
      match ca_file q with
      | None => mret (Ok (Some q))
      | Some path =>
          let ca := managed_ca (data_dir (gateway current)) in
          match m_rename_ca x with
          | Err e => mret (Err (api_bad_request e))
          | Ok _ =>
              moved ← on_files (fun fs =>
                match fs !! path with
                | Some pem => (Ok (), <[ca := pem]> (base.delete path fs))
                | None => (Err (m_unreadable x), fs)
                end);
              try api_bad_request moved (fun _ =>
                mret (Ok (Some (mkQuestDbConfig (url q) (Some ca) (table q) (token q) (username q) (password q)
                                  (interval_secs q)))))
          end
      end
  end.

(** [Exports::apply]: the old exporter is stopped once the new destination is
    known to be usable. *)
Definition apply_exports (x : Meets) (e : ExportConfig) : site (result string unit) :=
  atomic (fun s =>
    let set q := mkSite (s_manager s) (s_browser s) (s_settings s) q (s_files s) in
    match check_export parse_uri ca_usable (s_files s) (questdb e) with
    | Err err => (Err err, s)
    | Ok _ =>
        match questdb e, m_open_state x with
        | None, _ => (Ok (), set None)
        | Some _, Err err => (Err err, set None)
        | Some q, Ok _ => (Ok (), set (Some q))
        end
    end).

Definition destination_text (q : QuestDbConfig) : string := url q +:+ " (table " +:+ table q +:+ ")".

(** Without a difference there is nothing to describe. *)
Definition export_changes (old_ca new_ca : option string) (old new : option QuestDbConfig) : list string :=
  if bool_decide (old_ca = new_ca) && bool_decide (old = new) then []
  else match destination_text <$> old, destination_text <$> new with
       | None, None => []
       | None, Some a => ["QuestDB export to " +:+ a +:+ " turned on"]
       | Some b, None => ["QuestDB export to " +:+ b +:+ " turned off"]
       | Some b, Some a =>
           if String.eqb a b then ["QuestDB export to " +:+ a +:+ " changed"]
           else ["QuestDB export moved from " +:+ b +:+ " to " +:+ a]
       end.

Definition refuse_export (q : option QuestDbConfig) : result ApiError unit :=
  match q with
  | Some q =>
      if String.eqb (table q) EmptyString then Err (api_bad_request "QuestDB: table is empty")
      else if interval_secs q =? 0 then Err (api_bad_request "the interval must be at least 1 s")
      else Ok ()
  | None => Ok ()
  end.

Definition put_export (x : Meets) (u : AuthUser) (input : option QuestDbInput) : site (result ApiError unit) :=
  requires Admin u
    (current ← read_config;
     q ← staged x current input;
     try id q (fun q =>
       try id (refuse_export q) (fun _ =>
         checked ← on_files (fun fs => (check_export parse_uri ca_usable fs q, fs));
         try api_bad_request checked (fun _ =>
           old_ca ← read_ca x (questdb (export current));
           new_ca ← read_ca x q;
           moved ← move_ca x current q;
           try id moved (fun q =>
             r ← on_manager (update_settings (m_outside x) (set_export (mkExportConfig q None)));
             try refused_change r (fun oc =>
               applied ← apply_exports x (export oc.2);
               try api_bad_request applied (fun _ =>
                 let l := export_changes old_ca new_ca (questdb (export oc.1)) (questdb (export oc.2)) in
                 _ ← note u (negb (bool_decide (l = []))) (join "; " l);
                 mret (Ok ())))))))).

(** *** [put_gateway] and [put_mcp] *)
Definition host_char (c : ascii) : bool := is_ascii_alphanumeric c || has_byte c ".-:[]".

(** Trimmed, checked, and each once. *)
Fixpoint host_names (seen names : list string) : result ApiError (list string) :=
  match names with
  | [] => Ok seen
  | n :: names =>
      let n := trim n in
      if String.eqb n EmptyString then host_names seen names
      else if negb ((String.length n <=? 253) && string_all host_char n)
      then Err (api_bad_request ("'" +:+ escape_debug n +:+ "' is not a host name or IP address"))
      else host_names (if bool_decide (n ∈ seen) then seen else seen ++ [n]) names
  end.

Definition set_hostnames (names : list string) (c : Config) : Config :=
  let g := gateway c in
  set_gateway (mkGatewayConfig (application_name g) (cfg_application_uri g) (pki_dir g) (data_dir g) names) c.

Definition put_gateway (x : Meets) (u : AuthUser) (names : list string) : site (result ApiError unit) :=
  requires Admin u
    (try id (host_names [] names) (fun names =>
       r ← on_manager (update_settings (m_outside x) (set_hostnames names));
       try refused_change r (fun oc =>
         let old := certificate_hostnames (gateway oc.1) in let new := certificate_hostnames (gateway oc.2) in
         _ ← note u (negb (bool_decide (old = new))) ("certificate host names: " +:+ join ", " new);
         mret (Ok ())))).

Definition set_enabled (b : bool) (c : Config) : Config := set_mcp (mkMcpConfig b (allow (mcp c))) c.

Definition put_mcp (x : Meets) (u : AuthUser) (b : bool) : site (result ApiError unit) :=
  requires Admin u
    (r ← on_manager (update_settings (m_outside x) (set_enabled b));
     try refused_change r (fun oc =>
       let old := enabled (mcp oc.1) in let new := enabled (mcp oc.2) in
       _ ← note u (negb (Bool.eqb old new))
             ("MCP endpoint for AI assistants " +:+ if new then "on" else "off");
       mret (Ok ()))).
End Handlers.
