(* ===== verification/WebEdits.v ===== *)
(** What changing the configuration in the web UI comes to: the handlers of
    [WebTargets] and [WebSettings] together. *)

From S2P Require Import Prelude Net Event Users Config Pipeline Endpoints Opc Browser Task WebAuth WebUsers Discovery ConfigFile Targets WebTargets WebSettings.

(** ** Nodes of a group *)
Section GroupNodes.
Context `{Opc}.
Context (escape_debug : string → string).

(** The nodes a request names; a blank id names none. *)
Definition ref_node (r : NodeRef) : option NodeId :=
  if String.eqb (trim (nr_node_id r)) EmptyString then None else parse_node (trim (nr_node_id r)).
Definition named_nodes (refs : list NodeRef) : list NodeId := omap ref_node refs.

Lemma parsed_add id name g n :
  parse_node id = Some n → parsed_nodes (add_node id name g) = parsed_nodes g ++ [n].
Proof. intros Hp. unfold parsed_nodes, add_node. simpl. rewrite omap_app. simpl. by rewrite Hp. Qed.

Lemma add_each_nodes refs present added g n g' :
  (∀ p, p ∈ present ↔ p ∈ parsed_nodes g) →
  add_each escape_debug present refs added g = Ok (n, g') →
  sg_name g' = sg_name g ∧ sg_client g' = sg_client g ∧
  (NoDup (parsed_nodes g) → NoDup (parsed_nodes g')) ∧
  (∀ p, p ∈ parsed_nodes g' ↔ p ∈ parsed_nodes g ∨ p ∈ named_nodes refs) ∧
  (length (parsed_nodes g') + added = length (parsed_nodes g) + n)%nat.
Proof.
  intros Hp. revert present added g Hp. induction refs as [|r refs IH]; intros present added g Hp; simpl.
  { intros [= <- <-]. split_and!; [done..|set_solver|lia]. }
  unfold named_nodes. simpl. unfold ref_node at 1.
  destruct (String.eqb (trim (nr_node_id r)) EmptyString); [by apply IH|].
  destruct (parse_node (trim (nr_node_id r))) as [x|] eqn:Hx; [|done]. fold (named_nodes refs).
  case_bool_decide as Hin.
  - intros Hr. destruct (IH _ _ _ Hp Hr) as (? & ? & ? & Hs & ?). split_and!; try done.
    intros p. rewrite Hs, elem_of_cons. apply Hp in Hin. naive_solver.
  - intros Hr. apply IH in Hr as (H1 & H2 & H3 & H4 & H5); [|intros p; rewrite (parsed_add _ _ _ _ Hx); set_solver].
    rewrite (parsed_add _ _ _ _ Hx) in *. rewrite length_app in H5. simpl in H5.
    split_and!; [done|done| |set_solver|lia].
    intros Hn. apply H3. apply NoDup_app. split_and!; [done|set_solver|apply NoDup_singleton].
Qed.

Lemma omap_filter_kept (gone : list NodeId) l :
  (∀ n, n ∈ l → is_Some (parse_node n)) →
  omap parse_node (List.filter (fun n => match parse_node n with Some i => negb (bool_decide (i ∈ gone)) | None => true end) l) =
  List.filter (fun p => negb (bool_decide (p ∈ gone))) (omap parse_node l).
Proof.
  induction l as [|n l IH]; intros Hl; [done|]. destruct (Hl n) as [p Hp]; [by left|]. rewrite omap_cons_eq, Hp. cbn [List.filter].
  rewrite Hp. destruct (negb _); rewrite <- IH by set_solver; [|done]. by rewrite omap_cons_eq, Hp.
Qed.

(** Adding nodes to a summarise group makes it
    the union of its nodes and the named ones, removing them the difference,
    whatever the ways a node is written; no node is in the group twice, its
    name and client stay, and the number answered and recorded is the number of
    nodes it grew or shrank by. *)
Theorem group_nodes_as_sets g refs ids n g' :
  NoDup (parsed_nodes g) → Forall (fun s => is_Some (parse_node s)) (nodes g) →
  add_to_group escape_debug g refs = Ok (n, g') →
  (NoDup (parsed_nodes g') ∧ sg_name g' = sg_name g ∧ sg_client g' = sg_client g ∧
   (∀ p, p ∈ parsed_nodes g' ↔ p ∈ parsed_nodes g ∨ p ∈ named_nodes refs) ∧
   length (parsed_nodes g') = (length (parsed_nodes g) + n)%nat) ∧
  let removed := remove_from_group g ids in
  NoDup (parsed_nodes removed.2) ∧ sg_name removed.2 = sg_name g ∧ sg_client removed.2 = sg_client g ∧
  (∀ p, p ∈ parsed_nodes removed.2 ↔ p ∈ parsed_nodes g ∧ p ∉ omap parse_node ids) ∧
  (length (parsed_nodes removed.2) + removed.1 = length (parsed_nodes g))%nat.
Proof.
  intros Hn Hall Ha. apply (add_each_nodes refs) in Ha as (H1 & H2 & H3 & H4 & H5); [|done..]. split.
  { split_and!; auto; lia. }
  assert (Hk : parsed_nodes (remove_from_group g ids).2 =
    List.filter (fun p => negb (bool_decide (p ∈ omap parse_node ids))) (parsed_nodes g)).
  { apply omap_filter_kept. by apply Forall_forall. }
  assert (Hlen : ∀ l, Forall (fun s => is_Some (parse_node s)) l → length (omap parse_node l) = length l).
  { induction 1 as [|s l [p Hp] _ IH]; [done|]. rewrite omap_cons_eq, Hp. simpl. by rewrite IH. }
  assert (Hsub : List.filter (fun n => match parse_node n with Some i => negb (bool_decide (i ∈ omap parse_node ids)) | None => true end)
                   (nodes g) `sublist_of` nodes g) by apply bool_filter_sublist.
  split_and!; [|done|done| |].
  - rewrite Hk. eapply sublist_NoDup; [exact Hn|apply bool_filter_sublist].
  - intros p. rewrite Hk, list_elem_of_In, List.filter_In, <- list_elem_of_In, negb_true_iff, bool_decide_eq_false. done.
  - unfold parsed_nodes, remove_from_group. simpl. rewrite !Hlen; [|done|].
    + apply sublist_length in Hsub. lia.
    + rewrite Forall_forall in *. intros s Hs. apply Hall. by eapply elem_of_sublist.
Qed.
End GroupNodes.

(** ** Every edit is on record *)
Section Edits.
Context `{Opc}.
Context (escape_debug : string → string).
Context (parse_uri : string → result string Uri) (ca_usable : option string → result string unit).
Abbreviation site := (prog Site).

Inductive SiteOp : Type :=
| OpCreateTarget (t : TargetConfig)
| OpUpdateTarget (name : string) (t : TargetConfig)
| OpDeleteTarget (name : string)
| OpCreateGroup (name : string) (new : NewGroup)
| OpRenameGroup (name : string) (index : nat) (expect : GroupCheck) (new : option string)
| OpDeleteGroup (name : string) (index : nat) (expect : GroupCheck)
| OpAddNodes (name : string) (index : nat) (expect : GroupCheck) (refs : list NodeRef)
| OpRemoveNodes (name : string) (index : nat) (expect : GroupCheck) (ids : list string)
| OpAudit (new : AuditConfig)
| OpExport (input : option QuestDbInput)
| OpGateway (names : list string)
| OpMcp (on : bool).

Definition serve_site (x : Meets) (u : AuthUser) (op : SiteOp) : site (result ApiError unit) :=
  let o := m_outside x in
  match op with
  | OpCreateTarget t => create_target escape_debug o u t
  | OpUpdateTarget name t => update_target escape_debug o u name t
  | OpDeleteTarget name => delete_target escape_debug o u name
  | OpCreateGroup name new => r ← create_group escape_debug o u name new; mret (ok_unit r)
  | OpRenameGroup name i c new => rename_group escape_debug o u name i c new
  | OpDeleteGroup name i c => delete_group escape_debug o u name i c
  | OpAddNodes name i c refs => r ← add_nodes escape_debug o u name i c refs; mret (ok_unit r)
  | OpRemoveNodes name i c ids => r ← remove_nodes escape_debug o u name i c ids; mret (ok_unit r)
  | OpAudit new => put_audit escape_debug x u new
  | OpExport input => put_export escape_debug parse_uri ca_usable x u input
  | OpGateway names => put_gateway escape_debug x u names
  | OpMcp on => put_mcp escape_debug x u on
  end.

(** The configuration, without the key that is read but not used. *)
Definition settings_of (s : Site) : Config :=
  let c := config (s_manager s) in set_export (mkExportConfig (questdb (export c)) None) c.

(** Nothing changes but what is no setting, and nothing is recorded but the
    end of sessions. *)
Definition quiet (l : label Site) : Prop :=
  match l with
  | LUpdate b a => settings_of a = settings_of b
  | LRecord _ e _ => session_end e
  | _ => True
  end.

(** The configuration a step sees is valid. *)
Definition sound (l : label Site) : Prop :=
  match l with LUpdate b _ => config_valid (config (s_manager b)) | _ => True end.

(** Starting the exporter can fail after its settings were saved. *)
Definition saved_first (op : SiteOp) : Prop := match op with OpExport _ => True | _ => False end.

(** One step may change the settings, an admin's; when the request succeeds a
    record of the change is its last act. *)
Definition accounted (u : AuthUser) (halfway : Prop) (ls : list (label Site)) (r : result ApiError unit) : Prop :=
  Forall quiet ls ∨
  au_role u = Admin ∧ ∃ l1 b a l2, ls = l1 ++ LUpdate b a :: l2 ∧ Forall quiet l1 ∧
    match r with
    | Ok _ => ∃ l3 e res, l2 = l3 ++ [LClock (ts e); LRecord true e res] ∧ Forall quiet l3 ∧ config_change u e
    | Err _ => halfway ∧ Forall quiet l2
    end.

Lemma accounted_quiet u hw ls r l0 : Forall quiet l0 → accounted u hw ls r → accounted u hw (l0 ++ ls) r.
Proof.
  intros Hq [Hl|(Ha & l1 & b & a & l2 & -> & Hl1 & Hr)]; [left; by apply Forall_app|right]. split; [done|].
  exists (l0 ++ l1), b, a, l2. split_and!; [by rewrite <- app_assoc|by apply Forall_app|done].
Qed.

(** *** The parts *)
Definition with_manager (m : Manager) (s : Site) : Site :=
  mkSite m (s_browser s) (s_settings s) (s_exporting s) (s_files s).

Lemma runs_on_manager {A} (f : Manager → A * Manager) ls r :
  runs (on_manager f) ls (Ret r) →
  ∃ s, ls = [LUpdate s (with_manager (f (s_manager s)).2 s)] ∧ r = (f (s_manager s)).1.
Proof. unfold on_manager. intros Hr. run_parts. by exists s. Qed.

Lemma runs_read_config ls c : runs read_config ls (Ret c) → Forall quiet ls ∧ ∃ s, c = config (s_manager s).
Proof.
  intros (s & -> & ->)%runs_on_manager. split; [by repeat constructor|]. by exists s.
Qed.

Lemma runs_close_entries l ls r : runs (close_all l : site unit) ls (Ret r) → Forall quiet ls.
Proof.
  revert ls. induction l as [|e l IH]; intros ls; cbn [close_all]; unfold WebAuth.audit; intros Hr; run_parts; [done|].
  apply IH in Hr1. by repeat constructor.
Qed.

Lemma runs_close_target name ls r : runs (close_target name) ls (Ret r) → Forall quiet ls.
Proof. unfold close_target. intros Hr. run_parts. apply runs_close_entries in Hr1. by constructor. Qed.

Lemma runs_note u changed text ls r :
  runs (note u changed text) ls (Ret r) →
  if changed then ∃ e res, ls = [LClock (ts e); LRecord true e res] ∧ config_change u e else ls = [].
Proof.
  unfold note. destruct changed; intros Hr; run_parts; [|done].
  apply runs_config_changed in Hr0 as (e & -> & He). rewrite app_nil_r. eauto.
Qed.

(** A step of the manager, and what follows it. *)
Lemma accounted_step u hw s s' ls r :
  au_role u = Admin →
  (match r with
   | Ok _ => settings_of s' = settings_of s ∧ Forall quiet ls ∨
             ∃ l3 e res, ls = l3 ++ [LClock (ts e); LRecord true e res] ∧ Forall quiet l3 ∧ config_change u e
   | Err _ => Forall quiet ls ∧ (hw ∨ settings_of s' = settings_of s)
   end) →
  accounted u hw (LUpdate s s' :: ls) r.
Proof.
  intros Ha Hr. destruct r as [v|e].
  - destruct Hr as [[Hs Hl]|Hr]; [left; by constructor|right]. split; [done|]. by exists [], s, s', ls.
  - destruct Hr as [Hl [Hw|Hs]]; [right|left; by constructor]. split; [done|]. by exists [], s, s', ls.
Qed.

Lemma same_config s m : config m = config (s_manager s) → settings_of (with_manager m s) = settings_of s.
Proof. unfold settings_of. simpl. by intros ->. Qed.

Lemma admin_of u : role_rank Admin ≤ role_rank (au_role u) → au_role u = Admin.
Proof. apply needs_admin. Qed.

(** *** What an operation of the manager leaves *)
Lemma refused_same o ch ok m m' : outcome o ch ok m m' → ok = false → config m' = config m.
Proof. intros Ho ->. by eapply outcome_refused. Qed.

Lemma valid_names c : config_valid c → NoDup (t_name <$> targets c).
Proof. by intros (_ & _ & _ & _ & ? & _). Qed.

Lemma upsert_refused o t replaces m e :
  config_valid (config m) → (upsert o t replaces m).1 = Err e → config (upsert o t replaces m).2 = config m.
Proof. intros Hv He. eapply refused_same; [by apply upsert_outcome, valid_names|by rewrite He]. Qed.

Lemma remove_refused o name m e :
  config_valid (config m) → (remove o name m).1 = Err e → config (remove o name m).2 = config m.
Proof. intros Hv He. eapply refused_same; [by apply remove_outcome|by rewrite He]. Qed.

Lemma groups_refused {E A} o (from : TargetError → E) name (f : list SummariseGroup → result E (A * list SummariseGroup)) m e :
  config_valid (config m) → (update_summarise o from name f m).1 = Err e → config (update_summarise o from name f m).2 = config m.
Proof. intros Hv He. eapply refused_same; [by apply groups_outcome, valid_names|by rewrite He]. Qed.

Lemma settings_refused o f m e : (update_settings o f m).1 = Err e → config (update_settings o f m).2 = config m.
Proof. intros He. eapply refused_same; [apply settings_outcome|by rewrite He]. Qed.

Lemma settings_done o f m oc :
  (update_settings o f m).1 = Ok oc → oc = (config m, f (config m)) ∧ config (update_settings o f m).2 = f (config m).
Proof.
  unfold update_settings. destruct (valid _) as [u|e]; [|done]. destruct (write_file _ _ _) as [[[]|e] fl]; [|done].
  by intros [= <-].
Qed.

(** A change through the manager that is recorded whenever it succeeds. *)
Lemma accounted_change {A B} u (f : Manager → result TargetError A * Manager) (g : TargetError → ApiError)
    (k : A → site (result ApiError B)) (ok : B → unit) ls r :
  au_role u = Admin →
  (∀ m e, config_valid (config m) → (f m).1 = Err e → config (f m).2 = config m) →
  (∀ a ls y, runs (k a) ls (Ret y) → is_Ok y = true ∧
     ∃ l3 e res, ls = l3 ++ [LClock (ts e); LRecord true e res] ∧ Forall quiet l3 ∧ config_change u e) →
  Forall sound ls → runs (x ← on_manager f; try g x k) ls (Ret r) →
  accounted u False ls (ok_unit r).
Proof.
  intros Ha Hf Hk Hs Hr. run_parts. apply runs_on_manager in Hr0 as (s & -> & ->).
  apply Forall_cons in Hs as [Hs _]. simpl in Hs.
  apply runs_try in Hr1 as [(e & He & -> & ->)|(a & Hok & Hr)]; simpl; apply accounted_step; simpl; try done.
  - split; [done|]. right. apply same_config. by eapply Hf.
  - destruct (Hk _ _ _ Hr) as [Hy Hl]. destruct r as [v|e]; [|done]. simpl. right. exact Hl.
Qed.

Ltac site_parts :=
  run_parts;
  repeat match goal with
  | Hr : runs (config_changed _ _) _ (Ret _) |- _ => apply runs_config_changed in Hr as (? & -> & ?)
  | Hr : runs (close_target _) _ (Ret _) |- _ => apply runs_close_target in Hr
  | Hr : runs read_config _ (Ret _) |- _ => apply runs_read_config in Hr as [? [? ->]]
  end.

Lemma record_last {B} u text (b : B) ls y :
  runs (_ ← config_changed u text; mret (Ok b) : site (result ApiError B)) ls (Ret y) → is_Ok y = true ∧
  ∃ l3 e res, ls = l3 ++ [LClock (ts e); LRecord true e res] ∧ Forall quiet l3 ∧ config_change u e.
Proof.
  intros Hr. run_parts. apply runs_config_changed in Hr0 as (e & -> & He). split; [done|].
  by exists [], e, a.
Qed.

Lemma record_after_close {B} u name text (b : B) ls y :
  runs (_ ← close_target name; _ ← config_changed u text; mret (Ok b) : site (result ApiError B)) ls (Ret y) → is_Ok y = true ∧
  ∃ l3 e res, ls = l3 ++ [LClock (ts e); LRecord true e res] ∧ Forall quiet l3 ∧ config_change u e.
Proof.
  intros Hr. site_parts. split; [done|]. do 3 eexists. rewrite app_nil_r. by split_and!.
Qed.

(** Refused for the role, or an admin's. *)
Lemma accounted_requires u hw {A} (k : site (result ApiError A)) ls r :
  runs (requires Admin u k) ls (Ret r) →
  (au_role u = Admin → runs k ls (Ret r) → accounted u hw ls (ok_unit r)) →
  accounted u hw ls (ok_unit r).
Proof.
  intros Hr Hk. apply runs_requires in Hr as [(e & -> & ->)|[Ha Hr]]; [by left|].
  apply Hk; [by apply needs_admin|done].
Qed.

Lemma accounted_create_target o u t ls r :
  Forall sound ls → runs (create_target escape_debug o u t) ls (Ret r) → accounted u False ls r.
Proof.
  intros Hs Hr. rewrite <- ok_unit_id. eapply accounted_requires; [exact Hr|]. intros Ha Hr'.
  refine (accounted_change u _ _ _ id _ _ Ha _ _ Hs Hr').
  - intros m e. apply upsert_refused.
  - intros [] ls' y. apply record_last.
Qed.

Lemma accounted_delete_target o u name ls r :
  Forall sound ls → runs (delete_target escape_debug o u name) ls (Ret r) → accounted u False ls r.
Proof.
  intros Hs Hr. rewrite <- ok_unit_id. eapply accounted_requires; [exact Hr|]. intros Ha Hr'.
  refine (accounted_change u _ _ _ id _ _ Ha _ _ Hs Hr').
  - intros m e. apply remove_refused.
  - intros [] ls' y. apply record_after_close.
Qed.

Lemma accounted_update_target o u name t ls r :
  Forall sound ls → runs (update_target escape_debug o u name t) ls (Ret r) → accounted u False ls r.
Proof.
  intros Hs Hr. rewrite <- ok_unit_id. eapply accounted_requires; [exact Hr|]. clear Hr. intros Ha Hr.
  unfold target_config in Hr. site_parts. rewrite app_nil_r in *. apply Forall_app in Hs as [_ Hs].
  apply accounted_quiet; [done|]. match goal with Hx : runs (try id _ _) _ _ |- _ => rename Hx into Hr1 end.
  unfold try at 1 in Hr1. destruct (of_option _ _) as [old|e]; [|run_parts; by left].
  refine (accounted_change u _ _ _ id _ _ Ha _ _ Hs Hr1).
  - intros m e. apply upsert_refused.
  - intros [] ls' y. apply record_after_close.
Qed.

Lemma accounted_groups {A B} o u name (change : list SummariseGroup → result ApiError (A * list SummariseGroup))
    (k : A → site (result ApiError B)) ls r :
  (∀ a ls y, runs (k a) ls (Ret y) → is_Ok y = true ∧
     ((∃ l3 e res, ls = l3 ++ [LClock (ts e); LRecord true e res] ∧ Forall quiet l3 ∧ config_change u e) ∨
      ls = [] ∧ ∀ t gs, summarise_valid t → change (summarise t) = Ok (a, gs) → gs = summarise t)) →
  Forall sound ls → runs (change_groups escape_debug o u name change k) ls (Ret r) →
  accounted u False ls (ok_unit r).
Proof.
  intros Hk Hs Hr. eapply accounted_requires; [exact Hr|]. clear Hr. intros Ha Hr.
  run_parts. apply runs_on_manager in Hr0 as (s & -> & ->). apply Forall_cons in Hs as [Hs _]. simpl in Hs.
  apply runs_try in Hr1 as [(e & He & -> & ->)|(a & Hok & Hr)]; simpl; apply accounted_step; simpl; try done.
  - split; [done|]. right. apply same_config. by eapply groups_refused.
  - destruct (Hk _ _ _ Hr) as [Hy Hl]. destruct r as [v|e]; [|done]. simpl.
    destruct Hl as [Hl|[-> Hsame]]; [by right|left]. split; [|done]. apply same_config.
    eapply update_summarise_same; [by apply valid_names|exact Hok|]. intros t gs Hin. apply Hsame.
    destruct Hs as (_ & _ & _ & _ & _ & _ & Hall). rewrite Forall_forall in Hall. by destruct (Hall t Hin) as (_ & _ & _ & _ & _ & _ & ?).
Qed.

Lemma change_group_same {A} index target expect (f : SummariseGroup → result ApiError (A * SummariseGroup)) t a gs :
  (∀ g g', g ∈ summarise t → f g = Ok (a, g') → g' = g) →
  change_group index target expect f (summarise t) = Ok (a, gs) → gs = summarise t.
Proof.
  intros Hf. unfold change_group, group_at.
  destruct (summarise t !! index) as [g|] eqn:Hg; [|done]. simpl. destruct (_ && _); [done|]. simpl.
  destruct (f g) as [[a' g']|e] eqn:Hfg; [|done]. intros [= -> <-].
  rewrite (Hf g g'); [by apply list_insert_id|by eapply list_elem_of_lookup_2|done].
Qed.

Lemma group_label_name n n' c ns nm ns' nm' :
  group_label (mkSummariseGroup n c ns nm) = group_label (mkSummariseGroup n' c ns' nm') → n = n'.
Proof.
  unfold group_label. simpl. destruct c as [c|]; intros He%append_same_tail.
  all: destruct n as [n|], n' as [n'|]; [|done..]; injection He as He; apply append_same_tail in He; by subst.
Qed.

Lemma add_each_count refs present added g n g' :
  add_each escape_debug present refs added g = Ok (n, g') → (added <= n)%nat ∧ (n = added → g' = g).
Proof.
  revert present added g. induction refs as [|r refs IH]; intros present added g; simpl; [by intros [= <- <-]|].
  destruct (String.eqb _ _); [apply IH|]. destruct (parse_node _) as [x|]; [|done].
  case_bool_decide; [apply IH|]. intros [Hle _]%IH. split; lia.
Qed.

Lemma remove_none g ids :
  (∀ k, k ∈ dom (names g) → k ∈ nodes g) → (remove_from_group g ids).1 = 0%nat → (remove_from_group g ids).2 = g.
Proof.
  intros Hn Hl. unfold remove_from_group in *. simpl in *.
  set (kept := List.filter _ (nodes g)) in *.
  assert (Hk : kept = nodes g) by (apply bool_filter_all; fold kept; lia).
  rewrite Hk. destruct g as [n c ns nm]. simpl in *. f_equal. apply map_filter_id. intros k v Hkv. apply Hn, elem_of_dom. by exists v.
Qed.

Lemma group_of_valid t g : summarise_valid t → g ∈ summarise t → group_valid g.
Proof. intros (_ & _ & _ & Hg & _) Hin. rewrite Forall_forall in Hg. by apply Hg. Qed.

Lemma note_last {B} u changed text (b : B) ls y :
  runs (_ ← note u changed text; mret (Ok b) : site (result ApiError B)) ls (Ret y) → is_Ok y = true ∧
  ((∃ l3 e res, ls = l3 ++ [LClock (ts e); LRecord true e res] ∧ Forall quiet l3 ∧ config_change u e) ∨ ls = [] ∧ changed = false).
Proof.
  intros Hr. run_parts. apply runs_note in Hr0. split; [done|]. rewrite app_nil_r.
  destruct changed; [left|by right]. destruct Hr0 as (e & res & -> & He). by exists [], e, res.
Qed.

Lemma accounted_create_group o u name new ls r :
  Forall sound ls → runs (create_group escape_debug o u name new) ls (Ret r) → accounted u False ls (ok_unit r).
Proof.
  intros Hs Hr. eapply accounted_groups; [|exact Hs|exact Hr]. intros [change label] ls' y Hk.
  apply record_last in Hk as [Hy Hl]. split; [done|by left].
Qed.

Lemma accounted_delete_group o u name index expect ls r :
  Forall sound ls → runs (delete_group escape_debug o u name index expect) ls (Ret r) → accounted u False ls r.
Proof.
  intros Hs Hr. rewrite <- ok_unit_id. eapply accounted_groups; [|exact Hs|exact Hr]. intros g ls' y Hk.
  apply record_last in Hk as [Hy Hl]. split; [done|by left].
Qed.

Lemma accounted_rename_group o u name index expect new ls r :
  Forall sound ls → runs (rename_group escape_debug o u name index expect new) ls (Ret r) → accounted u False ls r.
Proof.
  intros Hs Hr. rewrite <- ok_unit_id. eapply accounted_groups; [|exact Hs|exact Hr]. intros [old lab] ls' y Hk.
  apply note_last in Hk as [Hy Hl]. split; [done|]. destruct Hl as [Hl|[-> Hc]]; [by left|right]. split; [done|].
  apply negb_false_iff, String.eqb_eq in Hc. subst lab. intros t gs _. apply change_group_same.
  intros g g' _ [= Hold Hnew <-]. destruct g as [n c ns nm]. simpl in *. rewrite <- Hold in Hnew.
  apply group_label_name in Hnew. by rewrite Hnew.
Qed.

Lemma accounted_add_nodes o u name index expect refs ls r :
  Forall sound ls → runs (add_nodes escape_debug o u name index expect refs) ls (Ret r) → accounted u False ls (ok_unit r).
Proof.
  intros Hs Hr. eapply accounted_groups; [|exact Hs|exact Hr]. intros [n lab] ls' y Hk.
  apply note_last in Hk as [Hy Hl]. split; [done|]. destruct Hl as [Hl|[-> Hc]]; [by left|right]. split; [done|].
  apply Nat.ltb_ge in Hc. intros t gs _. apply change_group_same. intros g g' _.
  destruct (add_to_group escape_debug g refs) as [[m g1]|e] eqn:Ha; simpl; [|done]. intros [= -> _ <-].
  apply (add_each_count refs) in Ha as [_ Ha]. apply Ha. lia.
Qed.

Lemma accounted_remove_nodes o u name index expect ids ls r :
  Forall sound ls → runs (remove_nodes escape_debug o u name index expect ids) ls (Ret r) → accounted u False ls (ok_unit r).
Proof.
  intros Hs Hr. eapply accounted_groups; [|exact Hs|exact Hr]. intros [n lab] ls' y Hk.
  apply note_last in Hk as [Hy Hl]. split; [done|]. destruct Hl as [Hl|[-> Hc]]; [by left|right]. split; [done|].
  apply Nat.ltb_ge in Hc. intros t gs Hv. apply change_group_same. intros g g' Hin Hr'. cbv zeta in Hr'.
  injection Hr' as Hn _ <-. apply remove_none; [|unfold remove_from_group; cbn [fst]; lia]. by destruct (group_of_valid _ _ Hv Hin) as (_ & _ & _ & _ & ?).
Qed.

(** *** Settings *)
Definition idle {A} (p : site A) : Prop := ∀ ls r, runs p ls (Ret r) → Forall quiet ls.

Lemma idle_ret {A} (a : A) : idle (mret a).
Proof. intros ls r Hr. by run_parts. Qed.
Lemma idle_bind {A B} (p : site A) (f : A → site B) : idle p → (∀ a, idle (f a)) → idle (p ≫= f).
Proof. intros Hp Hf ls r Hr. run_parts. apply Forall_app. split; [by eapply Hp|by eapply Hf]. Qed.
Lemma idle_on_files {A} (f : gmap string string → A * gmap string string) : idle (on_files f).
Proof. unfold on_files. intros ls r Hr. run_parts. by repeat constructor. Qed.
Lemma idle_read_config : idle read_config.
Proof. intros ls c Hr. by apply runs_read_config in Hr as [? _]. Qed.
Lemma idle_try {E A B} (f : E → ApiError) r (k : A → site (result ApiError B)) : (∀ a, idle (k a)) → idle (try f r k).
Proof. intros Hk. unfold try. destruct r; [apply Hk|apply idle_ret]. Qed.
Lemma idle_apply_exports x e : idle (apply_exports parse_uri ca_usable x e).
Proof.
  unfold apply_exports. intros ls r Hr. run_parts. constructor; [|constructor]. simpl.
  destruct (check_export _ _ _ _); [|done]. by destruct (questdb e), (m_open_state x).
Qed.

#[local] Hint Resolve idle_ret idle_bind idle_on_files idle_read_config idle_try : idle.
Ltac quietly := repeat first
  [ apply idle_ret | apply idle_on_files | apply idle_read_config | apply idle_bind; [|intros ?] | apply idle_try; intros ?
  | match goal with |- idle (match ?x with _ => _ end) => destruct x end ].

Lemma idle_staged x c input : idle (staged parse_uri x c input).
Proof. unfold staged, stage_ca. quietly. Qed.
Lemma idle_read_ca x q : idle (read_ca x q).
Proof. unfold read_ca. quietly. Qed.
Lemma idle_move_ca x c q : idle (move_ca x c q).
Proof. unfold move_ca. quietly. Qed.

(** Every complete run of the program is accounted for. *)
Definition accounts {A} (u : AuthUser) (hw : Prop) (p : site (result ApiError A)) : Prop :=
  ∀ ls r, Forall sound ls → runs p ls (Ret r) → accounted u hw ls (ok_unit r).

Lemma accounts_bind {A B} u hw (p : site A) (f : A → site (result ApiError B)) :
  idle p → (∀ a, accounts u hw (f a)) → accounts u hw (p ≫= f).
Proof.
  intros Hp Hf ls r Hs Hr. run_parts. apply Forall_app in Hs as [_ Hs]. apply accounted_quiet; [by eapply Hp|by eapply Hf].
Qed.
Lemma accounts_try {E A B} u hw (f : E → ApiError) r (k : A → site (result ApiError B)) :
  (∀ a, accounts u hw (k a)) → accounts u hw (try f r k).
Proof. intros Hk. unfold try. destruct r as [a|e]; [apply Hk|]. intros ls r' _ Hr. run_parts. by left. Qed.

Definition settings_of_config (c : Config) : Config := set_export (mkExportConfig (questdb (export c)) None) c.

Lemma accounts_settings {A} u hw o f (k : Config * Config → site (result ApiError A)) :
  au_role u = Admin →
  (∀ c ls y, runs (k (c, f c)) ls (Ret y) →
     match y with
     | Ok _ => settings_of_config (f c) = settings_of_config c ∧ Forall quiet ls ∨
               ∃ l3 e res, ls = l3 ++ [LClock (ts e); LRecord true e res] ∧ Forall quiet l3 ∧ config_change u e
     | Err _ => hw ∧ Forall quiet ls
     end) →
  accounts u hw (r ← on_manager (update_settings o f); try (refused_change escape_debug) r k).
Proof.
  intros Ha Hk ls r _ Hr. run_parts. apply runs_on_manager in Hr0 as (s & -> & ->).
  apply runs_try in Hr1 as [(e & He & -> & ->)|(oc & Hok & Hr)]; simpl; apply accounted_step; simpl; try done.
  - split; [done|]. right. apply same_config. by eapply settings_refused.
  - apply settings_done in Hok as [-> Hc]. specialize (Hk _ _ _ Hr). destruct r as [v|e]; simpl.
    + destruct Hk as [[Hs Hq]|Hl]; [left|by right]. split; [|done]. unfold settings_of. simpl. by rewrite Hc.
    + destruct Hk as [Hw Hq]. split; [done|by left].
Qed.

Lemma accounts_requires {A} u hw (k : site (result ApiError A)) :
  (au_role u = Admin → accounts u hw k) → accounts u hw (requires Admin u k).
Proof. intros Hk ls r Hs Hr. eapply accounted_requires; [exact Hr|]. intros Ha Hr'. by apply Hk. Qed.

Lemma noted {B} u changed text (b : B) l0 ls y (same hw : Prop) :
  Forall quiet l0 → (changed = false → same) →
  runs (_ ← note u changed text; mret (Ok b) : site (result ApiError B)) ls (Ret y) →
  match y with
  | Ok _ => same ∧ Forall quiet (l0 ++ ls) ∨
            ∃ l3 e res, l0 ++ ls = l3 ++ [LClock (ts e); LRecord true e res] ∧ Forall quiet l3 ∧ config_change u e
  | Err _ => hw ∧ Forall quiet (l0 ++ ls)
  end.
Proof.
  intros Hq Hsame Hr. apply note_last in Hr as [Hy Hl]. destruct y as [v|e]; [|done].
  destruct Hl as [(l3 & e & res & -> & Hl3 & He)|[-> Hc]].
  - right. exists (l0 ++ l3), e, res. rewrite <- app_assoc. split_and!; [done|by apply Forall_app|done].
  - left. rewrite app_nil_r. auto.
Qed.

Lemma audit_unchanged new c :
  audit_changes (Config.audit c) (Config.audit (keep_database new c)) = [] → keep_database new c = c.
Proof.
  unfold audit_changes, keep_database, set_audit. simpl. destruct c as [g w a e m t l]. destruct a as [d days mode old secs]. simpl.
  destruct (Z.eqb_spec days (cfg_retention_days new)) as [->|]; [|done].
  case_bool_decide as Hm; [|done]. destruct (Bool.eqb old (cfg_record_old_value new)) eqn:Ho; [|done].
  destruct (Z.eqb_spec secs (ignored_summary_secs new)) as [->|]; [|done]. apply eqb_prop in Ho. by rewrite Hm, Ho.
Qed.

Lemma accounts_put_audit x u new : accounts u False (put_audit escape_debug x u new).
Proof.
  unfold put_audit. apply accounts_requires. intros Ha. apply accounts_settings; [done|]. intros c ls y Hr.
  cbn [fst snd] in Hr. apply runs_bind in Hr as (l0 & ls' & [] & -> & Hr0 & Hr).
  apply runs_atomic in Hr0 as (s & -> & _). revert Hr. apply noted; [by repeat constructor|]. intros Hc%negb_false_iff%bool_decide_eq_true.
  by rewrite (audit_unchanged _ _ Hc).
Qed.

Lemma accounts_put_gateway x u names : accounts u False (put_gateway escape_debug x u names).
Proof.
  unfold put_gateway. apply accounts_requires. intros Ha. apply accounts_try. intros l. apply accounts_settings; [done|].
  intros c ls y Hr. cbn [fst snd] in Hr. revert Hr. apply (noted u _ _ _ []); [done|].
  intros Hc%negb_false_iff%bool_decide_eq_true. unfold set_hostnames, set_gateway in *. simpl in Hc. subst l.
  destruct c as [[] w a e m t lf']. done.
Qed.

Lemma accounts_put_mcp x u on : accounts u False (put_mcp escape_debug x u on).
Proof.
  unfold put_mcp. apply accounts_requires. intros Ha. apply accounts_settings; [done|].
  intros c ls y Hr. cbn [fst snd] in Hr. revert Hr. apply (noted u _ _ _ []); [done|].
  intros Hc%negb_false_iff%eqb_prop. unfold set_enabled, set_mcp in *. simpl in Hc. subst on.
  destruct c as [g w a e [] t lf']. done.
Qed.

Lemma export_unchanged ca ca' old new : export_changes ca ca' old new = [] → old = new.
Proof.
  unfold export_changes. do 2 case_bool_decide; simpl; try done; destruct old, new; simpl; try done; by destruct (String.eqb _ _).
Qed.

Lemma accounts_put_export x u input : accounts u True (put_export escape_debug parse_uri ca_usable x u input).
Proof.
  unfold put_export. apply accounts_requires. intros Ha.
  apply accounts_bind; [apply idle_read_config|intros current]. apply accounts_bind; [apply idle_staged|intros q].
  apply accounts_try. intros q'. apply accounts_try. intros _. apply accounts_bind; [apply idle_on_files|intros checked].
  apply accounts_try. intros _. apply accounts_bind; [apply idle_read_ca|intros old_ca].
  apply accounts_bind; [apply idle_read_ca|intros new_ca]. apply accounts_bind; [apply idle_move_ca|intros moved].
  apply accounts_try. intros q2. apply accounts_settings; [done|]. intros c ls y Hr. cbn [fst snd] in Hr.
  apply runs_bind in Hr as (l0 & ls' & applied & -> & Hr0 & Hr). apply idle_apply_exports in Hr0.
  unfold try in Hr. destruct applied as [[]|e]; [|run_parts; by rewrite app_nil_r].
  revert Hr. apply noted; [done|]. intros Hc%negb_false_iff%bool_decide_eq_true%export_unchanged.
  unfold set_export, settings_of_config in *. simpl in *. by rewrite Hc.
Qed.


(** *** Credentials *)

(** The secret is the caller's, or the stored one of the same server. *)
Definition follows (secret_of : QuestDbConfig → option string) (given : option string) (stored : option QuestDbConfig)
    (q : QuestDbConfig) : Prop :=
  ∀ p, secret_of q = Some p →
    given = Some p ∨
    given = None ∧ ∃ st, stored = Some st ∧ secret_of st = Some p ∧ same_server parse_uri (url st) (url q) = true.

Definition from_form (current : Config) (input : option QuestDbInput) (q : option QuestDbConfig) : Prop :=
  ∀ q', q = Some q' → ∃ i, input = Some i ∧
    follows password (qi_password i) (questdb (export current)) q' ∧
    follows token (qi_token i) (questdb (export current)) q'.

Lemma secret_follows given (stored : option QuestDbConfig) (field : QuestDbConfig → option string) u p :
  secret given ((st ← stored; if same_server parse_uri (url st) u then Some st else None) ≫= field) = Some p →
  given = Some p ∨
  given = None ∧ ∃ st, stored = Some st ∧ field st = Some p ∧ same_server parse_uri (url st) u = true.
Proof.
  unfold secret. destruct given as [v|].
  - destruct (String.eqb v EmptyString); [done|]. intros [= ->]. by left.
  - destruct stored as [st|]; [|done]. simpl. destruct (same_server parse_uri (url st) u) eqn:Hs; [|done]. simpl.
    intros Hp. right. split; [done|]. eauto.
Qed.

Lemma from_input_form current ca i : from_form current (Some i) (Some (from_input parse_uri (questdb (export current)) ca i)).
Proof.
  intros q [= <-]. exists i. split; [done|]. split; intros p; simpl; apply secret_follows.
Qed.

Lemma runs_try_id {A B} r (k : A → site (result ApiError B)) ls y :
  runs (try id r k) ls (Ret y) → (∃ e, r = Err e ∧ y = Err e ∧ ls = []) ∨ ∃ a, r = Ok a ∧ runs (k a) ls (Ret y).
Proof. apply runs_try. Qed.

Lemma runs_staged x current input ls q :
  runs (staged parse_uri x current input) ls (Ret (Ok q)) → from_form current input q.
Proof.
  unfold staged. destruct input as [i|]; intros Hr; [|run_parts; simplify_eq; by intros ? [=]].
  run_parts. apply runs_try_id in Hr1 as [(e & _ & Hy & _)|([] & _ & Hr)]; [done|]. run_parts. simplify_eq.
  apply from_input_form.
Qed.

Lemma runs_move_ca x current input q ls q' :
  from_form current input q → runs (move_ca x current q) ls (Ret (Ok q')) → from_form current input q'.
Proof.
  intros Hq. unfold move_ca. destruct q as [q|]; [|intros Hr; run_parts; by simplify_eq].
  destruct (ca_file q) as [path|]; [|intros Hr; run_parts; by simplify_eq].
  destruct (m_rename_ca x) as [[]|e]; intros Hr; run_parts; [|done].
  apply runs_try in Hr1 as [(e & _ & Hy & _)|([] & _ & Hr)]; [done|]. run_parts. simplify_eq.
  intros q' [= <-]. destruct (Hq q eq_refl) as (i & Hi & Hp & Ht). exists i. by split_and!.
Qed.

(** The step of the manager in a request for other export settings. *)
Definition still (l : label Site) : Prop :=
  match l with LUpdate b a => questdb (export (config (s_manager a))) = questdb (export (config (s_manager b))) | _ => True end.

Lemma quiet_still ls : Forall quiet ls → Forall still ls.
Proof.
  intros Hall. eapply Forall_impl; [exact Hall|]. intros [] Hq; simpl in *; try done. unfold settings_of in Hq. by apply (f_equal (λ c, questdb (export c))) in Hq.
Qed.

Definition export_step (input : option QuestDbInput) (ls : list (label Site)) : Prop :=
  Forall still ls ∨
  ∃ l1 b a l2 s s', ls = l1 ++ LUpdate b a :: l2 ∧ Forall still l1 ∧ Forall still l2 ∧ LUpdate s s' ∈ l1 ∧
    from_form (config (s_manager s)) input (questdb (export (config (s_manager a)))).

Lemma idle_still {A} (p : site A) ls r : idle p → runs p ls (Ret r) → Forall still ls.
Proof. intros Hp Hr. by eapply quiet_still, Hp. Qed.

(** From the staged destination to the end. *)
Lemma export_rest x u current input q ls r :
  from_form current input q →
  runs (try id (refuse_export q) (fun _ =>
         checked ← on_files (fun fs => (check_export parse_uri ca_usable fs q, fs));
         try api_bad_request checked (fun _ =>
           old_ca ← read_ca x (questdb (export current));
           new_ca ← read_ca x q;
           moved ← move_ca x current q;
           try id moved (fun q =>
             r ← on_manager (update_settings (m_outside x) (set_export (mkExportConfig q None)));
             try (refused_change escape_debug) r (fun oc =>
               applied ← apply_exports parse_uri ca_usable x (export oc.2);
               try api_bad_request applied (fun _ =>
                 let l := export_changes old_ca new_ca (questdb (export oc.1)) (questdb (export oc.2)) in
                 _ ← note u (negb (bool_decide (l = []))) (join "; " l);
                 mret (Ok ()))))))) ls (Ret r) →
  Forall still ls ∨
  ∃ l1 b a l2, ls = l1 ++ LUpdate b a :: l2 ∧ Forall still l1 ∧ Forall still l2 ∧
    from_form current input (questdb (export (config (s_manager a)))).
Proof.
  intros Hq Hr. apply runs_try in Hr as [(e & _ & _ & ->)|([] & _ & Hr)]; [by left|].
  apply runs_bind in Hr as (k1 & ls1 & checked & -> & H1%(idle_still _ _ _ (idle_on_files _)) & Hr).
  apply runs_try in Hr as [(e & _ & _ & ->)|([] & _ & Hr)]; [left; by rewrite app_nil_r|].
  apply runs_bind in Hr as (k2 & ls2 & old_ca & -> & H2%(idle_still _ _ _ (idle_read_ca _ _)) & Hr).
  apply runs_bind in Hr as (k3 & ls3 & new_ca & -> & H3%(idle_still _ _ _ (idle_read_ca _ _)) & Hr).
  apply runs_bind in Hr as (k4 & ls4 & moved & -> & Hm & Hr).
  pose proof (idle_still _ _ _ (idle_move_ca _ _ _) Hm) as H4.
  apply runs_try in Hr as [(e & _ & _ & ->)|(q2 & -> & Hr)]; [left; rewrite app_nil_r; by repeat apply Forall_app_2|].
  pose proof (runs_move_ca _ _ _ _ _ _ Hq Hm) as Hq2.
  apply runs_bind in Hr as (k5 & ls5 & res & -> & Hs & Hr). apply runs_on_manager in Hs as (s & -> & ->).
  rewrite !app_assoc. set (l1 := ((k1 ++ k2) ++ k3) ++ k4).
  assert (Hl1 : Forall still l1) by (by repeat apply Forall_app_2).
  apply runs_try in Hr as [(e & He & _ & ->)|(oc & Hok & Hr)].
  { left. apply Forall_app_2; [apply Forall_app_2; [done|]|constructor]. apply settings_refused in He. repeat constructor. simpl. by rewrite He. }
  apply settings_done in Hok as [-> Hc]. right. exists l1, s. eexists _, ls5. split; [by rewrite <- app_assoc|].
  split; [done|]. split; [|simpl; by rewrite Hc].
  apply runs_bind in Hr as (k6 & ls6 & applied & -> & H6%(idle_still _ _ _ (idle_apply_exports _ _)) & Hr).
  apply Forall_app_2; [done|]. apply runs_try in Hr as [(e & _ & _ & ->)|([] & _ & Hr)]; [done|].
  apply note_last in Hr as [_ [(l3 & e & r' & -> & Hl3 & _)|[-> _]]]; [|done].
  apply Forall_app_2; [by apply quiet_still|by repeat constructor].
Qed.

End Edits.

(** What the settings page shows does not depend on the QuestDB password and
    token, only on whether they are set. *)
Definition without_secrets (q : QuestDbConfig) : QuestDbConfig :=
  mkQuestDbConfig (url q) (ca_file q) (table q) ((fun _ => EmptyString) <$> token q) (username q)
    ((fun _ => EmptyString) <$> password q) (interval_secs q).
Theorem secrets_not_shown {Cert} path hosts env (cert : option Cert) unreadable files started c :
  settings_view path hosts env cert unreadable files started c =
  settings_view path hosts env cert unreadable files started
    (set_export (mkExportConfig (without_secrets <$> questdb (export c)) (syslog (export c))) c).
Proof.
  destruct c as [g w a [[[u ca tb [tk|] us [pw|] iv]|] sl] m ts lf]; reflexivity.
Qed.

(** ** Running the model *)
Section WebEditsWitnesses.
Import ToyNodes ToyOpc.

Definition any_uri (s : string) : result string Uri := Ok (mkUri (Some "https") (Some "questdb") None s).
Definition any_ca (pem : option string) : result string unit :=
  match pem with Some _ => Ok () | None => Err "no such file" end.
Definition meets : Meets := mkMeets well (Ok ()) (Ok ()) (Ok ()) "no such file".
(** The export state cannot be opened. *)
Definition no_state_file : Meets := mkMeets well (Ok ()) (Ok ()) (Err "export-state.json: permission denied") "no such file".

Definition admin : AuthUser := mkAuthUser "ann" Admin false None.
Definition on_site : World :=
  mkWorld 1000 "r" (fun _ => Ok 1) false (fun _ => Err BadTimeout) (fun _ _ => Ok ()) (fun _ => Ok ()) (Err "").

Definition exporting : QuestDbConfig :=
  mkQuestDbConfig "https://questdb:9000" (Some "/data/questdb-ca.pem") "audit" None (Some "gw") (Some "secret") 5.
Definition plant : Config :=
  mkConfig (mkGatewayConfig "Gateway" None "/pki" "/data" []) default_web default_audit
    (mkExportConfig (Some exporting) None) (mkMcpConfig false []) [] [].
Definition plant_site : Site :=
  mkSite (mkManager plant ∅ ∅ (Ok [])) ∅ (new_settings default_audit) (Some exporting)
    {["/data/questdb-ca.pem" := "the CA in use"]}.

Abbreviation run op := (exec on_site (serve_site id any_uri any_ca meets admin op) plant_site).


(** The destination moves to another table, without the password typed in
    again. *)
Definition other_table : QuestDbInput := mkQuestDbInput "https://questdb:9000/" "trail" (Some "gw") None None None 5.
Definition trail_export : QuestDbConfig := mkQuestDbConfig "https://questdb:9000" None "trail" None (Some "gw") (Some "secret") 5.


(** The form has a token and a password, which is refused; the CA in use was
    already replaced by the pasted one. *)
Definition both_secrets : QuestDbInput :=
  mkQuestDbInput "https://questdb:9000" "audit" None (Some "secret") (Some "token") (Some "-----BEGIN CERTIFICATE----- mine") 5.
Example ca_replaced_by_refused_change :
  let r := run (OpExport (Some both_secrets)) in
  r.1.2 = Some (Err (mkApiError 400 "export.questdb: use either token or username/password")) ∧
  recorded r.1.1 = [] ∧ config (s_manager r.2) = plant ∧
  s_files r.2 !! "/data/questdb-ca.pem" = Some ("-----BEGIN CERTIFICATE----- mine" +:+ lf).
Proof. vm_compute. by split_and!. Qed.

(** New export settings are saved and in force after the next start, but the
    request fails, and nothing records the change. *)
Example export_saved_unrecorded :
  let r := exec on_site (serve_site id any_uri any_ca no_state_file admin (OpExport (Some other_table))) plant_site in
  r.1.2 = Some (Err (mkApiError 400 "export-state.json: permission denied")) ∧
  recorded r.1.1 = [] ∧ questdb (export (config (s_manager r.2))) = Some trail_export ∧ s_exporting r.2 = None.
Proof. vm_compute. by split_and!. Qed.

Lemma group_nodes_as_sets_witness :
  let g := mkSummariseGroup (Some "HMI") None ["ns=3;i=1"] ∅ in
  ∃ g', add_to_group id g [mkNodeRef " ns=3;i=2 " (Some "Life"); mkNodeRef "ns=3;i=1" None; mkNodeRef "" None] = Ok (1%nat, g') ∧
    (∀ p, p ∈ parsed_nodes g' ↔ p ∈ parsed_nodes g ∨
       p ∈ named_nodes [mkNodeRef " ns=3;i=2 " (Some "Life"); mkNodeRef "ns=3;i=1" None; mkNodeRef "" None]).
Proof.
  eexists. split; [reflexivity|].
  refine (proj1 (proj2 (proj2 (proj2 (proj1 (group_nodes_as_sets id _ _ [] _ _ _ _ _)))))); [|..|reflexivity].
  - apply NoDup_singleton.
  - repeat constructor. by eexists.
Defined.

(** An edit of a target keeps the groups it read before it waited for the
    lock: a change of the groups in between is undone. *)
Definition line_site (gs : list SummariseGroup) : Site :=
  mkSite (mkManager (with_targets [with_summarise plc1 gs] plant) ∅ ∅ (Ok [])) ∅ (new_settings default_audit) None ∅.
Example group_change_undone :
  ∃ s s' p, runs (update_target id well admin "plc1" plc1) [LUpdate (line_site []) s; LUpdate (line_site regrouped) s'] p ∧
    (summarise <$> targets (config (s_manager s'))) = [[]].
Proof.
  do 3 eexists. split.
  - eapply runs_step; [apply (do_update _ _ (line_site []))|].
    eapply runs_step; [apply (do_update _ _ (line_site regrouped))|]. apply runs_here.
  - reflexivity.
Qed.
End WebEditsWitnesses.
