(* ===== verification/Pki.v ===== *)
(** The gateway's certificates ([src/src/pki.rs]): its own pair of certificate
    and private key with the backups taken before it is replaced, and the lists
    of trusted and rejected certificates.

    The directories are state, every operation on a file is a step of a program
    ([Task]), so that it can be cut off anywhere and meet other requests.
    [fsutil::write_atomic] replaces a file in one step; a copy has a step at
    which the file is there in part. What an operation meets ([Fate]) is an
    argument. Certificates, keys and the names the certificate store gives its
    files are async-opcua's ([X509Lib]). *)

From Stdlib Require Import OrderedTypeEx.
From S2P Require Import Prelude Net Event Config Opc Task Steps.

(** ** The cryptography and the certificate store of async-opcua *)
Record X509Data : Type := mkX509Data {
  xd_key_size : Z;
  xd_common_name : string;
  xd_organization : string;
  xd_organizational_unit : string;
  xd_country : string;
  xd_state : string;
  xd_alt_host_names : list string;
  xd_certificate_duration_days : Z;
}.

Class X509Lib `{Opc} : Type := {
  PrivateKey : Type;
  PublicKey : Type;
  (** [X509::from_der], [from_pem], [to_der] *)
  from_der : Blob → option Cert;
  from_pem : Blob → option Cert;
  to_der : Cert → result string Blob;
  (** [PrivateKey::from_pem], [to_der] *)
  key_from_pem : Blob → option PrivateKey;
  key_to_der : PrivateKey → result string Blob;
  (** signatures with Basic256Sha256 *)
  asymmetric_sign : PrivateKey → Blob → result string Blob;
  public_key : Cert → result string PublicKey;
  verifies : PublicKey → Blob → Blob → bool;
  (** what a certificate says *)
  common_name : Cert → option string;
  not_before : Cert → option string;
  not_after : Cert → option string;
  is_time_valid : Z → Cert → bool;
  is_application_uri_valid : string → Cert → bool;
  is_hostname_valid : string → Cert → bool;
  (** a new certificate with its key, from random bytes *)
  alt_host_names : string → option (list string) → list string;
  cert_and_pkey : X509Data → Blob → result string (Cert * PrivateKey);
  (** [CertificateStore]: the file name of a certificate, and a certificate
      file by its name and content *)
  cert_file_name : Cert → string;
  read_cert : string → Blob → result string Cert;
  (** the base64 and chrono crates *)
  base64 : Blob → string;
  stamp_text : Z → string;
}.

(** ** Files *)
Record File : Type := mkFile { fl_name : string; fl_modified : Z; fl_bytes : Blob }.

Record PkiDir : Type := mkPkiDir {
  (** [own/] and [private/], by name *)
  own_dir : gmap string Blob;
  private_dir : gmap string Blob;
  (** [trusted/] and [rejected/], in the order the file system lists them *)
  trusted_dir : list File;
  rejected_dir : list File;
}.

Definition CERT_NAME : string := "cert.der".
Definition KEY_NAME : string := "private.pem".
Definition MAX_REJECTED : nat := 200.
Definition CERTIFICATE_DAYS : Z := 5 * 365.
Definition KEY_SIZE : Z := 2048.

(** What an operation on a file meets: it is done, or fails, and leaves as many
    bytes of the new content behind ([None]: the old content). *)
Inductive Fate : Type :=
| Done
| Failed (e : string) (left : option nat).

Inductive FileOp : Type :=
| MakeKeyDir | CopyCert | CopyKey | WriteKey | WriteCert | ReadOwnDir
| WriteTrusted | MoveToRejected | RemoveRejected.

(** [wx_cut]: how much of a copy is there before all of it is. *)
Record PkiMeets : Type := mkPkiMeets { wx_fate : FileOp → Fate; wx_cut : nat }.

Definition told (f : Fate) : result string unit := match f with Done => Ok () | Failed e _ => Err e end.
Definition bytes_prefix (n : nat) (b : Blob) : Blob := substring 0 n b.

(** [name.<stamp>.bak] *)
Definition bak (name stamp : string) : string := name +:+ "." +:+ stamp +:+ ".bak".

Fixpoint strip_suffix (suffix s : string) : option string :=
  if String.eqb s suffix then Some EmptyString
  else match s with EmptyString => None | String a s => String a <$> strip_suffix suffix s end.

Fixpoint chunks_go (n k : nat) (line s : string) : list string :=
  match s with
  | EmptyString => if String.eqb line EmptyString then [] else [line]
  | String a s =>
      match k with
      | O => line :: chunks_go n (pred n) (String a EmptyString) s
      | S k => chunks_go n k (line +:+ String a EmptyString) s
      end
  end.
(** [body.chunks(64)] *)
Definition chunks64 (s : string) : list string := chunks_go 64 64 EmptyString s.

Definition pem_text (label body : string) : string :=
  "-----BEGIN " +:+ label +:+ "-----" +:+ lf +:+ concat_all ((fun l => l +:+ lf) <$> chunks64 body)
    +:+ "-----END " +:+ label +:+ "-----" +:+ lf.

Section Pki.
Context `{X509Lib}.
Abbreviation files := (prog PkiDir).

(** Goes on with the value of a result, as [?] does. *)
Definition ask {E A B} (r : result E A) (k : A → files (result E B)) : files (result E B) :=
  match r with Ok a => k a | Err e => mret (Err e) end.

(** ** One file *)
Definition set_own (f : gmap string Blob → gmap string Blob) (d : PkiDir) : PkiDir :=
  mkPkiDir (f (own_dir d)) (private_dir d) (trusted_dir d) (rejected_dir d).
Definition set_private (f : gmap string Blob → gmap string Blob) (d : PkiDir) : PkiDir :=
  mkPkiDir (own_dir d) (f (private_dir d)) (trusted_dir d) (rejected_dir d).

(** [write_atomic]: failing at the end, it may have replaced the file. *)
Definition replaced (f : Fate) (bytes : Blob) (name : string) (m : gmap string Blob) : gmap string Blob :=
  match f with Failed _ None => m | _ => <[name := bytes]> m end.
Definition write_key (x : PkiMeets) (bytes : Blob) : files (result string unit) :=
  let f := wx_fate x WriteKey in
  atomic (fun d => (told f, set_private (replaced f bytes KEY_NAME) d)).
Definition write_cert (x : PkiMeets) (bytes : Blob) : files (result string unit) :=
  let f := wx_fate x WriteCert in
  atomic (fun d => (told f, set_own (replaced f bytes CERT_NAME) d)).

(** [std::fs::copy] *)
Definition copied (f : Fate) (cut : nat) (bytes : Blob) (name : string) (m : gmap string Blob) : gmap string Blob :=
  match f with
  | Done => <[name := bytes_prefix cut bytes]> m
  | Failed _ (Some n) => <[name := bytes_prefix n bytes]> m
  | Failed _ None => m
  end.
Definition copy_file (f : Fate) (cut : nat) (on : PkiDir → gmap string Blob)
    (set : (gmap string Blob → gmap string Blob) → PkiDir → PkiDir) (name stamp : string) : files (result string unit) :=
  src ← atomic (fun d => match on d !! name with
                         | Some b => (Some b, set (copied f cut b (bak name stamp)) d)
                         | None => (None, d)
                         end);
  match src, f with
  | None, _ => mret (Ok ())
  | Some b, Done => atomic (fun d => (Ok (), set (insert (bak name stamp) b) d))
  | Some _, Failed e _ => mret (Err e)
  end.

Definition read_own_cert (d : PkiDir) : result string Cert :=
  match own_dir d !! CERT_NAME with
  | Some b => read_cert CERT_NAME b
  | None => Err "no own certificate"
  end.
Definition read_own_pkey (d : PkiDir) : result string PrivateKey :=
  match private_dir d !! KEY_NAME with
  | Some b => of_option "no private key" (key_from_pem b)
  | None => Err "no private key"
  end.
Definition own_certificate_der : files (result string Blob) :=
  d ← get; mret (of_option "no own certificate" (own_dir d !! CERT_NAME)).

(** ** The own pair *)
Definition probe : Blob := "opcua-audit-gateway key check".
(** A signature made with the key verifies with the certificate. *)
Definition check_key_pair (c : Cert) (k : PrivateKey) : result string unit :=
  match asymmetric_sign k probe with
  | Err e => Err ("private key unusable: " +:+ e)
  | Ok signature =>
      match public_key c with
      | Err e => Err ("certificate has no usable public key: " +:+ e)
      | Ok p => if verifies p probe signature then Ok () else Err "the private key does not belong to the certificate"
      end
  end.

Definition certificate_request (uri : string) (g : GatewayConfig) : X509Data :=
  mkX509Data KEY_SIZE (application_name g) (application_name g) "opcua-audit-gateway" EmptyString EmptyString
    (alt_host_names uri (match certificate_hostnames g with [] => None | l => Some l end)) CERTIFICATE_DAYS.

(** [create_own]: the key, then the certificate. *)
Definition create_own (x : PkiMeets) (request : X509Data) : files (result string Cert) :=
  bytes ← random;
  ask (cert_and_pkey request bytes) (fun '(cert, key) =>
  ask (key_to_der key) (fun der =>
  ask (told (wx_fate x MakeKeyDir)) (fun _ =>
    w ← write_key x (pem_text "PRIVATE KEY" (base64 der));
    ask w (fun _ =>
    ask (to_der cert) (fun cert_der =>
      w ← write_cert x cert_der;
      ask w (fun _ => mret (Ok cert))))))).

(** [backup_own] *)
Definition backup_own (x : PkiMeets) : files (result string unit) :=
  now ← clock;
  w ← copy_file (wx_fate x CopyCert) (wx_cut x) own_dir set_own CERT_NAME (stamp_text now);
  ask w (fun _ => copy_file (wx_fate x CopyKey) (wx_cut x) private_dir set_private KEY_NAME (stamp_text now)).

(** The stamps of the backups, the newest first. *)
Definition stamp_of (name : string) : option string := strip_prefix (CERT_NAME +:+ ".") name ≫= strip_suffix ".bak".
Definition stamps (d : PkiDir) : list string :=
  reverse (merge_sort str_le (omap (fun kv => stamp_of kv.1) (map_to_list (own_dir d)))).

(** A backup whose key belongs to its certificate, with its files. *)
Definition matching_backup (d : PkiDir) (stamp : string) : option (Cert * Blob * Blob) :=
  der ← own_dir d !! bak CERT_NAME stamp;
  pem ← private_dir d !! bak KEY_NAME stamp;
  cert ← from_der der;
  key ← key_from_pem pem;
  if is_Ok (check_key_pair cert key) then Some (cert, der, pem) else None.

Fixpoint try_backups (x : PkiMeets) (l : list string) : files (result string Cert) :=
  match l with
  | [] => mret (Err "no matching backup")
  | stamp :: l =>
      d ← get;
      match matching_backup d stamp with
      | None => try_backups x l
      | Some (cert, der, pem) =>
          w ← write_key x pem;
          ask w (fun _ => w ← write_cert x der; ask w (fun _ => mret (Ok cert)))
      end
  end.

(** [restore_backup] *)
Definition restore_backup (x : PkiMeets) : files (result string Cert) :=
  ask (told (wx_fate x ReadOwnDir)) (fun _ => d ← get; try_backups x (stamps d)).

(** [ensure_own_certificate]: the certificate, and whether it is new. *)
Definition ensure_own_certificate (x : PkiMeets) (uri : string) (g : GatewayConfig)
    : files (result string (Cert * bool)) :=
  dc ← get; dk ← get;
  match read_own_cert dc, read_own_pkey dk with
  | Ok cert, Ok key =>
      match check_key_pair cert key with
      | Ok _ => mret (Ok (cert, false))
      | Err e =>
          r ← restore_backup x;
          match r with
          | Ok cert => mret (Ok (cert, false))
          | Err e' => mret (Err ("gateway certificate: " +:+ e +:+
              ", and no backup pair matches; import certificate and key again, or regenerate: " +:+ e'))
          end
      end
  | _, _ =>
      r ← create_own x (certificate_request uri g);
      match r with
      | Ok cert => mret (Ok (cert, true))
      | Err e => mret (Err ("generating gateway certificate: " +:+ e))
      end
  end.

(** [regenerate_own] *)
Definition regenerate_own (x : PkiMeets) (uri : string) (g : GatewayConfig) : files (result string Cert) :=
  w ← backup_own x;
  ask w (fun _ =>
    r ← create_own x (certificate_request uri g);
    match r with Ok cert => mret (Ok cert) | Err e => mret (Err ("generating gateway certificate: " +:+ e)) end).

(** [import_own] *)
Definition import_own (x : PkiMeets) (uri : string) (cert key_pem : Blob) : files (result string Cert) :=
  ask (of_option "the certificate is neither DER nor PEM"
         (match from_der cert with Some c => Some c | None => from_pem cert end)) (fun cert =>
  ask (of_option "the private key is not a PEM encoded RSA key" (key_from_pem key_pem)) (fun key =>
  ask (check_key_pair cert key) (fun _ =>
    now ← clock;
    if negb (is_time_valid now cert) then mret (Err "the certificate is expired or not yet valid")
    else if negb (is_application_uri_valid uri cert)
    then mret (Err ("the certificate's subjectAltName must contain the application URI " +:+ uri))
    else
      w ← backup_own x;
      ask w (fun _ =>
      ask (to_der cert) (fun der =>
        w ← write_key x key_pem;
        ask w (fun _ => w ← write_cert x der; ask w (fun _ => mret (Ok cert)))))))).

(** ** Trust lists *)
Record CertificateInfo : Type := mkCertificateInfo {
  inf_subject : string;
  inf_thumbprint : string;
  inf_not_before : option string;
  inf_not_after : option string;
  inf_missing_hostnames : list string;
}.
Definition from_x509 (c : Cert) : CertificateInfo :=
  mkCertificateInfo (subject_name c) (thumbprint c) (not_before c) (not_after c) [].
Definition with_hostnames (c : Cert) (names : list string) : CertificateInfo :=
  mkCertificateInfo (subject_name c) (thumbprint c) (not_before c) (not_after c)
    (List.filter (fun n => negb (is_hostname_valid n c)) names).

(** On Unix; Windows refuses further characters. *)
Definition safe_file_name (c : Cert) : bool :=
  negb (existsb is_control (chars (default EmptyString (common_name c)))).

Definition set_trusted (f : list File → list File) (d : PkiDir) : PkiDir :=
  mkPkiDir (own_dir d) (private_dir d) (f (trusted_dir d)) (rejected_dir d).
Definition set_rejected (f : list File → list File) (d : PkiDir) : PkiDir :=
  mkPkiDir (own_dir d) (private_dir d) (trusted_dir d) (f (rejected_dir d)).

(** A file by its name; writing replaces it, in its place in the listing. *)
Definition named (name : string) (f : File) : bool := String.eqb (fl_name f) name.
Definition file_at (name : string) (l : list File) : option File := List.find (named name) l.
Definition without (name : string) (l : list File) : list File := List.filter (fun f => negb (named name f)) l.
Definition put_file (f : File) (l : list File) : list File :=
  if existsb (named (fl_name f)) l then (fun g => if named (fl_name f) g then f else g) <$> l else l ++ [f].

Definition parsed (f : File) : option Cert := result_ok (read_cert (fl_name f) (fl_bytes f)).
Definition has_thumbprint (thumb : string) (f : File) : bool :=
  match parsed f with Some c => eq_ignore_ascii_case (thumbprint c) thumb | None => false end.
(** [find]: the first file with the certificate. *)
Definition find_file (thumb : string) (l : list File) : option File := List.find (has_thumbprint thumb) l.

Definition list_dir (l : list File) : list CertificateInfo :=
  sort_stable (fun a b => String.leb (inf_subject a) (inf_subject b)) (from_x509 <$> omap parsed l).

(** [std::fs::write] *)
Definition written (f : Fate) (cut : nat) (name : string) (now : Z) (bytes : Blob) (l : list File) : list File :=
  match f with
  | Done => put_file (mkFile name now (bytes_prefix cut bytes)) l
  | Failed _ (Some n) => put_file (mkFile name now (bytes_prefix n bytes)) l
  | Failed _ None => l
  end.
Definition write_trusted (x : PkiMeets) (name : string) (bytes : Blob) : files (result string unit) :=
  let f := wx_fate x WriteTrusted in
  now ← clock;
  _ ← atomic (fun d => ((), set_trusted (written f (wx_cut x) name now bytes) d));
  match f with
  | Done => atomic (fun d => (Ok (), set_trusted (put_file (mkFile name now bytes)) d))
  | Failed e _ => mret (Err e)
  end.

(** [trust] *)
Definition trust (x : PkiMeets) (c : Cert) : files (result string CertificateInfo) :=
  if negb (safe_file_name c) then mret (Err "the certificate's common name cannot be used as a file name")
  else ask (to_der c) (fun der =>
    w ← write_trusted x (cert_file_name c) der;
    ask w (fun _ =>
      found ← atomic (fun d => (find_file (thumbprint c) (rejected_dir d), d));
      _ ← match found, wx_fate x RemoveRejected with
          | Some f, Done => atomic (fun d => ((), set_rejected (without (fl_name f)) d))
          | _, _ => mret ()
          end;
      mret (Ok (from_x509 c)))).

(** A listed file, read again by its name. *)
Definition reread (on : PkiDir → list File) (f : File) : files (result string Cert) :=
  atomic (fun d => (match file_at (fl_name f) (on d) with
                    | Some f => read_cert (fl_name f) (fl_bytes f)
                    | None => Err "Cannot open cert file"
                    end, d)).

(** [trust_rejected] *)
Definition trust_rejected (x : PkiMeets) (thumb : string) : files (result string CertificateInfo) :=
  found ← atomic (fun d => (find_file thumb (rejected_dir d), d));
  ask (of_option ("no rejected certificate " +:+ thumb) found) (fun f =>
    c ← reread rejected_dir f; ask c (trust x)).

(** [untrust]: back to [rejected/], keeping its time. *)
Definition untrust (x : PkiMeets) (thumb : string) : files (result string CertificateInfo) :=
  found ← atomic (fun d => (find_file thumb (trusted_dir d), d));
  ask (of_option ("no trusted certificate " +:+ thumb) found) (fun f =>
    c ← reread trusted_dir f;
    ask c (fun c =>
      w ← atomic (fun d =>
        match wx_fate x MoveToRejected, file_at (fl_name f) (trusted_dir d) with
        | Done, Some g =>
            (Ok (), set_rejected (put_file (mkFile (cert_file_name c) (fl_modified g) (fl_bytes g)))
                      (set_trusted (without (fl_name f)) d))
        | Done, None => (Err ("moving " +:+ fl_name f +:+ " to rejected"), d)
        | Failed e _, _ => (Err ("moving " +:+ fl_name f +:+ " to rejected: " +:+ e), d)
        end);
      ask w (fun _ => mret (Ok (from_x509 c))))).

(** [delete_rejected] *)
Definition delete_rejected (x : PkiMeets) (thumb : string) : files (result string CertificateInfo) :=
  found ← atomic (fun d => (find_file thumb (rejected_dir d), d));
  ask (of_option ("no rejected certificate " +:+ thumb) found) (fun f =>
    c ← reread rejected_dir f;
    ask c (fun c =>
      ask (told (wx_fate x RemoveRejected)) (fun _ =>
        _ ← atomic (fun d => ((), set_rejected (without (fl_name f)) d));
        mret (Ok (from_x509 c))))).

(** [cap_rejected]: by the time of the last change, then by name; a file that
    cannot be removed stays. *)
Definition older_file (a b : File) : bool :=
  if fl_modified a =? fl_modified b then String.leb (fl_name a) (fl_name b) else fl_modified a <? fl_modified b.
Definition cap_rejected (stays : File → bool) (l : list File) : list File :=
  if (length l <=? MAX_REJECTED)%nat then l
  else
    let gone := take (length l - MAX_REJECTED) (sort_stable older_file l) in
    List.filter (fun f => negb (existsb (named (fl_name f)) gone) || stays f) l.
End Pki.

(** ** The order of stamps *)
Definition str_lt (a b : string) : Prop := String.compare a b = Lt.

Lemma str_lt_trans a b c : str_lt a b → str_lt b c → str_lt a c.
Proof.
  unfold str_lt. rewrite !String_as_OT.cmp_lt. apply String_as_OT.lt_trans.
Qed.
Lemma str_lt_irrefl a : ¬ str_lt a a.
Proof. unfold str_lt. rewrite String_as_OT.cmp_lt. intros Hl. by apply String_as_OT.lt_not_eq in Hl. Qed.
Lemma str_le_lt a b : str_le a b ↔ a = b ∨ str_lt a b.
Proof.
  unfold str_le, String.leb, str_lt. split.
  - destruct (String.compare a b) eqn:Hc; [|by right|done]. left. by apply String.compare_eq_iff.
  - intros [->|Hc]; [|by rewrite Hc]. destruct (String.compare b b) eqn:Hc; [done|done|].
    pose proof (String.compare_antisym b b) as Hs. by rewrite Hc in Hs.
Qed.
Lemma str_lt_not_le a b : str_lt a b → ¬ str_le b a.
Proof.
  intros Hl [->|Hl']%str_le_lt; [by apply str_lt_irrefl in Hl|]. by apply (str_lt_irrefl a), (str_lt_trans _ b).
Qed.
#[export] Instance str_le_trans : Transitive str_le.
Proof.
  intros a b c. rewrite !str_le_lt. intros [->|Hab] [->|Hbc]; [by left|by right|by right|]. right. by eapply str_lt_trans.
Qed.
#[export] Instance str_le_total : Total str_le.
Proof. intros a b. apply String.leb_total. Qed.

(** ** Names of backups *)
Lemma strip_suffix_app suffix s : strip_suffix suffix (s +:+ suffix) = Some s.
Proof.
  induction s as [|a s IH]; cbn [String.append].
  - destruct suffix; cbn [strip_suffix]; by rewrite String.eqb_refl.
  - cbn [strip_suffix]. destruct (String.eqb_spec (String a (s +:+ suffix)) suffix) as [He|_]; [|by rewrite IH].
    apply (f_equal String.length) in He. simpl in He. rewrite length_app_string in He. lia.
Qed.
Lemma strip_suffix_Some suffix s r : strip_suffix suffix s = Some r → s = r +:+ suffix.
Proof.
  revert r. induction s as [|a s IH]; intros r; cbn [strip_suffix].
  - destruct (String.eqb_spec EmptyString suffix) as [<-|_]; [|done]. by intros [= <-].
  - destruct (String.eqb_spec (String a s) suffix) as [<-|_]; [by intros [= <-]|].
    destruct (strip_suffix suffix s) as [r'|]; [|done]. intros [= <-]. simpl. by rewrite (IH r').
Qed.

Lemma stamp_of_bak name s : stamp_of name = Some s ↔ name = bak CERT_NAME s.
Proof.
  unfold stamp_of, bak. split.
  - destruct (strip_prefix _ name) as [r|] eqn:Hp; [|done]. simpl. intros Hs%strip_suffix_Some.
    apply strip_prefix_eq in Hp. by subst.
  - intros ->. cbn. by rewrite strip_suffix_app.
Qed.
Lemma bak_inj name s s' : bak name s = bak name s' → s = s'.
Proof.
  unfold bak. induction name as [|a name IH]; simpl; [|by intros [= ?]; apply IH].
  intros [= He]. by apply append_same_tail in He.
Qed.

(** ** What the cryptography promises

    Certificate files are DER; encodings are read back; no part of a key file
    is another key; a generated key belongs to its certificate. *)
Class X509Laws `{X509Lib} : Prop := {
  read_der b : result_ok (read_cert CERT_NAME b) = from_der b;
  der_back c b : to_der c = Ok b → from_der b = Some c;
  key_part n b k : key_from_pem (bytes_prefix n b) = Some k → key_from_pem b = Some k;
  generated req bytes c k : cert_and_pkey req bytes = Ok (c, k) → is_Ok (check_key_pair c k) = true;
  key_back k b : key_to_der k = Ok b → key_from_pem (pem_text "PRIVATE KEY" (base64 b)) = Some k;
}.

Section Recovery.
Context `{X509Laws}.
Abbreviation files := (prog PkiDir).

Lemma elem_of_stamps d s : s ∈ stamps d ↔ is_Some (own_dir d !! bak CERT_NAME s).
Proof.
  unfold stamps. rewrite elem_of_reverse, merge_sort_Permutation, list_elem_of_omap. split.
  - intros ([k v] & Hin & Hk%stamp_of_bak). apply elem_of_map_to_list in Hin. simpl in *. subst. by exists v.
  - intros [v Hv]. exists (bak CERT_NAME s, v). split; [by apply elem_of_map_to_list|by apply stamp_of_bak].
Qed.

Definition belongs (c : Cert) (k : PrivateKey) : Prop := is_Ok (check_key_pair c k) = true.

(** The pair in use, read from its files. *)
Definition on_disk (d : PkiDir) (c : Cert) (k : PrivateKey) : Prop :=
  (∃ der, own_dir d !! CERT_NAME = Some der ∧ from_der der = Some c) ∧
  ∃ pem, private_dir d !! KEY_NAME = Some pem ∧ key_from_pem pem = Some k.
Definition matching (d : PkiDir) (c : Cert) : Prop := ∃ k, on_disk d c k ∧ belongs c k.

(** The newest backup that matches is one of this certificate. *)
Definition backed_up (d : PkiDir) (c : Cert) : Prop :=
  ∃ s der pem, matching_backup d s = Some (c, der, pem) ∧ ∀ s', str_lt s s' → matching_backup d s' = None.

Definition recoverable (d : PkiDir) (c : Cert) : Prop :=
  ∃ k, on_disk d c k ∧ (belongs c k ∨ backed_up d c).

(** Every backup was made up to a stamp. *)
Definition up_to (z : string) (d : PkiDir) : Prop :=
  ∀ s, is_Some (own_dir d !! bak CERT_NAME s) ∨ is_Some (private_dir d !! bak KEY_NAME s) → str_le s z.

Lemma no_backup_after z d s : up_to z d → str_lt z s →
  own_dir d !! bak CERT_NAME s = None ∧ private_dir d !! bak KEY_NAME s = None.
Proof.
  intros Hu Hl. split; apply eq_None_not_Some; intros Hs; apply (str_lt_not_le _ _ Hl), Hu; auto.
Qed.

Lemma matching_backup_Some d s c der pem :
  matching_backup d s = Some (c, der, pem) ↔
  own_dir d !! bak CERT_NAME s = Some der ∧ private_dir d !! bak KEY_NAME s = Some pem ∧
  from_der der = Some c ∧ ∃ k, key_from_pem pem = Some k ∧ belongs c k.
Proof.
  unfold matching_backup, belongs. split.
  - destruct (own_dir d !! _) as [der'|]; [|done]. destruct (private_dir d !! _) as [pem'|]; [|done]. simpl.
    destruct (from_der der') as [c'|] eqn:?; [|done]. simpl. destruct (key_from_pem pem') as [k|] eqn:?; [|done]. simpl.
    destruct (is_Ok _) eqn:?; [|done]. intros [= <- <- <-]. naive_solver.
  - intros (-> & -> & Hc & k & Hk & Hb). simpl. rewrite Hc. simpl. rewrite Hk. simpl. by rewrite Hb.
Qed.

Lemma matching_backup_same d d' s :
  own_dir d' !! bak CERT_NAME s = own_dir d !! bak CERT_NAME s →
  private_dir d' !! bak KEY_NAME s = private_dir d !! bak KEY_NAME s →
  matching_backup d' s = matching_backup d s.
Proof. intros Ho Hp. unfold matching_backup. by rewrite Ho, Hp. Qed.

Lemma backed_up_same d d' c : (∀ s, matching_backup d' s = matching_backup d s) → backed_up d c → backed_up d' c.
Proof. intros Hs (s & der & pem & Hm & Hl). exists s, der, pem. rewrite Hs. split; [done|]. intros s' Hs'. rewrite Hs. by apply Hl. Qed.

(** *** Single steps *)

(** A new key in use. *)
Lemma step_key d c k c' pem k' z :
  on_disk d c k → key_from_pem pem = Some k' → backed_up d c' → up_to z d →
  let d' := set_private (insert KEY_NAME pem) d in on_disk d' c k' ∧ backed_up d' c' ∧ up_to z d'.
Proof.
  intros [Hc _] Hk Hb Hu d'. split_and!.
  - split; [exact Hc|]. exists pem. split; [apply lookup_insert_eq|done].
  - apply (backed_up_same d); [|done]. intros s. apply matching_backup_same; [done|]. apply lookup_insert_ne. by intros [=].
  - intros s [Hs|Hs]; apply Hu; [by left|right]. simpl in Hs. rewrite lookup_insert_ne in Hs; [done|]. by intros [=].
Qed.

(** A new certificate in use. *)
Lemma step_cert d c k der c' z :
  on_disk d c k → from_der der = Some c' → up_to z d →
  let d' := set_own (insert CERT_NAME der) d in
  on_disk d' c' k ∧ (∀ s, matching_backup d' s = matching_backup d s) ∧ up_to z d'.
Proof.
  intros [_ Hk] Hc Hu d'. split_and!.
  - split; [|exact Hk]. exists der. split; [apply lookup_insert_eq|done].
  - intros s. apply matching_backup_same; [|done]. apply lookup_insert_ne. by intros [=].
  - intros s [Hs|Hs]; apply Hu; [left|by right]. simpl in Hs. rewrite lookup_insert_ne in Hs; [done|]. by intros [=].
Qed.

(** Part of a backup of the certificate, without a key next to it. *)
Lemma step_bak_cert d c k b t :
  on_disk d c k → (belongs c k ∨ backed_up d c) → private_dir d !! bak KEY_NAME t = None → up_to t d →
  let d' := set_own (insert (bak CERT_NAME t) b) d in
  on_disk d' c k ∧ (belongs c k ∨ backed_up d' c) ∧ up_to t d' ∧ ∀ s, matching_backup d' s = matching_backup d s.
Proof.
  intros [Hc Hk] Hb Hn Hu d'.
  assert (Hs : ∀ s, matching_backup d' s = matching_backup d s).
  { intros s. destruct (decide (s = t)) as [->|Hne].
    - unfold matching_backup. simpl. rewrite Hn, lookup_insert_eq. by destruct (own_dir d !! bak CERT_NAME t).
    - apply matching_backup_same; [|done]. apply lookup_insert_ne. by intros He%bak_inj. }
  split_and!; [|destruct Hb; [by left|right; by eapply backed_up_same]| |done].
  - split; [|done]. destruct Hc as (der & Hd & ?). exists der. split; [|done]. simpl. by rewrite lookup_insert_ne.
  - intros s [Hs'|Hs']; [|apply Hu; by right]. simpl in Hs'. destruct (decide (s = t)) as [->|Hne]; [apply str_le_lt; by left|].
    apply Hu. left. rewrite lookup_insert_ne in Hs'; [done|]. by intros He%bak_inj.
Qed.

(** A backup of the key, in part or whole, next to one of the certificate. *)
Lemma step_bak_key d c k der b t :
  on_disk d c k → (belongs c k ∨ backed_up d c) →
  own_dir d !! bak CERT_NAME t = Some der → from_der der = Some c →
  private_dir d !! bak KEY_NAME t = None → (∀ k', key_from_pem b = Some k' → k' = k) → up_to t d →
  let d' := set_private (insert (bak KEY_NAME t) b) d in
  on_disk d' c k ∧ (belongs c k ∨ backed_up d' c) ∧ up_to t d' ∧ (key_from_pem b = Some k → backed_up d' c).
Proof.
  intros [Hc Hk] Hb Hder Hdc Hn Hkey Hu d'.
  assert (Hother : ∀ s, s ≠ t → matching_backup d' s = matching_backup d s).
  { intros s Hne. apply matching_backup_same; [done|]. apply lookup_insert_ne. by intros He%bak_inj. }
  assert (Hold : matching_backup d t = None) by (unfold matching_backup; rewrite Hn; by destruct (own_dir d !! bak CERT_NAME t)).
  assert (Hu' : up_to t d').
  { intros s [Hs'|Hs']; [apply Hu; by left|]. simpl in Hs'. destruct (decide (s = t)) as [->|Hne]; [apply str_le_lt; by left|].
    apply Hu. right. rewrite lookup_insert_ne in Hs'; [done|]. by intros He%bak_inj. }
  assert (Hnewest : ∀ c' p', matching_backup d' t = Some (c', der, p') → c' = c → backed_up d' c).
  { intros c' p' Hm ->. exists t, der, p'. split; [done|]. intros s' Hs'.
    destruct (no_backup_after _ _ _ Hu' Hs') as [Ho _]. unfold matching_backup. by rewrite Ho. }
  assert (Hthere : ∀ k', key_from_pem b = Some k' → belongs c k' → backed_up d' c).
  { intros k' Hk' Hbel. apply (Hnewest c b); [|done]. apply matching_backup_Some.
    split_and!; [done|apply lookup_insert_eq|done|]. by exists k'. }
  assert (Hback : belongs c k ∧ key_from_pem b = Some k ∨ backed_up d c → backed_up d' c).
  { intros [[Hbel Hkb]|Hbk]; [by eapply Hthere|]. destruct (matching_backup d' t) as [[[c' der'] b']|] eqn:Hm.
    - apply matching_backup_Some in Hm as (Hd' & Hp' & Hc' & k' & Hk' & Hbel). simpl in Hd', Hp'.
      rewrite lookup_insert_eq in Hp'. assert (der' = der) as -> by congruence. assert (c' = c) as -> by congruence.
      injection Hp' as <-. by eapply Hthere.
    - apply (backed_up_same d); [|done]. intros s. destruct (decide (s = t)) as [->|Hne]; [congruence|by apply Hother]. }
  split_and!; [|destruct Hb as [Hb|Hb]; [by left|right; auto]|done|].
  - split; [done|]. destruct Hk as (pem & Hp & ?). exists pem. split; [|done]. simpl. by rewrite lookup_insert_ne.
  - intros Hkb. apply Hback. destruct Hb as [Hb|Hb]; [left; by split|by right].
Qed.

(** *** Whole programs, cut off anywhere *)
Definition good (z : string) (d : PkiDir) : Prop := up_to z d ∧ ∃ c, recoverable d c.

Lemma up_to_mono s z d : str_le s z → up_to s d → up_to z d.
Proof. intros Hsz Hu s' Hs'. etrans; [by apply Hu|done]. Qed.

Context (z0 z : string) (Hz : str_le z0 z).
(** The clock gives stamps no backup has yet. *)
Definition fresh (t : Z) : Prop := str_lt z0 (stamp_text t) ∧ str_le (stamp_text t) z.
Abbreviation safe p d Φ := (keeps fresh (good z) p d Φ).

Lemma safe_ask {E A B} (r : result E A) (k : A → files (result E B)) d (Φ : result E B → PkiDir → Prop) :
  good z d → (∀ e, r = Err e → Φ (Err e) d) → (∀ a, r = Ok a → safe (k a) d Φ) → safe (ask r k) d Φ.
Proof. intros Hg He Hk. destruct r; [by apply Hk|]. apply keeps_ret; [done|by apply He]. Qed.

Lemma good_of d c k : on_disk d c k → belongs c k ∨ backed_up d c → up_to z d → good z d.
Proof. intros Hd Hb Hu. split; [done|]. by exists c, k. Qed.

(** A copy: whatever part of it is there, and all of it in the end. *)
Lemma safe_copy f cut (on : PkiDir → gmap string Blob) set name b stamp d (Φ : result string unit → PkiDir → Prop) :
  on d !! name = Some b → good z d →
  (∀ m : gmap string Blob → gmap string Blob, (∀ g, m g = g) → set m d = d) →
  (∀ a a', set (insert (bak name stamp) a) (set (insert (bak name stamp) a') d) = set (insert (bak name stamp) a) d) →
  (∀ n, good z (set (insert (bak name stamp) (bytes_prefix n b)) d)) →
  good z (set (insert (bak name stamp) b) d) →
  (∀ e d', good z d' → Φ (Err e) d') → Φ (Ok ()) (set (insert (bak name stamp) b) d) →
  safe (copy_file f cut on set name stamp) d Φ.
Proof.
  intros Hb Hg Hid Hins Hpart Hall He Hok. unfold copy_file. apply keeps_bind. apply keeps_atomic; [done| |].
  all: rewrite Hb; cbn [fst snd].
  { destruct f as [|e [n|]]; cbn [copied]; [apply Hpart|apply Hpart|]. by rewrite Hid. }
  destruct f as [|e [n|]]; cbn [copied].
  - change (copied Done cut b (bak name stamp)) with (@insert _ _ (gmap string Blob) _ (bak name stamp) (bytes_prefix cut b)).
    apply keeps_atomic; cbn [fst snd]; [apply Hpart|by rewrite Hins|by rewrite Hins].
  - apply keeps_ret; [apply Hpart|]. apply He, Hpart.
  - rewrite Hid by done. apply keeps_ret; [done|by apply He].
Qed.

Lemma set_own_id d (m : gmap string Blob → gmap string Blob) : (∀ g, m g = g) → set_own m d = d.
Proof. intros Hm. destruct d. unfold set_own. simpl. by rewrite Hm. Qed.
Lemma set_private_id d (m : gmap string Blob → gmap string Blob) : (∀ g, m g = g) → set_private m d = d.
Proof. intros Hm. destruct d. unfold set_private. simpl. by rewrite Hm. Qed.
Lemma set_own_twice d k (a b : Blob) : set_own (insert k a) (set_own (insert k b) d) = set_own (insert k a) d.
Proof. unfold set_own. simpl. by rewrite insert_insert_eq. Qed.
Lemma set_private_twice d k (a b : Blob) : set_private (insert k a) (set_private (insert k b) d) = set_private (insert k a) d.
Proof. unfold set_private. simpl. by rewrite insert_insert_eq. Qed.

(** Where both copies are made. *)
Lemma safe_backup x d c k :
  on_disk d c k → belongs c k ∨ backed_up d c → up_to z0 d →
  safe (backup_own x) d (fun r d' => is_Ok r = true → on_disk d' c k ∧ backed_up d' c ∧ up_to z d').
Proof.
  intros Hd Hb Hu. assert (Huz : up_to z d) by (by eapply up_to_mono).
  apply keeps_bind, keeps_clock; [by eapply good_of|]. intros t [Ht0 Htz]. set (s := stamp_text t) in *.
  destruct (no_backup_after _ _ _ Hu Ht0) as [Hno Hnp].
  assert (Hus : up_to s d) by (apply (up_to_mono z0); [apply str_le_lt; by right|done]).
  pose proof Hd as [(der & Hder & Hdc) (pem & Hpem & Hpk)].
  assert (Hcert : ∀ b, on_disk (set_own (insert (bak CERT_NAME s) b) d) c k ∧
    (belongs c k ∨ backed_up (set_own (insert (bak CERT_NAME s) b) d) c) ∧ up_to s (set_own (insert (bak CERT_NAME s) b) d)).
  { intros b. destruct (step_bak_cert d c k b s Hd Hb Hnp Hus) as (? & ? & ? & _). done. }
  assert (Hgc : ∀ b, good z (set_own (insert (bak CERT_NAME s) b) d)).
  { intros b. destruct (Hcert b) as (? & ? & ?). eapply good_of; [done..|]. by eapply up_to_mono. }
  assert (Hgd : good z d) by (by eapply good_of).
  apply keeps_bind. apply (safe_copy _ _ _ _ _ der); auto using set_own_id, set_own_twice.
  { intros e d' Hg. by apply keeps_ret. }
  set (d1 := set_own _ d).
  cbn [ask]. destruct (Hcert der) as (Hd1 & Hb1 & Hu1). fold d1 in Hd1, Hb1, Hu1.
  assert (Hpem1 : private_dir d1 !! KEY_NAME = Some pem) by done.
  assert (Hnp1 : private_dir d1 !! bak KEY_NAME s = None) by done.
  assert (Hder1 : own_dir d1 !! bak CERT_NAME s = Some der) by apply lookup_insert_eq.
  assert (Hkey : ∀ b, (∀ k', key_from_pem b = Some k' → k' = k) →
    good z (set_private (insert (bak KEY_NAME s) b) d1)).
  { intros b Hkb. destruct (step_bak_key d1 c k der b s Hd1 Hb1 Hder1 Hdc Hnp1 Hkb Hu1) as (? & ? & ? & _).
    eapply good_of; [done..|]. by eapply up_to_mono. }
  assert (Hpart : ∀ n, good z (set_private (insert (bak KEY_NAME s) (bytes_prefix n pem)) d1)).
  { intros n. apply Hkey. intros k' Hk'%key_part. congruence. }
  apply (safe_copy _ _ _ _ _ pem); auto using set_private_id, set_private_twice.
  { apply Hgc. }
  { apply Hkey. intros. congruence. }
  { done. }
  intros _. destruct (step_bak_key d1 c k der pem s Hd1 Hb1 Hder1 Hdc Hnp1 ltac:(intros; congruence) Hu1) as (H1' & H2' & H3' & H4').
  split_and!; [exact H1'|by apply H4'|]. by eapply up_to_mono.
Qed.

Lemma safe_write_key x pem d c k k' :
  on_disk d c k → backed_up d c → key_from_pem pem = Some k' → up_to z d →
  safe (write_key x pem) d (fun r d' => r = told (wx_fate x WriteKey) ∧
    (is_Ok r = true → on_disk d' c k' ∧ backed_up d' c ∧ up_to z d')).
Proof.
  intros Hd Hb Hk Hu. destruct (step_key _ _ _ _ _ _ _ Hd Hk Hb Hu) as (H1' & H2' & H3').
  assert (Hg : good z d) by (eapply good_of; eauto).
  assert (Hg' : good z (set_private (insert KEY_NAME pem) d)) by (eapply good_of; eauto).
  unfold write_key. apply keeps_atomic; cbn [fst snd]; [done| |split; [done|]].
  all: destruct (wx_fate x WriteKey) as [|e [n|]]; cbn [told is_Ok replaced]; try done.
Qed.

Lemma safe_write_cert x der d c k c' :
  on_disk d c k → good z d → from_der der = Some c' → belongs c' k → up_to z d →
  safe (write_cert x der) d (fun r d' => r = told (wx_fate x WriteCert) ∧ (is_Ok r = true → matching d' c')).
Proof.
  intros Hd Hg Hc Hbel Hu. destruct (step_cert _ _ _ _ _ _ Hd Hc Hu) as (H1' & _ & H3').
  assert (Hg' : good z (set_own (insert CERT_NAME der) d)) by (eapply good_of; eauto).
  assert (Hm : matching (set_own (insert CERT_NAME der) d) c') by (by exists k).
  unfold write_cert. apply keeps_atomic; cbn [fst snd]; [done| |split; [done|]].
  all: destruct (wx_fate x WriteCert) as [|e [n|]]; cbn [told is_Ok replaced]; try done.
Qed.

(** Without failures. *)
Definition well_met (x : PkiMeets) : Prop := ∀ op, wx_fate x op = Done.

(** The key, then the certificate it belongs to. *)
Lemma safe_install {E} x pem (before : result string Blob) d c k c' k' (v : E) :
  on_disk d c k → backed_up d c → up_to z d → key_from_pem pem = Some k' → belongs c' k' →
  (∀ der, before = Ok der → from_der der = Some c') →
  safe (w ← write_key x pem; ask w (fun _ => ask before (fun der =>
          w ← write_cert x der; ask w (fun _ => mret (Ok v))))) d
    (fun r d' => well_met x → is_Ok before = true → r = Ok v ∧ matching d' c').
Proof.
  intros Hd Hb Hu Hk Hbel Hder. apply keeps_bind.
  eapply keeps_mono; [|by eapply safe_write_key]. intros r1 d1 Hg1 [Hr1 Hst]. apply safe_ask; [done|..].
  { intros e -> Hx. by rewrite Hx in Hr1. }
  intros [] ->. destruct Hst as (Hd1 & Hb1 & Hu1); [done|]. apply safe_ask; [done|by intros e ->|].
  intros der ->. apply keeps_bind. eapply keeps_mono; [|by eapply (safe_write_cert _ _ _ _ k'); auto].
  intros r2 d2 Hg2 [Hr2 Hm]. apply safe_ask; [done|..].
  { intros e -> Hx. by rewrite Hx in Hr2. }
  intros [] ->. apply keeps_ret; [done|]. auto.
Qed.

Lemma safe_create x request d c k :
  on_disk d c k → backed_up d c → up_to z d → safe (create_own x request) d (fun _ _ => True).
Proof.
  intros Hd Hb Hu. assert (Hg : good z d) by (eapply good_of; eauto).
  apply keeps_bind, keeps_random; [done|]. intros bytes. apply safe_ask; [done..|]. intros [cert key] Hgen.
  apply generated in Hgen. apply safe_ask; [done..|]. intros der Hkd. apply safe_ask; [done..|]. intros _ _.
  eapply keeps_mono; [|eapply (safe_install x _ (to_der cert)); [done..|by eapply key_back|exact Hgen|apply der_back]]. done.
Qed.

Lemma safe_regenerate x uri g d :
  good z0 d → safe (regenerate_own x uri g) d (fun _ _ => True).
Proof.
  intros [Hu (c & k & Hd & Hb)]. apply keeps_bind.
  eapply keeps_mono; [|by eapply safe_backup]. intros r d1 Hg1 Hr. apply safe_ask; [done..|]. intros [] ->.
  destruct Hr as (Hd1 & Hb1 & Hu1); [done|]. apply keeps_bind. eapply keeps_mono; [|by eapply safe_create].
  intros [v|e] d2 Hg2 _; by apply keeps_ret.
Qed.

Lemma safe_import x uri cert key_pem d :
  good z0 d → safe (import_own x uri cert key_pem) d (fun _ _ => True).
Proof.
  intros [Hu (c & k & Hd & Hb)]. assert (Hg : good z d) by (eapply good_of; eauto using up_to_mono).
  apply safe_ask; [done..|]. intros new Hnew. apply safe_ask; [done..|]. intros key Hkey%of_option_Ok.
  apply safe_ask; [done..|]. intros [] Hbel. apply keeps_bind, keeps_clock; [done|]. intros now Hnow.
  destruct (is_time_valid now new); [|by apply keeps_ret]. destruct (is_application_uri_valid uri new); [|by apply keeps_ret].
  apply keeps_bind. eapply keeps_mono; [|by eapply safe_backup]. intros r d1 Hg1 Hr.
  apply safe_ask; [done..|]. intros [] ->. destruct Hr as (Hd1 & Hb1 & Hu1); [done|].
  apply safe_ask; [done..|]. intros der Hder%der_back.
  eapply keeps_mono; [|eapply (safe_install x _ (Ok der)); [done..|exact Hkey| |]]; [done| |].
  - unfold belongs. by rewrite Hbel.
  - by intros ? [= <-].
Qed.

(** *** The start *)
Lemma stamps_before d s :
  s ∈ stamps d → ∃ l1 l2, stamps d = l1 ++ s :: l2 ∧ ∀ s', s' ∈ l1 → str_lt s s'.
Proof.
  intros (l1 & l2 & Hl & Hn)%list_elem_of_split_l. exists l1, l2. split; [done|]. intros s' Hs'.
  unfold stamps in Hl. apply (f_equal reverse) in Hl. rewrite reverse_involutive, reverse_app, reverse_cons, <- app_assoc in Hl.
  pose proof (StronglySorted_merge_sort str_le (omap (fun kv => stamp_of kv.1) (map_to_list (own_dir d)))) as Hs.
  rewrite Hl in Hs. apply StronglySorted_app in Hs as (_ & _ & Hs). apply StronglySorted_inv in Hs as [_ Hs].
  rewrite Forall_forall in Hs. destruct (proj1 (str_le_lt s s')) as [->|Hlt]; [apply Hs; by apply elem_of_reverse|done|done].
Qed.

Lemma safe_try x l1 s l2 d c der pem k :
  on_disk d c k → matching_backup d s = Some (c, der, pem) → (∀ s', s' ∈ l1 → matching_backup d s' = None) →
  backed_up d c → up_to z d →
  safe (try_backups x (l1 ++ s :: l2)) d (fun r d' => well_met x → r = Ok c ∧ matching d' c).
Proof.
  intros Hd Hm Hno Hb Hu. assert (Hg : good z d) by (eapply good_of; eauto).
  induction l1 as [|s1 l1 IH]; simpl app; cbn [try_backups]; (apply keeps_bind; split; [done|]; split; [done|]); cbn beta.
  - rewrite Hm. apply matching_backup_Some in Hm as (_ & _ & Hc & k' & Hk' & Hbel).
    eapply keeps_mono; [|eapply (safe_install x pem (Ok der)); [done..|exact Hk'|exact Hbel|]].
    + intros r d' _ Hr Hx. by apply Hr.
    + by intros ? [= <-].
  - rewrite Hno by set_solver. apply IH. set_solver.
Qed.

Lemma safe_ensure x uri g d c k :
  on_disk d c k → belongs c k ∨ backed_up d c → up_to z d →
  safe (ensure_own_certificate x uri g) d (fun r d' => well_met x → r = Ok (c, false) ∧ matching d' c).
Proof.
  intros Hd Hb Hu. assert (Hg : good z d) by by eapply good_of.
  apply keeps_bind; split; [done|]; split; [done|]; cbn beta. apply keeps_bind; split; [done|]; split; [done|]; cbn beta.
  pose proof Hd as [(der & Hder & Hc) (pem & Hpem & Hk)]. unfold id, read_own_cert, read_own_pkey. rewrite Hder, Hpem, Hk.
  pose proof (read_der der) as Hr. rewrite Hc in Hr. destruct (read_cert CERT_NAME der) as [c'|e]; [|done].
  injection Hr as ->. cbn [of_option]. unfold belongs in Hb. destruct (check_key_pair c k) as [[]|e] eqn:Hp.
  { apply keeps_ret; [done|]. intros _. split; [done|]. exists k. split; [done|]. unfold belongs. by rewrite Hp. }
  destruct Hb as [|Hb]; [done|]. apply keeps_bind. apply safe_ask; [done| |].
  { intros e' He'. apply keeps_ret; [done|]. intros Hx. by rewrite Hx in He'. }
  intros _ _. apply keeps_bind; split; [done|]; split; [done|]; cbn beta.
  pose proof Hb as (s & der' & pem' & Hm & Hlast). unfold id.
  assert (Hs : s ∈ stamps d). { apply elem_of_stamps. apply matching_backup_Some in Hm as (-> & _). by eexists. }
  apply stamps_before in Hs as (l1 & l2 & -> & Hl1). eapply keeps_mono; [|eapply safe_try; eauto].
  intros [v|e'] d' Hg' Hv; apply keeps_ret; try done; intros Hx; destruct (Hv Hx) as [[= ->] ?]; done.
Qed.
End Recovery.

(** ** Changes of the pair, interrupted anywhere *)
Section Changes.
Context `{X509Laws}.
Abbreviation files := (prog PkiDir).

Inductive PairOp : Type :=
| ImportPair (uri : string) (cert key_pem : Blob)
| RegeneratePair (uri : string) (g : GatewayConfig)
| StartUp (uri : string) (g : GatewayConfig).

Definition change_pair (x : PkiMeets) (op : PairOp) : files (result string Cert) :=
  match op with
  | ImportPair uri cert key => import_own x uri cert key
  | RegeneratePair uri g => regenerate_own x uri g
  | StartUp uri g =>
      r ← (ensure_own_certificate x uri g : files _);
      mret (match r with Ok (c, _) => Ok c | Err e => Err e end)
  end.

(** What a directory with a matching pair can become: changes of the pair and
    starts of the gateway, one at a time, each meeting any failures and cut off
    anywhere. [z]: all backups were made up to this stamp. *)
Inductive lived : string → PkiDir → Prop :=
| lived_here z d c : matching d c → up_to z d → lived z d
| lived_on z z' d d' x op ls p :
    lived z d → runs (change_pair x op) ls p → chained d ls d' →
    str_le z z' → Forall (fresh z z') (clocks ls) → lived z' d'.

Lemma lived_good z d : lived z d → good z d.
Proof.
  induction 1 as [z d c (k & Hd & Hb) Hu|z z' d d' x op ls p _ IH Hr Hc Hz Ht].
  - split; [done|]. exists c, k. split; [done|by left].
  - assert (Hk : keeps (fresh z z') (good z') (change_pair x op) d (fun _ _ => True)).
    { destruct op as [uri cert key|uri g|uri g]; cbn [change_pair].
      - by apply safe_import.
      - by apply safe_regenerate.
      - destruct IH as [Hu (c & k & Hd & Hb)]. apply keeps_bind. eapply keeps_mono; [|eapply safe_ensure; eauto using up_to_mono].
        intros r d1 Hg _. by apply keeps_ret. }
    by apply (keeps_sound _ _ _ _ _ _ _ _ Hk Hr Hc Ht).
Qed.

(** Claim C33. However imports and regenerations of
    the gateway's certificate and its starts were interrupted or failed, one
    after another and each at any of its writes, the next start that meets no
    failure comes up with the certificate that is on disk and a key that belongs
    to it, put back from a backup where needed: never with a new certificate,
    which no PLC trusts. (The backups' stamps count seconds, so changes have to
    be at least a second apart: [second_change_same_second].) *)
Theorem interrupted_change_recovers x uri g z z' d ls r d' :
  lived z d → well_met x →
  runs (ensure_own_certificate x uri g) ls (Ret r) → chained d ls d' →
  str_le z z' → Forall (fresh z z') (clocks ls) →
  ∃ c, read_own_cert d = Ok c ∧ r = Ok (c, false) ∧ matching d' c.
Proof.
  intros [Hu (c & k & Hd & Hb)]%lived_good Hx Hr Hc Hz Ht. apply (up_to_mono _ z') in Hu; [|done].
  pose proof (safe_ensure z z' Hz x uri g d c k Hd Hb Hu) as Hk.
  destruct (keeps_sound _ _ _ _ _ _ _ _ Hk Hr Hc Ht) as [_ Hres]. destruct (Hres r eq_refl Hx) as [-> Hm].
  exists c. split; [|done]. destruct Hd as [(der & Hder & Hfd) _]. unfold read_own_cert. rewrite Hder.
  pose proof (read_der der) as Hrd. rewrite Hfd in Hrd. destruct (read_cert CERT_NAME der); [|done]. by injection Hrd as ->.
Qed.
End Changes.

(** ** Trust lists *)
Section Lists.
Context `{X509Lib}.

Lemma older_total a b : older_file a b = true ∨ older_file b a = true.
Proof.
  unfold older_file. rewrite (Z.eqb_sym (fl_modified b)). destruct (Z.eqb_spec (fl_modified a) (fl_modified b)) as [|Hne].
  - apply String.leb_total.
  - destruct (Z.ltb_spec (fl_modified a) (fl_modified b)); [by left|right]. apply Z.ltb_lt. lia.
Qed.

Lemma older_trans a b c : older_file a b = true → older_file b c = true → older_file a c = true.
Proof.
  unfold older_file. intros Hab Hbc.
  destruct (Z.eqb_spec (fl_modified a) (fl_modified b)), (Z.eqb_spec (fl_modified b) (fl_modified c)),
    (Z.eqb_spec (fl_modified a) (fl_modified c)); rewrite ?Z.ltb_lt in *; try lia.
  by apply (str_le_trans _ (fl_name b)).
Qed.

Lemma insert_sorted_keeps x l :
  StronglySorted (fun a b => older_file a b = true) l →
  StronglySorted (fun a b => older_file a b = true) (insert_sorted older_file x l).
Proof.
  induction 1 as [|y l Hs IH Hy]; simpl; [by repeat constructor|]. destruct (older_file x y) eqn:Hxy.
  - constructor; [by constructor|]. constructor; [done|]. eapply Forall_impl; [exact Hy|]. intros z. by apply older_trans.
  - constructor; [done|]. rewrite insert_sorted_perm. constructor; [|done]. destruct (older_total x y); congruence.
Qed.

Lemma sort_older l : StronglySorted (fun a b => older_file a b = true) (sort_stable older_file l).
Proof. unfold sort_stable. induction l as [|x l IH]; [constructor|]. by apply insert_sorted_keeps. Qed.

Lemma existsb_named f l : existsb (named (fl_name f)) l = true ↔ ∃ g, g ∈ l ∧ fl_name g = fl_name f.
Proof.
  rewrite existsb_exists. setoid_rewrite list_elem_of_In. unfold named. by setoid_rewrite String.eqb_eq.
Qed.

(** Of a directory with more than [MAX_REJECTED] certificates, the oldest are
    removed: at most that many stay (and those that cannot be removed), and
    no removed one is newer than one that stays. *)
Theorem rejected_bounded stays l :
  NoDup (fl_name <$> l) →
  (length (List.filter (fun f => negb (stays f)) (cap_rejected stays l)) <= MAX_REJECTED)%nat ∧
  ∀ f g, f ∈ l → f ∉ cap_rejected stays l → g ∈ cap_rejected stays l → stays g = false → older_file f g = true.
Proof.
  intros Hn. unfold cap_rejected. destruct (Nat.leb_spec (length l) MAX_REJECTED) as [Hle|Hgt].
  { split; [|set_solver]. etrans; [|exact Hle]. apply sublist_length, bool_filter_sublist. }
  set (sorted := sort_stable older_file l). set (n := (length l - MAX_REJECTED)%nat).
  assert (Hp : sorted ≡ₚ l) by apply sort_stable_perm.
  assert (Hns : NoDup (fl_name <$> sorted)) by (by rewrite Hp).
  assert (Hinj : ∀ a b, a ∈ sorted → b ∈ sorted → fl_name a = fl_name b → a = b).
  { intros a b [i Hi]%list_elem_of_lookup [j Hj]%list_elem_of_lookup Hab.
    assert (i = j) as ->; [|congruence]. eapply NoDup_lookup; [exact Hns|..]; rewrite list_lookup_fmap, ?Hi, ?Hj; simpl; by rewrite ?Hab. }
  assert (Hgone : ∀ f, f ∈ l → existsb (named (fl_name f)) (take n sorted) = true ↔ f ∈ take n sorted).
  { intros f Hf. rewrite existsb_named. split; [|eauto]. intros (g & Hg & He).
    rewrite <- (Hinj g f); [done| |by rewrite Hp|done]. by eapply elem_of_take_l. }
  assert (Hkept : ∀ f, f ∈ List.filter (fun f => negb (existsb (named (fl_name f)) (take n sorted)) || stays f) l →
    stays f = false → f ∈ drop n sorted).
  { intros f. rewrite list_elem_of_In, filter_In, <- list_elem_of_In. intros [Hf Hk] Hs.
    rewrite Hs, orb_false_r in Hk. apply negb_true_iff in Hk.
    assert (Hf' : f ∈ take n sorted ++ drop n sorted) by (rewrite take_drop; by rewrite Hp).
    apply elem_of_app in Hf' as [Ht|Hd]; [|done]. apply (Hgone f Hf) in Ht. congruence. }
  split.
  - set (kept := List.filter _ l) in *.
    assert (Hnd : NoDup (List.filter (fun f => negb (stays f)) kept)).
    { eapply sublist_NoDup; [|etrans; apply bool_filter_sublist]. by apply NoDup_fmap_1 in Hn. }
    assert (Hsub : ∀ f, f ∈ List.filter (fun f => negb (stays f)) kept → f ∈ drop n sorted).
    { intros f. rewrite list_elem_of_In, filter_In, <- list_elem_of_In, negb_true_iff. intros [? ?]. by apply Hkept. }
    pose proof (submseteq_length _ _ (NoDup_submseteq _ _ Hnd Hsub)) as Hl. rewrite length_drop in Hl.
    rewrite (Permutation_length Hp) in Hl. subst n. lia.
  - intros f g Hf Hnot Hg Hsg. rewrite list_elem_of_In, filter_In, <- list_elem_of_In in Hnot.
    destruct (existsb (named (fl_name f)) (take n sorted)) eqn:He; [|tauto]. apply (Hgone f Hf) in He.
    exact (StronglySorted_take_drop _ _ _ _ _ (sort_older l) He (Hkept g Hg Hsg)).
Qed.
End Lists.

(** ** Running the model *)

(** Two keys, ["A"] and ["B"]; the first letter of a certificate is its key's. *)
Module ToyX509.
Import ToyNodes ToyOpc.

Definition key_file (k : bool) : Blob := pem_text "PRIVATE KEY" (if k then "A" else "B").
Definition toy_key (b : Blob) : option bool :=
  if starts_with (key_file true) b then Some true else if starts_with (key_file false) b then Some false else None.

#[export] Instance x509 : X509Lib := {
  PrivateKey := bool;
  PublicKey := string;
  from_der := strip_prefix "der:";
  from_pem := strip_prefix "pem:";
  to_der c := Ok ("der:" +:+ c);
  key_from_pem := toy_key;
  key_to_der k := Ok (if k then "A" else "B");
  asymmetric_sign k _ := Ok (if k then "A" else "B");
  public_key c := Ok (substring 0 1 c);
  verifies p _ s := String.eqb p s;
  common_name c := Some c;
  not_before _ := None;
  not_after _ := None;
  is_time_valid _ _ := true;
  is_application_uri_valid _ _ := true;
  is_hostname_valid _ _ := true;
  alt_host_names u _ := [u];
  cert_and_pkey _ b := Ok ("A" +:+ b, true);
  cert_file_name c := c +:+ ".der";
  read_cert _ b := of_option "not a certificate" (strip_prefix "der:" b);
  base64 b := b;
  stamp_text := pretty;
}.

Lemma starts_with_app p b : starts_with p b = true ↔ ∃ r, b = p +:+ r.
Proof.
  unfold starts_with. rewrite bool_decide_eq_true. split.
  - intros [r Hr]. exists r. by apply strip_prefix_eq.
  - intros [r ->]. exists r. induction p as [|a p IH]; simpl; [done|]. by rewrite Ascii.eqb_refl.
Qed.
Lemma starts_with_part p n b : starts_with p (bytes_prefix n b) = true → starts_with p b = true.
Proof.
  rewrite !starts_with_app. unfold bytes_prefix. revert n b. induction p as [|a p IH]; intros n b [r Hr]; [by exists b|].
  destruct n as [|n], b as [|c b]; try done. simpl in Hr. injection Hr as -> Hr.
  destruct (IH n b) as [r' ->]; [by exists r|]. by exists r'.
Qed.
Lemma keys_differ b : starts_with (key_file true) b = true → starts_with (key_file false) b = false.
Proof.
  intros [r ->]%starts_with_app. apply not_true_is_false. intros [r' Hr]%starts_with_app. revert Hr. vm_compute. discriminate.
Qed.

#[export] Instance laws : X509Laws.
Proof.
  split.
  - intros b. cbn [read_cert from_der x509]. by destruct (strip_prefix "der:" b).
  - intros c b [= <-]. done.
  - intros n b k. cbn [key_from_pem x509]. unfold toy_key.
    destruct (starts_with (key_file true) (bytes_prefix n b)) eqn:Ht.
    { apply starts_with_part in Ht. by rewrite Ht. }
    destruct (starts_with (key_file false) (bytes_prefix n b)) eqn:Hf; [|done]. intros [= <-].
    apply starts_with_part in Hf. destruct (starts_with (key_file true) b) eqn:Ht'; [|by rewrite Hf].
    apply keys_differ in Ht'. congruence.
  - intros req bytes c k [= <- <-]. by destruct bytes.
  - intros [] b [= <-]; reflexivity.
Qed.
End ToyX509.

Section PkiWitnesses.
Import ToyNodes ToyOpc ToyX509.
Existing Instances opc x509 laws.

Definition smooth : PkiMeets := mkPkiMeets (fun _ => Done) 2.
(** The power fails before the new certificate is in place. *)
Definition power_cut : PkiMeets :=
  mkPkiMeets (fun op => match op with WriteCert => Failed "power cut" None | _ => Done end) 2.
Definition plain : GatewayConfig := mkGatewayConfig "Gateway" None "pki" "data" [].
Definition at_time (t : Z) : World :=
  mkWorld t "1" (fun _ => Ok 1) false (fun _ => Err BadTimeout) (fun _ _ => Ok ()) (fun _ => Ok ()) (Err "").
Definition in_use : PkiDir := mkPkiDir {[CERT_NAME := "der:B0"]} {[KEY_NAME := key_file false]} [] [].

Definition pki_after {A} (t : Z) (p : prog PkiDir A) (d : PkiDir) : PkiDir := (exec (at_time t) p d).2.
Definition pki_answer {A} (t : Z) (p : prog PkiDir A) (d : PkiDir) : option A := (exec (at_time t) p d).1.2.

Definition cut_short : PkiDir := pki_after 2000 (change_pair power_cut (RegeneratePair "urn:gw" plain)) in_use.

Lemma interrupted_change_recovers_witness :
  read_own_pkey cut_short = Ok true ∧
  ∃ c, read_own_cert cut_short = Ok c ∧
    pki_answer 3000 (ensure_own_certificate smooth "urn:gw" plain) cut_short = Some (Ok (c, false)) ∧
    matching (pki_after 3000 (ensure_own_certificate smooth "urn:gw" plain) cut_short) c.
Proof.
  split; [vm_compute; reflexivity|].
  assert (Hl : lived "2000" cut_short).
  { apply (lived_on "1000" _ in_use _ power_cut (RegeneratePair "urn:gw" plain)
             (exec (at_time 2000) (change_pair power_cut (RegeneratePair "urn:gw" plain)) in_use).1.1
             (Ret (Err "generating gateway certificate: power cut"))).
    - eapply lived_here.
      + exists false. split; [split; eexists; split; reflexivity|reflexivity].
      + intros s [[b Hb]|[b Hb]]; unfold in_use in Hb; cbn [own_dir private_dir] in Hb; apply lookup_singleton_Some in Hb as [? _]; done.
    - apply exec_returns. vm_compute. reflexivity.
    - exact (exec_chained (at_time 2000) (change_pair power_cut (RegeneratePair "urn:gw" plain)) in_use).
    - reflexivity.
    - constructor; [split; reflexivity|constructor]. }
  destruct (interrupted_change_recovers smooth "urn:gw" plain "2000" "3000" cut_short
              (exec (at_time 3000) (ensure_own_certificate smooth "urn:gw" plain) cut_short).1.1 (Ok ("B0", false))
              (pki_after 3000 (ensure_own_certificate smooth "urn:gw" plain) cut_short)) as (c & Hc & Hr & Hm).
  - exact Hl.
  - intros op. reflexivity.
  - apply exec_returns. vm_compute. reflexivity.
  - exact (exec_chained (at_time 3000) (ensure_own_certificate smooth "urn:gw" plain) cut_short).
  - reflexivity.
  - vm_compute. constructor.
  - exists c. split; [exact Hc|]. split; [|exact Hm]. rewrite <- Hr. vm_compute. reflexivity.
Defined.

(** Two changes in the same second, both cut short: the second overwrites the
    backup of the pair with a copy of the halves, and the gateway does not
    start. *)
Example second_change_same_second :
  let again := pki_after 2000 (change_pair power_cut (RegeneratePair "urn:gw" plain)) cut_short in
  pki_answer 3000 (ensure_own_certificate smooth "urn:gw" plain) again =
    Some (Err ("gateway certificate: the private key does not belong to the certificate, and no backup pair matches; "
               +:+ "import certificate and key again, or regenerate: no matching backup")).
Proof. vm_compute. reflexivity. Qed.

(** A certificate that cannot be read is replaced, with its key, without a
    backup. *)
Example unreadable_pair_replaced :
  let d := mkPkiDir {[CERT_NAME := "damaged"]} {[KEY_NAME := key_file false]} [] [] in
  pki_answer 2000 (ensure_own_certificate smooth "urn:gw" plain) d = Some (Ok ("A1", true)) ∧
  private_dir (pki_after 2000 (ensure_own_certificate smooth "urn:gw" plain) d) = {[KEY_NAME := key_file true]} ∧
  own_dir (pki_after 2000 (ensure_own_certificate smooth "urn:gw" plain) d) = {[CERT_NAME := "der:A1"]}.
Proof. split_and!; vm_compute; reflexivity. Qed.

(** Two imports at the same time, both answered with success, can leave the
    certificate of one with the key of the other. *)
Definition import_a : prog PkiDir (result string Cert) := import_own smooth "urn:gw" "der:A1" (key_file true).
Definition import_b : prog PkiDir (result string Cert) := import_own smooth "urn:gw" "der:B1" (key_file false).
Example imports_mixed :
  ∃ l1 l2 l3 p d, runs import_a l1 p ∧ runs import_b l2 (Ret (Ok "B1")) ∧ runs p l3 (Ret (Ok "A1")) ∧
    chained in_use (l1 ++ l2 ++ l3) d ∧ read_own_cert d = Ok "A1" ∧ read_own_pkey d = Ok false.
Proof.
  pose (a1 := run_for 7 (at_time 2000) import_a in_use). pose (b := exec (at_time 2001) import_b a1.2).
  pose (a2 := exec (at_time 2002) a1.1.2 b.2).
  destruct (run_for_runs 7 (at_time 2000) import_a in_use) as [Hr1 Hc1]. fold a1 in Hr1, Hc1.
  pose proof (exec_chained (at_time 2001) import_b a1.2) as Hc2. fold b in Hc2.
  pose proof (exec_chained (at_time 2002) a1.1.2 b.2) as Hc3. fold a2 in Hc3.
  exists a1.1.1, b.1.1, a2.1.1, a1.1.2, a2.2. split_and!.
  - exact Hr1.
  - apply exec_returns. vm_compute. reflexivity.
  - apply exec_returns. vm_compute. reflexivity.
  - apply chained_app. exists a1.2. split; [exact Hc1|]. apply chained_app. exists b.2. by split.
  - vm_compute. reflexivity.
  - vm_compute. reflexivity.
Qed.

(** Another copy of a certificate stays trusted when trust in it is revoked. *)
Example other_copy_stays_trusted :
  let d := mkPkiDir ∅ ∅ [mkFile "plc.der" 1 "der:Plc"; mkFile "Plc.der" 2 "der:Plc"] [] in
  pki_answer 5 (untrust smooth "plc") d = Some (Ok (from_x509 "Plc")) ∧
  list_dir (trusted_dir (pki_after 5 (untrust smooth "plc") d)) = [from_x509 "Plc"].
Proof. split; vm_compute; reflexivity. Qed.
End PkiWitnesses.
