(* ===== verification/WebCerts.v ===== *)
(** The web UI's handlers for certificates and discovery ([src/src/web/mod.rs],
    [src/src/web/tls.rs]), over everything the requests share ([App]): the site
    ([WebTargets]), the certificate directories ([Pki]), the relays of the
    running targets, the stored trail and the users. *)

From S2P Require Import Prelude Net Event Opc Task Steps Sessions Relay Login Transport Connection Store Query Users Config Pipeline Endpoints Browser WebAuth WebUsers Discovery ConfigFile Targets WebTargets WebSettings Pki.

Section App.
Context `{X509Lib} `{!Crypto} `{!Transport.Stack} `{!Channels}.
Context (escape_debug : string → string).
(** base64, decoded *)
Context (b64_decode : string → result string Blob).
(** [RequestHeader::default]'s token *)
Context (no_token : NodeId).

(** ** What the requests share *)
Record App : Type := mkApp {
  a_site : Site;
  a_pki : PkiDir;
  (** the web UI's own certificate, in [data_dir/web-pki] *)
  a_web_pki : PkiDir;
  a_relays : gmap string Shared;
  (** how often the connections of a target were asked to check their
      certificates again *)
  a_trust_changed : gmap string nat;
  a_db : Db;
  a_users : UserDb;
  (** when a refused API token was last recorded, by address *)
  a_refused : gmap IpAddr Z;
}.
Abbreviation app := (prog App).

Definition set_site (s : Site) (a : App) : App :=
  mkApp s (a_pki a) (a_web_pki a) (a_relays a) (a_trust_changed a) (a_db a) (a_users a) (a_refused a).
Definition set_pki (d : PkiDir) (a : App) : App :=
  mkApp (a_site a) d (a_web_pki a) (a_relays a) (a_trust_changed a) (a_db a) (a_users a) (a_refused a).
Definition set_web_pki (d : PkiDir) (a : App) : App :=
  mkApp (a_site a) (a_pki a) d (a_relays a) (a_trust_changed a) (a_db a) (a_users a) (a_refused a).
Definition set_relays (m : gmap string Shared) (a : App) : App :=
  mkApp (a_site a) (a_pki a) (a_web_pki a) m (a_trust_changed a) (a_db a) (a_users a) (a_refused a).
Definition set_trust_changed (m : gmap string nat) (a : App) : App :=
  mkApp (a_site a) (a_pki a) (a_web_pki a) (a_relays a) m (a_db a) (a_users a) (a_refused a).
Definition set_refused (m : gmap IpAddr Z) (a : App) : App :=
  mkApp (a_site a) (a_pki a) (a_web_pki a) (a_relays a) (a_trust_changed a) (a_db a) (a_users a) m.

Definition on_site {A} (p : prog Site A) : app A := zoom a_site set_site p.
Definition on_pki {A} (p : prog PkiDir A) : app A := zoom a_pki set_pki p.
Definition on_web_pki {A} (p : prog PkiDir A) : app A := zoom a_web_pki set_web_pki p.

(** What a request meets besides the answers of the programs' effects. *)
Record CertMeets : Type := mkCertMeets {
  cm_outside : Outside;
  cm_pki : PkiMeets;
  (** the host's names, in the gateway's application URI *)
  cm_hosts : list string;
  (** the relay of a target, and whether it connects within 15 s *)
  cm_relay : string → Relayed;
  cm_in_time : bool;
}.

(** ** Targets *)
(** [target_url] *)
Definition target_url (name : string) : app (result ApiError string) :=
  c ← on_site read_config;
  mret (match List.find (fun t => String.eqb (t_name t) name) (targets c) with
        | Some t => Ok (endpoint_url t)
        | None => Err (api_not_found ("unknown target '" +:+ name +:+ "'"))
        end).

Definition shown_endpoints (found : result string (list EndpointDescription)) : result ApiError (list EndpointInfo) :=
  match found with
  | Ok endpoints => Ok (endpoint_info <$> endpoints)
  | Err e => Err (mkApiError BAD_GATEWAY e)
  end.

Definition discover_raw : app (result string (list EndpointDescription)) := Discover mret.

(** The relay's own program, where the target runs; [s0] stands for the state
    of a relay that has just stopped. *)
Definition on_relay {A} (name : string) (s0 : Shared) (p : prog Shared A) : app A :=
  zoom (fun a => default s0 (a_relays a !! name)) (fun s a => set_relays (<[name := s]> (a_relays a)) a) p.
Definition check_relay (x : CertMeets) (name : string) : app unit :=
  a ← get;
  match a_relays a !! name with
  | Some s => on_relay name s (check_gateway_trust no_token (cm_relay x name) (cm_in_time x))
  | None => mret ()
  end.

(** [TargetManager::recheck_trust] *)
Definition recheck_trust : app unit :=
  atomic (fun a => ((), set_trust_changed
    (map_fold (fun name _ m => <[name := S (default 0%nat (m !! name))]> m) (a_trust_changed a) (a_relays a)) a)).

Definition restart_targets (x : CertMeets) : app unit :=
  on_site (on_manager (fun m => ((), restart_all (cm_outside x) m))).

(** [BrowserSessions::close_all] *)
Definition close_browsers : app unit :=
  entries ← on_site (atomic (fun s =>
    let r := take_all (s_browser s) in
    (r.1, mkSite (s_manager s) r.2 (s_settings s) (s_exporting s) (s_files s))));
  close_all entries.

(** The events of a discovery, after its status is set. *)
Fixpoint record_events (target : string) (events : list AuditEvent) : app unit :=
  match events with
  | [] => mret ()
  | e :: events =>
      _ ← WebAuth.audit false (fun now => with_target target (new_entry now e));
      record_events target events
  end.
(** [apply_discovery] *)
Definition apply_discovered (t : TargetConfig) (found : result string (list EndpointDescription)) : app unit :=
  now ← clock;
  events ← on_site (on_manager (fun m =>
    let r := apply_discovery t now found (statuses m) in
    (r.1, mkManager (Targets.config m) (running m) r.2 (Targets.file m))));
  record_events (t_name t) events.

(** [discover_target]: "check now" *)
Definition discover_target (x : CertMeets) (u : AuthUser) (name : string)
    : app (result ApiError (list EndpointInfo)) :=
  requires Operator u
    (url ← target_url name;
     try id url (fun _ =>
       found ← discover_raw;
       r ← on_site (on_manager (fun m => (running m !! name, m)));
       _ ← match r with
           | Some r => _ ← apply_discovered (r_config r) found; check_relay x name
           | None => mret ()
           end;
       mret (shown_endpoints found))).

(** [discover_url] *)
Definition discover_url (u : AuthUser) (url : string) : app (result ApiError (list EndpointInfo)) :=
  requires Admin u
    (if negb (starts_with "opc.tcp://" url)
     then mret (Err (api_bad_request "endpoint_url must start with opc.tcp://"))
     else
       _ ← WebAuth.audit true (fun now => new_entry now (Event.Discovery (actor u) (clip url 1024)));
       found ← discover_raw;
       mret (shown_endpoints found)).

(** ** Certificates *)
Definition bracketed (info : CertificateInfo) : string := inf_subject info +:+ " [" +:+ inf_thumbprint info +:+ "]".

(** The first certificate with the reviewed thumbprint. *)
Definition presented (thumb : string) (endpoints : list EndpointDescription) : option Cert :=
  List.find (fun c => eq_ignore_ascii_case (thumbprint c) (trim thumb))
    (omap (fun e => cert_of_bytes (ep_server_certificate e)) endpoints).

(** [trust_server] *)
Definition trust_server (x : CertMeets) (u : AuthUser) (name thumb : string) : app (result ApiError CertificateInfo) :=
  requires Admin u
    (url ← target_url name;
     try id url (fun _ =>
       found ← discover_raw;
       try (mkApiError BAD_GATEWAY) found (fun endpoints =>
         try id (of_option (api_bad_request ("the target does not present the certificate " +:+ thumb
                              +:+ " (any more); discover it again")) (presented thumb endpoints)) (fun c =>
           info ← on_pki (Pki.trust (cm_pki x) c);
           try api_internal info (fun info =>
             _ ← config_changed u ("trusted server certificate " +:+ bracketed info +:+ " of target '" +:+ name +:+ "'");
             _ ← check_relay x name;
             mret (Ok info)))))).

Definition application_uri_now (x : CertMeets) : app (string * GatewayConfig) :=
  c ← on_site read_config; mret (application_uri (cm_hosts x) (gateway c), gateway c).

(** [import_own] *)
Definition import_own (x : CertMeets) (u : AuthUser) (certificate private_key : string)
    : app (result ApiError CertificateInfo) :=
  requires Admin u
    (let decoded what s := match b64_decode (trim s) with Ok b => Ok b | Err e => Err (what +:+ ": " +:+ e) end in
     try api_bad_request (decoded "certificate" certificate) (fun cert =>
     try api_bad_request (decoded "private key" private_key) (fun key =>
       g ← application_uri_now x;
       c ← on_pki (Pki.import_own (cm_pki x) g.1 cert key);
       try api_bad_request c (fun c =>
         let info := from_x509 c in
         _ ← restart_targets x;
         _ ← config_changed u ("imported gateway certificate " +:+ bracketed info);
         mret (Ok info))))).

(** [regenerate_own] *)
Definition regenerate_own (x : CertMeets) (u : AuthUser) : app (result ApiError CertificateInfo) :=
  requires Admin u
    (g ← application_uri_now x;
     c ← on_pki (Pki.regenerate_own (cm_pki x) g.1 g.2);
     try api_internal c (fun c =>
       let info := from_x509 c in
       _ ← restart_targets x;
       _ ← config_changed u ("generated new gateway certificate " +:+ bracketed info);
       mret (Ok info))).

(** [web_certificate_request] and [regenerate_web_certificate] *)
Definition web_certificate_request (g : GatewayConfig) : X509Data :=
  mkX509Data 2048 (application_name g +:+ " (web UI)") (application_name g) "opcua-audit-gateway web UI"
    EmptyString EmptyString
    (alt_host_names "urn:opcua-audit-gateway:web" (match certificate_hostnames g with [] => None | l => Some l end)) 397.
(** [ensure_web_certificate]: at the start of the web server *)
Definition ensure_web_certificate (x : PkiMeets) (g : GatewayConfig) : prog PkiDir (result string (Cert * bool)) :=
  dc ← get; dk ← get;
  match read_own_cert dc, read_own_pkey dk with
  | Ok cert, Ok key =>
      if is_Ok (check_key_pair cert key) then mret (Ok (cert, false))
      else r ← create_own x (web_certificate_request g);
           mret (match r with Ok c => Ok (c, true) | Err e => Err ("generating the web UI certificate: " +:+ e) end)
  | _, _ =>
      r ← create_own x (web_certificate_request g);
      mret (match r with Ok c => Ok (c, true) | Err e => Err ("generating the web UI certificate: " +:+ e) end)
  end.
Definition regenerate_web_certificate (x : CertMeets) (u : AuthUser) : app (result ApiError CertificateInfo) :=
  requires Admin u
    (g ← application_uri_now x;
     c ← on_web_pki (create_own (cm_pki x) (web_certificate_request g.2));
     try api_internal (match c with Ok c => Ok c | Err e => Err ("generating the web UI certificate: " +:+ e) end) (fun c =>
       let info := from_x509 c in
       _ ← config_changed u ("generated a new web UI certificate [" +:+ inf_thumbprint info +:+ "] (used after a restart)");
       mret (Ok info))).

(** [trust_rejected], [delete_rejected], [untrust] *)
Definition trust_rejected (x : CertMeets) (u : AuthUser) (thumb : string) : app (result ApiError CertificateInfo) :=
  requires Admin u
    (info ← on_pki (Pki.trust_rejected (cm_pki x) thumb);
     try api_bad_request info (fun info =>
       _ ← config_changed u ("trusted certificate " +:+ bracketed info); mret (Ok info))).
Definition delete_rejected (x : CertMeets) (u : AuthUser) (thumb : string) : app (result ApiError CertificateInfo) :=
  requires Admin u
    (info ← on_pki (Pki.delete_rejected (cm_pki x) thumb);
     try api_bad_request info (fun info =>
       _ ← config_changed u ("deleted rejected certificate " +:+ bracketed info); mret (Ok info))).
Definition untrust (x : CertMeets) (u : AuthUser) (thumb : string) : app (result ApiError CertificateInfo) :=
  requires Admin u
    (info ← on_pki (Pki.untrust (cm_pki x) thumb);
     try api_bad_request info (fun info =>
       _ ← recheck_trust;
       _ ← close_browsers;
       _ ← config_changed u ("revoked trust in certificate " +:+ bracketed info);
       mret (Ok info))).

(** ** What is shown *)
Definition certificates (u : AuthUser) : app (result ApiError (option CertificateInfo * list CertificateInfo * list CertificateInfo)) :=
  requires Auditor u
    (c ← on_site read_config;
     a ← get;
     mret (Ok ((fun cert => with_hostnames cert (certificate_hostnames (gateway c))) <$> result_ok (read_own_cert (a_pki a)),
               list_dir (trusted_dir (a_pki a)), list_dir (rejected_dir (a_pki a))))).

(** A certificate as a download: its type, its name and its text. *)
Definition certificate_file (der : Blob) (name : string) (pem : bool) : string * string * string :=
  if pem then ("application/x-pem-file", name +:+ ".pem", pem_text "CERTIFICATE" (base64 der))
  else ("application/pkix-cert", name +:+ ".der", der).
Definition own_certificate (u : AuthUser) (pem : bool) : app (result ApiError (string * string * string)) :=
  requires Auditor u
    (der ← on_pki own_certificate_der;
     try api_internal der (fun der => mret (Ok (certificate_file der "opcua-audit-gateway" pem)))).

(** [web_certificate]: the one the server presents since its start *)
Definition web_certificate (shown : option Blob) (u : AuthUser) (pem : bool) : app (result ApiError (string * string * string)) :=
  requires Auditor u
    (try id (of_option (api_not_found "the web UI does not use HTTPS") shown) (fun der =>
       mret (Ok (certificate_file der "opcua-audit-gateway-web" pem)))).
End App.

(** ** What the handlers come to *)
Section Facts.
Context `{X509Lib} `{!Crypto} `{!Transport.Stack} `{!Channels}.
Context (b64_decode : string → result string Blob) (no_token : NodeId).

Inductive CertOp : Type :=
| OpTrustServer (target thumb : string)
| OpTrustRejected (thumb : string)
| OpDeleteRejected (thumb : string)
| OpUntrust (thumb : string)
| OpImportOwn (certificate private_key : string)
| OpRegenerateOwn
| OpRegenerateWeb.

Definition serve_cert (x : CertMeets) (u : AuthUser) (op : CertOp) : prog App (result ApiError CertificateInfo) :=
  match op with
  | OpTrustServer target thumb => trust_server no_token x u target thumb
  | OpTrustRejected thumb => trust_rejected x u thumb
  | OpDeleteRejected thumb => delete_rejected x u thumb
  | OpUntrust thumb => untrust x u thumb
  | OpImportOwn certificate key => import_own b64_decode x u certificate key
  | OpRegenerateOwn => regenerate_own x u
  | OpRegenerateWeb => regenerate_web_certificate x u
  end.

(** No certificate file changes. *)
Definition untouched (l : label App) : Prop :=
  match l with LUpdate b a => a_pki a = a_pki b ∧ a_web_pki a = a_web_pki b | _ => True end.

(** Writing a file can fail halfway; moving and removing one cannot. *)
Definition in_parts (op : CertOp) : Prop :=
  match op with OpDeleteRejected _ | OpUntrust _ => False | _ => True end.

(** A record of the change in the user's name, with the certificate's
    thumbprint, after the last change. *)
Definition certified (u : AuthUser) (info : CertificateInfo) (ls : list (label App)) : Prop :=
  ∃ l1 e res l2 pre post, ls = l1 ++ LClock (ts e) :: LRecord true e res :: l2 ∧
    event e = ConfigChanged (actor u) (pre +:+ inf_thumbprint info +:+ post) ∧ Forall untouched l2.

(** *** Parts *)
Lemma site_untouched {A} (p : prog Site A) ls (a : A) : runs (on_site p) ls (Ret a) → Forall untouched ls.
Proof.
  intros [_ Hf]%runs_zoom; [|done]. eapply Forall_impl; [exact Hf|]. intros []; simpl; try done. by intros ->.
Qed.

Lemma relay_untouched x name ls r : runs (check_relay no_token x name) ls (Ret r) → Forall untouched ls.
Proof.
  unfold check_relay. intros Hr. run_parts. constructor; [done|].
  destruct (a_relays a !! name); [|by run_parts].
  apply runs_zoom in Hr1 as [_ Hf]; [|intros t s'; simpl; by rewrite lookup_insert_eq].
  eapply Forall_impl; [exact Hf|]. intros []; simpl; try done. by intros ->.
Qed.

Lemma runs_on_pki {A} (p : prog PkiDir A) ls (a : A) :
  runs (on_pki p) ls (Ret a) → runs p (part a_pki <$> ls) (Ret a) ∧ Forall (framed a_pki set_pki) ls.
Proof. by apply runs_zoom. Qed.

Lemma runs_changed u pre info post ls y (k : prog App (result ApiError CertificateInfo)) :
  (∀ l z, runs k l (Ret z) → z = Ok info ∧ Forall untouched l) →
  runs (_ ← config_changed u (pre +:+ inf_thumbprint info +:+ post); k) ls (Ret y) →
  y = Ok info ∧ certified u info ls.
Proof.
  intros Hk Hr. apply runs_bind in Hr as (l1 & l2 & a & -> & Hc & Hr).
  destruct (Hk _ _ Hr) as [-> Hl]. split; [done|]. unfold config_changed, WebAuth.audit in Hc. run_parts.
  exists [], (new_entry a0 (ConfigChanged (actor u) (pre +:+ inf_thumbprint info +:+ post))), a, l2, pre, post. by split_and!.
Qed.

Lemma certified_after u info l1 ls : certified u info ls → certified u info (l1 ++ ls).
Proof.
  intros (l0 & e & res & l2 & pre & post & -> & He & Hl). exists (l1 ++ l0), e, res, l2, pre, post.
  by rewrite <- app_assoc.
Qed.

(** A change that ends with its record when it succeeds. *)
Definition ends_certified (u : AuthUser) (p : prog App (result ApiError CertificateInfo)) : Prop :=
  ∀ ls y, runs p ls (Ret y) → match y with Ok info => certified u info ls | Err _ => True end.

Lemma ends_after {A} u (p : prog App A) k : (∀ a, ends_certified u (k a)) → ends_certified u (p ≫= k).
Proof.
  intros Hk ls y Hr. apply runs_bind in Hr as (l1 & l2 & a & -> & _ & Hr). specialize (Hk a _ _ Hr).
  destruct y; [|done]. by apply certified_after.
Qed.
Lemma ends_try {E A} u (f : E → ApiError) r (k : A → prog App (result ApiError CertificateInfo)) :
  (∀ a, ends_certified u (k a)) → ends_certified u (try f r k).
Proof. intros Hk. unfold try. destruct r; [apply Hk|]. intros ls y Hr. by run_parts. Qed.
Lemma ends_note u pre info post k :
  (∀ l z, runs k l (Ret z) → z = Ok info ∧ Forall untouched l) →
  ends_certified u (_ ← config_changed u (pre +:+ inf_thumbprint info +:+ post); k).
Proof. intros Hk ls y Hr. by apply (runs_changed _ _ _ _ _ _ _ Hk) in Hr as [-> ?]. Qed.
Lemma ends_record u pre info post :
  ends_certified u (_ ← config_changed u (pre +:+ inf_thumbprint info +:+ post); mret (Ok info)).
Proof. apply ends_note. intros l z Hr. by run_parts. Qed.

(** The text with its brackets, taken apart around the thumbprint. *)
Lemma bracketed_text pre info post :
  pre +:+ bracketed info +:+ post = (pre +:+ inf_subject info +:+ " [") +:+ inf_thumbprint info +:+ "]" +:+ post.
Proof. unfold bracketed. by rewrite !string_app_assoc'. Qed.
Lemma bracketed_end pre info :
  pre +:+ bracketed info = (pre +:+ inf_subject info +:+ " [") +:+ inf_thumbprint info +:+ "]".
Proof. unfold bracketed. by rewrite !string_app_assoc'. Qed.

Lemma serve_certifies x u op ls y :
  runs (serve_cert x u op) ls (Ret y) → au_role u = Admin ∧ (match y with Ok info => certified u info ls | Err _ => True end) ∨
    ∃ e, y = Err e ∧ ls = [].
Proof.
  assert (Hin : ∀ k, ends_certified u k → runs (requires Admin u k) ls (Ret y) →
    au_role u = Admin ∧ (match y with Ok info => certified u info ls | Err _ => True end) ∨ ∃ e, y = Err e ∧ ls = []).
  { intros k Hk Hr. apply runs_requires in Hr as [(e & -> & ->)|[Ha Hr]]; [by right; eauto|left].
    split; [by apply needs_admin|by apply Hk]. }
  destruct op; apply Hin.
  - apply ends_after; intros url. apply ends_try; intros _. apply ends_after; intros found. apply ends_try; intros eps.
    apply ends_try; intros c. apply ends_after; intros info. apply ends_try; intros i. rewrite bracketed_text.
    apply ends_note. intros l z Hr. run_parts. apply relay_untouched in Hr0. by rewrite app_nil_r.
  - apply ends_after; intros info. apply ends_try; intros i. rewrite bracketed_end. apply ends_record.
  - apply ends_after; intros info. apply ends_try; intros i. rewrite bracketed_end. apply ends_record.
  - apply ends_after; intros info. apply ends_try; intros i. do 2 (apply ends_after; intros []).
    rewrite bracketed_end. apply ends_record.
  - do 2 (apply ends_try; intros ?). apply ends_after; intros g. apply ends_after; intros c. apply ends_try; intros c'.
    apply ends_after; intros []. rewrite bracketed_end. apply ends_record.
  - apply ends_after; intros g. apply ends_after; intros c. apply ends_try; intros c'.
    apply ends_after; intros []. rewrite bracketed_end. apply ends_record.
  - apply ends_after; intros g. apply ends_after; intros c. apply ends_try; intros c'. apply (ends_record u "generated a new web UI certificate [" (from_x509 c')).
Qed.

(** Nothing changes in the directories. *)
Definition idle_dir (l : label PkiDir) : Prop := match l with LUpdate b a => a = b | _ => True end.

Lemma runs_ask {E A B} (r : result E A) (k : A → prog PkiDir (result E B)) ls y :
  runs (ask r k) ls (Ret y) → (∃ e, r = Err e ∧ y = Err e ∧ ls = []) ∨ ∃ a, r = Ok a ∧ runs (k a) ls (Ret y).
Proof. unfold ask. destruct r; intros Hr; [by right; eauto|left]. run_parts. eauto. Qed.

(** A certificate that could not be revoked or deleted is where it was. *)
Lemma untrust_refused x thumb ls e : runs (Pki.untrust x thumb) ls (Ret (Err e)) → Forall idle_dir ls.
Proof.
  unfold Pki.untrust, reread. intros Hr. run_parts. constructor; [done|].
  apply runs_ask in Hr1 as [(e' & _ & _ & ->)|(f & Hf & Hr)]; [done|]. run_parts. constructor; [done|].
  apply runs_ask in Hr1 as [(e' & _ & _ & ->)|(c & Hc & Hr)]; [done|]. run_parts.
  apply runs_ask in Hr1 as [(e' & He & _ & ->)|([] & _ & Hr)]; [|by run_parts].
  constructor; [|done]. simpl. destruct (wx_fate x MoveToRejected); simpl in *; [|done].
  by destruct (file_at (fl_name f) (trusted_dir s1)).
Qed.

Lemma delete_refused x thumb ls e : runs (Pki.delete_rejected x thumb) ls (Ret (Err e)) → Forall idle_dir ls.
Proof.
  unfold Pki.delete_rejected, reread. intros Hr. run_parts. constructor; [done|].
  apply runs_ask in Hr1 as [(e' & _ & _ & ->)|(f & Hf & Hr)]; [done|]. run_parts. constructor; [done|].
  apply runs_ask in Hr1 as [(e' & _ & _ & ->)|(c & Hc & Hr)]; [done|].
  apply runs_ask in Hr as [(e' & _ & _ & ->)|([] & _ & Hr)]; [done|]. by run_parts.
Qed.

Lemma idle_untouched ls :
  Forall idle_dir (part a_pki <$> ls) → Forall (framed a_pki set_pki) ls → Forall untouched ls.
Proof.
  rewrite Forall_fmap. intros Hi Hf.
  rewrite Forall_forall in *. intros l Hl. specialize (Hi l Hl). specialize (Hf l Hl). destruct l; simpl in *; try done.
  rewrite Hf. by split.
Qed.

Lemma pki_refused u (p : prog PkiDir (result string CertificateInfo)) (k : CertificateInfo → prog App (result ApiError CertificateInfo)) ls e :
  (∀ ls e, runs p ls (Ret (Err e)) → Forall idle_dir ls) →
  (∀ i ls y, runs (k i) ls (Ret y) → is_Ok y = true) →
  runs (requires Admin u (info ← on_pki p; try api_bad_request info k)) ls (Ret (Err e)) →
  Forall untouched ls.
Proof.
  intros Hp Hk Hr. apply runs_requires in Hr as [(e' & _ & ->)|[_ Hr]]; [done|]. run_parts.
  apply runs_on_pki in Hr0 as [Hr0 Hf].
  apply runs_try in Hr1 as [(e' & -> & _ & ->)|(i & -> & Hr)]; [|by apply Hk in Hr].
  rewrite app_nil_r. apply idle_untouched; [by eapply Hp|done].
Qed.

(** Claim C34. A request that trusts, revokes,
    deletes, imports or generates a certificate is an admin's, and when it
    answers with success a record in the user's name that has the thumbprint of
    the certificate in the answer was handed to the trail to be committed,
    after the last change to the certificate files. A refused request, and one
    that could not revoke trust or delete a certificate, has changed no
    certificate file. *)
Theorem certificate_changes_recorded x u op ls r :
  runs (serve_cert x u op) ls (Ret r) →
  match r with
  | Ok info => au_role u = Admin ∧ certified u info ls
  | Err _ => Forall untouched ls ∨ au_role u = Admin ∧ in_parts op
  end.
Proof.
  intros Hr. pose proof (serve_certifies _ _ _ _ _ Hr) as [[Ha Hc]|(e & -> & ->)]; [|by left].
  destruct r as [info|e]; [done|]. destruct op; try (by right); left.
  - eapply (pki_refused u _ _ _ _ (delete_refused _ _)); [|exact Hr]. intros i l y Hk. cbn beta in Hk. by run_parts.
  - eapply (pki_refused u _ _ _ _ (untrust_refused _ _)); [|exact Hr]. intros i l y Hk. cbn beta in Hk. by run_parts.
Qed.

(** *** What becomes trusted *)
Definition trust_step (c : Cert) (b a : list File) : Prop :=
  ∃ der now bytes, to_der c = Ok der ∧ a = put_file (mkFile (cert_file_name c) now bytes) b ∧
    (bytes = der ∨ ∃ n, bytes = bytes_prefix n der).

Definition trusts (c : Cert) (l : label PkiDir) : Prop :=
  match l with LUpdate b a => trusted_dir a = trusted_dir b ∨ trust_step c (trusted_dir b) (trusted_dir a) | _ => True end.

Lemma trust_trusts x c ls r : runs (Pki.trust x c) ls (Ret r) → Forall (trusts c) ls.
Proof.
  unfold Pki.trust, write_trusted. destruct (negb _); [by intros Hr; run_parts|].
  intros [(e & _ & _ & ->)|(der & Hder & Hr)]%runs_ask; [done|]. run_parts.
  assert (Hw : trusts c (LUpdate s (set_trusted (written (wx_fate x WriteTrusted) (wx_cut x) (cert_file_name c) a0 der) s))).
  { destruct (wx_fate x WriteTrusted) as [|e [n|]]; simpl; [right|right|by left].
    all: exists der, a0; eexists; split; [done|]; split; [reflexivity|]; eauto. }
  repeat (apply Forall_app; split); try (by repeat constructor).
  - constructor; [exact Hw|done].
  - destruct (wx_fate x WriteTrusted); run_parts; [|done].
    constructor; [|done]. right. exists der, a0, der. split_and!; [done|done|by left].
  - apply runs_ask in Hr1 as [(e & _ & _ & ->)|([] & _ & Hr)]; [done|]. run_parts.
    cbn [fst snd] in *. constructor; [by left|]. rewrite app_nil_r.
    destruct (find_file (thumbprint c) (rejected_dir s0)); [|by run_parts].
    destruct (wx_fate x RemoveRejected); run_parts; [|done]. constructor; [by left|done].
Qed.

Lemma runs_discover ls r : runs discover_raw ls (Ret r) → ls = [LDiscover r].
Proof.
  inversion 1 as [|? ? ? ? ? Hd Hr]; simplify_eq. inversion Hd; subst. by apply runs_ret in Hr as [-> ->].
Qed.

Lemma presented_Some thumb endpoints c :
  presented thumb endpoints = Some c →
  eq_ignore_ascii_case (thumbprint c) (trim thumb) = true ∧
  ∃ e, e ∈ endpoints ∧ cert_of_bytes (ep_server_certificate e) = Some c.
Proof.
  intros [Hin Hc]%find_some. split; [done|].
  apply list_elem_of_In, list_elem_of_omap in Hin as (e & He & Hce). eauto.
Qed.

(** Claim C35. When an admin trusts the certificate of a
    target, the only certificate that becomes trusted has the thumbprint the
    admin reviewed and is one the target presented in this request. *)
Theorem only_reviewed_trusted x u target thumb ls r b a :
  runs (trust_server no_token x u target thumb) ls (Ret r) → LUpdate b a ∈ ls →
  trusted_dir (a_pki a) ≠ trusted_dir (a_pki b) →
  ∃ endpoints e c, LDiscover (Ok endpoints) ∈ ls ∧ e ∈ endpoints ∧
    cert_of_bytes (ep_server_certificate e) = Some c ∧ eq_ignore_ascii_case (thumbprint c) (trim thumb) = true ∧
    trust_step c (trusted_dir (a_pki b)) (trusted_dir (a_pki a)).
Proof.
  intros Hr Hin Hne. apply runs_requires in Hr as [(e & _ & ->)|[_ Hr]]; [by apply not_elem_of_nil in Hin|].
  assert (Hno : ∀ l, Forall untouched l → LUpdate b a ∉ l).
  { intros l Hl Hi. rewrite Forall_forall in Hl. destruct (Hl _ Hi) as [He _]. by rewrite He in Hne. }
  unfold target_url in Hr. run_parts. apply site_untouched in Hr. rewrite app_nil_r in Hin.
  apply elem_of_app in Hin as [Hin|Hin]; [by apply Hno in Hin|].
  apply runs_try in Hr1 as [(e & _ & _ & ->)|(url & _ & Hr1)]; [by apply not_elem_of_nil in Hin|].
  apply runs_bind in Hr1 as (l1 & l2 & found & -> & ->%runs_discover & Hr1).
  apply elem_of_app in Hin as [Hin|Hin]; [by apply list_elem_of_singleton in Hin|].
  apply runs_try in Hr1 as [(e & _ & _ & ->)|(endpoints & -> & Hr1)]; [by apply not_elem_of_nil in Hin|].
  apply runs_try in Hr1 as [(e & _ & _ & ->)|(c & Hc%of_option_Ok & Hr1)]; [by apply not_elem_of_nil in Hin|].
  apply runs_bind in Hr1 as (l3 & l4 & info & -> & Ht & Hr1).
  apply presented_Some in Hc as [Hthumb (e & He & Hce)].
  exists endpoints, e, c. split; [rewrite !elem_of_app; right; left; by left|]. do 3 (split; [done|]).
  apply elem_of_app in Hin as [Hin|Hin].
  - apply runs_on_pki in Ht as [Ht _]. apply trust_trusts in Ht. rewrite Forall_fmap, Forall_forall in Ht.
    specialize (Ht _ Hin). simpl in Ht. by destruct Ht.
  - exfalso. apply runs_try in Hr1 as [(e' & _ & _ & ->)|(i & _ & Hr1)]; [by apply not_elem_of_nil in Hin|].
    run_parts. rewrite app_nil_r in Hin.
    match goal with Hx : runs (config_changed _ _) _ _ |- _ => apply runs_config_changed in Hx as (entry & -> & _) end.
    match goal with Hx : runs (check_relay _ _ _) _ _ |- _ => apply relay_untouched in Hx end.
    apply elem_of_app in Hin as [Hin|Hin]; [|by apply Hno in Hin].
    apply elem_of_cons in Hin as [|[|Hin]%elem_of_cons]; [done..|]. by apply not_elem_of_nil in Hin.
Qed.
End Facts.

(** ** Running the model *)
Section WebCertsWitnesses.
Import ToyNodes ToyOpc ToyRelay ToyLogin ToyStack ToyConnection ToyX509.
Existing Instances opc x509.

Definition cert_admin : AuthUser := mkAuthUser "ann" Admin false None.
Definition cert_meets : CertMeets :=
  mkCertMeets well smooth ["gw"] (fun n => mkRelayed n EmptyString SecNone gw) true.
Definition plant_app (d : PkiDir) : App :=
  mkApp (mkSite (mkManager (mkConfig (mkGatewayConfig "Gateway" None "/pki" "/data" []) default_web default_audit
                              (mkExportConfig None None) (mkMcpConfig false []) [plc1] []) ∅ ∅ (Ok [])) ∅
           (new_settings default_audit) None ∅)
    d (mkPkiDir ∅ ∅ [] []) ∅ ∅ (mkDb [] None) (mkUserDb ∅ []) ∅.
Definition with_plc : World :=
  mkWorld 1000 "r" (fun _ => Ok 1) false (fun _ => Err BadTimeout) (fun _ _ => Ok ()) (fun _ => Ok ()) (Ok [endpoint]).
Definition empty_pki : PkiDir := mkPkiDir ∅ ∅ [] [].
Definition null_token : @NodeId (@opc_nodes opc) := "".

(** The certificates of the model are their names. *)
Definition self_named (c : string) : CertificateInfo := mkCertificateInfo c c None None [].

(** Revoking trust in the certificate of a client. *)
Definition trusted_client : PkiDir := mkPkiDir ∅ ∅ [mkFile "Client.der" 7 "der:Client"] [].
Definition revoke : CertOp := OpUntrust "client".
Definition no_b64 (s : string) : result string Blob := Err "not base64".
Definition revoking := exec with_plc (serve_cert no_b64 null_token cert_meets cert_admin revoke) (plant_app trusted_client).

Lemma certificate_changes_recorded_witness :
  trusted_dir (a_pki revoking.2) = [] ∧ certified cert_admin (self_named "Client") revoking.1.1.
Proof.
  split; [vm_compute; reflexivity|].
  apply (certificate_changes_recorded no_b64 null_token cert_meets cert_admin revoke revoking.1.1 (Ok (self_named "Client"))).
  apply (exec_returns with_plc (serve_cert no_b64 null_token cert_meets cert_admin revoke) (plant_app trusted_client)).
  vm_compute. reflexivity.
Defined.

Definition trust_plc : prog App (result ApiError CertificateInfo) := trust_server null_token cert_meets cert_admin "plc1" " PLC ".
Definition trusting := exec with_plc trust_plc (plant_app empty_pki).

Lemma only_reviewed_trusted_witness :
  list_dir (trusted_dir (a_pki trusting.2)) = [self_named "plc"] ∧
  ∃ b a, LUpdate b a ∈ trusting.1.1 ∧
    ∃ endpoints e c, LDiscover (Ok endpoints) ∈ trusting.1.1 ∧ e ∈ endpoints ∧
      cert_of_bytes (ep_server_certificate e) = Some c ∧ eq_ignore_ascii_case (thumbprint c) (trim " PLC ") = true ∧
      trust_step c (trusted_dir (a_pki b)) (trusted_dir (a_pki a)).
Proof.
  split; [vm_compute; reflexivity|].
  exists (plant_app empty_pki), (plant_app (mkPkiDir ∅ ∅ [mkFile "plc.der" 1000 "de"] [])).
  assert (Hin : LUpdate (plant_app empty_pki) (plant_app (mkPkiDir ∅ ∅ [mkFile "plc.der" 1000 "de"] [])) ∈ trusting.1.1).
  { apply (list_elem_of_lookup_2 _ 3). vm_compute. reflexivity. }
  split; [exact Hin|]. apply (only_reviewed_trusted null_token cert_meets cert_admin "plc1" " PLC " _ (Ok (self_named "plc"))); [|exact Hin|discriminate].
  apply (exec_returns with_plc trust_plc (plant_app empty_pki)). vm_compute. reflexivity.
Defined.
End WebCertsWitnesses.
