(* ===== verification/WebBrowser.v ===== *)
(** The browser of the web UI ([src/src/web/browser.rs]): opening a session on
    a target with the login the user enters, ending it, and what the pages read
    through it.

    The handlers are programs over [WebTargets.Site]; which sessions are kept
    is [Browser]. The session itself is async-opcua's: a [Server] answers what
    is asked through it, and may answer anything, also depending on what was
    asked before. *)

From S2P Require Import Prelude Net Event AuditMap Users Config Pipeline Endpoints Opc Browser Task Steps WebAuth WebUsers Discovery ConfigFile Targets Pki WebTargets.

(** ** What is asked through a session *)
Section Pages.
Context `{Opc}.

(** A reference to a node, with the texts the page shows. *)
Record Reference : Type := mkReference {
  rf_node : NodeId;
  rf_browse_name : string;
  rf_display_name : string;
  rf_node_class : string;
}.

(** [br_more]: the continuation point, unless it is null or empty. *)
Record BrowseResult : Type := mkBrowseResult {
  br_status : StatusCode;
  br_more : option Blob;
  br_references : option (list Reference);
}.

(** [BrowseResultMask], as the browser uses it *)
Inductive Mask : Type := MaskNone | MaskAll.

(** [TimestampsToReturn] *)
Inductive Timestamps : Type := TsSource | TsBoth.

(** A request with its answer; an error is the client library's text. *)
Inductive Exchange : Type :=
| Browsed (nodes : list NodeId) (mask : Mask) (max_references : Z) (a : result string (list BrowseResult))
| BrowsedNext (release : bool) (points : list Blob) (a : result string (list BrowseResult))
| Read (nodes : list (NodeId * Z)) (t : Timestamps) (a : result string (list DataValue)).

Record Server : Type := mkServer {
  sv_browse : list Exchange → list NodeId → Mask → Z → result string (list BrowseResult);
  sv_next : list Exchange → bool → list Blob → result string (list BrowseResult);
  sv_read : list Exchange → list (NodeId * Z) → Timestamps → result string (list DataValue);
}.

(** A conversation: what was exchanged so far goes in, and comes out longer. *)
Definition Talk (A : Type) : Type := list Exchange → A * list Exchange.
#[export] Instance talk_ret : MRet Talk := fun A a h => (a, h).
#[export] Instance talk_bind : MBind Talk := fun A B f p h => let r := p h in f r.1 r.2.

Section Server.
Context (sv : Server).

Definition ask_browse (nodes : list NodeId) (m : Mask) (n : Z) : Talk (result string (list BrowseResult)) := fun h =>
  let a := sv_browse sv h nodes m n in (a, h ++ [Browsed nodes m n a]).
Definition ask_next (release : bool) (points : list Blob) : Talk (result string (list BrowseResult)) := fun h =>
  let a := sv_next sv h release points in (a, h ++ [BrowsedNext release points a]).
Definition ask_read (nodes : list (NodeId * Z)) (t : Timestamps) : Talk (result string (list DataValue)) := fun h =>
  let a := sv_read sv h nodes t in (a, h ++ [Read nodes t a]).

(** *** Browsing *)
Definition MAX_BROWSE_PAGES : nat := 20.

Record BrowseItem : Type := mkBrowseItem {
  bi_node_id : string;
  bi_browse_name : string;
  bi_display_name : string;
  bi_node_class : string;
  has_children : bool;
}.

Definition item_of (r : Reference) : NodeId * BrowseItem :=
  (rf_node r, mkBrowseItem (node_to_str (rf_node r)) (rf_browse_name r) (rf_display_name r) (rf_node_class r) true).
Definition page_items (r : BrowseResult) : list (NodeId * BrowseItem) := item_of <$> default [] (br_references r).

Definition upstream_error {A} (r : result string A) : result ApiError A :=
  match r with Ok a => Ok a | Err e => Err (mkApiError BAD_GATEWAY e) end.

(** The loop of [browse]: at most [n] more pages; the answer to a request is
    its last result. *)
Fixpoint pages (n : nat) (results : list BrowseResult) : Talk (result ApiError (list (NodeId * BrowseItem))) :=
  match n with
  | O => mret (Ok [])
  | S n =>
      match last results with
      | None => mret (Ok [])
      | Some r =>
          if is_bad (br_status r) then mret (Err (mkApiError BAD_GATEWAY (status_str (br_status r))))
          else match br_more r with
          | None => mret (Ok (page_items r))
          | Some point =>
              next ← ask_next false [point];
              match upstream_error next with
              | Err e => mret (Err e)
              | Ok next =>
                  rest ← pages n next;
                  mret (match rest with Ok l => Ok (page_items r ++ l) | Err e => Err e end)
              end
          end
      end
  end.

Definition set_children (b : bool) (i : BrowseItem) : BrowseItem :=
  mkBrowseItem (bi_node_id i) (bi_browse_name i) (bi_display_name i) (bi_node_class i) b.

(** Whether a node keeps its arrow. *)
Definition marked (i : NodeId * BrowseItem) (r : BrowseResult) : NodeId * BrowseItem :=
  if is_good (br_status r)
  then (i.1, set_children (match br_references r with Some (_ :: _) => true | _ => false end) i.2)
  else i.

(** [zip]: nodes the server gave no result for stay as they are. *)
Fixpoint mark_batch (batch : list (NodeId * BrowseItem)) (results : list BrowseResult) : list (NodeId * BrowseItem) :=
  match batch, results with
  | i :: batch, r :: results => marked i r :: mark_batch batch results
  | _, _ => batch
  end.

(** [mark_leaves]: by batches of a hundred, until one fails; every batch takes
    away at least one of the items left, so [n] is their number. *)
Fixpoint mark_leaves (n : nat) (items : list (NodeId * BrowseItem)) : Talk (list (NodeId * BrowseItem)) :=
  match n, items with
  | S n, _ :: _ =>
      let batch := take 100 items in
      answer ← ask_browse batch.*1 MaskNone 1;
      match answer with
      | Err _ => mret items
      | Ok results =>
          let points := omap br_more (take (length batch) results) in
          _ ← (match points with [] => mret (Ok []) | _ => ask_next true points end);
          rest ← mark_leaves n (drop 100 items);
          mret (mark_batch batch results ++ rest)
      end
  | _, _ => mret items
  end.

Definition browse_items (node : NodeId) : Talk (result ApiError (list BrowseItem)) :=
  first ← ask_browse [node] MaskAll 0;
  match upstream_error first with
  | Err e => mret (Err e)
  | Ok first =>
      found ← pages MAX_BROWSE_PAGES first;
      match found with
      | Err e => mret (Err e)
      | Ok items => items ← mark_leaves (length items) items; mret (Ok items.*2)
      end
  end.
End Server.
End Pages.

(** ** Attributes and values

    Names and texts the OPC UA stack has for ids, statuses and times. *)
Class Browsing `{Opc} : Type := {
  objects_folder : NodeId;
  attr_DataType : Z;
  BadAttributeIdInvalid : StatusCode;
  (** the name of a standard data type, where the value is the id of one *)
  data_type_name : Variant → option string;
  (** [{:08X}] of the bits *)
  status_bits : StatusCode → string;
  status_description : StatusCode → string;
  (** RFC 3339, unless the time is null *)
  time_rfc3339 : string → option string;
}.

Section Values.
Context `{Browsing}.

Definition Good : StatusCode := Status 0.

Record AttributeItem : Type := mkAttributeItem {
  ai_attribute : string;
  ai_value : option AuditValue;
  ai_status : option string;
  ai_description : option string;
  ai_source_timestamp : option string;
  ai_server_timestamp : option string;
  ai_note : option string;
}.

(** Rendering a value can panic: [None]. *)
Definition rendered (v : option Variant) : option (option AuditValue) :=
  match v with None => Some None | Some v => Some <$> audit_value v end.

(** An attribute the node does not have is left out. *)
Definition attribute_item (id : Z) (v : DataValue) : option (option AttributeItem) :=
  let status := default Good (dv_status v) in
  if bool_decide (status = BadAttributeIdInvalid) || is_good status && match dv_value v with None => true | Some _ => false end
  then Some None
  else
    value ← rendered (dv_value v);
    let is_value := match attribute_debug id with Some _ => id =? attr_Value | None => false end in
    let time (t : option string) := if is_value then t ≫= time_rfc3339 else None in
    Some (Some (mkAttributeItem (default (pretty id) (attribute_debug id)) value
      (if is_good status then None else Some (status_str status +:+ " (0x" +:+ status_bits status +:+ ")"))
      (if is_good status then None else Some (status_description status))
      (time (dv_source_timestamp v)) (time (dv_server_timestamp v))
      (if id =? attr_DataType then dv_value v ≫= data_type_name else None))).

Fixpoint attribute_items (l : list (Z * DataValue)) : option (list AttributeItem) :=
  match l with
  | [] => Some []
  | (id, v) :: l =>
      i ← attribute_item id v; rest ← attribute_items l;
      Some (match i with Some i => i :: rest | None => rest end)
  end.

Definition attribute_ids : list Z := seqZ 1 27.

(** [None]: a panic. *)
Definition attributes_of (sv : Server) (node : NodeId) : Talk (option (result ApiError (list AttributeItem))) :=
  answer ← ask_read sv (pair node <$> attribute_ids) TsBoth;
  mret (match answer with
        | Err e => Some (Err (mkApiError BAD_GATEWAY e))
        | Ok values => Ok <$> attribute_items (zip attribute_ids values)
        end).

Record ValueItem : Type := mkValueItem {
  vi_node_id : string;
  vi_value : option AuditValue;
  vi_status : string;
  vi_source_timestamp : option string;
}.

Definition value_item (node_id : string) (v : DataValue) : option ValueItem :=
  value ← rendered (dv_value v);
  Some (mkValueItem node_id value (status_str (default Good (dv_status v))) (dv_source_timestamp v)).

Definition node_of (node : string) : result ApiError NodeId :=
  of_option (api_bad_request ("invalid node id '" +:+ node +:+ "'")) (node_from_str node).

Definition values_of (sv : Server) (nodes : list string) : Talk (option (result ApiError (list ValueItem))) :=
  if (500 <? length nodes)%nat then mret (Some (Err (api_bad_request "at most 500 nodes per request")))
  else match collect (node_of <$> nodes) with
  | Err e => mret (Some (Err e))
  | Ok ids =>
      answer ← ask_read sv ((fun n => (n, attr_Value)) <$> ids) TsSource;
      mret (match answer with
            | Err e => Some (Err (mkApiError BAD_GATEWAY e))
            | Ok values => Ok <$> mapM (fun nv : string * DataValue => value_item nv.1 nv.2) (zip nodes values)
            end)
  end.
End Values.

(** ** Sessions *)
Inductive Identity : Type := IdAnonymous | IdUserName (name password : string).

(** What opening a session with the client library comes to. *)
Inductive OpenOutcome `{Opc} : Type :=
(** the client cannot be built *)
| NotBuilt (e : string)
| Opened (id : Z)
(** the connection ended, or did not come about in time; with the status the
    event loop ended with, if any *)
| NotOpened (s : option StatusCode).

Record ConnectResponse : Type := mkConnectResponse { cr_policy : string; cr_mode : string; cr_user : string }.

Section Handlers.
Context `{X509Lib} `{!Browsing}.

(** What a request meets: the client library, the connections that ended, and
    the texts of errors and modes. *)
Record BrowserMeets : Type := mkBrowserMeets {
  bm_open : EndpointDescription → Identity → OpenOutcome;
  bm_finished : Entry → bool;
  bm_server : Entry → Server;
  bm_cert_error : Blob → string;
  bm_mode_debug : SecurityMode → string;
}.

Abbreviation site := (prog Site).

Definition on_browser {A} (f : BrowserSessions → A * BrowserSessions) : site A :=
  atomic (fun s => let r := f (s_browser s) in
                   (r.1, mkSite (s_manager s) r.2 (s_settings s) (s_exporting s) (s_files s))).

Definition close_one (e : option Entry) : site unit := close_all (match e with Some e => [e] | None => [] end).

(** Sessions taken out together: [close_user], [close_target], [close_all] and
    [reap_idle]'s turn. *)
Definition close_taken (f : BrowserSessions → list Entry * BrowserSessions) : site unit :=
  entries ← on_browser f; close_all entries.
(** One turn of [reap_idle]. *)
Definition reap_idle : site unit := now ← clock; close_taken (take_idle now).

(** [RelayTarget::upstream_endpoints], of a target that runs. *)
Definition known_endpoints (t : TargetConfig) : site (result StatusCode (list EndpointDescription)) :=
  known ← on_manager (fun m => (match statuses m !! t_name t with Some st => raw_endpoints st | None => [] end, m));
  match known with
  | [] =>
      found ← Discover mret;
      mret (match found with
            | Ok e => Ok (at_least e (Config.min_security t))
            | Err _ => Err BadServerNotConnected
            end)
  | _ => mret (Ok (at_least known (Config.min_security t)))
  end.

Definition identity (username password : option string) : Identity * UserTokenType * string :=
  match username with
  | Some u => if String.eqb u EmptyString then (IdAnonymous, TokenAnonymous, "anonymous")
              else (IdUserName u (default EmptyString password), TokenUserName, u)
  | None => (IdAnonymous, TokenAnonymous, "anonymous")
  end.

(** The dates of the server's certificate, which the client library does not
    check here. *)
Definition check_dates (x : BrowserMeets) (e : EndpointDescription) : site (result ApiError unit) :=
  if bool_decide (ep_policy e = PolicyNone) then mret (Ok ())
  else match cert_of_bytes (ep_server_certificate e) with
  | None => mret (Err (api_bad_request ("server certificate: " +:+ bm_cert_error x (ep_server_certificate e))))
  | Some c =>
      now ← clock;
      mret (if is_time_valid now c then Ok ()
            else Err (api_bad_request "the target's certificate is expired or not yet valid"))
  end.

Definition hint (s : option StatusCode) : string :=
  match s with
  | Some s => if contains "Certificate" (status_str s) || contains "Security" (status_str s)
              then "Trust the target's server certificate first (Targets page)."
              else "Is the target's certificate trusted, and the login right?"
  | None => "Is the target's certificate trusted, and the login right?"
  end.
Definition not_opened (s : option StatusCode) : ApiError :=
  mkApiError BAD_GATEWAY ("could not open a session on the target"
    +:+ match s with Some s => " (" +:+ status_str s +:+ ")" | None => EmptyString end +:+ ". " +:+ hint s).

Definition at_url (url : string) (e : EndpointDescription) : EndpointDescription :=
  mkEndpointDescription url (ep_server e) (ep_server_certificate e) (security_mode e) (security_policy_uri e)
    (user_identity_tokens e) (transport_profile_uri e) (security_level e).

(** A session that is open: its record, then its entry. *)
Definition keep_session (u : AuthUser) (name login : string) (id : Z) : site unit :=
  _ ← WebAuth.audit true (fun now => with_client (browser_client (au_username u))
        (with_target name (new_entry now (SessionCreated ("web browser as " +:+ login)))));
  now ← clock;
  replaced ← on_browser (browser_insert now id (au_username u) name);
  close_one replaced.

(** [connect] *)
Definition connect (x : BrowserMeets) (u : AuthUser) (name : string) (username password : option string)
    : site (result ApiError ConnectResponse) :=
  requires Operator u
    (t ← on_manager (fun m => (r_config <$> running m !! name, m));
     match t with
     | None => mret (Err (api_not_found ("unknown target '" +:+ name +:+ "'")))
     | Some t =>
         old ← on_browser (browser_take (au_username u) name);
         _ ← close_one old;
         let '(who, token, login) := identity username password in
         endpoints ← known_endpoints t;
         try (fun s => mkApiError BAD_GATEWAY ("target unreachable: " +:+ status_str s)) endpoints (fun endpoints =>
           try id (of_option (api_bad_request "the target offers no endpoint for this kind of login (a password is only sent over a secured channel or encrypted)")
                     (pick_endpoint endpoints token)) (fun e =>
             dates ← check_dates x e;
             try id dates (fun _ =>
               match bm_open x (at_url (Config.endpoint_url t) e) who with
               | NotBuilt e => mret (Err (api_internal e))
               | NotOpened s => mret (Err (not_opened s))
               | Opened id =>
                   _ ← keep_session u name login id;
                   mret (Ok (mkConnectResponse (policy_str (ep_policy e)) (bm_mode_debug x (security_mode e)) login))
               end)))
     end).

(** [disconnect] *)
Definition disconnect (u : AuthUser) (name : string) : site (result ApiError unit) :=
  requires Operator u
    (e ← on_browser (browser_take (au_username u) name); _ ← close_one e; mret (Ok ())).

(** [session] *)
Definition session (x : BrowserMeets) (u : AuthUser) (name : string) : site (result ApiError Entry) :=
  requires Operator u
    (now ← clock;
     e ← on_browser (browser_get (bm_finished x) now (au_username u) name);
     mret (of_option (mkApiError CONFLICT "not connected to this target; connect first") e)).

(** [browse], [attributes] and [values] *)
Definition browse (x : BrowserMeets) (u : AuthUser) (name : string) (node : option string)
    : site (result ApiError (list BrowseItem)) :=
  s ← session x u name;
  try id s (fun e =>
    try id (match node with Some n => node_of n | None => Ok objects_folder end) (fun node =>
      mret (browse_items (bm_server x e) node []).1)).

Definition attributes (x : BrowserMeets) (u : AuthUser) (name : string) (node : option string)
    : site (result ApiError (list AttributeItem)) :=
  s ← session x u name;
  try id s (fun e =>
    try id (node_of (default EmptyString node)) (fun node =>
      or_panic (attributes_of (bm_server x e) node []).1)).

Definition values (x : BrowserMeets) (u : AuthUser) (name : string) (nodes : list string)
    : site (result ApiError (list ValueItem)) :=
  s ← session x u name;
  try id s (fun e => or_panic (values_of (bm_server x e) nodes []).1).

Inductive BrowserOp : Type :=
| OpConnect (target : string) (username password : option string)
| OpDisconnect (target : string)
| OpBrowse (target : string) (node : option string)
| OpAttributes (target : string) (node : option string)
| OpValues (target : string) (nodes : list string)
(** [close_user], [close_target] and [close_all]: a user was deleted or lost
    the role, a target removed or changed, a certificate no longer trusted *)
| OpCloseUser (user : string)
| OpCloseTarget (target : string)
| OpCloseAll
| OpReap.

Definition answers {A} (p : site (result ApiError A)) : site (option ApiError) :=
  r ← p; mret (match r with Ok _ => None | Err e => Some e end).
Definition unanswered {A} (p : site A) : site (option ApiError) := _ ← p; mret None.

(** What a request or a part of the gateway does with the sessions, and the
    error it ends with. *)
Definition serve_browser (x : BrowserMeets) (u : AuthUser) (op : BrowserOp) : site (option ApiError) :=
  match op with
  | OpConnect t n p => answers (connect x u t n p)
  | OpDisconnect t => answers (disconnect u t)
  | OpBrowse t n => answers (browse x u t n)
  | OpAttributes t n => answers (attributes x u t n)
  | OpValues t ns => answers (values x u t ns)
  | OpCloseUser n => unanswered (close_taken (take_user n))
  | OpCloseTarget t => unanswered (close_taken (take_target t))
  | OpCloseAll => unanswered (close_taken take_all)
  | OpReap => unanswered reap_idle
  end.
End Handlers.

(** ** The sessions and their records *)
Section Accounting.
Context `{X509Lib} `{!Browsing}.

(** The UI user and target a record of a browser session is about. *)
Definition owner (e : AuditEntry) : option (string * string) :=
  c ← client e; who ← Event.user c; t ← target e;
  match who with
  | UserName n => u ← strip_prefix "ui:" n; Some (u, t)
  | _ => None
  end.

Section Key.
Context (k : string * string).

Definition kept (m : BrowserSessions) : Z := match m !! k with Some _ => 1 | None => 0 end.
Definition about (e : AuditEntry) : Z := if bool_decide (owner e = Some k) then 1 else 0.

(** Records of a session of the user on the target opened and closed, and
    sessions entered in the map, less those taken out. *)
Definition opens (l : label Site) : Z :=
  match l with LRecord _ e _ => match event e with SessionCreated _ => about e | _ => 0 end | _ => 0 end.
Definition closes (l : label Site) : Z :=
  match l with LRecord _ e _ => match event e with SessionClosed => about e | _ => 0 end | _ => 0 end.
Definition gain (l : label Site) : Z :=
  match l with LUpdate b a => kept (s_browser a) - kept (s_browser b) | _ => 0 end.

Definition tally (f : label Site → Z) (ls : list (label Site)) : Z := foldr (fun l n => f l + n) 0 ls.

Lemma tally_app f l l' : tally f (l ++ l') = tally f l + tally f l'.
Proof. unfold tally. induction l as [|x l IH]; simpl; lia. Qed.
Lemma tally_perm f l l' : l ≡ₚ l' → tally f l = tally f l'.
Proof. unfold tally. induction 1; simpl; lia. Qed.

(** [d]: sessions that went without a record. *)
Definition settled (ls : list (label Site)) (d : Z) : Prop := tally gain ls = tally opens ls - tally closes ls - d.

Lemma settled_app l l' d d' : settled l d → settled l' d' → settled (l ++ l') (d + d').
Proof. unfold settled. rewrite !tally_app. lia. Qed.
Lemma settled_nil : settled [] 0.
Proof. done. Qed.

(** A step that neither records nor touches the sessions. *)
Definition aside (l : label Site) : Prop :=
  match l with
  | LUpdate b a => s_browser a = s_browser b
  | LRecord _ _ _ => False
  | _ => True
  end.
Lemma settled_aside ls : Forall aside ls → settled ls 0.
Proof.
  unfold settled, tally. induction 1 as [|l ls Hl _ IH]; [done|]. simpl.
  assert (gain l = 0 ∧ opens l = 0 ∧ closes l = 0) as (-> & -> & ->); [|lia].
  destruct l; simpl in *; try done. by rewrite Hl, Z.sub_diag.
Qed.
End Key.

Definition key_of (e : Entry) : string * string := (b_user e, b_target e).
(** Every session is kept for the user and target its entry names. *)
Definition tidy (m : BrowserSessions) : Prop := map_Forall (fun k e => key_of e = k) m.

Definition count_of (k : string * string) (l : list Entry) : Z := Z.of_nat (length (filter (fun e => key_of e = k) l)).

Lemma owner_of user name t ev : owner (with_client (browser_client user) (with_target name (new_entry t ev))) = Some (user, name).
Proof. done. Qed.

Lemma settled_close_all k es ls (r : unit) :
  runs (close_all es : prog Site unit) ls (Ret r) → tally (gain k) ls = 0 ∧ tally (opens k) ls = 0 ∧ tally (closes k) ls = count_of k es.
Proof.
  revert ls. induction es as [|e es IH]; intros ls; cbn [close_all]; unfold WebAuth.audit; intros Hr; run_parts; [done|].
  apply IH in Hr1 as (Hg & Ho & Hc). rewrite !tally_app, Hg, Ho, Hc. unfold count_of. rewrite filter_cons.
  cbn [tally foldr app gain opens closes]. cbn [event with_client with_target new_entry]. unfold about.
  rewrite owner_of. change (b_user e, b_target e) with (key_of e).
  destruct (decide (key_of e = k)) as [Hk|Hk].
  - rewrite bool_decide_eq_true_2 by congruence. cbn [length]. lia.
  - rewrite bool_decide_eq_false_2 by congruence. lia.
Qed.

(** Sessions are taken out of the map with their entries. *)
Definition taking (f : BrowserSessions → list Entry * BrowserSessions) : Prop :=
  ∀ m, tidy m → tidy (f m).2 ∧ ∀ k, kept k (f m).2 = kept k m - count_of k (f m).1.

Lemma count_perm k l l' : l ≡ₚ l' → count_of k l = count_of k l'.
Proof. unfold count_of. by intros ->. Qed.

Lemma count_values k m : tidy m → count_of k (map_to_list m).*2 = kept k m.
Proof.
  unfold tidy. induction m as [|i e m Hi IH] using map_ind; intros Ht.
  - rewrite map_to_list_empty. unfold kept. by rewrite lookup_empty.
  - apply map_Forall_insert in Ht as [He Ht]; [|done].
    assert (Hp : (map_to_list (<[i := e]> m)).*2 ≡ₚ e :: (map_to_list m).*2) by (by rewrite map_to_list_insert).
    rewrite (count_perm _ _ _ Hp). specialize (IH Ht). unfold count_of in *. rewrite filter_cons. unfold kept in *.
    destruct (decide (key_of e = k)) as [Hk|Hk].
    + subst k. rewrite He, lookup_insert_eq. rewrite He, Hi in IH. cbn [length]. lia.
    + rewrite lookup_insert_ne by congruence. done.
Qed.

Lemma tidy_filter p `{∀ x, Decision (p x)} m : tidy m → tidy (filter p m).
Proof. intros Hm k e [He _]%map_lookup_filter_Some. by apply Hm. Qed.

Lemma taking_where p `{∀ x, Decision (p x)} : taking (take_where p).
Proof.
  intros m Hm. unfold take_where. cbn [fst snd]. split; [by apply tidy_filter|]. intros k.
  rewrite count_values by (by apply tidy_filter). unfold kept.
  destruct (m !! k) as [e|] eqn:Hk.
  - destruct (decide (p (k, e))) as [Hp|Hp].
    + rewrite (map_lookup_filter_Some_2 p m k e Hk Hp). rewrite (map_lookup_filter_None_2 (fun x => ¬ p x) m k); [lia|]. naive_solver.
    + rewrite (map_lookup_filter_Some_2 (fun x => ¬ p x) m k e Hk Hp). rewrite (map_lookup_filter_None_2 p m k); [lia|]. naive_solver.
  - rewrite !map_lookup_filter, Hk. done.
Qed.

Lemma taking_all : taking take_all.
Proof.
  intros m Hm. cbn [take_all fst snd]. split; [apply map_Forall_empty|]. intros k. rewrite count_values by done.
  unfold kept at 1. rewrite lookup_empty. lia.
Qed.

Definition one (f : BrowserSessions → option Entry * BrowserSessions) (m : BrowserSessions) : list Entry * BrowserSessions :=
  (match (f m).1 with Some e => [e] | None => [] end, (f m).2).

Lemma taking_one u t : taking (one (browser_take u t)).
Proof.
  intros m Hm. unfold one. cbn [browser_take fst snd]. split; [by apply map_Forall_delete|]. intros k. unfold kept, count_of.
  destruct (m !! (u, t)) as [e|] eqn:He.
  - rewrite filter_cons, filter_nil. rewrite (map_Forall_lookup_1 _ _ _ _ Hm He).
    destruct (decide ((u, t) = k)) as [<-|Hk]; [by rewrite lookup_delete_eq, He|].
    rewrite lookup_delete_ne by done. simpl. lia.
  - rewrite delete_id by done. simpl. lia.
Qed.

(** Every state a step finds has its sessions under the right keys. *)
Definition tidy_before (l : label Site) : Prop := match l with LUpdate b a => tidy (s_browser b) | _ => True end.
Definition stays_tidy (l : label Site) : Prop := match l with LUpdate b a => tidy (s_browser b) → tidy (s_browser a) | _ => True end.

Lemma chained_tidy s h s' :
  chained s h s' → Forall stays_tidy h → tidy (s_browser s) → Forall tidy_before h.
Proof.
  revert s. induction h as [|l h IH]; intros s Hc Hs Ht; [done|]. inversion Hs as [|? ? Hl Hs']; subst.
  destruct l; simpl in *; try (constructor; [done|by eapply IH]). destruct Hc as [-> Hc]. constructor; [done|]. eapply IH; eauto.
Qed.

(** A part of a run: sessions stay under their keys, and for a user and target
    at most [n] of them went without a record. *)
Definition accounts (n : string * string → Z) (ls : list (label Site)) : Prop :=
  Forall stays_tidy ls ∧ (Forall tidy_before ls → ∀ k, ∃ d, settled k ls d ∧ 0 ≤ d ≤ n k).
Definition none (k : string * string) : Z := 0.

Lemma accounts_app n n' l l' : accounts n l → accounts n' l' → accounts (fun k => n k + n' k) (l ++ l').
Proof.
  intros [Ht Hn] [Ht' Hn']. split; [by apply Forall_app|]. intros [Hb Hb']%Forall_app k.
  destruct (Hn Hb k) as (d & Hd & ?), (Hn' Hb' k) as (d' & Hd' & ?). exists (d + d'). split; [by apply settled_app|lia].
Qed.
Lemma accounts_none l l' : accounts none l → accounts none l' → accounts none (l ++ l').
Proof. apply accounts_app. Qed.
Lemma accounts_mono (n n' : string * string → Z) l : (∀ k, n k ≤ n' k) → accounts n l → accounts n' l.
Proof. intros Hle [Ht Hn]. split; [done|]. intros Hb k. destruct (Hn Hb k) as (d & ? & ?). exists d. specialize (Hle k). split; [done|lia]. Qed.

Lemma accounts_aside ls : Forall aside ls → accounts none ls.
Proof.
  intros Hl. split.
  - eapply Forall_impl; [exact Hl|]. intros [] Ha; simpl in *; try done. by rewrite Ha.
  - intros _ k. exists 0. split; [by apply settled_aside|unfold none; lia].
Qed.

Lemma close_all_tidy es ls (r : unit) : runs (close_all es : prog Site unit) ls (Ret r) → Forall stays_tidy ls.
Proof.
  revert ls. induction es as [|e es IH]; intros ls; cbn [close_all]; unfold WebAuth.audit; intros Hr; run_parts; [done|].
  apply IH in Hr1. by repeat constructor.
Qed.

(** Taking sessions out and closing them. *)
Lemma accounts_taken f (p : list Entry) ls (r : unit) s :
  taking f → p = (f (s_browser s)).1 → runs (close_all p : prog Site unit) ls (Ret r) →
  accounts none (LUpdate s (mkSite (s_manager s) (f (s_browser s)).2 (s_settings s) (s_exporting s) (s_files s)) :: ls).
Proof.
  intros Hf -> Hr. pose proof (close_all_tidy _ _ _ Hr) as Hst.
  split.
  - constructor; [|done]. intros Hm. by apply Hf.
  - intros Hb k. inversion Hb as [|? ? Hm _]; subst. apply (settled_close_all k) in Hr as (Hg & Ho & Hc).
    exists 0. split; [|unfold none; lia]. unfold settled. cbn [tally foldr]. unfold tally in *. rewrite Hg, Ho, Hc. simpl.
    destruct (Hf _ Hm) as [_ Hk]. specialize (Hk k). unfold opens, closes. lia.
Qed.

Lemma accounts_close_taken f ls r : taking f → runs (close_taken f) ls (Ret r) → accounts none ls.
Proof.
  unfold close_taken, on_browser. intros Hf Hr. run_parts. simpl. by eapply accounts_taken.
Qed.

Lemma accounts_take u t l1 l2 e (r : unit) :
  runs (on_browser (browser_take u t)) l1 (Ret e) → runs (close_one e) l2 (Ret r) → accounts none (l1 ++ l2).
Proof.
  unfold on_browser, close_one. intros Hr Hc. run_parts. cbn [fst] in Hc.
  by apply (accounts_taken (one (browser_take u t)) _ _ _ s (taking_one u t) eq_refl Hc).
Qed.

Lemma tidy_insert now id u t m : tidy m → tidy (browser_insert now id u t m).2.
Proof. intros Hm. by apply map_Forall_insert_2. Qed.

Lemma insert_kept now id u t m k :
  tidy m →
  kept k (browser_insert now id u t m).2 =
    kept k m - count_of k (match (browser_insert now id u t m).1 with Some e => [e] | None => [] end) +
    (if bool_decide ((u, t) = k) then 1 else 0).
Proof.
  intros Hm. cbn [browser_insert fst snd]. unfold kept, count_of. case_bool_decide as Hk.
  - subst k. rewrite lookup_insert_eq. destruct (m !! (u, t)) as [e|] eqn:He; [|done].
    rewrite filter_cons_True by (by apply (Hm _ _ He)). done.
  - rewrite lookup_insert_ne by done. destruct (m !! (u, t)) as [e|] eqn:He; [|simpl; lia].
    rewrite filter_cons_False by (by rewrite (Hm _ _ He)). simpl. lia.
Qed.

Lemma accounts_keep u name login id ls r : runs (keep_session u name login id) ls (Ret r) → accounts none ls.
Proof.
  unfold keep_session, on_browser, close_one, WebAuth.audit. intros Hr. run_parts. cbn [app fst snd] in *.
  match goal with Hx : runs (close_all _) _ _ |- _ => rename Hx into Hc end.
  pose proof (close_all_tidy _ _ _ Hc) as Hst.
  split.
  - repeat (constructor; [done|]). constructor; [|done]. intros Hm. by apply tidy_insert.
  - intros Hb k.
    assert (Hm : tidy (s_browser s)) by (inversion_clear Hb as [|? ? _ Hb1]; inversion_clear Hb1 as [|? ? _ Hb2];
      inversion_clear Hb2 as [|? ? _ Hb3]; by inversion_clear Hb3).
    apply (settled_close_all k) in Hc as (Hg & Ho & Hc). exists 0. split; [|unfold none; lia].
    unfold settled. cbn [tally foldr]. unfold tally in *. rewrite Hg, Ho, Hc. cbn [gain opens closes event with_client with_target new_entry s_browser].
    rewrite (insert_kept _ _ _ _ _ k Hm). unfold about. rewrite owner_of.
    replace (bool_decide (Some (au_username u, name) = Some k)) with (bool_decide ((au_username u, name) = k)); [lia|].
    apply bool_decide_ext. by split; [intros ->|intros [=]].
Qed.

Lemma runs_discovered {S} ls (r : result string (list EndpointDescription)) :
  runs (Discover mret : prog S _) ls (Ret r) → ls = [LDiscover r].
Proof.
  inversion 1 as [|? ? ? ? ? Hd Hr]; simplify_eq. inversion Hd; subst. by apply runs_ret in Hr as [-> ->].
Qed.

Lemma known_endpoints_aside t ls r : runs (known_endpoints t) ls (Ret r) → Forall aside ls.
Proof.
  unfold known_endpoints, on_manager. intros Hr. run_parts. cbn [fst] in *.
  destruct (match statuses _ !! _ with Some st => _ | None => [] end); run_parts; [|by repeat constructor].
  match goal with Hx : runs (Discover _) _ _ |- _ => apply runs_discovered in Hx as -> end. by repeat constructor.
Qed.

Lemma check_dates_aside x e ls r : runs (check_dates x e) ls (Ret r) → Forall aside ls.
Proof.
  unfold check_dates. case_bool_decide; intros Hr; [by run_parts|]. destruct (cert_of_bytes _); run_parts; by repeat constructor.
Qed.

Ltac taken :=
  match goal with Hx : runs (close_taken _) _ _ |- _ =>
    refine (accounts_close_taken _ _ _ _ Hx); first [apply taking_all|apply taking_where] end.
Ltac nothing := apply accounts_aside; by repeat constructor.

Lemma accounts_connect x u name un pw ls r : runs (connect x u name un pw) ls (Ret r) → accounts none ls.
Proof.
  intros Hr. apply runs_requires in Hr as [(e & _ & ->)|[_ Hr]]; [nothing|].
  apply runs_bind in Hr as (l1 & l2 & t & -> & Ht & Hr). unfold on_manager in Ht. run_parts.
  apply accounts_none; [nothing|]. cbn [fst] in *. destruct (r_config <$> _) as [t|]; [|run_parts; nothing].
  apply runs_bind in Hr as (l3 & l4 & old & -> & Hold & Hr). apply runs_bind in Hr as (l5 & l6 & [] & -> & Hclose & Hr).
  rewrite app_assoc. apply accounts_none; [by eapply accounts_take|]. clear Hold Hclose l3 l5.
  destruct (identity un pw) as [[who token] login]. apply runs_bind in Hr as (l7 & l8 & es & -> & Hes & Hr).
  apply accounts_none; [by eapply accounts_aside, known_endpoints_aside|]. clear Hes l7.
  apply runs_try in Hr as [(e & _ & _ & ->)|(endpoints & _ & Hr)]; [nothing|].
  apply runs_try in Hr as [(e & _ & _ & ->)|(e & _ & Hr)]; [nothing|].
  apply runs_bind in Hr as (l9 & l10 & dates & -> & Hd & Hr). apply accounts_none; [by eapply accounts_aside, check_dates_aside|].
  apply runs_try in Hr as [(e' & _ & _ & ->)|([] & _ & Hr)]; [nothing|].
  destruct (bm_open _ _ _); run_parts; [nothing| |nothing]. rewrite app_nil_r. by eapply accounts_keep.
Qed.

Lemma accounts_disconnect u name ls r : runs (disconnect u name) ls (Ret r) → accounts none ls.
Proof.
  intros Hr. apply runs_requires in Hr as [(e & _ & ->)|[_ Hr]]; [nothing|].
  apply runs_bind in Hr as (l3 & l4 & old & -> & Hold & Hr). apply runs_bind in Hr as (l5 & l6 & [] & -> & Hclose & Hr).
  run_parts. rewrite app_nil_r. by eapply accounts_take.
Qed.

(** A reading request may find that the connection of the session ended. *)
Definition reads (op : BrowserOp) : option string :=
  match op with OpBrowse t _ | OpAttributes t _ | OpValues t _ => Some t | _ => None end.
Definition conflict (r : option ApiError) : bool := match r with Some e => api_status e =? CONFLICT | None => false end.
Definition lost (u : AuthUser) (op : BrowserOp) (r : option ApiError) (k : string * string) : Z :=
  match reads op with
  | Some t => if conflict r && bool_decide ((au_username u, t) = k) then 1 else 0
  | None => 0
  end.

Lemma accounts_session x u t ls r :
  runs (session x u t) ls (Ret r) →
  match r with
  | Ok _ => accounts none ls
  | Err e => accounts (fun k => if (api_status e =? CONFLICT) && bool_decide ((au_username u, t) = k) then 1 else 0) ls
  end.
Proof.
  intros Hr. apply runs_requires in Hr as [(e & -> & ->)|[_ Hr]].
  { eapply accounts_mono; [|nothing]. intros k. unfold none. by destruct (_ && _). }
  unfold on_browser in Hr. run_parts. cbn [fst snd]. rewrite app_nil_r. unfold browser_get.
  destruct (s_browser s !! (au_username u, t)) as [e|] eqn:He; [|eapply accounts_mono; [|nothing]; intros k; unfold none; by destruct (_ && _)].
  destruct (bm_finished x e); cbn [fst snd of_option].
  - split; [constructor; [done|]; constructor; [|done]; intros Hm; by apply map_Forall_delete|].
    intros _ k. cbn [api_status]. rewrite Z.eqb_refl. cbn [andb]. unfold settled, tally. simpl. unfold kept.
    case_bool_decide as Hk.
    + subst k. rewrite lookup_delete_eq, He. exists 1. lia.
    + rewrite lookup_delete_ne by done. exists 0. lia.
  - split; [constructor; [done|]; constructor; [|done]; intros Hm; apply map_Forall_insert_2; [by apply (Hm _ _ He)|done]|].
    intros _ k. exists 0. split; [|unfold none; lia]. unfold settled, tally. simpl. unfold kept.
    destruct (decide ((au_username u, t) = k)) as [<-|Hk]; [rewrite lookup_insert_eq, He; lia|rewrite lookup_insert_ne by done; lia].
Qed.

Lemma accounts_reading {A} x u t op (k : Entry → prog Site (result ApiError A)) ls r :
  reads op = Some t → (∀ e l y, runs (k e) l (Ret y) → l = []) →
  runs (answers (s ← session x u t; try id s k)) ls (Ret r) → accounts (lost u op r) ls.
Proof.
  intros Hop Hk Hr. unfold answers in Hr. run_parts. rewrite app_nil_r. apply accounts_session in Hr.
  unfold lost. rewrite Hop. apply runs_try in Hr2 as [(e & -> & -> & ->)|(e & -> & Hr2)].
  - by rewrite app_nil_r.
  - apply Hk in Hr2 as ->. rewrite app_nil_r. eapply accounts_mono; [|exact Hr]. intros k'. unfold none. by destruct (_ && _).
Qed.

Lemma or_panic_nothing {A} (o : option A) l (y : A) : runs (or_panic o : prog Site A) l (Ret y) → l = [].
Proof. by intros [_ ->]%runs_or_panic. Qed.

Lemma serve_accounts x u op ls r : runs (serve_browser x u op) ls (Ret r) → accounts (lost u op r) ls.
Proof.
  destruct op as [t un pw|t|t n|t n|t ns|n|t| |]; cbn [serve_browser].
  3,4,5: apply accounts_reading; [done|]; intros e l y; try apply or_panic_nothing.
  3: { intros [(? & _ & _ & ->)|(i & _ & Hr)]%runs_try; [done|]. by run_parts. }
  3: { intros [(? & _ & _ & ->)|(i & _ & Hr)]%runs_try; [done|]. by apply or_panic_nothing in Hr. }
  all: unfold answers, unanswered, reap_idle; intros Hr; run_parts; rewrite app_nil_r.
  - by eapply accounts_connect.
  - by eapply accounts_disconnect.
  - taken.
  - taken.
  - taken.
  - simpl. apply (accounts_none [LClock _]); [nothing|]. taken.
Qed.

(** What was done, by whom, with what came of it. *)
Definition Done : Type := AuthUser * BrowserOp * option ApiError * list (label Site).
Definition did (x : BrowserMeets) (w : Done) : Prop := let '(u, op, r, ls) := w in runs (serve_browser x u op) ls (Ret r).
Definition lost_by (k : string * string) (w : Done) : Z := let '(u, op, r, _) := w in lost u op r k.

Lemma settled_chained k s h s' : chained s h s' → tally (gain k) h = kept k (s_browser s') - kept k (s_browser s).
Proof.
  revert s. induction h as [|l h IH]; intros s Hc; simpl in *; [subst; lia|].
  destruct l; simpl in *; try by rewrite (IH _ Hc). destruct Hc as [-> Hc]. rewrite (IH _ Hc). lia.
Qed.

End Accounting.

(** ** What the tree shows *)
Section Tree.
Context `{Opc} (sv : Server).

(** The server's answers to the requests for the children. *)
Definition listing_answer (x : Exchange) : option (list BrowseResult) :=
  match x with
  | Browsed _ MaskAll _ (Ok rs) | BrowsedNext false _ (Ok rs) => Some rs
  | _ => None
  end.
Abbreviation answered := (omap listing_answer).
(** The references an answer lists, and whether the server has no more. *)
Definition page_of (rs : list BrowseResult) : list (NodeId * BrowseItem) :=
  match last rs with Some r => page_items r | None => [] end.
Definition final (rs : list BrowseResult) : Prop := match last rs with Some r => br_more r = None | None => True end.

Lemma pages_list n results h l h' :
  pages sv n results h = (Ok l, h') → n ≠ 0%nat →
  ∃ new shown rest, h' = h ++ new ∧ results :: answered new = shown ++ rest ∧ l = mjoin (page_of <$> shown) ∧
    (length new ≤ n)%nat ∧ (length shown ≤ n)%nat ∧
    ((rest = [] ∧ ∃ rs, last shown = Some rs ∧ final rs) ∨ length shown = n).
Proof.
  revert results h l. induction n as [|n IH]; intros results h l; [done|]. intros Hp _. cbn [pages] in Hp.
  assert (Hstop : ∀ l0 : list (NodeId * BrowseItem), l0 = page_of results → final results → (Ok l0 : result ApiError _, h) = (Ok l, h') →
    ∃ new shown rest, h' = h ++ new ∧ results :: answered new = shown ++ rest ∧ l = mjoin (page_of <$> shown) ∧
    (length new ≤ S n)%nat ∧ (length shown ≤ S n)%nat ∧
    ((rest = [] ∧ ∃ rs, last shown = Some rs ∧ final rs) ∨ length shown = S n)).
  { intros l0 -> Hf [= <- <-]. exists [], [results], []. split_and!; [by rewrite app_nil_r|done|by simpl; rewrite app_nil_r|simpl; lia..|].
    left. split; [done|]. by exists results. }
  destruct (last results) as [r|] eqn:Hr.
  2: { apply (Hstop []); [unfold page_of; by rewrite Hr|unfold final; by rewrite Hr|done]. }
  destruct (is_bad (br_status r)); [done|]. destruct (br_more r) as [point|] eqn:Hm.
  2: { apply (Hstop (page_items r)); [unfold page_of; by rewrite Hr|unfold final; by rewrite Hr|done]. }
  clear Hstop. unfold mbind, talk_bind, ask_next in Hp. cbn [fst snd] in Hp.
  destruct (sv_next sv h false [point]) as [next|e] eqn:Hn; cbn [upstream_error] in Hp; [|done].
  set (h1 := h ++ [BrowsedNext false [point] (Ok next)]) in *.
  destruct (pages sv n next h1) as [[l1|e] h2] eqn:Hp1; cbn [fst snd] in Hp; [|done]. injection Hp as <- <-.
  destruct (decide (n = 0%nat)) as [->|Hn0].
  - simpl in Hp1. injection Hp1 as <- <-. exists [BrowsedNext false [point] (Ok next)], [results], [next].
    split_and!; [done|done|simpl; unfold page_of; rewrite Hr; by rewrite !app_nil_r|simpl; lia..|by right].
  - destruct (IH _ _ _ Hp1 Hn0) as (new & shown & rest & -> & Ha & -> & Hl1 & Hl2 & Hend).
    exists (BrowsedNext false [point] (Ok next) :: new), (results :: shown), rest.
    split_and!; [unfold h1; by rewrite <- app_assoc|change (results :: next :: answered new = results :: shown ++ rest); by rewrite Ha| |simpl; lia..|].
    + simpl. f_equal. unfold page_of. by rewrite Hr.
    + destruct Hend as [[-> (rs & Hrs & Hf)]|Hlen]; [left|right; simpl; lia]. split; [done|]. exists rs. split; [|done].
      by apply last_cons_Some_ne in Hrs || (destruct shown; [done|exact Hrs]).
Qed.

(** The server's word that a node has no children. *)
Definition childless (h : list Exchange) (n : NodeId) : Prop :=
  ∃ nodes max rs j r, Browsed nodes MaskNone max (Ok rs) ∈ h ∧ nodes !! j = Some n ∧ rs !! j = Some r ∧
    is_good (br_status r) = true ∧ default [] (br_references r) = [].

Definition unmarked (i : NodeId * BrowseItem) : NodeId * BrowseItem := (i.1, set_children true i.2).

Lemma mark_batch_same batch rs : unmarked <$> mark_batch batch rs = unmarked <$> batch.
Proof.
  revert rs. induction batch as [|i batch IH]; intros [|r rs]; try done. simpl. rewrite IH. f_equal. unfold marked.
  by destruct (is_good _).
Qed.

Lemma mark_batch_word batch rs i :
  Forall (fun i => has_children i.2 = true) batch → i ∈ mark_batch batch rs → has_children i.2 = false →
  ∃ j r, (batch !! j) = Some (i.1, set_children true i.2) ∧ rs !! j = Some r ∧ is_good (br_status r) = true ∧ default [] (br_references r) = [].
Proof.
  revert rs. induction batch as [|b batch IH]; intros rs Hall Hin Hno; [by apply not_elem_of_nil in Hin|].
  inversion Hall as [|? ? Hb Hall']; subst. destruct rs as [|r rs]; simpl in Hin.
  - rewrite Forall_forall in Hall. apply Hall in Hin. congruence.
  - apply elem_of_cons in Hin as [->|Hin].
    + exists 0%nat, r. unfold marked in *. destruct (is_good (br_status r)); [|congruence]. simpl in *.
      destruct b as [n [a b0 c d e]]. simpl in *. subst e. destruct (br_references r) as [[|]|]; done.
    + destruct (IH rs Hall' Hin Hno) as (j & r' & Hj & Hr & Hg & Hd). by exists (S j), r'.
Qed.
Lemma childless_mono h new n : childless h n → childless (h ++ new) n.
Proof. intros (nodes & m & rs & j & r & Hin & ?). exists nodes, m, rs, j, r. split; [apply elem_of_app; by left|done]. Qed.

Lemma hundreds n : (0 < n → 1 + (n - 100 + 99) / 100 ≤ (n + 99) / 100)%nat.
Proof.
  intros Hn. replace (n + 99)%nat with (n - 1 + 1 * 100)%nat by lia. rewrite Nat.div_add by lia.
  destruct (decide (100 ≤ n)%nat).
  - replace (n - 100 + 99)%nat with (n - 1)%nat by lia. lia.
  - replace (n - 100 + 99)%nat with 99%nat by lia. change (99 / 100)%nat with 0%nat. lia.
Qed.

(** One batch, without the monad's notation. *)
Lemma mark_step n i items h :
  let all := i :: items in
  mark_leaves sv (S n) all h =
    let asked := ask_browse sv (take 100 all).*1 MaskNone 1 h in
    match asked.1 with
    | Err _ => (all, asked.2)
    | Ok rs =>
        let h2 := match omap br_more (take (length (take 100 all)) rs) with
                  | [] => asked.2 | points => (ask_next sv true points asked.2).2 end in
        let rest := mark_leaves sv n (drop 100 all) h2 in
        (mark_batch (take 100 all) rs ++ rest.1, rest.2)
    end.
Proof.
  cbv zeta. cbn [mark_leaves]. unfold mbind, talk_bind, ask_browse. cbn [fst snd].
  destruct (sv_browse sv h _ MaskNone 1) as [rs|e]; [|done]. by destruct (omap br_more _).
Qed.

Lemma mark_leaves_spec n items h :
  (length items ≤ n)%nat → Forall (fun i => has_children i.2 = true) items →
  let '(out, h') := mark_leaves sv n items h in
  ∃ new, h' = h ++ new ∧ answered new = [] ∧ unmarked <$> out = unmarked <$> items ∧
    (∀ i, i ∈ out → has_children i.2 = false → childless h' i.1) ∧ (length new ≤ 2 * ((length items + 99) / 100))%nat.
Proof.
  revert items h. induction n as [|n IH]; intros items h Hn Hall.
  { destruct items; [|simpl in Hn; lia]. simpl. exists []. rewrite app_nil_r. split_and!; try done.
    intros i Hi. by apply not_elem_of_nil in Hi. }
  destruct items as [|i0 items].
  { simpl. exists []. rewrite app_nil_r. split_and!; try done. intros i Hi. by apply not_elem_of_nil in Hi. }
  rewrite mark_step. cbv zeta. set (all := i0 :: items) in *. set (batch := take 100 all). set (ask := batch.*1).
  assert (Hpos : (0 < length all)%nat) by (unfold all; simpl; lia). pose proof (hundreds _ Hpos) as Hh.
  unfold ask_browse. cbn [fst snd]. destruct (sv_browse sv h ask MaskNone 1) as [rs|e] eqn:Ha.
  2: { exists [Browsed ask MaskNone 1 (Err e)]. split_and!; [done|done|done| |cbn [length]; clear -Hh; lia].
       intros i Hi Hno. rewrite Forall_forall in Hall. apply Hall in Hi. congruence. }
  set (points := omap br_more (take (length batch) rs)). set (h1 := h ++ [Browsed ask MaskNone 1 (Ok rs)]).
  assert (Hrel : ∃ rel, match points with [] => h1 | b :: l => (ask_next sv true (b :: l) h1).2 end = h1 ++ rel ∧
    answered rel = [] ∧ (length rel ≤ 1)%nat).
  { destruct points; [exists []; rewrite app_nil_r|eexists]; (split_and!; [done|done|simpl; lia]). }
  destruct Hrel as (rel & Hh2 & Hrel & Hlen). rewrite Hh2.
  assert (Hd : (length (drop 100 all) ≤ n)%nat) by (rewrite length_drop; unfold all in *; simpl in *; lia).
  specialize (IH (drop 100 all) (h1 ++ rel) Hd (Forall_drop _ _ _ Hall)). destruct (mark_leaves sv n (drop 100 all) (h1 ++ rel)) as [out h3].
  destruct IH as (new & -> & Hnew & Hsame & Hword & Hb). cbn [fst snd].
  exists ([Browsed ask MaskNone 1 (Ok rs)] ++ rel ++ new). split_and!.
  - unfold h1. by rewrite <- !app_assoc.
  - rewrite !omap_app, Hrel, Hnew. done.
  - rewrite fmap_app, mark_batch_same, Hsame, <- fmap_app. unfold batch. by rewrite take_drop.
  - intros i Hi Hno. apply elem_of_app in Hi as [Hi|Hi].
    + apply childless_mono, childless_mono.
      destruct (mark_batch_word batch rs i) as (j & r & Hj & Hr & Hg & Hz); [by apply Forall_take|done|done|].
      exists ask, 1, rs, j, r. split_and!; [unfold h1; apply elem_of_app; right; by left| |done..].
      unfold ask. by rewrite list_lookup_fmap, Hj.
    + by apply Hword.
  - rewrite length_drop in Hb. rewrite !length_app. cbn [length]. lia.
Qed.

(** The items of a page, before arrows are taken away. *)
Definition fresh_item (i : NodeId * BrowseItem) : Prop := has_children i.2 = true ∧ bi_node_id i.2 = node_to_str i.1.

Lemma pages_fresh rss : Forall fresh_item (mjoin (page_of <$> rss)).
Proof.
  induction rss as [|rs rss IH]; [done|]. simpl. apply Forall_app_2; [|done]. unfold page_of, page_items.
  destruct (last rs); [|done]. apply Forall_fmap, Forall_forall. done.
Qed.

Lemma unmarked_named out items :
  unmarked <$> out = unmarked <$> items → Forall fresh_item items → ∀ i, i ∈ out → bi_node_id i.2 = node_to_str i.1.
Proof.
  intros He Hf i Hi. apply (list_elem_of_fmap_2 unmarked) in Hi. rewrite He in Hi.
  apply list_elem_of_fmap in Hi as (j & Hj & Hin). rewrite Forall_forall in Hf. destruct (Hf _ Hin) as [_ Hn].
  destruct i as [n []], j as [n' []]. simpl in *. injection Hj as -> -> _ _ _. done.
Qed.

(** What the tree shows below a node is what the
    server lists, page after page and in its order, until it has no more or
    twenty pages were shown; a node loses its arrow only on the server's word
    that it has no children; and it takes at most 21 requests and two more per
    hundred nodes. *)
Theorem tree_shows_children node items h :
  browse_items sv node [] = (Ok items, h) →
  ∃ shown rest, answered h = shown ++ rest ∧
    set_children true <$> items = (mjoin (page_of <$> shown)).*2 ∧
    ((rest = [] ∧ ∃ rs, last shown = Some rs ∧ final rs) ∨ length shown = MAX_BROWSE_PAGES) ∧
    (∀ i, i ∈ items → has_children i = false → ∃ n, bi_node_id i = node_to_str n ∧ childless h n) ∧
    (length h ≤ 21 + 2 * ((length items + 99) / 100))%nat.
Proof.
  unfold browse_items, mbind, talk_bind, ask_browse. cbn [fst snd app]. intros Hb.
  destruct (sv_browse sv [] [node] MaskAll 0) as [first|e]; cbn [upstream_error] in Hb; [|done].
  set (h0 := [Browsed [node] MaskAll 0 (Ok first)]) in *.
  destruct (pages sv MAX_BROWSE_PAGES first h0) as [[l|e] h1] eqn:Hp; cbn [fst snd] in Hb; [|done].
  apply pages_list in Hp as (new & shown & rest & -> & Ha & -> & Hl1 & Hl2 & Hend); [|done].
  pose proof (pages_fresh shown) as Hf. set (l := mjoin (page_of <$> shown)) in *.
  pose proof (mark_leaves_spec (length l) l (h0 ++ new) (le_n _) (Forall_impl _ _ _ Hf (fun i Hi => proj1 Hi))) as Hm.
  destruct (mark_leaves sv (length l) l (h0 ++ new)) as [out h2]. destruct Hm as (more & -> & Hmore & Hsame & Hword & Hlen).
  injection Hb as <- <-. exists shown, rest. split_and!.
  - change (answered (h0 ++ new ++ more) = shown ++ rest) || change (answered ((h0 ++ new) ++ more) = shown ++ rest).
    rewrite !omap_app, Hmore, app_nil_r. exact Ha.
  - apply (f_equal (fmap snd)) in Hsame. rewrite <- !list_fmap_compose in Hsame.
    rewrite <- list_fmap_compose. etrans; [exact Hsame|]. apply list_fmap_ext. intros i x Hx.
    rewrite Forall_lookup in Hf. destruct (Hf _ _ Hx) as [Hc _]. destruct x as [n []]. simpl in *. by subst.
  - done.
  - intros i Hi Hno. apply list_elem_of_fmap in Hi as ([n i'] & -> & Hin). exists n. split.
    + by apply (unmarked_named _ _ Hsame Hf _ Hin).
    + by apply (Hword _ Hin Hno).
  - apply (f_equal length) in Hsame. rewrite !length_fmap in Hsame. rewrite length_fmap, Hsame.
    unfold h0. cbn [app length]. rewrite length_app. unfold MAX_BROWSE_PAGES in *. lia.
Qed.
End Tree.

(** ** Running the model *)
Section WebBrowserWitnesses.
Import ToyNodes ToyOpc ToyX509.
Existing Instances opc x509.

#[local] Instance toy_browsing : Browsing := {
  objects_folder := "Objects" : @NodeId (@opc_nodes opc);
  attr_DataType := 14;
  BadAttributeIdInvalid := Status 135;
  data_type_name _ := None;
  status_bits _ := "00000000";
  status_description _ := "text";
  time_rfc3339 t := Some t;
}.

Definition child (n : string) : Reference := mkReference n n n "Object".
(** A server that lists [n] children, one per page; ["leaf"] has none. *)
Definition page (n : nat) : BrowseResult :=
  mkBrowseResult Good (if (n =? 0)%nat then None else Some "more") (Some [child (if (n =? 0)%nat then "leaf" else "folder")]).
Definition paging (n : nat) : Server :=
  mkServer
    (fun _ nodes m _ => Ok (match m with
       | MaskAll => [page n]
       | MaskNone => (fun x => mkBrowseResult Good None (if String.eqb x "leaf" then None else Some [child "x"])) <$> nodes
       end))
    (fun h _ _ => Ok [page (n - length h)]) (fun _ _ _ => Ok []).

Lemma tree_shows_children_witness :
  ∃ items h, browse_items (paging 1) "Objects" [] = (Ok items, h) ∧ has_children <$> items = [true; false] ∧
    ∃ i n, i ∈ items ∧ bi_node_id i = "leaf" ∧ bi_node_id i = node_to_str n ∧ childless h n.
Proof.
  destruct (browse_items (paging 1) "Objects" []) as [[items|e] h] eqn:Hb; [|vm_compute in Hb; discriminate Hb].
  pose proof (tree_shows_children (paging 1) "Objects" items h Hb) as (shown & rest & _ & _ & _ & Hleaf & _).
  exists items, h. split; [done|]. vm_compute in Hb. injection Hb as <- <-. split; [reflexivity|].
  set (i := mkBrowseItem "leaf" "leaf" "leaf" "Object" false) in *.
  assert (Hi : i ∈ [mkBrowseItem "folder" "folder" "folder" "Object" true; i]) by (right; by left).
  destruct (Hleaf i Hi eq_refl) as (n & Hn & Hc). exists i, n. split_and!; [exact Hi|reflexivity|exact Hn|exact Hc].
Defined.

(** With more than twenty pages the rest is left out, and nothing says so. *)
Example listing_cut_off :
  match browse_items (paging 30) "Objects" [] with
  | (Ok items, h) => length items = 20%nat ∧ length (omap listing_answer h) = 21%nat
  | _ => False
  end.
Proof. vm_compute. by split. Qed.

Definition plc_target : TargetConfig :=
  mkTargetConfig "plc1" (mkSocketAddr (V4 0) 4841) "opc.tcp://plc:4840" 60 SecNone 50 10 [] [].
Definition plc_site : Site :=
  mkSite (mkManager (mkConfig default_gateway default_web default_audit (mkExportConfig None None) (mkMcpConfig false []) [plc_target] [])
            {["plc1" := mkRunning plc_target []]} ∅ (Ok [])) ∅ (new_settings default_audit) None ∅.
Definition plc_endpoint : EndpointDescription :=
  mkEndpointDescription "opc.tcp://plc:4840" (mkApplicationDescription "urn:plc" "" "PLC" true None) "plc"
    ModeSignAndEncrypt "Basic256Sha256" (Some [mkUserTokenPolicy "anon" TokenAnonymous ""]) "tcp" 3.
Definition plc_world : World :=
  mkWorld 1000 "r" (fun _ => Ok 1) false (fun _ => Err BadTimeout) (fun _ _ => Ok ()) (fun _ => Ok ()) (Ok [plc_endpoint]).
Definition plc_meets (ended : bool) : BrowserMeets :=
  mkBrowserMeets (fun _ _ => Opened 7) (fun _ => ended) (fun _ => paging 1) (fun _ => "bad") (fun _ => "SignAndEncrypt").
Definition olga : AuthUser := mkAuthUser "olga" Operator false None.

Definition connecting : prog Site (option ApiError) := serve_browser (plc_meets true) olga (OpConnect "plc1" None None).
Definition looking : prog Site (option ApiError) := serve_browser (plc_meets true) olga (OpBrowse "plc1" None).
Definition connected := exec plc_world connecting plc_site.
Definition looked := exec plc_world looking connected.2.
Definition the_key : string * string := ("olga", "plc1").


(** All sessions are ended while one is being opened (a certificate is no
    longer trusted, the target changed): that one is kept all the same. *)
Example session_outlives_close_all :
  let begun := run_for 4 plc_world connecting plc_site in
  let ended := exec plc_world (serve_browser (plc_meets true) olga OpCloseAll) begun.2 in
  let finished := exec plc_world begun.1.2 ended.2 in
  kept the_key (s_browser finished.2) = 1 ∧ recorded (begun.1.1 ++ ended.1.1) = [].
Proof. vm_compute. by split. Qed.
End WebBrowserWitnesses.
