(* ===== verification/WebTrail.v ===== *)
(** Reading the trail in the web UI, acknowledging its alarms, the gateway's
    status, and the headers of every answer ([src/src/web/mod.rs]). Programs
    over [WebCerts.App]; a read of the trail is one step on the stored trail. *)

From S2P Require Import Prelude Net Event Opc Task Steps Sessions Relay Store Query Users Config Pipeline Export Endpoints Browser WebAuth WebUsers Discovery ConfigFile Targets WebTargets Pki WebCerts.

(** ** Headers *)
Record Header : Type := mkHeader { hd_name : string; hd_value : string }.

Definition CONTENT_POLICY : string :=
  "default-src 'self'; img-src 'self' data:; frame-ancestors 'none'; base-uri 'none'; form-action 'self'".

(** A header in an answer: replaces one of its name. *)
Definition insert_header (name value : string) (l : list Header) : list Header :=
  List.filter (fun h => negb (String.eqb (hd_name h) name)) l ++ [mkHeader name value].
Definition has_header (name : string) (l : list Header) : bool := existsb (fun h => String.eqb (hd_name h) name) l.

Definition is_api (path : string) : bool := starts_with "/api/" path || String.eqb path "/mcp".

(** [security_headers], after the handler answered with [l]. *)
Definition security_headers (web : WebConfig) (path : string) (l : list Header) : list Header :=
  let l := if is_api path then insert_header "cache-control" "no-store" l
           else if has_header "cache-control" l then l else insert_header "cache-control" "no-cache" l in
  let l := if tls web && bool_decide (is_Some (tls_certificate web))
           then insert_header "strict-transport-security" "max-age=31536000" l else l in
  insert_header "content-security-policy" CONTENT_POLICY
    (insert_header "referrer-policy" "no-referrer"
      (insert_header "x-content-type-options" "nosniff" (insert_header "x-frame-options" "DENY" l))).

(** [security_headers] around the handler: its answer only for a known host. *)
Definition answer_to (web : WebConfig) (certificate_hostnames computer : list string) (host path : string)
    (handler : list Header) : result ApiError (list Header) :=
  _ ← let_through web certificate_hostnames computer host;
  Ok (security_headers web path handler).

Section Trail.
Context `{X509Lib} `{!Crypto} `{StoreEnv}.
Context (json_extract : string → string → option string).
Abbreviation app := (prog App).

(** ** The trail *)
Definition audit_query (u : AuthUser) (q : AuditQuery) : app (result ApiError (list StoredRecord)) :=
  requires Auditor u
    (a ← get; try api_internal (query json_extract (a_db a) q) (fun l => mret (Ok l))).

Definition alarms (u : AuthUser) : app (result ApiError (list AlarmCount)) :=
  requires Auditor u (a ← get; mret (Ok (Query.alarms (a_db a)))).

Definition alarm_count_of (db : Db) (sev : Severity) : Z :=
  match List.find (fun c => bool_decide (severity c = sev)) (Query.alarms db) with
  | Some c => unacknowledged c
  | None => 0
  end.

(** [acknowledge_alarms]: counts, then reads up to where. *)
Definition acknowledge_alarms (u : AuthUser) (sev : Severity) : app (result ApiError (list AlarmCount)) :=
  requires Operator u
    (a ← get;
     let count := alarm_count_of (a_db a) sev in
     done ← (if 0 <? count then
               b ← get;
               WebAuth.audit true (fun now =>
                 new_entry now (AlarmsAcknowledged (au_username u) sev (head_seq (a_db b)) count))
             else mret (Ok 0));
     try api_internal done (fun _ => a ← get; mret (Ok (Query.alarms (a_db a))))).

Record MostWrittenQuery : Type := mkMostWrittenQuery {
  mw_hours : option Z;
  mw_limit : option Z;
  mw_target : option string;
  mw_client : option string;
}.

Definition audit_most_written (u : AuthUser) (q : MostWrittenQuery) : app (result ApiError (list WrittenNode)) :=
  requires Auditor u
    (now ← clock;
     let hours := clamp (default 24 (mw_hours q)) 1 (24 * 366) in
     let limit := clamp (default 10 (mw_limit q)) 1 500 in
     a ← get;
     try api_internal
       (most_written (a_db a) (now - hours * 3600 * 1000000000) (Z.to_nat limit)
          (mkWrittenFilter (trimmed (mw_target q)) (trimmed (mw_client q))))
       (fun l => mret (Ok l))).

(** [audit_verify]: [anchors] are read from the exports' state file. *)
Definition audit_verify (anchors : list Anchor) (u : AuthUser) : app (result ApiError VerifyReport) :=
  requires Auditor u (a ← get; mret (Ok (verify_against (a_db a) anchors))).

(** ** The gateway's status *)
Record TargetView : Type := mkTargetView {
  tv_config : TargetConfig;
  tv_status : option TargetStatus;
  tv_clients : list ClientInfo;
}.

Definition relay_clients (a : App) (name : string) : option (list ClientInfo) :=
  (fun s => (map_to_list (clients s)).*2) <$> a_relays a !! name.

(** [target_views]: the statuses first, then the targets and their clients. *)
Fixpoint view_targets (st : gmap string TargetStatus) (l : list TargetConfig) : app (list TargetView) :=
  match l with
  | [] => mret []
  | t :: l =>
      a ← get;
      rest ← view_targets st l;
      mret (mkTargetView t (st !! t_name t) (default [] (relay_clients a (t_name t))) :: rest)
  end.
Definition target_views : app (list TargetView) :=
  st ← on_site (on_manager (fun m => (statuses m, m)));
  c ← on_site read_config;
  view_targets st (targets c).

Definition show_targets (u : AuthUser) : app (result ApiError (list TargetView)) :=
  requires Auditor u (l ← target_views; mret (Ok l)).

Definition target_clients (u : AuthUser) (name : string) : app (result ApiError (list ClientInfo)) :=
  requires Auditor u
    (a ← get; mret (of_option (api_not_found ("unknown target '" +:+ name +:+ "'")) (relay_clients a name))).

(** What [status] takes from elsewhere: the exports, the events lost, and the
    configuration at start. *)
Record StatusMeets : Type := mkStatusMeets {
  sm_exports : list ExportStatus;
  sm_lost : Z;
  sm_gateway : GatewayConfig;
  sm_hosts : list string;
  sm_version : string;
  sm_ui_version : string;
}.
Record StatusResponse : Type := mkStatusResponse {
  sr_version : string;
  sr_ui_version : string;
  sr_application_name : string;
  sr_application_uri : string;
  sr_certificate : option CertificateInfo;
  sr_lost_audit_events : Z;
  sr_settings : AuditSettings;
  sr_rejected_certificates : nat;
  sr_exports : list ExportStatus;
  sr_targets : list TargetView;
}.

Definition status (x : StatusMeets) (u : AuthUser) : app (result ApiError StatusResponse) :=
  requires Auditor u
    (a ← get;
     views ← target_views;
     mret (Ok (mkStatusResponse (sm_version x) (sm_ui_version x) (application_name (sm_gateway x))
                 (application_uri (sm_hosts x) (sm_gateway x)) (from_x509 <$> result_ok (read_own_cert (a_pki a)))
                 (sm_lost x) (s_settings (a_site a)) (length (rejected_dir (a_pki a))) (sm_exports x) views))).

(** ** Facts *)

(** An acknowledgement is recorded for alarms that were counted, up to the end
    of the trail as it is then. *)
Lemma acknowledged_up_to_head u sev ls r e :
  runs (acknowledge_alarms u sev) ls (Ret r) → e ∈ recorded ls →
  ∃ a b, a ∈ seen ls ∧ b ∈ seen ls ∧ 0 < alarm_count_of (a_db a) sev ∧
    event e = AlarmsAcknowledged (au_username u) sev (head_seq (a_db b)) (alarm_count_of (a_db a) sev) ∧
    role_rank Operator ≤ role_rank (au_role u).
Proof.
  intros Hr He. apply runs_requires in Hr as [(x & _ & ->)|[Hu Hr]]; [by apply not_elem_of_nil in He|].
  unfold WebAuth.audit in Hr. run_parts. destruct (Z.ltb_spec 0 (alarm_count_of (a_db a) sev)).
  - run_parts. apply runs_try in Hr2 as [(x & _ & _ & ->)|(n & _ & Hr)]; run_parts; simpl in He;
      apply list_elem_of_singleton in He as ->; exists a, a1; by split_and!; [left|right; left|..].
  - run_parts. apply runs_try in Hr2 as [(x & _ & _ & ->)|(n & _ & Hr)]; run_parts; simpl in He; by apply not_elem_of_nil in He.
Qed.
End Trail.

(** Every answer forbids framing, sniffing and scripts from elsewhere; one of
    the API, records and certificates among them, is kept in no cache. *)
Lemma headers_everywhere web path l :
  mkHeader "x-frame-options" "DENY" ∈ security_headers web path l ∧
  mkHeader "x-content-type-options" "nosniff" ∈ security_headers web path l ∧
  mkHeader "referrer-policy" "no-referrer" ∈ security_headers web path l ∧
  mkHeader "content-security-policy" CONTENT_POLICY ∈ security_headers web path l ∧
  (is_api path = true → ∀ h, h ∈ security_headers web path l → hd_name h = "cache-control" → hd_value h = "no-store").
Proof.
  unfold security_headers. set (m := if tls web && _ then _ else _).
  assert (Hin : ∀ n v l0 h, h ∈ insert_header n v l0 ↔ h = mkHeader n v ∨ h ∈ l0 ∧ hd_name h ≠ n).
  { intros n v l0 h. unfold insert_header. rewrite elem_of_app, list_elem_of_singleton, list_elem_of_In, filter_In, <- list_elem_of_In.
    rewrite negb_true_iff, String.eqb_neq. tauto. }
  rewrite !Hin. split_and!; try naive_solver. intros Ha h Hh Hn. rewrite !Hin in Hh. unfold m in Hh. rewrite Ha in Hh.
  destruct Hh as [->|[[->|[[->|[[->|[Hh _]] _]] _]] _]]; try done.
  destruct (tls web && _); rewrite ?Hin in Hh; naive_solver.
Qed.

(** ** Running the model *)
Section WebTrailWitnesses.
Import ToyNodes ToyOpc ToyRelay ToyX509 Toy.
Existing Instances opc x509.

Definition trail_app (rows : list Row) : App :=
  mkApp (mkSite (mkManager (mkConfig default_gateway default_web default_audit (mkExportConfig None None) (mkMcpConfig false []) [] [])
                   ∅ ∅ (Ok [])) ∅ (new_settings default_audit) None ∅)
    (mkPkiDir ∅ ∅ [] []) (mkPkiDir ∅ ∅ [] []) ∅ ∅ (mkDb rows None) (mkUserDb ∅ []) ∅.
Definition quiet_world : World :=
  mkWorld 1000 "r" (fun _ => Ok 1) false (fun _ => Err BadTimeout) (fun _ _ => Ok ()) (fun _ => Ok ()) (Ok []).
Definition lost_row (n : Z) : Row := row_of n (new_entry (10 * n) (EventsLost n)).
Definition op : AuthUser := mkAuthUser "olga" Operator false None.

(** An alarm recorded between the count and the reading of the end of the trail
    is acknowledged too, although nobody saw it. *)
Example unseen_alarm_acknowledged :
  let begun := run_for 1 quiet_world (acknowledge_alarms op Error) (trail_app [lost_row 1]) in
  recorded (exec quiet_world begun.1.2 (trail_app [lost_row 1; lost_row 2])).1.1 =
    [new_entry 1000 (AlarmsAcknowledged "olga" Error 2 1)].
Proof. vm_compute. reflexivity. Qed.
End WebTrailWitnesses.
