(* ===== verification/Mcp.v ===== *)
(** The endpoint for AI assistants ([src/src/web/mcp.rs]): JSON-RPC requests
    with an API token, their records in the trail, the tools that read, and the
    tools that change the configuration through the web UI's handlers
    ([WebTargets], [WebSettings], [WebCerts]).

    JSON text, serde's conversions and the views of the web UI that a tool
    answers with are parameters ([Serde]); a tool's description is text for its
    reader and left out, its name and arguments are not. *)

From S2P Require Import Prelude Net Event Opc Task Steps Sessions Relay Transport Connection Store Query Users Config Pipeline Endpoints Browser WebAuth WebUsers Discovery ConfigFile Targets WebTargets WebEdits WebSettings Pki WebCerts.

(** ** JSON values *)
Definition as_u64 (v : json) : option Z :=
  match v with JInt z => if (0 <=? z) && (z <=? u64_max) then Some z else None | _ => None end.
Definition as_i64 (v : json) : option Z :=
  match v with JInt z => if (i64_min <=? z) && (z <=? i64_max) then Some z else None | _ => None end.
Definition is_object (v : json) : bool := match v with JObj _ => true | _ => false end.
Definition is_array (v : json) : bool := match v with JArr _ => true | _ => false end.
Definition is_null (v : json) : bool := match v with JNull => true | _ => false end.
Definition keys (v : json) : list string := match v with JObj fields => fields.*1 | _ => [] end.
(** [value[key]]: null when it is not there *)
Definition index (v : json) (key : string) : json := default JNull (json_get key v).

(** [Map::insert], keys in order *)
Fixpoint json_insert (key : string) (v : json) (fields : list (string * json)) : list (string * json) :=
  match fields with
  | [] => [(key, v)]
  | (k, w) :: fields =>
      if String.eqb k key then (key, v) :: fields
      else if String.leb key k then (key, v) :: (k, w) :: fields
      else (k, w) :: json_insert key v fields
  end.

(** [overlay]: the fields of [changes] over [base]. *)
Definition overlay (base changes : json) (skip : list string) : json :=
  match base, changes with
  | JObj b, JObj c =>
      JObj (foldl (fun b kv => if bool_decide (kv.1 ∈ skip) then b else json_insert kv.1 kv.2 b) b c)
  | _, _ => base
  end.

(** [string]: trimmed, not empty *)
Definition string_arg (args : json) (key : string) : option string :=
  s ← json_get key args ≫= json_as_str;
  let s := trim s in if String.eqb s EmptyString then None else Some s.
Definition required (args : json) (key : string) : result string string :=
  of_option ("'" +:+ key +:+ "' is required") (string_arg args key).

(** ** Secrets *)

(** [text.find(pat)], as the text before it and after it *)
Fixpoint split_at_first (pat s : string) : option (string * string) :=
  match strip_prefix pat s with
  | Some rest => Some (EmptyString, rest)
  | None =>
      match s with
      | EmptyString => None
      | String a s => r ← split_at_first pat s; Some (String a r.1, r.2)
      end
  end.

(** Up to the first of [/], [?] and [#] *)
Fixpoint split_authority (s : string) : string * string :=
  match s with
  | EmptyString => (EmptyString, EmptyString)
  | String a rest =>
      if has_byte a "/?#" then (EmptyString, s)
      else let r := split_authority rest in (String a r.1, r.2)
  end.

(** [strip_userinfo] *)
Definition strip_userinfo (text : string) : string :=
  match split_at_first "://" text with
  | None => text
  | Some (scheme, rest) =>
      let '(authority, tail) := split_authority rest in
      match rsplit_once "@"%char authority with
      | Some (_, host) => scheme +:+ "://(hidden)@" +:+ host +:+ tail
      | None => text
      end
  end.

(** [redact] *)
Definition secret_key (k : string) : bool := String.eqb k "password" || String.eqb k "token".
Fixpoint redact (v : json) : json :=
  match v with
  | JObj fields =>
      JObj ((fix go l :=
        match l with
        | [] => []
        | (k, v) :: l => (k, if secret_key k && negb (is_null v) then JStr "(hidden)" else redact v) :: go l
        end) fields)
  | JArr items => JArr ((fix go l := match l with [] => [] | v :: l => redact v :: go l end) items)
  | JStr s => JStr (strip_userinfo s)
  | other => other
  end.

(** ** Tools: a name and the arguments it knows *)
Definition PROTOCOL_VERSIONS : list string := ["2025-06-18"; "2025-03-26"; "2024-11-05"].
Definition MAX_RECORDS : Z := 200.

Definition Tool : Type := string * list string.
Definition tools : list Tool :=
  [("search_audit_trail", ["before_seq"; "event"; "limit"; "node"; "since"; "target"; "until"; "user"]);
   ("get_audit_record", ["seq"]);
   ("gateway_status", []);
   ("most_written_nodes", ["hours"]);
   ("verify_audit_trail", []);
   ("list_unacknowledged_alarms", [])].

Definition target_fields : list string :=
  ["discovery_interval_secs"; "endpoint_url"; "listen"; "max_connections"; "max_connections_per_address";
   "min_security"; "name"].
Definition group_fields : list string := ["group_client"; "group_name"].

(** With the scope each belongs to. *)
Definition change_tools : list (string * Tool) :=
  [("targets", ("list_targets", []));
   ("targets", ("discover_endpoints", ["endpoint_url"]));
   ("targets", ("add_target", target_fields));
   ("targets", ("update_target", target_fields ++ ["new_name"]));
   ("targets", ("delete_target", ["name"]));
   ("targets", ("create_summarise_group", ["client"; "name"; "node_ids"; "target"]));
   ("targets", ("add_summarised_nodes", group_fields ++ ["node_ids"; "target"]));
   ("targets", ("remove_summarised_nodes", group_fields ++ ["node_ids"; "target"]));
   ("targets", ("rename_summarise_group", group_fields ++ ["new_name"; "target"]));
   ("targets", ("delete_summarise_group", group_fields ++ ["target"]));
   ("certificates", ("list_certificates", []));
   ("certificates", ("trust_server_certificate", ["target"; "thumbprint"]));
   ("certificates", ("trust_rejected_certificate", ["thumbprint"]));
   ("certificates", ("untrust_certificate", ["thumbprint"]));
   ("certificates", ("delete_rejected_certificate", ["thumbprint"]));
   ("settings", ("get_settings", []));
   ("settings", ("update_audit_settings", ["fail_mode"; "ignored_summary_secs"; "record_old_value"; "retention_days"]));
   ("settings", ("update_export_settings", ["questdb"]));
   ("settings", ("update_certificate_hostnames", ["certificate_hostnames"]));
   ("alarms", ("acknowledge_alarms", ["severity"; "up_to_seq"]))].

Definition is_change_tool (name : string) : bool := existsb (fun st => String.eqb st.2.1 name) change_tools.

(** ** Callers *)
Record TokenUser : Type := mkTokenUser {
  tu_username : string;
  tu_token : string;
  tu_role : Role;
  tu_scopes : list string;
}.

Record Caller : Type := mkCaller {
  cl_user : TokenUser;
  cl_client : ClientContext;
  cl_agent : option string;
  cl_changes : list string;
}.

(** A request: its headers, its address and its body. *)
Record Request : Type := mkRequest {
  rq_authorization : option string;
  rq_agent : option string;
  rq_address : option IpAddr;
  rq_body : Blob;
}.

Inductive Response : Type :=
(** refused, with a status and a text *)
| Refuse (status : Z) (text : string)
| Answer (v : json)
(** nothing to answer *)
| Accepted.

Definition mcp_client (address : option IpAddr) : ClientContext :=
  mkClientContext (address_text address) None (Some "MCP") None None None.

(** The scopes of the token that the user's role still has. *)
Definition allowed_scopes (u : TokenUser) : list string :=
  List.filter (fun s => role_rank (mcp_scope_role s) <=? role_rank (tu_role u)) (tu_scopes u).
Definition caller (rq : Request) (u : TokenUser) : Caller :=
  mkCaller u (mcp_client (rq_address rq)) ((fun a => clip a 128) <$> rq_agent rq) (allowed_scopes u).

Definition auth_user (c : Caller) : AuthUser :=
  mkAuthUser (tu_username (cl_user c)) (tu_role (cl_user c)) false (Some (tu_token (cl_user c))).
Definition caller_tools (c : Caller) : list Tool :=
  tools ++ omap (fun st => if bool_decide (st.1 ∈ cl_changes c) then Some st.2 else None) change_tools.

(** ** JSON-RPC answers *)
Definition rpc_error (id : json) (code : Z) (message : string) : json :=
  JObj [("error", JObj [("code", JInt code); ("message", JStr message)]); ("id", id); ("jsonrpc", JStr "2.0")].
Definition rpc_result (id v : json) : json := JObj [("id", id); ("jsonrpc", JStr "2.0"); ("result", v)].
Definition tool_failed (text : string) : json :=
  JObj [("content", JArr [JObj [("text", JStr text); ("type", JStr "text")]]); ("isError", JBool true)].

(** What a tool answers; [Serde] makes JSON of it. *)
Inductive ToolAnswer `{X509Lib} `{!Crypto} : Type :=
| AnsRecords (records : list StoredRecord) (more : bool)
| AnsRecord (r : StoredRecord)
| AnsStatus (a : App) (alarms : list AlarmCount)
| AnsMostWritten (since : Z) (nodes : list WrittenNode)
| AnsVerified (r : VerifyReport)
| AnsAlarms (l : list (Severity * (Z * list StoredRecord)))
| AnsTargets (a : App)
| AnsEndpoints (l : list EndpointInfo)
| AnsGroup (g : GroupChange)
| AnsCertificates (own : option CertificateInfo) (trusted rejected : list CertificateInfo)
| AnsCertificate (i : CertificateInfo)
| AnsSettings (a : App)
| AnsAcknowledged (records : list StoredRecord) (left : nat)
| AnsOk.

(** ** serde's conversions, and texts of the endpoint *)
Class Serde `{X509Lib} `{!Crypto} : Type := {
  from_slice : Blob → result string json;
  answer_json : ToolAnswer → json;
  target_to_json : TargetConfig → json;
  target_of_json : json → result string TargetConfig;
  new_group_of_json : json → result string NewGroup;
  node_ids_of_json : json → result string (list string);
  audit_to_json : AuditConfig → json;
  audit_of_json : json → result string AuditConfig;
  (** [questdb] of an export request *)
  export_of_json : json → result string (option QuestDbInput);
  hostnames_of_json : json → result string (list string);
  text_of_json : string → json → result string string;
  optional_of_json : string → json → result string (option string);
  severity_of_json : json → option Severity;
  (** [Debug] of a severity *)
  severity_debug : Severity → string;
  (** [DateTime::parse_from_rfc3339] *)
  parse_rfc3339 : string → result string Z;
  instructions : string;
  pkg_version : string;
}.

Section Mcp.
Context `{X509Lib} `{!Crypto} `{!Transport.Stack} `{!Channels} `{!Serde} `{StoreEnv} `{UserEnv}.
Context (escape_debug : string → string).
Context (parse_uri : string → result string Uri) (ca_usable : option string → result string unit).
Context (json_extract : string → string → option string).
Context (no_token : NodeId).
Abbreviation app := (prog App).

(** What a request meets. *)
Record McpMeets : Type := mkMcpMeets {
  mm_cert : CertMeets;
  mm_settings : Meets;
  (** the web server's configuration at start *)
  mm_web : WebConfig;
  (** the users' database, and the time text it stores *)
  mm_io : nat → io_oracle;
  mm_now : string;
  (** what the exports' state file remembers *)
  mm_anchors : list Anchor;
}.

(** ** Authentication *)
Definition bearer (rq : Request) : option string := rq_authorization rq ≫= strip_prefix "Bearer ".

(** [authenticate] *)
Definition authenticate (x : McpMeets) (rq : Request) : app (option TokenUser) :=
  match bearer rq with
  | None => mret None
  | Some given =>
      let secret := trim given in
      found ← atomic (fun a =>
        let r := verify_token (mm_io x 0) (mm_now x) secret (a_users a) in
        (r.1, mkApp (a_site a) (a_pki a) (a_web_pki a) (a_relays a) (a_trust_changed a) (a_db a) r.2 (a_refused a)));
      match found with
      | Ok (Some (username, scopes)) =>
          state ← atomic (fun a => (session_state (mm_io x 1) username (a_users a), a));
          mret (match state with
                | Ok (Some s) =>
                    if (role_rank (ss_role s) <? role_rank Auditor) || ss_must_change s then None
                    else Some (mkTokenUser username (default EmptyString (split "_" secret !! 1%nat)) (ss_role s) scopes)
                | _ => None
                end)
      | _ => mret None
      end
  end.

(** The id part of a refused token. *)
Definition token_id (given : string) : string :=
  match strip_prefix "gwt_" (trim given) with
  | Some rest => clip (default EmptyString (head (split "_" rest))) 32
  | None => "(not a gateway token)"
  end.

(** At most one record per address a minute; whether this one is recorded. *)
Definition note_refused (now : Z) (address : option IpAddr) (m : gmap IpAddr Z) : bool * gmap IpAddr Z :=
  match address with
  | None => (true, m)
  | Some ip =>
      let m := filter (fun kv : IpAddr * Z => elapsed now kv.2 < 60 * 1000000000) m in
      match m !! ip with Some _ => (false, m) | None => (true, <[ip := now]> m) end
  end.

(** [rejected] *)
Definition rejected (rq : Request) : app unit :=
  match bearer rq with
  | None => mret ()
  | Some given =>
      now ← clock;
      due ← atomic (fun a => let r := note_refused now (rq_address rq) (a_refused a) in (r.1, set_refused r.2 a));
      if (due : bool) then
        _ ← WebAuth.audit false (fun now =>
          with_client (mcp_client (rq_address rq)) (new_entry now (ApiTokenRejected (token_id given))));
        mret ()
      else mret ()
  end.

(** ** Tools that read *)

(** [unacknowledged] *)
Definition unacknowledged (db : Db) (sev : Severity) (upto : option Z) : result string (Z * list StoredRecord) :=
  let mark := match List.find (fun c => bool_decide (Query.severity c = sev)) (alarms db) with
              | Some c => acknowledged_up_to c | None => 0 end in
  records ← query json_extract db
    (mkAuditQuery None None None None None None ((fun u => i64_wrap (u + 1)) <$> upto) (Some mark)
       (Some (join "," (kinds sev))) (Some MAX_RECORDS));
  Ok (mark, reverse records).

Definition time_arg (args : json) (key : string) : result string (option Z) :=
  match string_arg args key with
  | None => Ok None
  | Some v => match parse_rfc3339 v with
              | Ok t => Ok (Some t)
              | Err e => Err (key +:+ ": not an RFC 3339 time (" +:+ e +:+ ")")
              end
  end.

(** The search of [search_audit_trail]. *)
Definition search_query (args : json) : result string (AuditQuery * Z) :=
  let limit := clamp (default 50 (json_get "limit" args ≫= as_u64)) 1 MAX_RECORDS in
  let event := string_arg args "event" in
  let several := match event with Some e => has_byte ","%char e | None => false end in
  t1 ← time_arg args "since"; t2 ← time_arg args "until";
  Ok (mkAuditQuery (string_arg args "target") (if several then None else event) (string_arg args "user")
        (string_arg args "node") t1 t2 (json_get "before_seq" args ≫= as_i64) None
        (if several then event else None) (Some limit), limit).

Definition alarm_lists (db : Db) : result string (list (Severity * (Z * list StoredRecord))) :=
  collect ((fun sev => r ← unacknowledged db sev None; Ok (sev, r)) <$> Severity_ALL).

(** [call] *)
Definition call (x : McpMeets) (tool : string) (args : json) : app (result string ToolAnswer) :=
  if String.eqb tool "search_audit_trail" then
    match search_query args with
    | Err e => mret (Err e)
    | Ok (q, limit) =>
        a ← get;
        mret (records ← query json_extract (a_db a) q; Ok (AnsRecords records (Z.of_nat (length records) =? limit)))
    end
  else if String.eqb tool "get_audit_record" then
    match json_get "seq" args ≫= as_i64 with
    | None => mret (Err "seq is required")
    | Some n =>
        a ← get;
        mret (records ← query json_extract (a_db a)
                (mkAuditQuery None None None None None None (Some (Z.min i64_max (n + 1))) None None (Some 1));
              r ← of_option ("no record " +:+ pretty n +:+ " (removed by retention, or not written yet)")
                    (List.find (fun r => seq r =? n) records);
              Ok (AnsRecord r))
    end
  else if String.eqb tool "gateway_status" then
    a ← get; mret (Ok (AnsStatus a (alarms (a_db a))))
  else if String.eqb tool "most_written_nodes" then
    let hours := clamp (default 24 (json_get "hours" args ≫= as_i64)) 1 (24 * 366) in
    now ← clock;
    let since := now - hours * 3600 * 1000000000 in
    a ← get;
    mret (nodes ← most_written (a_db a) since 10 (mkWrittenFilter None None); Ok (AnsMostWritten since nodes))
  else if String.eqb tool "verify_audit_trail" then
    a ← get; mret (Ok (AnsVerified (verify_against (a_db a) (mm_anchors x))))
  else if String.eqb tool "list_unacknowledged_alarms" then
    a ← get; mret (l ← alarm_lists (a_db a); Ok (AnsAlarms l))
  else mret (Err ("unknown tool '" +:+ tool +:+ "'")).

(** ** Tools that change *)
Definition arg {A} (r : result string A) : result string A :=
  match r with Ok a => Ok a | Err e => Err ("invalid arguments: " +:+ e) end.
(** A handler's answer as the tool's. *)
Definition reply {A} (f : A → ToolAnswer) (p : app (result ApiError A)) : app (result string ToolAnswer) :=
  r ← p; mret (match r with Ok a => Ok (f a) | Err e => Err (api_text e) end).
(** [?] on what is computed from the arguments *)
Definition given {A} (r : result string A) (k : A → app (result string ToolAnswer)) : app (result string ToolAnswer) :=
  match r with Ok a => k a | Err e => mret (Err e) end.

Definition config_of (name : string) : app (result string TargetConfig) :=
  t ← on_site (target_config name); mret (match t with Ok t => Ok t | Err e => Err (api_text e) end).

(** [find_group]: the group's position, and the check that it is still there *)
Definition find_group (args : json) (k : string → nat → GroupCheck → app (result string ToolAnswer))
    : app (result string ToolAnswer) :=
  given (required args "target") (fun target =>
    let name := string_arg args "group_name" in
    let client := string_arg args "group_client" in
    t ← config_of target;
    given t (fun t =>
      given (of_option ("target '" +:+ target +:+ "' has no summarise group "
                        +:+ group_label (mkSummariseGroup name client [] ∅)
                        +:+ "; list_targets shows them (give group_client for a group of one client)")
               (fst <$> list_find (fun g => sg_name g = name ∧ sg_client g = client) (Config.summarise t)))
        (fun i => k target i (expecting name client)))).

(** [node_refs] *)
Definition node_refs (args : json) : result string (list string) :=
  match json_get "node_ids" args with Some v => arg (node_ids_of_json v) | None => Ok [] end.

(** The target with the given fields changed. *)
Definition edited_target (current : TargetConfig) (name : string) (args : json) : result string TargetConfig :=
  let v := overlay (target_to_json current) args ["name"; "new_name"] in
  arg (target_of_json (overlay v (JObj [("name", JStr (default name (string_arg args "new_name")))]) [])).

(** What an assistant could be talked into stays in the web UI. *)
Definition refuse_audit (c : AuditConfig) (args : json) : result string unit :=
  let shorter :=
    match json_get "retention_days" args ≫= as_u64 with
    | Some days => negb (days =? 0) && ((cfg_retention_days c =? 0) || (days <? cfg_retention_days c))
    | None => false
    end in
  if shorter then Err "shorter retention deletes records for good: change it in the web UI (Settings)"
  else if match index args "fail_mode" with JStr s => String.eqb s "open" | _ => false end
          && bool_decide (cfg_fail_mode c = Closed)
  then Err "switching fail-closed off lets writes pass unrecorded: change it in the web UI (Settings)"
  else Ok ().

Definition update_audit (x : McpMeets) (u : AuthUser) (args : json) : app (result string ToolAnswer) :=
  c ← on_site read_config;
  given (refuse_audit (Config.audit c) args) (fun _ =>
  given (arg (audit_of_json (overlay (audit_to_json (Config.audit c)) args []))) (fun a =>
    reply (fun _ => AnsOk) (on_site (put_audit escape_debug (mm_settings x) u a)))).

Definition acknowledge (u : AuthUser) (args : json) : app (result string ToolAnswer) :=
  given (of_option "severity must be error or warning" (severity_of_json (index args "severity"))) (fun sev =>
  given (of_option "up_to_seq is required" (as_i64 (index args "up_to_seq"))) (fun upto =>
    a ← get;
    given (unacknowledged (a_db a) sev (Some upto)) (fun mr =>
      let '(mark, records) := mr in
      match records with
      | [] => mret (Err ("nothing to acknowledge: no unacknowledged " +:+ severity_debug sev +:+ " records after seq "
                         +:+ pretty mark +:+ " up to " +:+ pretty upto
                         +:+ " (list_unacknowledged_alarms shows what is open)"))
      | _ =>
          w ← WebAuth.audit true (fun now =>
                new_entry now (AlarmsAcknowledged (actor u) sev upto (Z.of_nat (length records))));
          given w (fun _ =>
            a ← get;
            given (unacknowledged (a_db a) sev None) (fun mr => mret (Ok (AnsAcknowledged records (length mr.2)))))
      end))).

(** [change] *)
Definition change (x : McpMeets) (u : AuthUser) (tool : string) (args : json) : app (result string ToolAnswer) :=
  let o := cm_outside (mm_cert x) in
  let ok := fun _ : unit => AnsOk in
  if String.eqb tool "list_targets" then reply AnsTargets (requires Auditor u (a ← get; mret (Ok a)))
  else if String.eqb tool "discover_endpoints" then
    given (arg (text_of_json "endpoint_url" args)) (fun url => reply AnsEndpoints (discover_url u url))
  else if String.eqb tool "add_target" then
    given (arg (target_of_json args)) (fun t => reply ok (on_site (create_target escape_debug o u t)))
  else if String.eqb tool "update_target" then
    given (required args "name") (fun name =>
      current ← config_of name;
      given current (fun current =>
      given (edited_target current name args) (fun t =>
        reply ok (on_site (update_target escape_debug o u name t)))))
  else if String.eqb tool "delete_target" then
    given (required args "name") (fun name => reply ok (on_site (delete_target escape_debug o u name)))
  else if String.eqb tool "create_summarise_group" then
    given (required args "target") (fun target =>
    given (node_refs args) (fun ids =>
    given (arg (new_group_of_json (JObj [("client", index args "client"); ("name", index args "name");
             ("nodes", JArr ((fun id => JObj [("node_id", JStr id)]) <$> ids))]))) (fun new =>
      reply AnsGroup (on_site (create_group escape_debug o u target new)))))
  else if String.eqb tool "add_summarised_nodes" then
    find_group args (fun target i check =>
    given (node_refs args) (fun ids =>
      reply AnsGroup (on_site (add_nodes escape_debug o u target i check ((fun id => mkNodeRef id None) <$> ids)))))
  else if String.eqb tool "remove_summarised_nodes" then
    find_group args (fun target i check =>
    given (arg (node_ids_of_json (index args "node_ids"))) (fun ids =>
      reply AnsGroup (on_site (remove_nodes escape_debug o u target i check ids))))
  else if String.eqb tool "rename_summarise_group" then
    find_group args (fun target i check =>
    given (arg (optional_of_json "name" (JObj [("name", index args "new_name")]))) (fun name =>
      reply ok (on_site (rename_group escape_debug o u target i check name))))
  else if String.eqb tool "delete_summarise_group" then
    find_group args (fun target i check => reply ok (on_site (delete_group escape_debug o u target i check)))
  else if String.eqb tool "list_certificates" then
    reply (fun l => AnsCertificates l.1.1 l.1.2 l.2) (certificates u)
  else if String.eqb tool "trust_server_certificate" then
    given (required args "target") (fun target =>
    given (arg (text_of_json "thumbprint" (overlay (JObj []) args ["target"]))) (fun thumb =>
      reply AnsCertificate (trust_server no_token (mm_cert x) u target thumb)))
  else if String.eqb tool "trust_rejected_certificate" then
    given (required args "thumbprint") (fun t => reply AnsCertificate (WebCerts.trust_rejected (mm_cert x) u t))
  else if String.eqb tool "untrust_certificate" then
    given (required args "thumbprint") (fun t => reply AnsCertificate (WebCerts.untrust (mm_cert x) u t))
  else if String.eqb tool "delete_rejected_certificate" then
    given (required args "thumbprint") (fun t => reply AnsCertificate (WebCerts.delete_rejected (mm_cert x) u t))
  else if String.eqb tool "get_settings" then reply AnsSettings (requires Auditor u (a ← get; mret (Ok a)))
  else if String.eqb tool "update_audit_settings" then update_audit x u args
  else if String.eqb tool "update_export_settings" then
    given (arg (export_of_json args)) (fun q =>
      reply ok (on_site (put_export escape_debug parse_uri ca_usable (mm_settings x) u q)))
  else if String.eqb tool "update_certificate_hostnames" then
    given (arg (hostnames_of_json args)) (fun names =>
      reply ok (on_site (put_gateway escape_debug (mm_settings x) u names)))
  else if String.eqb tool "acknowledge_alarms" then acknowledge u args
  else mret (Err ("unknown tool '" +:+ tool +:+ "'")).

(** ** A message *)

(** [record]: who asked what *)
Definition record_call (c : Caller) (tool : string) (args : json) : app (result string Z) :=
  let client := match cl_agent c with
                | Some agent =>
                    let k := cl_client c in
                    mkClientContext (Event.remote_addr k) (Event.application_uri k) (Some ("MCP · " +:+ agent)) None None None
                | None => cl_client c
                end in
  WebAuth.audit false (fun now => with_client client (new_entry now
    (McpQuery (tu_username (cl_user c)) (tu_token (cl_user c)) tool (clip (json_str (redact args)) MAX_TEXT)))).

Definition quote : string := str_of_bytes [34%N].
Definition debug_list (l : list string) : string :=
  "[" +:+ join ", " ((fun s => quote +:+ escape_debug s +:+ quote) <$> l) +:+ "]".

(** [tools/call] *)
Definition no_such_tool (id : json) (name : string) : json :=
  rpc_error id (-32602)
    ("unknown tool '" +:+ name +:+ "'" +:+
     (if is_change_tool name
      then " (this token may not use it: its permissions are chosen when it is created, on the Account page)"
      else EmptyString)).

Definition unknown_arguments (tool : Tool) (args : json) : list string :=
  List.filter (fun k => negb (bool_decide (k ∈ tool.2))) (keys args).

Definition answered (r : result string ToolAnswer) : json :=
  match r with
  | Ok v => JObj [("content", JArr [JObj [("text", JStr (json_str (answer_json v))); ("type", JStr "text")]]);
                  ("isError", JBool false); ("structuredContent", answer_json v)]
  | Err e => tool_failed e
  end.

(** No tool call without its record, in fail-closed mode. *)
Definition run_tool (x : McpMeets) (c : Caller) (id : json) (name : string) (args : json) : app json :=
  w ← record_call c name args;
  s ← match w with
      | Err e => on_site (atomic (fun s => (if bool_decide (fail_mode (s_settings s) = Closed) then Some e else None, s)))
      | Ok _ => mret None
      end;
  match (s : option string) with
  | Some e => mret (rpc_error id (-32603) ("not run: its audit record could not be stored (" +:+ e +:+ ")"))
  | None =>
      r ← (if is_change_tool name then change x (auth_user c) name args else call x name args);
      mret (rpc_result id (answered r))
  end.

Definition tools_call (x : McpMeets) (c : Caller) (id params : json) : app json :=
  let name := default EmptyString (json_get "name" params ≫= json_as_str) in
  let args := match json_get "arguments" params with None | Some JNull => JObj [] | Some a => a end in
  match List.find (fun t => String.eqb t.1 name) (caller_tools c) with
  | None => mret (no_such_tool id name)
  | Some tool =>
      if negb (is_object args) then mret (rpc_error id (-32602) "arguments must be an object")
      else match unknown_arguments tool args with
      | [] => run_tool x c id name args
      | unknown => mret (rpc_result id (tool_failed ("unknown argument(s) " +:+ debug_list unknown +:+ " for " +:+ name
                                                     +:+ "; allowed: " +:+ debug_list tool.2)))
      end
  end.

Definition server_info : json :=
  JObj [("name", JStr "opcua-audit-gateway"); ("title", JStr "OPC UA Audit Gateway"); ("version", JStr pkg_version)].
(** A version the client asks for, if the endpoint speaks it. *)
Definition protocol_version (params : json) : string :=
  match json_get "protocolVersion" params ≫= json_as_str with
  | Some v => if bool_decide (v ∈ PROTOCOL_VERSIONS) then v else "2025-06-18"
  | None => "2025-06-18"
  end.
Definition initialize (id params : json) : json :=
  rpc_result id (JObj [("capabilities", JObj [("tools", JObj [("listChanged", JBool false)])]);
                       ("instructions", JStr instructions); ("protocolVersion", JStr (protocol_version params));
                       ("serverInfo", server_info)]).

(** [handle] *)
Definition handle (x : McpMeets) (c : Caller) (message : json) : app (option json) :=
  match json_get "id" message, json_get "method" message ≫= json_as_str with
  | Some id, Some method =>
      let params := default (JObj []) (json_get "params" message) in
      if String.eqb method "initialize" then mret (Some (initialize id params))
      else if String.eqb method "ping" then mret (Some (rpc_result id (JObj [])))
      else if String.eqb method "tools/list" then
        mret (Some (rpc_result id (JObj [("tools", JArr ((fun t => JObj [("name", JStr t.1)]) <$> caller_tools c))])))
      else if String.eqb method "tools/call" then v ← tools_call x c id params; mret (Some v)
      else mret (Some (rpc_error id (-32601) ("method '" +:+ method +:+ "' not found")))
  | _, _ => mret None
  end.

(** [post] *)
Definition post (x : McpMeets) (rq : Request) : app Response :=
  if negb (transport_is_safe (mm_web x))
  then mret (Refuse FORBIDDEN "the MCP endpoint needs HTTPS: set tls = true under [web]")
  else
    u ← authenticate x rq;
    match u with
    | None =>
        _ ← rejected rq;
        mret (Refuse UNAUTHORIZED "a valid API token is needed (Authorization: Bearer gwt_…)")
    | Some u =>
        c ← on_site read_config;
        if negb (enabled (mcp c))
        then mret (Refuse NOT_FOUND "the MCP endpoint is turned off (Settings, AI assistants)")
        else match from_slice (rq_body rq) with
        | Err e => mret (Answer (rpc_error JNull (-32700) ("parse error: " +:+ e)))
        | Ok message =>
            if is_array message
            then mret (Answer (rpc_error JNull (-32600) "invalid request: batches are not supported"))
            else
              r ← handle x (caller rq u) message;
              mret (match r with Some v => Answer v | None => Accepted end)
        end
    end.
End Mcp.

(** ** Secrets in the arguments *)

(** URLs that differ only in their user information. *)
Definition same_url (s t : string) : Prop :=
  ∃ scheme u u' host tail,
    s = scheme +:+ "://" +:+ u +:+ "@" +:+ host +:+ tail ∧ t = scheme +:+ "://" +:+ u' +:+ "@" +:+ host +:+ tail ∧
    has_byte ":"%char scheme = false ∧ has_byte "@"%char host = false ∧
    (∀ c, has_byte c "/?#" = true → has_byte c u = false ∧ has_byte c u' = false ∧ has_byte c host = false) ∧
    match tail with EmptyString => True | String c _ => has_byte c "/?#" = true end.

(** Arguments that differ only in passwords, tokens and user information. *)
Fixpoint alike (a b : json) {struct a} : Prop :=
  match a, b with
  | JStr s, JStr t => s = t ∨ same_url s t
  | JArr l, JArr m =>
      (fix go l m := match l, m with
                     | [], [] => True
                     | x :: l, y :: m => alike x y ∧ go l m
                     | _, _ => False
                     end) l m
  | JObj f, JObj g =>
      (fix go f g := match f, g with
                     | [], [] => True
                     | (k, v) :: f, (k', v') :: g =>
                         k = k' ∧ (secret_key k = true ∧ is_null v = false ∧ is_null v' = false ∨ alike v v') ∧ go f g
                     | _, _ => False
                     end) f g
  | _, _ => a = b
  end.

Lemma has_byte_here c s : has_byte c (String c s) = true.
Proof. simpl. by rewrite Ascii.eqb_refl. Qed.

Lemma split_at_scheme scheme rest :
  has_byte ":"%char scheme = false → split_at_first "://" (scheme +:+ "://" +:+ rest) = Some (scheme, rest).
Proof.
  induction scheme as [|a scheme IH]; intros Hs.
  - cbn [String.append]. by destruct rest.
  - cbn [has_byte] in Hs. apply orb_false_iff in Hs as [Ha Hs]. cbn [String.append]. cbn [split_at_first strip_prefix].
    rewrite Ha. cbn [String.append] in IH. by rewrite IH.
Qed.

Lemma split_authority_app s tail :
  (∀ c, has_byte c "/?#" = true → has_byte c s = false) →
  match tail with EmptyString => True | String c _ => has_byte c "/?#" = true end →
  split_authority (s +:+ tail) = (s, tail).
Proof.
  induction s as [|a s IH]; intros Hs Ht; cbn [String.append].
  - destruct tail as [|c tail]; [done|]. cbn [split_authority]. by rewrite Ht.
  - cbn [split_authority]. destruct (has_byte a "/?#") eqn:Ha; [pose proof (Hs a Ha) as Hb; by rewrite has_byte_here in Hb|].
    rewrite IH; [done| |done]. intros c Hc. pose proof (Hs c Hc) as Hb. cbn [has_byte] in Hb. by apply orb_false_iff in Hb as [_ ?].
Qed.

Lemma rsplit_host u host : has_byte "@"%char host = false → rsplit_once "@"%char (u +:+ "@" +:+ host) = Some (u, host).
Proof.
  intros Hh. assert (Hn : rsplit_once "@"%char host = None).
  { induction host as [|a host IH]; [done|]. cbn [has_byte] in Hh. apply orb_false_iff in Hh as [Ha Hh]. cbn [rsplit_once].
    rewrite IH by done. rewrite Ascii.eqb_sym. by rewrite Ha. }
  induction u as [|a u IH]; cbn [String.append rsplit_once]; [by rewrite Hn|]. cbn [String.append] in IH. by rewrite IH.
Qed.

Lemma strip_userinfo_url scheme u host tail :
  has_byte ":"%char scheme = false → has_byte "@"%char host = false →
  (∀ c, has_byte c "/?#" = true → has_byte c u = false ∧ has_byte c host = false) →
  match tail with EmptyString => True | String c _ => has_byte c "/?#" = true end →
  strip_userinfo (scheme +:+ "://" +:+ u +:+ "@" +:+ host +:+ tail) = scheme +:+ "://(hidden)@" +:+ host +:+ tail.
Proof.
  intros Hs Hh Hu Ht. unfold strip_userinfo. rewrite split_at_scheme by done.
  replace (u +:+ "@" +:+ host +:+ tail) with ((u +:+ "@" +:+ host) +:+ tail) by (by rewrite <- !string_app_assoc').
  rewrite split_authority_app; [by rewrite rsplit_host| |done].
  intros c Hc. destruct (Hu c Hc) as [H1 H2]. rewrite !has_byte_app, H1, H2.
  destruct (has_byte c "@") eqn:Hat; [|done]. simpl in Hat. rewrite orb_false_r in Hat. apply Ascii.eqb_eq in Hat. by subst.
Qed.

Section JsonInd.
Context (P : json → Prop).
Context (Pnull : P JNull) (Pbool : ∀ b, P (JBool b)) (Pint : ∀ z, P (JInt z)) (Pfloat : ∀ z, P (JFloat z)) (Pstr : ∀ s, P (JStr s)).
Context (Parr : ∀ l, Forall P l → P (JArr l)) (Pobj : ∀ f, Forall (fun kv => P kv.2) f → P (JObj f)).
Fixpoint json_induct (v : json) : P v :=
  match v with
  | JNull => Pnull | JBool b => Pbool b | JInt z => Pint z | JFloat z => Pfloat z | JStr s => Pstr s
  | JArr l => Parr l ((fix go l := match l return Forall P l with [] => Forall_nil_2 _ | x :: l => Forall_cons_2 _ _ _ (json_induct x) (go l) end) l)
  | JObj f => Pobj f ((fix go f := match f return Forall (fun kv => P kv.2) f with
                                   | [] => Forall_nil_2 _ | (k, x) :: f => Forall_cons_2 _ (k, x) _ (json_induct x) (go f) end) f)
  end.
End JsonInd.

Lemma redact_alike a b : alike a b → redact a = redact b.
Proof.
  revert b. induction a as [|x|x|x|s|l IH|f IH] using json_induct; intros b; try (by simpl; intros <-).
  - destruct b as [| | | |t| |]; simpl; try done.
    intros [->|(scheme & u & u' & host & tail & -> & -> & Hs & Hh & Hu & Ht)]; [done|].
    rewrite !strip_userinfo_url; try done; intros c Hc; destruct (Hu c Hc) as (? & ? & ?); done.
  - destruct b as [| | | | |m|]; simpl; try done. intros Hm. f_equal. revert m Hm.
    induction IH as [|x l Hx Hl IHl]; intros [|y m]; try done. intros [Hxy Hm]. f_equal; [by apply Hx|by apply IHl].
  - destruct b as [| | | | | |g]; simpl; try done. intros Hg. f_equal. revert g Hg.
    induction IH as [|[k v] f Hv Hf IHf]; intros [|[k' v'] g]; try done. intros (<- & Hkv & Hg). f_equal; [f_equal|by apply IHf].
    destruct Hkv as [(-> & -> & ->)|Hvv]; [done|]. simpl in Hv. rewrite (Hv _ Hvv).
    assert (Hn : is_null v = is_null v') by (destruct v, v'; simpl in Hvv; done). by rewrite Hn.
Qed.

Section Redaction.
Context `{X509Lib} `{!Crypto}.

End Redaction.

(** ** What an assistant can do *)
Section Bounds.
Context `{X509Lib} `{!Crypto} `{!Transport.Stack} `{!Channels} `{!Serde} `{StoreEnv} `{UserEnv}.
Context (escape_debug : string → string).
Context (parse_uri : string → result string Uri) (ca_usable : option string → result string unit).
Context (json_extract : string → string → option string).
Context (no_token : NodeId).

(** No more than reading: a token's last use and the last refusals are noted,
    and the requests recorded. *)
Definition inert (l : label App) : Prop :=
  match l with
  | LUpdate b a => a_site a = a_site b ∧ a_pki a = a_pki b ∧ a_web_pki a = a_web_pki b ∧ a_relays a = a_relays b ∧
                   a_trust_changed a = a_trust_changed b ∧ a_db a = a_db b
  | LRecord _ e _ => kind (event e) ∈ ["mcp_query"; "api_token_rejected"]
  | LClock _ => True
  | _ => False
  end.

(** The token of the request, and its user, as they were read. *)
Definition vouched (x : McpMeets) (rq : Request) (u : TokenUser) (ls : list (label App)) : Prop :=
  ∃ given a a' s, bearer rq = Some given ∧ a ∈ seen ls ∧ a' ∈ seen ls ∧
    (verify_token (mm_io x 0) (mm_now x) (trim given) (a_users a)).1 = Ok (Some (tu_username u, tu_scopes u)) ∧
    session_state (mm_io x 1) (tu_username u) (a_users a') = Ok (Some s) ∧
    ss_role s = tu_role u ∧ ss_must_change s = false ∧ role_rank Auditor ≤ role_rank (tu_role u).

(** The tool belongs to a scope of the token that the user's role has. *)
Definition permitted (u : TokenUser) (tool : string) : Prop :=
  ∃ scope fields, (scope, (tool, fields)) ∈ change_tools ∧ scope ∈ tu_scopes u ∧
    role_rank (mcp_scope_role scope) ≤ role_rank (tu_role u).

(** Recorded before it is run; in fail-closed mode only if that succeeded. *)
Definition announced (u : TokenUser) (tool : string) (ls : list (label App)) : Prop :=
  ∃ args e res rest, ls = LClock (ts e) :: LRecord false e res :: rest ∧
    event e = McpQuery (tu_username u) (tu_token u) tool (clip (json_str (redact args)) MAX_TEXT) ∧
    match res with
    | Ok _ => True
    | Err _ => ∃ a l, rest = LUpdate a a :: l ∧ fail_mode (s_settings (a_site a)) = Open
    end.

(** *** Parts *)
Lemma site_id (s : Site) : mkSite (s_manager s) (s_browser s) (s_settings s) (s_exporting s) (s_files s) = s.
Proof. by destruct s. Qed.
Lemma app_id (a : App) : set_site (a_site a) a = a.
Proof. by destruct a. Qed.

Lemma runs_read ls c : runs (on_site read_config) ls (Ret c) → ∃ a, ls = [LUpdate a a] ∧ c = Targets.config (s_manager (a_site a)).
Proof.
  intros Hr. inversion Hr as [|p l p' ls' p'' Hd Hrest]; simplify_eq. inversion Hd; subst.
  simpl in Hrest. apply runs_ret in Hrest as [<- ->]. exists s. simpl. by rewrite site_id, app_id.
Qed.

Lemma inert_same (a : App) : inert (LUpdate a a).
Proof. done. Qed.

Lemma runs_authenticate x rq ls u :
  runs (authenticate x rq) ls (Ret u) →
  Forall inert ls ∧ match u with Some u => vouched x rq u ls | None => True end.
Proof.
  unfold authenticate. destruct (bearer rq) as [given|] eqn:Hb; intros Hr; [|by run_parts].
  apply runs_bind in Hr as (l1 & l2 & found & -> & H1' & Hr). apply runs_atomic in H1' as (a & -> & ->). cbn [fst snd] in *.
  destruct (verify_token (mm_io x 0) (mm_now x) (trim given) (a_users a)).1 as [[[name scopes]|]|e] eqn:Hv.
  2,3: run_parts; split; [by repeat constructor|done].
  run_parts. split; [by repeat constructor|]. cbn [fst].
  destruct (session_state _ _ _) as [[st|]|e] eqn:Hs; try done.
  destruct (role_rank (ss_role st) <? role_rank Auditor) eqn:Hr; [done|]. destruct (ss_must_change st) eqn:Hm; [done|]. simpl.
  apply Z.ltb_ge in Hr. do 4 eexists. split_and!; [done|by left|right; by left|exact Hv|exact Hs|done..].
Qed.

Lemma runs_rejected rq ls r : runs (rejected rq) ls (Ret r) → Forall inert ls.
Proof.
  unfold rejected, WebAuth.audit. destruct (bearer rq); intros Hr; [|by run_parts]. run_parts.
  destruct (note_refused _ _ _) as [[] m] in *; cbn [fst snd app] in *; run_parts; cbn [app].
  all: repeat first [apply Forall_nil_2|apply Forall_cons_2]; simpl; try done; set_solver.
Qed.

Lemma runs_gets {A} (f : App → A) ls (r : A) : runs (a ← get; mret (f a)) ls (Ret r) → Forall inert ls.
Proof. intros Hr. run_parts. by repeat constructor. Qed.

Lemma call_inert x tool args ls r : runs (call json_extract x tool args) ls (Ret r) → Forall inert ls.
Proof.
  unfold call. repeat (case_match; try (intros Hr; run_parts; by repeat constructor)).
Qed.

Lemma read_not_change : forallb (fun t => negb (is_change_tool t.1)) tools = true.
Proof. reflexivity. Qed.

Lemma caller_tool_permitted rq u name tool :
  List.find (fun t => String.eqb t.1 name) (caller_tools (caller rq u)) = Some tool →
  is_change_tool name = true → permitted u name.
Proof.
  intros [Hin He%String.eqb_eq]%find_some Hc. subst name. unfold caller_tools in Hin. apply in_app_or in Hin as [Hin|Hin].
  - pose proof read_not_change as Hall. rewrite forallb_forall in Hall. apply Hall in Hin. by rewrite Hc in Hin.
  - apply list_elem_of_In, list_elem_of_omap in Hin as ([scope t] & Hin & Ht). simpl in Ht. case_bool_decide as Hs; [|done].
    injection Ht as <-. destruct t as [name fields]. exists scope, fields. split; [done|].
    apply list_elem_of_In, filter_In in Hs as [Hs Hr]. split; [by apply list_elem_of_In|by apply Z.leb_le].
Qed.

Lemma runs_record_call c tool args ls res :
  runs (record_call c tool args) ls (Ret res) →
  ∃ e, ls = [LClock (ts e); LRecord false e res] ∧
    event e = McpQuery (tu_username (cl_user c)) (tu_token (cl_user c)) tool (clip (json_str (redact args)) MAX_TEXT).
Proof.
  unfold record_call, WebAuth.audit. intros Hr. run_parts. eexists (with_client _ (new_entry _ _)). by split.
Qed.

(** Reading the fail mode after a record that failed. *)
Lemma runs_check (f : Site → option string) ls r :
  runs (on_site (atomic (fun s => (f s, s)))) ls (Ret r) → ∃ a, ls = [LUpdate a a] ∧ r = f (a_site a).
Proof.
  intros Hr. inversion Hr as [|p l p' ls' p'' Hd Hrest]; simplify_eq. inversion Hd; subst.
  simpl in Hrest. apply runs_ret in Hrest as [<- ->]. exists s. simpl. by rewrite app_id.
Qed.

Lemma runs_run_tool x rq u id name args ls v :
  runs (run_tool escape_debug parse_uri ca_usable json_extract no_token x (caller rq u) id name args) ls (Ret v) →
  (is_change_tool name = true → permitted u name) →
  Forall inert ls ∨ permitted u name ∧ announced u name ls.
Proof.
  unfold run_tool. intros Hr Hp. apply runs_bind in Hr as (l1 & l2 & res & -> & Hrec & Hr).
  apply runs_record_call in Hrec as (e & -> & He).
  assert (Hc : Forall inert [LClock (ts e); LRecord false e res]) by (repeat first [apply Forall_nil_2|apply Forall_cons_2]; simpl; try done; rewrite He; set_solver).
  apply runs_bind in Hr as (l3 & l4 & st & -> & Hst & Hr).
  assert (Hst' : Forall inert l3 ∧ (is_Ok res = false → st = None → ∃ a, l3 = [LUpdate a a] ∧ fail_mode (s_settings (a_site a)) = Open)).
  { destruct res as [n|err]; [by run_parts|]. apply runs_check in Hst as (a & -> & ->). split; [by repeat constructor|].
    intros _. case_bool_decide as Hm; [done|]. intros _. exists a. split; [done|]. by destruct (fail_mode _). }
  destruct Hst' as [Hi Hopen]. destruct st as [err|].
  { run_parts. left. by repeat apply Forall_app_2. }
  apply runs_bind in Hr as (l5 & l6 & r & -> & Htool & Hr). run_parts. rewrite app_nil_r.
  destruct (is_change_tool name) eqn:Hct.
  - right. split; [by apply Hp|]. exists args, e, res. eexists. split; [reflexivity|]. split; [done|].
    destruct res as [n|err]; [done|]. destruct (Hopen eq_refl eq_refl) as (a & -> & Ha). by exists a, l5.
  - left. apply call_inert in Htool. by repeat apply Forall_app_2.
Qed.

Lemma runs_handle x rq u message ls v :
  runs (handle escape_debug parse_uri ca_usable json_extract no_token x (caller rq u) message) ls (Ret v) →
  Forall inert ls ∨ ∃ tool, permitted u tool ∧ announced u tool ls.
Proof.
  unfold handle. destruct (json_get "id" message) as [id|]; [|intros Hr; left; by run_parts].
  destruct (_ ≫= _) as [method|]; [|intros Hr; left; by run_parts].
  repeat (case_match; [intros Hr; try (left; by run_parts)|]); [|intros Hr; left; by run_parts].
  apply runs_bind in Hr as (l1 & l2 & w & -> & Hr & Hw). run_parts. rewrite app_nil_r. revert Hr. unfold tools_call.
  destruct (List.find _ _) as [tool|] eqn:Hf; [|intros Hr; left; by run_parts].
  destruct (negb _); [intros Hr; left; by run_parts|].
  destruct (unknown_arguments _ _); [|intros Hr; left; by run_parts].
  intros Hr. apply runs_run_tool in Hr as [?|?]; [by left|right; eauto|]. by eapply caller_tool_permitted.
Qed.

(** *** A request *)
Definition read_by (ls : list (label App)) (P : App → Prop) : Prop := ∃ a, a ∈ seen ls ∧ P a.

End Bounds.

(** ** The audit settings *)

(** serde on the audit settings: [Serialize] writes every field; a number is a
    field of an unsigned type only as itself; a variant without fields is its
    name, or an object with its name and null. *)
Class AuditJson `{Serde} : Prop := {
  audit_written c : ∃ fields, audit_to_json c = JObj fields ∧
    json_get "retention_days" (JObj fields) = Some (JInt (cfg_retention_days c)) ∧
    json_get "fail_mode" (JObj fields) = Some (JStr (fail_mode_str (cfg_fail_mode c)));
  retention_read v a w : audit_of_json v = Ok a → json_get "retention_days" v = Some w →
    w = JInt (cfg_retention_days a) ∧ 0 ≤ cfg_retention_days a < 2 ^ 32;
  fail_mode_read v a w : audit_of_json v = Ok a → json_get "fail_mode" v = Some w →
    w = JStr (fail_mode_str (cfg_fail_mode a)) ∨ w = JObj [(fail_mode_str (cfg_fail_mode a), JNull)];
}.

Lemma get_insert k v f k' :
  json_get k' (JObj (json_insert k v f)) = if String.eqb k k' then Some v else json_get k' (JObj f).
Proof.
  induction f as [|[k1 w] f IH]; [simpl; by destruct (String.eqb k k')|]. cbn [json_insert].
  destruct (String.eqb_spec k1 k) as [->|Hk]; [simpl; by destruct (String.eqb k k')|].
  destruct (String.leb k k1); [simpl; by destruct (String.eqb k k')|].
  simpl in *. destruct (String.eqb_spec k1 k') as [->|]; [|exact IH].
  by destruct (String.eqb_spec k k') as [->|].
Qed.

Lemma get_overlay b c k :
  NoDup c.*1 → json_get k (overlay (JObj b) (JObj c) []) =
               match json_get k (JObj c) with Some v => Some v | None => json_get k (JObj b) end.
Proof.
  unfold overlay. revert b. induction c as [|[k1 v] c IH]; intros b Hn; [done|].
  apply NoDup_cons in Hn as [Hk1 Hn]. cbn [foldl fst snd]. rewrite bool_decide_eq_false_2 by set_solver.
  rewrite IH by done. rewrite get_insert. cbn [json_get List.find fst].
  destruct (String.eqb_spec k1 k) as [->|]; [|done].
  destruct (List.find _ c) as [[k2 w]|] eqn:Hf; [|done]. apply find_some in Hf as [Hin He%String.eqb_eq]. simpl in He. subst k2.
  destruct Hk1. apply list_elem_of_fmap. exists (k, w). split; [done|]. by apply list_elem_of_In.
Qed.

Section Audit.
Context `{X509Lib} `{!Crypto} `{!Transport.Stack} `{!Channels} `{!Serde} `{StoreEnv} `{UserEnv} `{!AuditJson}.
Context (escape_debug : string → string).
Context (parse_uri : string → result string Uri) (ca_usable : option string → result string unit).
Context (json_extract : string → string → option string).
Context (no_token : NodeId).

(** Not a shorter retention, and fail-closed mode only off where the fail mode
    was given as an object. *)
Definition restrained (args : json) (old new : AuditConfig) : Prop :=
  (cfg_retention_days new = 0 ∨ cfg_retention_days old ≠ 0 ∧ cfg_retention_days old ≤ cfg_retention_days new) ∧
  (cfg_fail_mode old = Closed → cfg_fail_mode new = Closed ∨ is_object (index args "fail_mode") = true).

(** A step leaves the audit settings, in the configuration and in effect, or
    replaces them by settings that are [ok]. *)
Definition audit_step (ok : AuditConfig → Prop) (l : label Site) : Prop :=
  match l with
  | LUpdate b a =>
      let cfg s := Config.audit (Targets.config (s_manager s)) in
      (cfg a = cfg b ∨ ok (cfg a)) ∧
      (s_settings a = s_settings b ∨ ∃ c, s_settings a = Pipeline.apply c (s_settings b) ∧ ok c)
  | _ => True
  end.

Lemma restrained_database args old new db :
  restrained args old new →
  restrained args old (mkAuditConfig db (cfg_retention_days new) (cfg_fail_mode new) (cfg_record_old_value new)
                         (ignored_summary_secs new)).
Proof. done. Qed.

Lemma refuse_audit_ok c args :
  refuse_audit c args = Ok () →
  (∀ days, json_get "retention_days" args ≫= as_u64 = Some days →
     days = 0 ∨ cfg_retention_days c ≠ 0 ∧ cfg_retention_days c ≤ days) ∧
  (cfg_fail_mode c = Closed → index args "fail_mode" ≠ JStr "open").
Proof.
  unfold refuse_audit. intros Href. split.
  - intros days Hd. rewrite Hd in Href. destruct (Z.eqb_spec days 0); [by left|].
    destruct (Z.eqb_spec (cfg_retention_days c) 0); [done|]. destruct (Z.ltb_spec days (cfg_retention_days c)); [done|]. by right.
  - intros Hc Ho. rewrite Hc, Ho in Href. simpl in Href. by destruct (match _ with Some _ => _ | None => _ end).
Qed.

(** What passes the check and the conversion. *)
Lemma overlaid_restrained fields c a :
  NoDup fields.*1 → refuse_audit c (JObj fields) = Ok () →
  audit_of_json (overlay (audit_to_json c) (JObj fields) []) = Ok a → restrained (JObj fields) c a.
Proof.
  intros Hn [Hdays Hopen]%refuse_audit_ok Ha. destruct (audit_written c) as (b & Hb & Hret & Hfm). rewrite Hb in Ha.
  pose proof (get_overlay b fields "retention_days" Hn) as Hr. pose proof (get_overlay b fields "fail_mode" Hn) as Hf.
  unfold restrained, index in *. rewrite Hret in Hr. rewrite Hfm in Hf. split.
  - destruct (json_get "retention_days" (JObj fields)) as [w|] eqn:Hg; destruct (retention_read _ _ _ Ha Hr) as [Hw Hb'].
    + apply Hdays. rewrite Hw. cbn [mbind option_bind as_u64].
      replace ((0 <=? cfg_retention_days a) && (cfg_retention_days a <=? u64_max)) with true; [done|].
      symmetry. rewrite andb_true_iff, !Z.leb_le. unfold u64_max. lia.
    + injection Hw as Hw. destruct (decide (cfg_retention_days a = 0)); [by left|right; lia].
  - intros Hc. destruct (json_get "fail_mode" (JObj fields)) as [w|] eqn:Hg; destruct (fail_mode_read _ _ _ Ha Hf) as [Hw|Hw].
    + left. destruct (cfg_fail_mode a); [|done]. destruct (Hopen Hc). by rewrite Hw.
    + right. by rewrite Hw.
    + left. rewrite Hc in Hw. by destruct (cfg_fail_mode a).
    + done.
Qed.

Lemma audit_steps (ok : AuditConfig → Prop) x u new ls r :
  (∀ db, ok (mkAuditConfig db (cfg_retention_days new) (cfg_fail_mode new) (cfg_record_old_value new) (ignored_summary_secs new))) →
  runs (WebSettings.put_audit escape_debug x u new) ls (Ret r) → Forall (audit_step ok) ls.
Proof.
  intros Hok. unfold WebSettings.put_audit, requires. destruct (require _ _); intros Hr; [|run_parts; constructor].
  apply runs_bind in Hr as (l1 & l2 & res & -> & Hm & Hr). apply runs_on_manager in Hm as (s & -> & ->).
  apply runs_try in Hr as [(e & He & -> & ->)|(oc & Hd & Hr)].
  - apply Forall_cons_2; [|constructor]. split; left; simpl; [by rewrite (settings_refused _ _ _ _ He)|done].
  - apply settings_done in Hd as [-> Hc]. cbn [fst snd] in Hr. unfold note, config_changed, WebAuth.audit in Hr.
    run_parts. destruct (negb _); run_parts.
    all: repeat first [apply Forall_nil_2|apply Forall_cons_2|apply Forall_app_2]; try done; simpl.
    all: (split; [by first [left; reflexivity|right; rewrite Hc; apply Hok]|]).
    all: first [by left|right; eexists; split; [reflexivity|apply Hok]].
Qed.

(** Claim C37. Whatever arguments an assistant
    gives the tool for the audit settings, no step of it shortens the retention
    that the request read from the configuration or switches its fail-closed
    mode off, in the configuration or in the settings in effect; except that a
    fail mode given as an object, not a string, passes. *)
Theorem assistant_settings_restrained x u fields ls r :
  NoDup fields.*1 →
  runs (change escape_debug parse_uri ca_usable json_extract no_token x u "update_audit_settings" (JObj fields)) ls (Ret r) →
  ∃ a rest, ls = LUpdate a a :: rest ∧
    Forall (fun l => audit_step (restrained (JObj fields) (Config.audit (Targets.config (s_manager (a_site a))))) (part a_site l)) ls.
Proof.
  intros Hn Hr. change (runs (update_audit escape_debug x u (JObj fields)) ls (Ret r)) in Hr. unfold update_audit in Hr.
  apply runs_bind in Hr as (l1 & l2 & c & -> & Hc & Hr). apply runs_read in Hc as (a & -> & ->).
  exists a, l2. split; [done|]. apply Forall_cons_2; [by split; left|]. unfold given in Hr.
  destruct (refuse_audit _ _) as [[]|e] eqn:Href; [|run_parts; constructor]. unfold arg in Hr.
  destruct (audit_of_json _) as [new|e] eqn:Hnew; [|run_parts; constructor].
  pose proof (overlaid_restrained _ _ _ Hn Href Hnew) as Hok.
  unfold reply in Hr. apply runs_bind in Hr as (l3 & l4 & res & -> & Hr & Hret). run_parts. rewrite app_nil_r.
  apply runs_zoom in Hr as [Hr _]; [|by intros ? []]. apply (proj1 (Forall_fmap (part a_site) (audit_step _) l3)). eapply audit_steps; [|exact Hr].
  intros db. by apply restrained_database.
Qed.
End Audit.

(** ** Running the model *)
Section McpWitnesses.
Import ToyNodes ToyOpc ToyRelay ToyStack ToyConnection ToyX509 Toy ToyUsers.
Existing Instances opc x509.

(** A call of the tool for the audit settings. *)
Definition settings_call (args : list (string * json)) : json :=
  JObj [("id", JInt 1); ("method", JStr "tools/call");
        ("params", JObj [("arguments", JObj args); ("name", JStr "update_audit_settings")])].
Definition open_args : list (string * json) := [("fail_mode", JStr "open")].
Definition open_object : list (string * json) := [("fail_mode", JObj [("open", JNull)])].
Definition year_args : list (string * json) := [("retention_days", JInt 730)].

(** serde for the audit settings and a few messages. *)
Definition json_field {A} (key : string) (absent : A) (f : json → option A) (v : json) : result string A :=
  match json_get key v with
  | None => Ok absent
  | Some w => of_option ("invalid " +:+ key) (f w)
  end.
Definition json_fail_mode (v : json) : option FailMode :=
  let named s := if String.eqb s "open" then Some Open else if String.eqb s "closed" then Some Closed else None in
  match v with
  | JStr s => named s
  | JObj [(s, JNull)] => named s
  | _ => None
  end.
Definition json_number (top : Z) (v : json) : option Z :=
  z ← as_u64 v; if z <? top then Some z else None.
Definition json_bool (v : json) : option bool := match v with JBool b => Some b | _ => None end.
Definition json_path (v : json) : option (option string) :=
  match v with JNull => Some None | JStr s => Some (Some s) | _ => None end.

Definition toy_audit_to_json (c : AuditConfig) : json :=
  JObj [("database", match database c with Some s => JStr s | None => JNull end);
        ("fail_mode", JStr (fail_mode_str (cfg_fail_mode c)));
        ("ignored_summary_secs", JInt (ignored_summary_secs c));
        ("record_old_value", JBool (cfg_record_old_value c));
        ("retention_days", JInt (cfg_retention_days c))].
Definition toy_audit_of_json (v : json) : result string AuditConfig :=
  d ← json_field "database" None json_path v;
  f ← json_field "fail_mode" Open json_fail_mode v;
  s ← json_field "ignored_summary_secs" 3600 (json_number (2 ^ 64)) v;
  o ← json_field "record_old_value" true json_bool v;
  r ← json_field "retention_days" 365 (json_number (2 ^ 32)) v;
  Ok (mkAuditConfig d r f o s).

Definition toy_message (b : Blob) : result string json :=
  if String.eqb b "open" then Ok (settings_call open_args)
  else if String.eqb b "object" then Ok (settings_call open_object)
  else if String.eqb b "730" then Ok (settings_call year_args)
  else Err "expected value".

#[local] Instance toy_serde : Serde := {
  from_slice := toy_message;
  answer_json a := match a with AnsOk => JStr "ok" | _ => JNull end;
  target_to_json t := JObj [("name", JStr (t_name t))];
  target_of_json _ := Err "no target";
  new_group_of_json _ := Err "no group";
  node_ids_of_json _ := Err "no nodes";
  audit_to_json := toy_audit_to_json;
  audit_of_json := toy_audit_of_json;
  export_of_json _ := Err "no export";
  hostnames_of_json _ := Err "no names";
  text_of_json k v := of_option ("missing field " +:+ k) (json_get k v ≫= json_as_str);
  optional_of_json k v := Ok (json_get k v ≫= json_as_str);
  severity_of_json v := match json_as_str v with
                        | Some s => if String.eqb s "error" then Some Error else if String.eqb s "warning" then Some Warning else None
                        | None => None
                        end;
  severity_debug s := match s with Error => "Error" | Warning => "Warning" end;
  parse_rfc3339 _ := Err "no time";
  instructions := "The audit trail of the gateway";
  pkg_version := "1.0.0";
}.

Lemma json_field_read {A} key (absent : A) f v w a :
  json_get key v = Some w → json_field key absent f v = Ok a → f w = Some a.
Proof. unfold json_field. intros ->. by intros ?%of_option_Ok. Qed.

(** The fields that were read. *)
Lemma toy_audit_read v a :
  toy_audit_of_json v = Ok a →
  json_field "fail_mode" Open json_fail_mode v = Ok (cfg_fail_mode a) ∧
  json_field "retention_days" 365 (json_number (2 ^ 32)) v = Ok (cfg_retention_days a).
Proof. unfold toy_audit_of_json. rewrite !result_bind_Ok. intros (d & _ & Ha). by repeat (apply result_bind_Ok in Ha as (? & ? & Ha)); simplify_eq. Qed.

#[local] Instance toy_audit_json : AuditJson.
Proof.
  split.
  - intros c. by eexists.
  - intros v a w [_ Hr]%toy_audit_read Hw. eapply json_field_read in Hr; [|exact Hw]. unfold json_number in Hr.
    apply bind_Some in Hr as (z & Hz & Hr). destruct (Z.ltb_spec z (2 ^ 32)); [|done]. injection Hr as <-.
    destruct w; try done. simpl in Hz. destruct (_ && _) eqn:Hb; [|done]. injection Hz as <-.
    by apply andb_true_iff in Hb as [?%Z.leb_le _].
  - intros v a w [Hf _]%toy_audit_read Hw. eapply json_field_read in Hf; [|exact Hw]. unfold json_fail_mode in Hf.
    repeat case_match; simplify_eq; rewrite ?String.eqb_eq in *; simplify_eq; rewrite <- Hf; eauto.
Qed.

(** A gateway in fail-closed mode that keeps records for a year, with a token
    for the settings. *)
Definition closed_audit : AuditConfig := mkAuditConfig None 365 Closed true 3600.
Definition assistant_app : App :=
  mkApp (mkSite (mkManager (mkConfig (mkGatewayConfig "Gateway" None "/pki" "/data" []) default_web closed_audit
                              (mkExportConfig None None) (mkMcpConfig true []) [plc1] []) ∅ ∅ (Ok [])) ∅
           (new_settings closed_audit) None ∅)
    empty_pki empty_pki ∅ ∅ (mkDb [] None)
    (Users.create_token ToyUsers.yes "0a1b" "ffee" "t1" "ann" "assistant" ["settings"] two_admins).2 ∅.
Definition mcp_meets : McpMeets :=
  mkMcpMeets cert_meets (mkMeets well (Ok ()) (Ok ()) (Ok ()) EmptyString)
    (mkWebConfig (listen default_web) true None None [] []) (fun _ => ToyUsers.yes) "t2" [].

Definition no_text (s : string) : string := s.
Definition no_uri (s : string) : result string Uri := Err "no URI".
Definition any_ca (pem : option string) : result string unit := Ok ().
Definition ask (body : string) : prog App Response :=
  post no_text no_uri any_ca no_json null_token mcp_meets (mkRequest (Some "Bearer gwt_0a1b_ffee") (Some "assistant") None body).
Definition asked (body : string) := exec with_plc (ask body) assistant_app.
Definition audit_now (a : App) : AuditConfig := Config.audit (Targets.config (s_manager (a_site a))).


(** ... and not for fail-closed mode to be switched off, except as an object. *)
Example fail_closed_refused : audit_now (asked "open").2 = closed_audit.
Proof. vm_compute. reflexivity. Qed.
Example fail_closed_lifted_by_object : cfg_fail_mode (audit_now (asked "object").2) = Open.
Proof. vm_compute. reflexivity. Qed.

Definition ann : AuthUser := mkAuthUser "ann" Admin false (Some "0a1b").
Definition year_tool : prog App (result string ToolAnswer) :=
  change no_text no_uri any_ca no_json null_token mcp_meets ann "update_audit_settings" (JObj year_args).
Definition longer := exec with_plc year_tool assistant_app.

Lemma assistant_settings_restrained_witness :
  cfg_retention_days (audit_now longer.2) = 730 ∧
  ∃ a rest, longer.1.1 = LUpdate a a :: rest ∧
    Forall (fun l => audit_step (restrained (JObj year_args) (Config.audit (Targets.config (s_manager (a_site a))))) (part a_site l))
      longer.1.1.
Proof.
  split; [vm_compute; reflexivity|].
  apply (assistant_settings_restrained no_text no_uri any_ca no_json null_token mcp_meets ann year_args _
           (default (Err EmptyString) longer.1.2)).
  - apply NoDup_singleton.
  - apply (exec_returns with_plc year_tool assistant_app). vm_compute. reflexivity.
Defined.

(** The settings are read before the change and written after it: what someone
    changes in between is undone, also fail-closed mode. *)
Definition open_app : App := (asked "object").2.
Definition closing : App → App := fun a =>
  (exec with_plc (on_site (WebSettings.put_audit no_text (mm_settings mcp_meets) cert_admin closed_audit)) a).2.
Example concurrent_change_undone :
  let begun := run_for 1 with_plc year_tool open_app in
  cfg_fail_mode (audit_now (closing begun.2)) = Closed ∧
  cfg_fail_mode (audit_now (exec with_plc begun.1.2 (closing begun.2)).2) = Open.
Proof. vm_compute. by split. Qed.


(** The number up to which alarms are acknowledged may lie ahead of the trail:
    alarms recorded later then count as acknowledged. *)
Definition one_alarm : App :=
  mkApp (a_site assistant_app) empty_pki empty_pki ∅ ∅ (mkDb [row_of 1 (new_entry 10 (EventsLost 3))] None) (mkUserDb ∅ []) ∅.
Definition ahead : json := JObj [("severity", JStr "error"); ("up_to_seq", JInt 1000)].
Definition acked := exec with_plc (acknowledge no_json ann ahead) one_alarm.
Definition ack_entry : AuditEntry := new_entry 1000 (AlarmsAcknowledged "ann (via MCP, token 0a1b)" Error 1000 1).
Example future_alarm_hidden :
  recorded acked.1.1 = [ack_entry] ∧
  List.find (fun c => bool_decide (Query.severity c = Error))
    (alarms (mkDb [row_of 1 (new_entry 10 (EventsLost 3)); row_of 2 ack_entry; row_of 3 (new_entry 2000 (EventsLost 9))] None))
  = Some (mkAlarmCount Error 1000 0 (kinds Error)).
Proof. vm_compute. by split. Qed.
End McpWitnesses.
