(* ===== verification/Within.v ===== *)
(** A relation that every step of a program keeps to, wherever the program is cut
    off: what a component promises about a part of the state, to those who run
    it together with others. The rules follow the programs' structure, and
    [stay] applies them. *)

From S2P Require Import Prelude Event Opc Task Steps WebAuth WebUsers.

(** ** Steps within a relation *)
Section Within.
Context `{Opc}.

Definition within {S} (R : S → S → Prop) (l : label S) : Prop := match l with LUpdate b a => R b a | _ => True end.
(** All steps of the program are within the relation, wherever it is cut off. *)
Definition stays {S A} (R : S → S → Prop) (p : prog S A) : Prop := spec (within R) p (fun _ _ => True).

Context {S : Type} (R : S → S → Prop).

Lemma stays_ret {A} (a : A) : stays R (mret a).
Proof. by apply spec_ret. Qed.
Lemma stays_bind {A B} (p : prog S A) (f : A → prog S B) : stays R p → (∀ a, stays R (f a)) → stays R (p ≫= f).
Proof. intros Hp Hf. eapply spec_bind; [exact Hp|]. intros a ls _ _. apply Hf. Qed.
Lemma stays_atomic {A} (f : S → A * S) : (∀ s, R s (f s).2) → stays R (atomic f).
Proof. intros Hf. split; [constructor|]. intros s. split; [by repeat constructor; simpl|done]. Qed.
Lemma stays_get : (∀ s, R s s) → stays R get.
Proof. intros Hr. split; [constructor|]. intros s. split; [by repeat constructor; simpl|done]. Qed.
Lemma stays_clock : stays R clock.
Proof. split; [constructor|]. intros z. split; [by repeat constructor|done]. Qed.
Lemma stays_random : stays R random.
Proof. split; [constructor|]. intros z. split; [by repeat constructor|done]. Qed.
Lemma stays_record c e : stays R (record_as c e).
Proof. split; [constructor|]. intros z. split; [by repeat constructor|done]. Qed.
Lemma stays_audit c f : stays R (WebAuth.audit c f).
Proof. apply stays_bind; [apply stays_clock|]. intros. apply stays_record. Qed.
Lemma stays_or_panic {A} (o : option A) : stays R (or_panic o).
Proof. destruct o; [by apply stays_ret|]. by split; [constructor|]. Qed.
Lemma stays_discover {A} (k : result string (list EndpointDescription) → prog S A) : (∀ a, stays R (k a)) → stays R (Discover k).
Proof.
  intros Hk. change (stays R (Discover mret ≫= k)). apply stays_bind; [|done].
  split; [constructor|]. intros z. split; [by repeat constructor|done].
Qed.

Lemma stays_runs {A} (p : prog S A) ls q b a : stays R p → runs p ls q → LUpdate b a ∈ ls → R b a.
Proof. intros Hp Hr Hin. apply (spec_sound _ _ _ _ _ Hp) in Hr as [Hl _]. rewrite Forall_forall in Hl. apply (Hl _ Hin). Qed.

Lemma stays_mono {A} (R' : S → S → Prop) (p : prog S A) : (∀ b a, R b a → R' b a) → stays R p → stays R' p.
Proof. intros Hm. apply spec_mono; [|done]. intros [] Hl; simpl in *; auto. Qed.
End Within.

Lemma stays_anything `{Opc} {S A} (R : S → S → Prop) (p : prog S A) : (∀ b a, R b a) → stays R p.
Proof.
  intros HR. unfold stays, spec. assert (Hn : Forall (within R) []) by constructor. revert Hn. generalize (@nil (label S)).
  induction p as [a| |k IH|k IH|c e k IH|g k IH|k IH|r t k IH|r k IH|c q k IH|e k IH|k IH]; simpl; intros h Hh;
    (split; [done|]); try done; intros; apply IH; (apply Forall_app_2; [done|]); repeat constructor; apply HR.
Qed.

Lemma stays_zoom `{Opc} {S T A} (view : S → T) (put : T → S → S) (R : T → T → Prop) (R' : S → S → Prop) (p : prog T A) :
  (∀ s t, R (view s) t → R' s (put t s)) → stays R p → stays R' (zoom view put p).
Proof.
  intros Hput. unfold stays, spec.
  assert (Hg : ∀ h h', Forall (within R') h' → always (Forall (within R)) p h (fun _ _ => True) →
    always (Forall (within R')) (zoom view put p) h' (fun _ _ => True)).
  { induction p as [x| |k IH|k IH|c e k IH|g k IH|k IH|r t k IH|r k IH|c q k IH|e k IH|k IH]; simpl; intros h h' Hh' [_ Hk]; (split; [done|]); try done.
    all: try (intros z; first [specialize (Hk z)|specialize (Hk (view z))]); eapply IH; [|exact Hk]; apply Forall_app_2; [done|]; repeat constructor; simpl.
    apply Hput. pose proof (always_inv _ _ _ _ Hk) as Hl. rewrite Forall_app, Forall_singleton in Hl. apply Hl. }
  intros Hp. by apply (Hg []).
Qed.

(** A run, cut off anywhere, of a composed program. *)
Lemma runs_bind_any `{Opc} {S A B} (p : prog S A) (f : A → prog S B) ls q :
  runs (p ≫= f) ls q →
  (∃ p', runs p ls p' ∧ ∀ b, q ≠ Ret b) ∨ ∃ ls1 ls2 a, ls = ls1 ++ ls2 ∧ runs p ls1 (Ret a) ∧ runs (f a) ls2 q.
Proof.
  unfold mbind, prog_bind. revert ls.
  induction p as [a| |k IH|k IH|c e k IH|g k IH|k IH|r t k IH|r k IH|c p k IH|e k IH|k IH]; intros ls; simpl.
  { intros Hr. right. exists [], ls, a. split_and!; [done|constructor|done]. }
  all: inversion 1 as [|q1 l q2 ls' q3 Hd Hr]; simplify_eq; [left; eexists; split; [constructor|done]|]; inversion Hd; subst.
  all: match goal with
    | Hr : runs (bind _ _) _ _ |- _ =>
        apply IH in Hr as [(p' & Hr & Hq)|(ls1 & ls2 & x & -> & H1' & H2')];
        [left; exists p'; split; [eapply runs_step; [constructor|exact Hr]|done]
        |right; eexists (_ :: ls1), ls2, x; split_and!; [reflexivity|eapply runs_step; [constructor|exact H1']|exact H2']]
    end.
Qed.

(** A run, cut off anywhere, of a program on a part of the state. *)
Lemma runs_zoom_any `{Opc} {S T A} (view : S → T) (put : T → S → S) (p : prog T A) ls q :
  (∀ t s, view (put t s) = t) → runs (zoom view put p) ls q → ∃ q', runs p (part view <$> ls) q'.
Proof.
  intros Hview. revert ls. induction p as [x| |k IH|k IH|c e k IH|g k IH|k IH|r t k IH|r k IH|c y k IH|e k IH|k IH]; intros ls; simpl.
  all: inversion 1 as [|q1 l q2 ls' q3 Hd Hr]; simplify_eq; [eexists; constructor|]; inversion Hd; subst.
  all: apply IH in Hr as [q' Hr]; exists q'; rewrite fmap_cons; refine (runs_step _ _ _ _ _ _ Hr); cbn [part]; rewrite ?Hview; constructor.
Qed.

(** ** The web handlers' building blocks *)
Section Blocks.
Context `{Opc} `{StoreEnv} `{UserEnv}.
Lemma stays_requires {S A} (R : S → S → Prop) r u (k : prog S (result ApiError A)) : stays R k → stays R (requires r u k).
Proof. unfold requires. by destruct (require r u). Qed.
Lemma stays_try {S E A B} (R : S → S → Prop) (f : E → ApiError) (r : result E A) (k : A → prog S (result ApiError B)) :
  (∀ a, stays R (k a)) → stays R (try f r k).
Proof. intros Hk. destruct r; [apply Hk|apply stays_ret]. Qed.
Lemma stays_close_all {S} (R : S → S → Prop) l : stays R (close_all l).
Proof. induction l as [|e l IH]; [apply stays_ret|]. apply stays_bind; [apply stays_audit|done]. Qed.
End Blocks.

Create HintDb stays.
#[export] Hint Resolve stays_ret stays_clock stays_random stays_record stays_audit stays_or_panic stays_close_all : stays.
Ltac stay :=
  repeat first
    [progress intros ?|solve [eauto with stays]
    |apply stays_bind; [|intros ?]
    |apply stays_requires
    |apply stays_try; intros ?
    |apply stays_atomic; intros ?; simpl
    |apply stays_get; intros ?
    |apply stays_discover; intros ?
    |case_match].
