(* ===== verification/Router.v ===== *)
(** The web server ([router] in [src/src/web/mod.rs]): which handler a request
    reaches and through which checks, and the state all handlers share. The
    handlers themselves are in the files about their parts; who may use them is
    in [Access]. Every path has one handler ([routes_unambiguous]). *)

From S2P Require Import Prelude Net Event Opc Task Steps Sessions Relay Transport Connection Store Query Export Lines Users Config Pipeline Endpoints Browser WebAuth WebUsers Discovery ConfigFile Targets WebTargets WebSettings WebEdits Pki WebCerts WebBrowser WebTrail Mcp.

(** ** The routes *)

(** The handlers, by their names in the source. *)
Inductive Endpoint : Type :=
| E_page
| E_health
| E_login
| E_logout
| E_me
| E_change_password
| E_list_tokens
| E_create_token
| E_delete_token
| E_all_tokens
| E_revoke_token
| E_status
| E_targets
| E_create_target
| E_update_target
| E_delete_target
| E_target_clients
| E_discover_target
| E_trust_server
| E_create_group
| E_rename_group
| E_delete_group
| E_add_nodes
| E_remove_nodes
| E_discover_url
| E_certificates
| E_own_certificate (pem : bool)
| E_web_certificate (pem : bool)
| E_regenerate_web_certificate
| E_import_own
| E_regenerate_own
| E_trust_rejected
| E_delete_rejected
| E_untrust
| E_audit_query
| E_audit_csv
| E_audit_verify
| E_audit_most_written
| E_alarms
| E_acknowledge_alarms
| E_settings
| E_put_audit
| E_put_export
| E_put_gateway
| E_put_mcp
| E_list_users
| E_create_user
| E_update_user
| E_delete_user
| E_connect
| E_disconnect
| E_browse
| E_attributes
| E_values
| E_mcp
| E_not_allowed.
#[export] Instance Endpoint_eq_dec : EqDecision Endpoint.
Proof. solve_decision. Defined.
#[export] Instance Method_eq_dec : EqDecision Method.
Proof. solve_decision. Defined.

Definition Route : Type := string * list (Method * Endpoint).

Definition api : list Route := [
  ("/health", [(GET, E_health)]);
  ("/login", [(POST, E_login)]);
  ("/logout", [(POST, E_logout)]);
  ("/me", [(GET, E_me)]);
  ("/me/password", [(POST, E_change_password)]);
  ("/me/tokens", [(GET, E_list_tokens); (POST, E_create_token)]);
  ("/me/tokens/{id}", [(DELETE, E_delete_token)]);
  ("/tokens", [(GET, E_all_tokens)]);
  ("/users/{name}/tokens/{id}", [(DELETE, E_revoke_token)]);
  ("/status", [(GET, E_status)]);
  ("/targets", [(GET, E_targets); (POST, E_create_target)]);
  ("/targets/{name}", [(PUT, E_update_target); (DELETE, E_delete_target)]);
  ("/targets/{name}/clients", [(GET, E_target_clients)]);
  ("/targets/{name}/discover", [(POST, E_discover_target)]);
  ("/targets/{name}/trust-server", [(POST, E_trust_server)]);
  ("/targets/{name}/summarise", [(POST, E_create_group)]);
  ("/targets/{name}/summarise/{group}", [(PUT, E_rename_group); (DELETE, E_delete_group)]);
  ("/targets/{name}/summarise/{group}/add", [(POST, E_add_nodes)]);
  ("/targets/{name}/summarise/{group}/remove", [(POST, E_remove_nodes)]);
  ("/discover", [(POST, E_discover_url)]);
  ("/certificates", [(GET, E_certificates)]);
  ("/certificates/own/cert.der", [(GET, E_own_certificate false)]);
  ("/certificates/own/cert.pem", [(GET, E_own_certificate true)]);
  ("/web-certificate/cert.pem", [(GET, E_web_certificate true)]);
  ("/web-certificate/cert.der", [(GET, E_web_certificate false)]);
  ("/web-certificate/regenerate", [(POST, E_regenerate_web_certificate)]);
  ("/certificates/own", [(POST, E_import_own)]);
  ("/certificates/own/regenerate", [(POST, E_regenerate_own)]);
  ("/certificates/rejected/{thumbprint}/trust", [(POST, E_trust_rejected)]);
  ("/certificates/rejected/{thumbprint}", [(DELETE, E_delete_rejected)]);
  ("/certificates/trusted/{thumbprint}/untrust", [(POST, E_untrust)]);
  ("/audit", [(GET, E_audit_query)]);
  ("/audit.csv", [(GET, E_audit_csv)]);
  ("/audit/verify", [(GET, E_audit_verify)]);
  ("/audit/most-written", [(GET, E_audit_most_written)]);
  ("/alarms", [(GET, E_alarms)]);
  ("/alarms/acknowledge", [(POST, E_acknowledge_alarms)]);
  ("/settings", [(GET, E_settings)]);
  ("/settings/audit", [(PUT, E_put_audit)]);
  ("/settings/export", [(PUT, E_put_export)]);
  ("/settings/gateway", [(PUT, E_put_gateway)]);
  ("/settings/mcp", [(PUT, E_put_mcp)]);
  ("/users", [(GET, E_list_users); (POST, E_create_user)]);
  ("/users/{name}", [(PUT, E_update_user); (DELETE, E_delete_user)]);
  ("/browser/{target}/connect", [(POST, E_connect)]);
  ("/browser/{target}/disconnect", [(POST, E_disconnect)]);
  ("/browser/{target}/browse", [(GET, E_browse)]);
  ("/browser/{target}/attributes", [(GET, E_attributes)]);
  ("/browser/{target}/values", [(POST, E_values)])
].

(** The pages and their files are embedded; what they hold is not modelled. *)
Definition pages : list Route := [
  ("/", [(GET, E_page)]);
  ("/js/{*path}", [(GET, E_page)]);
  ("/style.css", [(GET, E_page)]);
  ("/favicon.svg", [(GET, E_page)]);
  ("/fonts/{file}", [(GET, E_page)])
].

Definition mcp_route : Route := ("/mcp", [(POST, E_mcp); (GET, E_not_allowed); (DELETE, E_not_allowed)]).

(** [router] *)
Definition routes : list Route := pages ++ ((fun r => ("/api" +:+ r.1, r.2)) <$> api) ++ [mcp_route].

(** axum's matching: the parameters of a path, if it is the pattern's. A pattern
    without a parameter is that path itself; with the segments before the first
    parameter the path begins. *)
Class Routing : Type := {
  path_matches : string → string → option (list string);
  path_literal p path ps : has_byte "{"%char p = false → path_matches p path = Some ps → path = p;
  path_prefix pre rest path ps :
    has_byte "{"%char pre = false → path_matches (pre +:+ "/{" +:+ rest) path = Some ps → starts_with (pre +:+ "/") path = true;
}.

(** No path is two routes' ([routes_unambiguous]), so their order does not matter. *)
Fixpoint find_route `{Routing} (rs : list Route) (path : string) : option (list (Method * Endpoint) * list string) :=
  match rs with
  | [] => None
  | (p, ms) :: rs =>
      match path_matches p path with
      | Some params => Some (ms, params)
      | None => find_route rs path
      end
  end.

(** HEAD is answered like GET, without the body. *)
Definition answers_method (m m' : Method) : bool :=
  bool_decide (m = m') || (bool_decide (m = HEAD) && bool_decide (m' = GET)).
Definition endpoint `{Routing} (m : Method) (path : string) : result ApiError (Endpoint * list string) :=
  match find_route routes path with
  | None => Err (mkApiError NOT_FOUND EmptyString)
  | Some (ms, params) =>
      match List.find (fun me => answers_method m me.1) ms with
      | Some (_, e) => Ok (e, params)
      | None => Err (mkApiError 405 EmptyString)
      end
  end.

(** ** The state behind the handlers *)
Section Server.
Context `{X509Lib} `{!Crypto} `{!Transport.Stack} `{!Channels} `{!Browsing} `{!Serde} `{StoreEnv} `{UserEnv} `{EventJson}.
Context (escape_debug : string → string) (parse_uri : string → result string Uri) (ca_usable : option string → result string unit).
Context (json_extract : string → string → option string) (to_rfc3339 : Z → string).
Context (b64_decode : string → result string Blob) (no_token : NodeId).

(** [AppState]: the web sessions, and what [App] holds. *)
Record Gateway : Type := mkGateway { gx_web : WebSessions; gx_app : App }.
Definition set_app (a : App) (g : Gateway) : Gateway := mkGateway (gx_web g) a.

(** The users, the web sessions and the browser's sessions. *)
Definition gw_of (g : Gateway) : Gw := mkGw (a_users (gx_app g)) (gx_web g) (s_browser (a_site (gx_app g))).
Definition set_gw (w : Gw) (g : Gateway) : Gateway :=
  let a := gx_app g in let s := a_site a in
  mkGateway (g_web w)
    (mkApp (mkSite (s_manager s) (g_browser w) (s_settings s) (s_exporting s) (s_files s)) (a_pki a) (a_web_pki a) (a_relays a)
       (a_trust_changed a) (a_db a) (g_db w) (a_refused a)).

Abbreviation gateway := (prog Gateway).
Definition on_gw {A} (p : prog Gw A) : gateway A := zoom gw_of set_gw p.
Definition on_app {A} (p : prog App A) : gateway A := zoom gx_app set_app p.

(** ** Requests *)
Record HttpRequest : Type := mkHttpRequest {
  rh_method : Method;
  rh_path : string;
  rh_query : string;
  (** the Host header, or the authority of the URI *)
  rh_host : string;
  rh_csrf : option string;
  (** the session cookie *)
  rh_cookie : option string;
  rh_authorization : option string;
  rh_agent : option string;
  rh_forwarded : option string;
  rh_peer : option IpAddr;
  rh_body : Blob;
}.

(** axum's extractors and serde: what a path segment, a query and a body are
    read as, or the answer when they cannot be. *)
Class Extract : Type := {
  param : string → result ApiError string;
  param_index : string → result ApiError nat;
  query_audit : string → result ApiError AuditQuery;
  query_written : string → result ApiError MostWrittenQuery;
  query_check : string → result ApiError GroupCheck;
  query_node : string → result ApiError (option string);
  body_login : Blob → result ApiError (string * string);
  body_password : Blob → result ApiError (option string * string);
  body_new_token : Blob → result ApiError NewToken;
  body_target : Blob → result ApiError TargetConfig;
  body_thumbprint : Blob → result ApiError string;
  body_new_group : Blob → result ApiError NewGroup;
  body_group_name : Blob → result ApiError (option string);
  body_nodes : Blob → result ApiError (list NodeRef);
  body_node_ids : Blob → result ApiError (list string);
  body_url : Blob → result ApiError string;
  body_pair : Blob → result ApiError (string * string);
  body_severity : Blob → result ApiError Severity;
  body_audit : Blob → result ApiError AuditConfig;
  body_export : Blob → result ApiError (option QuestDbInput);
  body_hostnames : Blob → result ApiError (list string);
  body_enabled : Blob → result ApiError bool;
  body_new_user : Blob → result ApiError NewUser;
  body_user_update : Blob → result ApiError UserUpdate;
  body_connect : Blob → result ApiError (option string * option string);
  body_values : Blob → result ApiError (list string);
}.
Context `{!Routing} `{!Extract}.

(** What a request meets besides the answers of the programs' effects. *)
Record HttpMeets : Type := mkHttpMeets {
  (** the configuration at start, and the machine's names *)
  hm_web : WebConfig;
  hm_computer : list string;
  hm_faults : Faults;
  (** a salt, the time text of the users' table, a token's id and secret *)
  hm_salt : string;
  hm_now : string;
  hm_id : string;
  hm_secret : string;
  hm_cert : CertMeets;
  hm_settings : Meets;
  hm_browser : BrowserMeets;
  hm_status : StatusMeets;
  hm_anchors : list Anchor;
  (** the certificate the server presents since its start *)
  hm_shown : option Blob;
  hm_mcp : McpMeets;
  (** the configuration file's path, whether [OPCUA_GATEWAY_WEB_TLS] is set,
      and the error when a CA file cannot be read *)
  hm_path : string;
  hm_env : bool;
  hm_unreadable : string;
}.

(** The answer: the body, which serde makes of what a handler returns, is left out. *)
Inductive Reply : Type :=
| Refused (e : ApiError)
| Page
| Done
| SetCookie (c : Cookie)
| RemoveCookie
| McpReply (r : Response).

(** ** Dispatch *)
Definition reply_with {A} (f : A → Reply) (p : gateway (result ApiError A)) : gateway Reply :=
  r ← p; mret (match r with Ok a => f a | Err e => Refused e end).
Definition plain {A} (p : gateway (result ApiError A)) : gateway Reply := reply_with (fun _ => Done) p.
Definition read {A} (r : result ApiError A) (k : A → gateway Reply) : gateway Reply :=
  match r with Ok a => k a | Err e => mret (Refused e) end.

(** [settings::get] *)
Definition settings_get (x : HttpMeets) (u : AuthUser) : prog App (result ApiError (SettingsView CertificateInfo)) :=
  requires Auditor u
    (c ← on_site read_config; a ← get;
     mret (Ok (settings_view (hm_path x) (cm_hosts (hm_cert x)) (hm_env x)
                 ((fun cert => with_hostnames cert (certificate_hostnames (Config.gateway c))) <$> result_ok (read_own_cert (a_web_pki a)))
                 (hm_unreadable x) (s_files (a_site a)) (hm_web x) c))).

(** The trail as CSV; the pages are read one after the other. *)
Definition audit_csv (u : AuthUser) (q : AuditQuery) : prog App (result ApiError string) :=
  requires Auditor u
    (a ← get; try api_internal (Lines.audit_csv to_rfc3339 json_extract (a_db a) q) (fun t => mret (Ok t))).

(** The path's parameters. *)
Definition one (ps : list string) (k : string → gateway Reply) : gateway Reply :=
  match ps with [p] => read (param p) k | _ => mret (Refused (api_internal "path parameters")) end.
Definition two (ps : list string) (k : string → string → gateway Reply) : gateway Reply :=
  match ps with
  | [p; q] => read (param p) (fun p => read (param q) (k p))
  | _ => mret (Refused (api_internal "path parameters"))
  end.
Definition group_path (ps : list string) (q : string) (k : string → nat → GroupCheck → gateway Reply) : gateway Reply :=
  match ps with
  | [p; i] => read (param p) (fun p => read (param_index i) (fun i => read (query_check q) (k p i)))
  | _ => mret (Refused (api_internal "path parameters"))
  end.

(** The handlers without a user. *)
Definition open_handler (x : HttpMeets) (rq : HttpRequest) (e : Endpoint) : option (gateway Reply) :=
  let address := client_address (rh_peer rq) (rh_forwarded rq) (trusted_proxies (hm_web x)) in
  match e with
  | E_page => Some (mret Page)
  | E_health => Some (mret Done)
  | E_login =>
      Some (read (body_login (rh_body rq)) (fun b =>
        reply_with (fun r => SetCookie r.1) (on_gw (login (hm_faults x) (tls (hm_web x)) address b.1 b.2))))
  | E_logout => Some (_ ← on_gw (logout (rh_cookie rq)); mret RemoveCookie)
  | E_mcp =>
      Some (r ← on_app (Mcp.post escape_debug parse_uri ca_usable json_extract no_token (hm_mcp x)
                          (mkRequest (rh_authorization rq) (rh_agent rq) address (rh_body rq)));
            mret (McpReply r))
  | E_not_allowed => Some (mret (Refused (mkApiError 405 EmptyString)))
  | _ => None
  end.

(** The others, once their user is known. *)
Definition act (x : HttpMeets) (rq : HttpRequest) (ps : list string) (u : AuthUser) (e : Endpoint) : gateway Reply :=
  let fs := hm_faults x in let b := rh_body rq in let q := rh_query rq in
  let site {A} (p : prog Site A) : gateway A := on_app (on_site p) in
  let edit op := plain (site (serve_site escape_debug parse_uri ca_usable (hm_settings x) u op)) in
  let cert op := plain (on_app (serve_cert b64_decode no_token (hm_cert x) u op)) in
  match e with
  | E_page | E_health | E_login | E_logout | E_mcp | E_not_allowed => mret Done
  | E_me => mret Done
  | E_change_password =>
      read (body_password b) (fun p =>
        reply_with SetCookie (on_gw (change_password fs (tls (hm_web x)) (hm_salt x) u p.1 p.2)))
  | E_list_tokens => plain (on_gw (list_tokens fs u))
  | E_create_token => read (body_new_token b) (fun t => plain (on_gw (create_token fs (hm_id x) (hm_secret x) (hm_now x) u t)))
  | E_delete_token => one ps (fun id => plain (on_gw (delete_token fs u id)))
  | E_all_tokens => plain (on_gw (all_tokens fs u))
  | E_revoke_token => two ps (fun name id => plain (on_gw (revoke_token fs u name id)))
  | E_list_users => plain (on_gw (list_users fs u))
  | E_create_user => read (body_new_user b) (fun n => plain (on_gw (create_user fs (hm_salt x) (hm_now x) u n)))
  | E_update_user => one ps (fun name => read (body_user_update b) (fun r => plain (on_gw (update_user fs (hm_salt x) u name r))))
  | E_delete_user => one ps (fun name => plain (on_gw (delete_user fs u name)))
  | E_status => plain (on_app (status (hm_status x) u))
  | E_targets => plain (on_app (show_targets u))
  | E_target_clients => one ps (fun name => plain (on_app (target_clients u name)))
  | E_create_target => read (body_target b) (fun t => edit (OpCreateTarget t))
  | E_update_target => one ps (fun name => read (body_target b) (fun t => edit (OpUpdateTarget name t)))
  | E_delete_target => one ps (fun name => edit (OpDeleteTarget name))
  | E_create_group => one ps (fun name => read (body_new_group b) (fun g => edit (OpCreateGroup name g)))
  | E_rename_group => group_path ps q (fun name i c => read (body_group_name b) (fun n => edit (OpRenameGroup name i c n)))
  | E_delete_group => group_path ps q (fun name i c => edit (OpDeleteGroup name i c))
  | E_add_nodes => group_path ps q (fun name i c => read (body_nodes b) (fun l => edit (OpAddNodes name i c l)))
  | E_remove_nodes => group_path ps q (fun name i c => read (body_node_ids b) (fun l => edit (OpRemoveNodes name i c l)))
  | E_discover_target => one ps (fun name => plain (on_app (discover_target no_token (hm_cert x) u name)))
  | E_discover_url => read (body_url b) (fun url => plain (on_app (discover_url u url)))
  | E_trust_server => one ps (fun name => read (body_thumbprint b) (fun t => cert (OpTrustServer name t)))
  | E_certificates => plain (on_app (certificates u))
  | E_own_certificate pem => plain (on_app (own_certificate u pem))
  | E_web_certificate pem => plain (on_app (web_certificate (hm_shown x) u pem))
  | E_regenerate_web_certificate => cert OpRegenerateWeb
  | E_import_own => read (body_pair b) (fun p => cert (OpImportOwn p.1 p.2))
  | E_regenerate_own => cert OpRegenerateOwn
  | E_trust_rejected => one ps (fun t => cert (OpTrustRejected t))
  | E_delete_rejected => one ps (fun t => cert (OpDeleteRejected t))
  | E_untrust => one ps (fun t => cert (OpUntrust t))
  | E_audit_query => read (query_audit q) (fun q => plain (on_app (WebTrail.audit_query json_extract u q)))
  | E_audit_csv => read (query_audit q) (fun q => plain (on_app (audit_csv u q)))
  | E_audit_verify => plain (on_app (audit_verify (hm_anchors x) u))
  | E_audit_most_written => read (query_written q) (fun q => plain (on_app (audit_most_written u q)))
  | E_alarms => plain (on_app (WebTrail.alarms u))
  | E_acknowledge_alarms => read (body_severity b) (fun s => plain (on_app (acknowledge_alarms u s)))
  | E_settings => plain (on_app (settings_get x u))
  | E_put_audit => read (body_audit b) (fun a => edit (OpAudit a))
  | E_put_export => read (body_export b) (fun i => edit (OpExport i))
  | E_put_gateway => read (body_hostnames b) (fun l => edit (OpGateway l))
  | E_put_mcp => read (body_enabled b) (fun on => edit (OpMcp on))
  | E_connect => one ps (fun t => read (body_connect b) (fun c => plain (site (connect (hm_browser x) u t c.1 c.2))))
  | E_disconnect => one ps (fun t => plain (site (disconnect u t)))
  | E_browse => one ps (fun t => read (query_node q) (fun n => plain (site (browse (hm_browser x) u t n))))
  | E_attributes => one ps (fun t => read (query_node q) (fun n => plain (site (attributes (hm_browser x) u t n))))
  | E_values => one ps (fun t => read (body_values b) (fun l => plain (site (values (hm_browser x) u t l))))
  end.

Definition handle (x : HttpMeets) (rq : HttpRequest) (ps : list string) (e : Endpoint) : gateway Reply :=
  match open_handler x rq e with
  | Some p => p
  | None => u ← on_gw (WebAuth.authenticate (hm_faults x) (rh_cookie rq) (rh_path rq)); read u (fun u => act x rq ps u e)
  end.

(** The gateway's names, besides the configured ones. *)
Definition live_names (x : HttpMeets) : gateway (list string) :=
  if is_loopback (ip (listen (hm_web x))) then mret []
  else c ← on_app (on_site read_config); mret (certificate_hostnames (Config.gateway c)).

(** A request: [security_headers] around [csrf] around the routes. *)
Definition serve (x : HttpMeets) (rq : HttpRequest) : gateway Reply :=
  names ← live_names x;
  read (let_through (hm_web x) names (hm_computer x) (rh_host rq)) (fun _ =>
  read (csrf (rh_method rq) (rh_csrf rq) (rh_path rq)) (fun _ =>
  read (endpoint (rh_method rq) (rh_path rq)) (fun e => handle x rq e.2 e.1))).
End Server.

(** ** Every path has one handler *)

(** Matching by segments: a literal segment is itself, [{name}] any segment that
    is not empty, [{*name}] all that is left. *)
Inductive Segment : Type := Lit (s : string) | Hole | Rest.
#[export] Instance Segment_eq_dec : EqDecision Segment.
Proof. solve_decision. Defined.
Definition segment (s : string) : Segment :=
  if starts_with "{*" s then Rest else if starts_with "{" s then Hole else Lit s.
Definition pattern (path : string) : list Segment := segment <$> split "/"%char path.

Fixpoint path_params (p : list Segment) (path : list string) : option (list string) :=
  match p, path with
  | [], [] => Some []
  | [Rest], s :: rest => if String.eqb (join "/" (s :: rest)) EmptyString then None else Some []
  | Lit l :: p, s :: path => if String.eqb l s then path_params p path else None
  | Hole :: p, s :: path =>
      if String.eqb s EmptyString then None else params ← path_params p path; Some (s :: params)
  | _, _ => None
  end.

(** Two patterns that some path could match both. *)
Fixpoint may_overlap (p q : list Segment) : bool :=
  match p, q with
  | [], [] => true
  | [Rest], _ :: _ | _ :: _, [Rest] => true
  | Lit a :: p, Lit b :: q => String.eqb a b && may_overlap p q
  | Lit a :: p, Hole :: q | Hole :: p, Lit a :: q => negb (String.eqb a EmptyString) && may_overlap p q
  | Hole :: p, Hole :: q => may_overlap p q
  | _, _ => false
  end.

Lemma overlap_sound p q path a b :
  path_params p path = Some a → path_params q path = Some b → may_overlap p q = true.
Proof.
  revert q path a b. induction p as [|x p IH]; intros [|y q] [|s path] a b;
    try (first [done|by destruct x, p|by destruct y, q|by destruct x, p, y, q]).
  destruct x as [l| |], y as [l'| |]; simpl.
  - destruct (String.eqb_spec l s) as [->|], (String.eqb_spec l' s) as [->|]; try done. rewrite String.eqb_refl. apply IH.
  - destruct (String.eqb_spec l s) as [->|], (String.eqb_spec s EmptyString); try done. intros Hp [b' [Hq _]]%bind_Some. by eapply IH.
  - by destruct q, p as [|[] ].
  - destruct (String.eqb_spec l' s) as [->|], (String.eqb_spec s EmptyString); try done. intros [a' [Hp _]]%bind_Some Hq. by eapply IH.
  - destruct (String.eqb_spec s EmptyString); try done. intros [a' [Hp _]]%bind_Some [b' [Hq _]]%bind_Some. by eapply IH.
  - by destruct q, p as [|[] ].
  - by destruct p, q as [|[] ].
  - by destruct p, q as [|[] ].
  - by destruct p, q.
Qed.

(** The matcher by segments is one. *)

Lemma segment_literal x : has_byte "{"%char x = false → segment x = Lit x.
Proof.
  destruct x as [|a x]; [done|]. cbn [has_byte]. intros [Ha _]%orb_false_iff. unfold segment, starts_with. cbn [strip_prefix].
  destruct (Ascii.eqb_spec "{" a) as [<-|_]; done.
Qed.
Lemma pattern_literal p : has_byte "{"%char p = false → pattern p = Lit <$> split "/"%char p.
Proof.
  intros Hp. unfold pattern. assert (Hf : Forall (fun x => has_byte "{"%char x = false) (split "/"%char p)).
  { apply Forall_forall. intros x. by apply split_pieces. }
  induction Hf as [|x l Hx _ IH]; [done|]. rewrite !fmap_cons, IH. by rewrite segment_literal.
Qed.
Lemma params_literal l q path ps : path_params ((Lit <$> l) ++ q) path = Some ps → ∃ rest, path = l ++ rest ∧ path_params q rest = Some ps.
Proof.
  revert path. induction l as [|x l IH]; intros path; [by exists path|]. rewrite fmap_cons. simpl.
  destruct path as [|y path]; [done|]. destruct (String.eqb_spec x y) as [->|]; [|done]. intros (rest & -> & Hr)%IH. by exists rest.
Qed.

Definition by_segments (p path : string) : option (list string) := path_params (pattern p) (split "/"%char path).
Lemma segments_literal p path ps : has_byte "{"%char p = false → by_segments p path = Some ps → path = p.
Proof.
  intros Hp. unfold by_segments. rewrite pattern_literal, <- (app_nil_r (Lit <$> _)) by done.
  intros (rest & Hs & Hr)%params_literal. destruct rest; [|done]. rewrite app_nil_r in Hs.
  by rewrite <- (join_split "/"%char path), Hs, join_split.
Qed.
Lemma segments_prefix pre rest path ps :
  has_byte "{"%char pre = false → by_segments (pre +:+ "/{" +:+ rest) path = Some ps → starts_with (pre +:+ "/") path = true.
Proof.
  intros Hp. unfold by_segments, pattern. change (pre +:+ "/{" +:+ rest) with (pre +:+ String "/" (String "{" rest)).
  rewrite split_app, fmap_app. fold (pattern pre). rewrite pattern_literal by done. intros (tl & Hs & Hr)%params_literal.
  assert (Htl : tl ≠ []). { intros ->. pose proof (split_not_nil "/"%char (String "{" rest)) as Hn. destruct (split _ (String "{" rest)); [done|].
    simpl in Hr. by repeat case_match. }
  rewrite <- (join_split "/"%char path), Hs, join_app, join_split by (done || apply split_not_nil).
  generalize (join (String "/" EmptyString) tl). intros t. replace (pre +:+ String "/" t) with ((pre +:+ "/") +:+ t)
    by apply (eq_sym (string_app_assoc' pre "/" t)).
  unfold starts_with. apply bool_decide_eq_true. eexists. apply strip_prefix_app.
Qed.

(** No path matches two routes: their order does not matter. *)
Fixpoint pairwise {A} (P : A → A → bool) (l : list A) : bool :=
  match l with [] => true | x :: l => forallb (P x) l && pairwise P l end.
Lemma pairwise_sound {A} (P : A → A → bool) l i j x y :
  pairwise P l = true → (i < j)%nat → l !! i = Some x → l !! j = Some y → P x y = true.
Proof.
  revert i j. induction l as [|z l IH]; intros i j; [done|]. simpl. rewrite andb_true_iff. intros [Hz Hl] Hij Hi Hj.
  destruct j as [|j]; [lia|]. destruct i as [|i]; [|apply (IH i j); by auto with lia].
  injection Hi as ->. rewrite forallb_forall in Hz. by apply Hz, list_elem_of_In, (list_elem_of_lookup_2 _ j).
Qed.

Lemma routes_unambiguous i j r r' path ps ps' :
  routes !! i = Some r → routes !! j = Some r' →
  by_segments r.1 path = Some ps → by_segments r'.1 path = Some ps' → i = j.
Proof.
  intros Hi Hj Hr Hr'. destruct (Nat.lt_trichotomy i j) as [Hij|[->|Hij]]; [|done|]; exfalso;
    pose proof (pairwise_sound (fun r r' => negb (may_overlap (pattern r.1) (pattern r'.1))) routes _ _ _ _
      ltac:(vm_compute; reflexivity) Hij ltac:(eassumption) ltac:(eassumption)) as Hno; simpl in Hno;
    [rewrite (overlap_sound _ _ _ _ _ Hr Hr') in Hno|rewrite (overlap_sound _ _ _ _ _ Hr' Hr) in Hno]; done.
Qed.
