(* ===== verification/Access.v ===== *)
(** Access to the web server ([Router]): the roles of the manual
    ([docs/manual/users.md]), and that a request changes, and is answered, no
    more than they allow, whatever it is and wherever it is cut off.

    What the theorems need of a handler is stated once, as an interface: a
    handler only does steps within a relation ([stays]), or it begins with the
    check of a role ([WebUsers.requires]). *)

From S2P Require Import Prelude Net Event Opc Task Steps Sessions Relay Transport Connection Store Query Export Lines Users Config Pipeline Endpoints Browser WebAuth WebUsers Discovery ConfigFile Targets WebTargets WebSettings WebEdits Pki WebCerts WebBrowser WebTrail Mcp Router Within.

(** ** Who may use them *)
Inductive Needs : Type :=
| Anyone
| SignedIn
| AtLeast (r : Role)
(** an API token *)
| Token.

(** The roles of the manual ([docs/manual/users.md]): auditors read, operators
    also discover targets, use the browser and acknowledge alarms, admins change
    the configuration, certificates and users. *)
Definition needs (e : Endpoint) : Needs :=
  match e with
  | E_page | E_health | E_login | E_logout | E_not_allowed => Anyone
  | E_me | E_change_password | E_list_tokens | E_create_token | E_delete_token => SignedIn
  | E_status | E_targets | E_target_clients | E_certificates | E_own_certificate _ | E_web_certificate _ | E_audit_query
  | E_audit_csv | E_audit_verify | E_audit_most_written | E_alarms | E_settings => AtLeast Auditor
  | E_discover_target | E_acknowledge_alarms | E_connect | E_disconnect | E_browse | E_attributes | E_values => AtLeast Operator
  | E_mcp => Token
  | _ => AtLeast Admin
  end.

#[export] Instance Role_needs_eq_dec : EqDecision Needs.
Proof. solve_decision. Defined.

(** What a handler may change: nothing of the configuration, the certificates
    and the users; its own user only; or anything. *)
Inductive Power : Type := Reads | Own | Changes.
#[export] Instance Power_eq_dec : EqDecision Power.
Proof. solve_decision. Defined.
Definition power (e : Endpoint) : Power :=
  match needs e with
  | AtLeast Admin => match e with E_all_tokens | E_list_users | E_discover_url => Reads | _ => Changes end
  | SignedIn => match e with E_change_password | E_create_token | E_delete_token => Own | _ => Reads end
  | Token => Changes
  | _ => Reads
  end.

(** ** What the handlers keep *)
Section Keeps.
Context `{X509Lib} `{!Crypto} `{!Transport.Stack} `{!Channels} `{!Browsing} `{!Serde} `{StoreEnv} `{UserEnv} `{EventJson}.

(** The configuration, the targets that run, those whose status is kept, and the file. *)
Definition Managed : Type := Config * gmap string Running * gset string * result string ConfigFile.toml.
Definition managed (m : Manager) : Managed := (Targets.config m, running m, dom (statuses m), Targets.file m).
Definition same_config (b a : Site) : Prop := managed (s_manager a) = managed (s_manager b).

Lemma stays_keep_session u name login id : stays same_config (keep_session u name login id).
Proof. unfold keep_session, on_browser, close_one. stay; done. Qed.
Lemma stays_known t : stays same_config (known_endpoints t).
Proof. unfold known_endpoints, on_manager. stay; done. Qed.
Lemma stays_dates x e : stays same_config (check_dates x e).
Proof. unfold check_dates. stay. Qed.
Hint Resolve stays_keep_session stays_known stays_dates : stays.
Lemma stays_connect x u t n p : stays same_config (connect x u t n p).
Proof. unfold connect, on_manager, on_browser, close_one. stay; done. Qed.
Lemma stays_disconnect u t : stays same_config (disconnect u t).
Proof. unfold disconnect, on_browser, close_one. stay; done. Qed.
Lemma stays_session x u t : stays same_config (session x u t).
Proof. unfold session, on_browser. stay; done. Qed.
Hint Resolve stays_session : stays.
Lemma stays_browse x u t n : stays same_config (browse x u t n).
Proof. unfold browse. stay. Qed.
Lemma stays_attributes x u t n : stays same_config (attributes x u t n).
Proof. unfold attributes. stay. Qed.
Lemma stays_values x u t l : stays same_config (values x u t l).
Proof. unfold values. stay. Qed.

(** The configuration with its targets, the certificates and the users. *)
Definition governed (a : App) : Managed * PkiDir * PkiDir := (managed (s_manager (a_site a)), a_pki a, a_web_pki a).
Definition same_app (b a : App) : Prop := governed a = governed b ∧ a_users a = a_users b.

Lemma stays_on_site {A} (p : prog Site A) : stays same_config p → stays same_app (on_site p).
Proof. apply stays_zoom. intros a s Hs. unfold same_app, governed. simpl. by rewrite Hs. Qed.
Lemma stays_read_config : stays same_app (on_site read_config).
Proof. apply stays_on_site. unfold read_config, on_manager. by apply stays_atomic. Qed.
Lemma stays_app_get : stays same_app get.
Proof. by apply stays_get. Qed.
Hint Resolve stays_read_config stays_app_get : stays.

Lemma stays_view_targets st l : stays same_app (view_targets st l).
Proof. induction l as [|t l IH]; cbn [view_targets]; [apply stays_ret|]. apply stays_bind; [apply stays_app_get|intros a]. apply stays_bind; [done|]. intros. apply stays_ret. Qed.
Lemma stays_target_views : stays same_app target_views.
Proof.
  unfold target_views. apply stays_bind; [apply stays_on_site; unfold on_manager; by apply stays_atomic|intros st].
  pose proof (stays_view_targets st). stay.
Qed.
Hint Resolve stays_target_views : stays.
Lemma stays_status x u : stays same_app (status x u).
Proof. unfold status. stay. Qed.
Lemma stays_show_targets u : stays same_app (show_targets u).
Proof. unfold show_targets. stay. Qed.
Lemma stays_target_clients u n : stays same_app (target_clients u n).
Proof. unfold target_clients. stay. Qed.
Lemma stays_certificates u : stays same_app (certificates u).
Proof. unfold certificates. stay. Qed.
Lemma stays_own_certificate u pem : stays same_app (own_certificate u pem).
Proof.
  unfold own_certificate, own_certificate_der, on_pki. apply stays_requires, stays_bind; [|intros; stay].
  apply (stays_zoom _ _ (fun b a => a = b)); [intros a d ->; by destruct a|]. stay; done.
Qed.
Lemma stays_web_certificate shown u pem : stays same_app (web_certificate shown u pem).
Proof. unfold web_certificate. stay. Qed.

Section Trail.
Context (json_extract : string → string → option string) (to_rfc3339 : Z → string).
Lemma stays_audit_query u q : stays same_app (WebTrail.audit_query json_extract u q).
Proof. unfold WebTrail.audit_query. stay. Qed.
Lemma stays_audit_csv u q : stays same_app (audit_csv json_extract to_rfc3339 u q).
Proof. unfold audit_csv. stay. Qed.
Lemma stays_audit_verify l u : stays same_app (audit_verify l u).
Proof. unfold audit_verify. stay. Qed.
Lemma stays_most_written u q : stays same_app (audit_most_written u q).
Proof. unfold audit_most_written. stay. Qed.
Lemma stays_alarms u : stays same_app (WebTrail.alarms u).
Proof. unfold WebTrail.alarms. stay. Qed.
Lemma stays_acknowledge u s : stays same_app (acknowledge_alarms u s).
Proof. unfold acknowledge_alarms. stay. Qed.
End Trail.

Section Discovering.
Context (no_token : NodeId).
Lemma stays_record_events t l : stays same_app (record_events t l).
Proof. induction l as [|e l IH]; cbn [record_events]; [apply stays_ret|]. apply stays_bind; [apply stays_audit|done]. Qed.
Lemma stays_check_relay x n : stays same_app (check_relay no_token x n).
Proof.
  unfold check_relay, on_relay. apply stays_bind; [apply stays_app_get|]. intros a. case_match; [|apply stays_ret].
  apply (stays_zoom _ _ (fun _ _ => True)); [done|]. by apply stays_anything.
Qed.
Hint Resolve stays_record_events stays_check_relay : stays.
Lemma apply_discovery_dom t now found m : dom (apply_discovery t now found m).2 = dom m.
Proof.
  unfold apply_discovery. destruct (m !! t_name t) as [st|] eqn:Hm; [|done]. destruct (discovered t now found st). simpl.
  rewrite dom_insert_L. apply (elem_of_dom_2 (D:=gset string)) in Hm. set_solver.
Qed.
Lemma stays_apply_discovered t found : stays same_app (apply_discovered t found).
Proof.
  unfold apply_discovered. apply stays_bind; [apply stays_clock|intros now]. apply stays_bind; [|stay].
  apply stays_on_site. unfold on_manager. apply stays_atomic. intros s. unfold same_config, managed. simpl. by rewrite apply_discovery_dom.
Qed.
Hint Resolve stays_apply_discovered : stays.
Lemma stays_target_url n : stays same_app (target_url n).
Proof. unfold target_url. stay. Qed.
Lemma stays_discover_raw : stays same_app discover_raw.
Proof. apply stays_discover. intros. apply stays_ret. Qed.
Hint Resolve stays_target_url stays_discover_raw : stays.
Lemma stays_discover_target x u n : stays same_app (discover_target no_token x u n).
Proof.
  unfold discover_target. apply stays_requires, stays_bind; [stay|intros]. apply stays_try. intros.
  apply stays_bind; [stay|intros]. apply stays_bind; [apply stays_on_site; unfold on_manager; by apply stays_atomic|stay].
Qed.
Lemma stays_discover_url u url : stays same_app (discover_url u url).
Proof. unfold discover_url. stay. Qed.
End Discovering.

(** The users. *)
Definition same_users (b a : Gw) : Prop := g_db a = g_db b.
Lemma stays_users_read {A} (f : UserDb → A) : stays same_users (users_read f).
Proof. unfold users_read. by apply stays_atomic. Qed.
Lemma stays_web_map {A} (f : gmap string WebSession → A * gmap string WebSession) : stays same_users (web_map f).
Proof. unfold web_map. by apply stays_atomic. Qed.
Hint Resolve stays_users_read stays_web_map : stays.
Lemma stays_authenticate fs c p : stays same_users (WebAuth.authenticate fs c p).
Proof. unfold WebAuth.authenticate, get_session, remove_session. stay. Qed.
Lemma stays_create_session fs n e : stays same_users (create_session fs n e).
Proof. unfold create_session. stay. Qed.
Hint Resolve stays_create_session : stays.
Lemma stays_start_session fs t n log : stays same_users log → stays same_users (start_session fs t n log).
Proof. intros Hl. unfold start_session. stay. Qed.
Lemma stays_login fs t a n p : stays same_users (login fs t a n p).
Proof.
  unfold login, blocked_address, blocked_user, login_failed, failed, succeeded. pose proof stays_start_session. stay; done.
Qed.
Lemma stays_logout c : stays same_users (logout c).
Proof. unfold logout, remove_session. stay. Qed.
Lemma stays_list_users fs u : stays same_users (list_users fs u).
Proof. unfold list_users. stay. Qed.
Lemma stays_all_tokens fs u : stays same_users (all_tokens fs u).
Proof. unfold all_tokens. stay. Qed.
Lemma stays_list_tokens fs u : stays same_users (list_tokens fs u).
Proof. unfold list_tokens. stay. Qed.

(** Of the users only one, as long as tokens have ids of their own. *)
Definition one_user (name : string) (b a : Gw) : Prop := unique_ids (g_db b) → only_user name (g_db b) (g_db a).
Lemma same_one name b a : same_users b a → one_user name b a.
Proof. intros Hs _. rewrite Hs. apply only_user_refl. Qed.
Lemma stays_one {A} name (p : prog Gw A) : stays same_users p → stays (one_user name) p.
Proof. apply stays_mono, same_one. Qed.
Lemma stays_change {A} name (f : UserDb → A * UserDb) :
  (∀ db, unique_ids db → only_user name db (f db).2) → stays (one_user name) (users_change f).
Proof. intros Hf. unfold users_change. apply stays_atomic. intros s Hu. by apply Hf. Qed.

Lemma stays_change_password fs t salt u c n : stays (one_user (au_username u)) (change_password fs t salt u c n).
Proof.
  unfold change_password. apply stays_bind; [apply stays_one; stay|intros [[h epoch]|e]; [|apply stays_ret]].
  apply stays_bind; [apply stays_change; intros; apply own_password_only|intros [|]; [|apply stays_ret]].
  apply stays_one. unfold remove_sessions_of, close_browser. pose proof stays_start_session. stay; done.
Qed.
Lemma stays_create_token fs id r now u req : stays (one_user (au_username u)) (WebUsers.create_token fs id r now u req).
Proof.
  unfold WebUsers.create_token. case_match; [|apply stays_ret].
  apply stays_bind; [apply stays_change; intros; apply create_token_only|]. intros. stay.
Qed.
Lemma stays_delete_token fs u id : stays (one_user (au_username u)) (WebUsers.delete_token fs u id).
Proof.
  unfold WebUsers.delete_token. apply stays_bind; [apply stays_change; intros; by apply delete_token_only|]. intros. stay.
Qed.
End Keeps.

(** ** Who may change what *)
Section Access.
Context `{X509Lib} `{!Crypto} `{!Transport.Stack} `{!Channels} `{!Browsing} `{!Serde} `{StoreEnv} `{UserEnv} `{EventJson}.
Context (escape_debug : string → string) (parse_uri : string → result string Uri) (ca_usable : option string → result string unit).
Context (json_extract : string → string → option string) (to_rfc3339 : Z → string).
Context (b64_decode : string → result string Blob) (no_token : NodeId) `{!Routing} `{!Extract}.
Abbreviation act := (act escape_debug parse_uri ca_usable json_extract to_rfc3339 b64_decode no_token).
Abbreviation handle := (handle escape_debug parse_uri ca_usable json_extract to_rfc3339 b64_decode no_token).
Abbreviation serve := (serve escape_debug parse_uri ca_usable json_extract to_rfc3339 b64_decode no_token).
Abbreviation open_handler := (open_handler escape_debug parse_uri ca_usable json_extract no_token).

(** *** Parts of the state *)
Definition same_gateway (b a : Gateway) : Prop := same_app (gx_app b) (gx_app a).
Definition own_gateway (name : string) (b a : Gateway) : Prop :=
  governed (gx_app a) = governed (gx_app b) ∧
  (unique_ids (a_users (gx_app b)) → only_user name (a_users (gx_app b)) (a_users (gx_app a))).

Lemma stays_on_gw {A} (p : prog Gw A) : stays same_users p → stays same_gateway (on_gw p).
Proof. apply stays_zoom. intros g w Hw. by split. Qed.
Lemma stays_on_gw_own {A} name (p : prog Gw A) : stays (one_user name) p → stays (own_gateway name) (on_gw p).
Proof. apply stays_zoom. intros g w Hw. by split. Qed.
Lemma stays_on_app {A} (p : prog App A) : stays same_app p → stays same_gateway (on_app p).
Proof. by apply stays_zoom. Qed.
Lemma stays_on_app_site {A} (p : prog Site A) : stays same_config p → stays same_gateway (on_app (on_site p)).
Proof. intros Hp. by apply stays_on_app, stays_on_site. Qed.

Lemma stays_reply {A} R (f : A → Reply) p : stays R p → stays R (reply_with f p).
Proof. intros Hp. apply stays_bind; [done|]. intros. apply stays_ret. Qed.
Lemma stays_read {A} R (r : result ApiError A) k : (∀ a, stays R (k a)) → stays R (read r k).
Proof. intros Hk. destruct r; [apply Hk|apply stays_ret]. Qed.
Lemma stays_one_param R ps k : (∀ p, stays R (k p)) → stays R (one ps k).
Proof. intros Hk. destruct ps as [|p [|]]; try apply stays_ret. by apply stays_read. Qed.

(** *** Handlers by their power *)
Hint Resolve stays_status stays_show_targets stays_target_clients stays_certificates stays_own_certificate stays_web_certificate
  stays_audit_query stays_audit_csv stays_audit_verify stays_most_written stays_alarms stays_acknowledge stays_discover_target
  stays_discover_url stays_connect stays_disconnect stays_browse stays_attributes stays_values stays_list_users stays_all_tokens
  stays_list_tokens stays_login stays_logout stays_authenticate stays_change_password stays_create_token stays_delete_token : stays.
Hint Resolve stays_on_gw stays_on_gw_own stays_on_app stays_on_app_site : stays.

Lemma stays_settings_get x u : stays same_app (settings_get x u).
Proof.
  unfold settings_get. apply stays_requires, stays_bind; [apply stays_read_config|intros].
  apply stays_bind; [apply stays_app_get|intros; apply stays_ret].
Qed.
Hint Resolve stays_settings_get : stays.

Lemma act_reads x rq ps u e : power e = Reads → stays same_gateway (act x rq ps u e).
Proof.
  destruct e; try discriminate; intros _; cbn [Router.act]; unfold plain;
    repeat first [apply stays_ret|apply stays_read; intros|apply stays_one_param; intros|apply stays_reply]; eauto with stays.
Qed.
Lemma act_own x rq ps u e : power e = Own → stays (own_gateway (au_username u)) (act x rq ps u e).
Proof.
  destruct e; try discriminate; intros _; cbn [Router.act]; unfold plain;
    repeat first [apply stays_ret|apply stays_read; intros|apply stays_one_param; intros|apply stays_reply]; eauto with stays.
Qed.

(** A handler that needs a role its user does not have refuses, and does
    nothing else. *)
Lemma act_refused x rq ps u e r :
  needs e = AtLeast r → ¬ role_rank r ≤ role_rank (au_role u) → ∃ err, act x rq ps u e = mret (Refused err).
Proof.
  intros Hn Hr. assert (Hreq : ∃ err, require r u = Err err) by (unfold require; apply Z.leb_nle in Hr; rewrite Hr; eauto).
  destruct Hreq as [err Hreq].
  assert (Hreads : ∀ {A} (q : result ApiError A) k, (∀ a, ∃ err, k a = (mret (Refused err) : prog Gateway Reply)) → ∃ err, read q k = mret (Refused err)).
  { intros A [a|e'] k Hk; [apply Hk|by exists e']. }
  destruct e; try discriminate; injection Hn as <-; cbn [Router.act]; unfold plain, one, two, group_path;
    try (destruct ps as [|p [|i [|]]]; try (eexists; reflexivity)); repeat (apply Hreads; intros ?); exists err;
    unfold status, show_targets, target_clients, certificates, own_certificate, web_certificate, WebTrail.audit_query,
      Router.audit_csv, audit_verify, audit_most_written, WebTrail.alarms, acknowledge_alarms, settings_get, discover_target,
      discover_url, connect, disconnect, browse, attributes, values, session, list_users, WebUsers.all_tokens, WebUsers.revoke_token,
      WebUsers.create_user, WebUsers.update_user, WebUsers.delete_user,
      serve_site, WebTargets.create_target, WebTargets.update_target, WebTargets.delete_target, create_group, rename_group,
      delete_group, add_nodes, remove_nodes, change_groups, put_audit, put_export, put_gateway, put_mcp, serve_cert, trust_server, trust_rejected,
      delete_rejected, untrust, WebCerts.import_own, WebCerts.regenerate_own, regenerate_web_certificate, requires;
    rewrite Hreq; reflexivity.
Qed.

(** *** The routes *)
Lemma find_route_in rs path ms ps :
  find_route rs path = Some (ms, ps) → ∃ p, (p, ms) ∈ rs ∧ path_matches p path = Some ps.
Proof.
  induction rs as [|[p ms'] rs IH]; simpl; [done|]. destruct (path_matches p path) as [ps'|] eqn:Hp.
  - intros [= -> ->]. exists p. split; [by left|done].
  - intros Hf. destruct (IH Hf) as (p' & Hin & Hp'). exists p'. split; [by right|done].
Qed.

(** What holds of every route holds of the one a request takes. *)
Definition table_ok (P : string → Method → Endpoint → bool) : bool :=
  forallb (fun r => forallb (fun me => P r.1 me.1 me.2) r.2) routes.
Lemma endpoint_table P m path e ps :
  table_ok P = true → endpoint m path = Ok (e, ps) →
  ∃ p m', path_matches p path = Some ps ∧ answers_method m m' = true ∧ P p m' e = true.
Proof.
  unfold endpoint. destruct (find_route _ _) as [[ms ps']|] eqn:Hf; [|done]. intros Ht He.
  apply find_route_in in Hf as (p & Hin & Hp). destruct (List.find _ ms) as [[m' e']|] eqn:Hm; [|done].
  injection He as <- <-. apply find_some in Hm as [Hm Ha]. exists p, m'. split; [done|]. split; [done|].
  unfold table_ok in Ht. rewrite forallb_forall in Ht. apply list_elem_of_In, Ht in Hin. simpl in Hin.
  rewrite forallb_forall in Hin. by apply Hin in Hm.
Qed.

(** Whether the pattern could be the path's. *)
Definition may_match (p path : string) : bool :=
  match split_at_first "/{" p with
  | Some (pre, _) => has_byte "{"%char pre || starts_with (pre +:+ "/") path
  | None => has_byte "{"%char p || String.eqb path p
  end.
Lemma split_at_first_eq pat s a b : split_at_first pat s = Some (a, b) → s = a +:+ pat +:+ b.
Proof.
  revert a. induction s as [|c s IH]; intros a; simpl.
  - destruct (strip_prefix pat EmptyString) as [r|] eqn:Hs; [|done]. intros [= <- <-]. exact (strip_prefix_eq _ _ _ Hs).
  - destruct (strip_prefix pat (String c s)) as [r|] eqn:Hs; [intros [= <- <-]; exact (strip_prefix_eq _ _ _ Hs)|].
    destruct (split_at_first pat s) as [[x y]|]; [|done]. intros [= <- <-]. simpl. by rewrite <- (IH x).
Qed.
Lemma may_match_sound p path ps : path_matches p path = Some ps → may_match p path = true.
Proof.
  unfold may_match. destruct (split_at_first "/{" p) as [[pre rest]|] eqn:Hs; intros Hm.
  - apply split_at_first_eq in Hs as ->. destruct (has_byte "{" pre) eqn:Hb; [done|]. by eapply path_prefix.
  - destruct (has_byte "{" p) eqn:Hb; [done|]. rewrite (path_literal p path ps) by done. apply String.eqb_refl.
Qed.

(** Nothing changes for a method that a page of another site could use without
    the browser asking first. *)
Lemma safe_reads m path e ps : endpoint m path = Ok (e, ps) → safe_method m = true → power e = Reads.
Proof.
  intros He Hm. destruct (endpoint_table (fun _ m e => negb (safe_method m) || bool_decide (power e = Reads)) m path e ps)
    as (_ & m' & _ & Ha & Hp); [vm_compute; reflexivity|done|].
  apply orb_true_iff in Hp as [Hp|Hp]; [|by apply bool_decide_eq_true in Hp]. exfalso. unfold answers_method in Ha.
  apply orb_true_iff in Ha as [Ha|Ha]; [apply bool_decide_eq_true in Ha as ->; by rewrite Hm in Hp|].
  apply andb_true_iff in Ha as [_ Ha]. apply bool_decide_eq_true in Ha as ->. done.
Qed.
Lemma mcp_endpoint m e ps : endpoint m "/mcp" = Ok (e, ps) → e = E_mcp ∨ power e = Reads.
Proof.
  intros He. destruct (endpoint_table (fun p _ e => negb (may_match p "/mcp") || bool_decide (e = E_mcp ∨ power e = Reads)) m "/mcp" e ps)
    as (p & _ & Hp & _ & Hok); [vm_compute; reflexivity|done|].
  rewrite (may_match_sound p "/mcp" ps Hp) in Hok. by apply bool_decide_eq_true in Hok.
Qed.

(** *** A request *)
(** The first steps of the request let it in as this user: [cookie_worth] says
    what that is worth. *)
Definition signed_in (x : HttpMeets) (rq : HttpRequest) (u : AuthUser) (ls : list (label Gateway)) : Prop :=
  runs (WebAuth.authenticate (hm_faults x) (rh_cookie rq) (rh_path rq)) (part gw_of <$> ls) (Ret (Ok u)).
Definition token_user (x : HttpMeets) (rq : HttpRequest) (u : TokenUser) (ls : list (label Gateway)) : Prop :=
  runs (Mcp.authenticate (hm_mcp x)
          (mkRequest (rh_authorization rq) (rh_agent rq) (client_address (rh_peer rq) (rh_forwarded rq) (trusted_proxies (hm_web x))) (rh_body rq)))
    (part gx_app <$> ls) (Ret (Some u)).
(** The browser sends this only for the gateway's own pages. *)
Definition marked (rq : HttpRequest) : Prop := safe_method (rh_method rq) = false ∧ rh_csrf rq = Some CSRF_VALUE.
(** The name the request was sent to is one of the gateway's. *)
Definition known_host (x : HttpMeets) (rq : HttpRequest) (ls : list (label Gateway)) : Prop :=
  ∃ names, let_through (hm_web x) names (hm_computer x) (rh_host rq) = Ok () ∧
    (names = [] ∨ ∃ g, g ∈ seen ls ∧ names = certificate_hostnames (Config.gateway (Targets.config (s_manager (a_site (gx_app g)))))).

Lemma runs_ret_any {S A} (a : A) (ls : list (label S)) q : runs (mret a) ls q → ls = [] ∧ q = mret a.
Proof. inversion 1 as [|? ? ? ? ? Hd]; subst; [done|inversion Hd]. Qed.
Lemma runs_read_any {A} (r : result ApiError A) (k : A → prog Gateway Reply) ls q :
  runs (read r k) ls q → (∃ e, r = Err e ∧ ls = [] ∧ q = mret (Refused e)) ∨ ∃ a, r = Ok a ∧ runs (k a) ls q.
Proof. destruct r as [a|e]; simpl; [right; eauto|left]. exists e. split; [done|by apply runs_ret_any]. Qed.

Lemma same_gateway_refl g : same_gateway g g.
Proof. done. Qed.
Lemma stays_live_names x : stays same_gateway (live_names x).
Proof.
  unfold live_names. case_match; [apply stays_ret|]. apply stays_bind; [apply stays_on_app, stays_read_config|intros; apply stays_ret].
Qed.
Lemma runs_live_names x ls names : runs (live_names x) ls (Ret names) →
  names = [] ∨ ∃ g, g ∈ seen ls ∧ names = certificate_hostnames (Config.gateway (Targets.config (s_manager (a_site (gx_app g))))).
Proof.
  unfold live_names. case_match; intros Hr; [apply runs_ret in Hr as [<- _]; by left|right].
  apply runs_bind in Hr as (l1 & l2 & c & -> & Hc & [<- ->]%runs_ret).
  inversion Hc as [|p l p' ls' p'' Hd Hrest]; simplify_eq. inversion Hd; subst. simpl in Hrest.
  apply runs_ret in Hrest as [<- ->]. eexists. split; [by left|done].
Qed.

(** The way to a handler. *)
Lemma runs_serve x rq ls q :
  runs (serve x rq) ls q →
  Forall (within same_gateway) ls ∧ (∀ r, q = mret r → ∃ e, r = Refused e) ∨
  ∃ l0 l1 e ps, ls = l0 ++ l1 ∧ Forall (within same_gateway) l0 ∧ known_host x rq l0 ∧
    csrf (rh_method rq) (rh_csrf rq) (rh_path rq) = Ok () ∧ endpoint (rh_method rq) (rh_path rq) = Ok (e, ps) ∧
    runs (handle x rq ps e) l1 q.
Proof.
  intros Hr. apply runs_bind_any in Hr as [(p & Hr & Hq)|(l0 & l1 & names & -> & Hn & Hr)].
  { left. split; [by apply (spec_sound _ _ _ _ _ (stays_live_names x) Hr)|]. intros r ->. by destruct (Hq r). }
  assert (Hf : Forall (within same_gateway) l0) by apply (spec_sound _ _ _ _ _ (stays_live_names x) Hn).
  assert (Hrefused : ∀ e, l1 = [] → q = mret (Refused e) → Forall (within same_gateway) (l0 ++ l1) ∧ (∀ r, q = mret r → ∃ e, r = Refused e)).
  { intros e -> ->. rewrite app_nil_r. split; [done|]. intros r [= <-]. eauto. }
  apply runs_read_any in Hr as [(e & _ & ? & ?)|([] & Hhost & Hr)]; [left; eauto|].
  apply runs_read_any in Hr as [(e & _ & ? & ?)|([] & Hcsrf & Hr)]; [left; eauto|].
  apply runs_read_any in Hr as [(e & _ & ? & ?)|([e ps] & He & Hr)]; [left; eauto|].
  right. exists l0, l1, e, ps. split_and!; try done. exists names. split; [done|]. by apply runs_live_names in Hn.
Qed.

(** The way to a handler with a user. *)
Lemma runs_handler x rq ps e ls q :
  open_handler x rq e = None → runs (handle x rq ps e) ls q →
  Forall (within same_gateway) ls ∧ (∀ r, q = mret r → ∃ e, r = Refused e) ∨
  ∃ u l1 l2, ls = l1 ++ l2 ∧ Forall (within same_gateway) l1 ∧ signed_in x rq u l1 ∧ runs (act x rq ps u e) l2 q.
Proof.
  intros Ho. unfold Router.handle. rewrite Ho. intros Hr.
  pose proof (stays_on_gw _ (stays_authenticate (hm_faults x) (rh_cookie rq) (rh_path rq))) as Hs.
  apply runs_bind_any in Hr as [(p & Hr & Hq)|(l1 & l2 & r & -> & Ha & Hr)].
  { left. split; [by apply (spec_sound _ _ _ _ _ Hs Hr)|]. intros r ->. by destruct (Hq r). }
  assert (Hf : Forall (within same_gateway) l1) by apply (spec_sound _ _ _ _ _ Hs Ha).
  apply runs_read_any in Hr as [(err & _ & -> & ->)|(u & -> & Hr)].
  { left. rewrite app_nil_r. split; [done|]. intros r' [= <-]. eauto. }
  right. exists u, l1, l2. split_and!; try done. unfold signed_in. apply runs_zoom in Ha as [Ha _]; [done|]. by intros [] [].
Qed.

Lemma not_within (R : Gateway → Gateway → Prop) (ls : list (label Gateway)) b a : Forall (within R) ls → ¬ R b a → LUpdate b a ∉ ls.
Proof. rewrite Forall_forall. intros Hf Hn Hin. apply Hn, (Hf _ Hin). Qed.

Lemma open_needs x rq e : (∃ r, needs e = AtLeast r) ∨ needs e = SignedIn ↔ open_handler x rq e = None.
Proof. destruct e; simpl; split; intros; naive_solver. Qed.

(** *** API tokens *)
Definition keeps_governed (b a : App) : Prop := governed a = governed b.
Lemma stays_rejected rq : stays keeps_governed (Mcp.rejected rq).
Proof.
  unfold Mcp.rejected. case_match; [|apply stays_ret]. apply stays_bind; [apply stays_clock|intros].
  apply stays_bind; [by apply stays_atomic|intros]. case_match; [|apply stays_ret].
  apply stays_bind; [apply stays_audit|intros; apply stays_ret].
Qed.
Lemma stays_token x rq : stays keeps_governed (Mcp.authenticate x rq).
Proof.
  unfold Mcp.authenticate. case_match; [|apply stays_ret]. apply stays_bind; [by apply stays_atomic|intros].
  repeat case_match; try apply stays_ret; (apply stays_bind; [by apply stays_atomic|intros; apply stays_ret]).
Qed.

Lemma mcp_governed x rq ls q b a :
  runs (Mcp.post escape_debug parse_uri ca_usable json_extract no_token x rq) ls q → LUpdate b a ∈ ls → governed a ≠ governed b →
  ∃ u l1 l2, ls = l1 ++ l2 ∧ runs (Mcp.authenticate x rq) l1 (Ret (Some u)) ∧ LUpdate b a ∈ l2.
Proof.
  intros Hr Hin Hne. assert (Hstays : ∀ {A} (p : prog App A) l q', stays keeps_governed p → runs p l q' → LUpdate b a ∉ l).
  { intros A p l q' Hp Hl Hi. by apply (stays_runs _ _ _ _ _ _ Hp Hl) in Hi. }
  unfold Mcp.post in Hr. destruct (negb _); [apply runs_ret_any in Hr as [-> _]; by apply not_elem_of_nil in Hin|].
  pose proof (stays_token x rq) as Ha.
  apply runs_bind_any in Hr as [(p & Hr & _)|(l1 & l2 & u & -> & H1' & Hr)]; [by destruct (Hstays _ _ _ _ Ha Hr)|].
  apply elem_of_app in Hin as [Hin|Hin]; [by destruct (Hstays _ _ _ _ Ha H1')|]. destruct u as [u|]; [by exists u, l1, l2|].
  exfalso. refine (Hstays _ _ _ _ _ Hr Hin). apply stays_bind; [apply stays_rejected|intros; apply stays_ret].
Qed.

(** *** What the handlers come to *)
Lemma open_reads x rq e p : open_handler x rq e = Some p → e ≠ E_mcp → stays same_gateway p.
Proof.
  destruct e; try discriminate; intros [= <-] Hm; try done; try apply stays_ret.
  - apply stays_read. intros b. apply stays_reply. eauto with stays.
  - apply stays_bind; [eauto with stays|intros; apply stays_ret].
Qed.

Lemma mcp_steps x rq ps l q b a :
  runs (handle x rq ps E_mcp) l q → LUpdate b a ∈ l → governed (gx_app a) ≠ governed (gx_app b) →
  ∃ u l1 l2, l = l1 ++ l2 ∧ token_user x rq u l1 ∧ LUpdate b a ∈ l2.
Proof.
  unfold Router.handle. cbn [Router.open_handler]. intros Hr Hin Hne.
  assert (Hrun : ∃ l1 q', runs (on_app (Mcp.post escape_debug parse_uri ca_usable json_extract no_token (hm_mcp x)
    (mkRequest (rh_authorization rq) (rh_agent rq) (client_address (rh_peer rq) (rh_forwarded rq) (trusted_proxies (hm_web x)))
       (rh_body rq)))) l1 q' ∧ l = l1).
  { apply runs_bind_any in Hr as [(p & Hr & _)|(l1 & l2 & r & -> & Hr & Hret)]; [eauto|].
    apply runs_ret_any in Hret as [-> _]. rewrite app_nil_r. eauto. }
  destruct Hrun as (l1 & q' & Hrun & ->). apply runs_zoom_any in Hrun as [q2 Hrun]; [|done].
  pose proof (list_elem_of_fmap_2 (part gx_app) _ _ Hin) as Hpart. cbn [part] in Hpart.
  destruct (mcp_governed _ _ _ _ _ _ Hrun Hpart Hne) as (u & m1 & m2 & Hm & Hu & Hi).
  apply fmap_app_inv in Hm as (k1 & k2 & -> & -> & ->). exists u, k1, k2. split; [done|]. split; [exact Hu|].
  apply elem_of_app in Hin as [Hin|Hin]; [|done]. exfalso.
  apply (list_elem_of_fmap_2 (part gx_app)) in Hin. by apply (stays_runs _ _ _ _ _ _ (stays_token _ _) Hu) in Hin.
Qed.

Lemma unsafe_marked rq e ps :
  endpoint (rh_method rq) (rh_path rq) = Ok (e, ps) → csrf (rh_method rq) (rh_csrf rq) (rh_path rq) = Ok () →
  e ≠ E_mcp → power e ≠ Reads → marked rq.
Proof.
  intros He Hc Hm Hp. assert (Hs : safe_method (rh_method rq) = false).
  { apply not_true_is_false. intros Hs. by apply Hp, (safe_reads _ _ _ _ He). }
  split; [done|]. unfold csrf in Hc. rewrite Hs in Hc. simpl in Hc. destruct (String.eqb_spec (rh_path rq) "/mcp") as [Heq|_].
  - rewrite Heq in He. apply mcp_endpoint in He. by destruct He.
  - rewrite orb_false_r in Hc. destruct (rh_csrf rq) as [v|]; [|done]. destruct (String.eqb_spec v CSRF_VALUE); [by subst|done].
Qed.

Lemma power_used x rq ps u e l q b a :
  runs (act x rq ps u e) l q → LUpdate b a ∈ l → power e ≠ Reads → e ≠ E_mcp →
  au_role u = Admin ∨ own_gateway (au_username u) b a.
Proof.
  intros Hr Hin Hp Hm. destruct (power e) eqn:Hpow; [done| |].
  { right. by apply (stays_runs _ _ _ _ _ _ (act_own x rq ps u e Hpow) Hr) in Hin. }
  left. assert (Hn : needs e = AtLeast Admin) by (destruct e; done).
  destruct (decide (role_rank Admin ≤ role_rank (au_role u))) as [Hr'|Hrank]; [by destruct (au_role u)|].
  destruct (act_refused x rq ps u e _ Hn Hrank) as [err Ha]. rewrite Ha in Hr. apply runs_ret_any in Hr as [-> _].
  by apply not_elem_of_nil in Hin.
Qed.

(** Claim C8. Whatever a request is and wherever it is cut
    off: a step of it changes the configuration, the targets that run, the
    certificates or the users only if the request was sent to a name of the
    gateway, and either it was marked as coming from the gateway's own pages, a
    user was signed in, and the user is an admin or the step changes no more
    than that user's own row and tokens; or it is a call of the assistants'
    endpoint, which notes the use of a token, and changes the configuration, the
    targets and the certificates only for a token's user. *)
Theorem changes_authorised x rq ls q b a :
  runs (serve x rq) ls q → LUpdate b a ∈ ls → ¬ same_gateway b a →
  ∃ l0 l, ls = l0 ++ l ∧ known_host x rq l0 ∧
  ((marked rq ∧ ∃ u l1 l2, l = l1 ++ l2 ∧ signed_in x rq u l1 ∧ LUpdate b a ∈ l2 ∧
      (au_role u = Admin ∨ own_gateway (au_username u) b a)) ∨
   ((∃ ps, endpoint (rh_method rq) (rh_path rq) = Ok (E_mcp, ps)) ∧
    (governed (gx_app a) ≠ governed (gx_app b) → ∃ u l1 l2, l = l1 ++ l2 ∧ token_user x rq u l1 ∧ LUpdate b a ∈ l2))).
Proof.
  intros Hr Hin Hne. pose proof (not_within same_gateway) as Hno.
  apply runs_serve in Hr as [[Hf _]|(l0 & l & e & ps & -> & Hf & Hhost & Hcsrf & He & Hr)]; [by destruct (Hno _ b a Hf)|].
  apply elem_of_app in Hin as [Hin|Hin]; [by destruct (Hno _ b a Hf)|].
  exists l0, l. split; [done|]. split; [done|].
  destruct (decide (e = E_mcp)) as [->|Hmcp]; [right; split; [eauto|]; intros Hg; by eapply mcp_steps|left].
  destruct (open_handler x rq e) as [p|] eqn:Ho.
  { exfalso. refine (Hno _ b a _ Hne Hin). unfold Router.handle in Hr. rewrite Ho in Hr.
    apply (spec_sound _ _ _ _ _ (open_reads x rq e p Ho Hmcp) Hr). }
  apply runs_handler in Hr as [[Hl _]|(u & l1 & l2 & -> & Hl & Hu & Hr)]; [by destruct (Hno _ b a Hl)| |done].
  apply elem_of_app in Hin as [Hin|Hin]; [by destruct (Hno _ b a Hl)|].
  assert (Hp : power e ≠ Reads).
  { intros Hp. by apply (stays_runs _ _ _ _ _ _ (act_reads x rq ps u e Hp) Hr) in Hin. }
  split; [by eapply unsafe_marked|]. exists u, l1, l2. do 3 (split; [done|]). by eapply power_used.
Qed.

(** Claim C9. Who is answered: a request that is not refused
    was sent to a name of the gateway and reached a handler; where the manual
    asks for a role, a user was signed in who has it; the pages, the health
    check, logging in and out need nobody, and the assistants' endpoint checks
    its tokens itself. *)
Theorem answers_by_role x rq ls r :
  runs (serve x rq) ls (Ret r) → (∀ e, r ≠ Refused e) →
  ∃ e ps l0 l1 l2, endpoint (rh_method rq) (rh_path rq) = Ok (e, ps) ∧ ls = l0 ++ l1 ++ l2 ∧ known_host x rq l0 ∧
    match needs e with
    | Anyone | Token => True
    | SignedIn => ∃ u, signed_in x rq u l1
    | AtLeast role => ∃ u, signed_in x rq u l1 ∧ role_rank role ≤ role_rank (au_role u)
    end.
Proof.
  intros Hr Hok. apply runs_serve in Hr as [[_ Hf]|(l0 & l & e & ps & -> & Hf & Hhost & _ & He & Hr)].
  { destruct (Hf r eq_refl) as [err ->]. by destruct (Hok err). }
  exists e, ps, l0. destruct (open_handler x rq e) as [p|] eqn:Ho.
  { exists [], l. split_and!; [done..|]. pose proof (open_needs x rq e) as Hn. rewrite Ho in Hn. destruct (needs e); naive_solver. }
  destruct (runs_handler _ _ _ _ _ _ Ho Hr) as [[_ Href]|(u & l1 & l2 & -> & _ & Hu & Hact)].
  { destruct (Href r eq_refl) as [err ->]. by destruct (Hok err). }
  exists l1, l2. split_and!; [done..|]. destruct (needs e) as [| |role|] eqn:Hn; try done; [by exists u|]. exists u. split; [done|].
  destruct (decide (role_rank role ≤ role_rank (au_role u))) as [|Hrole]; [done|].
  destruct (act_refused x rq ps u e role Hn Hrole) as [err Ha]. rewrite Ha in Hact.
  apply runs_ret in Hact as [<- _]. by destruct (Hok err).
Qed.
End Access.

(** ** Running the server *)
Section RouterWitnesses.
Import ToyNodes ToyOpc ToyRelay ToyStack ToyConnection ToyX509 Toy ToyUsers.
Existing Instances opc x509.
#[local] Existing Instances WebBrowser.toy_browsing Mcp.toy_serde Lines.toy_json.

Definition unreadable {A} (b : string) : result ApiError A := Err (mkApiError 422 "unreadable").
#[local] Instance toy_routing : Routing := {
  path_matches := by_segments;
  path_literal := segments_literal;
  path_prefix := segments_prefix;
}.
#[local] Instance toy_extract : Extract := {
  param := Ok;
  param_index _ := Ok O;
  query_audit := unreadable;
  query_written := unreadable;
  query_check := unreadable;
  query_node := unreadable;
  body_login b := match split_once ":"%char b with Some p => Ok p | None => unreadable b end;
  body_password := unreadable;
  body_new_token := unreadable;
  body_target := unreadable;
  body_thumbprint := unreadable;
  body_new_group := unreadable;
  body_group_name := unreadable;
  body_nodes := unreadable;
  body_node_ids := unreadable;
  body_url := unreadable;
  body_pair := unreadable;
  body_severity := unreadable;
  body_audit := unreadable;
  body_export := unreadable;
  body_hostnames := unreadable;
  body_enabled := unreadable;
  body_new_user := unreadable;
  body_user_update := unreadable;
  body_connect := unreadable;
  body_values := unreadable;
}.

(** Ann is signed in as an admin, Eve as an auditor. *)
Definition served_users : UserDb :=
  mkUserDb (<["eve" := mkUserRow "s$eve's secret" "auditor" "t0" 0 false]> (users two_admins)) [].
Definition signed_on : WebSessions :=
  mkWebSessions {["a" := mkWebSession "ann" 0 900 990; "e" := mkWebSession "eve" 0 900 990]} ∅ ∅.
Definition served : Gateway :=
  let a := assistant_app in
  mkGateway signed_on (mkApp (a_site a) (a_pki a) (a_web_pki a) (a_relays a) (a_trust_changed a) (a_db a) served_users (a_refused a)).
Definition http_meets : HttpMeets :=
  mkHttpMeets default_web ["gw"] quiet_faults "salt" "t1" "0a1b" "ffee" cert_meets (mm_settings mcp_meets) (plc_meets true)
    (mkStatusMeets [] 0 (Config.gateway (Targets.config (s_manager (a_site assistant_app)))) ["gw"] "1.0" "1.0")
    [] None mcp_meets "/etc/gateway.toml" false EmptyString.
Definition request (m : Method) (path host : string) (csrf cookie : option string) : HttpRequest :=
  mkHttpRequest m path EmptyString host csrf cookie None None None None EmptyString.
Definition serving (rq : HttpRequest) : prog Gateway Reply :=
  serve no_text no_uri any_ca no_json (fun _ => "") WebCerts.no_b64 null_token http_meets rq.
Definition answered (rq : HttpRequest) := exec with_plc (serving rq) served.
Definition reply (rq : HttpRequest) : option Reply := (answered rq).1.2.

Definition delete_plc (csrf cookie : option string) : HttpRequest := request DELETE "/api/targets/plc1" "localhost" csrf cookie.
Example admin_deletes : reply (delete_plc (Some CSRF_VALUE) (Some "a")) = Some Done.
Proof. vm_compute. reflexivity. Qed.

(** The step that replaces the configuration. *)
Definition target_count (g : Gateway) : nat := length (targets (Targets.config (s_manager (a_site (gx_app g))))).
Fixpoint first_change (ls : list (label Gateway)) : Gateway * Gateway :=
  match ls with
  | [] => (served, served)
  | LUpdate b a :: ls => if (target_count b =? target_count a)%nat then first_change ls else (b, a)
  | _ :: ls => first_change ls
  end.
Lemma first_change_in ls : target_count (first_change ls).1 ≠ target_count (first_change ls).2 →
  LUpdate (first_change ls).1 (first_change ls).2 ∈ ls.
Proof.
  induction ls as [|l ls IH]; [done|]. destruct l as [| | |b a| | | | | |]; simpl; intros Hne; try (right; by apply IH).
  destruct (Nat.eqb_spec (target_count b) (target_count a)); [right; by apply IH|left].
Qed.

Definition deleting := answered (delete_plc (Some CSRF_VALUE) (Some "a")).
Lemma changes_authorised_witness :
  let b := (first_change deleting.1.1).1 in let a := (first_change deleting.1.1).2 in let rq := delete_plc (Some CSRF_VALUE) (Some "a") in
  target_count b = 1%nat ∧ target_count a = 0%nat ∧
  ∃ l0 l, deleting.1.1 = l0 ++ l ∧ known_host http_meets rq l0 ∧
  ((marked rq ∧ ∃ u l1 l2, l = l1 ++ l2 ∧ signed_in http_meets rq u l1 ∧ LUpdate b a ∈ l2 ∧
      (au_role u = Admin ∨ own_gateway (au_username u) b a)) ∨
   ((∃ ps, Router.endpoint (rh_method rq) (rh_path rq) = Ok (E_mcp, ps)) ∧
    (governed (gx_app a) ≠ governed (gx_app b) → ∃ u l1 l2, l = l1 ++ l2 ∧ token_user http_meets rq u l1 ∧ LUpdate b a ∈ l2))).
Proof.
  intros b a rq. assert (Hb : target_count b = 1%nat) by (vm_compute; reflexivity).
  assert (Ha : target_count a = 0%nat) by (vm_compute; reflexivity). split; [exact Hb|]. split; [exact Ha|].
  apply (changes_authorised no_text no_uri any_ca no_json (fun _ => "") WebCerts.no_b64 null_token http_meets rq _ (Ret Done)).
  - apply (exec_returns with_plc (serving rq) served). vm_compute. reflexivity.
  - apply first_change_in. fold b a. by rewrite Hb, Ha.
  - intros [Hg _]. apply (f_equal (fun t => length (targets t.1.1.1.1.1))) in Hg. fold b a in Hg.
    change (target_count a = target_count b) in Hg. by rewrite Ha, Hb in Hg.
Defined.

(** Without the header, as a page of another site would send it; by an auditor;
    without a cookie; to a name that is not the gateway's. *)
Definition refused (rq : HttpRequest) (status : Z) : Prop :=
  target_count (answered rq).2 = 1%nat ∧ match reply rq with Some (Refused e) => api_status e = status | _ => False end.
Example other_site : refused (delete_plc None (Some "a")) FORBIDDEN.
Proof. vm_compute. by split. Qed.
Example auditor_deletes : refused (delete_plc (Some CSRF_VALUE) (Some "e")) FORBIDDEN.
Proof. vm_compute. by split. Qed.
Example nobody_deletes : refused (delete_plc (Some CSRF_VALUE) None) UNAUTHORIZED.
Proof. vm_compute. by split. Qed.
Example rebinding : refused (request DELETE "/api/targets/plc1" "evil.example" (Some CSRF_VALUE) (Some "a")) 421.
Proof. vm_compute. by split. Qed.
Example no_page : refused (request GET "/api/nothing" "localhost" None (Some "a")) NOT_FOUND.
Proof. vm_compute. by split. Qed.
Example wrong_method : refused (request POST "/api/status" "localhost" (Some CSRF_VALUE) (Some "a")) 405.
Proof. vm_compute. by split. Qed.

(** The auditor reads the targets. *)
Definition show : HttpRequest := request GET "/api/targets" "localhost" None (Some "e").
Lemma answers_by_role_witness :
  ∃ e ps l0 l1 l2, Router.endpoint GET "/api/targets" = Ok (e, ps) ∧ (answered show).1.1 = l0 ++ l1 ++ l2 ∧ known_host http_meets show l0 ∧
    match needs e with
    | Anyone | Token => True
    | SignedIn => ∃ u, signed_in http_meets show u l1
    | AtLeast role => ∃ u, signed_in http_meets show u l1 ∧ role_rank role ≤ role_rank (au_role u)
    end.
Proof.
  apply (answers_by_role no_text no_uri any_ca no_json (fun _ => "") WebCerts.no_b64 null_token http_meets show _ Done).
  - apply (exec_returns with_plc (serving show) served). vm_compute. reflexivity.
  - discriminate.
Defined.
End RouterWitnesses.
