(* ===== verification/Main.v ===== *)
(** The program's commands ([src/src/main.rs]): running the gateway from the
    first audit record to the last, the check of the trail on the command line,
    and the commands for web UI users.

    What the operating system and the start of a part answer is an argument
    ([StartMeets]); between start and stop the gateway serves, which other
    files are about. *)

From S2P Require Import Prelude Net Event Opc Task Steps Sessions Relay Store Query Users Config Pipeline Export Endpoints Browser WebAuth WebUsers Discovery ConfigFile Targets WebTargets Pki WebCerts.

(** ** Running *)

(** [run]'s surroundings: what loading the configuration, opening files and
    starting parts came to. *)
Record StartMeets : Type := mkStartMeets {
  st_config : result string Config;
  st_open_pki : result string unit;
  st_pki : PkiMeets;
  st_hosts : list string;
  st_audit : result string unit;
  st_version : string;
  st_users : result string unit;
  st_io : nat → io_oracle;
  st_salt : string;
  st_now : string;
  (** [OPCUA_GATEWAY_ADMIN_PASSWORD] *)
  st_admin_password : option string;
  st_outside : Outside;
  st_client : result string unit;
  st_exports : result string unit;
  (** [web::tls::server_config] *)
  st_tls : result string unit;
  st_bind : result string unit;
  (** how serving ended *)
  st_serve : result string unit;
}.

Section Run.
Context `{X509Lib} `{!Crypto} `{StoreEnv} `{UserEnv}.
Context (escape_debug : string → string).
Abbreviation app := (prog App).

Definition ask {E A B} (r : result E A) (k : A → app (result E B)) : app (result E B) :=
  match r with Ok a => k a | Err e => mret (Err e) end.

Definition on_users {A} (f : UserDb → result string A * UserDb) : app (result string A) :=
  atomic (fun a => let r := f (a_users a) in
    (r.1, mkApp (a_site a) (a_pki a) (a_web_pki a) (a_relays a) (a_trust_changed a) (a_db a) r.2 (a_refused a))).

(** A change the gateway makes by itself; whether it is recorded does not
    matter to it. *)
Definition by_gateway (summary : string) : app unit :=
  _ ← WebAuth.audit false (fun now => new_entry now (ConfigChanged "gateway" summary)); mret ().

Fixpoint each_by_gateway (l : list string) : app unit :=
  match l with
  | [] => mret ()
  | s :: l => _ ← by_gateway s; each_by_gateway l
  end.

(** [users::random_password] *)
Definition password_of (bytes : Blob) : string := random_password (N_of_ascii <$> list_ascii_of_string bytes).

(** [create_initial_admin], unless there is a user *)
Definition create_initial_admin (x : StartMeets) : app (result string unit) :=
  let given := (p ← st_admin_password x; if String.eqb p EmptyString then None else Some p) in
  password ← (match given with Some p => mret p | None => b ← random; mret (password_of b) end);
  on_users (Users.create_initial_admin (st_io x 1) (st_salt x) (st_now x) password).
Definition first_admin (x : StartMeets) : app (result string unit) :=
  n ← on_users (fun db => (Users.count (st_io x 0) db, db));
  ask n (fun n =>
    if (n =? 0 : bool) then
      made ← create_initial_admin x;
      ask made (fun _ => _ ← by_gateway "created initial user 'admin'"; mret (Ok ()))
    else mret (Ok ())).

(** Corrections made while loading, written back and recorded. *)
Definition write_targets (o : Outside) (ts : list TargetConfig) : app (result string unit) :=
  on_site (on_manager (fun m =>
    let (r, f) := write_file o (put_targets ts) (file m) in
    (match r with Ok _ => Ok () | Err e => Err (target_error_text escape_debug e) end, set_file f m))).
Definition apply_fixes (x : StartMeets) (c : Config) : app (result string unit) :=
  match load_fixes c with
  | [] => mret (Ok ())
  | fixes =>
      w ← write_targets (st_outside x) (targets c);
      ask w (fun _ : unit => _ ← each_by_gateway fixes; mret (Ok ()))
  end.

(** [TargetManager::new] and [start_all] *)
Definition start_targets (o : Outside) (c : Config) : app unit :=
  on_site (on_manager (fun m => ((), start_all o (mkManager c ∅ ∅ (file m))))).
Definition stop_targets : app unit := on_site (on_manager (fun m => ((), stop_all m))).

(** A failing HTTPS setup stops the web UI only: whether it is served. *)
Definition https (x : StartMeets) (c : Config) : app bool :=
  if (tls (web c) : bool) then
    match st_tls x with
    | Ok _ => mret true
    | Err e => _ ← by_gateway ("web UI not started: HTTPS setup failed: " +:+ e); mret false
    end
  else mret true.

(** [run] *)
Definition run (x : StartMeets) : app (result string unit) :=
  ask (st_config x) (fun c =>
  ask (st_open_pki x) (fun _ =>
  own ← on_pki (ensure_own_certificate (st_pki x) (application_uri (st_hosts x) (gateway c)) (gateway c));
  ask own (fun _ =>
  ask (st_audit x) (fun _ =>
  started ← WebAuth.audit true (fun now => new_entry now (GatewayStarted (st_version x)));
  ask started (fun _ =>
  ask (st_users x) (fun _ =>
  r ← first_admin x;
  ask r (fun _ =>
  r ← apply_fixes x c;
  ask r (fun _ =>
  ask (st_client x) (fun _ =>
  _ ← start_targets (st_outside x) c;
  ask (st_exports x) (fun _ =>
  served ← https x c;
  ask (if (served : bool) then st_bind x else Ok ()) (fun _ =>
  ask (if served then st_serve x else Ok ()) (fun _ =>
    _ ← stop_targets;
    _ ← WebAuth.audit true (fun now => new_entry now GatewayStopped);
    mret (Ok ()))))))))))))).
End Run.

(** ** Checking the trail *)
Definition parse_i64 (s : string) : option Z :=
  match s with
  | String "-" rest => z ← parse_u64 rest; if String.prefix "+" rest || (2 ^ 63 <? z) then None else Some (- z)
  | _ => z ← parse_u64 s; if i64_max <? z then None else Some z
  end.

(** [--expect SEQ:HASH] *)
Definition expected (e : string) : result string Anchor :=
  match split_once ":"%char e with
  | None => Err ("--expect " +:+ e +:+ ": use SEQ:HASH")
  | Some (s, h) =>
      match parse_i64 s with
      | None => Err ("--expect " +:+ e +:+ ": invalid sequence number")
      | Some n => Ok (mkAnchor n h ("--expect " +:+ e))
      end
  end.

Section Verify.
Context `{StoreEnv}.

(** [verify]: the exit code; [db]: the trail, if its file exists. *)
Definition verify (config : result string Config) (state : StateFile) (db : option (result string Db)) (expect : list string)
    : result string Z :=
  _ ← config;
  more ← collect (expected <$> expect);
  let anchors := anchors_from state ++ more in
  match db with
  | None => Ok (match anchors with [] => 0 | _ => 2 end)
  | Some db => d ← db; Ok (if report_ok (verify_against d anchors) then 0 else 2)
  end.
End Verify.

(** ** Users *)
Inductive UserCommand : Type :=
| Add (username role : string)
| Passwd (username : string)
| SetRole (username role : string)
| Delete (username : string)
| ListUsers.

Section UserCommands.
Context `{StoreEnv} `{UserEnv}.
(** the database's path, as the messages show it *)
Context (path : string).

Definition must_exist (existing : list string) (name : string) : result string unit :=
  if bool_decide (name ∈ existing) then Ok ()
  else if bool_decide (existing = [])
  then Err ("there are no users yet in " +:+ path +:+ " (is this the config the gateway runs with?)")
  else Err ("no user '" +:+ name +:+ "' in " +:+ path +:+ "; the users are: " +:+ join ", " existing
            +:+ ". Add one with: user add " +:+ name).

Definition read_new_password (first second : result string string) : result string string :=
  p ← first; q ← second;
  if String.eqb p q then Ok p else Err "the passwords do not match".

Definition on_ok {A} (r : result string A) (db : UserDb) (k : A → result string unit * UserDb) : result string unit * UserDb :=
  match r with Ok a => k a | Err e => (Err e, db) end.

(** [user_command], [prompt] being what [read_new_password] answers: its result and the tables afterwards. *)
Definition user_command (io : nat → io_oracle) (salt now : string) (prompt : result string string) (cmd : UserCommand)
    (db : UserDb) : result string unit * UserDb :=
  on_ok (Users.list_users (io 0%nat) db) db (fun l =>
  let existing : list string := Users.username <$> l in
  match cmd with
  | Add name r =>
      on_ok (role_parse r) db (fun r =>
        if bool_decide (name ∈ existing)
        then (Err ("user '" +:+ name +:+ "' already exists; change the password with: user passwd " +:+ name), db)
        else on_ok prompt db (fun p => Users.create (io 1%nat) salt now name p r db))
  | Passwd name =>
      if String.eqb name "admin" && bool_decide (existing = [])
      then on_ok prompt db (fun p => Users.create_with (io 1%nat) salt now "admin" p Admin false db)
      else on_ok (must_exist existing name) db (fun _ =>
           on_ok prompt db (fun p => set_password (io 1%nat) salt name p db))
  | SetRole name r =>
      on_ok (must_exist existing name) db (fun _ =>
      on_ok (role_parse r) db (fun r => set_role (io 1%nat) salt name r db))
  | Delete name => on_ok (must_exist existing name) db (fun _ => Users.delete (io 1%nat) name db)
  | ListUsers => on_ok (Users.list_users (io 1%nat) db) db (fun _ => (Ok (), db))
  end).

Lemma set_password_db io salt name p db : (set_password io salt name p db).2 = (Users.update io salt name None (Some p) false db).2.
Proof. unfold set_password. by destruct (update _ _ _ _ _ _ _). Qed.
Lemma set_role_db io salt name r db : (set_role io salt name r db).2 = (Users.update io salt name (Some r) None false db).2.
Proof. unfold set_role. by destruct (update _ _ _ _ _ _ _). Qed.

(** Every command is at most one of the steps the tables may take, so what holds
    of them over time ([an_admin_remains], [cookie_worth]) holds with commands
    in between. *)
Lemma user_command_step io salt now prompt cmd db :
  (user_command io salt now prompt cmd db).2 = db ∨ db_step db (user_command io salt now prompt cmd db).2.
Proof.
  unfold user_command, on_ok. destruct (Users.list_users (io 0%nat) db) as [l|e]; [|by left].
  destruct cmd; repeat case_match; try (by left); right; rewrite ?set_password_db, ?set_role_db; constructor.
Qed.
End UserCommands.

(** ** Order *)
Section Order.
Context `{X509Lib} `{!Crypto} `{StoreEnv} `{UserEnv}.
Context (escape_debug : string → string).

(** The start of the gateway is in the trail. *)
Definition on_record (h : list (label App)) : Prop :=
  ∃ e n v, LRecord true e (Ok n) ∈ h ∧ event e = GatewayStarted v.
(** Targets run, and accept clients, only after that. *)
Definition in_order (h : list (label App)) (l : label App) : Prop :=
  match l with
  | LUpdate b a => running (s_manager (a_site a)) = running (s_manager (a_site b)) ∨ on_record h
  | _ => True
  end.
(** No target starts or stops. *)
Definition calm (l : label App) : Prop :=
  match l with LUpdate b a => running (s_manager (a_site a)) = running (s_manager (a_site b)) | _ => True end.

Lemma calm_in_order h ls : steps in_order h → Forall calm ls → steps in_order (h ++ ls).
Proof. intros Hs. apply steps_app_Forall; [done|]. intros pre [] Hl; simpl in *; auto. Qed.

Lemma on_record_app h ls : on_record h → on_record (h ++ ls).
Proof. intros (e & n & v & Hin & ?). exists e, n, v. split; [apply elem_of_app; by left|done]. Qed.

Lemma recorded_in_order h ls : steps in_order h → on_record h → steps in_order (h ++ ls).
Proof.
  intros Hs Ho. induction ls as [|l ls IH] using rev_ind; [by rewrite app_nil_r|]. rewrite app_assoc. apply steps_snoc.
  split; [done|]. destruct l; simpl; auto using on_record_app.
Qed.
(** Once the start is on record, anything is in order. *)
Lemma always_any {A} (I : list (label App) → Prop) (p : prog App A) h (Φ : A → list (label App) → Prop) :
  (∀ ls, I (h ++ ls)) → (∀ a ls, Φ a (h ++ ls)) → always I p h Φ.
Proof.
  revert h. induction p; simpl; intros h Hi HΦ; (split; [by rewrite <- (app_nil_r h)|]).
  1: by rewrite <- (app_nil_r h).
  all: try done; intros; (match goal with IH : _ |- _ => apply IH end); intros; rewrite <- app_assoc; auto.
Qed.

Lemma then_calm {A} (p : prog App A) h (Φ : A → list (label App) → Prop) :
  spec calm p (fun _ _ => True) → steps in_order h →
  (∀ a h', steps in_order h' → Φ a h') → always (steps in_order) p h Φ.
Proof.
  intros Hp Hh HΦ. eapply always_mono; [|apply (spec_use calm (steps in_order) p h _ Hp)].
  - intros a h' (ls & -> & Hl & _). apply HΦ. by apply calm_in_order.
  - intros ls Hl. by apply calm_in_order.
Qed.

Lemma spec_zoom {T A} (view : App → T) (put : T → App → App) (p : prog T A) :
  (∀ t a, running (s_manager (a_site (put t a))) = running (s_manager (a_site a))) →
  spec calm (zoom view put p) (fun _ _ => True).
Proof.
  intros Hput. unfold spec. assert (Hn : Forall calm (@nil (label App))) by constructor. revert Hn. generalize (@nil (label App)).
  induction p as [a| |k IH|k IH|c e k IH|g k IH|k IH|r t k IH|r k IH|c q k IH|e k IH|k IH]; simpl; intros h Hh; (split; [done|]); try done;
    intros; apply IH; apply Forall_app_2; repeat constructor; try done. apply Hput.
Qed.

Lemma calm_own x c : spec calm (on_pki (ensure_own_certificate (st_pki x) (application_uri (st_hosts x) (gateway c)) (gateway c))) (fun _ _ => True).
Proof. by apply spec_zoom. Qed.

(** After the first record, and what is in order whatever comes. *)
Lemma run_in_order x : always (steps in_order) (run escape_debug x) [] (fun _ _ => True).
Proof.
  unfold run, ask at 1. destruct (st_config x) as [c|e]; [|split; [apply steps_nil|done]].
  unfold ask at 1. destruct (st_open_pki x); [|split; [apply steps_nil|done]].
  apply always_bind, then_calm; [apply calm_own|apply steps_nil|]. intros [own|e] h Hh; [|by split]. unfold ask at 1 2.
  destruct (st_audit x); [|by split]. unfold ask at 1. apply always_bind. unfold WebAuth.audit at 1.
  apply always_bind. split; [done|]. intros z.
  assert (Hz : steps in_order (h ++ [LClock z])) by (by apply steps_snoc). split; [done|].
  split; [done|]. intros res.
  set (e0 := new_entry z (GatewayStarted (st_version x))).
  assert (He : steps in_order ((h ++ [LClock z]) ++ [LRecord true e0 res])) by (by apply steps_snoc).
  split; [done|]. unfold ask at 1. destruct res as [n|]; [|by split].
  apply always_any; [|done]. intros ls. apply recorded_in_order; [done|].
  exists e0, n, (st_version x). split; [|done]. apply elem_of_app. right. by left.
Qed.

Lemma runs_app_ask {E A B} (r : result E A) (k : A → prog App (result E B)) ls b :
  runs (ask r k) ls (Ret (Ok b)) → ∃ a, r = Ok a ∧ runs (k a) ls (Ret (Ok b)).
Proof. unfold ask. destruct r as [a|e]; intros Hr; [eauto|]. by apply runs_ret in Hr as [? _]. Qed.

Lemma runs_stop ls (r : unit) : runs stop_targets ls (Ret r) → ∃ b a, ls = [LUpdate b a] ∧ running (s_manager (a_site a)) = ∅.
Proof.
  unfold stop_targets, on_site, on_manager. intros Hr. inversion Hr as [|p l p' ls' p'' Hd Hrest]; simplify_eq.
  inversion Hd; subst. simpl in Hrest. apply runs_ret in Hrest as [_ ->]. by eexists _, _.
Qed.

(** Goes on to the next step of [run] that succeeded, forgetting which it was. *)
Ltac next H :=
  first [apply runs_app_ask in H as (? & _ & H)
        |apply runs_bind in H as (? & ? & ? & -> & _ & H)].

(** Wherever it is stopped, the gateway has no target
    running, so no client is served, before the record of its start is stored;
    and when it ends as asked, its targets stopped first and the last it did was
    to record its end. *)
Theorem served_on_record x ls p :
  runs (run escape_debug x) ls p →
  steps in_order ls ∧
  (p = Ret (Ok ()) → ∃ pre b a t e res, ls = pre ++ [LUpdate b a; LClock t; LRecord true e res] ∧
     running (s_manager (a_site a)) = ∅ ∧ event e = GatewayStopped).
Proof.
  intros Hr. split; [apply (always_sound _ _ _ _ _ (run_in_order x) Hr)|]. intros ->. unfold run in Hr.
  do 14 next Hr.
  (* the exports, the web UI, and how it was bound and served *)
  apply runs_app_ask in Hr as (? & _ & Hr). apply runs_bind in Hr as (l1 & l2 & served & -> & _ & Hr).
  do 2 apply runs_app_ask in Hr as (? & _ & Hr).
  apply runs_bind in Hr as (l3 & l4 & ? & -> & (b & a & -> & Hstop)%runs_stop & Hr).
  apply runs_bind in Hr as (l5 & l6 & ? & -> & Haudit & [_ ->]%runs_ret). unfold WebAuth.audit in Haudit.
  apply runs_bind in Haudit as (l7 & l8 & t & -> & ->%runs_clock & ->%runs_record).
  eexists _, b, a, t, _, _. simpl. rewrite !app_assoc. split; [reflexivity|by split].
Qed.
End Order.

(** ** The check *)
Section Check.
Context `{StoreEnvOk}.

End Check.

(** ** Running the model *)
Section MainWitnesses.
Import ToyNodes ToyOpc ToyRelay ToyX509 Toy ToyUsers.
Existing Instances opc x509 Toy.env Toy.env_ok ToyUsers.env.

Definition one_line : Config :=
  mkConfig (mkGatewayConfig "Gateway" None "/pki" "/data" []) default_web default_audit (mkExportConfig None None)
    (mkMcpConfig false []) [plc1] [].
(** Nothing has been set up yet: no certificate, no user. *)
Definition fresh : App :=
  mkApp (mkSite (mkManager one_line ∅ ∅ (Ok [])) ∅ (new_settings default_audit) None ∅)
    (mkPkiDir ∅ ∅ [] []) (mkPkiDir ∅ ∅ [] []) ∅ ∅ (mkDb [] None) (mkUserDb ∅ []) ∅.
Definition meets_fine (bind : result string unit) : StartMeets :=
  mkStartMeets (Ok one_line) (Ok ()) smooth ["gw"] (Ok ()) "1.0.0" (Ok ()) (fun _ => yes) "s" "t0" (Some "first secret") well
    (Ok ()) (Ok ()) (Ok ()) bind (Ok ()).
Definition serving (bind : result string unit) := exec (at_time 1000) (run id (meets_fine bind)) fresh.

Example a_whole_run :
  kind <$> (event <$> recorded (serving (Ok ())).1.1) = ["gateway_started"; "config_changed"; "gateway_stopped"] ∧
  (serving (Ok ())).1.2 = Some (Ok ()) ∧ dom (users (a_users (serving (Ok ())).2)) = {["admin"]}.
Proof. split_and!; vm_compute; reflexivity. Qed.

(** The web UI's port is in use: the targets were started and had clients, and
    the program ends without a record that it did. *)
Example end_unrecorded :
  let r := serving (Err "binding web UI to 127.0.0.1:8080: address in use") in
  r.1.2 = Some (Err "binding web UI to 127.0.0.1:8080: address in use") ∧
  kind <$> (event <$> recorded r.1.1) = ["gateway_started"; "config_changed"] ∧
  dom (running (s_manager (a_site r.2))) = {["plc1"]}.
Proof. cbv zeta. split_and!; vm_compute; reflexivity. Qed.

Lemma served_on_record_witness :
  steps in_order (serving (Ok ())).1.1 ∧
  ∃ pre b a t e res, (serving (Ok ())).1.1 = pre ++ [LUpdate b a; LClock t; LRecord true e res] ∧
    running (s_manager (a_site a)) = ∅ ∧ event e = GatewayStopped.
Proof.
  assert (Hr : runs (run id (meets_fine (Ok ()))) (serving (Ok ())).1.1 (Ret (Ok ()))).
  { apply exec_returns. vm_compute. reflexivity. }
  destruct (served_on_record id (meets_fine (Ok ())) _ _ Hr) as [Ho He]. split; [exact Ho|exact (He eq_refl)].
Defined.

Definition noted_head : string := "2:" +:+ last_hash store2.

(** The whole trail replaced by one that is intact does not pass. *)
Example another_trail_refused :
  verify (Ok one_line) FileMissing (Some (Ok (conn (append up new_store [closed 11; closed 20]).2))) [noted_head] = Ok 2 ∧
  verify (Ok one_line) FileMissing None [noted_head] = Ok 2 ∧ verify (Ok one_line) FileMissing None [] = Ok 0 ∧
  verify (Ok one_line) FileMissing None ["2"] = Err "--expect 2: use SEQ:HASH".
Proof. split_and!; vm_compute; reflexivity. Qed.

(** Users' changes made with the command line, which the trail does not know
    of: it takes no [audit]. *)
Example last_admin_kept :
  let c name := (user_command "/data/gateway.db" (fun _ => yes) "s" "t1" (Ok "long enough") name two_admins).1 in
  c (Delete "ann") = Ok () ∧
  c (Delete "eve") = Err "no user 'eve' in /data/gateway.db; the users are: ann, bob. Add one with: user add eve" ∧
  (user_command "/data/gateway.db" (fun _ => yes) "s" "t1" (Ok "long enough") (Delete "bob")
     (user_command "/data/gateway.db" (fun _ => yes) "s" "t1" (Ok "long enough") (Delete "ann") two_admins).2).1 ≠ Ok ().
Proof. cbv zeta. split_and!; vm_compute; [reflexivity|reflexivity|discriminate]. Qed.
End MainWitnesses.
