(* ===== verification/Integrity.v ===== *)
(** Well-formed states of the whole gateway: whatever requests, commands, checks
    and connections run at the same time, and wherever each of them stands, the
    configuration is valid, every running target is a configured one, there is
    an admin, and every API token has an id of its own. *)

From S2P Require Import Prelude Net Event Opc Task Steps Sessions Relay Transport Connection Store Query Export Lines Users Config Pipeline Endpoints Browser WebAuth WebUsers Discovery ConfigFile Targets WebTargets WebSettings WebEdits Pki WebCerts WebBrowser WebTrail Mcp Within Router Access Main.

Section Integrity.
Context `{X509Lib} `{!Crypto} `{!Transport.Stack} `{!Channels} `{!Browsing} `{!Serde} `{StoreEnv} `{UserEnv} `{EventJson}.
Context (escape_debug : string → string) (parse_uri : string → result string Uri) (ca_usable : option string → result string unit).
Context (json_extract : string → string → option string) (to_rfc3339 : Z → string).
Context (b64_decode : string → result string Blob) (no_token : NodeId) `{!Routing} `{!Extract}.

(** ** What every step keeps *)
Definition well_formed (a : App) : Prop :=
  Targets.tidy false (s_manager (a_site a)) ∧ has_admin (a_users a) ∧ unique_ids (a_users a).

(** Parts of the state: a target manager stays tidy; the users' tables only take
    their own steps. *)
Definition tidy_site (b a : Site) : Prop := Targets.tidy false (s_manager b) → Targets.tidy false (s_manager a).
Definition evolves (b a : UserDb) : Prop := rtc db_step b a.
Definition sound_app (b a : App) : Prop := tidy_site (a_site b) (a_site a) ∧ evolves (a_users b) (a_users a).
Definition sound_users (b a : Gw) : Prop := evolves (g_db b) (g_db a).
Definition sound_gateway (b a : Gateway) : Prop := sound_app (gx_app b) (gx_app a).

Lemma managed_tidy m m' : managed m' = managed m → Targets.tidy false m → Targets.tidy false m'.
Proof.
  intros [= Hc Hr Hs _] [Hv Ht]. split; [by rewrite Hc|]. intros n r. rewrite Hr, Hc. intros Hn.
  destruct (Ht n r Hn) as [Hst Hrun]. split; [|done]. apply (elem_of_dom (D:=gset string)). rewrite Hs. by apply elem_of_dom.
Qed.
Lemma same_tidy b a : same_config b a → tidy_site b a.
Proof. intros Hs. unfold tidy_site. by apply managed_tidy. Qed.
Lemma same_sound b a : same_app b a → sound_app b a.
Proof. intros [Hg Hu]. split; [|by rewrite Hu; constructor]. unfold tidy_site. apply managed_tidy. by apply (f_equal (λ t, t.1.1)) in Hg. Qed.

Lemma stays_tidy {A} (p : prog Site A) : stays same_config p → stays tidy_site p.
Proof. apply stays_mono, same_tidy. Qed.
Lemma stays_site_sound {A} (p : prog Site A) : stays tidy_site p → stays sound_app (on_site p).
Proof. apply stays_zoom. intros a s Hs. split; [done|constructor]. Qed.
Lemma stays_app_sound {A} (p : prog App A) : stays same_app p → stays sound_app p.
Proof. apply stays_mono, same_sound. Qed.
Lemma stays_manage {A} (f : Manager → A * Manager) : (∀ m, Targets.tidy false m → Targets.tidy false (f m).2) → stays tidy_site (on_manager f).
Proof. intros Hf. unfold on_manager. apply stays_atomic. intros s. exact (Hf (s_manager s)). Qed.

(** ** Changes of the configuration *)
Lemma tidy_settings o f m : (∀ c, targets (f c) = targets c) → Targets.tidy false m → Targets.tidy false (update_settings o f m).2.
Proof.
  intros Hf Ht. pose proof (tidy_apply false o (Settings f) m Hf Ht) as Ha. simpl in Ha.
  by destruct (update_settings o f m).
Qed.
Lemma stays_upsert o t r : stays tidy_site (on_manager (upsert o t r)).
Proof. apply stays_manage. intros m Ht. by apply (tidy_upsert false o t r m). Qed.
Lemma stays_remove o n : stays tidy_site (on_manager (remove o n)).
Proof. apply stays_manage. intros m. apply tidy_remove. Qed.
Lemma stays_settings o f : (∀ c, targets (f c) = targets c) → stays tidy_site (on_manager (update_settings o f)).
Proof. intros Hf. apply stays_manage. intros m. by apply tidy_settings. Qed.

Hint Resolve stays_tidy stays_upsert stays_remove stays_settings stays_site_sound stays_app_sound : stays.
Lemma stays_files {A} (f : gmap string string → A * gmap string string) : stays tidy_site (on_files f).
Proof. apply stays_tidy. unfold on_files. by apply stays_atomic. Qed.
Lemma stays_config : stays tidy_site read_config.
Proof. apply stays_tidy. unfold read_config, on_manager. by apply stays_atomic. Qed.
Lemma stays_close_target n : stays tidy_site (close_target n).
Proof. apply stays_tidy. unfold close_target. stay; done. Qed.
Lemma stays_note u c t : stays tidy_site (note u c t).
Proof. unfold note, config_changed. stay. Qed.
Lemma stays_exports x e : stays tidy_site (apply_exports parse_uri ca_usable x e).
Proof. apply stays_tidy. unfold apply_exports. apply stays_atomic. intros s. by repeat case_match. Qed.
Lemma stays_staged x c i : stays tidy_site (staged parse_uri x c i).
Proof. unfold staged, stage_ca. pose proof @stays_files. stay. Qed.
Lemma stays_read_ca x q : stays tidy_site (read_ca x q).
Proof. unfold read_ca. pose proof @stays_files. stay. Qed.
Lemma stays_move_ca x c q : stays tidy_site (move_ca x c q).
Proof. unfold move_ca. pose proof @stays_files. stay. Qed.
Hint Resolve stays_files stays_config stays_close_target stays_note stays_exports stays_staged stays_read_ca stays_move_ca : stays.

Ltac edit :=
  unfold WebTargets.create_target, WebTargets.update_target, WebTargets.delete_target, target_config, create_group, rename_group,
    delete_group, add_nodes, remove_nodes, change_groups, put_audit, put_export, put_gateway, put_mcp, config_changed;
  stay; first [done|simpl; by apply tidy_groups].
Lemma stays_edit x u op : stays tidy_site (serve_site escape_debug parse_uri ca_usable x u op).
Proof. destruct op; cbn [serve_site]; edit. Qed.

(** ** Certificates and users *)
Lemma stays_pki {A} (p : prog PkiDir A) : stays sound_app (on_pki p) ∧ stays sound_app (on_web_pki p).
Proof.
  split; (apply (stays_zoom _ _ (fun _ _ => True)); [|by apply stays_anything]); intros a d _; (split; [by intros ?|constructor]).
Qed.
Lemma stays_on_pki {A} (p : prog PkiDir A) : stays sound_app (on_pki p).
Proof. apply stays_pki. Qed.
Lemma stays_on_web_pki {A} (p : prog PkiDir A) : stays sound_app (on_web_pki p).
Proof. apply stays_pki. Qed.
Lemma stays_restart x : stays sound_app (restart_targets x).
Proof. apply stays_site_sound, stays_manage. intros m Ht. by apply tidy_start_all, (tidy_stop false). Qed.
Lemma stays_check x n : stays sound_app (check_relay no_token x n).
Proof. apply stays_app_sound, stays_check_relay. Qed.
Lemma stays_recheck : stays sound_app recheck_trust.
Proof. apply stays_app_sound. unfold recheck_trust. by apply stays_atomic. Qed.
Lemma stays_browsers : stays sound_app close_browsers.
Proof. apply stays_app_sound. unfold close_browsers. apply stays_bind; [apply stays_on_site; by apply stays_atomic|intros; apply stays_close_all]. Qed.
Lemma stays_uri x : stays sound_app (application_uri_now x).
Proof. apply stays_app_sound. unfold application_uri_now. apply stays_bind; [apply stays_read_config|intros; apply stays_ret]. Qed.
Lemma stays_url n : stays sound_app (target_url n).
Proof. apply stays_app_sound, stays_target_url. Qed.
Hint Resolve stays_on_pki stays_on_web_pki stays_restart stays_check stays_recheck stays_browsers stays_uri stays_url : stays.

Ltac certify :=
  unfold trust_server, WebCerts.trust_rejected, WebCerts.delete_rejected, WebCerts.untrust, WebCerts.import_own,
    WebCerts.regenerate_own, regenerate_web_certificate, discover_raw, config_changed; stay.
Lemma stays_cert x u op : stays sound_app (serve_cert b64_decode no_token x u op).
Proof. destruct op; cbn [serve_cert]; certify. Qed.

Lemma stays_users_change {A} (f : UserDb → A * UserDb) : (∀ db, db_step db (f db).2) → stays sound_users (users_change f).
Proof. intros Hf. unfold users_change. apply stays_atomic. intros g. apply rtc_once, Hf. Qed.
Lemma stays_same_users {A} (p : prog Gw A) : stays same_users p → stays sound_users p.
Proof. apply stays_mono. intros b a Hs. unfold sound_users. rewrite Hs. constructor. Qed.
Hint Extern 1 (stays sound_users (users_change _)) => apply stays_users_change; intros; constructor : stays.
Lemma stays_close_browser take : stays sound_users (close_browser take).
Proof. apply stays_same_users. unfold close_browser. stay; done. Qed.
Lemma stays_create fs n e : stays sound_users (create_session fs n e).
Proof. apply stays_same_users, stays_create_session. Qed.
Hint Resolve stays_same_users stays_users_read stays_web_map stays_close_browser stays_create : stays.

Ltac account :=
  unfold create_user, update_user, delete_user, revoke_token, WebUsers.create_token, WebUsers.delete_token, change_password,
    remove_sessions_of, start_session, config_changed; stay.

(** ** The assistants' endpoint *)
Lemma stays_given {A} (r : result string A) k : (∀ a, stays sound_app (k a)) → stays sound_app (given r k).
Proof. intros Hk. destruct r; [apply Hk|apply stays_ret]. Qed.
Lemma stays_tool {A} (f : A → ToolAnswer) p : stays sound_app p → stays sound_app (Mcp.reply f p).
Proof. intros Hp. apply stays_bind; [done|intros; apply stays_ret]. Qed.
Lemma stays_get_app : stays sound_app get.
Proof. apply stays_app_sound, stays_app_get. Qed.
Lemma stays_read_site : stays sound_app (on_site read_config).
Proof. apply stays_site_sound, stays_config. Qed.
Lemma stays_config_of n : stays sound_app (config_of n).
Proof. unfold config_of, target_config. apply stays_bind; [apply stays_site_sound; stay|intros; apply stays_ret]. Qed.
Hint Resolve stays_get_app stays_read_site stays_config_of : stays.
Lemma stays_find_group args k : (∀ t i c, stays sound_app (k t i c)) → stays sound_app (find_group args k).
Proof.
  intros Hk. unfold find_group. apply stays_given. intros t. apply stays_bind; [apply stays_config_of|intros]. apply stays_given. intros.
  apply stays_given. intros. apply Hk.
Qed.
Lemma stays_update_audit x u args : stays sound_app (update_audit escape_debug x u args).
Proof.
  unfold update_audit. apply stays_bind; [apply stays_read_site|intros]. apply stays_given; intros. apply stays_given; intros.
  apply stays_tool, stays_site_sound. edit.
Qed.
Lemma stays_tool_acknowledge u args : stays sound_app (acknowledge json_extract u args).
Proof.
  unfold acknowledge. apply stays_given; intros. apply stays_given; intros. apply stays_bind; [apply stays_get_app|intros].
  apply stays_given; intros [mark records]. destruct records; [apply stays_ret|]. apply stays_bind; [apply stays_audit|intros].
  apply stays_given; intros. apply stays_bind; [apply stays_get_app|intros]. apply stays_given; intros; apply stays_ret.
Qed.
Hint Resolve stays_update_audit stays_tool_acknowledge : stays.

(** The tools call the web handlers. *)
Lemma stays_tools x u tool args : stays sound_app (change escape_debug parse_uri ca_usable json_extract no_token x u tool args).
Proof.
  unfold change. repeat (case_match; [clear|]); [..|apply stays_ret];
    repeat first
      [apply stays_update_audit|apply stays_tool_acknowledge|apply stays_given; intros|apply stays_find_group; intros
      |apply stays_bind; [apply stays_config_of|intros]|apply stays_tool].
  all: first [apply stays_site_sound; edit|apply stays_app_sound, stays_discover_url|apply stays_app_sound, stays_certificates|certify].
Qed.

Lemma stays_search x tool args : stays sound_app (call json_extract x tool args).
Proof.
  apply stays_app_sound. unfold call. repeat case_match; try apply stays_ret; try (apply stays_bind; [apply stays_app_get|intros; apply stays_ret]).
  apply stays_bind; [apply stays_clock|intros]. apply stays_bind; [apply stays_app_get|intros; apply stays_ret].
Qed.
Lemma stays_secret x rq : stays sound_app (Mcp.authenticate x rq).
Proof.
  unfold Mcp.authenticate. case_match; [|apply stays_ret]. apply stays_bind.
  - apply stays_atomic. intros a. split; [by intros ?|]. apply rtc_once. simpl. constructor.
  - intros. repeat case_match; try apply stays_ret. apply stays_bind; [|intros; apply stays_ret].
    apply stays_app_sound. by apply stays_atomic.
Qed.
Lemma stays_refusal rq : stays sound_app (Mcp.rejected rq).
Proof.
  apply stays_app_sound. unfold Mcp.rejected. case_match; [|apply stays_ret]. apply stays_bind; [apply stays_clock|intros].
  apply stays_bind; [by apply stays_atomic|intros]. case_match; [|apply stays_ret].
  apply stays_bind; [apply stays_audit|intros; apply stays_ret].
Qed.
Lemma stays_run_tool x c id name args :
  stays sound_app (run_tool escape_debug parse_uri ca_usable json_extract no_token x c id name args).
Proof.
  unfold run_tool. apply stays_bind; [unfold record_call; apply stays_audit|intros w]. apply stays_bind.
  - case_match; [apply stays_ret|]. apply stays_site_sound. apply stays_atomic. intros s. by intros ?.
  - intros. case_match; [apply stays_ret|]. apply stays_bind; [case_match; [apply stays_tools|apply stays_search]|intros; apply stays_ret].
Qed.
Lemma stays_mcp x rq : stays sound_app (Mcp.post escape_debug parse_uri ca_usable json_extract no_token x rq).
Proof.
  unfold Mcp.post. case_match; [apply stays_ret|]. apply stays_bind; [apply stays_secret|intros u].
  case_match; [|apply stays_bind; [apply stays_refusal|intros; apply stays_ret]].
  apply stays_bind; [apply stays_read_site|intros]. repeat (case_match; try apply stays_ret).
  apply stays_bind; [|intros; apply stays_ret]. unfold Mcp.handle. repeat (case_match; try apply stays_ret).
  apply stays_bind; [|intros; apply stays_ret]. unfold tools_call. repeat (case_match; try apply stays_ret); apply stays_run_tool.
Qed.

(** ** Requests *)
Lemma stays_users_gateway {A} (p : prog Gw A) : stays sound_users p → stays sound_gateway (on_gw p).
Proof. apply stays_zoom. intros g w Hw. split; [by intros ?|done]. Qed.
Lemma stays_app_gateway {A} (p : prog App A) : stays sound_app p → stays sound_gateway (on_app p).
Proof. by apply stays_zoom. Qed.
Lemma stays_gateway {A} (p : prog Gateway A) : stays same_gateway p → stays sound_gateway p.
Proof. apply stays_mono. intros b a. apply same_sound. Qed.
Hint Resolve stays_users_gateway stays_app_gateway : stays.
Lemma stays_edits x u op : stays sound_gateway (on_app (on_site (serve_site escape_debug parse_uri ca_usable x u op))).
Proof. apply stays_app_gateway, stays_site_sound, stays_edit. Qed.
Lemma stays_certs x u op : stays sound_gateway (on_app (serve_cert b64_decode no_token x u op)).
Proof. apply stays_app_gateway, stays_cert. Qed.
Hint Resolve stays_edits stays_certs : stays.

Lemma stays_act x rq ps u e :
  stays sound_gateway (act escape_debug parse_uri ca_usable json_extract to_rfc3339 b64_decode no_token x rq ps u e).
Proof.
  destruct (decide (power e = Reads)) as [Hp|Hp]; [by apply stays_gateway, act_reads|].
  assert (Hgroup : ∀ q k, (∀ n i c, stays sound_gateway (k n i c)) → stays sound_gateway (group_path ps q k)).
  { intros q k Hk. unfold group_path. destruct ps as [|p [|i [|]]]; try apply stays_ret. repeat (apply stays_read; intros). apply Hk. }
  assert (Htwo : ∀ k, (∀ n i, stays sound_gateway (k n i)) → stays sound_gateway (two ps k)).
  { intros k Hk. unfold two. destruct ps as [|p [|i [|]]]; try apply stays_ret. repeat (apply stays_read; intros). apply Hk. }
  destruct e; try (by destruct Hp); cbn [Router.act]; unfold plain;
    repeat first
      [apply stays_ret|apply stays_read; intros|apply stays_one_param; intros|apply Hgroup; intros|apply Htwo; intros|apply stays_reply];
    try first [apply stays_edits|apply stays_certs].
  all: apply stays_users_gateway; account.
Qed.

Lemma stays_serve x rq :
  stays sound_gateway (Router.serve escape_debug parse_uri ca_usable json_extract to_rfc3339 b64_decode no_token x rq).
Proof.
  unfold Router.serve. apply stays_bind; [apply stays_gateway, stays_live_names|intros names].
  apply stays_read; intros. apply stays_read; intros. apply stays_read; intros [e ps]. unfold Router.handle. cbn [fst snd].
  destruct (Router.open_handler escape_debug parse_uri ca_usable json_extract no_token x rq e) as [p|] eqn:Ho.
  - destruct (decide (e = E_mcp)) as [->|He]; [injection Ho as <-|exact (stays_gateway _ (open_reads _ _ _ _ _ _ _ _ _ Ho He))].
    apply stays_bind; [apply stays_app_gateway, stays_mcp|intros; apply stays_ret].
  - apply stays_bind; [apply stays_gateway, stays_on_gw, stays_authenticate|intros]. apply stays_read; intros. apply stays_act.
Qed.

(** ** Everything that runs *)

(** [monitor_target], until it is cancelled: this many checks. *)
Fixpoint monitor_target (rounds : nat) (t : TargetConfig) : prog App unit :=
  match rounds with
  | O => mret ()
  | S rounds => found ← discover_raw; _ ← apply_discovered t found; monitor_target rounds t
  end.
(** [reap_idle]: this many minutes *)
Fixpoint reap_rounds (rounds : nat) : prog Site unit :=
  match rounds with O => mret () | S rounds => _ ← reap_idle; reap_rounds rounds end.

Inductive Work : Type :=
(** the gateway from its start to its end *)
| WRun (x : StartMeets)
(** a request to the web server *)
| WRequest (x : HttpMeets) (rq : HttpRequest)
(** the command line, on the users' database *)
| WCommand (path : string) (io : nat → io_oracle) (salt now : string) (prompt : result string string) (cmd : UserCommand)
| WMonitor (rounds : nat) (t : TargetConfig)
| WReap (rounds : nat)
(** a connection of a client, or whatever else runs in a target's relay *)
| WRelay (name : string) (stopped : Shared) (p : prog Shared unit).

Definition work (w : Work) : prog Gateway unit :=
  match w with
  | WRun x => _ ← on_app (Main.run escape_debug x); mret ()
  | WRequest x rq => _ ← Router.serve escape_debug parse_uri ca_usable json_extract to_rfc3339 b64_decode no_token x rq; mret ()
  | WCommand path io salt now prompt cmd => _ ← on_app (on_users (user_command path io salt now prompt cmd)); mret ()
  | WMonitor rounds t => on_app (monitor_target rounds t)
  | WReap rounds => on_app (on_site (reap_rounds rounds))
  | WRelay name stopped p => on_app (on_relay name stopped p)
  end.
(** Loading checks the configuration ([Config.validate_spec]). *)
Definition may_begin (w : Work) : Prop :=
  match w with WRun x => ∀ c, st_config x = Ok c → config_valid c | _ => True end.

Record Service : Type := mkService { sv_now : Gateway; sv_work : list (prog Gateway unit) }.
Definition after (l : label Gateway) (g : Gateway) : Gateway := match l with LUpdate _ a => a | _ => g end.
Definition acts_on (l : label Gateway) (g : Gateway) : Prop := match l with LUpdate b _ => b = g | _ => True end.

(** Something new begins, or one of those that run does its next step. *)
Inductive service_step : Service → Service → Prop :=
| sv_begin s w : may_begin w → service_step s (mkService (sv_now s) (sv_work s ++ [work w]))
| sv_goes s i p l p' :
    sv_work s !! i = Some p → does p l p' → acts_on l (sv_now s) →
    service_step s (mkService (after l (sv_now s)) (<[i := p']> (sv_work s))).

Lemma stays_ask {S E A B} (R : S → S → Prop) (r : result E A) (k : A → prog S (result E B)) :
  (∀ a, r = Ok a → stays R (k a)) → stays R (match r with Ok a => k a | Err e => mret (Err e) end).
Proof. intros Hk. destruct r; [by apply Hk|apply stays_ret]. Qed.
Lemma stays_on_users {A} (f : UserDb → result string A * UserDb) : (∀ db, evolves db (f db).2) → stays sound_app (on_users f).
Proof. intros Hf. unfold on_users. apply stays_atomic. intros a. split; [by intros ?|apply Hf]. Qed.
Lemma stays_by_gateway l : stays sound_app (each_by_gateway l).
Proof. induction l; cbn [each_by_gateway]; [apply stays_ret|]. apply stays_bind; [unfold by_gateway; stay|done]. Qed.
Lemma stays_first_admin x : stays sound_app (first_admin x).
Proof.
  unfold first_admin. apply stays_bind; [apply stays_on_users; intros; constructor|intros n]. apply stays_ask. intros m _.
  case_match; [|apply stays_ret]. apply stays_bind.
  - unfold create_initial_admin. apply stays_bind; [case_match; stay|intros]. apply stays_on_users. intros. apply rtc_once. constructor.
  - intros. apply stays_ask. intros. apply stays_bind; [unfold by_gateway; stay|intros; apply stays_ret].
Qed.
Lemma stays_fixes x c : stays sound_app (apply_fixes escape_debug x c).
Proof.
  unfold apply_fixes. case_match; [apply stays_ret|]. apply stays_bind.
  - unfold write_targets. apply stays_site_sound, stays_manage. intros m Ht. by destruct (write_file _ _ _).
  - intros. apply stays_ask. intros. apply stays_bind; [apply stays_by_gateway|intros; apply stays_ret].
Qed.
Lemma stays_start o c : config_valid c → stays sound_app (start_targets o c).
Proof. intros Hc. apply stays_site_sound, stays_manage. intros m _. apply tidy_start_all. by split. Qed.
Lemma stays_stop : stays sound_app stop_targets.
Proof. apply stays_site_sound, stays_manage. intros m. apply tidy_stop. Qed.

Lemma stays_run x : may_begin (WRun x) → stays sound_app (Main.run escape_debug x).
Proof.
  intros Hx. unfold Main.run, ask. apply stays_ask. intros c Hc. pose proof (stays_start (st_outside x) c (Hx c Hc)).
  pose proof stays_first_admin. pose proof stays_fixes. pose proof stays_stop. apply stays_ask; intros.
  apply stays_bind; [apply stays_on_pki|intros]. unfold https, by_gateway. stay.
Qed.

Lemma stays_work w : may_begin w → stays sound_gateway (work w).
Proof.
  assert (Hun : ∀ {A} (p : prog Gateway A), stays sound_gateway p → stays sound_gateway (_ ← p; mret ())).
  { intros A p Hp. apply stays_bind; [done|intros; apply stays_ret]. }
  destruct w as [x|x rq|path io salt now prompt cmd|rounds t|rounds|name stopped p]; intros Hw; cbn [work].
  - by apply Hun, stays_app_gateway, stays_run.
  - apply Hun, stays_serve.
  - apply Hun, stays_app_gateway, stays_on_users. intros db.
    destruct (user_command_step path io salt now prompt cmd db) as [->|Hs]; [constructor|by apply rtc_once].
  - clear Hw. apply stays_gateway, stays_on_app. induction rounds; cbn [monitor_target]; [apply stays_ret|].
    apply stays_bind; [apply stays_discover_raw|intros]. by apply stays_bind; [apply stays_apply_discovered|].
  - clear Hw. apply stays_gateway, stays_on_app_site. unfold reap_idle, close_taken. induction rounds; cbn [reap_rounds]; [apply stays_ret|]. stay; done.
  - apply stays_gateway, stays_on_app. unfold on_relay. apply (stays_zoom _ _ (fun _ _ => True)); [done|]. by apply stays_anything.
Qed.

(** *** The whole gateway *)
Definition within_bounds (p : prog Gateway unit) : Prop := ∃ p0 ls, stays sound_gateway p0 ∧ runs p0 ls p.

Lemma bounds_step p l p' : within_bounds p → does p l p' → within sound_gateway l ∧ within_bounds p'.
Proof.
  intros (p0 & ls & Hs & Hr) Hd. assert (Hr' : runs p0 (ls ++ [l]) p').
  { eapply runs_app; [exact Hr|]. eapply runs_step; [exact Hd|constructor]. }
  split; [|by exists p0, (ls ++ [l])]. apply (spec_sound _ _ _ _ _ Hs) in Hr' as [Hl _].
  apply Forall_app in Hl as [_ Hl]. by inversion Hl.
Qed.

Lemma sound_well_formed b a : sound_app b a → well_formed b → well_formed a.
Proof.
  intros [Ht Hu] (Htidy & Hadmin & Hids). split; [by apply Ht|]. clear Ht Htidy.
  induction Hu as [|d d' d'' Hd _ IH]; [done|]. apply IH; [by eapply step_keeps_admin|by eapply step_unique_ids].
Qed.

Definition service_ok (s : Service) : Prop := well_formed (gx_app (sv_now s)) ∧ Forall within_bounds (sv_work s).
Lemma service_step_ok s s' : service_step s s' → service_ok s → service_ok s'.
Proof.
  intros [s0 w Hw|s0 i p l p' Hi Hd Hon] [Hg Hf]; (split; [|]); simpl.
  - done.
  - apply Forall_app. split; [done|]. apply Forall_singleton. exists (work w), []. split; [by apply stays_work|constructor].
  - rewrite Forall_lookup in Hf. destruct (bounds_step _ _ _ (Hf _ _ Hi) Hd) as [Hl _].
    destruct l; simpl in *; try done. subst. by eapply sound_well_formed.
  - rewrite Forall_lookup in Hf. destruct (bounds_step _ _ _ (Hf _ _ Hi) Hd) as [_ Hp]. apply Forall_insert; [by apply Forall_lookup|done].
Qed.


(** The work at position [i], run on to its end by itself. *)
Definition finished (wd : World) (i : nat) (p : prog Gateway unit) (s : Service) : Service :=
  let r := exec wd p (sv_now s) in
  mkService r.2 (<[i := match r.1.2 with Some a => Ret a | None => Panic end]> (sv_work s)).
Lemma alone_reachable wd i p s : sv_work s !! i = Some p → rtc service_step s (finished wd i p s).
Proof.
  unfold finished. destruct s as [g ws]. cbn [sv_now sv_work].
  generalize (eq_refl (<[i := match (exec wd p g).1.2 with Some a => Ret a | None => Panic end]> ws)).
  generalize (<[i := match (exec wd p g).1.2 with Some a => Ret a | None => Panic end]> ws) at 1 3. revert g ws.
  induction p as [a| |k IH|k IH|c e k IH|f k IH|k IH|r t k IH|r k IH|x po k IH|e k IH|k IH]; intros g ws ws' -> Hi; cbn [exec fst snd].
  1, 2: rewrite list_insert_id by done; constructor.
  all: lazymatch goal with
    | |- context [exec ?wd' ?p' ?g'] =>
        eapply rtc_l; [eapply (sv_goes (mkService g ws) i _ _ p' Hi); [once constructor|done]|];
        cbn [after sv_now sv_work]; apply IH; [by rewrite list_insert_insert_eq|apply list_lookup_insert_eq; by eapply lookup_lt_Some]
    end.
Qed.
Lemma finished_others wd i p s j : i ≠ j → sv_work (finished wd i p s) !! j = sv_work s !! j.
Proof. apply list_lookup_insert_ne. Qed.
End Integrity.

(** ** A run *)
Section IntegrityWitness.
Import ToyNodes ToyOpc ToyRelay ToyStack ToyConnection ToyX509 Toy ToyUsers.
Existing Instances opc x509.
#[local] Existing Instances WebBrowser.toy_browsing Mcp.toy_serde Lines.toy_json Access.toy_routing Access.toy_extract.

Definition doing (w : Work) : prog Gateway unit :=
  work no_text no_uri any_ca no_json (fun _ => "") WebCerts.no_b64 null_token w.
Definition going : Service → Service → Prop := service_step no_text no_uri any_ca no_json (fun _ => "") WebCerts.no_b64 null_token.

(** A target is deleted from the web, and the admin who did it from the command
    line, while the target is still checked. *)
Definition delete_ann : Work := WCommand "users.db" (fun _ => yes) "s" "t1" (Err "no prompt") (Delete "ann").
Definition delete_plc1 : Work := WRequest http_meets (delete_plc (Some CSRF_VALUE) (Some "a")).
Definition check_plc1 : Work := WMonitor 2 plc1.
Definition begun : Service := mkService served (doing <$> [delete_plc1; check_plc1; delete_ann]).
Definition later : Service :=
  let step i w s := finished with_plc i (doing w) s in
  step 1%nat check_plc1 (step 2%nat delete_ann (step 0%nat delete_plc1 begun)).

Lemma served_well_formed : well_formed (gx_app served).
Proof.
  split; [split; [apply validate_Ok; vm_compute; reflexivity|intros n r Hn; by destruct (lookup_empty_Some n r Hn)]|].
  split; [|constructor]. exists "ann", (mkUserRow "s$ann's secret" "admin" "t0" 0 false). by split.
Qed.

Lemma later_reachable : rtc going (mkService served []) later.
Proof.
  unfold later. etrans; [|apply alone_reachable; by rewrite !finished_others].
  etrans; [|apply alone_reachable; by rewrite !finished_others].
  etrans; [|by apply alone_reachable].
  eapply rtc_l; [by apply (sv_begin _ _ _ _ _ _ _ (mkService served []) delete_plc1)|].
  eapply rtc_l; [by apply (sv_begin _ _ _ _ _ _ _ (mkService served [_]) check_plc1)|].
  apply rtc_once. by apply (sv_begin _ _ _ _ _ _ _ (mkService served [_; _]) delete_ann).
Qed.

End IntegrityWitness.
